(* ===== verification/_CoqProject ===== *)
-Q . S2P
Prelude.v
golang.v
utf8.v
heap.v
floats.v
strconv.v
fmt.v
domain.v
external.v
repository.v
memory.v
sql.v
postgres.v
service.v
interleave.v
system.v
usecases.v
httpapi.v
worker.v
machine.v
pagination.v
retry.v
priority.v
route.v
reconciliation.v
bulk.v
locks.v
workerpool.v
stream.v
capacity.v
booking.v
warehouse.v
transport.v
finance.v
customs.v
idempotency.v
ratelimit.v
approvals.v
aggregate.v
collections.v
filter.v
search.v
timeline.v
pricing.v
labels.v
permissions.v
alerts.v
tenant.v
scan.v
redaction.v
version.v
sequence.v
claims.v
retention.v
eta.v
healthcheck.v
metrics.v
notification.v
rules.v
report.v
checksum.v
codec.v
manifest.v
snapshot.v
audit.v
config.v
locale.v
masking.v
stringsx.v
validation.v
event.v
ratios.v
geo.v
migration.v
server.v
outbox.v
stores.v
agreement.v
gate.v
scenario.v
