(* ===== verification/Prelude.v ===== *)
(** * AirBridge cargo operations: a verification library

    AirBridge is a server for air cargo.  Tenants' users create shipments, book
    them on flight legs, have them cleared by customs and screened, and follow
    them to departure.  The library models the server from its HTTP handlers down
    to its two stores, and the packages beside it that keep state of their
    own, and proves what makes each of them correct.

    ** The core

    A request runs through four layers, and so does the model:

    - [httpapi] (src/internal/httpapi/server.go, middleware/http.go): a
      [http_request] names a route and carries its decoded body; [handle]
      authenticates, calls the use case and turns the outcome into a [response];
      [New] is the router behind the middleware.
    - [service] (service/application.go): each use case of [Application] is a
      program ([prog]) that calls the store; its guards and early returns are the
      source's.  [auth], a module of [external] (auth/token.go, password.go), hashes
      tokens.
    - [repository] (repository/repository.go): the [Store] interface.  A method is
      a constructor of [storeop] whose index is the type it returns; an
      implementation is an instance of the class [Store].  [store_post] is the
      contract of a store whose errors are sure, [store_may] that of one whose errors
      may hide a change that was made whole; a [LawfulStore] keeps the latter, which
      is all that the theorems on interleavings use.
    - [memory] (repository/memory/store.go): the in-memory store, a record of maps
      with a function per method, and its instance of [LawfulStore].
    - [sql], [postgres] (repository/postgres, migrations/001_core.sql): the tables
      and constraints of the schema with the meaning of each SQL statement, and the
      methods over them, with transactions, error handling and an environment that
      decides what becomes of each statement ([fate]: processed, refused, or
      effective with its acknowledgement lost); the second instance of
      [LawfulStore].

    [domain] (domain/types.go, rules.go, errors.go, pagination.go) has the records,
    status machines, validation rules and errors they share; [golang] the parts of
    the language: [int64] with its wrap-around, instants and durations in
    nanoseconds, byte strings, sorting, IEEE binary64; [external] what comes from
    outside the repository.  [worker] (worker/outbox.go) is the outbox loop over
    the same store.

    Time and randomness are arguments: a definition takes the clock reading or the
    random identifier that the source asks for.  Errors are values of [error] with
    the wrapping of fmt.Errorf, and a fallible function returns [result].  A Go map
    is iterated in an order of no kind: where the source ranges over a map the
    definition takes the order of the keys as an argument, and theorems hold for
    every order ([range_order]).  A zero value that is returned beside an error is
    not modelled, no caller reads it.

    ** Interleaving

    Each method of the in-memory store holds its lock throughout, and each method of
    the PostgreSQL store is one statement or one transaction that locks the rows it
    decides on, so a call is one atomic step.  The exception is the listing of
    shipments over PostgreSQL, which counts them in a second query: the count may
    come from a database that others have changed in between ([Later]), and the
    contract says nothing of it.  A request is a sequence of such steps between which other requests
    run.  [interleave] defines the steps of a pool of programs ([pool_step]) and a
    rely-guarantee judgement ([safe]) that is proved once per program; [pool_sound]
    then gives every interleaving.  [system] states the invariant of the tables
    ([good]), what every call may do to them ([grow], [isolated]), proves [safe] for
    every use case from the contract alone, and concludes, for any number of
    requests in any interleaving over any lawful store: [no_overbooking],
    [shipment_history], [no_lost_update], [tenant_isolation],
    [deactivated_for_good].  [server_under_load] in [httpapi] carries the invariant
    to HTTP requests.

    [server] (cmd/server/main.go) is the whole process: [main], the goroutines of
    the requests and the outbox worker on one store.  [process_keeps_cargo] carries
    the invariant to it, and [shutdown_completes] shows that a stopped process can
    always come to its end and never cuts a tick short.  The return of [main] is one
    step; the deferred closing of the pool is part of it, and nothing runs after it.

    The hypotheses of these theorems: fewer than 2^63 - 1 calls, so that versions
    do not wrap; requests are [sane], that is, weights and capacities are at most
    2^62 - 1, so that two of them add up within [int64], a new shipment comes without
    a leg and a new leg without reservations (the source accepts these fields from
    the client, and then the claims fail); and the start is [good], that is, it has
    these properties already, as a store without cargo does.
    [ValidateCapacity_meaning] shows what the capacity check accepts beyond the bound.

    ** Use cases one at a time

    [usecases] runs use cases alone on the in-memory store: when exactly a booking
    or a transition succeeds and what it changes, the life of a session, the
    idempotency of creations, the page that a listing returns, and two behaviours
    that the source's tests do not show (a customs case filed under an identifier
    that the gate does not look up; idempotency keys shared between tenants).
    [httpapi] has the response of every handler, [worker] the exclusiveness of
    claims, the outcome of a tick and that repeated ticks publish what is due.

    ** Two stores

    [memory_implements_store] and [postgres_implements_store] prove the contract of
    each store, so every theorem on interleavings holds over both.  [stores] puts
    them side by side: they decide bookings alike ([stores_agree_on_bookings]), a
    method of the PostgreSQL store that reports an error is all or nothing
    ([postgres_error_is_all_or_nothing]), and three behaviours that the in-memory
    store does not have (legs reopened, one shipment without an idempotency key, a
    total that does not fit its page).  What is assumed of the server: a statement
    has the documented meaning, a [text] is UTF-8 without NUL and any other argument
    is refused ([bound]), and a transaction is atomic and isolated: its commit takes
    effect as a whole or not at all, and an error at the commit may be either.

    [outbox] follows claimed events over the PostgreSQL store: those of a tick that
    is cancelled before its marks stay claimed for ever ([cancelled_tick_strands]).

    [agreement] runs the whole application over both: from stores that mirror each
    other the same HTTP requests get the same responses and the stores mirror each
    other again ([stores_interchangeable]), for the requests that are [portable].
    The conditions of [portable] name what sets the two stores apart for a client;
    [nul_text_splits] is a request outside them.  No statement fails there.
    Sessions are compared up to the instant of a revocation ([session_equiv]).

    [gate] shows over the PostgreSQL store that cargo on board has been released by
    customs ([loaded_cargo_is_released]), request after request and whatever fails
    outside the recording of a case; a failure there, or a race, can lose the release
    ([gate_lost], [gate_raced]).  Cargo that fits an open leg gets from the booking to
    the departure ([cargo_gets_through]).

    [migration] (repository/postgres/migration.go) has the start-up migrations:
    several servers start on one database, each a process of single statements, and
    the database has a prefix of the sorted migrations throughout, whatever
    statements fail and though the acknowledgement of a commit may be lost; two
    start-ups at the same time can make one of them fail.

    ** Packages beside the core

    Each is a file named after its package: its state, its operations, an inductive
    type [op] of calls where it keeps state, and its theorems.  [machine] has the
    generic part: runs of calls ([after]), legal runs ([legal]), and how invariants
    and two-state properties pass along them.

    - [capacity], [booking], [warehouse], [transport], [finance]: accounting
      ledgers.  Used weight is the sum of what was taken and stays within its limit;
      bookings of a slot do not overlap; a vehicle has one assignment; balances are
      the sums of their entries.
    - [customs], [approvals], [aggregate]: reviews, decisions and transitions.
      Outcomes are the documented ones, decisions are final, events replay to the
      status.
    - [idempotency], [ratelimit]: replay of completed keys, bound on a burst.
    - [pagination], [retry], [reconciliation], [route], [priority]: algorithms.
      Cursors survive encoding, retries are bounded and their delays double,
      comparisons report the differences, the planner finds a journey when there is
      one, the heap sorts.  [strconv], [floats] and [heap] are the parts of the
      standard library they use.
    - [bulk], [locks], [workerpool], [stream]: goroutines and channels as step
      relations of a pool ([machine]).  Batches end with a result per value, a
      key has one holder, a stopped pool returns, subscribers receive in order.
    - [alerts], [tenant], [scan], [claims], [retention] (and [expiry]), [audit],
      [metrics], [notification], [rules]: registries and lifecycles.  Alerts close
      once, deactivated tenants stay out, a shipment is blocked while its last scan
      failed, claims are decided once, held records are not deleted, counters hold
      sums, failing senders lose no later message, the first failing rule answers.
    - [search], [filter], [timeline], [report], [pricing], [eta], [collections]
      (with the modules [sets] and [sortx]): queries and sorts.  Answers are exactly
      what is asked for, best or newest first, in any iteration order and under any sort with the laws of
      sort.Slice ([SortSlice]).
    - [labels], [version], [event], [manifest], [snapshot], [checksum], [sequence],
      [codec]: texts and digests.  Labels, versions and payloads are read back, manifests and
      snapshots do not depend on the order of their parts and show changes, the
      references of a day are distinct.  [fmt] has scanning, padding and the
      calendar.
    - [permissions], [redaction], [masking], [validation], [stringsx], [config],
      [locale], [ratios], [geo], [healthcheck] (with the module [health]): the table of
      permissions agrees with the use cases but for one action, redacted data has
      no sensitive value above lists of lists, masks let through no more than they
      say.  [utf8] has runes and byte slices.

    ** Files

    [Prelude] has the tactics ([split_cases], [clean_conditions]), the hint
    database [go], sums over maps, iteration orders, maps keyed by a field.
    [scenario] has concrete runs of the core: they are the witnesses that the
    hypotheses of its theorems can hold, and tests of the executable definitions.

    ** Not modelled

    The matching of paths to routes by chi, the decoding and encoding of JSON bodies
    and the listening socket with its timeouts (a request arrives as its route with
    the decoded body, a signal is a step of [server]); the wrapper around time.Now in
    [domain] (domain/clock.go), whose readings are arguments.  SHA-256, bcrypt and
    Unicode case mapping are the parameters of [External] ([CollisionFree] where a
    theorem needs that digests do not collide), and likewise pgxpool, encoding/json,
    compress/gzip, net/mail, time.ParseDuration, time.ParseInLocation, the
    trigonometric functions, the classes of letters and the offsets of time zones are
    arguments of the definitions that use them. *)

From stdpp Require Export base tactics decidable option list gmap fin_maps strings.
From stdpp Require Export numbers sorting relations.
From Stdlib Require Export ZArith Lia Ascii.
From Stdlib Require Decidable.

(** ** Scopes *)

(** The integers of the development are Go's machine integers as [Z]. *)
#[export] Set Warnings "-notation-overridden,-clear-no-such-hyp".
Declare Scope go_scope.
Delimit Scope go_scope with go.
#[global] Open Scope Z_scope.
#[global] Open Scope go_scope.

(** ** Automation *)

(** The library's automatic facts: preservation of invariants, frame
    conditions, side conditions of the operations. *)
Create HintDb go discriminated.

(** [split_cases] opens every branch of the executable definitions met in the
    hypotheses and in the goal, and discards the branches that contradict the
    context. *)
Ltac split_cases_step :=
  match goal with
  | H : context [match ?x with _ => _ end] |- _ =>
      lazymatch x with
      | context [match _ with _ => _ end] => fail
      | decide _ => destruct x
      | _ => let E := fresh "E" in destruct x eqn:E
      end
  | |- context [match ?x with _ => _ end] =>
      lazymatch x with
      | context [match _ with _ => _ end] => fail
      | decide _ => destruct x
      | _ => let E := fresh "E" in destruct x eqn:E
      end
  end.

(** Turns the conditions of the code into propositions. *)
Ltac clean_conditions :=
  repeat match goal with
  | H : ~ (_ <> _) |- _ => apply dec_stable in H
  | H : ~ (_ \/ _) |- _ => apply Decidable.not_or in H as [? ?]
  | H : negb _ = false |- _ => apply negb_false_iff in H
  | H : negb _ = true |- _ => apply negb_true_iff in H
  | H : (_ || _)%bool = false |- _ => apply orb_false_iff in H as [? ?]
  | H : (_ && _)%bool = true |- _ => apply andb_true_iff in H as [? ?]
  | H : bool_decide _ = true |- _ => apply bool_decide_eq_true in H
  | H : bool_decide _ = false |- _ => apply bool_decide_eq_false in H
  end.

Ltac split_cases_clean := clean_conditions; simplify_eq/=.

Ltac split_cases := split_cases_clean; repeat (split_cases_step; split_cases_clean).

(** [lookup_cases] normalises every lookup in an updated finite map. *)
Ltac lookup_cases :=
  repeat match goal with
  | H : context [<[_:=_]> _ !! _] |- _ => rewrite lookup_insert in H
  | H : context [delete _ _ !! _] |- _ => rewrite lookup_delete in H
  | |- context [<[_:=_]> _ !! _] => rewrite lookup_insert
  | |- context [delete _ _ !! _] => rewrite lookup_delete
  | |- context [decide (?a = ?a)] => rewrite (decide_True_pi eq_refl)
  | _ => case_decide; simplify_eq/=
  end.

(** ** Sums over finite maps *)

Section map_sum.
Context {A : Type}.
Implicit Types (f g : A -> Z) (m : gmap string A).

(** The sum of [f] over the values of a map. *)
Definition map_sum f m : Z := map_fold (fun _ v acc => f v + acc) 0 m.

Lemma map_sum_empty f : map_sum f ∅ = 0.
Proof. apply map_fold_empty. Qed.

Lemma map_sum_insert f m k v :
  m !! k = None -> map_sum f (<[k:=v]> m) = f v + map_sum f m.
Proof. intros Hk. unfold map_sum. rewrite map_fold_insert_L; [done| |done]. intros; lia. Qed.

Lemma map_sum_delete f m k v :
  m !! k = Some v -> map_sum f m = f v + map_sum f (delete k m).
Proof.
  intros Hk. rewrite <- (insert_delete_id m k v Hk) at 1.
  apply map_sum_insert, lookup_delete_eq.
Qed.

Lemma map_sum_update f m k v w :
  m !! k = Some v -> map_sum f (<[k:=w]> m) = map_sum f m - f v + f w.
Proof.
  intros Hk. rewrite <- insert_delete_eq, map_sum_insert by apply lookup_delete_eq.
  rewrite (map_sum_delete f m k v Hk). lia.
Qed.

Lemma map_sum_nonneg f m :
  (forall k v, m !! k = Some v -> 0 <= f v) -> 0 <= map_sum f m.
Proof.
  induction m as [|k v m Hk IH] using map_ind; intros Hf.
  { by rewrite map_sum_empty. }
  rewrite map_sum_insert by done.
  assert (0 <= f v) by (apply (Hf k); apply lookup_insert_eq).
  assert (0 <= map_sum f m); [|lia].
  apply IH. intros j w Hj. apply (Hf j). by rewrite lookup_insert_ne by congruence.
Qed.

Lemma map_sum_ext f g m :
  (forall k v, m !! k = Some v -> f v = g v) -> map_sum f m = map_sum g m.
Proof.
  induction m as [|k v m Hk IH] using map_ind; intros Hf; [done|].
  rewrite !map_sum_insert by done. rewrite (Hf k v) by apply lookup_insert_eq.
  rewrite IH; [done|]. intros j w Hj. apply (Hf j). by rewrite lookup_insert_ne by congruence.
Qed.

Lemma map_sum_zero f m :
  (forall k v, m !! k = Some v -> f v = 0) -> map_sum f m = 0.
Proof.
  intros Hf. rewrite (map_sum_ext f (fun _ => 0)) by done.
  induction m as [|k v m Hk IH] using map_ind; [done|].
  rewrite map_sum_insert by done. rewrite IH; [done|].
  intros j w Hj. apply (Hf j). by rewrite lookup_insert_ne by congruence.
Qed.
End map_sum.

(** ** Iteration over a map *)

Section range.
Context {A : Type}.
Implicit Types (m : gmap string A) (ks : list string).

(** [range_order m ks]: the keys in one order in which a [range] loop may meet
    them.  Go leaves the order open, so the loops whose result depends on it take
    the order as an argument and their theorems hold for every one of them. *)
Definition range_order m ks : Prop := NoDup ks /\ (forall k, k ∈ ks <-> is_Some (m !! k)).

(** The values met by the loop. *)
Definition range_values m ks : list A := omap (fun k => m !! k) ks.

Lemma range_order_exists m : range_order m (map_to_list m).*1.
Proof.
  split; [apply NoDup_fst_map_to_list|]. intros k. rewrite list_elem_of_fmap. split.
  - intros ([k' v] & -> & Hv%elem_of_map_to_list). by exists v.
  - intros [v Hv]. exists (k, v). split; [done|]. by apply elem_of_map_to_list.
Qed.

Lemma elem_of_range_values m ks v :
  range_order m ks -> v ∈ range_values m ks <-> exists k, m !! k = Some v.
Proof.
  intros [_ Hks]. unfold range_values. rewrite list_elem_of_omap. split.
  - intros (k & _ & Hk). by exists k.
  - intros (k & Hk). exists k. split; [|done]. apply Hks. by exists v.
Qed.

(** Every order meets the same values. *)
Lemma range_values_perm m ks : range_order m ks -> range_values m ks ≡ₚ (map_to_list m).*2.
Proof.
  intros [Hnd Hks]. trans (range_values m (map_to_list m).*1).
  - apply omap_Permutation, NoDup_Permutation; [done|apply NoDup_fst_map_to_list|].
    intros k. rewrite Hks. destruct (range_order_exists m) as [_ H]. by rewrite H.
  - unfold range_values.
    assert (Hl : forall l : list (string * A),
      (forall k v, (k, v) ∈ l -> m !! k = Some v) -> omap (fun k => m !! k) l.*1 = l.*2).
    { induction l as [|[k v] l IH]; intros Hin; [done|]. simpl.
      rewrite (Hin k v) by set_solver. f_equal. apply IH. set_solver. }
    rewrite Hl; [done|]. intros k v. apply elem_of_map_to_list.
Qed.

(** The loop that copies a map into another one. *)
Definition copy_onto m ks (out : gmap string A) : gmap string A :=
  foldl (fun out k => match m !! k with Some v => <[k := v]> out | None => out end) out ks.

Lemma copy_onto_lookup m ks out k :
  copy_onto m ks out !! k = if decide (k ∈ ks /\ is_Some (m !! k)) then m !! k else out !! k.
Proof.
  unfold copy_onto. revert out. induction ks as [|x ks IH]; intros out; cbn [foldl].
  { rewrite decide_False; [done|]. by intros [?%elem_of_nil _]. }
  rewrite IH. destruct (decide (k ∈ ks /\ is_Some (m !! k))) as [Hin|Hin].
  - rewrite decide_True; [done|]. set_solver.
  - destruct (decide (k = x)) as [->|Hne].
    + destruct (m !! x) as [v|] eqn:Hx.
      * rewrite decide_True by (split; [set_solver|eauto]). by rewrite lookup_insert_eq.
      * rewrite decide_False; [done|]. intros [_ [? ?]]. done.
    + rewrite decide_False by set_solver. destruct (m !! x); [|done]. by rewrite lookup_insert_ne.
Qed.

(** A full copy has the bindings of the map over those it is written onto. *)
Lemma copy_onto_union m ks out : range_order m ks -> copy_onto m ks out = m ∪ out.
Proof.
  intros [_ Hin]. apply map_eq. intros k. rewrite copy_onto_lookup, lookup_union.
  destruct (m !! k) eqn:Hk.
  - rewrite decide_True by (split; [apply Hin|]; eauto). by destruct (out !! k).
  - rewrite decide_False by (intros [_ [? ?]]; done). by destruct (out !! k).
Qed.
End range.

(** ** Lists *)

Lemma filter_all {A} (P : A -> Prop) `{!forall x, Decision (P x)} (l : list A) :
  Forall P l -> filter P l = l.
Proof.
  induction 1 as [|x l Hx _ IH]; [done|]. by rewrite filter_cons_True, IH.
Qed.

Lemma StronglySorted_weaken {A} (R R' : A -> A -> Prop) (l : list A) :
  (forall x y, R x y -> R' x y) -> StronglySorted R l -> StronglySorted R' l.
Proof.
  intros Himp. induction 1 as [|x l Hl IH Hx]; constructor; [done|].
  eapply Forall_impl; [exact Hx|]. auto.
Qed.

(** ** Maps of records *)

Section keyed.
Context {A : Type}.
Implicit Types (key : A -> string) (m : gmap string A) (idx : gmap string string).

(** Every record is filed under its own key. *)
Definition keyed key m : Prop := forall k v, m !! k = Some v -> key v = k.

(** Every entry of an index names a record. *)
Definition points_to idx m : Prop := forall e k, idx !! e = Some k -> is_Some (m !! k).

Lemma keyed_empty key : keyed key ∅.
Proof. by intros ? ? ?%lookup_empty_Some. Qed.

Lemma keyed_insert key m v : keyed key m -> keyed key (<[key v := v]> m).
Proof. intros Hm k w. rewrite lookup_insert. case_decide; naive_solver. Qed.

Lemma keyed_update key m k v w :
  keyed key m -> m !! k = Some v -> key w = key v -> keyed key (<[k := w]> m).
Proof.
  intros Hm Hk Hw j u. rewrite lookup_insert. case_decide as Hj; [|apply Hm].
  intros [= <-]. rewrite Hw, <- Hj. by apply Hm.
Qed.

(** The keys of the values a loop meets are the keys it runs over. *)
Lemma keyed_range key m ks :
  keyed key m -> (forall k, k ∈ ks -> is_Some (m !! k)) -> key <$> range_values m ks = ks.
Proof.
  intros Hm. induction ks as [|k ks IH]; intros Hks; [done|].
  destruct (Hks k) as [v Hv]; [set_solver|]. unfold range_values in *. simpl. rewrite Hv.
  simpl. rewrite (Hm _ _ Hv). f_equal. apply IH. set_solver.
Qed.

Lemma keyed_values_NoDup key m : keyed key m -> NoDup (map_to_list m).*2.
Proof.
  intros Hm. destruct (range_order_exists m) as [Hnd Hks].
  rewrite <- (range_values_perm m (map_to_list m).*1) by done.
  apply (NoDup_fmap_1 key). rewrite keyed_range; [done..|]. intros k. apply Hks.
Qed.

Lemma points_to_empty m : points_to ∅ m.
Proof. by intros ? ? ?%lookup_empty_Some. Qed.

Lemma points_to_record idx m k v : points_to idx m -> points_to idx (<[k := v]> m).
Proof. intros Hm e j He. rewrite lookup_insert. case_decide; [done|]. by apply (Hm e). Qed.

Lemma points_to_entry idx m e k v :
  points_to idx m -> m !! k = Some v -> points_to (<[e := k]> idx) m.
Proof. intros Hm Hk e' j. rewrite lookup_insert. case_decide; [|apply Hm]. naive_solver. Qed.

Lemma points_to_new idx m e k v : points_to idx m -> points_to (<[e := k]> idx) (<[k := v]> m).
Proof. intros Hm. eapply points_to_entry; [by apply points_to_record|]. apply lookup_insert_eq. Qed.
End keyed.

#[export] Hint Resolve keyed_empty keyed_insert points_to_empty points_to_record
  points_to_new : go.
#[export] Hint Extern 2 (keyed _ (<[_ := _]> _)) => eapply keyed_update; [| eassumption |] : go.
