(* ===== verification/golang.v ===== *)
(** * The parts of Go the program uses

    Machine integers with their wrap-around, instants and durations, byte
    strings and [strings.TrimSpace], hexadecimal, [sort].  A Go [int] is the
    64-bit one of the server platforms. *)

From Stdlib Require Import SpecFloat.
From S2P Require Import Prelude.
From Stdlib Require Import OrdersEx.

(** ** int64 *)

Definition min_int64 : Z := - 2 ^ 63.
Definition max_int64 : Z := 2 ^ 63 - 1.

(** Two's complement reduction: the value an [int64] holds after an operation
    whose exact result is [z]. *)
Definition wrap64 (z : Z) : Z := (z + 2 ^ 63) mod 2 ^ 64 - 2 ^ 63.

Definition add64 (a b : Z) : Z := wrap64 (a + b).
Definition sub64 (a b : Z) : Z := wrap64 (a - b).
Definition mul64 (a b : Z) : Z := wrap64 (a * b).

Definition in_int64 (z : Z) : Prop := min_int64 <= z <= max_int64.

#[export] Instance in_int64_dec z : Decision (in_int64 z).
Proof. unfold in_int64. apply _. Defined.

Lemma wrap64_in z : in_int64 (wrap64 z).
Proof.
  unfold in_int64, wrap64, min_int64, max_int64.
  pose proof (Z.mod_pos_bound (z + 2 ^ 63) (2 ^ 64) ltac:(lia)). lia.
Qed.

Lemma wrap64_id z : in_int64 z -> wrap64 z = z.
Proof.
  unfold in_int64, wrap64, min_int64, max_int64. intros H.
  rewrite Z.mod_small by lia. lia.
Qed.

Lemma wrap64_wrap64 a b : wrap64 (wrap64 a + b) = wrap64 (a + b).
Proof.
  unfold wrap64. f_equal.
  replace ((a + 2 ^ 63) mod 2 ^ 64 - 2 ^ 63 + b + 2 ^ 63)
    with ((a + 2 ^ 63) mod 2 ^ 64 + b) by lia.
  rewrite Z.add_mod_idemp_l by lia. f_equal. lia.
Qed.

(** The sum of two [int64] above the range comes out negative. *)
Lemma add64_overflow a b :
  in_int64 a -> in_int64 b -> max_int64 < a + b -> add64 a b = a + b - 2 ^ 64.
Proof.
  unfold in_int64, add64, wrap64, min_int64, max_int64. intros Ha Hb Hab.
  rewrite <- (Z.mod_unique_pos (a + b + 2 ^ 63) (2 ^ 64) 1 (a + b + 2 ^ 63 - 2 ^ 64)); lia.
Qed.

Lemma add64_exact a b : in_int64 (a + b) -> add64 a b = a + b.
Proof. apply wrap64_id. Qed.

Lemma sub64_exact a b : in_int64 (a - b) -> sub64 a b = a - b.
Proof. apply wrap64_id. Qed.

Lemma mul64_exact a b : in_int64 (a * b) -> mul64 a b = a * b.
Proof. apply wrap64_id. Qed.

(** [int64_lia] proves range side conditions and linear goals over [int64]. *)
Ltac int64_lia := unfold in_int64, min_int64, max_int64 in *; lia.

(** ** float64 *)

(** IEEE 754 binary64 of the Standard Library's specification floats. *)
Abbreviation float64 := spec_float (only parsing).
Definition float64_of_int (z : Z) : float64 := binary_normalize 53 1024 z 0 false.
Definition div_float64 (x y : float64) : float64 := SFdiv 53 1024 x y.
Definition mul_float64 (x y : float64) : float64 := SFmul 53 1024 x y.
Definition add_float64 (x y : float64) : float64 := SFadd 53 1024 x y.
Definition sub_float64 (x y : float64) : float64 := SFsub 53 1024 x y.

(** ** time *)

(** An instant is its number of nanoseconds after the zero [time.Time]; a
    duration is an [int64] of nanoseconds.  [Before], [After] and [Equal] are the
    order and equality of [Z]. *)
Abbreviation Time := Z (only parsing).
Abbreviation Duration := Z (only parsing).

Definition zero_time : Time := 0.
Definition IsZero (t : Time) : Prop := t = zero_time.

#[export] Instance IsZero_dec t : Decision (IsZero t).
Proof. unfold IsZero. apply _. Defined.

Definition Nanosecond : Duration := 1.
Definition Millisecond : Duration := 1000000.
Definition Second : Duration := 1000000000.
Definition Minute : Duration := 60 * Second.
Definition Hour : Duration := 60 * Minute.

Definition time_Add (t : Time) (d : Duration) : Time := t + d.

(** [t.Sub(u)] saturates at the ends of [Duration]. *)
Definition time_Sub (t u : Time) : Duration := Z.max min_int64 (Z.min max_int64 (t - u)).

(** ** strings *)

Definition byte_of (a : ascii) : N := N_of_ascii a.

(** The single-byte white space of [unicode.IsSpace]. *)
Definition ascii_space (a : ascii) : bool :=
  bool_decide (byte_of a ∈ [9; 10; 11; 12; 13; 32]%N).

(** The UTF-8 encodings of the other white-space code points: U+0085, U+00A0,
    U+1680, U+2000 to U+200A, U+2028, U+2029, U+202F, U+205F and U+3000. *)
Definition space2 (a b : ascii) : bool :=
  bool_decide (byte_of a = 0xC2%N /\ byte_of b ∈ [0x85; 0xA0]%N).

Definition space3 (a b c : ascii) : bool :=
  let x := byte_of a in let y := byte_of b in let z := byte_of c in
  bool_decide ((x = 0xE1 /\ y = 0x9A /\ z = 0x80)%N
    \/ (x = 0xE2 /\ y = 0x80 /\ ((0x80 <= z <= 0x8A) \/ z ∈ [0xA8; 0xA9; 0xAF]))%N
    \/ (x = 0xE2 /\ y = 0x81 /\ z = 0x9F)%N
    \/ (x = 0xE3 /\ y = 0x80 /\ z = 0x80)%N).

(** Drops white space at the front of a byte list; [f2] and [f3] recognise the
    multi-byte encodings in the direction of the traversal. *)
Fixpoint trim_front (f2 : ascii -> ascii -> bool) (f3 : ascii -> ascii -> ascii -> bool)
    (l : list ascii) : list ascii :=
  match l with
  | [] => []
  | a :: l1 =>
      if ascii_space a then trim_front f2 f3 l1 else
      match l1 with
      | [] => l
      | b :: l2 =>
          if f2 a b then trim_front f2 f3 l2 else
          match l2 with
          | [] => l
          | c :: l3 => if f3 a b c then trim_front f2 f3 l3 else l
          end
      end
  end.

(** [strings.TrimSpace] *)
Definition TrimSpace (s : string) : string :=
  let l := trim_front space2 space3 (String.list_ascii_of_string s) in
  String.string_of_list_ascii
    (rev (trim_front (fun a b => space2 b a) (fun a b c => space3 c b a) (rev l))).

Example TrimSpace_ex : TrimSpace "  PEK 1 " = "PEK 1"%string.
Proof. vm_compute. reflexivity. Qed.

(** ASCII case mapping: what [strings.ToLower] does on ASCII text. *)
Definition ascii_lower (a : ascii) : ascii :=
  let n := byte_of a in
  if decide (65 <= n <= 90)%N then ascii_of_N (n + 32) else a.

Definition lower (s : string) : string :=
  String.string_of_list_ascii (map ascii_lower (String.list_ascii_of_string s)).

Definition ascii_upper (a : ascii) : ascii :=
  let n := byte_of a in
  if decide (97 <= n <= 122)%N then ascii_of_N (n - 32) else a.

Definition upper (s : string) : string :=
  String.string_of_list_ascii (map ascii_upper (String.list_ascii_of_string s)).

(** [strings.Contains]: some substring of [s] is [sub]. *)
Definition strings_Contains (s sub : string) : bool :=
  existsb (fun i => bool_decide (String.substring i (String.length sub) s = sub))
    (seq 0 (S (String.length s) - String.length sub)).

(** [hex.EncodeToString] *)
Definition hex_digit (n : N) : ascii :=
  if decide (n < 10)%N then ascii_of_N (48 + n) else ascii_of_N (87 + n).

Fixpoint hex_encode (s : string) : string :=
  match s with
  | EmptyString => EmptyString
  | String a s' =>
      String (hex_digit (byte_of a / 16)) (String (hex_digit (byte_of a mod 16)) (hex_encode s'))
  end.

Lemma append_nil_r (s : string) : (s +:+ "" = s)%string.
Proof. induction s as [|a s IH]; [done|]. exact (f_equal (String a) IH). Qed.

Lemma string_app_assoc (a b c : string) : (a +:+ b +:+ c = (a +:+ b) +:+ c)%string.
Proof. induction a as [|x a IH]; [done|]. exact (f_equal (String x) IH). Qed.

(** Two strings joined by a separator byte that does not occur in the first
    part determine both parts. *)
Fixpoint free_of (c : ascii) (s : string) : Prop :=
  match s with
  | EmptyString => True
  | String a s' => a <> c /\ free_of c s'
  end.

#[export] Instance free_of_dec c s : Decision (free_of c s).
Proof. induction s; simpl; apply _. Defined.

Lemma join_inj c a b a' b' :
  free_of c a -> free_of c a' ->
  (a +:+ String c b = a' +:+ String c b')%string -> a = a' /\ b = b'.
Proof.
  revert a'. induction a as [|x a IH]; intros [|y a']; simpl; intros Ha Ha' Heq.
  - by simplify_eq.
  - simplify_eq. by destruct Ha' as [[] ?].
  - simplify_eq. by destruct Ha as [[] ?].
  - simplify_eq. destruct Ha, Ha'. by destruct (IH a') as [-> ->].
Qed.

(** ** sort *)

(** [sort.SliceStable]: insertion keeps the order of elements that [less] does not
    separate. *)
Section sort.
Context {A : Type} (less : A -> A -> bool).

Fixpoint sort_insert (x : A) (l : list A) : list A :=
  match l with
  | [] => [x]
  | y :: l' => if less y x then y :: sort_insert x l' else x :: l
  end.

Fixpoint SliceStable (l : list A) : list A :=
  match l with
  | [] => []
  | x :: l' => sort_insert x (SliceStable l')
  end.

Lemma sort_insert_perm x l : sort_insert x l ≡ₚ x :: l.
Proof.
  induction l as [|y l IH]; simpl; [done|]. destruct (less y x); [|done].
  rewrite IH. apply Permutation_swap.
Qed.

Lemma SliceStable_perm l : SliceStable l ≡ₚ l.
Proof. induction l as [|x l IH]; simpl; [done|]. by rewrite sort_insert_perm, IH. Qed.

(** [sorted_by l]: no element comes before one that is less than it. *)
Definition sorted_by (l : list A) : Prop := StronglySorted (fun x y => less y x = false) l.

Lemma sorted_by_app l1 l2 x y : sorted_by (l1 ++ l2) -> x ∈ l1 -> y ∈ l2 -> less y x = false.
Proof.
  induction l1 as [|z l1 IH]; simpl; [by intros _ ?%elem_of_nil|].
  inversion 1 as [|? ? Hs Hz]; subst. intros [->|Hx]%elem_of_cons Hy; [|by apply IH].
  rewrite Forall_forall in Hz. apply Hz. rewrite elem_of_app. by right.
Qed.

Lemma sorted_by_prefix l n : sorted_by l -> sorted_by (take n l).
Proof.
  unfold sorted_by. intros Hl. revert n. induction Hl as [|x l Hl IH Hx]; intros [|n]; simpl; constructor; auto.
  by apply Forall_take.
Qed.

(** Two sorted lists of the same elements are the same when [less] separates any
    two of them. *)
Lemma sorted_by_unique l1 l2 :
  (forall x y, x ∈ l1 -> y ∈ l1 -> less x y = false -> less y x = false -> x = y) ->
  sorted_by l1 -> sorted_by l2 -> l1 ≡ₚ l2 -> l1 = l2.
Proof.
  intros Hsep H1. revert l2 Hsep. induction H1 as [|x l1 H1 IH Hx]; intros l2 Hsep H2 Hp.
  { by apply Permutation_nil in Hp. }
  destruct H2 as [|y l2 H2 Hy]; [by symmetry in Hp; apply Permutation_nil in Hp|].
  assert (x = y) as ->.
  { assert (Hxy : y ∈ x :: l1) by (rewrite Hp; set_solver).
    assert (Hyx : x ∈ y :: l2) by (rewrite <- Hp; set_solver).
    rewrite Forall_forall in Hx, Hy.
    apply elem_of_cons in Hxy as [->|Hxy]; [done|]. apply elem_of_cons in Hyx as [->|Hyx]; [done|].
    apply Hsep; [set_solver..|by apply Hy|by apply Hx]. }
  f_equal. apply IH; [|done|by eapply Permutation_cons_inv].
  intros a b Ha Hb. apply Hsep; set_solver.
Qed.

(** [less] is a strict weak order, as [sort] asks of its caller. *)
Record weak_order : Prop := {
  less_irrefl x : less x x = false;
  less_asym x y : less x y = true -> less y x = false;
  less_trans x y z : less y x = false -> less z y = false -> less z x = false }.

Hypothesis Hless : weak_order.

Lemma sort_insert_sorted x l : sorted_by l -> sorted_by (sort_insert x l).
Proof.
  induction 1 as [|y l Hl IH Hy]; simpl; [repeat constructor|].
  destruct (less y x) eqn:E.
  - constructor; [done|]. rewrite sort_insert_perm. constructor; [|done].
    by apply (less_asym Hless).
  - constructor; [by constructor|]. constructor; [done|].
    eapply Forall_impl; [exact Hy|]. intros z Hz. by eapply (less_trans Hless).
Qed.

Lemma SliceStable_sorted l : sorted_by (SliceStable l).
Proof. induction l; simpl; [constructor|]. by apply sort_insert_sorted. Qed.

(** Elements that [less] does not separate keep their order. *)
Definition same_rank (x y : A) : Prop := less x y = false /\ less y x = false.

#[export] Instance same_rank_dec x y : Decision (same_rank x y).
Proof. unfold same_rank. apply _. Defined.

Lemma sort_insert_stable x z l :
  sorted_by l -> filter (same_rank z) (sort_insert x l) = filter (same_rank z) (x :: l).
Proof.
  induction 1 as [|y l Hl IH Hy]; [done|]. simpl sort_insert. destruct (less y x) eqn:Hyx; [|done].
  rewrite filter_cons, IH, !filter_cons.
  repeat case_decide; try done. exfalso. unfold same_rank in *. destruct_and!.
  (* [y] and [x] would rank like [z], although [less y x] *)
  pose proof (less_trans Hless x z y). naive_solver congruence.
Qed.

Lemma SliceStable_stable z l : filter (same_rank z) (SliceStable l) = filter (same_rank z) l.
Proof.
  induction l as [|x l IH]; [done|]. simpl.
  rewrite (sort_insert_stable x z _ (SliceStable_sorted l)), !filter_cons. by rewrite IH.
Qed.
End sort.

(** Two orders that agree on distinct elements of a list sort it alike. *)
Lemma sort_insert_ext {A} (less less' : A -> A -> bool) x l :
  (forall y, y ∈ l -> less y x = less' y x) -> sort_insert less x l = sort_insert less' x l.
Proof.
  induction l as [|y l IH]; simpl; intros Hl; [done|].
  rewrite (Hl y), IH by set_solver. done.
Qed.

Lemma SliceStable_ext {A} (less less' : A -> A -> bool) l :
  NoDup l -> (forall x y, x ∈ l -> y ∈ l -> x <> y -> less x y = less' x y) ->
  SliceStable less l = SliceStable less' l.
Proof.
  induction 1 as [|x l Hx Hl IH]; intros Hless; simpl; [done|]. rewrite IH by set_solver.
  apply sort_insert_ext. intros y Hy. rewrite SliceStable_perm in Hy. apply Hless; set_solver.
Qed.

(** [sort.Slice] leaves the order of elements that [less] does not separate open:
    it is any function with the laws of its documentation.  A stable sort is one. *)
Class SortSlice := {
  sort_Slice {A : Type} : (A -> A -> bool) -> list A -> list A;
  sort_Slice_perm {A} (less : A -> A -> bool) l : sort_Slice less l ≡ₚ l;
  sort_Slice_sorted {A} (less : A -> A -> bool) l :
    weak_order less -> sorted_by less (sort_Slice less l) }.

Definition stable_sort : SortSlice := {|
  sort_Slice A := SliceStable;
  sort_Slice_perm A := SliceStable_perm;
  sort_Slice_sorted A less l H := SliceStable_sorted less H l |}.

(** The order by an integer key. *)
Definition less_on {A} (key : A -> Z) (x y : A) : bool := bool_decide (key x < key y).

Lemma less_on_weak_order {A} (key : A -> Z) : weak_order (less_on key).
Proof.
  split; unfold less_on; intros *; rewrite ?bool_decide_eq_true, ?bool_decide_eq_false; lia.
Qed.

(** The order of Go strings: byte by byte. *)
Definition string_less (a b : string) : bool := String.ltb a b.

Lemma string_less_lt a b : string_less a b = true <-> String_as_OT.lt a b.
Proof.
  unfold string_less, String.ltb, String_as_OT.lt.
  change (String_as_OT.compare a b) with (String.compare a b).
  destruct (String.compare a b); split; done.
Qed.

Lemma string_less_total a b : string_less a b = false -> string_less b a = false -> a = b.
Proof.
  unfold string_less, String.ltb. rewrite (String.compare_antisym b a).
  destruct (String.compare a b) eqn:E; [|done..]. intros _ _. by apply String.compare_eq_iff.
Qed.

Lemma string_less_trans a b c :
  string_less a b = true -> string_less b c = true -> string_less a c = true.
Proof.
  rewrite !string_less_lt. apply (@StrictOrder_Transitive _ _ String_as_OT.lt_strorder).
Qed.

Lemma string_less_irrefl a : string_less a a = false.
Proof.
  apply not_true_is_false. rewrite string_less_lt.
  apply (@StrictOrder_Irreflexive _ _ String_as_OT.lt_strorder).
Qed.

(** What is total, irreflexive and transitive is a weak order. *)
Lemma total_weak_order {A} (less : A -> A -> bool) (same : A -> A -> Prop) :
  (forall x, less x x = false) ->
  (forall x y z, less x y = true -> less y z = true -> less x z = true) ->
  (forall x y, less x y = false -> less y x = false -> same x y) ->
  (forall x y z, same x y -> less z x = less z y /\ less x z = less y z) ->
  weak_order less.
Proof.
  intros Hirr Htr Htot Hsame.
  assert (Hasym : forall x y, less x y = true -> less y x = false).
  { intros x y Hxy. apply not_true_is_false. intros Hyx.
    pose proof (Htr _ _ _ Hxy Hyx) as Hx. by rewrite Hirr in Hx. }
  split; [done..|]. intros x y z Hyx Hzy. apply not_true_is_false. intros Hzx.
  destruct (less x y) eqn:Hxy; [by rewrite (Htr _ _ _ Hzx Hxy) in Hzy|].
  destruct (Hsame _ _ z (Htot _ _ Hxy Hyx)) as [He _]. congruence.
Qed.

Lemma string_less_weak_order : weak_order string_less.
Proof.
  apply (total_weak_order _ eq).
  - apply string_less_irrefl.
  - apply string_less_trans.
  - apply string_less_total.
  - by intros x y z ->.
Qed.

(** The order by a first key, then by a string: an idiom of the source. *)
Definition less_then {A} (first : A -> Z) (second : A -> string) (x y : A) : bool :=
  if decide (first x = first y) then string_less (second x) (second y)
  else bool_decide (first x < first y).

Lemma less_then_total {A} (first : A -> Z) (second : A -> string) x y :
  less_then first second x y = false -> less_then first second y x = false ->
  first x = first y /\ second x = second y.
Proof.
  unfold less_then. repeat case_decide; rewrite ?bool_decide_eq_false; try lia.
  intros H1 H2. split; [done|]. by apply string_less_total.
Qed.

Lemma less_then_weak_order {A} (first : A -> Z) (second : A -> string) :
  weak_order (less_then first second).
Proof.
  apply (total_weak_order _ (fun x y => first x = first y /\ second x = second y)).
  - intros x. unfold less_then. rewrite decide_True by done. apply string_less_irrefl.
  - intros x y z. unfold less_then.
    repeat case_decide; rewrite ?bool_decide_eq_true; try lia; try congruence.
    apply string_less_trans.
  - apply less_then_total.
  - intros x y z [Hf Hs]. unfold less_then. by rewrite Hf, Hs.
Qed.

(** The order of strings by a key. *)
Definition string_less_on {A} (key : A -> string) (x y : A) : bool := string_less (key x) (key y).

Lemma string_less_on_weak_order {A} (key : A -> string) : weak_order (string_less_on key).
Proof.
  apply (total_weak_order _ (fun x y => key x = key y)); unfold string_less_on.
  - intros x. apply string_less_irrefl.
  - intros x y z. apply string_less_trans.
  - intros x y. apply string_less_total.
  - by intros x y z ->.
Qed.

(** Elements with distinct keys have one order only. *)
Lemma sort_Slice_canonical `{SortSlice} {A} (key : A -> string) l l' :
  l ≡ₚ l' -> NoDup (map key l) -> sort_Slice (string_less_on key) l = sort_Slice (string_less_on key) l'.
Proof.
  intros Hp Hnd. apply (sorted_by_unique (string_less_on key)).
  - intros x y Hx Hy Hxy Hyx. rewrite sort_Slice_perm in Hx, Hy.
    assert (Hkey : key x = key y) by (by apply string_less_total).
    apply list_elem_of_lookup in Hx as [i Hi]. apply list_elem_of_lookup in Hy as [j Hj].
    assert (i = j) as ->; [|congruence].
    apply (NoDup_lookup (map key l) i j (key x)); [done|..];
      rewrite list_lookup_fmap; [by rewrite Hi|rewrite Hj; simpl; congruence].
  - apply sort_Slice_sorted, string_less_on_weak_order.
  - apply sort_Slice_sorted, string_less_on_weak_order.
  - by rewrite !sort_Slice_perm.
Qed.

#[export] Hint Resolve less_on_weak_order less_then_weak_order string_less_on_weak_order
  string_less_weak_order wrap64_in : go.
