(* ===== verification/utf8.v ===== *)
(** * UTF-8

    Go's decoding of strings into runes and the slices of their bytes, as the text
    packages use them.  A rune is represented by its encoding. *)

From S2P Require Import Prelude.
From S2P Require Import golang.

Open Scope string_scope.
Open Scope list_scope.
Open Scope nat_scope.

Definition within (lo hi : N) (a : ascii) : bool := bool_decide (lo <= byte_of a <= hi)%N.
Definition continuation (a : ascii) : bool := within 128 191 a.

(** The second byte that may follow a first one, by the tables of unicode/utf8. *)
Definition second_byte (a b : ascii) : bool :=
  let n := byte_of a in
  if decide (n = 224)%N then within 160 191 b else
  if decide (n = 237)%N then within 128 159 b else
  if decide (n = 240)%N then within 144 191 b else
  if decide (n = 244)%N then within 128 143 b else
  continuation b.

(** U+FFFD, which stands for each byte that is no part of a rune. *)
Definition replacement : string :=
  String (ascii_of_N 239) (String (ascii_of_N 191) (String (ascii_of_N 189) "")).

(** The first rune of a string that is not empty, and the rest. *)
Definition first_rune (a : ascii) (s : string) : string * string :=
  if within 0 127 a then (String a "", s) else
  match s with
  | String b s1 =>
      if within 194 223 a && second_byte a b then (String a (String b ""), s1) else
      match s1 with
      | String c s2 =>
          if within 224 239 a && second_byte a b && continuation c
          then (String a (String b (String c "")), s2) else
          match s2 with
          | String d s3 =>
              if within 240 244 a && second_byte a b && continuation c && continuation d
              then (String a (String b (String c (String d ""))), s3) else (replacement, s)
          | EmptyString => (replacement, s)
          end
      | EmptyString => (replacement, s)
      end
  | EmptyString => (replacement, s)
  end.

Fixpoint runes_fuel (n : nat) (s : string) : list string :=
  match n, s with
  | S n, String a s => let '(r, rest) := first_rune a s in r :: runes_fuel n rest
  | _, _ => []
  end.

(** [[]rune(s)]: as many steps as bytes are enough. *)
Definition runes (s : string) : list string := runes_fuel (String.length s) s.

(** [utf8.RuneCountInString] *)
Definition RuneCount (s : string) : Z := Z.of_nat (length (runes s)).

(** [string(r)] *)
Definition of_runes (r : list string) : string := foldr String.append "" r.

(** [utf8.ValidString]: decoding loses nothing. *)
Definition ValidString (s : string) : bool := bool_decide (of_runes (runes s) = s).

Example runes_ex :
  runes "ab" = ["a"; "b"] /\
  runes (String (ascii_of_N 195) (String (ascii_of_N 169) "x")) =
    [String (ascii_of_N 195) (String (ascii_of_N 169) ""); "x"] /\
  runes (String (ascii_of_N 169) "x") = [replacement; "x"].
Proof. vm_compute. done. Qed.

(** [v[lo:hi]] on bytes; [None] is a panic. *)
Definition byte_slice (lo hi : Z) (v : string) : option string :=
  if decide (0 <= lo <= hi /\ hi <= Z.of_nat (String.length v))%Z
  then Some (String.substring (Z.to_nat lo) (Z.to_nat (hi - lo)) v) else None.

(** [strings.Index(s, c)] for a one-byte text; -1 when there is none. *)
Fixpoint index_from (i : Z) (c : ascii) (s : string) : Z :=
  match s with
  | EmptyString => -1
  | String a s => if decide (a = c) then i else index_from (i + 1) c s
  end%Z.
Definition Index (s : string) (c : ascii) : Z := index_from 0 c s.

(** ** Laws *)

Lemma first_rune_shorter a s r rest : first_rune a s = (r, rest) -> String.length rest <= String.length s.
Proof.
  unfold first_rune. destruct (within 0 127 a); [by intros [= _ <-]|].
  destruct s as [|b s1]; [by intros [= _ <-]|]. destruct (_ && _); [intros [= _ <-]; simpl; lia|].
  destruct s1 as [|c s2]; [by intros [= _ <-]|]. destruct (_ && _); [intros [= _ <-]; simpl; lia|].
  destruct s2 as [|d s3]; [by intros [= _ <-]|]. destruct (_ && _); intros [= _ <-]; simpl; lia.
Qed.

(** More fuel than bytes changes nothing. *)
Lemma runes_fuel_enough n s : String.length s <= n -> runes_fuel n s = runes s.
Proof.
  unfold runes. remember (String.length s) as len eqn:Hlen. intros Hn.
  assert (Hs : String.length s <= len) by lia. clear Hlen. revert n s Hn Hs.
  induction len as [len IH] using lt_wf_ind. intros n [|a s] Hn Hs; [by destruct n, len|].
  simpl in Hs. destruct n as [|n]; [lia|]. destruct len as [|len]; [lia|]. simpl.
  destruct (first_rune a s) as [r rest] eqn:Hr. apply first_rune_shorter in Hr. f_equal.
  destruct (decide (n = len)) as [->|Hne]; [done|]. apply IH; lia.
Qed.

(** The runes of a string: the first one and those of the rest. *)
Lemma runes_cons a s : runes (String a s) = (first_rune a s).1 :: runes (first_rune a s).2.
Proof.
  unfold runes at 1. simpl. destruct (first_rune a s) as [r rest] eqn:Hr. simpl. f_equal.
  apply runes_fuel_enough. by eapply first_rune_shorter.
Qed.

Lemma runes_length s : length (runes s) <= String.length s.
Proof.
  unfold runes. generalize (String.length s). intros m. revert s.
  induction m as [|m IH]; intros s; [by destruct s|]. destruct s as [|a s]; simpl; [lia|].
  destruct (first_rune a s) as [r rest]. simpl. specialize (IH rest). lia.
Qed.

Lemma index_from_bounds i c s : (index_from i c s = -1 \/
  i <= index_from i c s < i + Z.of_nat (String.length s))%Z.
Proof.
  revert i. induction s as [|a s IH]; intros i; simpl; [by left|].
  case_decide; [right; lia|]. destruct (IH (i + 1)%Z); [by left|right; lia].
Qed.

Lemma byte_slice_Some lo hi v : (0 <= lo <= hi)%Z -> (hi <= Z.of_nat (String.length v))%Z ->
  byte_slice lo hi v = Some (String.substring (Z.to_nat lo) (Z.to_nat (hi - lo)) v).
Proof. intros ? ?. unfold byte_slice. by rewrite decide_True. Qed.

(** A decoded rune decodes again, whatever follows it. *)
Lemma first_rune_again a s r rest t : first_rune a s = (r, rest) ->
  exists a' s', r +:+ t = String a' s' /\ first_rune a' s' = (r, t).
Proof.
  assert (Hrep : exists a' s', replacement +:+ t = String a' s' /\ first_rune a' s' = (replacement, t)).
  { eexists _, _. split; [reflexivity|]. vm_compute. reflexivity. }
  assert (Hoff : forall lo hi lo' hi', within lo hi a = true -> (hi < lo' \/ hi' < lo)%N -> within lo' hi' a = false).
  { unfold within. intros *. rewrite bool_decide_eq_true, bool_decide_eq_false. lia. }
  unfold first_rune. destruct (within 0 127 a) eqn:H1.
  { intros [= <- <-]. exists a, t. split; [done|]. by rewrite H1. }
  destruct s as [|b s1]; [by intros [= <- _]|].
  destruct (within 194 223 a && second_byte a b) eqn:H2.
  { intros [= <- <-]. exists a, (String b t). split; [done|]. by rewrite H1, H2. }
  destruct s1 as [|c s2]; [by intros [= <- _]|].
  destruct (within 224 239 a && second_byte a b && continuation c) eqn:H3.
  { intros [= <- <-]. exists a, (String b (String c t)). split; [done|]. rewrite H1.
    assert (within 224 239 a = true) as Ha by (by destruct (within 224 239 a)).
    rewrite (Hoff _ _ 194%N 223%N Ha) by lia. simpl. by rewrite H3. }
  destruct s2 as [|d s3]; [by intros [= <- _]|].
  destruct (within 240 244 a && second_byte a b && continuation c && continuation d) eqn:H4;
    [|by intros [= <- _]].
  intros [= <- <-]. exists a, (String b (String c (String d t))). split; [done|]. rewrite H1.
  assert (within 240 244 a = true) as Ha by (by destruct (within 240 244 a)).
  rewrite (Hoff _ _ 194%N 223%N Ha), (Hoff _ _ 224%N 239%N Ha) by lia. simpl. by rewrite H4.
Qed.

(** The text of some first runes has these runes. *)
Lemma runes_of_take n s : runes (of_runes (take n (runes s))) = take n (runes s).
Proof.
  remember (String.length s) as len eqn:Hlen. revert n s Hlen.
  induction len as [len IH] using lt_wf_ind. intros [|n] s Hlen; [done|].
  destruct s as [|a s]; [done|]. rewrite runes_cons.
  destruct (first_rune a s) as [r rest] eqn:Hr. simpl.
  destruct (first_rune_again a s r rest (of_runes (take n (runes rest))) Hr) as (a' & s' & He & Hr').
  rewrite He, runes_cons, Hr'. simpl. f_equal.
  apply first_rune_shorter in Hr. simpl in Hlen. apply (IH (String.length rest)); [lia|done].
Qed.

(** A rune is a dash or has no dash among its bytes. *)
Lemma first_rune_dash a s r rest : first_rune a s = (r, rest) ->
  r <> "" /\ (r = "-" \/ free_of "-"%char r).
Proof.
  assert (Hhigh : forall lo hi x, within lo hi x = true -> (45 < lo)%N -> x <> "-"%char).
  { intros lo hi x Hx Hlo ->. apply bool_decide_eq_true in Hx. vm_compute (byte_of _) in Hx. lia. }
  assert (Hsec : forall x y, second_byte x y = true -> y <> "-"%char).
  { intros x y. unfold second_byte, continuation. repeat case_decide; intros Hy; by eapply Hhigh. }
  unfold first_rune. destruct (within 0 127 a).
  { intros [= <- _]. split; [done|]. destruct (decide (a = "-"%char)) as [->|]; [by left|by right]. }
  assert (Hrep : replacement <> "" /\ (replacement = "-" \/ free_of "-"%char replacement)).
  { split; [done|]. right. by repeat split. }
  destruct s as [|b s1]; [by intros [= <- _]|].
  destruct (within 194 223 a && second_byte a b) eqn:H2.
  { apply andb_true_iff in H2 as [Ha Hb]. intros [= <- _]. split; [done|]. right. simpl.
    split_and!; [by eapply Hhigh|by eapply Hsec|done]. }
  destruct s1 as [|c s2]; [by intros [= <- _]|].
  destruct (within 224 239 a && second_byte a b && continuation c) eqn:H3.
  { rewrite !andb_true_iff in H3. destruct H3 as [[Ha Hb] Hc]. intros [= <- _]. split; [done|]. right. simpl.
    split_and!; [by eapply Hhigh|by eapply Hsec|by eapply Hhigh|done]. }
  destruct s2 as [|d s3]; [by intros [= <- _]|].
  destruct (_ && continuation d) eqn:H4; [|by intros [= <- _]].
  rewrite !andb_true_iff in H4. destruct H4 as [[[Ha Hb] Hc] Hd]. intros [= <- _]. split; [done|]. right. simpl.
  split_and!; [by eapply Hhigh|by eapply Hsec|by eapply Hhigh|by eapply Hhigh|done].
Qed.

Lemma runes_dash s r : r ∈ runes s -> r <> "" /\ (r = "-" \/ free_of "-"%char r).
Proof.
  remember (String.length s) as len eqn:Hlen. revert s Hlen.
  induction len as [len IH] using lt_wf_ind. intros [|a s] Hlen; [by intros ?%elem_of_nil|].
  rewrite runes_cons. destruct (first_rune a s) as [r' rest] eqn:Hr. simpl.
  intros [->|Hin]%elem_of_cons; [by eapply first_rune_dash|].
  apply first_rune_shorter in Hr. simpl in Hlen. apply (IH (String.length rest)) with rest; [lia|done|done].
Qed.

(** A text of ASCII bytes is valid. *)
Fixpoint ascii_text (s : string) : Prop :=
  match s with EmptyString => True | String a s => within 1 127 a = true /\ ascii_text s end.

Lemma ascii_valid s : ascii_text s -> ValidString s = true.
Proof.
  unfold ValidString. rewrite bool_decide_eq_true. induction s as [|a s IH]; [done|].
  intros [Ha Hs]. rewrite runes_cons. unfold first_rune.
  assert (within 0 127 a = true) as ->.
  { unfold within in *. rewrite bool_decide_eq_true in *. lia. }
  simpl. by rewrite IH.
Qed.

Lemma ascii_no_nul s : ascii_text s -> free_of Ascii.zero s.
Proof.
  induction s as [|a s IH]; [done|]. intros [Ha Hs]. simpl. split; [|by apply IH].
  intros ->. apply bool_decide_eq_true in Ha. vm_compute (byte_of _) in Ha. lia.
Qed.

Lemma hex_encode_ascii s : ascii_text (hex_encode s).
Proof.
  assert (Hd : forall n, (n < 16)%N -> within 1 127 (hex_digit n) = true).
  { intros n Hn. assert (Hall : Forall (fun k => within 1 127 (hex_digit (N.of_nat k)) = true) (seq 0 16))
      by (repeat constructor).
    rewrite <- (N2Nat.id n). rewrite Forall_forall in Hall. apply Hall, elem_of_seq. lia. }
  induction s as [|a s IH]; [done|]. simpl.
  assert (byte_of a < 256)%N by apply N_ascii_bounded.
  split_and!; [apply Hd, N.Div0.div_lt_upper_bound; lia|apply Hd, N.mod_lt; lia|done].
Qed.
