(* ===== verification/heap.v ===== *)
(** * container/heap

    The binary heap of Go's standard library over a slice, as the source uses it:
    [Push] and [Pop] with their sifting loops, for any element type with an index
    field that [Swap] keeps. *)

From S2P Require Import Prelude.
From S2P Require Import golang.

Open Scope list_scope.

Section heap.
Context {A : Type} `{!Inhabited A}.
(** [Less] on elements, and what [Swap], [Push] and [Pop] write into an element's
    index. *)
Context (less : A -> A -> bool) (set_index : Z -> A -> A).

Local Open Scope nat_scope.

Definition Swap (a b : nat) (l : list A) : list A :=
  <[b := set_index (Z.of_nat b) (l !!! a)]> (<[a := set_index (Z.of_nat a) (l !!! b)]> l).

(** [(j - 1) / 2] of Go's integers is 0 at [j = 0]. *)
Definition parent (j : nat) : nat := (j - 1) / 2.

(** [up]: the loop moves [j] to its parent, which is smaller; [fuel] is at least [j]. *)
Fixpoint up (fuel : nat) (j : nat) (l : list A) : list A :=
  match fuel with
  | O => l
  | S fuel' =>
      let i := parent j in
      if bool_decide (i = j) || negb (less (l !!! j) (l !!! i)) then l
      else up fuel' i (Swap i j l)
  end.

(** [down]: the loop moves [i] to a child, which is larger; [fuel] is at least [n]. *)
Fixpoint down (fuel : nat) (i n : nat) (l : list A) : list A :=
  match fuel with
  | O => l
  | S fuel' =>
      let j1 := 2 * i + 1 in
      if bool_decide (n <= j1) then l else
      let j2 := j1 + 1 in
      let j := if bool_decide (j2 < n) && less (l !!! j2) (l !!! j1) then j2 else j1 in
      if negb (less (l !!! j) (l !!! i)) then l
      else down fuel' j n (Swap i j l)
  end.

(** The element type's own [Push] and [Pop]. *)
Definition Push (x : A) (l : list A) : list A := l ++ [set_index (Z.of_nat (length l)) x].
Definition Pop (l : list A) : list A * A :=
  let n := length l in
  (take (n - 1) l, set_index (-1) (l !!! (n - 1))).

Definition heap_Push (x : A) (l : list A) : list A :=
  let l := Push x l in
  up (length l) (length l - 1) l.

(** [heap.Pop] on a non-empty heap. *)
Definition heap_Pop (l : list A) : list A * A :=
  let n := length l - 1 in
  let l := Swap 0 n l in
  Pop (down n 0 n l).
End heap.

(** ** What the loops establish *)

Section heap_facts.
Context {A B : Type} `{!Inhabited A}.
Context (less : A -> A -> bool) (set_index : Z -> A -> A) (index : A -> Z) (content : A -> B).
Hypothesis Hless : weak_order less.
(** The order and the content of an element do not depend on its index. *)
Hypothesis less_set : forall a b x y, less (set_index a x) (set_index b y) = less x y.
Hypothesis less_set_l : forall a x y, less (set_index a x) y = less x y.
Hypothesis less_set_r : forall a x y, less x (set_index a y) = less x y.
Hypothesis content_set : forall a x, content (set_index a x) = content x.
Hypothesis index_set : forall a x, index (set_index a x) = a.

Local Open Scope nat_scope.
#[local] Arguments Nat.mul : simpl never.
Implicit Types (l : list A) (i j k n : nat).
Abbreviation Swap := (Swap set_index).
Abbreviation up := (up less set_index).
Abbreviation down := (down less set_index).

(** The first [n] elements are a heap: no element comes before its parent. *)
Definition heap_ok n l : Prop :=
  forall j, 0 < j < n -> less (l !!! j) (l !!! parent j) = false.

(** Every element knows its position. *)
Definition indexed l : Prop := forall k, k < length l -> index (l !!! k) = Z.of_nat k.

(** A heap but for the children of [i], which are still in order with the parent
    of [i]. *)
Definition heap_above i n l : Prop :=
  (forall j, 0 < j < n -> parent j <> i -> less (l !!! j) (l !!! parent j) = false) /\
  (forall j, 0 < j < n -> parent j = i -> 0 < i -> less (l !!! j) (l !!! parent i) = false).

(** A heap but for [i] and its parent. *)
Definition heap_below i n l : Prop :=
  (forall j, 0 < j < n -> j <> i -> less (l !!! j) (l !!! parent j) = false) /\
  (forall j, 0 < j < n -> parent j = i -> 0 < i -> less (l !!! j) (l !!! parent i) = false).

Lemma parent_spec j : 0 < j -> j = 2 * parent j + 1 \/ j = 2 * parent j + 2.
Proof.
  intros Hj. unfold parent. pose proof (Nat.div_mod_eq (j - 1) 2).
  pose proof (Nat.mod_upper_bound (j - 1) 2). lia.
Qed.

Lemma parent_0 : parent 0 = 0.
Proof. reflexivity. Qed.

Lemma Swap_length i j l : length (Swap i j l) = length l.
Proof. unfold heap.Swap. by rewrite !length_insert. Qed.

(** What is where after a swap, up to the indices. *)
Lemma Swap_lookup i j k l :
  i < length l -> j < length l ->
  exists a, Swap i j l !!! k =
    if decide (k = j) then set_index a (l !!! i)
    else if decide (k = i) then set_index a (l !!! j) else l !!! k.
Proof.
  intros Hi Hj. unfold heap.Swap. destruct (decide (k = j)) as [->|Hkj].
  - eexists. rewrite list_lookup_total_insert_eq by (by rewrite length_insert). done.
  - rewrite list_lookup_total_insert_ne by done. destruct (decide (k = i)) as [->|Hki].
    + eexists. by rewrite list_lookup_total_insert_eq.
    + exists 0%Z. by rewrite list_lookup_total_insert_ne.
Qed.

Lemma Swap_less i j k k' l :
  i < length l -> j < length l ->
  less (Swap i j l !!! k) (Swap i j l !!! k') =
  less (l !!! (if decide (k = j) then i else if decide (k = i) then j else k))
       (l !!! (if decide (k' = j) then i else if decide (k' = i) then j else k')).
Proof.
  intros Hi Hj. destruct (Swap_lookup i j k l Hi Hj) as [a ->].
  destruct (Swap_lookup i j k' l Hi Hj) as [b ->].
  repeat case_decide; by rewrite ?less_set, ?less_set_l, ?less_set_r.
Qed.

Lemma Swap_content i j l :
  i < length l -> j < length l -> map content (Swap i j l) ≡ₚ map content l.
Proof.
  intros Hi Hj. unfold heap.Swap. change (@map A B) with (@fmap list _ A B).
  rewrite !list_fmap_insert, !content_set. apply Permutation_insert_swap; rewrite list_lookup_fmap.
  - by rewrite (list_lookup_lookup_total_lt l i).
  - by rewrite (list_lookup_lookup_total_lt l j).
Qed.

Lemma Swap_indexed i j l :
  i < length l -> j < length l -> indexed l -> indexed (Swap i j l).
Proof.
  intros Hi Hj Hl k Hk. rewrite Swap_length in Hk. unfold heap.Swap.
  rewrite !list_lookup_total_insert, length_insert.
  repeat case_decide; destruct_and?; subst; rewrite ?index_set; auto.
Qed.

Lemma less_asym_le x y : less x y = true -> less y x = false.
Proof. apply (less_asym _ Hless). Qed.

Lemma le_trans x y z : less y x = false -> less z y = false -> less z x = false.
Proof. apply (less_trans _ Hless). Qed.

Ltac swap_cases :=
  rewrite Swap_less by lia; repeat case_decide; subst; try lia.

(** One round of [down] moves the fault to the smaller child. *)
Lemma down_step i j n l :
  i < j < n -> n <= length l -> parent j = i -> less (l !!! j) (l !!! i) = true ->
  (forall k, 0 < k < n -> parent k = i -> less (l !!! k) (l !!! j) = false) ->
  heap_above i n l -> heap_above j n (Swap i j l).
Proof.
  intros Hij Hn Hp Hlt Hmin [Ho Hi]. split.
  - intros k Hk Hpk. pose proof (parent_spec k). swap_cases.
    + by apply less_asym_le.
    + apply Hi; auto; lia.
    + apply Hmin; auto; lia.
    + apply Ho; auto; lia.
  - intros k Hk Hpk _. pose proof (parent_spec k). subst i. swap_cases.
    apply Ho; lia.
Qed.

Lemma down_ok fuel i n l :
  n <= i + fuel -> n <= length l -> heap_above i n l -> heap_ok n (down fuel i n l).
Proof.
  revert i l. induction fuel as [|fuel IH]; intros i l Hfuel Hn Hl; simpl.
  { intros j Hj. apply Hl; [done|]. pose proof (parent_spec j). lia. }
  case_bool_decide as Hj1.
  { intros j Hj. apply Hl; [done|]. pose proof (parent_spec j). lia. }
  set (j := if _ && _ then _ else _).
  assert (Hj : i < j < n /\ parent j = i /\
    forall k, 0 < k < n -> parent k = i -> less (l !!! k) (l !!! j) = false).
  { subst j. destruct (bool_decide_reflect (2 * i + 1 + 1 < n)) as [Hj2|Hj2]; simpl.
    - destruct (less (l !!! (2 * i + 1 + 1)) (l !!! (2 * i + 1))) eqn:E.
      + split; [lia|]. split; [pose proof (parent_spec (2 * i + 1 + 1)); lia|].
        intros k Hk Hpk. pose proof (parent_spec k).
        assert (k = 2 * i + 1 \/ k = 2 * i + 1 + 1) as [->| ->] by lia;
          [by apply less_asym_le|by apply (less_irrefl _ Hless)].
      + split; [lia|]. split; [pose proof (parent_spec (2 * i + 1)); lia|].
        intros k Hk Hpk. pose proof (parent_spec k).
        assert (k = 2 * i + 1 \/ k = 2 * i + 1 + 1) as [->| ->] by lia;
          [by apply (less_irrefl _ Hless)|done].
    - split; [lia|]. split; [pose proof (parent_spec (2 * i + 1)); lia|].
      intros k Hk Hpk. pose proof (parent_spec k).
      assert (k = 2 * i + 1) as -> by lia. by apply (less_irrefl _ Hless). }
  clearbody j. destruct Hj as (Hij & Hp & Hmin).
  destruct (less (l !!! j) (l !!! i)) eqn:Hlt; simpl.
  - apply IH; [lia|by rewrite Swap_length|]. by apply down_step.
  - intros k Hk. destruct (decide (parent k = i)) as [Hpk|Hpk]; [|by apply Hl].
    rewrite Hpk. eapply le_trans; [exact Hlt|]. by apply Hmin.
Qed.

(** One round of [up] moves the fault to the parent. *)
Lemma up_step j n l :
  0 < j < n -> n <= length l -> less (l !!! j) (l !!! parent j) = true ->
  heap_below j n l -> heap_below (parent j) n (Swap (parent j) j l).
Proof.
  intros Hj Hn Hlt [Ho Hi]. pose proof (parent_spec j ltac:(lia)) as Hpj. split.
  - intros k Hk Hkp. pose proof (parent_spec k). swap_cases.
    + by apply less_asym_le.
    + apply Hi; auto; lia.
    + eapply le_trans; [apply less_asym_le, Hlt|]. replace (parent j) with (parent k) by done. apply Ho; auto; lia.
    + apply Ho; auto; lia.
  - intros k Hk Hpk Hpos. pose proof (parent_spec k). pose proof (parent_spec (parent j)).
    swap_cases.
    + apply Ho; lia.
    + apply le_trans with (l !!! parent j); [apply Ho; lia|]. rewrite <- Hpk. apply Ho; lia.
Qed.

Lemma up_ok fuel j n l :
  j <= fuel -> j < n -> n <= length l -> heap_below j n l -> heap_ok n (up fuel j l).
Proof.
  revert j l. induction fuel as [|fuel IH]; intros j l Hfuel Hj Hn Hl; simpl.
  { intros k Hk. apply Hl; [done|lia]. }
  destruct (bool_decide_reflect (parent j = j)) as [Hpj|Hpj]; simpl.
  { intros k Hk. apply Hl; [done|]. pose proof (parent_spec j). lia. }
  assert (Hj0 : 0 < j) by (destruct j; [by destruct Hpj|lia]).
  pose proof (parent_spec j Hj0) as Hp.
  destruct (less (l !!! j) (l !!! parent j)) eqn:Hlt; simpl.
  - apply IH; [lia|lia|by rewrite Swap_length|]. by apply up_step.
  - intros k Hk. destruct (decide (k = j)) as [->|]; [done|]. by apply Hl.
Qed.

(** Sifting swaps elements among the first [n], and nothing else. *)
Inductive swaps n : list A -> list A -> Prop :=
  | swaps_none l : swaps n l l
  | swaps_one i j l l' : i < n -> j < n -> swaps n (Swap i j l) l' -> swaps n l l'.

Lemma swaps_keep n l l' :
  n <= length l -> swaps n l l' ->
  length l' = length l /\ map content l' ≡ₚ map content l /\
  (indexed l -> indexed l') /\ forall k, n <= k -> l' !!! k = l !!! k.
Proof.
  intros Hn Hs. induction Hs as [l|i j l l' Hi Hj Hs IH]; [done|].
  destruct IH as (Hlen & Hp & Hidx & Hsame); [by rewrite Swap_length|].
  rewrite Swap_length in Hlen. split_and!; [done| | |].
  - rewrite Hp. apply Swap_content; lia.
  - intros. apply Hidx, Swap_indexed; auto; lia.
  - intros k Hk. rewrite Hsame by done. unfold heap.Swap.
    by rewrite !list_lookup_total_insert_ne by lia.
Qed.

Lemma up_swaps fuel j n l : j < n -> swaps n l (up fuel j l).
Proof.
  revert j l. induction fuel as [|fuel IH]; intros j l Hj; simpl; [constructor|].
  case_match; [constructor|]. pose proof (parent_spec j).
  assert (parent j < n) by (destruct j; [by rewrite parent_0|lia]).
  apply swaps_one with (parent j) j; [done..|]. by apply IH.
Qed.

Lemma down_swaps fuel i n l : swaps n l (down fuel i n l).
Proof.
  revert i l. induction fuel as [|fuel IH]; intros i l; simpl; [constructor|].
  case_bool_decide; [constructor|]. destruct (negb _); [constructor|].
  set (j := if _ && _ then _ else _).
  assert (i < n /\ j < n) as [Hi Hj].
  { subst j. destruct (bool_decide_reflect (2 * i + 1 + 1 < n)); simpl; [|lia].
    case_match; lia. }
  clearbody j. by apply swaps_one with i j.
Qed.

(** The root comes first. *)
Lemma heap_root n l k : heap_ok n l -> k < n -> less (l !!! k) (l !!! 0) = false.
Proof.
  intros Hl. induction (Nat.lt_wf_0 k) as [k _ IH]. intros Hk.
  destruct (decide (k = 0)) as [->|Hk0]; [apply (less_irrefl _ Hless)|].
  pose proof (parent_spec k). apply le_trans with (l !!! parent k).
  - apply IH; lia.
  - apply Hl. lia.
Qed.

Lemma heap_ok_ext n l l' :
  (forall k, k < n -> l' !!! k = l !!! k) -> heap_ok n l -> heap_ok n l'.
Proof.
  intros Hext Hl j Hj. pose proof (parent_spec j). rewrite !Hext by lia. by apply Hl.
Qed.

Lemma heap_Push_ok x l :
  heap_ok (length l) l -> indexed l ->
  let l' := heap_Push less set_index x l in
  heap_ok (length l') l' /\ indexed l' /\ map content l' ≡ₚ content x :: map content l.
Proof.
  intros Hl Hidx. unfold heap_Push, Push. set (l1 := l ++ [_]).
  assert (Hlen : length l1 = S (length l)) by (subst l1; rewrite length_app; simpl; lia).
  assert (Hold : forall k, k < length l -> l1 !!! k = l !!! k)
    by (intros; by apply lookup_total_app_l).
  assert (Hnew : l1 !!! length l = set_index (Z.of_nat (length l)) x)
    by (subst l1; by rewrite lookup_total_app_r, Nat.sub_diag).
  destruct (swaps_keep (length l1) l1 (up (length l1) (length l1 - 1) l1)) as (Hlen' & Hp & Hi & _);
    [done|apply up_swaps; lia|].
  split_and!.
  - rewrite Hlen'. apply up_ok; [lia..|]. rewrite Hlen. split.
    + intros j Hj Hjn. pose proof (parent_spec j). rewrite !Hold by lia. apply Hl. lia.
    + intros j Hj Hpj. pose proof (parent_spec j). lia.
  - apply Hi. intros k Hk. destruct (decide (k = length l)) as [->|].
    + by rewrite Hnew, index_set.
    + rewrite Hold by lia. apply Hidx. lia.
  - rewrite Hp. subst l1. rewrite map_app. simpl. rewrite content_set.
    by rewrite <- Permutation_cons_append.
Qed.

Lemma heap_Pop_ok l l' x :
  l <> [] -> heap_ok (length l) l -> indexed l -> heap_Pop less set_index l = (l', x) ->
  heap_ok (length l') l' /\ indexed l' /\ map content l ≡ₚ content x :: map content l' /\
  index x = (-1)%Z /\ forall y, y ∈ l -> less y x = false.
Proof.
  intros Hne Hl Hidx. unfold heap_Pop. set (n := length l - 1). set (l1 := Swap 0 n l).
  assert (Hlen : length l = S n) by (subst n; destruct l; [done|simpl; lia]).
  assert (Hlen1 : length l1 = S n) by (subst l1; by rewrite Swap_length).
  destruct (swaps_keep n l1 (down n 0 n l1)) as (Hlen2 & Hp & Hi & Hsame);
    [lia|apply down_swaps|].
  assert (Hl2 : heap_ok n (down n 0 n l1)).
  { apply down_ok; [lia..|]. split; [|lia]. intros j Hj Hpj. pose proof (parent_spec j).
    subst l1. rewrite Swap_less by lia. repeat case_decide; try lia. apply Hl. lia. }
  set (l2 := down n 0 n l1) in *.
  assert (Hx : exists a, l2 !!! n = set_index a (l !!! 0)).
  { rewrite Hsame by done. subst l1. destruct (Swap_lookup 0 n n l) as [a ->]; [lia..|].
    rewrite decide_True by done. eauto. }
  assert (Htake : forall k, k < n -> take n l2 !!! k = l2 !!! k).
  { intros k Hk. by rewrite !list_lookup_total_alt, lookup_take_lt. }
  assert (Hlast : l2 = take n l2 ++ [l2 !!! n]).
  { rewrite <- (take_drop n l2) at 1. f_equal.
    rewrite (drop_S l2 (l2 !!! n) n) by (apply list_lookup_lookup_total_lt; lia).
    rewrite drop_ge by lia. done. }
  assert (Hlen' : length (take n l2) = n) by (rewrite length_take; lia).
  unfold Pop. replace (length l2 - 1) with n by lia.
  intros [= <- <-]. destruct Hx as [a Hx]. split_and!.
  - rewrite Hlen'. by eapply heap_ok_ext.
  - intros k Hk. rewrite Hlen' in Hk. rewrite Htake by done.
    apply Hi; [|lia]. subst l1. apply Swap_indexed; [lia..|done].
  - rewrite <- (Swap_content 0 n l) by lia. fold l1. rewrite <- Hp, Hlast at 1.
    rewrite map_app. simpl. rewrite content_set. by rewrite <- Permutation_cons_append.
  - by rewrite index_set.
  - intros y (k & Hk)%list_elem_of_lookup. rewrite Hx, !less_set_r.
    rewrite <- (list_lookup_total_correct _ _ _ Hk). eapply heap_root; [exact Hl|].
    by eapply lookup_lt_Some.
Qed.
End heap_facts.
