(* ===== verification/floats.v ===== *)
(** * Exact float64 arithmetic

    Conversions between integers and IEEE binary64 as Go does them, and when the
    product with a power of two is exact. *)

From Stdlib Require Import SpecFloat.
From S2P Require Import Prelude.
From S2P Require Import golang.

Open Scope Z_scope.

(** The integer part of a finite number, towards zero. *)
Definition trunc_float64 (f : float64) : option Z :=
  match f with
  | S754_zero _ => Some 0
  | S754_finite s m e =>
      let n := if decide (0 <= e) then Zpos m * 2 ^ e else Zpos m / 2 ^ (- e) in
      Some (if (s : bool) then - n else n)
  | _ => None
  end.

(** [int64(f)]: outside the range of the type the result is whatever the platform
    gives. *)
Class Platform := out_of_range : float64 -> Z.

(** The 64-bit x86 conversion instruction gives the least integer. *)
Definition amd64 : Platform := fun _ => min_int64.

Definition int64_of_float64 `{Platform} (f : float64) : Z :=
  match trunc_float64 f with
  | Some n => if decide (in_int64 n) then n else out_of_range f
  | None => out_of_range f
  end.

(** [math.Pow(2, y)] for an integer [y] that is not negative. *)
Definition Pow2 (y : Z) : float64 :=
  if decide (y <= 1023) then binary_normalize 53 1024 1 y false else S754_infinity false.

(** [Duration.Minutes] *)
Definition Minutes (d : Duration) : float64 :=
  add_float64 (float64_of_int (Z.quot d Minute))
    (div_float64 (float64_of_int (Z.rem d Minute)) (float64_of_int 60000000000)).

Example Minutes_ex : trunc_float64 (Minutes (90 * Second)) = Some 1 /\
  trunc_float64 (Minutes (120 * Minute - 1)) = Some 119.
Proof. vm_compute. done. Qed.

(** ** Digits *)

Abbreviation digits m := (Zpos (digits2_pos m)).

Lemma digits_spec m : 2 ^ (digits m - 1) <= Zpos m < 2 ^ digits m.
Proof.
  induction m as [m IH|m IH|]; simpl digits2_pos; [..|done]; rewrite Pos2Z.inj_succ;
    replace (Z.succ (digits m) - 1) with (Z.succ (digits m - 1)) by lia;
    rewrite !Z.pow_succ_r by lia; lia.
Qed.

Lemma digits_unique m d : 2 ^ (d - 1) <= Zpos m < 2 ^ d -> digits m = d.
Proof.
  intros [Hlo Hhi]. pose proof (digits_spec m) as [Hlo' Hhi'].
  assert (0 < d).
  { destruct (Z_lt_le_dec 0 d); [done|]. destruct (decide (d = 0)) as [->|]; [simpl in Hhi; lia|].
    rewrite Z.pow_neg_r in Hhi by lia. lia. }
  destruct (Z_lt_le_dec (digits m) d) as [Hd|Hd].
  - pose proof (Z.pow_le_mono_r 2 (digits m) (d - 1)). lia.
  - destruct (Z_lt_le_dec d (digits m)) as [Hd'|]; [|lia].
    pose proof (Z.pow_le_mono_r 2 d (digits m - 1)). lia.
Qed.

(** ** Rounding an exact number *)

Lemma iter_pos_nat {A} (f : A -> A) n x : SpecFloat.iter_pos f n x = Nat.iter (Pos.to_nat n) f x.
Proof.
  assert (Hadd : forall a b (y : A), Nat.iter a f (Nat.iter b f y) = Nat.iter (a + b) f y).
  { intros a b y. induction a; simpl; congruence. }
  revert x. induction n as [n IH|n IH|]; intros x; cbn [SpecFloat.iter_pos]; rewrite ?IH, ?Hadd; [| |done].
  - change (f x) with (Nat.iter 1 f x). rewrite Hadd. f_equal. lia.
  - f_equal. lia.
Qed.

(** Shifting out zeros loses nothing. *)
Lemma shr_1_iter n k :
  Nat.iter n shr_1 (Build_shr_record (Zpos k * 2 ^ Z.of_nat n) false false) =
  Build_shr_record (Zpos k) false false.
Proof.
  induction n as [|n IH]; [by rewrite Z.mul_1_r|].
  rewrite Nat.iter_succ_r. replace (Zpos k * 2 ^ Z.of_nat (S n)) with (2 * (Zpos k * 2 ^ Z.of_nat n))
    by (rewrite Nat2Z.inj_succ, Z.pow_succ_r by lia; lia).
  pose proof (Z.pow_pos_nonneg 2 (Z.of_nat n)).
  destruct (Zpos k * 2 ^ Z.of_nat n) as [|q|q] eqn:E; [lia| |lia].
  change (2 * Zpos q) with (Zpos (xO q)). simpl shr_1. exact IH.
Qed.

Lemma shr_exact k e s :
  0 <= s -> shr (Build_shr_record (Zpos k * 2 ^ s) false false) e s =
  (Build_shr_record (Zpos k) false false, e + s).
Proof.
  intros Hs. destruct s as [|p|p]; [|simpl|lia].
  - simpl. by rewrite Z.mul_1_r, Z.add_0_r.
  - rewrite iter_pos_nat, <- (positive_nat_Z p). by rewrite shr_1_iter, positive_nat_Z.
Qed.

Lemma shr_none m e s : s <= 0 -> shr m e s = (m, e).
Proof. by destruct s. Qed.

(** A number whose significant bits fit the format is kept, or is too large. *)
Lemma round_exact k e s :
  0 <= s -> -1074 <= e + s -> digits k + s + e - 53 <= e + s ->
  (s = 0 \/ digits k = 53) ->
  forall m, Zpos m = Zpos k * 2 ^ s ->
  binary_round_aux 53 1024 false (Zpos m) e loc_Exact =
  if decide (e + s <= 971) then S754_finite false k (e + s) else S754_infinity false.
Proof.
  intros Hs He Hfit Hnorm m Hm.
  assert (Hd : digits m = digits k + s).
  { apply digits_unique. rewrite Hm. pose proof (digits_spec k) as [Hlo Hhi].
    replace (digits k + s - 1) with (digits k - 1 + s) by lia.
    rewrite !Z.pow_add_r by lia. pose proof (Z.pow_pos_nonneg 2 s). nia. }
  assert (Hk : forall x, shr_fexp 53 1024 (Zpos k) (e + s) loc_Exact = x ->
    x = (Build_shr_record (Zpos k) false false, e + s)).
  { intros x <-. unfold shr_fexp. simpl Zdigits2. apply shr_none.
    unfold fexp, emin. lia. }
  unfold binary_round_aux, shr_fexp at 1. simpl Zdigits2. rewrite Hd, Hm.
  change (shr_record_of_loc (Zpos k * 2 ^ s) loc_Exact)
    with (Build_shr_record (Zpos k * 2 ^ s) false false).
  assert (Hshift : shr (Build_shr_record (Zpos k * 2 ^ s) false false) e
      (fexp 53 1024 (digits k + s + e) - e) = (Build_shr_record (Zpos k) false false, e + s)).
  { destruct Hnorm as [->|Hn].
    - rewrite Z.mul_1_r, !Z.add_0_r. apply shr_none. unfold fexp, emin. lia.
    - replace (fexp 53 1024 (digits k + s + e) - e) with s by (unfold fexp, emin; lia).
      by apply shr_exact. }
  rewrite Hshift. simpl shr_m. simpl loc_of_shr_record. simpl round_nearest_even.
  rewrite (Hk _ eq_refl). simpl. destruct (Z.leb_spec (e + s) (1024 - 53)); case_decide; done || lia.
Qed.

(** ** Integers and powers of two *)

(** [2^52 <= m < 2^53]: the significand of a normal number. *)
Lemma normal_digits k : 2 ^ 52 <= Zpos k < 2 ^ 53 -> digits k = 53.
Proof. apply (digits_unique k 53). Qed.

Lemma iter_xO n m : Zpos (Pos.iter xO m n) = Zpos m * 2 ^ Zpos n.
Proof.
  revert m. induction n as [|n IH] using Pos.peano_ind; intros m; simpl; [lia|].
  rewrite Pos.iter_succ, Pos2Z.inj_succ, Z.pow_succ_r by lia.
  change (Zpos (xO (Pos.iter xO m n))) with (2 * Zpos (Pos.iter xO m n)). rewrite IH. lia.
Qed.

(** Normalisation of an integer of at most 53 digits. *)
Lemma normalize_exact a e :
  digits a <= 53 -> -1074 <= digits a + e - 53 <= 971 ->
  exists k, Zpos k = Zpos a * 2 ^ (53 - digits a) /\ digits k = 53 /\
    binary_normalize 53 1024 (Zpos a) e false = S754_finite false k (digits a + e - 53).
Proof.
  intros Ha He. pose proof (Z.pow_pos_nonneg 2 (53 - digits a)) as Hpow.
  destruct (Zpos a * 2 ^ (53 - digits a)) as [|k|k] eqn:Ek; [lia| |lia].
  assert (Hk : digits k = 53).
  { apply normal_digits. rewrite <- Ek. pose proof (digits_spec a) as [Hlo Hhi].
    replace 52 with (digits a - 1 + (53 - digits a)) by lia.
    replace 53 with (digits a + (53 - digits a)) at 4 by lia.
    rewrite !Z.pow_add_r by lia. nia. }
  exists k. split; [done|]. split; [done|]. simpl. unfold binary_round.
  assert (Hal : shl_align a e (fexp 53 1024 (digits a + e)) = (k, digits a + e - 53)).
  { unfold shl_align. replace (fexp 53 1024 (digits a + e)) with (digits a + e - 53)
      by (unfold fexp, emin; lia).
    destruct (digits a + e - 53 - e) as [|p|p] eqn:Ep; [|lia|].
    - f_equal; [|lia]. assert (53 - digits a = 0) as E0 by lia. rewrite E0 in Ek. simpl in Ek. lia.
    - f_equal. apply Pos2Z.inj. rewrite iter_xO, <- Ek. f_equal. f_equal. lia. }
  rewrite Hal. rewrite (round_exact k _ 0), decide_True by lia. f_equal. lia.
Qed.

(** The product of an integer of at most 53 digits with a power of two is exact
    until it is too large for a number. *)
Lemma trunc_mul_Pow2 a k :
  digits a <= 53 -> 0 <= k ->
  trunc_float64 (mul_float64 (float64_of_int (Zpos a)) (Pow2 k)) =
  if decide (digits a + k <= 1024) then Some (Zpos a * 2 ^ k) else None.
Proof.
  intros Ha Hk. unfold float64_of_int, Pow2.
  destruct (normalize_exact a 0) as (m & Hm & Hdm & ->); [lia..|].
  case_decide as Hk1; [|simpl; rewrite decide_False by lia; done].
  destruct (normalize_exact 1 k) as (p & Hp & _ & ->); [simpl; lia..|].
  simpl digits2_pos in *. rewrite Z.mul_1_l in Hp. change (53 - 1) with 52 in Hp.
  unfold mul_float64. cbn [SFmul xorb].
  rewrite (round_exact m _ 52) by (rewrite ?Pos2Z.inj_mul; lia).
  destruct (decide (digits a + k <= 1024)); [rewrite decide_True by lia|by rewrite decide_False by lia].
  simpl trunc_float64. f_equal. rewrite Hm.
  replace (digits a + 0 - 53 + (1 + k - 53) + 52) with (digits a - 53 + k) by lia.
  case_decide as He.
  - rewrite <- Z.mul_assoc, <- Z.pow_add_r by lia. f_equal. f_equal. lia.
  - replace (53 - digits a) with (k + (- (digits a - 53 + k))) by lia.
    rewrite Z.pow_add_r, Z.mul_assoc by lia. apply Z.div_mul. apply Z.pow_nonzero; lia.
Qed.

(** The conversion back to [int64]: exact as long as it fits. *)
Lemma int64_mul_Pow2 `{Platform} a k :
  0 < a < 2 ^ 53 -> 0 <= k ->
  let f := mul_float64 (float64_of_int a) (Pow2 k) in
  int64_of_float64 f = if decide (a * 2 ^ k < 2 ^ 63) then a * 2 ^ k else out_of_range f.
Proof.
  intros Ha Hk f. destruct a as [|a|a]; [lia| |lia].
  assert (Hd : digits a <= 53).
  { pose proof (digits_spec a). destruct (Z_le_gt_dec (digits a) 53); [done|].
    pose proof (Z.pow_le_mono_r 2 53 (digits a - 1)). lia. }
  unfold int64_of_float64. subst f. rewrite trunc_mul_Pow2 by done.
  pose proof (Z.pow_pos_nonneg 2 k). case_decide as Hfin.
  - repeat case_decide; int64_lia || done.
  - rewrite decide_False; [done|]. pose proof (digits_spec a) as [Hlo _].
    pose proof (Z.pow_le_mono_r 2 1023 (digits a - 1 + k)) as Hpow.
    rewrite Z.pow_add_r in Hpow by lia.
    assert (2 ^ 63 < 2 ^ 1023) by (vm_compute; reflexivity). nia.
Qed.
