(* ===== verification/strconv.v ===== *)
(** * Text and numbers

    The functions of Go's strings, strconv, fmt and encoding/base64 that the source
    uses: prefixes and separators, decimal integers, unpadded base64. *)

From stdpp Require Import pretty.
From S2P Require Import Prelude.
From S2P Require Import golang.

Open Scope string_scope.
Open Scope list_scope.
Open Scope Z_scope.

(** ** strings *)

(** [strings.TrimPrefix] *)
Fixpoint TrimPrefix_go (s p : string) : option string :=
  match p, s with
  | EmptyString, _ => Some s
  | String a p', String b s' => if decide (a = b) then TrimPrefix_go s' p' else None
  | String _ _, EmptyString => None
  end.
Definition TrimPrefix (s p : string) : string := default s (TrimPrefix_go s p).

(** [strings.SplitN(s, c, 2)] for a one-byte separator: the parts before and after
    its first occurrence, if there is one. *)
Fixpoint Cut (c : ascii) (s : string) : option (string * string) :=
  match s with
  | EmptyString => None
  | String a s' =>
      if decide (a = c) then Some ("", s') else
      match Cut c s' with
      | Some (before, after) => Some (String a before, after)
      | None => None
      end
  end.

Lemma Cut_join c a b : free_of c a -> Cut c (a +:+ String c b) = Some (a, b).
Proof.
  induction a as [|x a IH]; simpl.
  - intros _. by rewrite decide_True.
  - intros [Hx Ha]. rewrite decide_False by done. by rewrite (IH Ha).
Qed.

Lemma Cut_Some c s a b : Cut c s = Some (a, b) -> s = a +:+ String c b /\ free_of c a.
Proof.
  revert a b. induction s as [|x s IH]; intros a b; simpl; [done|].
  case_decide as Hx; [intros [= <- <-]; by subst|].
  destruct (Cut c s) as [[a' b']|]; [|done]. intros [= <- <-].
  destruct (IH a' b' eq_refl) as [-> Ha]. done.
Qed.

(** ** Decimal integers *)

(** [fmt.Sprintf("%d", z)] *)
Definition FormatInt (z : Z) : string := pretty z.

Definition digit (a : ascii) : option Z :=
  let n := Z.of_N (byte_of a) in if decide (48 <= n <= 57) then Some (n - 48) else None.

Fixpoint digits (acc : Z) (s : string) : option Z :=
  match s with
  | EmptyString => Some acc
  | String a s' =>
      match digit a with
      | Some d => digits (10 * acc + d) s'
      | None => None
      end
  end.

(** A sign, if there is one, and the rest. *)
Definition split_sign (s : string) : bool * string :=
  match s with
  | String a s' =>
      if decide (a = "-"%char) then (true, s') else
      if decide (a = "+"%char) then (false, s') else (false, s)
  | EmptyString => (false, s)
  end.

(** The integer that a text with optional sign writes. *)
Definition integer (s : string) : option Z :=
  let '(neg, body) := split_sign s in
  if decide (body = "") then None else
  match digits 0 body with
  | None => None
  | Some n => Some (if (neg : bool) then - n else n)
  end.

(** [strconv.ParseInt(s, 10, 64)] *)
Definition ParseInt (s : string) : option Z :=
  match integer s with
  | Some n => if decide (in_int64 n) then Some n else None
  | None => None
  end.

(** The value of [strconv.Atoi] for a caller that does not look at the error: zero
    when the text is no number, the nearest end of the range when it is out of
    range. *)
Definition Atoi (s : string) : Z :=
  match integer s with
  | None => 0
  | Some n => Z.max min_int64 (Z.min max_int64 n)
  end.

Example Atoi_ex : (Atoi "50", Atoi "-3", Atoi "", Atoi "1x", Atoi "9223372036854775808")
  = (50, -3, 0, 0, max_int64).
Proof. vm_compute. reflexivity. Qed.

Lemma digit_pretty n : (n < 10)%N -> digit (pretty_N_char n) = Some (Z.of_N n).
Proof.
  intros Hn. assert (n ∈ [0; 1; 2; 3; 4; 5; 6; 7; 8; 9]%N) as Hin
    by (rewrite !elem_of_cons; lia).
  repeat (apply elem_of_cons in Hin as [->|Hin]; [reflexivity|]).
  by apply elem_of_nil in Hin.
Qed.

Lemma digits_pretty x s : digits 0 (pretty_N_go x s) = digits (Z.of_N x) s.
Proof.
  revert s. induction (N.lt_wf_0 x) as [x _ IH]; intros s.
  destruct (decide (x = 0)%N) as [->|Hx]; [by rewrite pretty_N_go_0|].
  rewrite pretty_N_go_step by lia. rewrite IH by (apply N.div_lt; lia). simpl.
  rewrite digit_pretty by (apply N.mod_lt; lia). f_equal.
  pose proof (N.div_mod x 10). lia.
Qed.

(** A text of digits has no sign, and is not empty when it writes a number. *)
Lemma integer_digits s n : s <> "" -> digits 0 s = Some n -> integer s = Some n.
Proof.
  destruct s as [|a s]; [done|]. intros _. unfold integer, split_sign.
  destruct (decide (a = "-"%char)) as [->|]; [done|].
  destruct (decide (a = "+"%char)) as [->|]; [done|].
  intros ->. done.
Qed.

Lemma digits_pretty_N x : digits 0 (pretty x) = Some (Z.of_N x).
Proof.
  unfold pretty, pretty_N. case_decide; [by subst|]. by rewrite digits_pretty.
Qed.

Lemma pretty_N_nonempty (x : N) : pretty x <> "".
Proof.
  intros E. pose proof (digits_pretty_N x) as H. rewrite E in H. simpl in H. simplify_eq.
  assert (x = 0%N) as -> by lia. done.
Qed.

Lemma integer_FormatInt z : integer (FormatInt z) = Some z.
Proof.
  unfold FormatInt, pretty, pretty_Z. destruct z as [|p|p]; [reflexivity|..].
  - by apply integer_digits; [apply pretty_N_nonempty|apply digits_pretty_N].
  - unfold integer. change (split_sign ("-" +:+ pretty p)) with (true, pretty p). cbv iota beta.
    rewrite decide_False by apply pretty_N_nonempty.
    change (pretty p) with (pretty (N.pos p)). by rewrite digits_pretty_N.
Qed.

(** What is printed is read back. *)
Lemma ParseInt_FormatInt z : in_int64 z -> ParseInt (FormatInt z) = Some z.
Proof. intros Hz. unfold ParseInt. by rewrite integer_FormatInt, decide_True. Qed.

Lemma ParseInt_range s z : ParseInt s = Some z -> in_int64 z.
Proof. unfold ParseInt. destruct (integer s); [|done]. case_decide; [|done]. by intros [= <-]. Qed.

Lemma digits_free c s acc n : digit c = None -> digits acc s = Some n -> free_of c s.
Proof.
  intros Hc. revert acc. induction s as [|a s IH]; intros acc; simpl; [done|].
  destruct (digit a) eqn:Ha; [|done]. intros Hs. split; [congruence|]. by eapply IH.
Qed.

Lemma FormatInt_free c z : digit c = None -> c <> "-"%char -> free_of c (FormatInt z).
Proof.
  intros Hc Hm. unfold FormatInt, pretty, pretty_Z. destruct z as [|p|p].
  - by eapply digits_free with (acc := 0).
  - eapply digits_free; [done|apply (digits_pretty_N (N.pos p))].
  - split; [done|]. eapply digits_free; [done|apply (digits_pretty_N (N.pos p))].
Qed.

(** ** base64.RawURLEncoding *)

(** The alphabet: [A-Z a-z 0-9 - _]. *)
Definition b64_char (n : N) : ascii :=
  ascii_of_N (if decide (n < 26)%N then 65 + n else
              if decide (n < 52)%N then 71 + n else
              if decide (n < 62)%N then n - 4 else
              if decide (n = 62)%N then 45 else 95)%N.

Definition b64_value (a : ascii) : option N :=
  let n := byte_of a in
  (if decide (65 <= n <= 90) then Some (n - 65) else
   if decide (97 <= n <= 122) then Some (n - 71) else
   if decide (48 <= n <= 57) then Some (n + 4) else
   if decide (n = 45) then Some 62 else
   if decide (n = 95) then Some 63 else None)%N.

(** The sextet of a 24-bit group at a shift. *)
Definition sextet (v : N) (shift : N) : N := ((v / 2 ^ shift) mod 64)%N.

Fixpoint b64_encode (l : list ascii) : list ascii :=
  match l with
  | [] => []
  | [a] =>
      let v := (byte_of a * 65536)%N in
      [b64_char (sextet v 18); b64_char (sextet v 12)]
  | [a; b] =>
      let v := (byte_of a * 65536 + byte_of b * 256)%N in
      [b64_char (sextet v 18); b64_char (sextet v 12); b64_char (sextet v 6)]
  | a :: b :: c :: l' =>
      let v := (byte_of a * 65536 + byte_of b * 256 + byte_of c)%N in
      b64_char (sextet v 18) :: b64_char (sextet v 12) :: b64_char (sextet v 6) ::
      b64_char (sextet v 0) :: b64_encode l'
  end.

(** Groups of four characters, and a last one of two or three; a single character
    is an error, as is one outside the alphabet. *)
Fixpoint b64_groups (l : list ascii) : option (list ascii) :=
  match l with
  | [] => Some []
  | [_] => None
  | [a; b] =>
      x ← b64_value a; y ← b64_value b;
      let v := (x * 262144 + y * 4096)%N in
      Some [ascii_of_N (v / 65536)]
  | [a; b; c] =>
      x ← b64_value a; y ← b64_value b; z ← b64_value c;
      let v := (x * 262144 + y * 4096 + z * 64)%N in
      Some [ascii_of_N (v / 65536); ascii_of_N (v / 256 mod 256)]
  | a :: b :: c :: d :: l' =>
      x ← b64_value a; y ← b64_value b; z ← b64_value c; w ← b64_value d;
      let v := (x * 262144 + y * 4096 + z * 64 + w)%N in
      rest ← b64_groups l';
      Some (ascii_of_N (v / 65536) :: ascii_of_N (v / 256 mod 256) ::
            ascii_of_N (v mod 256) :: rest)
  end.

(** The decoder passes over line ends. *)
Definition line_end (a : ascii) : Prop := byte_of a = 10%N \/ byte_of a = 13%N.

#[export] Instance line_end_dec a : Decision (line_end a).
Proof. unfold line_end. apply _. Defined.

Definition EncodeToString (s : string) : string :=
  String.string_of_list_ascii (b64_encode (String.list_ascii_of_string s)).

Definition DecodeString (s : string) : option string :=
  data ← b64_groups (filter (fun a => ~ line_end a) (String.list_ascii_of_string s));
  Some (String.string_of_list_ascii data).

Example base64_ex :
  EncodeToString "light work." = "bGlnaHQgd29yay4" /\
  DecodeString "bGlnaHQgd29yay4" = Some "light work." /\ DecodeString "bGlna" = None.
Proof. vm_compute. done. Qed.

Lemma b64_chars n : (n < 64)%N ->
  b64_value (b64_char n) = Some n /\ ~ line_end (b64_char n).
Proof.
  intros Hn.
  assert (Hall : Forall (fun k => b64_value (b64_char (N.of_nat k)) = Some (N.of_nat k) /\
    ~ line_end (b64_char (N.of_nat k))) (seq 0 64)).
  { apply (bool_decide_eq_true_1 _). vm_compute. reflexivity. }
  rewrite Forall_forall in Hall. rewrite <- (N2Nat.id n).
  apply Hall, elem_of_seq. lia.
Qed.

Lemma sextet_lt v shift : (sextet v shift < 64)%N.
Proof. apply N.mod_lt. lia. Qed.

Lemma byte_of_lt a : (byte_of a < 256)%N.
Proof. apply N_ascii_bounded. Qed.

(** The sextets of a group are its digits to base 64. *)
Lemma sextets v : (v < 16777216)%N ->
  v = (sextet v 18 * 262144 + sextet v 12 * 4096 + sextet v 6 * 64 + sextet v 0)%N.
Proof.
  intros Hv. unfold sextet. change (2 ^ 18)%N with 262144%N. change (2 ^ 12)%N with 4096%N.
  change (2 ^ 6)%N with 64%N. change (2 ^ 0)%N with 1%N. rewrite N.div_1_r.
  zify. Z.to_euclidean_division_equations. lia.
Qed.

Lemma group_bytes a b c :
  let v := (byte_of a * 65536 + byte_of b * 256 + byte_of c)%N in
  (v < 16777216)%N /\ ascii_of_N (v / 65536) = a /\ ascii_of_N (v / 256 mod 256) = b /\
  ascii_of_N (v mod 256) = c.
Proof.
  pose proof (byte_of_lt a). pose proof (byte_of_lt b). pose proof (byte_of_lt c).
  intros v. subst v. split_and!.
  - lia.
  - rewrite <- (ascii_N_embedding a) at 2. f_equal. fold (byte_of a).
    zify. Z.to_euclidean_division_equations. lia.
  - rewrite <- (ascii_N_embedding b) at 2. f_equal. fold (byte_of b).
    zify. Z.to_euclidean_division_equations. lia.
  - rewrite <- (ascii_N_embedding c) at 2. f_equal. fold (byte_of c).
    zify. Z.to_euclidean_division_equations. lia.
Qed.

(** The two or one bytes of a last group leave the low sextets empty. *)
Lemma last_sextets a b :
  let v := (byte_of a * 65536 + byte_of b * 256)%N in
  sextet v 0 = 0%N /\ (byte_of b = 0%N -> sextet v 6 = 0%N).
Proof.
  unfold sextet. change (2 ^ 6)%N with 64%N. change (2 ^ 0)%N with 1%N. rewrite N.div_1_r.
  split; [|intros ->]; zify; Z.to_euclidean_division_equations; lia.
Qed.

(** By groups of three. *)
Lemma list_ind_3 {A} (P : list A -> Prop) :
  P [] -> (forall a, P [a]) -> (forall a b, P [a; b]) ->
  (forall a b c l, P l -> P (a :: b :: c :: l)) -> forall l, P l.
Proof.
  intros H0 H1 H2 H3. fix IH 1. intros [|a [|b [|c l]]]; [exact H0|apply H1|apply H2|apply H3, IH].
Qed.

Lemma b64_encode_text l : Forall (fun a => ~ line_end a) (b64_encode l).
Proof.
  induction l as [|a|a b|a b c l IH] using list_ind_3; simpl;
    repeat (constructor; [apply b64_chars, sextet_lt|]); done.
Qed.

Lemma b64_groups_encode l : b64_groups (b64_encode l) = Some l.
Proof.
  assert (Hch : forall v s, b64_value (b64_char (sextet v s)) = Some (sextet v s))
    by (intros; apply b64_chars, sextet_lt).
  induction l as [|a|a b|a b c l IH] using list_ind_3; simpl; [done| | |]; rewrite !Hch; simpl.
  - destruct (group_bytes a zero zero) as (Hv & Ha & _).
    destruct (last_sextets a zero) as [H0 H6]. specialize (H6 eq_refl).
    change (byte_of zero) with 0%N in *. rewrite !N.mul_0_l, !N.add_0_r in *.
    rewrite (sextets _ Hv), H0, H6, N.mul_0_l, !N.add_0_r in Ha. by rewrite Ha.
  - destruct (group_bytes a b zero) as (Hv & Ha & Hb & _).
    destruct (last_sextets a b) as [H0 _].
    change (byte_of zero) with 0%N in *. rewrite !N.add_0_r in *.
    rewrite (sextets _ Hv), H0, !N.add_0_r in Ha, Hb. by rewrite Ha, Hb.
  - destruct (group_bytes a b c) as (Hv & Ha & Hb & Hc).
    rewrite (sextets _ Hv) in Ha, Hb, Hc. by rewrite IH, Ha, Hb, Hc.
Qed.

(** What is encoded is decoded back. *)
Lemma DecodeString_EncodeToString s : DecodeString (EncodeToString s) = Some s.
Proof.
  unfold DecodeString, EncodeToString. rewrite String.list_ascii_of_string_of_list_ascii.
  rewrite filter_all by apply b64_encode_text.
  rewrite b64_groups_encode. simpl. by rewrite String.string_of_list_ascii_of_string.
Qed.

Lemma EncodeToString_nonempty s : s <> "" -> EncodeToString s <> "".
Proof.
  intros Hs E. pose proof (DecodeString_EncodeToString s) as H. rewrite E in H.
  by injection H as <-.
Qed.

(** ** Lists of texts *)

(** [strings.Split(s, c)] for a one-byte separator. *)
Fixpoint Split (c : ascii) (s : string) : list string :=
  match s with
  | EmptyString => [""]
  | String a s' =>
      if decide (a = c) then "" :: Split c s' else
      match Split c s' with
      | part :: parts => String a part :: parts
      | [] => [String a ""]
      end
  end.

(** [strings.Join(parts, c)] *)
Fixpoint Join (c : ascii) (parts : list string) : string :=
  match parts with
  | [] => ""
  | [part] => part
  | part :: parts => part +:+ String c (Join c parts)
  end.

Example Split_ex : Split ","%char "a,,b" = ["a"; ""; "b"] /\ Split ","%char "" = [""].
Proof. done. Qed.

Lemma Split_free c s : free_of c s -> Split c s = [s].
Proof.
  induction s as [|a s IH]; simpl; [done|]. intros [Ha Hs]. rewrite decide_False by done.
  by rewrite (IH Hs).
Qed.

Lemma Split_app c a b : free_of c a -> Split c (a +:+ String c b) = a :: Split c b.
Proof.
  induction a as [|x a IH]; simpl; [intros _; by rewrite decide_True|].
  intros [Hx Ha]. rewrite decide_False by done. by rewrite (IH Ha).
Qed.

(** Splitting takes a joined text apart again. *)
Lemma Split_Join c parts : parts <> [] -> Forall (free_of c) parts -> Split c (Join c parts) = parts.
Proof.
  induction parts as [|p parts IH]; [done|]. intros _ Hf. inversion Hf as [|? ? Hp Hps]; subst.
  destruct parts as [|q parts]; [by apply Split_free|].
  change (Join c (p :: q :: parts)) with (p +:+ String c (Join c (q :: parts))).
  rewrite Split_app by done. by rewrite IH.
Qed.

Lemma free_of_app c a b : free_of c (a +:+ b) <-> free_of c a /\ free_of c b.
Proof. induction a as [|x a IH]; simpl; [tauto|]. unfold String.append in IH. rewrite IH. tauto. Qed.
