(* ===== verification/fmt.v ===== *)
(** * Formatted text

    The parts of Go's fmt and time packages that the source uses beyond plain
    decimal integers: scanning integers with [Sscanf], zero padding, and the
    calendar day of an instant. *)

From stdpp Require Import pretty.
From S2P Require Import Prelude.
From S2P Require Import golang.
From S2P Require Import strconv.

Open Scope string_scope.
Open Scope list_scope.
Open Scope Z_scope.

(** Quotients by constants are within the reach of [lia] here. *)
#[local] Ltac Zify.zify_post_hook ::= Z.to_euclidean_division_equations.

(** ** Scanning *)

(** [SkipSpace] before a verb: white space is passed over, a newline is an error. *)
Definition skip_space (s : string) : option string :=
  let l := String.list_ascii_of_string s in
  let rest := trim_front space2 space3 l in
  if existsb (fun a => bool_decide (byte_of a = 10%N)) (take (length l - length rest) l)
  then None else Some (String.string_of_list_ascii rest).

(** The longest prefix of bytes with [P], and the rest. *)
Fixpoint span (P : ascii -> bool) (s : string) : string * string :=
  match s with
  | EmptyString => ("", "")
  | String a s' => if P a then let '(x, y) := span P s' in (String a x, y) else ("", s)
  end.

(** The bytes a decimal number is scanned from; underscores are refused later. *)
Definition numeric (a : ascii) : bool := bool_decide (is_Some (digit a) \/ a = "_"%char).

(** The verb [%d]. *)
Definition scan_int (s : string) : option (Z * string) :=
  match skip_space s with
  | None => None
  | Some s =>
      let '(sign, s) := match s with
        | String a s' => if decide (a = "+"%char \/ a = "-"%char) then (String a "", s') else ("", s)
        | EmptyString => ("", s)
        end in
      let '(tok, rest) := span numeric s in
      if decide (tok = "") then None else
      match ParseInt (sign +:+ tok) with
      | None => None
      | Some n => Some (n, rest)
      end
  end.

(** [fmt.Sscanf(s, "%d.%d.%d", ...)]; input after the last number is left unread. *)
Definition Sscanf_triple (s : string) : option (Z * Z * Z) :=
  match scan_int s with
  | Some (a, String "."%char s) =>
      match scan_int s with
      | Some (b, String "."%char s) =>
          match scan_int s with
          | Some (c, _) => Some (a, b, c)
          | None => None
          end
      | _ => None
      end
  | _ => None
  end.

Example Sscanf_ex :
  Sscanf_triple "1.2.3rc1" = Some (1, 2, 3) /\ Sscanf_triple "1. +2.3" = Some (1, 2, 3) /\
  Sscanf_triple "1.2" = None /\ Sscanf_triple "1_0.2.3" = None.
Proof. vm_compute. done. Qed.

(** ** Padding *)

Fixpoint zeros (n : nat) : string :=
  match n with O => "" | S n => String "0"%char (zeros n) end.

(** [%0wd]: zeros between the sign and the digits fill up the width. *)
Definition FormatPadded (w : nat) (z : Z) : string :=
  let sign := if decide (z < 0) then "-" else "" in
  let digits := FormatInt (Z.abs z) in
  sign +:+ zeros (w - String.length sign - String.length digits) +:+ digits.

Example FormatPadded_ex : FormatPadded 6 42 = "000042" /\ FormatPadded 6 (-42) = "-00042".
Proof. vm_compute. done. Qed.

(** ** The calendar *)

(** The date of a day, counted from 1 January of year 1, in the proleptic Gregorian
    calendar: years start in March here, so that a leap day ends one. *)
Definition date_of_day (day : Z) : Z * Z * Z :=
  let z := day + 306 in
  let era := z / 146097 in
  let doe := z mod 146097 in
  let yoe := (doe - doe / 1460 + doe / 36524 - doe / 146096) / 365 in
  let doy := doe - (365 * yoe + yoe / 4 - yoe / 100) in
  let mp := (5 * doy + 2) / 153 in
  let d := doy - (153 * mp + 2) / 5 + 1 in
  let m := if decide (mp < 10) then mp + 3 else mp - 9 in
  (yoe + era * 400 + (if decide (m <= 2) then 1 else 0), m, d).

(** [t.UTC().Format("20060102")] *)
Definition FormatDay (t : Time) : string :=
  let '(y, m, d) := date_of_day (t / (24 * Hour)) in
  FormatPadded 4 y +:+ FormatPadded 2 m +:+ FormatPadded 2 d.

Example FormatDay_ex :
  FormatDay 0 = "00010101" /\ FormatDay (719162 * (24 * Hour)) = "19700101" /\
  FormatDay ((719162 + 11016) * (24 * Hour) + 5) = "20000229" /\
  FormatDay ((719162 + 20089) * (24 * Hour) - 1) = "20241231" /\
  FormatDay ((719162 + 20089) * (24 * Hour)) = "20250101".
Proof. vm_compute. done. Qed.

(** ** Laws *)

Lemma digit_bytes a d : digit a = Some d -> (48 <= byte_of a <= 57)%N /\ 0 <= d <= 9.
Proof. unfold digit. case_decide; [|done]. intros [= <-]. lia. Qed.

Lemma skip_space_digit a s : is_Some (digit a) -> skip_space (String a s) = Some (String a s).
Proof.
  intros [d Hd]. apply digit_bytes in Hd as [Hb _]. unfold skip_space.
  assert (Htrim : forall l, trim_front space2 space3 (a :: l) = a :: l).
  { assert (Hsp : ascii_space a = false).
    { apply bool_decide_eq_false. rewrite !elem_of_cons, elem_of_nil. lia. }
    assert (H2 : forall b, space2 a b = false) by (intros b; apply bool_decide_eq_false; lia).
    assert (H3 : forall b c, space3 a b c = false) by (intros b c; apply bool_decide_eq_false; lia).
    intros [|b [|c l]]; simpl; by rewrite Hsp, ?H2, ?H3. }
  simpl String.list_ascii_of_string. rewrite Htrim, Nat.sub_diag. simpl.
  by rewrite String.string_of_list_ascii_of_string.
Qed.

(** What stops a number: the end of the text or a byte that is not numeric. *)
Definition stops (s : string) : Prop :=
  match s with EmptyString => True | String a _ => numeric a = false end.

Lemma span_digits t rest acc n :
  digits acc t = Some n -> stops rest -> span numeric (t +:+ rest) = (t, rest).
Proof.
  intros Ht Hr. revert acc Ht. induction t as [|a t IH]; intros acc.
  - intros _. destruct rest as [|b rest]; [done|]. simpl in *. by rewrite Hr.
  - simpl. destruct (digit a) eqn:Ha; [|done]. intros Ht.
    assert (numeric a = true) as -> by (apply bool_decide_eq_true; left; eauto).
    change (span numeric (t ++ rest)) with (span numeric (t +:+ rest)). by rewrite (IH _ Ht).
Qed.

Lemma FormatInt_digits z : 0 <= z -> digits 0 (FormatInt z) = Some z /\ FormatInt z <> "".
Proof.
  intros Hz. destruct z as [|p|p]; [done| |lia].
  unfold FormatInt, pretty, pretty_Z. split; [apply (digits_pretty_N (N.pos p))|].
  apply (pretty_N_nonempty (N.pos p)).
Qed.

(** What is printed is scanned back, up to where it stops. *)
Lemma scan_int_FormatInt z rest :
  0 <= z <= max_int64 -> stops rest -> scan_int (FormatInt z +:+ rest) = Some (z, rest).
Proof.
  intros Hz Hr. destruct (FormatInt_digits z) as [Hd Hne]; [lia|].
  assert (HP : ParseInt (FormatInt z) = Some z)
    by (apply ParseInt_FormatInt; unfold in_int64, min_int64; lia).
  destruct (FormatInt z) as [|a t] eqn:Ht; [done|].
  assert (Ha : is_Some (digit a)) by (simpl in Hd; destruct (digit a); [eauto|done]).
  unfold scan_int. change (String a t +:+ rest) with (String a (t +:+ rest)).
  rewrite skip_space_digit by done. cbv iota beta.
  rewrite decide_False by (intros [->| ->]; by destruct Ha).
  change (String a (t +:+ rest)) with (String a t +:+ rest).
  rewrite (span_digits _ _ _ _ Hd Hr). cbv iota beta. rewrite decide_False by done.
  change ("" +:+ String a t) with (String a t). by rewrite HP.
Qed.

Lemma digits_zeros n s : digits 0 (zeros n +:+ s) = digits 0 s.
Proof. induction n as [|n IH]; [done|]. exact IH. Qed.

(** Padded numbers are numbers still. *)
Lemma digits_FormatPadded w z : 0 <= z -> digits 0 (FormatPadded w z) = Some z.
Proof.
  intros Hz. unfold FormatPadded. rewrite decide_False, Z.abs_eq by lia.
  change ("" +:+ ?s) with s. rewrite digits_zeros. by apply FormatInt_digits.
Qed.

Lemma FormatPadded_inj w z z' : 0 <= z -> 0 <= z' -> FormatPadded w z = FormatPadded w z' -> z = z'.
Proof.
  intros Hz Hz' He. apply (f_equal (digits 0)) in He.
  rewrite !digits_FormatPadded in He by done. congruence.
Qed.

(** ** Days *)

(** The day of the year, with the quotients of the calendar as unknowns. *)
Lemma doy_range doe a c e k k4 k100 :
  0 <= doe < 146097 ->
  0 <= doe - 1460 * a <= 1459 -> 0 <= doe - 36524 * c <= 36523 -> 0 <= doe - 146096 * e <= 146095 ->
  0 <= doe - a + c - e - 365 * k <= 364 -> 0 <= k - 4 * k4 <= 3 -> 0 <= k - 100 * k100 <= 99 ->
  0 <= k < 400 /\ 0 <= doe - (365 * k + k4 - k100) <= 365.
Proof.
  intros. split; [lia|].
  assert (c = 0 \/ c = 1 \/ c = 2 \/ c = 3 \/ c = 4) as Hc by lia.
  assert (e = 0 \/ e = 1) as He by lia.
  assert (k100 = 0 \/ k100 = 1 \/ k100 = 2 \/ k100 = 3) as Hq by lia.
  destruct He; subst; destruct Hc as [|[|[|[|]]]]; subst; destruct Hq as [|[|[|]]]; subst; lia.
Qed.

Lemma doy_bounds doe : 0 <= doe < 146097 ->
  let yoe := (doe - doe / 1460 + doe / 36524 - doe / 146096) / 365 in
  0 <= yoe < 400 /\ 0 <= doe - (365 * yoe + yoe / 4 - yoe / 100) <= 365.
Proof.
  intros Hd yoe.
  assert (Hy : 0 <= doe - doe / 1460 + doe / 36524 - doe / 146096 - 365 * yoe <= 364)
    by (subst yoe; generalize (doe - doe / 1460 + doe / 36524 - doe / 146096); lia).
  clearbody yoe.
  apply (doy_range doe (doe / 1460) (doe / 36524) (doe / 146096) yoe (yoe / 4) (yoe / 100));
    first [assumption | clear Hy; lia].
Qed.

(** The month and day are within their ranges. *)
Lemma date_bounds day y m d : date_of_day day = (y, m, d) -> 1 <= m <= 12 /\ 1 <= d <= 31.
Proof.
  unfold date_of_day.
  destruct (doy_bounds ((day + 306) mod 146097)) as [_ Hdoy]; [by apply Z.mod_pos_bound|].
  revert Hdoy. generalize ((day + 306) mod 146097). intros doe.
  generalize ((doe - doe / 1460 + doe / 36524 - doe / 146096) / 365). intros yoe.
  generalize (doe - (365 * yoe + yoe / 4 - yoe / 100)). intros doy Hdoy.
  intros [= <- <- <-]. case_decide; lia.
Qed.

(** Different days have different dates. *)
Lemma date_of_day_inj day day' : date_of_day day = date_of_day day' -> day = day'.
Proof.
  unfold date_of_day.
  pose proof (doy_bounds ((day + 306) mod 146097) ltac:(by apply Z.mod_pos_bound)) as H1.
  pose proof (doy_bounds ((day' + 306) mod 146097) ltac:(by apply Z.mod_pos_bound)) as H2.
  pose proof (Z.div_mod (day + 306) 146097). pose proof (Z.div_mod (day' + 306) 146097).
  revert H1 H2 H H0.
  generalize ((day + 306) / 146097), ((day' + 306) / 146097).
  generalize ((day + 306) mod 146097), ((day' + 306) mod 146097). cbv zeta.
  intros doe doe' era era'.
  generalize ((doe - doe / 1460 + doe / 36524 - doe / 146096) / 365).
  generalize ((doe' - doe' / 1460 + doe' / 36524 - doe' / 146096) / 365).
  intros yoe' yoe. intros [Hy Hdoy] [Hy' Hdoy'] Hdm Hdm' [= Ey Em Ed].
  remember (doe - (365 * yoe + yoe / 4 - yoe / 100)) as doy.
  remember (doe' - (365 * yoe' + yoe' / 4 - yoe' / 100)) as doy'.
  assert (Hmp : (5 * doy + 2) / 153 = (5 * doy' + 2) / 153).
  { revert Em. clear - Hdoy Hdoy'. repeat case_decide; lia. }
  assert (doy = doy') by (rewrite Hmp in Ed; lia).
  rewrite Hmp in Ey. assert (yoe + era * 400 = yoe' + era' * 400) by lia.
  assert (yoe = yoe') by lia. assert (era = era') by lia. subst yoe' era'. lia.
Qed.

Lemma length_append (a b : string) : String.length (a +:+ b) = (String.length a + String.length b)%nat.
Proof. induction a as [|x a IH]; [done|]. exact (f_equal S IH). Qed.

Lemma append_inj_r (a b a' b' : string) :
  String.length b = String.length b' -> a +:+ b = a' +:+ b' -> a = a' /\ b = b'.
Proof.
  intros Hl He.
  assert (Hla : String.length a = String.length a').
  { apply (f_equal String.length) in He. rewrite !length_append in He. lia. }
  revert a' He Hla. induction a as [|x a IH]; intros [|y a'] He Hla; try done.
  injection He as -> He. injection Hla as Hla. by destruct (IH a' He Hla) as [-> ->].
Qed.

Lemma FormatPadded_2 z : 0 <= z <= 31 -> String.length (FormatPadded 2 z) = 2%nat.
Proof.
  intros Hz. assert (Hall : Forall (fun n => String.length (FormatPadded 2 (Z.of_nat n)) = 2%nat) (seq 0 32))
    by (apply (bool_decide_unpack _); vm_compute; exact I).
  rewrite Forall_forall in Hall. rewrite <- (Z2Nat.id z) by lia. apply Hall.
  apply elem_of_seq. lia.
Qed.

Lemma year_nonneg day y m d : 0 <= day -> date_of_day day = (y, m, d) -> 0 <= y.
Proof.
  intros Hday. unfold date_of_day. intros [= <- _ _].
  destruct (doy_bounds ((day + 306) mod 146097)) as [Hy _]; [by apply Z.mod_pos_bound|].
  assert (0 <= (day + 306) / 146097) by (apply Z.div_pos; lia). case_decide; lia.
Qed.

(** Instants have the same day text exactly when they are on one day. *)
Lemma FormatDay_iff t u : 0 <= t -> 0 <= u ->
  FormatDay t = FormatDay u <-> t / (24 * Hour) = u / (24 * Hour).
Proof.
  intros Ht Hu. unfold FormatDay. split; [|by intros ->].
  assert (Hpos : forall t, 0 <= t -> 0 <= t / (24 * Hour)) by (intros; by apply Z.div_pos).
  destruct (date_of_day (t / _)) as [[y m] d] eqn:Hd.
  destruct (date_of_day (u / _)) as [[y' m'] d'] eqn:Hd'. intros He.
  destruct (date_bounds _ _ _ _ Hd), (date_bounds _ _ _ _ Hd').
  apply year_nonneg in Hd as Hy; [|by apply Hpos]. apply year_nonneg in Hd' as Hy'; [|by apply Hpos].
  rewrite !string_app_assoc in He. apply append_inj_r in He as [He Ed]; [|by rewrite !FormatPadded_2 by lia].
  apply append_inj_r in He as [Ey Em]; [|by rewrite !FormatPadded_2 by lia].
  apply FormatPadded_inj in Ey, Em, Ed; [|lia..]. subst. apply date_of_day_inj. congruence.
Qed.

Lemma FormatDay_free t : 0 <= t -> free_of "-"%char (FormatDay t).
Proof.
  intros Ht. unfold FormatDay. destruct (date_of_day _) as [[y m] d] eqn:Hd.
  destruct (date_bounds _ _ _ _ Hd). apply year_nonneg in Hd; [|by apply Z.div_pos].
  rewrite !free_of_app. split_and!; (eapply digits_free; [done|apply digits_FormatPadded; lia]).
Qed.
