(* ===== verification/domain.v ===== *)
(** * Package domain

    The records, status machines, validation rules and errors of
    [internal/domain].  A Go string type with constants is open (a request can
    carry any text), so statuses and roles are strings with the source's
    constants. *)

From S2P Require Import Prelude.
From S2P Require Import golang.

Open Scope string_scope.
Open Scope list_scope.
Open Scope Z_scope.

(** ** errors.go *)

(** An [error]: the sentinels of the package, the errors of [context], any other
    error by its text, and [fmt.Errorf] around a wrapped error. *)
Inductive error :=
  | ErrNotFound | ErrConflict | ErrForbidden | ErrInvalid
  | ErrExpired | ErrRevoked | ErrCapacity | ErrState
  | Canceled | DeadlineExceeded
  | ErrText (text : string)
  | Errorf (pre : string) (e : error) (post : string).

#[export] Instance error_eq_dec : EqDecision error.
Proof. solve_decision. Defined.

(** [err.Error()] *)
Fixpoint error_string (e : error) : string :=
  match e with
  | ErrNotFound => "airbridge: not found"
  | ErrConflict => "airbridge: conflict"
  | ErrForbidden => "airbridge: forbidden"
  | ErrInvalid => "airbridge: invalid input"
  | ErrExpired => "airbridge: expired"
  | ErrRevoked => "airbridge: revoked"
  | ErrCapacity => "airbridge: capacity unavailable"
  | ErrState => "airbridge: invalid state transition"
  | Canceled => "context canceled"
  | DeadlineExceeded => "context deadline exceeded"
  | ErrText t => t
  | Errorf pre e' post => pre +:+ error_string e' +:+ post
  end.

(** [errors.Is(e, target)] *)
Fixpoint errors_Is (e target : error) : bool :=
  bool_decide (e = target) ||
  match e with Errorf _ e' _ => errors_Is e' target | _ => false end.

(** The error at the end of the chain of wrappings. *)
Fixpoint root_cause (e : error) : error :=
  match e with Errorf _ e' _ => root_cause e' | _ => e end.

Lemma errors_Is_root_cause e target :
  (forall p e' q, target <> Errorf p e' q) ->
  errors_Is e target = bool_decide (root_cause e = target).
Proof.
  intros Ht. induction e; simpl; rewrite ?orb_false_r; try done.
  rewrite bool_decide_false by (intros <-; by eapply Ht). done.
Qed.

(** What a Go function returns with its error result: the value, or the error
    with the zero value that comes with it left out. *)
Inductive result (A : Type) :=
  | Ok (v : A)
  | Err (e : error).
Arguments Ok {A} v.
Arguments Err {A} e.

#[export] Instance result_eq_dec {A} `{EqDecision A} : EqDecision (result A).
Proof. solve_decision. Defined.

Definition is_err {A} (r : result A) : Prop := match r with Ok _ => False | Err _ => True end.

(** A [context.Context] as the code observes it: [ctx.Err()]. *)
Abbreviation Context := (option error) (only parsing).

(** ** types.go *)

Abbreviation Role := string (only parsing).
Definition RoleShipper : Role := "shipper".
Definition RoleCoordinator : Role := "coordinator".
Definition RoleGroundAgent : Role := "ground_agent".

Abbreviation ShipmentStatus := string (only parsing).
Definition ShipmentDraft : ShipmentStatus := "draft".
Definition ShipmentBooked : ShipmentStatus := "booked".
Definition ShipmentScreening : ShipmentStatus := "screening".
Definition ShipmentCleared : ShipmentStatus := "cleared".
Definition ShipmentLoaded : ShipmentStatus := "loaded".
Definition ShipmentDeparted : ShipmentStatus := "departed".
Definition ShipmentCancelled : ShipmentStatus := "cancelled".

Abbreviation LegStatus := string (only parsing).
Definition LegPlanned : LegStatus := "planned".
Definition LegOpen : LegStatus := "open".
Definition LegBoarding : LegStatus := "boarding".
Definition LegDeparted : LegStatus := "departed".
Definition LegClosed : LegStatus := "closed".

Abbreviation CustomsStatus := string (only parsing).
Definition CustomsPending : CustomsStatus := "pending".
Definition CustomsReview : CustomsStatus := "review".
Definition CustomsReleased : CustomsStatus := "released".
Definition CustomsHeld : CustomsStatus := "held".

Abbreviation SecurityStatus := string (only parsing).
Definition SecurityPending : SecurityStatus := "pending".
Definition SecurityPassed : SecurityStatus := "passed".
Definition SecurityFailed : SecurityStatus := "failed".

Record Tenant := mkTenant {
  t_ID : string; t_Name : string; t_Active : bool; t_CreatedAt : Time }.

Record User := mkUser {
  u_ID : string; u_TenantID : string; u_Email : string; u_PasswordHash : string;
  u_Role : Role; u_Active : bool; u_CreatedAt : Time; u_DeactivatedAt : option Time }.

Record Session := mkSession {
  ses_ID : string; ses_UserID : string; ses_TokenHash : string; ses_ExpiresAt : Time;
  ses_RevokedAt : option Time; ses_CreatedAt : Time }.

Record Shipment := mkShipment {
  sh_ID : string; sh_TenantID : string; sh_Reference : string; sh_Origin : string;
  sh_Destination : string; sh_WeightKg : Z; sh_Pieces : Z; sh_Status : ShipmentStatus;
  sh_LegID : option string; sh_IdempotencyKey : string; sh_Version : Z;
  sh_CreatedAt : Time; sh_UpdatedAt : Time }.

Record FlightLeg := mkFlightLeg {
  leg_ID : string; leg_TenantID : string; leg_FlightNumber : string; leg_Origin : string;
  leg_Destination : string; leg_DepartureAt : Time; leg_ArrivalAt : Time;
  leg_CapacityKg : Z; leg_ReservedKg : Z; leg_Status : LegStatus; leg_Version : Z;
  leg_CreatedAt : Time }.

Record CustomsCase := mkCustomsCase {
  cc_ID : string; cc_ShipmentID : string; cc_Status : CustomsStatus;
  cc_DocumentRef : string; cc_ReviewedBy : option string; cc_UpdatedAt : Time }.

Record SecurityCheck := mkSecurityCheck {
  sc_ID : string; sc_ShipmentID : string; sc_Status : SecurityStatus;
  sc_OfficerID : option string; sc_Notes : string; sc_CheckedAt : option Time }.

Record AuditEvent := mkAuditEvent {
  ae_ID : string; ae_TenantID : string; ae_ActorID : string; ae_ObjectType : string;
  ae_ObjectID : string; ae_Action : string; ae_Result : string; ae_RequestID : string;
  ae_OccurredAt : Time }.

Record HandlingEvent := mkHandlingEvent {
  he_ID : string; he_ShipmentID : string; he_Kind : string; he_ActorID : string;
  he_OccurredAt : Time; he_Metadata : gmap string string }.

Record OutboxEvent := mkOutboxEvent {
  ob_ID : string; ob_TenantID : string; ob_Topic : string; ob_AggregateID : string;
  ob_Payload : string; ob_Attempts : Z; ob_AvailableAt : Time; ob_ClaimedAt : option Time;
  ob_PublishedAt : option Time; ob_LastError : string }.

Record OperationsSummary := mkOperationsSummary {
  os_TenantID : string; os_Draft : Z; os_Booked : Z; os_InFlight : Z; os_Held : Z;
  os_PendingOutbox : Z; os_FailedOutbox : Z }.

#[export] Instance Tenant_eq_dec : EqDecision Tenant.
Proof. solve_decision. Defined.
#[export] Instance User_eq_dec : EqDecision User.
Proof. solve_decision. Defined.
#[export] Instance Session_eq_dec : EqDecision Session.
Proof. solve_decision. Defined.
#[export] Instance Shipment_eq_dec : EqDecision Shipment.
Proof. solve_decision. Defined.
#[export] Instance FlightLeg_eq_dec : EqDecision FlightLeg.
Proof. solve_decision. Defined.
#[export] Instance CustomsCase_eq_dec : EqDecision CustomsCase.
Proof. solve_decision. Defined.
#[export] Instance SecurityCheck_eq_dec : EqDecision SecurityCheck.
Proof. solve_decision. Defined.
#[export] Instance AuditEvent_eq_dec : EqDecision AuditEvent.
Proof. solve_decision. Defined.
#[export] Instance OutboxEvent_eq_dec : EqDecision OutboxEvent.
Proof. solve_decision. Defined.

(** The zero values a Go map lookup gives for an absent key. *)
Definition zero_User : User := mkUser "" "" "" "" "" false zero_time None.
Definition zero_Shipment : Shipment :=
  mkShipment "" "" "" "" "" 0 0 "" None "" 0 zero_time zero_time.

(** Field assignments. *)
Definition set_sh_Status (st : ShipmentStatus) (s : Shipment) : Shipment :=
  let 'mkShipment a b c d e f g _ i j k l m := s in mkShipment a b c d e f g st i j k l m.
Definition set_sh_LegID (leg : option string) (s : Shipment) : Shipment :=
  let 'mkShipment a b c d e f g h _ j k l m := s in mkShipment a b c d e f g h leg j k l m.
Definition set_sh_Version (n : Z) (s : Shipment) : Shipment :=
  let 'mkShipment a b c d e f g h i j _ l m := s in mkShipment a b c d e f g h i j n l m.
Definition set_sh_UpdatedAt (t : Time) (s : Shipment) : Shipment :=
  let 'mkShipment a b c d e f g h i j k l _ := s in mkShipment a b c d e f g h i j k l t.
Definition set_leg_ReservedKg (w : Z) (l : FlightLeg) : FlightLeg :=
  let 'mkFlightLeg a b c d e f g h _ j k m := l in mkFlightLeg a b c d e f g h w j k m.
Definition set_leg_Status (st : LegStatus) (l : FlightLeg) : FlightLeg :=
  let 'mkFlightLeg a b c d e f g h i _ k m := l in mkFlightLeg a b c d e f g h i st k m.
Definition set_leg_Version (n : Z) (l : FlightLeg) : FlightLeg :=
  let 'mkFlightLeg a b c d e f g h i j _ m := l in mkFlightLeg a b c d e f g h i j n m.
Definition set_ses_RevokedAt (t : option Time) (s : Session) : Session :=
  let 'mkSession a b c d _ f := s in mkSession a b c d t f.

(** ** pagination.go *)

Record PageRequest := mkPageRequest { pr_Limit : Z; pr_Cursor : string; pr_Sort : string }.

Record Page (T : Type) := mkPage { pg_Items : list T; pg_NextCursor : string; pg_Total : Z }.
Arguments mkPage {T}.
Arguments pg_Items {T}.
Arguments pg_NextCursor {T}.
Arguments pg_Total {T}.

Definition Normalized (p : PageRequest) : PageRequest :=
  let limit := if decide (pr_Limit p < 1) then 50 else pr_Limit p in
  let limit := if decide (limit > 200) then 200 else limit in
  mkPageRequest limit (pr_Cursor p)
    (if decide (pr_Sort p = "") then "created_at" else pr_Sort p).

Lemma Normalized_limit p : 1 <= pr_Limit (Normalized p) <= 200.
Proof. unfold Normalized; simpl. repeat case_decide; lia. Qed.

(** ** rules.go *)

(** [map[S]map[S]bool], read with the zero value [false] for absent keys. *)
Definition map2_get (m : gmap string (gmap string bool)) (s next : string) : bool :=
  default false (default ∅ (m !! s) !! next).

Definition shipment_allowed : gmap string (gmap string bool) :=
  {[ ShipmentDraft := {[ ShipmentBooked := true; ShipmentCancelled := true ]};
     ShipmentBooked := {[ ShipmentScreening := true; ShipmentCancelled := true ]};
     ShipmentScreening := {[ ShipmentCleared := true; ShipmentCancelled := true ]};
     ShipmentCleared := {[ ShipmentLoaded := true; ShipmentCancelled := true ]};
     ShipmentLoaded := {[ ShipmentDeparted := true ]};
     ShipmentDeparted := ∅; ShipmentCancelled := ∅ ]}.

Definition Shipment_CanTransition (s next : ShipmentStatus) : bool :=
  map2_get shipment_allowed s next.

Definition Leg_CanTransition (s next : LegStatus) : bool :=
  map2_get
    {[ LegPlanned := {[ LegOpen := true ]};
       LegOpen := {[ LegBoarding := true; LegClosed := true ]};
       LegBoarding := {[ LegDeparted := true; LegClosed := true ]};
       LegDeparted := {[ LegClosed := true ]}; LegClosed := ∅ ]} s next.

Definition Customs_CanTransition (s next : CustomsStatus) : bool :=
  map2_get
    {[ CustomsPending := {[ CustomsReview := true; CustomsHeld := true ]};
       CustomsReview := {[ CustomsReleased := true; CustomsHeld := true ]};
       CustomsHeld := {[ CustomsReview := true ]}; CustomsReleased := ∅ ]} s next.

Definition Security_CanTransition (s next : SecurityStatus) : bool :=
  map2_get
    {[ SecurityPending := {[ SecurityPassed := true; SecurityFailed := true ]};
       SecurityFailed := {[ SecurityPending := true ]}; SecurityPassed := ∅ ]} s next.

Definition ValidateShipment (s : Shipment) : option error :=
  if decide (sh_TenantID s = "" \/ sh_Reference s = "" \/ sh_Origin s = ""
    \/ sh_Destination s = "" \/ sh_WeightKg s <= 0 \/ sh_Pieces s <= 0)
  then Some ErrInvalid else
  if decide (sh_Origin s = sh_Destination s) then Some ErrInvalid else
  None.

Definition ValidateLeg (l : FlightLeg) (now : Time) : option error :=
  if decide (leg_TenantID l = "" \/ leg_FlightNumber l = "" \/ leg_Origin l = ""
    \/ leg_Destination l = "" \/ leg_CapacityKg l <= 0 \/ ~ now < leg_DepartureAt l
    \/ ~ leg_DepartureAt l < leg_ArrivalAt l)
  then Some ErrInvalid else None.

Definition ValidateCapacity (l : FlightLeg) (weight : Z) : option error :=
  if decide (weight <= 0 \/ leg_ReservedKg l < 0
    \/ add64 (leg_ReservedKg l) weight > leg_CapacityKg l)
  then Some ErrCapacity else None.

Definition CustomsAllowsLoading (c : CustomsCase) : bool :=
  bool_decide (cc_Status c = CustomsReleased).
Definition SecurityAllowsLoading (s : SecurityCheck) : bool :=
  bool_decide (sc_Status s = SecurityPassed).

Definition IsSessionActive (s : Session) (now : Time) : option error :=
  match ses_RevokedAt s with
  | Some _ => Some ErrRevoked
  | None => if decide (now < ses_ExpiresAt s) then None else Some ErrExpired
  end.

Lemma ValidateCapacity_iff l w :
  ValidateCapacity l w = None <->
  0 < w /\ 0 <= leg_ReservedKg l /\ add64 (leg_ReservedKg l) w <= leg_CapacityKg l.
Proof. unfold ValidateCapacity. case_decide as Hc; split; try done; intros; lia. Qed.

Lemma ValidateCapacity_nonneg l w : ValidateCapacity l w = None -> 0 < w /\ 0 <= leg_ReservedKg l.
Proof. rewrite ValidateCapacity_iff. lia. Qed.

(** [ValidateCapacity] is exact as long as the sum is an [int64]. *)
Lemma ValidateCapacity_exact l w :
  in_int64 (leg_ReservedKg l + w) ->
  ValidateCapacity l w = None <->
  0 < w /\ 0 <= leg_ReservedKg l /\ leg_ReservedKg l + w <= leg_CapacityKg l.
Proof. intros Hsum. by rewrite ValidateCapacity_iff, add64_exact. Qed.

(** ** The status machines as relations *)

(** One stage of the life of a shipment. *)
Inductive ship_edge : ShipmentStatus -> ShipmentStatus -> Prop :=
  | edge_book : ship_edge ShipmentDraft ShipmentBooked
  | edge_screen : ship_edge ShipmentBooked ShipmentScreening
  | edge_clear : ship_edge ShipmentScreening ShipmentCleared
  | edge_load : ship_edge ShipmentCleared ShipmentLoaded
  | edge_depart : ship_edge ShipmentLoaded ShipmentDeparted
  | edge_cancel s :
      s ∈ [ShipmentDraft; ShipmentBooked; ShipmentScreening; ShipmentCleared] ->
      ship_edge s ShipmentCancelled.

Inductive leg_edge : LegStatus -> LegStatus -> Prop :=
  | edge_open : leg_edge LegPlanned LegOpen
  | edge_board : leg_edge LegOpen LegBoarding
  | edge_leave : leg_edge LegBoarding LegDeparted
  | edge_close s : s ∈ [LegOpen; LegBoarding; LegDeparted] -> leg_edge s LegClosed.

#[export] Hint Constructors ship_edge leg_edge : go.

(** [machine_cases] evaluates the lookup in a status table on every key. *)
Ltac machine_cases H :=
  unfold map2_get in H;
  repeat first
    [ rewrite lookup_insert in H | rewrite lookup_singleton in H | rewrite lookup_empty in H
    | case_decide; subst; simpl in H ]; try discriminate H.

Lemma Shipment_CanTransition_edge s next :
  Shipment_CanTransition s next = true <-> ship_edge s next.
Proof.
  split.
  - intros H. unfold Shipment_CanTransition, shipment_allowed in H. machine_cases H;
      constructor; rewrite ?elem_of_cons; auto 7.
  - destruct 1 as [| | | | |s Hs]; [reflexivity..|].
    repeat (apply elem_of_cons in Hs as [->|Hs]; [reflexivity|]). by apply elem_of_nil in Hs.
Qed.

Lemma Leg_CanTransition_edge s next :
  Leg_CanTransition s next = true <-> leg_edge s next.
Proof.
  split.
  - intros H. unfold Leg_CanTransition in H. machine_cases H;
      constructor; rewrite ?elem_of_cons; auto 7.
  - destruct 1 as [| | |s Hs]; [reflexivity..|].
    repeat (apply elem_of_cons in Hs as [->|Hs]; [reflexivity|]). by apply elem_of_nil in Hs.
Qed.

(** [run_path can s l]: from [s] every status of [l] in turn is allowed. *)
Fixpoint run_path (can : string -> string -> bool) (s : string) (l : list string) : bool :=
  match l with
  | [] => true
  | next :: l' => can s next && run_path can next l'
  end.

(** [list_cases] splits membership in a literal list. *)
Ltac list_cases H :=
  repeat (apply elem_of_cons in H as [H|H]; [subst|]); try by apply elem_of_nil in H.

(** [edge_cases H] splits an edge whose source or target is known. *)
Ltac edge_cases H :=
  inversion H; subst; try discriminate;
  repeat match goal with
  | Hs : _ ∈ _ :: _ |- _ => apply elem_of_cons in Hs as [Hs|Hs]; [try discriminate Hs; subst|]
  | Hs : _ ∈ [] |- _ => by apply elem_of_nil in Hs
  end.

Lemma departed_no_edge s : ~ ship_edge ShipmentDeparted s.
Proof. intros H. edge_cases H. Qed.

Lemma cancelled_no_edge s : ~ ship_edge ShipmentCancelled s.
Proof. intros H. edge_cases H. Qed.

Lemma no_edge_to_draft s : ~ ship_edge s ShipmentDraft.
Proof. intros H. edge_cases H. Qed.

Lemma departed_final s : rtc ship_edge ShipmentDeparted s -> s = ShipmentDeparted.
Proof. intros Hr. inversion_clear Hr as [|? ? ? He]; [done|]. by apply departed_no_edge in He. Qed.

Lemma cancelled_final s : rtc ship_edge ShipmentCancelled s -> s = ShipmentCancelled.
Proof. intros Hr. inversion_clear Hr as [|? ? ? He]; [done|]. by apply cancelled_no_edge in He. Qed.

(** The number of stages a shipment can still go through. *)
Definition stages_left (s : ShipmentStatus) : nat :=
  if decide (s = ShipmentDraft) then 5 else
  if decide (s = ShipmentBooked) then 4 else
  if decide (s = ShipmentScreening) then 3 else
  if decide (s = ShipmentCleared) then 2 else
  if decide (s = ShipmentLoaded) then 1 else 0.

Lemma ship_edge_stages s next : ship_edge s next -> (stages_left next < stages_left s)%nat.
Proof.
  destruct 1 as [| | | | |s Hs]; [by vm_compute; lia..|].
  list_cases Hs; vm_compute; lia.
Qed.

#[export] Hint Resolve departed_no_edge cancelled_no_edge no_edge_to_draft : go.

Lemma default_last_cons {A} (d x : A) l : default d (last (x :: l)) = default x (last l).
Proof. rewrite last_cons. by destruct (last l). Qed.

Lemma run_path_rtc s l :
  run_path Shipment_CanTransition s l = true -> rtc ship_edge s (default s (last l)).
Proof.
  revert s. induction l as [|next l IH]; intros s; simpl; [done|].
  intros [H1%Shipment_CanTransition_edge H2%IH]%andb_true_iff.
  rewrite default_last_cons. by eapply rtc_l.
Qed.

Lemma run_path_length s l :
  run_path Shipment_CanTransition s l = true ->
  (length l + stages_left (default s (last l)) <= stages_left s)%nat.
Proof.
  revert s. induction l as [|next l IH]; intros s; simpl; [done|].
  intros [H1%Shipment_CanTransition_edge%ship_edge_stages H2%IH]%andb_true_iff.
  rewrite default_last_cons. lia.
Qed.

Lemma run_path_final s l :
  (forall next, ~ ship_edge s next) -> run_path Shipment_CanTransition s l = true -> l = [].
Proof.
  intros Hs. destruct l as [|next l]; simpl; [done|].
  intros [H%Shipment_CanTransition_edge _]%andb_true_iff. by destruct (Hs next).
Qed.

(** [path_step l Hl Hlast] follows a path one stage further; the branch of a
    cancellation ends there. *)
Ltac path_step l Hl Hlast :=
  let next := fresh "next" in let He := fresh "He" in
  destruct l as [|next l]; [discriminate Hlast|];
  simpl in Hl; apply andb_true_iff in Hl as [He Hl];
  apply Shipment_CanTransition_edge in He;
  edge_cases He; clear He;
  first
    [ apply (run_path_final _ _ cancelled_no_edge) in Hl; subst l; discriminate Hlast
    | idtac ].

(** C22. The shipment machine terminates after at most five transitions, and the
    only way for a draft to depart is through booking, screening, clearance and
    loading, in that order and without repetition. *)
Theorem shipment_lifecycle (l : list ShipmentStatus) :
  run_path Shipment_CanTransition ShipmentDraft l = true ->
  (length l <= 5)%nat /\
  (last l = Some ShipmentDeparted ->
   l = [ShipmentBooked; ShipmentScreening; ShipmentCleared; ShipmentLoaded; ShipmentDeparted]).
Proof.
  intros Hl. split; [apply run_path_length in Hl; change (stages_left ShipmentDraft) with 5%nat in Hl; lia|].
  intros Hlast. do 5 path_step l Hl Hlast. by rewrite (run_path_final _ l departed_no_edge Hl).
Qed.

(** C23. What the capacity check means on machine integers: it accepts exactly the
    positive weights that fit, and also those so large that the sum of the
    reservation and the weight leaves the [int64] range and comes out negative. *)
Theorem ValidateCapacity_meaning (l : FlightLeg) (w : Z) :
  in_int64 (leg_ReservedKg l) -> in_int64 w -> 0 <= leg_CapacityKg l <= max_int64 ->
  ValidateCapacity l w = None <->
  0 < w /\ 0 <= leg_ReservedKg l /\
  (leg_ReservedKg l + w <= leg_CapacityKg l \/ max_int64 < leg_ReservedKg l + w).
Proof.
  intros Hr Hw Hc. rewrite ValidateCapacity_iff.
  destruct (decide (max_int64 < leg_ReservedKg l + w)) as [Hover|Hover].
  - rewrite add64_overflow by done. int64_lia.
  - destruct (decide (0 < w /\ 0 <= leg_ReservedKg l)) as [?|?]; [|tauto].
    rewrite add64_exact by int64_lia. int64_lia.
Qed.

Lemma ValidateCapacity_meaning_witness :
  let l := mkFlightLeg "L" "t" "F" "A" "B" 1 2 100 60 LegOpen 1 0 in
  in_int64 max_int64 /\
  (ValidateCapacity l max_int64 = None <->
   0 < max_int64 /\ 0 <= 60 /\ (60 + max_int64 <= 100 \/ max_int64 < 60 + max_int64)).
Proof.
  split; [split; vm_compute; discriminate|].
  apply (ValidateCapacity_meaning (mkFlightLeg "L" "t" "F" "A" "B" 1 2 100 60 LegOpen 1 0)
    max_int64); split; vm_compute; discriminate.
Defined.

Lemma shipment_lifecycle_witness :
  let l := [ShipmentBooked; ShipmentScreening; ShipmentCancelled] in
  (length l <= 5)%nat /\
  (last l = Some ShipmentDeparted ->
   l = [ShipmentBooked; ShipmentScreening; ShipmentCleared; ShipmentLoaded; ShipmentDeparted]).
Proof. apply shipment_lifecycle. vm_compute. reflexivity. Defined.
