(* ===== verification/external.v ===== *)
(** * Functions the program takes from elsewhere, and package auth

    Hashing, password verification and Unicode case mapping are not in the
    repository: they are parameters of the definitions that use them.  The module
    [auth] has the token hashing and password hashing of [internal/auth]. *)

From S2P Require Import Prelude.
From S2P Require Import golang.
From S2P Require Import domain.

Class External := {
  (** [crypto/sha256.Sum256], the digest as a string of bytes *)
  sha256_Sum256 : string -> string;
  (** [bcrypt.CompareHashAndPassword] of [golang.org/x/crypto] *)
  bcrypt_Compare : string -> string -> option error;
  (** [bcrypt.GenerateFromPassword], for the cost it is given *)
  bcrypt_Generate : string -> Z -> result string;
  (** [strings.ToLower] *)
  strings_ToLower : string -> string;
  (** [strings.ToUpper] *)
  strings_ToUpper : string -> string;
  (** [strings.EqualFold]: equality under simple Unicode case folding *)
  strings_EqualFold : string -> string -> bool }.

(** Distinct texts have distinct digests. *)
Class CollisionFree `{External} := sha256_inj : Inj (=) (=) sha256_Sum256.

(** A password matches the hashes made of it. *)
Class HashMatches `{External} :=
  bcrypt_matches : forall raw cost hash, bcrypt_Generate raw cost = Ok hash -> bcrypt_Compare hash raw = None.

(** A concrete instance for the examples: the digest and the password hash are
    the text itself, the case mapping is the ASCII one. *)
Definition sample_external : External := {|
  sha256_Sum256 s := s;
  bcrypt_Compare hash raw := if decide (hash = raw) then None else Some (ErrText "mismatch");
  bcrypt_Generate raw cost := Ok raw;
  strings_ToLower := lower;
  strings_ToUpper := upper;
  strings_EqualFold a b := bool_decide (lower a = lower b) |}.

Lemma sample_matches : @HashMatches sample_external.
Proof. intros raw cost hash [= <-]. unfold bcrypt_Compare. simpl. by rewrite decide_True. Qed.

(** ** Package auth *)

Module auth.
Section auth.
Context `{External}.

Definition HashToken (raw : string) : string := hex_encode (sha256_Sum256 raw).

(** [bcrypt.DefaultCost] *)
Definition DefaultCost : Z := 10.

Definition HashPassword (raw : string) : result string := bcrypt_Generate raw DefaultCost.

Definition Compare (hash raw : string) : option error := bcrypt_Compare hash raw.
End auth.
End auth.
Export auth.
