(* ===== verification/repository.v ===== *)
(** * Package repository

    The [Store] interface of [internal/repository/repository.go] as a type of
    method calls, programs that call it, and the contract its implementations
    owe their clients.

    Every method runs under the store's own synchronisation (a mutex, a SQL statement
    or transaction; for the one exception see [postgres.ListShipments]), so a method
    call is one atomic step; what a caller does is a
    tree of such calls ([prog]).  [run] executes a tree alone; the interleaving of
    several trees is in [interleave.v]. *)

From S2P Require Import Prelude.
From S2P Require Import golang.
From S2P Require Import domain.

(** ** The interface *)

(** [storeop X]: a call of a method that returns an [X].  [ListShipments] and
    [Claim] also carry the order in which the implementation meets its records,
    which the interface leaves open. *)
Inductive storeop : Type -> Type :=
  | GetUserByEmail (email : string) : storeop (result User)
  | GetUser (id : string) : storeop (result User)
  | CreateUser (u : User) : storeop (result unit)
  | DeactivateUser (id : string) (at_ : Time) : storeop (result unit)
  | CreateSession (v : Session) : storeop (result unit)
  | GetSession (token : string) : storeop (result Session)
  | RevokeSession (token : string) (at_ : Time) : storeop (result unit)
  | RevokeUserSessions (user : string) (at_ : Time) : storeop (result unit)
  | CreateShipment (v : Shipment) : storeop (result unit)
  | GetShipment (tenant id : string) : storeop (result Shipment)
  | UpdateShipment (v : Shipment) (version : Z) : storeop (result unit)
  | ListShipments (order : list string) (tenant : string) (req : PageRequest)
      : storeop (result (Page Shipment))
  | FindByIdempotency (tenant key : string) : storeop (result Shipment)
  | CreateLeg (v : FlightLeg) : storeop (result unit)
  | GetLeg (tenant id : string) : storeop (result FlightLeg)
  | ReserveCapacity (tenant id : string) (weight version : Z) : storeop (result unit)
  | UpdateLegStatus (tenant id : string) (status : LegStatus) (version : Z)
      : storeop (result unit)
  | BookShipment (tenant shipmentID legID : string) (shipmentVersion legVersion : Z)
      (at_ : Time) : storeop (result Shipment)
  | GetCustoms (id : string) : storeop (result CustomsCase)
  | PutCustoms (v : CustomsCase) : storeop (result unit)
  | GetSecurity (id : string) : storeop (result SecurityCheck)
  | PutSecurity (v : SecurityCheck) : storeop (result unit)
  | AppendAudit (v : AuditEvent) : storeop (result unit)
  | ListAudit (tenant : string) (req : PageRequest) : storeop (result (Page AuditEvent))
  | Enqueue (v : OutboxEvent) : storeop (result unit)
  | Claim (order : list string) (now : Time) (n : Z) : storeop (result (list OutboxEvent))
  | MarkPublished (id : string) (at_ : Time) : storeop (result unit)
  | MarkFailed (id : string) (at_ : Time) (err : string) : storeop (result unit)
  | Summary (tenant : string) : storeop (result (Z * Z))
  | Ping : storeop (result unit).

(** An implementation: how each call changes its state and what it returns. *)
Class Store (state : Type) := exec : forall {X}, storeop X -> state -> state * X.

(** The methods that only read. *)
Definition read_only {X} (op : storeop X) : bool :=
  match op with
  | GetUserByEmail _ | GetUser _ | GetSession _ | GetShipment _ _ | ListShipments _ _ _
  | FindByIdempotency _ _ | GetLeg _ _ | GetCustoms _ | GetSecurity _ | ListAudit _ _
  | Summary _ | Ping => true
  | _ => false
  end.

(** The error in what a method returned. *)
Definition result_error {A} (r : result A) : option error :=
  match r with Ok _ => None | Err e => Some e end.

Definition op_error {X} (op : storeop X) : X -> option error :=
  match op in storeop X return X -> option error with
  | GetUserByEmail _ | GetUser _ => result_error
  | CreateUser _ | DeactivateUser _ _ | CreateSession _ => result_error
  | GetSession _ => result_error
  | RevokeSession _ _ | RevokeUserSessions _ _ | CreateShipment _ => result_error
  | GetShipment _ _ => result_error
  | UpdateShipment _ _ => result_error
  | ListShipments _ _ _ => result_error
  | FindByIdempotency _ _ => result_error
  | CreateLeg _ => result_error
  | GetLeg _ _ => result_error
  | ReserveCapacity _ _ _ _ | UpdateLegStatus _ _ _ _ => result_error
  | BookShipment _ _ _ _ _ _ => result_error
  | GetCustoms _ => result_error
  | PutCustoms _ => result_error
  | GetSecurity _ => result_error
  | PutSecurity _ | AppendAudit _ => result_error
  | ListAudit _ _ => result_error
  | Enqueue _ => result_error
  | Claim _ _ _ => result_error
  | MarkPublished _ _ | MarkFailed _ _ _ => result_error
  | Summary _ => result_error
  | Ping => result_error
  end.

(** ** Programs over the interface *)

Inductive prog (A : Type) : Type :=
  | Ret (v : A)
  | Call {X : Type} (op : storeop X) (k : X -> prog A).
Arguments Ret {A} v.
Arguments Call {A X} op k.

Fixpoint prog_bind {A B} (m : prog A) (f : A -> prog B) : prog B :=
  match m with
  | Ret v => f v
  | Call op k => Call op (fun x => prog_bind (k x) f)
  end.

(** [x <- op ;; p] calls a method of the store; [x <~ m ;; p] runs a function. *)
Notation "x <- op ;; p" := (Call op (fun x => p))
  (at level 100, op at next level, right associativity) : go_scope.
Notation "x <~ m ;; p" := (prog_bind m (fun x => p))
  (at level 100, m at next level, right associativity) : go_scope.

(** The program run alone, from a state to a state and the result. *)
Fixpoint run {state} `{Store state} {A} (p : prog A) (s : state) : state * A :=
  match p with
  | Ret v => (s, v)
  | Call op k => let '(s', x) := exec op s in run (k x) s'
  end.

Lemma run_bind {state} `{Store state} {A B} (m : prog A) (f : A -> prog B) s :
  run (prog_bind m f) s = let '(s', x) := run m s in run (f x) s'.
Proof.
  revert s. induction m as [v|X op k IH]; intros s; simpl; [done|].
  destruct (exec op s) as [s' x]. apply IH.
Qed.

(** A program that makes at most one change, and then has no error to report:
    every call before a successful write only reads. *)
Fixpoint all_or_nothing (p : prog (option error)) : Prop :=
  match p with
  | Ret _ => True
  | Call op k =>
      if read_only op then forall x, all_or_nothing (k x) else
      forall x, match op_error op x with
                | Some _ => all_or_nothing (k x)
                | None => k x = Ret None
                end
  end.

(** ** The contract *)

(** What the clients may know of a store: its tables. *)
Record tables := mkTables {
  tb_users : gmap string User;
  tb_sessions : gmap string Session;
  tb_shipments : gmap string Shipment;
  tb_legs : gmap string FlightLeg;
  tb_customs : gmap string CustomsCase;
  tb_security : gmap string SecurityCheck }.

Definition set_users m t :=
  let 'mkTables _ b c d e f := t in mkTables m b c d e f.
Definition set_sessions m t :=
  let 'mkTables a _ c d e f := t in mkTables a m c d e f.
Definition set_shipments m t :=
  let 'mkTables a b _ d e f := t in mkTables a b m d e f.
Definition set_legs m t :=
  let 'mkTables a b c _ e f := t in mkTables a b c m e f.
Definition set_customs m t :=
  let 'mkTables a b c d _ f := t in mkTables a b c d m f.
Definition set_security m t :=
  let 'mkTables a b c d e _ := t in mkTables a b c d e m.

Definition deactivated (at_ : Time) (u : User) : User :=
  let 'mkUser a b c d e _ g _ := u in mkUser a b c d e false g (Some at_).

(** A record whose instants are others: a store may keep them less precisely than
    they were given, or not at all when they are absent from a new record. *)
Definition retimed_user (c : Time) (d : option Time) (u : User) : User :=
  let 'mkUser a b e f g h _ _ := u in mkUser a b e f g h c d.
Definition retimed_session (x : Time) (r : option Time) (c : Time) (v : Session) : Session :=
  let 'mkSession a b h _ _ _ := v in mkSession a b h x r c.
Definition retimed_shipment (c u : Time) (s : Shipment) : Shipment :=
  let 'mkShipment a b d e f g h i j k l _ _ := s in mkShipment a b d e f g h i j k l c u.
Definition retimed_leg (d a c : Time) (l : FlightLeg) : FlightLeg :=
  let 'mkFlightLeg i t n o e _ _ k r s v _ := l in mkFlightLeg i t n o e d a k r s v c.

(** A shipment with another idempotency key. *)
Definition rekeyed (key : string) (s : Shipment) : Shipment :=
  let 'mkShipment a b c d e f g h i _ k l m := s in mkShipment a b c d e f g h i key k l m.

(** The sessions that satisfy [sel] are revoked, the others are as before. *)
Definition revokes (sel : Session -> Prop) (m m' : gmap string Session) : Prop :=
  forall h, match m !! h with
  | None => m' !! h = None
  | Some v => exists v', m' !! h = Some v' /\ (~ sel v -> v' = v) /\
      (sel v -> ses_RevokedAt v' <> None /\ v' = set_ses_RevokedAt (ses_RevokedAt v') v)
  end.

(** A shipment bound to its leg by a booking. *)
Definition booked_on (legID : string) (at_ : Time) (s : Shipment) : Shipment :=
  set_sh_Version (add64 (sh_Version s) 1)
    (set_sh_UpdatedAt at_ (set_sh_LegID (Some legID) (set_sh_Status ShipmentBooked s))).

(** A leg with [w] more kilograms reserved. *)
Definition reserved_on (w : Z) (l : FlightLeg) : FlightLeg :=
  set_leg_Version (add64 (leg_Version l) 1)
    (set_leg_ReservedKg (add64 (leg_ReservedKg l) w) l).

(** A call that only reads, and returns what [P] allows. *)
Definition reads {A} (P : tables -> A -> Prop) (t : tables) (r : result A) (t' : tables) : Prop :=
  t' = t /\ forall v, r = Ok v -> P t v.

(** A call that makes the change [Q] when it succeeds.  When it fails it changes
    nothing, if the errors of the store are [sure]; otherwise the change may have been
    made although an error is reported, as when an acknowledgement is lost. *)
Definition writes {A} (sure : bool) (Q : tables -> A -> tables -> Prop) (t : tables)
    (r : result A) (t' : tables) : Prop :=
  match r with
  | Ok v => Q t v t'
  | Err _ => if sure then t' = t else t' = t \/ exists v, Q t v t'
  end.

(** A call outside the tables of the contract. *)
Definition elsewhere {A} (t : tables) (_ : A) (t' : tables) : Prop := t' = t.

(** From tables [t] the call may return [r] and leave [t'].  This is what the service
    relies on, not all that an implementation does. *)
Definition contract (sure : bool) {X} (op : storeop X) : tables -> X -> tables -> Prop :=
  match op in storeop X return tables -> X -> tables -> Prop with
  | GetUserByEmail _ => reads (fun t u => tb_users t !! u_ID u = Some u)
  | GetUser id => reads (fun t u => tb_users t !! id = Some u)
  | CreateUser u => writes sure (fun t _ t' => exists c d,
      t' = set_users (<[u_ID u := retimed_user c d u]> (tb_users t)) t)
  | DeactivateUser id _ => writes sure (fun t _ t' => exists u m at_,
      tb_users t !! id = Some u /\ revokes (fun v => ses_UserID v = id) (tb_sessions t) m /\
      t' = set_sessions m (set_users (<[id := deactivated at_ u]> (tb_users t)) t))
  | CreateSession v => writes sure (fun t _ t' => exists x r c,
      t' = set_sessions (<[ses_TokenHash v := retimed_session x r c v]> (tb_sessions t)) t)
  | GetSession _ => reads (fun t v => tb_sessions t !! ses_TokenHash v = Some v)
  | RevokeSession _ _ => writes sure (fun t _ t' => exists h m,
      revokes (fun v => ses_TokenHash v = h) (tb_sessions t) m /\ t' = set_sessions m t)
  | RevokeUserSessions user _ => writes sure (fun t _ t' => exists m,
      revokes (fun v => ses_UserID v = user) (tb_sessions t) m /\ t' = set_sessions m t)
  | CreateShipment v => writes sure (fun t _ t' =>
      (t' = t /\ is_Some (tb_shipments t !! sh_ID v)) \/
      (tb_shipments t !! sh_ID v = None /\ exists c u,
       t' = set_shipments (<[sh_ID v := retimed_shipment c u v]> (tb_shipments t)) t))
  | GetShipment tenant id => reads (fun t v =>
      tb_shipments t !! id = Some v /\ sh_TenantID v = tenant)
  | UpdateShipment v version => writes sure (fun t _ t' => exists old key c u,
      tb_shipments t !! sh_ID v = Some old /\ sh_Version old = version /\
      (key = sh_IdempotencyKey v \/ key = sh_IdempotencyKey old) /\
      t' = set_shipments
             (<[sh_ID v := set_sh_Version (add64 version 1)
                  (rekeyed key (retimed_shipment c u v))]> (tb_shipments t)) t)
  | ListShipments _ tenant _ => reads (fun t p =>
      forall v, v ∈ pg_Items p -> tb_shipments t !! sh_ID v = Some v /\ sh_TenantID v = tenant)
  | FindByIdempotency _ _ => reads (fun _ _ => True)
  | CreateLeg v => writes sure (fun t _ t' =>
      tb_legs t !! leg_ID v = None /\ exists d a c,
      t' = set_legs (<[leg_ID v := retimed_leg d a c v]> (tb_legs t)) t)
  | GetLeg tenant id => reads (fun t l => tb_legs t !! id = Some l /\ leg_TenantID l = tenant)
  | ReserveCapacity tenant id weight version => writes sure (fun t _ t' => exists l,
      tb_legs t !! id = Some l /\ leg_TenantID l = tenant /\ leg_Version l = version /\
      add64 (leg_ReservedKg l) weight <= leg_CapacityKg l /\
      t' = set_legs (<[id := reserved_on weight l]> (tb_legs t)) t)
  | UpdateLegStatus tenant id status version => writes sure (fun t _ t' => exists l,
      tb_legs t !! id = Some l /\ leg_TenantID l = tenant /\ leg_Version l = version /\
      t' = set_legs (<[id := set_leg_Version (add64 version 1) (set_leg_Status status l)]>
             (tb_legs t)) t)
  | BookShipment tenant shipmentID legID shipmentVersion legVersion at_ =>
      writes sure (fun t v t' => exists s l u,
        tb_shipments t !! shipmentID = Some s /\ tb_legs t !! legID = Some l /\
        sh_TenantID s = tenant /\ leg_TenantID l = tenant /\
        sh_Version s = shipmentVersion /\ leg_Version l = legVersion /\
        Shipment_CanTransition (sh_Status s) ShipmentBooked = true /\
        leg_Status l = LegOpen /\ sh_Origin s = leg_Origin l /\
        sh_Destination s = leg_Destination l /\ ValidateCapacity l (sh_WeightKg s) = None /\
        v = booked_on legID at_ s /\
        t' = set_shipments (<[shipmentID := booked_on legID u s]> (tb_shipments t))
               (set_legs (<[legID := reserved_on (sh_WeightKg s) l]> (tb_legs t)) t))
  | GetCustoms id => reads (fun t c => tb_customs t !! id = Some c)
  | PutCustoms v => writes sure (fun t _ t' => exists m, t' = set_customs m t)
  | GetSecurity id => reads (fun t c => tb_security t !! id = Some c)
  | PutSecurity v => writes sure (fun t _ t' => exists m, t' = set_security m t)
  | AppendAudit _ | ListAudit _ _ | Enqueue _ | Claim _ _ _ | MarkPublished _ _
  | MarkFailed _ _ _ | Summary _ | Ping => elsewhere
  end.

(** The contract of a store whose errors are sure, and the one that the service can do
    with: an error may hide a change, but then the whole one. *)
Definition store_post {X} (op : storeop X) : tables -> X -> tables -> Prop := contract true op.
Definition store_may {X} (op : storeop X) : tables -> X -> tables -> Prop := contract false op.

Lemma store_post_may {X} (op : storeop X) t r t' : store_post op t r t' -> store_may op t r t'.
Proof. destruct op; try done; destruct r; try done; by left. Qed.

(** An error instead of the answer of a call that was made. *)
Lemma store_may_lost {X} (op : storeop X) t r r' t' :
  op_error op r <> None -> op_error op r' = None -> store_post op t r' t' -> store_may op t r t'.
Proof.
  destruct op, r as [?|e]; try done; destruct r' as [x|e']; try done; intros _ _ Hpost;
    try exact Hpost; try (right; by exists x); destruct Hpost as [-> _]; by split.
Qed.

(** A store that keeps the contract, as long as its own invariant holds. *)
Class LawfulStore (state : Type) `{Store state} := {
  view : state -> tables;
  store_inv : state -> Prop;
  exec_inv : forall X (op : storeop X) s s' x,
    store_inv s -> exec op s = (s', x) -> store_inv s';
  exec_post : forall X (op : storeop X) s s' x,
    store_inv s -> exec op s = (s', x) -> store_may op (view s) x (view s') }.
