(* ===== verification/memory.v ===== *)
(** * Package repository/memory

    The in-memory [Store] of [internal/repository/memory/store.go]: its maps and
    every method, and the proof that it keeps the contract of [repository.v].

    Each method holds the store's mutex from its first line to its return, so it
    is a function from the state before to the state after and the results.  The
    records hold no mutable parts that outlive a call ([cloneUser] copies the one
    slice), so they are values. *)

From S2P Require Import Prelude.
From S2P Require Import golang.
From S2P Require Import domain.
From S2P Require Import external.
From S2P Require Import repository.

Open Scope string_scope.
Open Scope list_scope.
Open Scope Z_scope.

Record Store := mkStore {
  users : gmap string User;
  byEmail : gmap string string;
  sessions : gmap string Session;
  shipments : gmap string Shipment;
  idem : gmap string string;
  legs : gmap string FlightLeg;
  customs : gmap string CustomsCase;
  security : gmap string SecurityCheck;
  audit : list AuditEvent;
  outbox : gmap string OutboxEvent }.

Definition New : Store := mkStore ∅ ∅ ∅ ∅ ∅ ∅ ∅ ∅ [] ∅.

(** Assignments to the maps. *)
Definition with_users m s :=
  let 'mkStore _ b c d e f g h i j := s in mkStore m b c d e f g h i j.
Definition with_byEmail m s :=
  let 'mkStore a _ c d e f g h i j := s in mkStore a m c d e f g h i j.
Definition with_sessions m s :=
  let 'mkStore a b _ d e f g h i j := s in mkStore a b m d e f g h i j.
Definition with_shipments m s :=
  let 'mkStore a b c _ e f g h i j := s in mkStore a b c m e f g h i j.
Definition with_idem m s :=
  let 'mkStore a b c d _ f g h i j := s in mkStore a b c d m f g h i j.
Definition with_legs m s :=
  let 'mkStore a b c d e _ g h i j := s in mkStore a b c d e m g h i j.
Definition with_customs m s :=
  let 'mkStore a b c d e f _ h i j := s in mkStore a b c d e f m h i j.
Definition with_security m s :=
  let 'mkStore a b c d e f g _ i j := s in mkStore a b c d e f g m i j.
Definition with_audit l s :=
  let 'mkStore a b c d e f g h _ j := s in mkStore a b c d e f g h l j.
Definition with_outbox m s :=
  let 'mkStore a b c d e f g h i _ := s in mkStore a b c d e f g h i m.

Section methods.
Context `{External}.

Definition tokenHash (v : string) : string := hex_encode (sha256_Sum256 v).

Definition cloneUser (v : User) : User :=
  let 'mkUser a b c hash e f g h := v in mkUser a b c ("" +:+ hash) e f g h.

Definition GetUserByEmail (email : string) (s : Store) : Store * result User :=
  match byEmail s !! email with
  | None => (s, Err ErrNotFound)
  | Some id => (s, Ok (cloneUser (default zero_User (users s !! id))))
  end.

Definition GetUser (id : string) (s : Store) : Store * result User :=
  match users s !! id with
  | None => (s, Err ErrNotFound)
  | Some u => (s, Ok (cloneUser u))
  end.

Definition CreateUser (u : User) (s : Store) : Store * result unit :=
  match byEmail s !! u_Email u with
  | Some _ => (s, Err ErrConflict)
  | None =>
      let s := with_users (<[u_ID u := cloneUser u]> (users s)) s in
      let s := with_byEmail (<[u_Email u := u_ID u]> (byEmail s)) s in
      (s, Ok tt)
  end.

(** The loop over [s.sessions] that revokes the sessions of a user. *)
Definition revoke_sessions (user : string) (at_ : Time) (m : gmap string Session)
    : gmap string Session :=
  map_fold (fun key session acc =>
    if decide (ses_UserID session = user)
    then <[key := set_ses_RevokedAt (Some at_) session]> acc else acc) m m.

Definition DeactivateUser (id : string) (at_ : Time) (s : Store) : Store * result unit :=
  match users s !! id with
  | None => (s, Err ErrNotFound)
  | Some u =>
      let s := with_users (<[id := deactivated at_ u]> (users s)) s in
      let s := with_sessions (revoke_sessions id at_ (sessions s)) s in
      (s, Ok tt)
  end.

Definition CreateSession (v : Session) (s : Store) : Store * result unit :=
  (with_sessions (<[ses_TokenHash v := v]> (sessions s)) s, Ok tt).

Definition GetSession (token : string) (s : Store) : Store * result Session :=
  match sessions s !! tokenHash token with
  | None => (s, Err ErrNotFound)
  | Some v => (s, Ok v)
  end.

Definition RevokeSession (token : string) (at_ : Time) (s : Store) : Store * result unit :=
  let key := tokenHash token in
  match sessions s !! key with
  | None => (s, Err ErrNotFound)
  | Some v => (with_sessions (<[key := set_ses_RevokedAt (Some at_) v]> (sessions s)) s, Ok tt)
  end.

Definition RevokeUserSessions (user : string) (at_ : Time) (s : Store) : Store * result unit :=
  (with_sessions (revoke_sessions user at_ (sessions s)) s, Ok tt).

(** The key of the idempotency index. *)
Definition idem_key (tenant key : string) : string := tenant +:+ "|" +:+ key.

Definition CreateShipment (v : Shipment) (s : Store) : Store * result unit :=
  let key := idem_key (sh_TenantID v) (sh_IdempotencyKey v) in
  let insert_new :=
    match shipments s !! sh_ID v with
    | Some _ => (s, Err ErrConflict)
    | None =>
        let s := with_shipments (<[sh_ID v := v]> (shipments s)) s in
        if decide (sh_IdempotencyKey v <> "")
        then (with_idem (<[key := sh_ID v]> (idem s)) s, Ok tt)
        else (s, Ok tt)
    end in
  if decide (sh_IdempotencyKey v <> "") then
    match idem s !! key with
    | Some old => if decide (old = sh_ID v) then (s, Ok tt) else (s, Err ErrConflict)
    | None => insert_new
    end
  else insert_new.

Definition GetShipment (tenant id : string) (s : Store) : Store * result Shipment :=
  match shipments s !! id with
  | None => (s, Err ErrNotFound)
  | Some v => if decide (sh_TenantID v <> tenant) then (s, Err ErrNotFound) else (s, Ok v)
  end.

Definition UpdateShipment (v : Shipment) (version : Z) (s : Store) : Store * result unit :=
  match shipments s !! sh_ID v with
  | None => (s, Err ErrNotFound)
  | Some old =>
      if decide (sh_Version old <> version) then (s, Err ErrConflict) else
      let v := set_sh_Version (add64 version 1) v in
      (with_shipments (<[sh_ID v := v]> (shipments s)) s, Ok tt)
  end.

(** [sort.Slice] may leave shipments of one instant in any order: so does a stable
    sort of an arbitrary iteration order. *)
Definition ListShipments (order : list string) (tenant : string) (req : PageRequest)
    (s : Store) : Store * result (Page Shipment) :=
  let req := Normalized req in
  let all := filter (fun v => sh_TenantID v = tenant) (range_values (shipments s) order) in
  let all := SliceStable (less_on sh_CreatedAt) all in
  let total := Z.of_nat (length all) in
  let all := if decide (Z.of_nat (length all) > pr_Limit req)
             then take (Z.to_nat (pr_Limit req)) all else all in
  (s, Ok (mkPage all "" total)).

Definition FindByIdempotency (tenant key : string) (s : Store) : Store * result Shipment :=
  match idem s !! idem_key tenant key with
  | None => (s, Err ErrNotFound)
  | Some id => (s, Ok (default zero_Shipment (shipments s !! id)))
  end.

Definition CreateLeg (v : FlightLeg) (s : Store) : Store * result unit :=
  match legs s !! leg_ID v with
  | Some _ => (s, Err ErrConflict)
  | None => (with_legs (<[leg_ID v := v]> (legs s)) s, Ok tt)
  end.

Definition GetLeg (tenant id : string) (s : Store) : Store * result FlightLeg :=
  match legs s !! id with
  | None => (s, Err ErrNotFound)
  | Some v => if decide (leg_TenantID v <> tenant) then (s, Err ErrNotFound) else (s, Ok v)
  end.

Definition ReserveCapacity (tenant id : string) (weight version : Z) (s : Store)
    : Store * result unit :=
  match legs s !! id with
  | None => (s, Err ErrNotFound)
  | Some v =>
      if decide (leg_TenantID v <> tenant) then (s, Err ErrNotFound) else
      if decide (leg_Version v <> version) then (s, Err ErrConflict) else
      match ValidateCapacity v weight with
      | Some err => (s, Err err)
      | None => (with_legs (<[id := reserved_on weight v]> (legs s)) s, Ok tt)
      end
  end.

Definition UpdateLegStatus (tenant id : string) (status : LegStatus) (version : Z) (s : Store)
    : Store * result unit :=
  match legs s !! id with
  | None => (s, Err ErrNotFound)
  | Some v =>
      if decide (leg_TenantID v <> tenant) then (s, Err ErrNotFound) else
      if decide (leg_Version v <> version) then (s, Err ErrConflict) else
      if negb (Leg_CanTransition (leg_Status v) status) then (s, Err ErrState) else
      let v := set_leg_Status status v in
      let v := set_leg_Version (add64 (leg_Version v) 1) v in
      (with_legs (<[id := v]> (legs s)) s, Ok tt)
  end.

Definition BookShipment (tenant shipmentID legID : string) (shipmentVersion legVersion : Z)
    (at_ : Time) (s : Store) : Store * result Shipment :=
  match shipments s !! shipmentID with
  | None => (s, Err ErrNotFound)
  | Some shipment =>
      if decide (sh_TenantID shipment <> tenant) then (s, Err ErrNotFound) else
      match legs s !! legID with
      | None => (s, Err ErrNotFound)
      | Some leg =>
          if decide (leg_TenantID leg <> tenant) then (s, Err ErrNotFound) else
          if decide (sh_Version shipment <> shipmentVersion \/ leg_Version leg <> legVersion)
          then (s, Err ErrConflict) else
          if negb (Shipment_CanTransition (sh_Status shipment) ShipmentBooked)
             || bool_decide (leg_Status leg <> LegOpen)
          then (s, Err ErrState) else
          if decide (sh_Origin shipment <> leg_Origin leg
                     \/ sh_Destination shipment <> leg_Destination leg)
          then (s, Err ErrInvalid) else
          match ValidateCapacity leg (sh_WeightKg shipment) with
          | Some err => (s, Err err)
          | None =>
              let leg := reserved_on (sh_WeightKg shipment) leg in
              let shipment := booked_on legID at_ shipment in
              let s := with_legs (<[legID := leg]> (legs s)) s in
              let s := with_shipments (<[shipmentID := shipment]> (shipments s)) s in
              (s, Ok shipment)
          end
      end
  end.

Definition GetCustoms (id : string) (s : Store) : Store * result CustomsCase :=
  match customs s !! id with
  | None => (s, Err ErrNotFound)
  | Some v => (s, Ok v)
  end.

Definition PutCustoms (v : CustomsCase) (s : Store) : Store * result unit :=
  (with_customs (<[cc_ID v := v]> (customs s)) s, Ok tt).

Definition GetSecurity (id : string) (s : Store) : Store * result SecurityCheck :=
  match security s !! id with
  | None => (s, Err ErrNotFound)
  | Some v => (s, Ok v)
  end.

Definition PutSecurity (v : SecurityCheck) (s : Store) : Store * result unit :=
  (with_security (<[sc_ID v := v]> (security s)) s, Ok tt).

Definition AppendAudit (v : AuditEvent) (s : Store) : Store * result unit :=
  (with_audit (audit s ++ [v]) s, Ok tt).

Definition ListAudit (tenant : string) (req : PageRequest) (s : Store)
    : Store * result (Page AuditEvent) :=
  let out := filter (fun v => ae_TenantID v = tenant) (audit s) in
  (s, Ok (mkPage out "" (Z.of_nat (length out)))).

Definition Enqueue (v : OutboxEvent) (s : Store) : Store * result unit :=
  (with_outbox (<[ob_ID v := v]> (outbox s)) s, Ok tt).

(** An event the claim may take at [now]. *)
Definition claimable (now : Time) (v : OutboxEvent) : Prop :=
  ob_PublishedAt v = None /\ ob_ClaimedAt v = None /\ ~ now < ob_AvailableAt v.

#[global] Instance claimable_dec now v : Decision (claimable now v).
Proof. unfold claimable. apply _. Defined.

Definition claimed (now : Time) (v : OutboxEvent) : OutboxEvent :=
  let 'mkOutboxEvent a b c d e n g _ i j := v in
  mkOutboxEvent a b c d e (add64 n 1) g (Some now) i j.

(** One round of the loop over [s.outbox]. *)
Definition claim_round (now : Time) (n : Z) (acc : gmap string OutboxEvent * list OutboxEvent)
    (id : string) : gmap string OutboxEvent * list OutboxEvent :=
  let '(m, out) := acc in
  match m !! id with
  | None => acc
  | Some v =>
      if decide (claimable now v /\ Z.of_nat (length out) < n)
      then (<[id := claimed now v]> m, out ++ [claimed now v])
      else acc
  end.

Definition Claim (order : list string) (now : Time) (n : Z) (s : Store)
    : Store * result (list OutboxEvent) :=
  let '(m, out) := foldl (claim_round now n) (outbox s, []) order in
  (with_outbox m s, Ok out).

(** The assignments of the two marks. *)
Definition published (at_ : Time) (v : OutboxEvent) : OutboxEvent :=
  let 'mkOutboxEvent a b c d e f g h _ j := v in mkOutboxEvent a b c d e f g h (Some at_) j.

Definition failed (at_ : Time) (err : string) (v : OutboxEvent) : OutboxEvent :=
  let 'mkOutboxEvent a b c d e attempts _ _ i _ := v in
  mkOutboxEvent a b c d e attempts (time_Add at_ (mul64 attempts Minute)) None i err.

Definition MarkPublished (id : string) (at_ : Time) (s : Store) : Store * result unit :=
  match outbox s !! id with
  | None => (s, Err ErrNotFound)
  | Some v => (with_outbox (<[id := published at_ v]> (outbox s)) s, Ok tt)
  end.

Definition MarkFailed (id : string) (at_ : Time) (err : string) (s : Store)
    : Store * result unit :=
  match outbox s !! id with
  | None => (s, Err ErrNotFound)
  | Some v => (with_outbox (<[id := failed at_ err v]> (outbox s)) s, Ok tt)
  end.

Definition Summary (tenant : string) (s : Store) : Store * result (Z * Z) :=
  let '(pending, failed) :=
    map_fold (fun _ v '(pending, failed) =>
      if decide (ob_TenantID v = tenant /\ ob_PublishedAt v = None)
      then (pending + 1, if decide (ob_Attempts v >= 5) then failed + 1 else failed)
      else (pending, failed)) (0, 0) (outbox s) in
  (s, Ok (pending, failed)).

Definition Ping (s : Store) : Store * result unit := (s, Ok tt).

(** [*Store] as the interface sees it. *)
#[global] Instance memory_store : repository.Store Store := fun X op =>
  match op in storeop X return Store -> Store * X with
  | repository.GetUserByEmail email => GetUserByEmail email
  | repository.GetUser id => GetUser id
  | repository.CreateUser u => CreateUser u
  | repository.DeactivateUser id at_ => DeactivateUser id at_
  | repository.CreateSession v => CreateSession v
  | repository.GetSession token => GetSession token
  | repository.RevokeSession token at_ => RevokeSession token at_
  | repository.RevokeUserSessions user at_ => RevokeUserSessions user at_
  | repository.CreateShipment v => CreateShipment v
  | repository.GetShipment tenant id => GetShipment tenant id
  | repository.UpdateShipment v version => UpdateShipment v version
  | repository.ListShipments order tenant req => ListShipments order tenant req
  | repository.FindByIdempotency tenant key => FindByIdempotency tenant key
  | repository.CreateLeg v => CreateLeg v
  | repository.GetLeg tenant id => GetLeg tenant id
  | repository.ReserveCapacity tenant id weight version => ReserveCapacity tenant id weight version
  | repository.UpdateLegStatus tenant id status version => UpdateLegStatus tenant id status version
  | repository.BookShipment tenant shipmentID legID sv lv at_ =>
      BookShipment tenant shipmentID legID sv lv at_
  | repository.GetCustoms id => GetCustoms id
  | repository.PutCustoms v => PutCustoms v
  | repository.GetSecurity id => GetSecurity id
  | repository.PutSecurity v => PutSecurity v
  | repository.AppendAudit v => AppendAudit v
  | repository.ListAudit tenant req => ListAudit tenant req
  | repository.Enqueue v => Enqueue v
  | repository.Claim order now n => Claim order now n
  | repository.MarkPublished id at_ => MarkPublished id at_
  | repository.MarkFailed id at_ err => MarkFailed id at_ err
  | repository.Summary tenant => Summary tenant
  | repository.Ping => Ping
  end.

End methods.

Lemma cloneUser_id u : cloneUser u = u.
Proof. by destruct u. Qed.

(** Unfolds the method that a call runs. *)
Ltac unfold_method H :=
  unfold exec, memory_store in H; simpl in H;
  unfold GetUserByEmail, GetUser, CreateUser, DeactivateUser, CreateSession, GetSession,
    RevokeSession, RevokeUserSessions, CreateShipment, GetShipment, UpdateShipment,
    ListShipments, FindByIdempotency, CreateLeg, GetLeg, ReserveCapacity, UpdateLegStatus,
    BookShipment, GetCustoms, PutCustoms, GetSecurity, PutSecurity, AppendAudit, ListAudit,
    Enqueue, MarkPublished, MarkFailed, Ping in H;
  rewrite ?cloneUser_id in H; cbv zeta in H; simpl in H.

Section methods_facts.
Context `{External}.

(** ** Failures *)

Lemma Claim_eq order now n s :
  let r := foldl (claim_round now n) (outbox s, []) order in
  Claim order now n s = (with_outbox r.1 s, Ok r.2).
Proof. unfold Claim. by destruct (foldl _ _ _). Qed.

Lemma Summary_reads tenant s : exists r, Summary tenant s = (s, Ok r).
Proof. unfold Summary. destruct (map_fold _ _ _) as [p f]. eauto. Qed.

(** A method that returns an error has changed nothing. *)
Lemma exec_failed X (op : storeop X) s s' x e :
  exec op s = (s', x) -> op_error op x = Some e -> s' = s.
Proof.
  intros Hop. destruct op; unfold_method Hop; split_cases; try done.
  - rewrite Claim_eq in Hop. by simplify_eq.
  - destruct (Summary_reads tenant s) as [r Hr]. rewrite Hr in Hop. by simplify_eq.
Qed.

(** So has a method that only reads. *)
Lemma exec_read_only X (op : storeop X) s s' x :
  exec op s = (s', x) -> read_only op = true -> s' = s.
Proof.
  intros Hop. destruct op; unfold_method Hop; split_cases; try done.
  destruct (Summary_reads tenant s) as [r Hr]. rewrite Hr in Hop. by simplify_eq.
Qed.
End methods_facts.

(** ** Invariant and contract *)

(** Records are filed under their own identifiers, and the indexes point to
    existing records. *)
Record wf (s : Store) : Prop := {
  wf_users : keyed u_ID (users s);
  wf_byEmail : points_to (byEmail s) (users s);
  wf_sessions : keyed ses_TokenHash (sessions s);
  wf_shipments : keyed sh_ID (shipments s);
  wf_idem : points_to (idem s) (shipments s);
  wf_legs : keyed leg_ID (legs s);
  wf_outbox : keyed ob_ID (outbox s) }.

(** What each method does, in the words of the contract. *)
Ltac method_post Hop :=
  unfold_method Hop; split_cases; simpl; unfold view, reads, writes, elsewhere; simpl;
  rewrite ?cloneUser_id; try done.

Section contract.
Context `{External}.

Lemma revoke_sessions_lookup user at_ m k :
  revoke_sessions user at_ m !! k =
  (fun v => if decide (ses_UserID v = user) then set_ses_RevokedAt (Some at_) v else v) <$> m !! k.
Proof.
  unfold revoke_sessions.
  enough (Hfold : forall acc : gmap string Session,
    map_fold (fun key session (acc : gmap string Session) =>
      if decide (ses_UserID session = user)
      then <[key := set_ses_RevokedAt (Some at_) session]> acc else acc) acc m !! k =
    match m !! k with
    | Some v => if decide (ses_UserID v = user)
                then Some (set_ses_RevokedAt (Some at_) v) else acc !! k
    | None => acc !! k
    end).
  { rewrite Hfold. destruct (m !! k) as [v|] eqn:E; simpl; [|done]. by case_decide. }
  induction m as [|j v m Hj IH] using map_ind; intros acc.
  { by rewrite map_fold_empty, lookup_empty. }
  rewrite map_fold_insert_L; [|intros|done].
  - rewrite lookup_insert. destruct (decide (j = k)) as [->|Hjk].
    + specialize (IH acc). rewrite Hj in IH. destruct (decide (ses_UserID v = user)); [|done].
      apply lookup_insert_eq.
    + destruct (decide (ses_UserID v = user)); [|done]. by rewrite lookup_insert_ne.
  - repeat case_decide; try done. by apply insert_insert_ne.
Qed.

(** What the program may know of the store. *)
Definition view (s : Store) : tables :=
  mkTables (users s) (sessions s) (shipments s) (legs s) (customs s) (security s).

(** Every event keeps its identifier through a claim. *)
Lemma claim_loop_keyed now n order m out :
  keyed ob_ID m -> keyed ob_ID (foldl (claim_round now n) (m, out) order).1.
Proof.
  revert m out. induction order as [|id order IH]; intros m out Hm; simpl; [done|].
  destruct (m !! id) as [v|] eqn:Hid; [|by apply IH].
  case_decide; [|by apply IH]. apply IH. eapply keyed_update; [done..|]. by destruct v.
Qed.

Lemma revoke_sessions_keyed user at_ m :
  keyed ses_TokenHash m -> keyed ses_TokenHash (revoke_sessions user at_ m).
Proof.
  intros Hm k v. rewrite revoke_sessions_lookup. destruct (m !! k) as [w|] eqn:Hk; [|done].
  apply Hm in Hk. simpl. intros [= <-]. case_decide; [|done]. by destruct w.
Qed.

Lemma deactivated_ID at_ u : u_ID (deactivated at_ u) = u_ID u.
Proof. by destruct u. Qed.
Lemma set_ses_RevokedAt_hash at_ v : ses_TokenHash (set_ses_RevokedAt at_ v) = ses_TokenHash v.
Proof. by destruct v. Qed.
Lemma booked_on_ID leg at_ v : sh_ID (booked_on leg at_ v) = sh_ID v.
Proof. by destruct v. Qed.
Lemma reserved_on_ID w l : leg_ID (reserved_on w l) = leg_ID l.
Proof. by destruct l. Qed.
Lemma published_ID at_ v : ob_ID (published at_ v) = ob_ID v.
Proof. by destruct v. Qed.
Lemma failed_ID at_ err v : ob_ID (failed at_ err v) = ob_ID v.
Proof. by destruct v. Qed.
Lemma set_leg_ID st n l : leg_ID (set_leg_Version n (set_leg_Status st l)) = leg_ID l.
Proof. by destruct l. Qed.

Lemma keyed_version n v m :
  keyed sh_ID m -> keyed sh_ID (<[sh_ID v := set_sh_Version n v]> m).
Proof. replace (sh_ID v) with (sh_ID (set_sh_Version n v)) by (by destruct v). apply keyed_insert. Qed.

#[local] Hint Resolve claim_loop_keyed revoke_sessions_keyed deactivated_ID
  set_ses_RevokedAt_hash booked_on_ID reserved_on_ID published_ID failed_ID set_leg_ID keyed_version : go.

Lemma exec_wf X (op : storeop X) s s' x : wf s -> exec op s = (s', x) -> wf s'.
Proof.
  intros [Hu He Hse Hsh Hi Hl Ho] Hop. destruct s; simpl in *.
  destruct op; unfold_method Hop; split_cases.
  all: try (split; simpl; eauto with go; fail).
  - rewrite Claim_eq in Hop. simplify_eq/=. split; simpl; eauto with go.
  - destruct (Summary_reads tenant (mkStore users0 byEmail0 sessions0 shipments0 idem0 legs0
      customs0 security0 audit0 outbox0)) as [r Hr].
    rewrite Hr in Hop. simplify_eq. by split.
Qed.

(** The loops that revoke sessions revoke the sessions they select. *)
Lemma revoke_sessions_revokes user at_ m :
  revokes (fun v => ses_UserID v = user) m (revoke_sessions user at_ m).
Proof.
  intros h. rewrite revoke_sessions_lookup. destruct (m !! h) as [v|]; simpl; [|done].
  eexists; split; [done|]. destruct v; case_decide; simpl in *; naive_solver.
Qed.

Lemma revoke_one_revokes m v at_ :
  keyed ses_TokenHash m -> m !! ses_TokenHash v = Some v ->
  revokes (fun w => ses_TokenHash w = ses_TokenHash v) m
    (<[ses_TokenHash v := set_ses_RevokedAt (Some at_) v]> m).
Proof.
  intros Hm Hv h. rewrite lookup_insert. destruct (m !! h) as [w|] eqn:Hh.
  - pose proof (Hm _ _ Hh) as Hw. case_decide as Heq.
    + assert (w = v) as -> by congruence.
      eexists; split; [done|]. split; [done|]. by destruct v.
    + exists w. split; [done|]. split; [done|]. intros; congruence.
  - case_decide; congruence.
Qed.

Section posts.
Context (s s' : Store) (Hs : wf s).

Lemma GetUserByEmail_post email r :
  GetUserByEmail email s = (s', r) ->
  store_post (repository.GetUserByEmail email) (view s) r (view s').
Proof.
  intros Hop. method_post Hop. split; [done|]. intros u [= <-].
  destruct (wf_byEmail _ Hs _ _ E) as [v Hv]. rewrite Hv. simpl.
  by rewrite (wf_users _ Hs _ _ Hv).
Qed.

Lemma CreateUser_post u r :
  CreateUser u s = (s', r) -> store_post (repository.CreateUser u) (view s) r (view s').
Proof.
  intros Hop. destruct s. method_post Hop.
  exists (u_CreatedAt u), (u_DeactivatedAt u). by destruct u.
Qed.

Lemma CreateSession_post v r :
  CreateSession v s = (s', r) -> store_post (repository.CreateSession v) (view s) r (view s').
Proof.
  intros Hop. destruct s. method_post Hop.
  exists (ses_ExpiresAt v), (ses_RevokedAt v), (ses_CreatedAt v). by destruct v.
Qed.

Lemma DeactivateUser_post id at_ r :
  DeactivateUser id at_ s = (s', r) ->
  store_post (repository.DeactivateUser id at_) (view s) r (view s').
Proof.
  intros Hop. destruct s; method_post Hop.
  do 3 eexists. split_and!; [eassumption|apply revoke_sessions_revokes|done].
Qed.

Lemma GetSession_post token r :
  GetSession token s = (s', r) ->
  store_post (repository.GetSession token) (view s) r (view s').
Proof.
  intros Hop. method_post Hop. split; [done|]. intros v [= <-].
  by rewrite (wf_sessions _ Hs _ _ E).
Qed.

Lemma RevokeSession_post token at_ r :
  RevokeSession token at_ s = (s', r) ->
  store_post (repository.RevokeSession token at_) (view s) r (view s').
Proof.
  intros Hop. pose proof (wf_sessions _ Hs) as Hk. destruct s; method_post Hop; simpl in *.
  rewrite <- (Hk _ _ E) in E |- *. do 2 eexists. split; [by apply revoke_one_revokes|done].
Qed.

Lemma RevokeUserSessions_post user at_ r :
  RevokeUserSessions user at_ s = (s', r) ->
  store_post (repository.RevokeUserSessions user at_) (view s) r (view s').
Proof.
  intros Hop. destruct s; method_post Hop. eexists. split; [apply revoke_sessions_revokes|done].
Qed.

Lemma CreateShipment_post v r :
  CreateShipment v s = (s', r) ->
  store_post (repository.CreateShipment v) (view s) r (view s').
Proof.
  intros Hop. pose proof (wf_idem _ Hs) as Hi.
  destruct s; method_post Hop; simpl in *; [left; eauto|right..];
    (split; [done|]); exists (sh_CreatedAt v), (sh_UpdatedAt v); by destruct v.
Qed.

Lemma GetShipment_post tenant id r :
  GetShipment tenant id s = (s', r) ->
  store_post (repository.GetShipment tenant id) (view s) r (view s').
Proof. intros Hop. method_post Hop. split; [done|]. by intros ? [= <-]. Qed.

Lemma UpdateShipment_post v version r :
  UpdateShipment v version s = (s', r) ->
  store_post (repository.UpdateShipment v version) (view s) r (view s').
Proof.
  intros Hop. destruct s; method_post Hop; simpl in *.
  eexists _, (sh_IdempotencyKey v), (sh_CreatedAt v), (sh_UpdatedAt v).
  split_and!; [done|done|by left|]. by destruct v.
Qed.

Lemma page_items_elem order tenant v :
  v ∈ SliceStable (less_on sh_CreatedAt)
        (filter (fun v => sh_TenantID v = tenant) (range_values (shipments s) order)) ->
  shipments s !! sh_ID v = Some v /\ sh_TenantID v = tenant.
Proof.
  rewrite SliceStable_perm, list_elem_of_filter. intros [Ht Hv]. split; [|done].
  apply list_elem_of_omap in Hv as (k & _ & Hk). by rewrite (wf_shipments _ Hs _ _ Hk).
Qed.

Lemma elem_of_page {A} (P : Prop) `{Decision P} n (l : list A) v :
  v ∈ (if decide P then take n l else l) -> v ∈ l.
Proof. case_decide; [|done]. intros Hv. rewrite <- (take_drop n l). set_solver. Qed.

Lemma ListShipments_post order tenant req r :
  ListShipments order tenant req s = (s', r) ->
  store_post (repository.ListShipments order tenant req) (view s) r (view s').
Proof.
  unfold ListShipments. intros [= <- <-]. split; [done|]. intros p [= <-] v Hv. simpl in *.
  apply elem_of_page in Hv. by apply page_items_elem in Hv.
Qed.

Lemma FindByIdempotency_post tenant key r :
  FindByIdempotency tenant key s = (s', r) ->
  store_post (repository.FindByIdempotency tenant key) (view s) r (view s').
Proof. intros Hop. by method_post Hop. Qed.

Lemma CreateLeg_post v r :
  CreateLeg v s = (s', r) -> store_post (repository.CreateLeg v) (view s) r (view s').
Proof.
  intros Hop. destruct s; method_post Hop; simpl in *. split; [done|].
  exists (leg_DepartureAt v), (leg_ArrivalAt v), (leg_CreatedAt v). by destruct v.
Qed.

Lemma GetLeg_post tenant id r :
  GetLeg tenant id s = (s', r) -> store_post (repository.GetLeg tenant id) (view s) r (view s').
Proof. intros Hop. method_post Hop. split; [done|]. by intros ? [= <-]. Qed.

Lemma ReserveCapacity_post tenant id weight version r :
  ReserveCapacity tenant id weight version s = (s', r) ->
  store_post (repository.ReserveCapacity tenant id weight version) (view s) r (view s').
Proof.
  intros Hop. destruct s; method_post Hop; simpl in *.
  match goal with H : ValidateCapacity _ _ = None |- _ => apply ValidateCapacity_iff in H end.
  eexists. split_and!; [done..|lia|done].
Qed.

Lemma UpdateLegStatus_post tenant id status version r :
  UpdateLegStatus tenant id status version s = (s', r) ->
  store_post (repository.UpdateLegStatus tenant id status version) (view s) r (view s').
Proof.
  intros Hop. destruct s; method_post Hop; simpl in *.
  eexists. split_and!; [done..|]. by destruct f.
Qed.

Lemma BookShipment_post tenant sid lid sv lv at_ r :
  BookShipment tenant sid lid sv lv at_ s = (s', r) ->
  store_post (repository.BookShipment tenant sid lid sv lv at_) (view s) r (view s').
Proof.
  intros Hop. destruct s; method_post Hop; simpl in *.
  eexists _, _, at_. by split_and!.
Qed.
End posts.

Lemma exec_post X (op : storeop X) s s' x :
  wf s -> exec op s = (s', x) -> store_post op (view s) x (view s').
Proof.
  intros Hs Hop. destruct op; unfold exec, memory_store in Hop; cbn beta iota in Hop.
  - by apply GetUserByEmail_post.
  - method_post Hop. split; [done|]. by intros ? [= <-].
  - by apply CreateUser_post.
  - by apply DeactivateUser_post.
  - by apply CreateSession_post.
  - by apply GetSession_post.
  - by apply RevokeSession_post.
  - by apply RevokeUserSessions_post.
  - by apply CreateShipment_post.
  - by apply GetShipment_post.
  - by apply UpdateShipment_post.
  - by apply ListShipments_post.
  - by apply FindByIdempotency_post.
  - by apply CreateLeg_post.
  - by apply GetLeg_post.
  - by apply ReserveCapacity_post.
  - by apply UpdateLegStatus_post.
  - by apply BookShipment_post.
  - method_post Hop. split; [done|]. by intros ? [= <-].
  - destruct s. method_post Hop. by eexists.
  - method_post Hop. split; [done|]. by intros ? [= <-].
  - destruct s. method_post Hop. by eexists.
  - destruct s. by method_post Hop.
  - by method_post Hop.
  - destruct s. by method_post Hop.
  - rewrite Claim_eq in Hop. destruct s. by simplify_eq/=.
  - unfold MarkPublished in Hop. destruct s. by method_post Hop.
  - unfold MarkFailed in Hop. destruct s. by method_post Hop.
  - destruct (Summary_reads tenant s) as [r Hr]. rewrite Hr in Hop. by simplify_eq.
  - by method_post Hop.
Qed.

(** The in-memory store keeps the contract of the interface. *)
#[global] Instance memory_lawful : LawfulStore Store := {|
  repository.view := view;
  store_inv := wf;
  exec_inv := exec_wf;
  repository.exec_post := fun X op s s' x Hs Hop => store_post_may op _ _ _ (exec_post X op s s' x Hs Hop) |}.

End contract.

Lemma wf_New : wf New.
Proof. split; simpl; auto with go. Qed.

(** C9. The in-memory store implements the interface: every method keeps the
    records filed under their identifiers and the indexes pointing to records, and
    changes the tables and answers as the contract of its method says. *)
Theorem memory_implements_store `{External} X (op : storeop X) (s s' : Store) x :
  wf s -> exec op s = (s', x) -> wf s' /\ store_post op (view s) x (view s').
Proof. intros Hs Hop. split; [by eapply exec_wf|by apply exec_post]. Qed.
