(* ===== verification/sql.v ===== *)
(** * The database

    The tables of [migrations/001_core.sql] and the SQL statements that
    [internal/repository/postgres] sends, with the meaning SQL gives them: which
    rows a statement reads or changes, the constraints it may violate in the order
    the server checks them, and the text of the error the driver then returns.

    A table is a map from a column that is unique to the row.  A column of type
    [timestamptz] holds whole microseconds; [bigint] arithmetic that leaves the
    range is an error.  What a server may do besides (refuse, time out, lose the
    connection) is the [faults] of [postgres.v]. *)

From S2P Require Import Prelude.
From S2P Require Import golang.
From S2P Require Import utf8.
From S2P Require Import domain.

Open Scope string_scope.
Open Scope list_scope.
Open Scope Z_scope.

(** ** Tables *)

Record DB := mkDB {
  tenants : gmap string Tenant;
  users : gmap string User;
  sessions : gmap string Session;            (** by [token_hash] *)
  flight_legs : gmap string FlightLeg;
  shipments : gmap string Shipment;
  customs_cases : gmap string CustomsCase;   (** by [shipment_id] *)
  security_checks : gmap string SecurityCheck;   (** by [shipment_id] *)
  audit_events : gmap string AuditEvent;
  outbox_events : gmap string OutboxEvent }.

Definition with_users m d :=
  let 'mkDB a _ c e f g h i j := d in mkDB a m c e f g h i j.
Definition with_sessions m d :=
  let 'mkDB a b _ e f g h i j := d in mkDB a b m e f g h i j.
Definition with_flight_legs m d :=
  let 'mkDB a b c _ f g h i j := d in mkDB a b c m f g h i j.
Definition with_shipments m d :=
  let 'mkDB a b c e _ g h i j := d in mkDB a b c e m g h i j.
Definition with_customs_cases m d :=
  let 'mkDB a b c e f _ h i j := d in mkDB a b c e f m h i j.
Definition with_security_checks m d :=
  let 'mkDB a b c e f g _ i j := d in mkDB a b c e f g m i j.
Definition with_audit_events m d :=
  let 'mkDB a b c e f g h _ j := d in mkDB a b c e f g h m j.
Definition with_outbox_events m d :=
  let 'mkDB a b c e f g h i _ := d in mkDB a b c e f g h i m.

(** What a statement returns: the tables after it and its answer, or its error, and
    then it changed nothing. *)
Definition stmt (A : Type) : Type := DB -> result (DB * A).

(** ** Columns *)

(** A [timestamptz]: the driver sends whole microseconds, rounded down. *)
Definition timestamptz (t : Time) : Time := t / 1000 * 1000.

Definition in_int4 (z : Z) : Prop := - 2 ^ 31 <= z < 2 ^ 31.

#[export] Instance in_int4_dec z : Decision (in_int4 z).
Proof. unfold in_int4. apply _. Defined.

(** The row with key [k] exists; a [NULL] reference needs none. *)
Definition has {A} (m : gmap string A) (k : string) : Prop := is_Some (m !! k).
Definition has_opt {A} (m : gmap string A) (o : option string) : Prop :=
  match o with Some k => has m k | None => True end.

#[export] Instance has_dec {A} (m : gmap string A) k : Decision (has m k).
Proof. unfold has. apply _. Defined.
#[export] Instance has_opt_dec {A} (m : gmap string A) o : Decision (has_opt m o).
Proof. destruct o; apply _. Defined.

(** No row satisfies [P]. *)
Definition no_row {A} (P : A -> Prop) (m : gmap string A) : Prop :=
  map_Forall (fun _ r => ~ P r) m.

#[export] Instance no_row_dec {A} (P : A -> Prop) `{!forall r, Decision (P r)} m :
  Decision (no_row P m).
Proof. unfold no_row. apply _. Defined.

(** The rows of a table, in no order a client may rely on. *)
Definition rows {A} (m : gmap string A) : list A := (map_to_list m).*2.

(** A row that satisfies [P]: the answer of a query for one row. *)
Definition row_with {A} (P : A -> Prop) `{!forall r, Decision (P r)} (m : gmap string A)
    : option A := head (filter P (rows m)).

(** ** Errors of the server and the driver *)

Definition quoted (s : string) : string := String "034"%char (s +:+ String "034"%char "").

Definition server_error (message code : string) : error :=
  ErrText ("ERROR: " +:+ message +:+ " (SQLSTATE " +:+ code +:+ ")").

Definition unique_violation (c : string) : error :=
  server_error ("duplicate key value violates unique constraint " +:+ quoted c) "23505".
Definition check_violation (t c : string) : error :=
  server_error ("new row for relation " +:+ quoted t +:+ " violates check constraint " +:+ quoted c)
    "23514".
Definition foreign_key_violation (t c : string) : error :=
  server_error ("insert or update on table " +:+ quoted t +:+ " violates foreign key constraint "
    +:+ quoted c) "23503".
Definition bigint_out_of_range : error := server_error "bigint out of range" "22003".
Definition integer_out_of_range : error := server_error "integer out of range" "22003".
Definition negative_limit : error := server_error "LIMIT must not be negative" "2201W".

(** A Go [int] that is no [integer] does not get to the server. *)
Definition cannot_encode : error := ErrText "failed to encode args: cannot encode into int4".

(** [pgx.ErrNoRows] *)
Definition ErrNoRows : error := ErrText "no rows in result set".

(** ** Texts

    A [text] of the database is UTF-8 without a NUL byte: a statement with another
    one among its arguments is refused. *)

Definition valid_text (s : string) : Prop := ValidString s = true /\ free_of Ascii.zero s.
Definition valid_texts (l : list string) : Prop := Forall valid_text l.

#[export] Instance valid_text_dec s : Decision (valid_text s).
Proof. unfold valid_text. apply _. Defined.
#[export] Instance valid_texts_dec l : Decision (valid_texts l).
Proof. unfold valid_texts. apply _. Defined.

Definition invalid_text : error :=
  server_error ("invalid byte sequence for encoding " +:+ quoted "UTF8") "22021".

Definition bound {A} (texts : list string) (q : stmt A) : stmt A := fun d =>
  if decide (valid_texts texts) then q d else Err invalid_text.

(** The texts of a row. *)
Definition user_texts (u : User) : list string :=
  [u_ID u; u_TenantID u; u_Email u; u_PasswordHash u; u_Role u].
Definition session_texts (v : Session) : list string := [ses_ID v; ses_UserID v; ses_TokenHash v].
Definition leg_texts (l : FlightLeg) : list string :=
  [leg_ID l; leg_TenantID l; leg_FlightNumber l; leg_Origin l; leg_Destination l; leg_Status l].
Definition shipment_texts (s : Shipment) : list string :=
  [sh_ID s; sh_TenantID s; sh_Reference s; sh_Origin s; sh_Destination s; sh_Status s] ++
  option_list (sh_LegID s).
Definition customs_texts (c : CustomsCase) : list string :=
  [cc_ID c; cc_ShipmentID c; cc_Status c; cc_DocumentRef c] ++ option_list (cc_ReviewedBy c).
Definition security_texts (c : SecurityCheck) : list string :=
  [sc_ID c; sc_ShipmentID c; sc_Status c; sc_Notes c] ++ option_list (sc_OfficerID c).
Definition audit_texts (v : AuditEvent) : list string :=
  [ae_ID v; ae_TenantID v; ae_ActorID v; ae_ObjectType v; ae_ObjectID v; ae_Action v; ae_Result v;
   ae_RequestID v].
Definition outbox_texts (v : OutboxEvent) : list string :=
  [ob_ID v; ob_TenantID v; ob_Topic v; ob_AggregateID v; ob_LastError v].

(** The first requirement of a statement that does not hold. *)
Definition require (P : Prop) `{Decision P} (e : error) : bool * error := (bool_decide P, e).

Fixpoint violated (cs : list (bool * error)) : option error :=
  match cs with
  | [] => None
  | (ok, e) :: cs => if ok then violated cs else Some e
  end.

Definition checked {A} (cs : list (bool * error)) (d : DB) (v : A) : result (DB * A) :=
  match violated cs with Some e => Err e | None => Ok (d, v) end.

(** ** users *)

Definition roles : list Role := [RoleShipper; RoleCoordinator; RoleGroundAgent].

(** [INSERT INTO users(...)] without [deactivated_at] *)
Definition insert_user (u : User) : stmt Z := bound (user_texts u) (fun d =>
  let '(mkUser id tenant_id email password_hash role active created_at _) := u in
  checked
    [ require (role ∈ roles) (check_violation "users" "users_role_check");
      require (~ has (users d) id) (unique_violation "users_pkey");
      require (no_row (fun r => u_Email r = email) (users d)) (unique_violation "users_email_key");
      require (has (tenants d) tenant_id) (foreign_key_violation "users" "users_tenant_id_fkey") ]
    (with_users (<[id := mkUser id tenant_id email password_hash role active
       (timestamptz created_at) None]> (users d)) d) 1).

(** [UPDATE users SET active=false,deactivated_at=$2 WHERE id=$1] *)
Definition deactivate_user (id : string) (at_ : Time) : stmt Z := bound [id] (fun d =>
  match users d !! id with
  | None => Ok (d, 0)
  | Some (mkUser i tenant_id email password_hash role _ created_at _) =>
      Ok (with_users (<[id := mkUser i tenant_id email password_hash role false created_at
            (Some (timestamptz at_))]> (users d)) d, 1)
  end).

(** ** sessions *)

(** [INSERT INTO sessions(...)] without [revoked_at] *)
Definition insert_session (v : Session) : stmt Z := bound (session_texts v) (fun d =>
  let '(mkSession id user_id token_hash expires_at _ created_at) := v in
  checked
    [ require (no_row (fun r => ses_ID r = id) (sessions d)) (unique_violation "sessions_pkey");
      require (~ has (sessions d) token_hash) (unique_violation "sessions_token_hash_key");
      require (has (users d) user_id) (foreign_key_violation "sessions" "sessions_user_id_fkey") ]
    (with_sessions (<[token_hash := mkSession id user_id token_hash (timestamptz expires_at) None
       (timestamptz created_at)]> (sessions d)) d) 1).

(** [UPDATE sessions SET revoked_at=$2 WHERE P AND revoked_at IS NULL], where [P]
    compares with the text [$1] *)
Definition revoke_where (arg : string) (P : Session -> Prop) `{!forall v, Decision (P v)} (at_ : Time) : stmt Z :=
  bound [arg] (fun d =>
  let live v := P v /\ ses_RevokedAt v = None in
  Ok (with_sessions ((fun v => if decide (live v)
        then set_ses_RevokedAt (Some (timestamptz at_)) v else v) <$> sessions d) d,
      Z.of_nat (length (filter live (rows (sessions d)))))).

(** ** flight_legs *)

Definition insert_leg (v : FlightLeg) : stmt Z := bound (leg_texts v) (fun d =>
  let '(mkFlightLeg id tenant_id flight_number origin destination departure_at arrival_at
          capacity_kg reserved_kg status version created_at) := v in
  checked
    [ require (capacity_kg > 0) (check_violation "flight_legs" "flight_legs_capacity_kg_check");
      require (reserved_kg >= 0) (check_violation "flight_legs" "flight_legs_reserved_kg_check");
      require (~ has (flight_legs d) id) (unique_violation "flight_legs_pkey");
      require (no_row (fun r => leg_TenantID r = tenant_id /\ leg_FlightNumber r = flight_number /\
                  leg_DepartureAt r = timestamptz departure_at) (flight_legs d))
        (unique_violation "flight_legs_tenant_id_flight_number_departure_at_key");
      require (has (tenants d) tenant_id)
        (foreign_key_violation "flight_legs" "flight_legs_tenant_id_fkey") ]
    (with_flight_legs (<[id := mkFlightLeg id tenant_id flight_number origin destination
       (timestamptz departure_at) (timestamptz arrival_at) capacity_kg reserved_kg status version
       (timestamptz created_at)]> (flight_legs d)) d) 1).

(** A leg with its reservation, status and version assigned: the row of an
    [UPDATE], whose constraints are those of the columns it changes. *)
Definition store_leg (id : string) (l : FlightLeg) (reserved version : Z) (status : LegStatus)
    (d : DB) : result (DB * Z) :=
  checked
    [ require (in_int64 reserved) bigint_out_of_range;
      require (in_int64 version) bigint_out_of_range;
      require (reserved >= 0) (check_violation "flight_legs" "flight_legs_reserved_kg_check") ]
    (with_flight_legs (<[id := set_leg_Version version (set_leg_Status status
       (set_leg_ReservedKg reserved l))]> (flight_legs d)) d) 1.

(** [UPDATE flight_legs SET reserved_kg=reserved_kg+$4,version=version+1 WHERE
    tenant_id=$1 AND id=$2 AND version=$3 AND reserved_kg+$4<=capacity_kg] *)
Definition reserve_leg (tenant id : string) (version weight : Z) : stmt Z := bound [tenant; id] (fun d =>
  match flight_legs d !! id with
  | None => Ok (d, 0)
  | Some l =>
      if decide (leg_TenantID l = tenant /\ leg_Version l = version) then
        let reserved := leg_ReservedKg l + weight in
        if decide (~ in_int64 reserved) then Err bigint_out_of_range else
        if decide (reserved <= leg_CapacityKg l)
        then store_leg id l reserved (leg_Version l + 1) (leg_Status l) d
        else Ok (d, 0)
      else Ok (d, 0)
  end).

(** [UPDATE flight_legs SET status=$4,version=version+1 WHERE tenant_id=$1 AND id=$2
    AND version=$3] *)
Definition set_leg_status (tenant id : string) (version : Z) (status : LegStatus) : stmt Z :=
  bound [tenant; id; status] (fun d =>
  match flight_legs d !! id with
  | None => Ok (d, 0)
  | Some l =>
      if decide (leg_TenantID l = tenant /\ leg_Version l = version)
      then store_leg id l (leg_ReservedKg l) (leg_Version l + 1) status d
      else Ok (d, 0)
  end).

(** [UPDATE flight_legs SET reserved_kg=reserved_kg+$3,version=version+1 WHERE
    tenant_id=$1 AND id=$2] *)
Definition load_leg (tenant id : string) (weight : Z) : stmt Z := bound [tenant; id] (fun d =>
  match flight_legs d !! id with
  | None => Ok (d, 0)
  | Some l =>
      if decide (leg_TenantID l = tenant)
      then store_leg id l (leg_ReservedKg l + weight) (leg_Version l + 1) (leg_Status l) d
      else Ok (d, 0)
  end).

(** ** shipments *)

Definition shipment_checks (s : Shipment) (d : DB) : list (bool * error) :=
  [ require (sh_WeightKg s > 0) (check_violation "shipments" "shipments_weight_kg_check");
    require (sh_Pieces s > 0) (check_violation "shipments" "shipments_pieces_check") ].

Definition shipment_references (s : Shipment) (d : DB) : list (bool * error) :=
  [ require (has (tenants d) (sh_TenantID s))
      (foreign_key_violation "shipments" "shipments_tenant_id_fkey");
    require (has_opt (flight_legs d) (sh_LegID s))
      (foreign_key_violation "shipments" "shipments_leg_id_fkey") ].

(** [INSERT INTO shipments(...)]: the key is sent as a text, never as [NULL]. *)
Definition insert_shipment (v : Shipment) : stmt Z := bound (sh_IdempotencyKey v :: shipment_texts v) (fun d =>
  let 'mkShipment id tenant_id reference origin destination weight_kg pieces status leg_id
        idempotency_key version created_at updated_at := v in
  let row := mkShipment id tenant_id reference origin destination weight_kg pieces status leg_id
    idempotency_key version (timestamptz created_at) (timestamptz updated_at) in
  checked
    (require (in_int4 pieces) cannot_encode :: shipment_checks row d ++
     [ require (~ has (shipments d) id) (unique_violation "shipments_pkey");
       require (no_row (fun r => sh_TenantID r = tenant_id /\ sh_IdempotencyKey r = idempotency_key)
                  (shipments d))
         (unique_violation "shipments_tenant_id_idempotency_key_key") ] ++
     shipment_references row d)
    (with_shipments (<[id := row]> (shipments d)) d) 1).

(** [UPDATE shipments SET reference=$3,...,updated_at=$10,version=version+1 WHERE
    tenant_id=$1 AND id=$2 AND version=$11] *)
Definition update_shipment (v : Shipment) (version : Z) : stmt Z := bound (shipment_texts v) (fun d =>
  if decide (~ in_int4 (sh_Pieces v)) then Err cannot_encode else
  match shipments d !! sh_ID v with
  | None => Ok (d, 0)
  | Some (mkShipment id tenant_id _ _ _ _ _ _ _ idempotency_key version' created_at _) =>
      if decide (tenant_id = sh_TenantID v /\ version' = version) then
        let row := mkShipment id tenant_id (sh_Reference v) (sh_Origin v) (sh_Destination v)
          (sh_WeightKg v) (sh_Pieces v) (sh_Status v) (sh_LegID v) idempotency_key (version' + 1)
          created_at (timestamptz (sh_UpdatedAt v)) in
        checked
          (require (in_int64 (version' + 1)) bigint_out_of_range :: shipment_checks row d ++
           shipment_references row d)
          (with_shipments (<[sh_ID v := row]> (shipments d)) d) 1
      else Ok (d, 0)
  end).

(** [UPDATE shipments SET status=$3,leg_id=$4,updated_at=$5,version=version+1 WHERE
    tenant_id=$1 AND id=$2] *)
Definition book_shipment (tenant id : string) (status : ShipmentStatus) (legID : string)
    (at_ : Time) : stmt Z := bound [tenant; id; status; legID] (fun d =>
  match shipments d !! id with
  | None => Ok (d, 0)
  | Some s =>
      if decide (sh_TenantID s = tenant) then
        let row := set_sh_Version (sh_Version s + 1) (set_sh_UpdatedAt (timestamptz at_)
          (set_sh_LegID (Some legID) (set_sh_Status status s))) in
        checked
          (require (in_int64 (sh_Version s + 1)) bigint_out_of_range :: shipment_checks row d ++
           shipment_references row d)
          (with_shipments (<[id := row]> (shipments d)) d) 1
      else Ok (d, 0)
  end).

(** ** customs_cases and security_checks *)

(** [INSERT INTO customs_cases(...) ON CONFLICT(shipment_id) DO UPDATE SET ...]: the
    row of the shipment keeps its identifier. *)
Definition put_customs (v : CustomsCase) : stmt Z := bound (customs_texts v) (fun d =>
  let 'mkCustomsCase id shipment_id status document_ref reviewed_by updated_at := v in
  let row id := mkCustomsCase id shipment_id status document_ref reviewed_by
    (timestamptz updated_at) in
  let reviewer := require (has_opt (users d) reviewed_by)
    (foreign_key_violation "customs_cases" "customs_cases_reviewed_by_fkey") in
  match customs_cases d !! shipment_id with
  | Some old => checked [reviewer]
      (with_customs_cases (<[shipment_id := row (cc_ID old)]> (customs_cases d)) d) 1
  | None => checked
      [ require (no_row (fun r => cc_ID r = id) (customs_cases d))
          (unique_violation "customs_cases_pkey");
        require (has (shipments d) shipment_id)
          (foreign_key_violation "customs_cases" "customs_cases_shipment_id_fkey");
        reviewer ]
      (with_customs_cases (<[shipment_id := row id]> (customs_cases d)) d) 1
  end).

(** [INSERT INTO security_checks(...) ON CONFLICT(shipment_id) DO UPDATE SET ...] *)
Definition put_security (v : SecurityCheck) : stmt Z := bound (security_texts v) (fun d =>
  let 'mkSecurityCheck id shipment_id status officer_id notes checked_at := v in
  let row id := mkSecurityCheck id shipment_id status officer_id notes
    (timestamptz <$> checked_at) in
  let officer := require (has_opt (users d) officer_id)
    (foreign_key_violation "security_checks" "security_checks_officer_id_fkey") in
  match security_checks d !! shipment_id with
  | Some old => checked [officer]
      (with_security_checks (<[shipment_id := row (sc_ID old)]> (security_checks d)) d) 1
  | None => checked
      [ require (no_row (fun r => sc_ID r = id) (security_checks d))
          (unique_violation "security_checks_pkey");
        require (has (shipments d) shipment_id)
          (foreign_key_violation "security_checks" "security_checks_shipment_id_fkey");
        officer ]
      (with_security_checks (<[shipment_id := row id]> (security_checks d)) d) 1
  end).

(** ** audit_events *)

Definition insert_audit (v : AuditEvent) : stmt Z := bound (audit_texts v) (fun d =>
  let 'mkAuditEvent id tenant_id actor_id object_type object_id action result request_id
        occurred_at := v in
  checked
    [ require (~ has (audit_events d) id) (unique_violation "audit_events_pkey");
      require (has (tenants d) tenant_id)
        (foreign_key_violation "audit_events" "audit_events_tenant_id_fkey");
      require (has (users d) actor_id)
        (foreign_key_violation "audit_events" "audit_events_actor_id_fkey") ]
    (with_audit_events (<[id := mkAuditEvent id tenant_id actor_id object_type object_id action
       result request_id (timestamptz occurred_at)]> (audit_events d)) d) 1).

(** ** outbox_events *)

(** What the server decides: how a [jsonb] column reads a text and gives it back, and
    the order of texts by the collation of the database. *)
Class Server := {
  jsonb_in : string -> result string;
  text_less : string -> string -> bool }.

Section outbox.
Context `{Server}.

(** [INSERT INTO outbox_events(...)]: the columns that are not named are [NULL]. *)
Definition insert_outbox (v : OutboxEvent) : stmt Z := bound (outbox_texts v) (fun d =>
  let 'mkOutboxEvent id tenant_id topic aggregate_id payload attempts available_at _ _
        last_error := v in
  match jsonb_in payload with
  | Err e => Err e
  | Ok payload =>
      checked
        [ require (in_int4 attempts) cannot_encode;
          require (~ has (outbox_events d) id) (unique_violation "outbox_events_pkey");
          require (has (tenants d) tenant_id)
            (foreign_key_violation "outbox_events" "outbox_events_tenant_id_fkey") ]
        (with_outbox_events (<[id := mkOutboxEvent id tenant_id topic aggregate_id payload attempts
           (timestamptz available_at) None None last_error]> (outbox_events d)) d) 1
  end).

(** The order of [ORDER BY t,id]. *)
Definition row_before {A} (t : A -> Time) (id : A -> string) (x y : A) : bool :=
  if decide (t x = t y) then text_less (id x) (id y) else bool_decide (t x < t y).

(** [SELECT ... ORDER BY t,id LIMIT n] over the rows [l] *)
Definition first_rows {A} (t : A -> Time) (id : A -> string) (n : Z) (l : list A)
    : result (list A) :=
  if decide (n < 0) then Err negative_limit
  else Ok (take (Z.to_nat n) (SliceStable (row_before t id) l)).

(** The rows a worker may take at [now]. *)
Definition ready (now : Time) (v : OutboxEvent) : Prop :=
  ob_PublishedAt v = None /\ ob_ClaimedAt v = None /\ ob_AvailableAt v <= timestamptz now.

#[export] Instance ready_dec now v : Decision (ready now v).
Proof. unfold ready. apply _. Defined.

Definition claim_row (now : Time) (v : OutboxEvent) : OutboxEvent :=
  let 'mkOutboxEvent a b c d e attempts g _ i j := v in
  mkOutboxEvent a b c d e (attempts + 1) g (Some (timestamptz now)) i j.

(** [WITH picked AS (SELECT id ... LIMIT $2) UPDATE outbox_events o SET claimed_at=$1,
    attempts=o.attempts+1 FROM picked WHERE o.id=picked.id RETURNING ...]; [order] is
    the order in which the server meets the rows it updates. *)
Definition claim_outbox (order : list string) (now : Time) (n : Z) : stmt (list OutboxEvent) :=
  fun d =>
  match first_rows ob_AvailableAt ob_ID n (filter (ready now) (rows (outbox_events d))) with
  | Err e => Err e
  | Ok picked =>
      let take_it v := v ∈ picked in
      if decide (Forall (fun v => in_int4 (ob_Attempts v + 1)) picked) then
        Ok (with_outbox_events ((fun v => if decide (take_it v) then claim_row now v else v)
              <$> outbox_events d) d,
            claim_row now <$> filter take_it (range_values (outbox_events d) order))
      else Err integer_out_of_range
  end.

(** [UPDATE outbox_events SET published_at=$2,claimed_at=NULL WHERE id=$1] *)
Definition publish_outbox (id : string) (at_ : Time) : stmt Z := bound [id] (fun d =>
  match outbox_events d !! id with
  | None => Ok (d, 0)
  | Some (mkOutboxEvent a b c e f g h _ _ k) =>
      Ok (with_outbox_events (<[id := mkOutboxEvent a b c e f g h None (Some (timestamptz at_)) k]>
            (outbox_events d)) d, 1)
  end).

(** [UPDATE outbox_events SET last_error=$2,claimed_at=NULL,available_at=$3 WHERE id=$1] *)
Definition fail_outbox (id msg : string) (available_at : Time) : stmt Z := bound [id; msg] (fun d =>
  match outbox_events d !! id with
  | None => Ok (d, 0)
  | Some (mkOutboxEvent a b c e f g _ _ j _) =>
      Ok (with_outbox_events (<[id := mkOutboxEvent a b c e f g (timestamptz available_at) None j msg]>
            (outbox_events d)) d, 1)
  end).

(** [SELECT count( * ) FILTER(WHERE published_at IS NULL),count( * ) FILTER(WHERE
    published_at IS NULL AND attempts>=5) FROM outbox_events WHERE tenant_id=$1] *)
Definition count_outbox (tenant : string) (d : DB) : Z * Z :=
  let pending := filter (fun v => ob_TenantID v = tenant /\ ob_PublishedAt v = None)
    (rows (outbox_events d)) in
  (Z.of_nat (length pending), Z.of_nat (length (filter (fun v => ob_Attempts v >= 5) pending))).
End outbox.

(** ** Queries *)

Lemma elem_of_rows {A} (m : gmap string A) r : r ∈ rows m <-> exists k, m !! k = Some r.
Proof.
  unfold rows. rewrite list_elem_of_fmap. split.
  - intros ([k v] & -> & Hv%elem_of_map_to_list). by exists k.
  - intros [k Hk]. exists (k, r). split; [done|]. by apply elem_of_map_to_list.
Qed.

Lemma row_with_Some {A} (P : A -> Prop) `{!forall r, Decision (P r)} (m : gmap string A) r :
  row_with P m = Some r -> P r /\ exists k, m !! k = Some r.
Proof.
  unfold row_with. intros Hr. rewrite <- elem_of_rows.
  destruct (filter P (rows m)) as [|x l] eqn:Hl; [done|]. simpl in Hr. simplify_eq.
  rewrite <- list_elem_of_filter, Hl. set_solver.
Qed.

Lemma violated_None cs : violated cs = None <-> Forall (fun c => c.1 = true) cs.
Proof.
  induction cs as [|[b e] cs IH]; simpl; [by split|].
  rewrite Forall_cons. simpl. destruct b; naive_solver.
Qed.

(** A statement that went through met every requirement. *)
Lemma checked_Ok {A} cs d (v : A) d' v' :
  checked cs d v = Ok (d', v') <-> Forall (fun c => c.1 = true) cs /\ d' = d /\ v' = v.
Proof.
  unfold checked. rewrite <- violated_None. destruct (violated cs); naive_solver.
Qed.

Lemma require_true P `{Decision P} e : (require P e).1 = true <-> P.
Proof. apply bool_decide_eq_true. Qed.

(** [sql_inv H] says what a statement that went through required and did. *)
Ltac sql_inv H :=
  unfold bound in H;
  repeat match type of H with
  | context [match ?x with _ => _ end] =>
      lazymatch x with
      | context [match _ with _ => _ end] => fail
      | decide _ => destruct x
      | _ => let E := fresh "E" in destruct x eqn:E
      end; try discriminate H
  end;
  unfold shipment_checks, shipment_references in H;
  rewrite ?checked_Ok, ?Forall_cons, ?Forall_app, ?Forall_cons, ?Forall_nil in H;
  cbn [app] in H; rewrite ?Forall_cons, ?Forall_nil, ?require_true in H.

(** ** The constraints of the schema *)

(** A key that no two rows share. *)
Definition unique {A K} (key : A -> K) (m : gmap string A) : Prop :=
  forall i j a b, m !! i = Some a -> m !! j = Some b -> key a = key b -> i = j.

Definition user_row (d : DB) (id : string) (u : User) : Prop :=
  u_ID u = id /\ u_Role u ∈ roles /\ has (tenants d) (u_TenantID u) /\ valid_texts (user_texts u).
Definition session_row (d : DB) (h : string) (v : Session) : Prop :=
  ses_TokenHash v = h /\ has (users d) (ses_UserID v) /\ valid_texts (session_texts v).
Definition leg_row (d : DB) (id : string) (l : FlightLeg) : Prop :=
  leg_ID l = id /\ leg_CapacityKg l > 0 /\ leg_ReservedKg l >= 0 /\ has (tenants d) (leg_TenantID l) /\
  valid_texts (leg_texts l).
Definition shipment_row (d : DB) (id : string) (s : Shipment) : Prop :=
  sh_ID s = id /\ sh_WeightKg s > 0 /\ sh_Pieces s > 0 /\ has (tenants d) (sh_TenantID s) /\
  has_opt (flight_legs d) (sh_LegID s) /\ valid_texts (sh_IdempotencyKey s :: shipment_texts s).
Definition customs_row (d : DB) (id : string) (c : CustomsCase) : Prop :=
  cc_ShipmentID c = id /\ has (shipments d) id /\ has_opt (users d) (cc_ReviewedBy c) /\
  valid_texts (customs_texts c).
Definition security_row (d : DB) (id : string) (c : SecurityCheck) : Prop :=
  sc_ShipmentID c = id /\ has (shipments d) id /\ has_opt (users d) (sc_OfficerID c) /\
  valid_texts (security_texts c).
Definition audit_row (d : DB) (id : string) (v : AuditEvent) : Prop :=
  ae_ID v = id /\ has (tenants d) (ae_TenantID v) /\ has (users d) (ae_ActorID v) /\
  valid_texts (audit_texts v).
Definition outbox_row (d : DB) (id : string) (v : OutboxEvent) : Prop :=
  ob_ID v = id /\ has (tenants d) (ob_TenantID v) /\ valid_texts (outbox_texts v).

(** Every row meets the [CHECK] and [REFERENCES] clauses of its table and has texts, and
    the [UNIQUE] ones hold. *)
Record consistent (d : DB) : Prop := {
  users_rows : map_Forall (user_row d) (users d);
  sessions_rows : map_Forall (session_row d) (sessions d);
  legs_rows : map_Forall (leg_row d) (flight_legs d);
  shipments_rows : map_Forall (shipment_row d) (shipments d);
  customs_rows : map_Forall (customs_row d) (customs_cases d);
  security_rows : map_Forall (security_row d) (security_checks d);
  audit_rows : map_Forall (audit_row d) (audit_events d);
  outbox_rows : map_Forall (outbox_row d) (outbox_events d);
  users_email_key : unique u_Email (users d);
  sessions_pkey : unique ses_ID (sessions d);
  legs_flight_key :
    unique (fun l => (leg_TenantID l, leg_FlightNumber l, leg_DepartureAt l)) (flight_legs d);
  shipments_idempotency_key : unique (fun s => (sh_TenantID s, sh_IdempotencyKey s)) (shipments d);
  customs_pkey : unique cc_ID (customs_cases d);
  security_pkey : unique sc_ID (security_checks d) }.

(** No statement deletes a row that others may refer to. *)
Definition keys_kept (d d' : DB) : Prop :=
  (forall k, has (tenants d) k -> has (tenants d') k) /\
  (forall k, has (users d) k -> has (users d') k) /\
  (forall k, has (flight_legs d) k -> has (flight_legs d') k) /\
  (forall k, has (shipments d) k -> has (shipments d') k).

Lemma has_insert {A} (m : gmap string A) i r k : has m k -> has (<[i := r]> m) k.
Proof. unfold has. rewrite lookup_insert. case_decide; [by eexists|done]. Qed.

Lemma has_opt_mono {A B} (m : gmap string A) (m' : gmap string B) o :
  (forall k, has m k -> has m' k) -> has_opt m o -> has_opt m' o.
Proof. destruct o; simpl; auto. Qed.

Section constraints.
Context {A K : Type}.
Implicit Types (m : gmap string A) (key : A -> K).

Lemma rows_insert (P Q : string -> A -> Prop) m k r :
  map_Forall P m -> (forall i a, P i a -> Q i a) -> Q k r -> map_Forall Q (<[k := r]> m).
Proof.
  intros Hm HPQ Hr i a. rewrite lookup_insert. case_decide; [by intros [= <-]; subst|].
  intros Hi. by apply HPQ, Hm.
Qed.

Lemma rows_map (P : string -> A -> Prop) (f : A -> A) m :
  map_Forall P m -> (forall i a, P i a -> P i (f a)) -> map_Forall P (f <$> m).
Proof.
  intros Hm Hf i a. rewrite lookup_fmap_Some. intros (b & <- & Hb). by apply Hf, Hm.
Qed.

Lemma unique_new key m k r :
  unique key m -> no_row (fun a => key a = key r) m -> unique key (<[k := r]> m).
Proof.
  intros Hm Hr i j a b. rewrite !lookup_insert. repeat case_decide; intros; simplify_eq; try done.
  - by destruct (Hr _ _ H2).
  - by destruct (Hr _ _ H1).
  - by eapply Hm.
Qed.

Lemma no_row_impl (P Q : A -> Prop) m : no_row P m -> (forall a, Q a -> P a) -> no_row Q m.
Proof. intros Hm HPQ i a Ha HQ. by apply (Hm _ _ Ha), HPQ. Qed.

Lemma unique_update key m k a r :
  unique key m -> m !! k = Some a -> key r = key a -> unique key (<[k := r]> m).
Proof.
  intros Hm Hk Hr i j b c. rewrite !lookup_insert.
  repeat case_decide; intros; simplify_eq; try done.
  - rewrite Hr in *. by eapply Hm.
  - rewrite Hr in *. by eapply Hm.
  - by eapply Hm.
Qed.

Lemma unique_map key (f : A -> A) m :
  unique key m -> (forall a, key (f a) = key a) -> unique key (f <$> m).
Proof.
  intros Hm Hf i j a b. rewrite !lookup_fmap_Some. intros (x & <- & Hx) (y & <- & Hy).
  rewrite !Hf. by apply Hm.
Qed.
End constraints.

(** ** Every statement keeps them *)

Ltac unfold_rows :=
  unfold user_row, session_row, leg_row, shipment_row, customs_row, security_row, audit_row,
    outbox_row in *; simpl in *.

(** What a row refers to is still there. *)
Ltac row_kept :=
  intros; unfold_rows; destruct_and?; split_and?; eauto using has_insert, has_opt_mono.

(** The tables a change leaves alone, and the one it writes a good row to. *)
Ltac table_kept :=
  lazymatch goal with
  | |- map_Forall _ (<[_ := _]> _) => eapply rows_insert; [eassumption|row_kept|row_kept]
  | |- map_Forall _ _ => eapply map_Forall_impl; [eassumption|row_kept]
  | |- unique _ _ => done
  end.

Section put.
Implicit Types (d : DB) (k : string).

Ltac put_row :=
  match goal with |- consistent ?d -> _ => intros [] ? ?; destruct d end;
  split; simpl in *; table_kept.

Lemma consistent_user d k r : consistent d -> user_row d k r ->
  unique u_Email (<[k := r]> (users d)) -> consistent (with_users (<[k := r]> (users d)) d).
Proof. put_row. Qed.

Lemma consistent_session d k r : consistent d -> session_row d k r ->
  unique ses_ID (<[k := r]> (sessions d)) -> consistent (with_sessions (<[k := r]> (sessions d)) d).
Proof. put_row. Qed.

Lemma consistent_leg d k r : consistent d -> leg_row d k r ->
  unique (fun l => (leg_TenantID l, leg_FlightNumber l, leg_DepartureAt l))
    (<[k := r]> (flight_legs d)) ->
  consistent (with_flight_legs (<[k := r]> (flight_legs d)) d).
Proof. put_row. Qed.

Lemma consistent_shipment d k r : consistent d -> shipment_row d k r ->
  unique (fun s => (sh_TenantID s, sh_IdempotencyKey s)) (<[k := r]> (shipments d)) ->
  consistent (with_shipments (<[k := r]> (shipments d)) d).
Proof. put_row. Qed.

Lemma consistent_customs d k r : consistent d -> customs_row d k r ->
  unique cc_ID (<[k := r]> (customs_cases d)) ->
  consistent (with_customs_cases (<[k := r]> (customs_cases d)) d).
Proof. put_row. Qed.

Lemma consistent_security d k r : consistent d -> security_row d k r ->
  unique sc_ID (<[k := r]> (security_checks d)) ->
  consistent (with_security_checks (<[k := r]> (security_checks d)) d).
Proof. put_row. Qed.

Lemma consistent_audit d k r : consistent d -> audit_row d k r ->
  True -> consistent (with_audit_events (<[k := r]> (audit_events d)) d).
Proof. put_row. Qed.

Lemma consistent_outbox d k r : consistent d -> outbox_row d k r ->
  True -> consistent (with_outbox_events (<[k := r]> (outbox_events d)) d).
Proof. put_row. Qed.

Lemma consistent_sessions_map d (f : Session -> Session) : consistent d ->
  (forall v, ses_UserID (f v) = ses_UserID v /\ session_texts (f v) = session_texts v) ->
  consistent (with_sessions (f <$> sessions d) d).
Proof.
  intros Hd Hf. destruct Hd, d; split; simpl in *; try done.
  - apply rows_map; [done|]. intros i v. destruct (Hf v) as (H1 & H2). unfold_rows. rewrite H1, H2.
    unfold session_texts in H2. by injection H2 as _ _ ->.
  - apply unique_map; [done|]. intros w. destruct (Hf w) as (_ & H2). by injection H2 as -> _.
Qed.

Lemma consistent_outbox_map d (f : OutboxEvent -> OutboxEvent) : consistent d ->
  (forall v, outbox_texts (f v) = outbox_texts v) ->
  consistent (with_outbox_events (f <$> outbox_events d) d).
Proof.
  intros Hd Hf. destruct Hd, d; split; simpl in *; try done.
  apply rows_map; [done|]. intros i v. unfold_rows. rewrite (Hf v). specialize (Hf v).
  unfold outbox_texts in Hf. by injection Hf as -> -> _ _ _.
Qed.
End put.

(** A statement keeps the constraints of the schema. *)
Definition keeps {A} (q : stmt A) : Prop :=
  forall d d' v, consistent d -> q d = Ok (d', v) -> consistent d'.

Ltac stmt_inv H :=
  sql_inv H; simplify_eq; try done; destruct_and?; subst.

Lemma insert_user_keeps u : keeps (insert_user u).
Proof.
  intros d d' v Hd Hq. unfold insert_user in Hq. stmt_inv Hq.
  apply consistent_user; [done|by split_and!|]. apply unique_new; [by apply Hd|done].
Qed.

Lemma deactivate_user_keeps id at_ : keeps (deactivate_user id at_).
Proof.
  intros d d' v Hd Hq. unfold deactivate_user in Hq. stmt_inv Hq.
  pose proof (users_rows _ Hd _ _ E) as Hrow.
  apply consistent_user; [done|done|]. eapply unique_update; [by apply Hd|done|done].
Qed.

Lemma insert_session_keeps v : keeps (insert_session v).
Proof.
  intros d d' n Hd Hq. unfold insert_session in Hq. stmt_inv Hq.
  apply consistent_session; [done|by split_and!|]. apply unique_new; [by apply Hd|done].
Qed.

Lemma revoke_where_keeps arg P `{!forall v, Decision (P v)} at_ : keeps (revoke_where arg P at_).
Proof.
  intros d d' n Hd Hq. unfold revoke_where in Hq. stmt_inv Hq.
  apply consistent_sessions_map; [done|]. intros w. case_decide; [|done]. by destruct w.
Qed.

Lemma insert_leg_keeps v : keeps (insert_leg v).
Proof.
  intros d d' n Hd Hq. unfold insert_leg in Hq. stmt_inv Hq.
  apply consistent_leg; [done|by split_and!|]. apply unique_new; [by apply Hd|].
  eapply no_row_impl; [done|]. simpl. intros r ?. by simplify_eq.
Qed.

(** The texts of a row are those of its arguments and of the row before. *)
Ltac row_texts :=
  unfold valid_texts, user_texts, session_texts, leg_texts, shipment_texts, customs_texts,
    security_texts, outbox_texts in *;
  simpl in *; rewrite ?Forall_cons in *; naive_solver.

(** The updates of a leg that exists. *)
Lemma store_leg_keeps id l reserved version status d d' v :
  consistent d -> flight_legs d !! id = Some l -> valid_text status ->
  store_leg id l reserved version status d = Ok (d', v) -> consistent d'.
Proof.
  intros Hd Hl Hst Hq. unfold store_leg in Hq. stmt_inv Hq.
  pose proof (legs_rows _ Hd _ _ Hl) as (? & ? & ? & ? & Ht).
  assert (Ht' : valid_texts (leg_texts (set_leg_Version version (set_leg_Status status
    (set_leg_ReservedKg reserved l))))).
  { destruct l. row_texts. }
  apply consistent_leg; [done|by destruct l; split_and!|].
  eapply unique_update; [by apply Hd|done|]. by destruct l.
Qed.

Lemma bound_keeps {A} l (q : stmt A) : (valid_texts l -> keeps q) -> keeps (bound l q).
Proof. intros Hq d d' v Hd. unfold bound. case_decide; [by apply Hq|done]. Qed.

Lemma leg_status_text d id l : consistent d -> flight_legs d !! id = Some l -> valid_text (leg_Status l).
Proof.
  intros Hd Hl. destruct (legs_rows _ Hd _ _ Hl) as (_ & _ & _ & _ & Ht).
  eapply Forall_forall; [exact Ht|]. unfold leg_texts. set_solver.
Qed.

Lemma reserve_leg_keeps tenant id version weight : keeps (reserve_leg tenant id version weight).
Proof.
  apply bound_keeps. intros _ d d' v Hd. destruct (flight_legs d !! id) eqn:Hl; [|by intros; simplify_eq].
  cbv zeta. repeat case_decide; try (by intros; simplify_eq). by eapply store_leg_keeps, leg_status_text.
Qed.

Lemma set_leg_status_keeps tenant id version status : keeps (set_leg_status tenant id version status).
Proof.
  apply bound_keeps. intros Ht d d' v Hd. destruct (flight_legs d !! id) eqn:Hl; [|by intros; simplify_eq].
  case_decide; try (by intros; simplify_eq). eapply store_leg_keeps; [done..|].
  eapply Forall_forall; [exact Ht|]. set_solver.
Qed.

Lemma load_leg_keeps tenant id weight : keeps (load_leg tenant id weight).
Proof.
  apply bound_keeps. intros _ d d' v Hd. destruct (flight_legs d !! id) eqn:Hl; [|by intros; simplify_eq].
  case_decide; try (by intros; simplify_eq). by eapply store_leg_keeps, leg_status_text.
Qed.

Lemma insert_shipment_keeps v : keeps (insert_shipment v).
Proof.
  intros d d' n Hd Hq. unfold insert_shipment in Hq. stmt_inv Hq.
  apply consistent_shipment; [done|by split_and!|]. apply unique_new; [by apply Hd|].
  eapply no_row_impl; [done|]. simpl. intros r ?. by simplify_eq.
Qed.

Lemma update_shipment_keeps v version : keeps (update_shipment v version).
Proof.
  intros d d' n Hd Hq. unfold update_shipment in Hq. stmt_inv Hq.
  pose proof (shipments_rows _ Hd _ _ E) as (? & _ & _ & _ & _ & Ht).
  apply consistent_shipment; [done|split_and!; try done; destruct v; row_texts|].
  by eapply unique_update; [apply Hd| |].
Qed.

Lemma book_shipment_keeps tenant id status legID at_ :
  keeps (book_shipment tenant id status legID at_).
Proof.
  intros d d' n Hd Hq. unfold book_shipment in Hq. stmt_inv Hq.
  pose proof (shipments_rows _ Hd _ _ E) as (? & _ & _ & _ & _ & Ht).
  apply consistent_shipment; [done|destruct s; split_and!; try done; row_texts|].
  eapply unique_update; [by apply Hd|done|]. by destruct s.
Qed.

Lemma put_customs_keeps v : keeps (put_customs v).
Proof.
  intros d d' n Hd Hq. destruct v. unfold put_customs in Hq. stmt_inv Hq.
  - pose proof (customs_rows _ Hd _ _ E) as (? & ? & _ & Ht).
    apply consistent_customs; [done|split_and!; try done; row_texts|]. by eapply unique_update; [apply Hd| |].
  - apply consistent_customs; [done|by split_and!|]. apply unique_new; [by apply Hd|done].
Qed.

Lemma put_security_keeps v : keeps (put_security v).
Proof.
  intros d d' n Hd Hq. destruct v. unfold put_security in Hq. stmt_inv Hq.
  - pose proof (security_rows _ Hd _ _ E) as (? & ? & _ & Ht).
    apply consistent_security; [done|split_and!; try done; row_texts|]. by eapply unique_update; [apply Hd| |].
  - apply consistent_security; [done|by split_and!|]. apply unique_new; [by apply Hd|done].
Qed.

Lemma insert_audit_keeps v : keeps (insert_audit v).
Proof.
  intros d d' n Hd Hq. unfold insert_audit in Hq. stmt_inv Hq. by apply consistent_audit.
Qed.

Section outbox_keeps.
Context `{Server}.

Lemma insert_outbox_keeps v : keeps (insert_outbox v).
Proof.
  intros d d' n Hd Hq. unfold insert_outbox in Hq. stmt_inv Hq. by apply consistent_outbox.
Qed.

Lemma claim_outbox_keeps order now n : keeps (claim_outbox order now n).
Proof.
  intros d d' out Hd Hq. unfold claim_outbox in Hq. stmt_inv Hq.
  apply consistent_outbox_map; [done|]. intros w. case_decide; [|done]. by destruct w.
Qed.

Lemma publish_outbox_keeps id at_ : keeps (publish_outbox id at_).
Proof.
  intros d d' n Hd Hq. unfold publish_outbox in Hq. stmt_inv Hq.
  pose proof (outbox_rows _ Hd _ _ E) as (? & ? & ?).
  apply consistent_outbox; [done|split_and!; try done; row_texts|done].
Qed.

Lemma fail_outbox_keeps id msg at_ : keeps (fail_outbox id msg at_).
Proof.
  intros d d' n Hd Hq. unfold fail_outbox in Hq. stmt_inv Hq.
  pose proof (outbox_rows _ Hd _ _ E) as (? & ? & ?).
  apply consistent_outbox; [done|split_and!; try done; row_texts|done].
Qed.
End outbox_keeps.

#[export] Hint Resolve insert_user_keeps deactivate_user_keeps insert_session_keeps
  revoke_where_keeps insert_leg_keeps reserve_leg_keeps set_leg_status_keeps load_leg_keeps
  insert_shipment_keeps update_shipment_keeps book_shipment_keeps put_customs_keeps
  put_security_keeps insert_audit_keeps insert_outbox_keeps claim_outbox_keeps
  publish_outbox_keeps fail_outbox_keeps : go.

(** A concrete server for the examples: it keeps a [jsonb] text as it is and orders
    texts by their bytes. *)
Definition sample_server : Server := {| jsonb_in := Ok; text_less := string_less |}.
