(* ===== verification/postgres.v ===== *)
(** * Package repository/postgres

    The [Store] of [internal/repository/postgres]: its methods over the statements
    of [sql.v], and the proofs that it keeps the constraints of the schema and the
    contract of [repository.v].

    A method is a function of the database and of what becomes of the statements it
    sends ([fate]): a statement, [BEGIN], [COMMIT] or the end of a result set may be
    refused, or take effect while its acknowledgement is lost.  [BookShipment],
    [DeactivateUser] and [Claim] run in a transaction that locks the rows they decide
    on, and the others but [ListShipments] are one statement, so that a method is one
    atomic step.  [ListShipments] sends two queries: the second may see a database
    that others have changed in between. *)

From S2P Require Import Prelude.
From S2P Require Import golang.
From S2P Require Import domain.
From S2P Require Import external.
From S2P Require Import repository.
From S2P Require Import sql.

Open Scope string_scope.
Open Scope list_scope.
Open Scope Z_scope.

(** What becomes of a statement: it is processed; it is refused and has no effect; it
    takes effect, but its acknowledgement does not arrive; or, for a query that is
    not the first of its method, it is processed when the database is [d]. *)
Inductive fate :=
  | Passes
  | Refused (e : error)
  | Lost (e : error)
  | Later (d : DB).

Record Store := mkStore { db : DB; faults : list fate }.

(** The store while nothing fails. *)
Definition quiet (d : DB) : Store := mkStore d [].

Definition M (A : Type) : Type := Store -> Store * result A.

(** ** The driver *)

Definition next_fault (s : Store) : Store * fate :=
  match faults s with [] => (s, Passes) | f :: fs => (mkStore (db s) fs, f) end.

(** The error at the end of a result set: [rows.Err()]. *)
Definition rows_Err : M unit := fun s =>
  let '(s, f) := next_fault s in
  (s, match f with Refused e | Lost e => Err e | Passes | Later _ => Ok tt end).

(** [Exec], [Query]: one statement. *)
Definition attempt {A} (q : stmt A) : M A := fun s =>
  let '(s, f) := next_fault s in
  let d := match q (db s) with Ok (d, _) => d | Err _ => db s end in
  match f with
  | Refused e => (s, Err e)
  | Lost e => (mkStore d (faults s), Err e)
  | Passes | Later _ =>
      (mkStore d (faults s), match q (db s) with Ok (_, v) => Ok v | Err e => Err e end)
  end.

(** A query with the texts among its arguments, and a query for one row with its
    [Scan]. *)
Definition query {A} (texts : list string) (q : DB -> result A) : stmt A :=
  bound texts (fun d => match q d with Ok v => Ok (d, v) | Err e => Err e end).

Definition select {A} (texts : list string) (q : DB -> result A) : M A := attempt (query texts q).

Definition query_row {A} (texts : list string) (q : DB -> option A) : M A :=
  select texts (fun d => match q d with Some v => Ok v | None => Err ErrNoRows end).

(** A query that is not the first of its method, outside a transaction. *)
Definition select_later {A} (texts : list string) (q : DB -> result A) : M A := fun s =>
  let '(s, f) := next_fault s in
  match f with
  | Refused e | Lost e => (s, Err e)
  | Later d => (s, (select texts q (quiet d)).2)
  | Passes => (s, (select texts q (quiet (db s))).2)
  end.

(** [x <-? m ;; k] returns the error of [m], [x <-! m ;; k] handles its result. *)
Definition ok_bind {A B} (m : M A) (k : A -> M B) : M B := fun s =>
  let '(s, r) := m s in match r with Ok v => k v s | Err e => (s, Err e) end.
Definition result_bind {A B} (m : M A) (k : result A -> M B) : M B := fun s =>
  let '(s, r) := m s in k r s.
Definition returns {A} (r : result A) : M A := fun s => (s, r).

Notation "x <-? m ;; k" := (ok_bind m (fun x => k))
  (at level 100, m at next level, right associativity) : go_scope.
Notation "x <-! m ;; k" := (result_bind m (fun x => k))
  (at level 100, m at next level, right associativity) : go_scope.

(** [db.Begin], the statements of [body], [tx.Commit]; [defer tx.Rollback]. *)
Definition transaction {A} (body : M A) : M A := fun s =>
  let '(s, f) := next_fault s in
  match f with
  | Refused e | Lost e => (s, Err e)
  | Passes | Later _ =>
      let '(s', r) := body s in
      match r with
      | Err e => (mkStore (db s) (faults s'), Err e)
      | Ok v =>
          let '(s', f) := next_fault s' in
          match f with
          | Refused e => (mkStore (db s) (faults s'), Err e)
          | Lost e => (s', Err e)
          | Passes | Later _ => (s', Ok v)
          end
      end
  end.

(** A missing row is [domain.ErrNotFound]. *)
Definition not_found {A} (r : result A) : result A :=
  match r with
  | Err e => if errors_Is e ErrNoRows then Err ErrNotFound else Err e
  | Ok v => Ok v
  end.

(** The idiom of every query for one row. *)
Definition find_row {A} (texts : list string) (q : DB -> option A) : M A :=
  r <-! query_row texts q ;; returns (not_found r).

(** [tag.RowsAffected() == 0] *)
Definition affected (n : Z) (e : error) : result unit := if decide (n = 0) then Err e else Ok tt.

(** The substring of length [n] from [i]: [v[i:i+n]]. *)
Definition contains (v w : string) : bool :=
  existsb (fun i => bool_decide (String.substring i (String.length w) v = w))
    (seq 0 (S (String.length v) - String.length w)).

Definition isUnique (err : error) : bool :=
  bool_decide (Z.of_nat (String.length (error_string err)) > 0) &&
  contains (error_string err) "duplicate key".

Section methods.
Context `{External} `{Server}.

(** ** store.go *)

Definition Ping : M unit := rows_Err.

Definition user (texts : list string) (q : DB -> option User) : M User := find_row texts q.

Definition GetUserByEmail (email : string) : M User :=
  user [email] (fun d => row_with (fun u => u_Email u = email) (users d)).

Definition GetUser (id : string) : M User := user [id] (fun d => users d !! id).

(** The insertions that report a duplicate as [domain.ErrConflict]. *)
Definition conflict_if_unique (r : result Z) : result unit :=
  match r with
  | Err e => if isUnique e then Err ErrConflict else Err e
  | Ok _ => Ok tt
  end.

Definition CreateUser (u : User) : M unit :=
  r <-! attempt (insert_user u) ;; returns (conflict_if_unique r).

Definition DeactivateUser (id : string) (at_ : Time) : M unit :=
  transaction (
    tag <-? attempt (deactivate_user id at_) ;;
    _ <-? returns (affected tag ErrNotFound) ;;
    _ <-? attempt (revoke_where id (fun v => ses_UserID v = id) at_) ;;
    returns (Ok tt)).

Definition CreateSession (v : Session) : M unit :=
  _ <-? attempt (insert_session v) ;; returns (Ok tt).

Definition GetSession (token : string) : M Session :=
  find_row [HashToken token] (fun d => sessions d !! HashToken token).

Definition RevokeSession (token : string) (at_ : Time) : M unit :=
  tag <-? attempt (revoke_where (HashToken token) (fun v => ses_TokenHash v = HashToken token) at_) ;;
  returns (affected tag ErrNotFound).

Definition RevokeUserSessions (id : string) (at_ : Time) : M unit :=
  _ <-? attempt (revoke_where id (fun v => ses_UserID v = id) at_) ;; returns (Ok tt).

(** ** shipment.go *)

Definition CreateShipment (v : Shipment) : M unit :=
  r <-! attempt (insert_shipment v) ;; returns (conflict_if_unique r).

Definition shipment (texts : list string) (q : DB -> option Shipment) : M Shipment := find_row texts q.

(** [SELECT ... FROM shipments WHERE tenant_id=$1 AND id=$2] *)
Definition shipment_of (tenant id : string) (d : DB) : option Shipment :=
  s ← shipments d !! id; if decide (sh_TenantID s = tenant) then Some s else None.

Definition GetShipment (tenant id : string) : M Shipment :=
  shipment [tenant; id] (shipment_of tenant id).

Definition UpdateShipment (v : Shipment) (version : Z) : M unit :=
  tag <-? attempt (update_shipment v version) ;; returns (affected tag ErrConflict).

Definition ListShipments (tenant : string) (req : PageRequest) : M (Page Shipment) :=
  let req := Normalized req in
  let of_tenant d := filter (fun v => sh_TenantID v = tenant) (rows (shipments d)) in
  out <-? select [tenant] (fun d => first_rows sh_CreatedAt sh_ID (pr_Limit req) (of_tenant d)) ;;
  total <-? select_later [tenant] (fun d => Ok (Z.of_nat (length (of_tenant d)))) ;;
  _ <-? rows_Err ;;
  returns (Ok (mkPage out "" total)).

Definition FindByIdempotency (tenant key : string) : M Shipment :=
  shipment [tenant; key] (fun d => row_with (fun s => sh_TenantID s = tenant /\ sh_IdempotencyKey s = key)
    (shipments d)).

Definition CreateLeg (v : FlightLeg) : M unit :=
  _ <-? attempt (insert_leg v) ;; returns (Ok tt).

(** [SELECT ... FROM flight_legs WHERE tenant_id=$1 AND id=$2] *)
Definition leg_of (tenant id : string) (d : DB) : option FlightLeg :=
  l ← flight_legs d !! id; if decide (leg_TenantID l = tenant) then Some l else None.

Definition GetLeg (tenant id : string) : M FlightLeg := find_row [tenant; id] (leg_of tenant id).

Definition ReserveCapacity (tenant id : string) (weight version : Z) : M unit :=
  tag <-? attempt (reserve_leg tenant id version weight) ;; returns (affected tag ErrConflict).

Definition UpdateLegStatus (tenant id : string) (status : LegStatus) (version : Z) : M unit :=
  tag <-? attempt (set_leg_status tenant id version status) ;; returns (affected tag ErrConflict).

(** ** booking.go *)

(** The checks between the two reads and the two updates. *)
Definition booking_refused (shipment : Shipment) (leg : FlightLeg) (shipmentVersion legVersion : Z)
    : option error :=
  if decide (sh_Version shipment <> shipmentVersion \/ leg_Version leg <> legVersion)
  then Some ErrConflict else
  if negb (Shipment_CanTransition (sh_Status shipment) ShipmentBooked)
     || bool_decide (leg_Status leg <> LegOpen)
  then Some ErrState else
  if decide (sh_Origin shipment <> leg_Origin leg \/ sh_Destination shipment <> leg_Destination leg)
  then Some ErrInvalid else
  ValidateCapacity leg (sh_WeightKg shipment).

Definition BookShipment (tenant shipmentID legID : string) (shipmentVersion legVersion : Z)
    (at_ : Time) : M Shipment :=
  shipment <-? transaction (
    shipment <-? find_row [tenant; shipmentID] (shipment_of tenant shipmentID) ;;
    leg <-? find_row [tenant; legID] (leg_of tenant legID) ;;
    match booking_refused shipment leg shipmentVersion legVersion with
    | Some e => returns (Err e)
    | None =>
        _ <-? attempt (load_leg tenant legID (sh_WeightKg shipment)) ;;
        _ <-? attempt (book_shipment tenant shipmentID ShipmentBooked legID at_) ;;
        returns (Ok shipment)
    end) ;;
  returns (Ok (booked_on legID at_ shipment)).

(** ** compliance.go *)

Definition GetCustoms (id : string) : M CustomsCase :=
  find_row [id] (fun d => customs_cases d !! id).

Definition PutCustoms (v : CustomsCase) : M unit :=
  _ <-? attempt (put_customs v) ;; returns (Ok tt).

Definition GetSecurity (id : string) : M SecurityCheck :=
  find_row [id] (fun d => security_checks d !! id).

Definition PutSecurity (v : SecurityCheck) : M unit :=
  _ <-? attempt (put_security v) ;; returns (Ok tt).

(** ** audit.go *)

Definition AppendAudit (v : AuditEvent) : M unit :=
  _ <-? attempt (insert_audit v) ;; returns (Ok tt).

Definition ListAudit (tenant : string) (req : PageRequest) : M (Page AuditEvent) :=
  let req := Normalized req in
  out <-? select [tenant] (fun d => first_rows ae_OccurredAt ae_ID (pr_Limit req)
            (filter (fun v => ae_TenantID v = tenant) (rows (audit_events d)))) ;;
  _ <-? rows_Err ;;
  returns (Ok (mkPage out "" (Z.of_nat (length out)))).

(** ** outbox.go *)

Definition Enqueue (v : OutboxEvent) : M unit :=
  _ <-? attempt (insert_outbox v) ;; returns (Ok tt).

Definition Claim (order : list string) (now : Time) (n : Z) : M (list OutboxEvent) :=
  transaction (
    out <-? attempt (claim_outbox order now n) ;;
    _ <-? rows_Err ;;
    returns (Ok out)).

Definition MarkPublished (id : string) (at_ : Time) : M unit :=
  _ <-? attempt (publish_outbox id at_) ;; returns (Ok tt).

Definition MarkFailed (id : string) (at_ : Time) (msg : string) : M unit :=
  _ <-? attempt (fail_outbox id msg (time_Add at_ Minute)) ;; returns (Ok tt).

Definition Summary (tenant : string) : M (Z * Z) :=
  select [tenant] (fun d => Ok (count_outbox tenant d)).

(** [*Store] as the interface sees it. *)
#[global] Instance postgres_store : repository.Store Store := fun X op =>
  match op in storeop X return Store -> Store * X with
  | repository.GetUserByEmail email => GetUserByEmail email
  | repository.GetUser id => GetUser id
  | repository.CreateUser u => CreateUser u
  | repository.DeactivateUser id at_ => DeactivateUser id at_
  | repository.CreateSession v => CreateSession v
  | repository.GetSession token => GetSession token
  | repository.RevokeSession token at_ => RevokeSession token at_
  | repository.RevokeUserSessions user at_ => RevokeUserSessions user at_
  | repository.CreateShipment v => CreateShipment v
  | repository.GetShipment tenant id => GetShipment tenant id
  | repository.UpdateShipment v version => UpdateShipment v version
  | repository.ListShipments _ tenant req => ListShipments tenant req
  | repository.FindByIdempotency tenant key => FindByIdempotency tenant key
  | repository.CreateLeg v => CreateLeg v
  | repository.GetLeg tenant id => GetLeg tenant id
  | repository.ReserveCapacity tenant id weight version => ReserveCapacity tenant id weight version
  | repository.UpdateLegStatus tenant id status version => UpdateLegStatus tenant id status version
  | repository.BookShipment tenant shipmentID legID sv lv at_ =>
      BookShipment tenant shipmentID legID sv lv at_
  | repository.GetCustoms id => GetCustoms id
  | repository.PutCustoms v => PutCustoms v
  | repository.GetSecurity id => GetSecurity id
  | repository.PutSecurity v => PutSecurity v
  | repository.AppendAudit v => AppendAudit v
  | repository.ListAudit tenant req => ListAudit tenant req
  | repository.Enqueue v => Enqueue v
  | repository.Claim order now n => Claim order now n
  | repository.MarkPublished id at_ => MarkPublished id at_
  | repository.MarkFailed id at_ err => MarkFailed id at_ err
  | repository.Summary tenant => Summary tenant
  | repository.Ping => Ping
  end.
End methods.

(** ** What the driver does *)

Section driver.
Context {A B : Type}.
Implicit Types (s : Store) (m : M A).

Lemma next_fault_db s s' f : next_fault s = (s', f) ->
  db s' = db s /\ (faults s' ⊆ faults s) /\ (f <> Passes -> f ∈ faults s).
Proof.
  unfold next_fault. destruct s as [d [|g fs]]; intros [= <- <-]; simpl; [done|]. set_solver.
Qed.

Lemma attempt_inv (q : stmt A) s s' r : attempt q s = (s', r) ->
  match r with
  | Ok v => q (db s) = Ok (db s', v)
  | Err e => db s' = db s \/ (exists v, q (db s) = Ok (db s', v)) /\ Lost e ∈ faults s
  end.
Proof.
  unfold attempt. destruct (next_fault s) as [s1 f] eqn:Hf. apply next_fault_db in Hf as (Hd & _ & Hf).
  rewrite Hd. destruct f as [|e|e|d].
  - destruct (q (db s)) as [[d v]|e] eqn:Hq; intros [= <- <-]; auto.
  - intros [= <- <-]. auto.
  - destruct (q (db s)) as [[d v]|e'] eqn:Hq; intros [= <- <-]; simpl; [|auto].
    right. split; [by exists v|by apply Hf].
  - destruct (q (db s)) as [[d' v]|e] eqn:Hq; intros [= <- <-]; auto.
Qed.

Lemma query_inv texts (q : DB -> result A) d d' v :
  query texts q d = Ok (d', v) -> d' = d /\ q d = Ok v /\ valid_texts texts.
Proof. unfold query, bound. case_decide; [|done]. destruct (q d); intros [= <- <-]; done. Qed.

Lemma select_inv texts (q : DB -> result A) s s' r : select texts q s = (s', r) ->
  db s' = db s /\ forall v, r = Ok v -> q (db s) = Ok v.
Proof.
  intros Hs. apply attempt_inv in Hs. destruct r as [v|e].
  - apply query_inv in Hs as (-> & Hq & _). split; [done|]. by intros ? [= <-].
  - split; [|done]. destruct Hs as [?|[[v Hq] _]]; [done|]. by apply query_inv in Hq as (-> & _).
Qed.

Lemma rows_Err_inv s s' r : rows_Err s = (s', r) -> db s' = db s.
Proof. unfold rows_Err. destruct (next_fault s) eqn:Hf. apply next_fault_db in Hf as [Hd _]. by intros [= <- _]. Qed.

Lemma select_later_inv texts (q : DB -> result A) s s' r : select_later texts q s = (s', r) -> db s' = db s.
Proof.
  unfold select_later. destruct (next_fault s) as [s1 f] eqn:Hf. apply next_fault_db in Hf as [Hd _].
  by destruct f; intros [= <- _].
Qed.

Lemma ok_bind_inv m (k : A -> M B) s s' r : ok_bind m k s = (s', r) ->
  (exists e, m s = (s', Err e) /\ r = Err e) \/
  (exists s1 a, m s = (s1, Ok a) /\ k a s1 = (s', r)).
Proof.
  unfold ok_bind. destruct (m s) as [s1 [a|e]]; [by right; eauto|]. intros [= <- <-]. by left; eauto.
Qed.

Lemma result_bind_inv m (k : result A -> M B) s s' r : result_bind m k s = (s', r) ->
  exists s1 a, m s = (s1, a) /\ k a s1 = (s', r).
Proof. unfold result_bind. destruct (m s) as [s1 a]. by eauto. Qed.

(** A transaction that succeeds has run its body; one that fails has left nothing of
    it, or all of it when the acknowledgement of the commit was lost. *)
Lemma transaction_inv m s s' r : transaction m s = (s', r) ->
  let ran v := exists s1 s2, db s1 = db s /\ faults s1 ⊆ faults s /\ m s1 = (s2, Ok v) /\ db s' = db s2 in
  match r with
  | Ok v => ran v
  | Err e => db s' = db s \/ exists v s2 s1, db s1 = db s /\ faults s1 ⊆ faults s /\
      m s1 = (s2, Ok v) /\ db s' = db s2 /\ Lost e ∈ faults s2
  end.
Proof.
  unfold transaction. destruct (next_fault s) as [s1 f] eqn:Hf. apply next_fault_db in Hf as (Hd & Hfs & _).
  assert (Hbody : (let '(s', r) := m s1 in
    match r with
    | Err e => (mkStore (db s1) (faults s'), Err e)
    | Ok v => let '(s', f) := next_fault s' in
        match f with
        | Refused e => (mkStore (db s1) (faults s'), Err e)
        | Lost e => (s', Err e)
        | Passes | Later _ => (s', Ok v)
        end
    end) = (s', r) ->
    match r with
    | Ok v => exists s1 s2, db s1 = db s /\ faults s1 ⊆ faults s /\ m s1 = (s2, Ok v) /\ db s' = db s2
    | Err e => db s' = db s \/ exists v s2 s1, db s1 = db s /\ faults s1 ⊆ faults s /\
        m s1 = (s2, Ok v) /\ db s' = db s2 /\ Lost e ∈ faults s2
    end).
  { destruct (m s1) as [s2 [v|e]] eqn:Hm; [|intros [= <- <-]; by left].
    destruct (next_fault s2) as [s3 g] eqn:Hg. apply next_fault_db in Hg as (Hd3 & _ & Hg).
    destruct g as [|e|e|d]; intros [= <- <-]; [by exists s1, s2|by left| |by exists s1, s2].
    right. exists v, s2, s1. split_and!; auto. }
  destruct f as [|e|e|d]; [exact Hbody|by intros [= <- <-]; left..|exact Hbody].
Qed.
End driver.

(** ** Statements while nothing fails *)

Lemma attempt_quiet {A} (q : stmt A) d :
  attempt q (quiet d) =
  match q d with Ok (d', v) => (quiet d', Ok v) | Err e => (quiet d, Err e) end.
Proof. unfold attempt; simpl. by destruct (q d) as [[]|]. Qed.

(** [texts] proves that the texts of a list are valid, the constant ones by evaluation. *)
Ltac texts :=
  repeat (apply Forall_cons_2;
    [first [assumption | by apply (bool_decide_unpack _); vm_compute]|]); apply Forall_nil_2.

(** The texts of a list, one by one. *)
Ltac split_texts H :=
  simpl in H; unfold valid_texts, user_texts, session_texts, leg_texts, shipment_texts, customs_texts, security_texts in H;
  simpl in H;
  rewrite ?Forall_cons in H; destruct_and? H.

Lemma bound_valid {A} texts (q : stmt A) d : valid_texts texts -> bound texts q d = q d.
Proof. intros Ht. unfold bound. by rewrite decide_True. Qed.

Lemma select_quiet {A} texts (q : DB -> result A) d :
  valid_texts texts -> select texts q (quiet d) = (quiet d, q d).
Proof.
  intros Ht. unfold select, query. rewrite attempt_quiet, bound_valid by done. by destruct (q d).
Qed.

Lemma select_later_quiet {A} texts (q : DB -> result A) d :
  valid_texts texts -> select_later texts q (quiet d) = (quiet d, q d).
Proof.
  intros Ht. unfold select_later, next_fault. cbn [faults quiet db].
  change (mkStore d []) with (quiet d). by rewrite select_quiet.
Qed.

Lemma find_row_quiet {A} texts (q : DB -> option A) d : valid_texts texts ->
  find_row texts q (quiet d) =
  (quiet d, match q d with Some v => Ok v | None => Err ErrNotFound end).
Proof.
  intros Ht. unfold find_row, query_row, result_bind. rewrite select_quiet by done.
  destruct (q d); [done|]. reflexivity.
Qed.

Lemma transaction_quiet {A} (body : M A) d d' r :
  body (quiet d) = (quiet d', r) ->
  transaction body (quiet d) = match r with Ok _ => (quiet d', r) | Err _ => (quiet d, r) end.
Proof. unfold transaction; simpl. intros ->. by destruct r. Qed.

(** ** Methods keep the constraints *)

Definition keeps_db {A} (m : M A) : Prop :=
  forall s s' r, consistent (db s) -> m s = (s', r) -> consistent (db s').

Section keeps_db.
Context {A B : Type}.

Lemma attempt_keeps (q : stmt A) : keeps q -> keeps_db (attempt q).
Proof.
  intros Hq s s' r Hs Hr. apply attempt_inv in Hr. destruct r; [by eapply Hq|].
  destruct Hr as [->|[[v Hr] _]]; [done|by eapply Hq].
Qed.

Lemma select_keeps texts (q : DB -> result A) : keeps_db (select texts q).
Proof. intros s s' r Hs [Hd _]%select_inv. congruence. Qed.

Lemma select_later_keeps texts (q : DB -> result A) : keeps_db (select_later texts q).
Proof. intros s s' r Hs Hd%select_later_inv. congruence. Qed.

Lemma rows_Err_keeps : keeps_db rows_Err.
Proof. intros s s' r Hs Hd%rows_Err_inv. congruence. Qed.

Lemma returns_keeps (r : result A) : keeps_db (returns r).
Proof. by intros s s' x Hs [= <- <-]. Qed.

Lemma ok_bind_keeps (m : M A) (k : A -> M B) :
  keeps_db m -> (forall a, keeps_db (k a)) -> keeps_db (ok_bind m k).
Proof.
  intros Hm Hk s s' r Hs [(e & Hr & _)|(s1 & a & H1 & H2)]%ok_bind_inv; [by eapply Hm|].
  eapply Hk; [|done]. by eapply Hm.
Qed.

Lemma result_bind_keeps (m : M A) (k : result A -> M B) :
  keeps_db m -> (forall a, keeps_db (k a)) -> keeps_db (result_bind m k).
Proof.
  intros Hm Hk s s' r Hs (s1 & a & H1 & H2)%result_bind_inv. eapply Hk; [|done]. by eapply Hm.
Qed.

Lemma transaction_keeps (m : M A) : keeps_db m -> keeps_db (transaction m).
Proof.
  intros Hm s s' r Hs Hr. apply transaction_inv in Hr.
  assert (Hran : forall s1 s2 v, db s1 = db s -> m s1 = (s2, Ok v) -> db s' = db s2 -> consistent (db s')).
  { intros s1 s2 v H1 H2 ->. eapply Hm; [|exact H2]. congruence. }
  destruct r as [v|e]; [by destruct Hr as (s1 & s2 & ? & _ & ? & ?); eauto|].
  destruct Hr as [->|(v & s2 & s1 & ? & _ & ? & ? & _)]; eauto.
Qed.
End keeps_db.

Lemma find_row_keeps {A} texts (q : DB -> option A) : keeps_db (find_row texts q).
Proof. apply result_bind_keeps; [apply select_keeps|]. intros r. apply returns_keeps. Qed.

#[export] Hint Resolve attempt_keeps select_keeps select_later_keeps rows_Err_keeps returns_keeps ok_bind_keeps
  result_bind_keeps find_row_keeps transaction_keeps : go.
#[export] Hint Extern 1 (keeps_db (match ?x with _ => _ end)) => destruct x : go.

Section contract.
Context `{External} `{Server}.

(** Every method keeps the constraints of the schema, whatever the environment does. *)
Lemma exec_consistent X (op : storeop X) s s' x :
  consistent (db s) -> exec op s = (s', x) -> consistent (db s').
Proof.
  intros Hs Hop.
  assert (Hrun : forall A (m : M A) r, keeps_db m -> m s = (s', r) -> consistent (db s')).
  { intros A m r Hm Hr. by eapply Hm. }
  destruct op; (eapply Hrun; [|exact Hop]); simpl;
    eauto 20 with go.
Qed.

(** ** A method that fails

    A method that reports an error has changed nothing, or, when the acknowledgement of
    its one change was lost, has done all it does when nothing fails. *)

(** What succeeds does the same when nothing fails. *)
Definition calm {A} (m : M A) : Prop :=
  forall s s' v, m s = (s', Ok v) -> m (quiet (db s)) = (quiet (db s'), Ok v).

(** What runs meets no fault that was not to come. *)
Definition consumes {A} (m : M A) : Prop := forall s s' r, m s = (s', r) -> faults s' ⊆ faults s.

Definition whole {A} (m : M A) : Prop := forall s s' e, m s = (s', Err e) ->
  db s' = db s \/
  (exists v, m (quiet (db s)) = (quiet (db s'), Ok v)) /\ exists e', Lost e' ∈ faults s.

Lemma attempt_calm {A} (q : stmt A) : calm (attempt q).
Proof. intros s s' v Hr%attempt_inv. by rewrite attempt_quiet, Hr. Qed.

Lemma returns_calm {A} (r : result A) : calm (returns r).
Proof. by intros s s' v [= <- ->]. Qed.

Lemma ok_bind_calm {A B} (m : M A) (k : A -> M B) :
  calm m -> (forall a, calm (k a)) -> calm (ok_bind m k).
Proof.
  intros Hm Hk s s' v [(e & _ & ?)|(s1 & a & H1%Hm & H2%Hk)]%ok_bind_inv; [done|].
  unfold ok_bind. by rewrite H1.
Qed.

Lemma handled_calm {A B} (m : M A) (f : result A -> result B) :
  calm m -> (forall v e, f (Err e) <> Ok v) -> calm (r <-! m ;; returns (f r)).
Proof.
  intros Hm Hf s s' v (s1 & [a|e] & Hr & [= <- Hfe])%result_bind_inv; [|by destruct (Hf v e)].
  unfold result_bind. rewrite (Hm _ _ _ Hr). by rewrite <- Hfe.
Qed.

Lemma rows_Err_calm : calm rows_Err.
Proof.
  intros s s' []. unfold rows_Err. destruct (next_fault s) as [s1 f] eqn:Hf.
  apply next_fault_db in Hf as [<- _]. by intros [= <- _].
Qed.

Lemma find_row_calm {A} texts (q : DB -> option A) : calm (find_row texts q).
Proof.
  apply handled_calm; [apply attempt_calm|]. intros v e. simpl. by destruct (errors_Is e ErrNoRows).
Qed.

Lemma attempt_consumes {A} (q : stmt A) : consumes (attempt q).
Proof.
  intros s s' r. unfold attempt. destruct (next_fault s) as [s1 f] eqn:Hf.
  apply next_fault_db in Hf as (_ & Hfs & _). by destruct f; intros [= <- _].
Qed.

Lemma returns_consumes {A} (r : result A) : consumes (returns r).
Proof. by intros s s' x [= <- _]. Qed.

Lemma ok_bind_consumes {A B} (m : M A) (k : A -> M B) :
  consumes m -> (forall a, consumes (k a)) -> consumes (ok_bind m k).
Proof.
  intros Hm Hk s s' r [(e & Hr & _)|(s1 & a & H1%Hm & H2%Hk)]%ok_bind_inv; [by eapply Hm|set_solver].
Qed.

Lemma result_bind_consumes {A B} (m : M A) (k : result A -> M B) :
  consumes m -> (forall a, consumes (k a)) -> consumes (result_bind m k).
Proof. intros Hm Hk s s' r (s1 & a & H1%Hm & H2%Hk)%result_bind_inv. set_solver. Qed.

Lemma rows_Err_consumes : consumes rows_Err.
Proof.
  intros s s' r. unfold rows_Err. destruct (next_fault s) as [s1 f] eqn:Hf.
  apply next_fault_db in Hf as (_ & Hfs & _). by intros [= <- _].
Qed.

Lemma find_row_consumes {A} texts (q : DB -> option A) : consumes (find_row texts q).
Proof. apply result_bind_consumes; [apply attempt_consumes|]. intros r. apply returns_consumes. Qed.

Lemma attempt_whole {A} (q : stmt A) : whole (attempt q).
Proof.
  intros s s' e [Hd|[[v Hq] Hl]]%attempt_inv; [by left|right].
  split; [exists v; by rewrite attempt_quiet, Hq|by exists e].
Qed.

Lemma transaction_whole {A} (m : M A) : calm m -> consumes m -> whole (transaction m).
Proof.
  intros Hm Hc s s' e [Hd|(v & s2 & s1 & Hd1 & Hf1 & Hr & Hd2 & Hl)]%transaction_inv; [by left|right].
  split; [|exists e; apply Hc in Hr; set_solver].
  exists v. apply Hm in Hr. rewrite Hd1 in Hr. by rewrite (transaction_quiet _ _ _ _ Hr), Hd2.
Qed.

Lemma then_ok_whole {A B} (m : M A) (v : A -> B) : whole m -> whole (x <-? m ;; returns (Ok (v x))).
Proof.
  intros Hm s s' e [(e1 & Hr & _)|(s1 & a & Hr & Hk)]%ok_bind_inv; [|by simplify_eq].
  destruct (Hm _ _ _ Hr) as [Hd|[[a Hq] Hl]]; [by left|right].
  split; [|done]. exists (v a). unfold ok_bind. by rewrite Hq.
Qed.

(** What only handles a result adds no change. *)
Lemma handled_whole {A B} (m : M A) (f : result A -> result B) :
  whole m -> (forall v, exists w, f (Ok v) = Ok w) -> whole (r <-! m ;; returns (f r)).
Proof.
  intros Hm Hf s s' e (s1 & [v|e1] & Hr & [= <- Hfe])%result_bind_inv.
  { destruct (Hf v) as [w Hw]. congruence. }
  destruct (Hm _ _ _ Hr) as [Hd|[[a Hq] Hl]]; [by left|right].
  split; [|done]. destruct (Hf a) as [w Hw]. exists w. unfold result_bind. rewrite Hq. by rewrite <- Hw.
Qed.

(** An update that affects no row. *)
Definition counts (q : stmt Z) : Prop := forall d d', q d = Ok (d', 0) -> d' = d.

Lemma affected_whole (q : stmt Z) e :
  counts q -> whole (tag <-? attempt q ;; returns (affected tag e)).
Proof.
  intros Hq s s' e' [(e1 & Hr & _)|(s1 & a & Hr & Hk)]%ok_bind_inv; apply attempt_inv in Hr.
  - destruct Hr as [Hd|[[n Hr] Hl]]; [by left|].
    destruct (decide (n = 0)) as [->|Hn]; [left; by apply Hq|right]. split; [|by exists e1].
    exists tt. unfold ok_bind. rewrite attempt_quiet, Hr. unfold affected, returns. by rewrite decide_False.
  - left. unfold affected, returns in Hk. case_decide; simplify_eq. by apply Hq.
Qed.

(** What only reads changes nothing at all. *)
Definition only_reads {A} (m : M A) : Prop := forall s s' r, m s = (s', r) -> db s' = db s.

Lemma select_reads {A} texts (q : DB -> result A) : only_reads (select texts q).
Proof. by intros s s' r [Hd _]%select_inv. Qed.

Lemma select_later_reads {A} texts (q : DB -> result A) : only_reads (select_later texts q).
Proof. intros s s' r. apply select_later_inv. Qed.

Lemma rows_Err_reads : only_reads rows_Err.
Proof. intros s s' r. apply rows_Err_inv. Qed.

Lemma returns_reads {A} (r : result A) : only_reads (returns r).
Proof. by intros s s' x [= <- _]. Qed.

Lemma ok_bind_reads {A B} (m : M A) (k : A -> M B) :
  only_reads m -> (forall a, only_reads (k a)) -> only_reads (ok_bind m k).
Proof.
  intros Hm Hk s s' r [(e & Hr & _)|(s1 & a & H1 & H2)]%ok_bind_inv; [by eapply Hm|].
  apply Hk in H2 as ->. by eapply Hm.
Qed.

Lemma only_reads_whole {A} (m : M A) : only_reads m -> whole m.
Proof. intros Hm s s' e Hr. left. by eapply Hm. Qed.

(** A query for the row of a table leaves the tables alone. *)
Lemma find_row_inv {A} texts (q : DB -> option A) s s' r :
  find_row texts q s = (s', r) ->
  db s' = db s /\ forall v, r = Ok v -> q (db s) = Some v.
Proof.
  intros (s1 & x & [Hd Hx]%select_inv & [= <- <-])%result_bind_inv. split; [done|].
  intros v Hv. destruct x as [w|e]; simpl in Hv; [|by destruct (errors_Is e ErrNoRows)].
  specialize (Hx w eq_refl). destruct (q (db s)); congruence.
Qed.

Lemma find_row_reads {A} texts (q : DB -> option A) : only_reads (find_row texts q).
Proof. by intros s s' r [Hd _]%find_row_inv. Qed.

Lemma revoke_where_counts arg P `{!forall v, Decision (P v)} at_ : counts (revoke_where arg P at_).
Proof.
  unfold revoke_where, bound. intros d d'. case_decide; [|done]. intros [= <- Hn].
  assert (Hm : (fun v => if decide (P v /\ ses_RevokedAt v = None)
    then set_ses_RevokedAt (Some (timestamptz at_)) v else v) <$> sessions d = sessions d).
  { apply map_eq. intros h. rewrite lookup_fmap. destruct (sessions d !! h) as [v|] eqn:Hv; [|done].
    simpl. f_equal. case_decide as Hp; [|done]. exfalso.
    assert (Hin : v ∈ filter (fun v => P v /\ ses_RevokedAt v = None) (rows (sessions d))).
    { apply list_elem_of_filter. split; [done|]. apply elem_of_rows. by exists h. }
    apply list_elem_of_In, in_split in Hin as (l1 & l2 & Hl). rewrite Hl, length_app in Hn. simpl in Hn. lia. }
  rewrite Hm. by destruct d.
Qed.

Lemma update_shipment_counts v version : counts (update_shipment v version).
Proof. intros d d' Hq. unfold update_shipment in Hq. sql_inv Hq; destruct_and?; by simplify_eq. Qed.

Lemma reserve_leg_counts tenant id version weight : counts (reserve_leg tenant id version weight).
Proof. intros d d' Hq. unfold reserve_leg, store_leg in Hq. sql_inv Hq; destruct_and?; by simplify_eq. Qed.

Lemma set_leg_status_counts tenant id version status : counts (set_leg_status tenant id version status).
Proof. intros d d' Hq. unfold set_leg_status, store_leg in Hq. sql_inv Hq; destruct_and?; by simplify_eq. Qed.

(** The bodies of the three transactions. *)
Create HintDb pg.
Create HintDb reads.
#[local] Hint Resolve attempt_calm returns_calm ok_bind_calm rows_Err_calm find_row_calm attempt_consumes
  returns_consumes ok_bind_consumes rows_Err_consumes find_row_consumes : pg.
#[local] Hint Extern 1 (calm (match ?x with _ => _ end)) => destruct x : pg.
#[local] Hint Extern 1 (consumes (match ?x with _ => _ end)) => destruct x : pg.
#[local] Hint Resolve transaction_whole then_ok_whole attempt_whole affected_whole revoke_where_counts
  update_shipment_counts reserve_leg_counts set_leg_status_counts : pg.
#[local] Hint Resolve only_reads_whole find_row_reads select_reads select_later_reads rows_Err_reads
  returns_reads ok_bind_reads : reads.

Lemma conflict_whole (q : stmt Z) : whole (r <-! attempt q ;; returns (conflict_if_unique r)).
Proof. apply handled_whole; [apply attempt_whole|]. intros v. by exists tt. Qed.

Lemma BookShipment_whole tenant sid lid sv lv at_ : whole (BookShipment tenant sid lid sv lv at_).
Proof. apply (then_ok_whole _ (booked_on lid at_)), transaction_whole; eauto 20 with pg. Qed.

(** A method that returns an error has changed nothing, or what it changes when nothing
    fails. *)
Lemma pg_exec_failed X (op : storeop X) s s' x e :
  exec op s = (s', x) -> op_error op x = Some e ->
  db s' = db s \/
  (exists y, exec op (quiet (db s)) = (quiet (db s'), y) /\ op_error op y = None) /\
  exists e', Lost e' ∈ faults s.
Proof.
  assert (Hrun : forall A (m : M A) r, whole m -> m s = (s', r) -> result_error r = Some e ->
    db s' = db s \/ (exists y, m (quiet (db s)) = (quiet (db s'), y) /\ result_error y = None) /\
    exists e', Lost e' ∈ faults s).
  { intros A m [v|e1] Hm Hr; [done|]. intros _.
    destruct (Hm _ _ _ Hr) as [?|[[v Hq] Hl]]; [by left|right]. split; [by exists (Ok v)|done]. }
  intros Hop He. destruct op; simpl in He; (eapply Hrun; [|exact Hop|exact He]); simpl;
    first [solve [eauto 12 with pg] | apply conflict_whole | apply BookShipment_whole | solve [eauto 12 with reads]].
Qed.

(** ** The contract *)

Definition tables_of (d : DB) : tables :=
  mkTables (users d) (sessions d) (shipments d) (flight_legs d) (customs_cases d)
    (security_checks d).

Definition view (s : Store) : tables := tables_of (db s).

Lemma view_db s s' : db s' = db s -> view s' = view s.
Proof. unfold view. by intros ->. Qed.

(** What each statement does to the tables, in the words of the contract. *)
Ltac stmt_post d Hq :=
  sql_inv Hq; destruct_and?; simplify_eq; try done; destruct d; unfold tables_of; simpl in *.

Lemma insert_user_post u d d' n : insert_user u d = Ok (d', n) ->
  exists c e, tables_of d' =
    set_users (<[u_ID u := retimed_user c e u]> (users d)) (tables_of d).
Proof. intros Hq. destruct u. unfold insert_user in Hq. stmt_post d Hq. by do 2 eexists. Qed.

Lemma deactivate_user_post id at_ d d' n : deactivate_user id at_ d = Ok (d', n) -> n <> 0 ->
  exists u, users d !! id = Some u /\ tables_of d' =
    set_users (<[id := deactivated (timestamptz at_) u]> (users d)) (tables_of d).
Proof. intros Hq Hn. unfold deactivate_user in Hq. stmt_post d Hq. by eexists. Qed.

Lemma insert_session_post v d d' n : insert_session v d = Ok (d', n) ->
  exists x r c, tables_of d' =
    set_sessions (<[ses_TokenHash v := retimed_session x r c v]> (sessions d)) (tables_of d).
Proof. intros Hq. destruct v. unfold insert_session in Hq. stmt_post d Hq. by do 3 eexists. Qed.

Lemma revoke_where_post arg P `{!forall v, Decision (P v)} at_ d d' n :
  revoke_where arg P at_ d = Ok (d', n) ->
  exists m, revokes P (sessions d) m /\ tables_of d' = set_sessions m (tables_of d).
Proof.
  unfold revoke_where, bound. case_decide; [|done]. intros [= <- _]. exists ((fun v =>
    if decide (P v /\ ses_RevokedAt v = None) then set_ses_RevokedAt (Some (timestamptz at_)) v
    else v) <$> sessions d). split; [|by destruct d].
  intros h. rewrite lookup_fmap. destruct (sessions d !! h) as [v|]; [|done]. simpl.
  eexists. split; [done|]. case_decide as Hp.
  - split; [by destruct Hp|]. intros _. by destruct v.
  - split; [done|]. intros Hv. split; [naive_solver|by destruct v].
Qed.

Lemma insert_shipment_post v d d' n : insert_shipment v d = Ok (d', n) ->
  shipments d !! sh_ID v = None /\ exists c u, tables_of d' =
    set_shipments (<[sh_ID v := retimed_shipment c u v]> (shipments d)) (tables_of d).
Proof.
  intros Hq. destruct v. unfold insert_shipment in Hq. stmt_post d Hq.
  split; [by apply eq_None_not_Some|]. by do 2 eexists.
Qed.

Lemma update_shipment_post v version d d' n :
  consistent d -> update_shipment v version d = Ok (d', n) -> n <> 0 ->
  exists old key c u, shipments d !! sh_ID v = Some old /\ sh_Version old = version /\
    (key = sh_IdempotencyKey v \/ key = sh_IdempotencyKey old) /\
    tables_of d' = set_shipments (<[sh_ID v := set_sh_Version (add64 version 1)
      (rekeyed key (retimed_shipment c u v))]> (shipments d)) (tables_of d).
Proof.
  intros Hd Hq Hn. unfold update_shipment, bound in Hq. case_decide; [|done].
  destruct (shipments d !! sh_ID v) as [r|] eqn:E; [|by repeat case_decide; simplify_eq].
  pose proof (shipments_rows _ Hd _ _ E) as (Hid & _). clear Hd.
  exists r, (sh_IdempotencyKey r), (sh_CreatedAt r), (timestamptz (sh_UpdatedAt v)).
  destruct r, v. stmt_post d Hq. split_and!; [done|done|by right|]. by rewrite add64_exact, Hid by done.
Qed.

Lemma insert_leg_post v d d' n : insert_leg v d = Ok (d', n) ->
  flight_legs d !! leg_ID v = None /\ exists e a c, tables_of d' =
    set_legs (<[leg_ID v := retimed_leg e a c v]> (flight_legs d)) (tables_of d).
Proof.
  intros Hq. destruct v. unfold insert_leg in Hq. stmt_post d Hq.
  split; [by apply eq_None_not_Some|]. by do 3 eexists.
Qed.

(** The row an update of a leg leaves. *)
Lemma store_leg_post id l w version st d d' n : store_leg id l w version st d = Ok (d', n) ->
  in_int64 w /\ in_int64 version /\ tables_of d' =
    set_legs (<[id := set_leg_Version version (set_leg_Status st (set_leg_ReservedKg w l))]>
      (flight_legs d)) (tables_of d).
Proof. intros Hq. unfold store_leg in Hq. stmt_post d Hq. by split_and!. Qed.

Lemma reserve_leg_post tenant id version weight d d' n :
  reserve_leg tenant id version weight d = Ok (d', n) -> n <> 0 ->
  exists l, flight_legs d !! id = Some l /\ leg_TenantID l = tenant /\ leg_Version l = version /\
    add64 (leg_ReservedKg l) weight <= leg_CapacityKg l /\
    tables_of d' = set_legs (<[id := reserved_on weight l]> (flight_legs d)) (tables_of d).
Proof.
  intros Hq Hn. unfold reserve_leg, bound in Hq. case_decide; [|done].
  destruct (flight_legs d !! id) as [l|] eqn:Hl; [|by simplify_eq].
  repeat case_decide; simplify_eq. destruct_and!.
  apply store_leg_post in Hq as (Hw & Hv & ->). unfold reserved_on.
  eexists. rewrite !add64_exact by done. split_and!; [done..|]. by destruct l.
Qed.

Lemma set_leg_status_post tenant id version status d d' n :
  set_leg_status tenant id version status d = Ok (d', n) -> n <> 0 ->
  exists l, flight_legs d !! id = Some l /\ leg_TenantID l = tenant /\ leg_Version l = version /\
    tables_of d' = set_legs (<[id := set_leg_Version (add64 version 1) (set_leg_Status status l)]>
      (flight_legs d)) (tables_of d).
Proof.
  intros Hq Hn. unfold set_leg_status, bound in Hq. case_decide; [|done].
  destruct (flight_legs d !! id) as [l|] eqn:Hl; [|by simplify_eq].
  case_decide; simplify_eq. destruct_and!.
  apply store_leg_post in Hq as (Hw & Hv & ->). subst.
  eexists. rewrite add64_exact by done. split_and!; [done..|]. by destruct l.
Qed.

Lemma load_leg_post tenant id weight l d d' n :
  leg_of tenant id d = Some l -> load_leg tenant id weight d = Ok (d', n) ->
  tables_of d' = set_legs (<[id := reserved_on weight l]> (flight_legs d)) (tables_of d).
Proof.
  unfold leg_of, load_leg, bound. destruct (flight_legs d !! id) as [l'|]; [simpl|done].
  case_decide; [|done]. case_decide; [|done]. intros [= ->] (Hw & Hv & ->)%store_leg_post.
  unfold reserved_on. rewrite !add64_exact by done. by destruct l.
Qed.

Lemma book_shipment_post tenant id legID at_ s d d' n :
  shipment_of tenant id d = Some s ->
  book_shipment tenant id ShipmentBooked legID at_ d = Ok (d', n) ->
  tables_of d' = set_shipments (<[id := booked_on legID (timestamptz at_) s]> (shipments d))
    (tables_of d).
Proof.
  unfold shipment_of, book_shipment, bound. intros Hs Hq. case_decide; [|done].
  destruct (shipments d !! id) as [s'|]; [simpl in Hs|done].
  case_decide; [|done]. simplify_eq. unfold booked_on. stmt_post d Hq. by rewrite add64_exact.
Qed.

(** Updates of legs do not touch the shipments. *)
Lemma load_leg_shipments tenant id weight d d' n :
  load_leg tenant id weight d = Ok (d', n) -> shipments d' = shipments d.
Proof. intros Hq. unfold load_leg, store_leg in Hq. stmt_post d Hq; done. Qed.

Lemma shipment_of_Some tenant id d s :
  shipment_of tenant id d = Some s <-> shipments d !! id = Some s /\ sh_TenantID s = tenant.
Proof.
  unfold shipment_of. destruct (shipments d !! id); simpl; [case_decide|]; naive_solver.
Qed.

Lemma leg_of_Some tenant id d l :
  leg_of tenant id d = Some l <-> flight_legs d !! id = Some l /\ leg_TenantID l = tenant.
Proof. unfold leg_of. destruct (flight_legs d !! id); simpl; [case_decide|]; naive_solver. Qed.

Lemma booking_refused_None s l sv lv :
  booking_refused s l sv lv = None <->
  sh_Version s = sv /\ leg_Version l = lv /\
  Shipment_CanTransition (sh_Status s) ShipmentBooked = true /\ leg_Status l = LegOpen /\
  sh_Origin s = leg_Origin l /\ sh_Destination s = leg_Destination l /\
  ValidateCapacity l (sh_WeightKg s) = None.
Proof.
  unfold booking_refused. case_decide as Hv; [naive_solver|].
  destruct (Shipment_CanTransition (sh_Status s) ShipmentBooked); simpl; [|naive_solver].
  case_bool_decide as Hst; [naive_solver|]. case_decide as Hr; [naive_solver|].
  apply Decidable.not_or in Hv as [Hv1%dec_stable Hv2%dec_stable], Hr as [Hr1%dec_stable Hr2%dec_stable].
  naive_solver.
Qed.

(** *** The methods *)

Lemma ok_bind_Ok {A B} (m : M A) (k : A -> M B) s s' v :
  ok_bind m k s = (s', Ok v) -> exists s1 a, m s = (s1, Ok a) /\ k a s1 = (s', Ok v).
Proof. intros [(e & _ & ?)|Hk]%ok_bind_inv; [done|exact Hk]. Qed.

Lemma affected_Ok {A} n e (s s' : A) : (s, affected n e) = (s', Ok tt) -> n <> 0 /\ s' = s.
Proof. unfold affected. case_decide; naive_solver. Qed.

(** [exec_inv Hop] follows the statements of a method that succeeded. *)
Ltac ok_step Hop :=
  let a := fresh "a" in let Hq := fresh "Hq" in
  apply ok_bind_Ok in Hop as (? & a & Hq & Hop).

Lemma find_row_post {A} texts (q : DB -> option A) (P : tables -> A -> Prop) s s' r :
  find_row texts q s = (s', r) ->
  (forall v, q (db s) = Some v -> P (view s) v) -> reads P (view s) r (view s').
Proof.
  intros [Hd Hr]%find_row_inv HP. split; [by apply view_db|]. intros v Hv. apply HP. by apply Hr.
Qed.

Lemma pg_ListShipments_post tenant req s s' r :
  consistent (db s) -> ListShipments tenant req s = (s', r) ->
  reads (fun t p => forall v, v ∈ pg_Items p ->
    tb_shipments t !! sh_ID v = Some v /\ sh_TenantID v = tenant) (view s) r (view s').
Proof.
  intros Hs Hop. assert (Hd : db s' = db s).
  { revert Hop. apply ok_bind_reads; [apply select_reads|]. intros out.
    apply ok_bind_reads; [apply select_later_reads|]. intros n.
    apply ok_bind_reads; [apply rows_Err_reads|]. intros u. apply returns_reads. }
  split; [by apply view_db|]. intros p ->. unfold ListShipments in Hop. cbv zeta in Hop.
  do 3 ok_step Hop. injection Hop as _ <-. simpl.
  apply select_inv in Hq as [_ Hq]. specialize (Hq _ eq_refl).
  unfold first_rows in Hq. case_decide; [done|]. injection Hq as <-.
  intros v Hv. assert (Hv' : v ∈ filter (fun v => sh_TenantID v = tenant) (rows (shipments (db s)))).
  { rewrite <- SliceStable_perm, <- (take_drop (Z.to_nat (pr_Limit (Normalized req)))).
    apply elem_of_app. by left. }
  apply list_elem_of_filter in Hv' as [Ht (k & Hk)%elem_of_rows]. split; [|done].
  pose proof (shipments_rows _ Hs _ _ Hk) as (-> & _). done.
Qed.

Lemma pg_BookShipment_post tenant sid lid sv lv at_ s s' v :
  BookShipment tenant sid lid sv lv at_ s = (s', Ok v) ->
  exists sh l, shipment_of tenant sid (db s) = Some sh /\ leg_of tenant lid (db s) = Some l /\
    booking_refused sh l sv lv = None /\ v = booked_on lid at_ sh /\
    view s' = set_shipments (<[sid := booked_on lid (timestamptz at_) sh]> (shipments (db s)))
      (set_legs (<[lid := reserved_on (sh_WeightKg sh) l]> (flight_legs (db s))) (view s)).
Proof.
  unfold BookShipment. intros Hop. ok_step Hop. injection Hop as <- <-.
  apply transaction_inv in Hq as (s1 & s2 & Hd1 & _ & Hq & Hd2).
  unfold view. rewrite Hd2, <- Hd1. clear Hd1 Hd2.
  ok_step Hq. apply find_row_inv in Hq0 as [Hd1 Hsh]. specialize (Hsh _ eq_refl).
  ok_step Hq. apply find_row_inv in Hq0 as [Hd2 Hl]. specialize (Hl _ eq_refl).
  rewrite Hd1 in Hl, Hd2. destruct (booking_refused _ _ _ _) eqn:Href; [done|].
  do 2 ok_step Hq. injection Hq as <- <-. apply attempt_inv in Hq0, Hq1.
  rewrite Hd2 in Hq0. exists a0, a1. split_and!; [done..|].
  pose proof (load_leg_shipments _ _ _ _ _ _ Hq0) as Hsame.
  assert (Hsh' : shipment_of tenant sid (db x2) = Some a0)
    by (unfold shipment_of in *; by rewrite Hsame).
  rewrite (book_shipment_post _ _ _ _ _ _ _ _ Hsh' Hq1), Hsame. f_equal.
  by eapply load_leg_post.
Qed.

Lemma pg_DeactivateUser_post id at_ s s' :
  DeactivateUser id at_ s = (s', Ok tt) ->
  exists u m, users (db s) !! id = Some u /\ revokes (fun v => ses_UserID v = id) (sessions (db s)) m /\
    view s' = set_sessions m
      (set_users (<[id := deactivated (timestamptz at_) u]> (users (db s))) (view s)).
Proof.
  unfold DeactivateUser. intros Hop.
  apply transaction_inv in Hop as (s1 & s2 & Hd1 & _ & Hop & Hd2). unfold view. rewrite Hd2, <- Hd1.
  clear Hd1 Hd2. do 3 ok_step Hop. injection Hop as ->. destruct a0.
  apply affected_Ok in Hq0 as [Hn ->]. apply attempt_inv in Hq, Hq1.
  apply deactivate_user_post in Hq as (u & Hu & Hq); [|done].
  apply revoke_where_post in Hq1 as (m & Hm & Hq1). exists u, m. split_and!; [done| |].
  - replace (sessions (db s1)) with (tb_sessions (tables_of (db x))); [done|]. rewrite Hq.
    by destruct (db s1).
  - by rewrite Hq1, Hq.
Qed.

(** The methods of one statement. *)
Lemma one_stmt_Ok (q : stmt Z) s s' :
  (_ <-? attempt q ;; returns (Ok tt)) s = (s', Ok tt) -> exists n, q (db s) = Ok (db s', n).
Proof. intros (s1 & n & Hq%attempt_inv & [= ->])%ok_bind_Ok. by exists n. Qed.

Lemma affected_stmt_Ok (q : stmt Z) e s s' :
  (tag <-? attempt q ;; returns (affected tag e)) s = (s', Ok tt) ->
  exists n, q (db s) = Ok (db s', n) /\ n <> 0.
Proof.
  intros (s1 & n & Hq%attempt_inv & [Hn ->]%affected_Ok)%ok_bind_Ok. by exists n.
Qed.

Lemma conflict_stmt_Ok (q : stmt Z) s s' :
  (r <-! attempt q ;; returns (conflict_if_unique r)) s = (s', Ok tt) ->
  exists n, q (db s) = Ok (db s', n).
Proof.
  intros (s1 & [n|e] & Hq%attempt_inv & Hr)%result_bind_inv; unfold returns in Hr; simpl in Hr.
  - injection Hr as ->. by exists n.
  - by destruct (isUnique e).
Qed.

(** A statement outside the tables of the contract. *)
Lemma elsewhere_stmt (q : stmt Z) s s' d :
  (forall d d' n, q d = Ok (d', n) -> tables_of d' = tables_of d) ->
  (_ <-? attempt q ;; returns (Ok tt)) s = (s', d) -> view s' = view s.
Proof.
  intros Hq [(e & Hr%attempt_inv & _)|(s1 & n & Hr%attempt_inv & [= -> _])]%ok_bind_inv.
  - destruct Hr as [Hr|[[n Hr] _]]; [by apply view_db|by eapply Hq].
  - by eapply Hq.
Qed.

Lemma customs_elsewhere v d d' n : put_customs v d = Ok (d', n) ->
  exists m, tables_of d' = set_customs m (tables_of d).
Proof.
  intros Hq. destruct v. unfold put_customs in Hq. stmt_post d Hq; by eexists. Qed.

Lemma security_elsewhere v d d' n : put_security v d = Ok (d', n) ->
  exists m, tables_of d' = set_security m (tables_of d).
Proof.
  intros Hq. destruct v. unfold put_security in Hq. stmt_post d Hq; by eexists. Qed.

Lemma audit_elsewhere v d d' n : insert_audit v d = Ok (d', n) -> tables_of d' = tables_of d.
Proof. intros Hq. destruct v. unfold insert_audit in Hq. by stmt_post d Hq. Qed.

Lemma outbox_elsewhere v d d' n : insert_outbox v d = Ok (d', n) -> tables_of d' = tables_of d.
Proof. intros Hq. destruct v. unfold insert_outbox in Hq. by stmt_post d Hq. Qed.

Lemma publish_elsewhere id at_ d d' n :
  publish_outbox id at_ d = Ok (d', n) -> tables_of d' = tables_of d.
Proof. intros Hq. unfold publish_outbox in Hq. by stmt_post d Hq. Qed.

Lemma fail_elsewhere id msg at_ d d' n :
  fail_outbox id msg at_ d = Ok (d', n) -> tables_of d' = tables_of d.
Proof. intros Hq. unfold fail_outbox in Hq. by stmt_post d Hq. Qed.

Lemma claim_elsewhere order now n d d' out :
  claim_outbox order now n d = Ok (d', out) -> tables_of d' = tables_of d.
Proof.
  intros Hq. unfold claim_outbox in Hq. destruct (first_rows _ _ _ _); [|done].
  case_decide; [|done]. simplify_eq. by destruct d.
Qed.

Lemma Claim_post order now n s s' r : Claim order now n s = (s', r) -> view s' = view s.
Proof.
  intros Hop. apply transaction_inv in Hop.
  assert (Hran : forall s1 s2 out, db s1 = db s -> (
    out <-? attempt (claim_outbox order now n) ;; _ <-? rows_Err ;; returns (Ok out)) s1 = (s2, Ok out) ->
    db s' = db s2 -> view s' = view s).
  { intros s1 s2 out Hd1 Hr Hd2. do 2 ok_step Hr. injection Hr as -> _.
    apply attempt_inv in Hq. apply rows_Err_inv in Hq0.
    unfold view. rewrite Hd2, Hq0, <- Hd1. by eapply claim_elsewhere. }
  destruct r as [out|e]; [by destruct Hop as (s1 & s2 & ? & _ & ? & ?); eauto|].
  destruct Hop as [Hd|(out & s2 & s1 & ? & _ & ? & ? & _)]; [by apply view_db|eauto].
Qed.

(** The cases of the contract: [post_read] for the queries of one row, [post_write]
    for the methods of one statement. *)
Ltac post_read Hop := apply (find_row_post _ _ _ _ _ _ Hop).
Ltac post_write Hop Hsame r :=
  destruct r as [[]|e]; [|by apply view_db; destruct Hsame];
  first [apply one_stmt_Ok in Hop as [n Hop] | apply affected_stmt_Ok in Hop as (n & Hop & Hn)
        | apply conflict_stmt_Ok in Hop as [n Hop]]; simpl.

(** A method whose error changed nothing keeps the contract of sure errors. *)
Lemma pg_exec_post X (op : storeop X) s s' x :
  consistent (db s) -> exec op s = (s', x) -> op_error op x = None \/ db s' = db s ->
  store_post op (view s) x (view s').
Proof.
  intros Hs Hop Hsame.
  destruct op; unfold exec, postgres_store in Hop; cbn beta iota in Hop; simpl in Hsame;
    unfold store_post; cbn [contract].
  - post_read Hop. intros v (_ & k & Hk)%row_with_Some.
    by destruct (users_rows _ Hs _ _ Hk) as (-> & _).
  - by post_read Hop.
  - post_write Hop Hsame x. by apply insert_user_post in Hop.
  - destruct x as [[]|e]; [|by apply view_db; destruct Hsame].
    apply pg_DeactivateUser_post in Hop as (u & m & Hu & Hm & ->). by exists u, m, (timestamptz at_).
  - post_write Hop Hsame x. by apply insert_session_post in Hop.
  - post_read Hop. intros v Hv. by destruct (sessions_rows _ Hs _ _ Hv) as (-> & _).
  - post_write Hop Hsame x. by apply revoke_where_post in Hop; eauto.
  - post_write Hop Hsame x. by apply revoke_where_post in Hop.
  - post_write Hop Hsame x. right. by apply insert_shipment_post in Hop.
  - post_read Hop. intros v. by rewrite shipment_of_Some.
  - post_write Hop Hsame x. by apply update_shipment_post in Hop.
  - by eapply pg_ListShipments_post.
  - by post_read Hop.
  - post_write Hop Hsame x. by apply insert_leg_post in Hop.
  - post_read Hop. intros v. by rewrite leg_of_Some.
  - post_write Hop Hsame x. by apply reserve_leg_post in Hop.
  - post_write Hop Hsame x. by apply set_leg_status_post in Hop.
  - destruct x as [v|e]; [|by apply view_db; destruct Hsame].
    apply pg_BookShipment_post in Hop as (sh & l & Hsh & Hl & Href & -> & ->).
    apply shipment_of_Some in Hsh as [Hsh Ht]. apply leg_of_Some in Hl as [Hl Htl].
    apply booking_refused_None in Href. destruct_and!. exists sh, l, (timestamptz at_). by split_and!.
  - by post_read Hop.
  - post_write Hop Hsame x. by apply customs_elsewhere in Hop.
  - by post_read Hop.
  - post_write Hop Hsame x. by apply security_elsewhere in Hop.
  - eapply elsewhere_stmt; [|exact Hop]. intros *. apply audit_elsewhere.
  - apply view_db. revert Hop. apply ok_bind_reads; [apply select_reads|]. intros out.
    apply ok_bind_reads; [apply rows_Err_reads|]. intros u. apply returns_reads.
  - eapply elsewhere_stmt; [|exact Hop]. intros *. apply outbox_elsewhere.
  - by apply Claim_post in Hop.
  - eapply elsewhere_stmt; [|exact Hop]. intros *. apply publish_elsewhere.
  - eapply elsewhere_stmt; [|exact Hop]. intros *. apply fail_elsewhere.
  - apply view_db. revert Hop. apply select_reads.
  - by apply view_db, (rows_Err_reads _ _ _ Hop).
Qed.

(** An error may hide the change of a lost acknowledgement. *)
Lemma pg_exec_may X (op : storeop X) s s' x :
  consistent (db s) -> exec op s = (s', x) -> store_may op (view s) x (view s').
Proof.
  intros Hs Hop. destruct (op_error op x) as [e|] eqn:He.
  - destruct (pg_exec_failed _ _ _ _ _ _ Hop He) as [Hd|[(y & Hy & Hok) _]].
    + apply store_post_may. eapply pg_exec_post; eauto.
    + eapply (store_may_lost op); [by rewrite He|exact Hok|].
      by apply (pg_exec_post _ op (quiet (db s)) (quiet (db s'))); auto.
  - apply store_post_may. eapply pg_exec_post; eauto.
Qed.

(** The PostgreSQL store keeps the contract of the interface. *)
#[global] Instance postgres_lawful : LawfulStore Store := {|
  repository.view := view;
  store_inv := fun s => consistent (db s);
  exec_inv := exec_consistent;
  repository.exec_post := pg_exec_may |}.
End contract.
