(* ===== verification/service.v ===== *)
(** * Package service

    [Application] of [internal/service/application.go]: every use case as a
    program over the store interface.

    What a use case takes from outside is an argument: each reading of the clock
    ([now]), the bytes drawn by [crypto/rand] ([rid], [raw]) and the iteration
    order of the store where it matters ([order]). *)

From S2P Require Import Prelude.
From S2P Require Import golang.
From S2P Require Import domain.
From S2P Require Import external.
From S2P Require Import repository.

Open Scope string_scope.
Open Scope list_scope.
Open Scope Z_scope.

Record Application := mkApplication { app_ttl : Duration }.

(** The store, the logger and the real clock are in the calls, outside of the model and
    in the arguments. *)
Definition NewApplication (ttl : Duration) : Application := mkApplication ttl.

Record LoginResult := mkLoginResult {
  lr_Token : string; lr_ExpiresAt : Time; lr_User : User }.

Definition randomID (b : string) : string := hex_encode b.

Definition randomToken (b : result string) : result string :=
  match b with
  | Err err => Err err
  | Ok b => Ok (hex_encode b)
  end.

Definition nonEmpty (v fallback : string) : string := if decide (v = "") then fallback else v.

Section Application.
Context `{External}.

Definition Ping : prog (result unit) :=
  r <- repository.Ping ;;
  Ret r.

Definition Login (a : Application) (email password : string) (raw : result string)
    (rid : string) (now : Time) : prog (result LoginResult) :=
  r <- GetUserByEmail (strings_ToLower (TrimSpace email)) ;;
  match r with
  | Err err => Ret (Err (Errorf "lookup user: " err ""))
  | Ok u =>
      if negb (u_Active u) then Ret (Err ErrForbidden) else
      match Compare (u_PasswordHash u) password with
      | Some _ => Ret (Err ErrForbidden)
      | None =>
          match randomToken raw with
          | Err err => Ret (Err (Errorf "token: " err ""))
          | Ok raw =>
              let session := mkSession (randomID rid) (u_ID u) (HashToken raw)
                               (time_Add now (app_ttl a)) None now in
              r <- CreateSession session ;;
              match r with
              | Err err => Ret (Err (Errorf "create session: " err ""))
              | Ok _ => Ret (Ok (mkLoginResult raw (ses_ExpiresAt session) u))
              end
          end
      end
  end.

Definition Logout (token : string) (now : Time) : prog (result unit) :=
  if decide (token = "") then Ret (Err ErrInvalid) else
  r <- RevokeSession token now ;;
  match r with
  | Err err => if errors_Is err ErrNotFound then Ret (Ok tt)
               else Ret (Err (Errorf "revoke session: " err ""))
  | Ok _ => Ret (Ok tt)
  end.

Definition Authenticate (token : string) (now : Time) : prog (result (User * Session)) :=
  if decide (token = "") then Ret (Err ErrForbidden) else
  r <- GetSession token ;;
  match r with
  | Err _ => Ret (Err ErrForbidden)
  | Ok s =>
      match IsSessionActive s now with
      | Some _ => Ret (Err ErrForbidden)
      | None =>
          r <- GetUser (ses_UserID s) ;;
          match r with
          | Err _ => Ret (Err ErrForbidden)
          | Ok u => if u_Active u then Ret (Ok (u, s)) else Ret (Err ErrForbidden)
          end
      end
  end.

Definition DeactivateUser (actor target : string) (now1 now2 : Time) : prog (result unit) :=
  r <~ Authenticate actor now1 ;;
  match r with
  | Err err => Ret (Err err)
  | Ok (u, _) =>
      if decide (u_Role u <> RoleCoordinator) then Ret (Err ErrForbidden) else
      r <- repository.DeactivateUser target now2 ;;
      match r with
      | Err err => Ret (Err (Errorf "deactivate: " err ""))
      | Ok _ => Ret (Ok tt)
      end
  end.

(** The assignments to the fields of a new shipment. *)
Definition new_shipment (u : User) (s : Shipment) (idem rid : string) (now : Time) : Shipment :=
  mkShipment (nonEmpty (sh_ID s) (randomID rid)) (u_TenantID u) (TrimSpace (sh_Reference s))
    (sh_Origin s) (sh_Destination s) (sh_WeightKg s) (sh_Pieces s) ShipmentDraft (sh_LegID s)
    idem 1 now now.

Definition CreateShipment (u : User) (s : Shipment) (idem rid : string) (now : Time)
    : prog (result Shipment) :=
  if decide (u_Role u <> RoleShipper /\ u_Role u <> RoleCoordinator)
  then Ret (Err ErrForbidden) else
  let s := new_shipment u s idem rid now in
  match ValidateShipment s with
  | Some err => Ret (Err err)
  | None =>
      let create :=
        r <- repository.CreateShipment s ;;
        match r with
        | Err err => Ret (Err (Errorf "create shipment: " err ""))
        | Ok _ => Ret (Ok s)
        end in
      if decide (idem <> "") then
        r <- FindByIdempotency (u_TenantID u) idem ;;
        match r with
        | Ok old => Ret (Ok old)
        | Err err => if negb (errors_Is err ErrNotFound) then Ret (Err err) else create
        end
      else create
  end.

Definition GetShipment (u : User) (id : string) : prog (result Shipment) :=
  r <- repository.GetShipment (u_TenantID u) id ;;
  Ret r.

Definition ListShipments (order : list string) (u : User) (req : PageRequest)
    : prog (result (Page Shipment)) :=
  if decide (u_Role u <> RoleShipper /\ u_Role u <> RoleCoordinator
             /\ u_Role u <> RoleGroundAgent)
  then Ret (Err ErrForbidden) else
  r <- repository.ListShipments order (u_TenantID u) req ;;
  Ret r.

Definition BookShipment (u : User) (id legID : string) (now : Time) : prog (result Shipment) :=
  if decide (u_Role u <> RoleCoordinator) then Ret (Err ErrForbidden) else
  r <- repository.GetShipment (u_TenantID u) id ;;
  match r with
  | Err err => Ret (Err err)
  | Ok s =>
      r <- GetLeg (u_TenantID u) legID ;;
      match r with
      | Err err => Ret (Err err)
      | Ok leg =>
          if negb (Shipment_CanTransition (sh_Status s) ShipmentBooked)
             || bool_decide (leg_Status leg <> LegOpen)
          then Ret (Err ErrState) else
          if decide (sh_Origin s <> leg_Origin leg \/ sh_Destination s <> leg_Destination leg)
          then Ret (Err ErrInvalid) else
          r <- repository.BookShipment (u_TenantID u) id legID (sh_Version s)
                 (leg_Version leg) now ;;
          match r with
          | Err err => Ret (Err (Errorf "book shipment: " err ""))
          | Ok booked => Ret (Ok booked)
          end
      end
  end.

(** The last part of [TransitionShipment], after its guards. *)
Definition store_transition (s : Shipment) (next : ShipmentStatus) (now : Time)
    : prog (result Shipment) :=
  let s := set_sh_UpdatedAt now (set_sh_Status next s) in
  r <- UpdateShipment s (sh_Version s) ;;
  match r with
  | Err err => Ret (Err err)
  | Ok _ => Ret (Ok s)
  end.

Definition TransitionShipment (u : User) (id : string) (next : ShipmentStatus) (now : Time)
    : prog (result Shipment) :=
  if decide (u_Role u <> RoleCoordinator /\ u_Role u <> RoleGroundAgent)
  then Ret (Err ErrForbidden) else
  r <- repository.GetShipment (u_TenantID u) id ;;
  match r with
  | Err err => Ret (Err err)
  | Ok s =>
      if negb (Shipment_CanTransition (sh_Status s) next) then Ret (Err ErrState) else
      if decide (sh_LegID s <> None /\ (next = ShipmentLoaded \/ next = ShipmentDeparted)) then
        ce <- GetCustoms id ;;
        se <- GetSecurity id ;;
        match ce, se with
        | Ok c, Ok sec =>
            if negb (CustomsAllowsLoading c) || negb (SecurityAllowsLoading sec)
            then Ret (Err ErrState) else store_transition s next now
        | _, _ => Ret (Err ErrState)
        end
      else store_transition s next now
  end.

Definition CreateLeg (u : User) (l : FlightLeg) (rid : string) (now1 now2 : Time)
    : prog (result FlightLeg) :=
  if decide (u_Role u <> RoleCoordinator) then Ret (Err ErrForbidden) else
  let l := mkFlightLeg (nonEmpty (leg_ID l) (randomID rid)) (u_TenantID u)
             (leg_FlightNumber l) (leg_Origin l) (leg_Destination l) (leg_DepartureAt l)
             (leg_ArrivalAt l) (leg_CapacityKg l) (leg_ReservedKg l) LegPlanned 1 now1 in
  match ValidateLeg l now2 with
  | Some err => Ret (Err err)
  | None =>
      r <- repository.CreateLeg l ;;
      match r with
      | Err err => Ret (Err err)
      | Ok _ => Ret (Ok l)
      end
  end.

Definition OpenLeg (u : User) (id : string) : prog (result FlightLeg) :=
  if decide (u_Role u <> RoleCoordinator) then Ret (Err ErrForbidden) else
  r <- GetLeg (u_TenantID u) id ;;
  match r with
  | Err err => Ret (Err err)
  | Ok l =>
      r <- UpdateLegStatus (u_TenantID u) id LegOpen (leg_Version l) ;;
      match r with
      | Err err => Ret (Err err)
      | Ok _ => Ret (Ok (set_leg_Version (add64 (leg_Version l) 1) (set_leg_Status LegOpen l)))
      end
  end.

Definition PutCustoms (u : User) (c : CustomsCase) (rid : string) (now : Time)
    : prog (result CustomsCase) :=
  if decide (u_Role u <> RoleCoordinator) then Ret (Err ErrForbidden) else
  r <- repository.GetShipment (u_TenantID u) (cc_ShipmentID c) ;;
  match r with
  | Err err => Ret (Err err)
  | Ok _ =>
      old <- GetCustoms (cc_ShipmentID c) ;;
      let put :=
        let c := mkCustomsCase (nonEmpty (cc_ID c) (randomID rid)) (cc_ShipmentID c)
                   (cc_Status c) (cc_DocumentRef c) (cc_ReviewedBy c) now in
        r <- repository.PutCustoms c ;;
        match r with
        | Err err => Ret (Err err)
        | Ok _ => Ret (Ok c)
        end in
      match old with
      | Ok old => if negb (Customs_CanTransition (cc_Status old) (cc_Status c))
                  then Ret (Err ErrState) else put
      | Err _ => put
      end
  end.

Definition PutSecurity (u : User) (s : SecurityCheck) (rid : string) (now : Time)
    : prog (result SecurityCheck) :=
  if decide (u_Role u <> RoleGroundAgent /\ u_Role u <> RoleCoordinator)
  then Ret (Err ErrForbidden) else
  r <- repository.GetShipment (u_TenantID u) (sc_ShipmentID s) ;;
  match r with
  | Err err => Ret (Err err)
  | Ok _ =>
      let id := nonEmpty (sc_ID s) (randomID rid) in
      let s := if decide (sc_Status s = SecurityPassed)
               then mkSecurityCheck id (sc_ShipmentID s) (sc_Status s) (Some (u_ID u))
                      (sc_Notes s) (Some now)
               else mkSecurityCheck id (sc_ShipmentID s) (sc_Status s) (sc_OfficerID s)
                      (sc_Notes s) (sc_CheckedAt s) in
      r <- repository.PutSecurity s ;;
      match r with
      | Err err => Ret (Err err)
      | Ok _ => Ret (Ok s)
      end
  end.

(** The counters of one listed shipment. *)
Definition count_status (summary : OperationsSummary) (s : Shipment) : OperationsSummary :=
  let 'mkOperationsSummary t draft booked inflight held pending failed := summary in
  if decide (sh_Status s = ShipmentDraft)
  then mkOperationsSummary t (draft + 1) booked inflight held pending failed else
  if decide (sh_Status s ∈ [ShipmentBooked; ShipmentScreening; ShipmentCleared; ShipmentLoaded])
  then mkOperationsSummary t draft (booked + 1) inflight held pending failed else
  if decide (sh_Status s = ShipmentDeparted)
  then mkOperationsSummary t draft booked (inflight + 1) held pending failed
  else summary.

Definition Summary (order : list string) (u : User) : prog (result OperationsSummary) :=
  if decide (u_Role u <> RoleCoordinator) then Ret (Err ErrForbidden) else
  r <- repository.ListShipments order (u_TenantID u) (mkPageRequest 200 "" "") ;;
  match r with
  | Err err => Ret (Err err)
  | Ok items =>
      let summary := mkOperationsSummary (u_TenantID u) 0 0 0 0 0 0 in
      let summary := foldl count_status summary (pg_Items items) in
      r <- repository.Summary (u_TenantID u) ;;
      match r with
      | Err err => Ret (Err err)
      | Ok (pending, failed) =>
          let 'mkOperationsSummary t draft booked inflight held _ _ := summary in
          Ret (Ok (mkOperationsSummary t draft booked inflight held pending failed))
      end
  end.
End Application.

(** ** What the use cases promise over any lawful store *)

(** [run_call Hrun s x Hex] takes the first call of a run. *)
Ltac run_call Hrun s x Hex :=
  simpl in Hrun;
  match type of Hrun with
  | context [exec ?op ?s0] => destruct (exec op s0) as [s x] eqn:Hex
  end.

Section lawful.
Context `{External} {state : Type} `{Hlaw : LawfulStore state}.

(** A read leaves the tables alone and a successful one gives its property. *)
Lemma exec_reads {A} (op : storeop (result A)) P s s' r :
  (forall v r v', store_may op v r v' -> reads P v r v') ->
  store_inv s -> exec op s = (s', r) ->
  store_inv s' /\ view s' = view s /\ forall a, r = Ok a -> P (view s) a.
Proof.
  intros Hop Hs Hex. split; [by eapply exec_inv|]. by apply Hop, exec_post.
Qed.

(** A run keeps the invariant of the store. *)
Lemma run_inv {A} (p : prog A) s s' r : store_inv s -> run p s = (s', r) -> store_inv s'.
Proof.
  revert s. induction p as [v|X op k IH]; intros s Hs; simpl; [by intros [= <- _]|].
  destruct (exec op s) as [s1 x] eqn:Hex. intros Hrun. eapply IH; [|exact Hrun]. by eapply exec_inv.
Qed.

(** A write that succeeds made its change. *)
Lemma exec_writes {A} (op : storeop (result A)) Q s s' r :
  (forall v r v', store_may op v r v' -> writes false Q v r v') ->
  store_inv s -> exec op s = (s', r) ->
  store_inv s' /\ forall a, r = Ok a -> Q (view s) a (view s').
Proof.
  intros Hop Hs Hex. split; [by eapply exec_inv|]. intros a ->.
  exact (Hop _ _ _ (exec_post _ _ _ _ _ Hs Hex)).
Qed.
End lawful.

(** [run_read Hrun Hs s r Hs' Hview Hr] takes a first call that reads, [run_write]
    one that writes: the state after, the result, and what the contract says. *)
Ltac run_read Hrun Hs s r Hs' Hview Hr :=
  let Hex := fresh "Hex" in
  run_call Hrun s r Hex;
  match type of Hex with
  | exec ?op _ = _ =>
      destruct (exec_reads op _ _ _ _ (fun _ _ _ Hpost => Hpost) Hs Hex) as (Hs' & Hview & Hr);
      clear Hex
  end.
Ltac run_write Hrun Hs s r Hs' Hw :=
  let Hex := fresh "Hex" in
  run_call Hrun s r Hex;
  match type of Hex with
  | exec ?op _ = _ =>
      destruct (exec_writes op _ _ _ _ (fun _ _ _ Hpost => Hpost) Hs Hex) as (Hs' & Hw);
      clear Hex
  end.

Section contracts.
Context `{External} {state : Type} `{Hlaw : LawfulStore state}.

(** A successful authentication names an active user and a live session of that
    user, and changes nothing. *)
Lemma Authenticate_sound token now s s' u se :
  store_inv s -> run (Authenticate token now) s = (s', Ok (u, se)) ->
  view s' = view s /\ token <> "" /\ tb_users (view s) !! ses_UserID se = Some u /\
  u_Active u = true /\ tb_sessions (view s) !! ses_TokenHash se = Some se /\
  IsSessionActive se now = None.
Proof.
  intros Hs Hrun. unfold Authenticate in Hrun. case_decide; [done|].
  run_read Hrun Hs s1 r Hs1 Hv Hr. destruct r as [se'|]; [|done].
  destruct (IsSessionActive se' now) eqn:Hact; [done|].
  run_read Hrun Hs1 s2 r2 Hs2 Hv2 Hr2. destruct r2 as [u'|]; [|done].
  destruct (u_Active u') eqn:Hu; [|done]. simpl in Hrun. simplify_eq.
  rewrite Hv2, Hv in *. by split_and!; auto.
Qed.

Lemma Login_sound a email password raw rid now s s' lr :
  store_inv s -> run (Login a email password raw rid now) s = (s', Ok lr) ->
  let u := lr_User lr in
  tb_users (view s) !! u_ID u = Some u /\ u_Active u = true /\
  Compare (u_PasswordHash u) password = None /\
  randomToken raw = Ok (lr_Token lr) /\ tb_users (view s') = tb_users (view s) /\
  exists se, ses_UserID se = u_ID u /\ ses_TokenHash se = HashToken (lr_Token lr) /\
    tb_sessions (view s') !! HashToken (lr_Token lr) = Some se.
Proof.
  intros Hs Hrun. unfold Login in Hrun.
  run_read Hrun Hs s1 r Hs1 Hv Hr. destruct r as [u|]; [|done].
  destruct (negb (u_Active u)) eqn:Hact; [done|]. apply negb_false_iff in Hact.
  destruct (Compare _ _) eqn:Hcmp; [done|].
  destruct (randomToken raw) as [tok|] eqn:Htok; [|done].
  run_write Hrun Hs1 s2 r2 Hs2 Hw. destruct r2 as [[]|]; [|done]. simplify_eq/=.
  destruct (Hw tt eq_refl) as (x & y & z & Hw').  clear Hw. rename Hw' into Hw. split_and!; [by apply Hr|done..| |].
  { rewrite Hw, Hv. by destruct (view s). }
  eexists (mkSession _ _ _ x y z). split_and!; try done.
  rewrite Hw. destruct (view s1); simpl. apply lookup_insert_eq.
Qed.
End contracts.
