(* ===== verification/interleave.v ===== *)
(** * Interleaving of the requests

    The server handles requests in goroutines: what is atomic is one call of the
    store, and between two calls of one request any calls of the others may run.
    [pool_step] is that semantics for a pool of programs, and [safe] a
    rely-guarantee judgement on one program from which the invariants and the
    two-state properties of every interleaving follow ([pool_sound]). *)

From S2P Require Import Prelude.
From S2P Require Import golang.
From S2P Require Import domain.
From S2P Require Import repository.


Section pool.
Context {state : Type} `{Hlaw : LawfulStore state} {A T : Type}.

(** Running requests, each with a tag (the tenant it acts for), and the store. *)
Definition config : Type := list (T * prog A) * state.

(** A request with tag [t] makes its next call. *)
Inductive pool_step (t : T) : config -> config -> Prop :=
  | pool_call ts1 ts2 X (op : storeop X) k s s' x :
      exec op s = (s', x) ->
      pool_step t (ts1 ++ (t, Call op k) :: ts2, s) (ts1 ++ (t, k x) :: ts2, s').

Definition any_step (c c' : config) : Prop := exists t, pool_step t c c'.

(** The interleaving that a schedule asks for: the positions of the requests that
    make the calls, in order. *)
Fixpoint run_schedule (ks : list nat) (c : config) : option config :=
  match ks with
  | [] => Some c
  | k :: ks' =>
      match c.1 !! k with
      | Some (t, Call op f) =>
          let '(s', x) := exec op c.2 in run_schedule ks' (<[k := (t, f x)]> c.1, s')
      | _ => None
      end
  end.

Lemma run_schedule_nsteps ks c c' :
  run_schedule ks c = Some c' -> nsteps any_step (length ks) c c'.
Proof.
  revert c. induction ks as [|k ks IH]; intros [ts s]; simpl.
  { intros [= <-]. constructor. }
  destruct (ts !! k) as [[t [r|X op f]]|] eqn:Hk; [done| |done].
  destruct (exec op s) as [s' x] eqn:Hex. intros Hrun%IH.
  econstructor; [|exact Hrun]. exists t.
  rewrite <- (take_drop_middle ts k _ Hk) at 1. rewrite (insert_take_drop ts k) by
    (by apply lookup_lt_Some in Hk).
  by constructor.
Qed.

(** The configuration a schedule leads to. *)
Definition play (ks : list nat) (c : config) : config := default c (run_schedule ks c).

Lemma play_nsteps ks c :
  match run_schedule ks c with Some _ => true | None => false end = true -> nsteps any_step (length ks) c (play ks c).
Proof.
  unfold play. destruct (run_schedule ks c) as [c'|] eqn:Hks; [|done]. intros _.
  by apply run_schedule_nsteps.
Qed.

(** ** Rely and guarantee *)

(** [good n v]: the tables after at most [n] calls are well formed; [grow v v']:
    what every call may do to them (the rely, a preorder); [G t v v']: what a call
    for the tag [t] may do. *)
Context (good : Z -> tables -> Prop) (grow : tables -> tables -> Prop)
  (G : T -> tables -> tables -> Prop).
Context `{!PreOrder grow}.

(** The program keeps the invariant and both guarantees at each of its calls, from
    any tables that have grown from [v0].  [limit] bounds the number of calls. *)
Fixpoint safe (limit : Z) (t : T) (p : prog A) (v0 : tables) : Prop :=
  match p with
  | Ret _ => True
  | @Call _ X op k => forall (n : Z) (v v' : tables) (x : X),
      grow v0 v -> n < limit -> good n v -> store_may op v x v' ->
      (good (n + 1) v' /\ grow v v' /\ G t v v') /\ safe limit t (k x) v'
  end.

Lemma safe_grow limit t p v v' : grow v v' -> safe limit t p v -> safe limit t p v'.
Proof.
  intros Hg. destruct p as [|X op k]; simpl; [done|]. intros Hp n w w' x Hw.
  apply Hp. by etrans.
Qed.

(** Every request of the pool is safe from the present tables. *)
Definition pool_safe (limit : Z) (c : config) : Prop :=
  store_inv c.2 /\ Forall (fun '(t, p) => safe limit t p (view c.2)) c.1.

Lemma pool_step_safe limit n t c c' :
  pool_safe limit c -> good n (view c.2) -> n < limit -> pool_step t c c' ->
  pool_safe limit c' /\ good (n + 1) (view c'.2) /\ grow (view c.2) (view c'.2) /\
  G t (view c.2) (view c'.2).
Proof.
  intros [Hinv Hts] Hgood Hn Hstep. destruct Hstep as [ts1 ts2 X op k s s' x Hex]. simpl in *.
  apply Forall_app in Hts as [Hts1 Hts2]. apply Forall_cons in Hts2 as [Hp Hts2].
  destruct (Hp n (view s) (view s') x) as [(Hgood' & Hgrow & HG) Hk];
    [done..|by eapply exec_post|].
  split; [|done]. split; [by eapply exec_inv|].
  assert (Hmono : forall ts, Forall (fun '(t, p) => safe limit t p (view s)) ts ->
                   Forall (fun '(t, p) => safe limit t p (view s')) ts).
  { intros ts Hts. eapply Forall_impl; [exact Hts|]. intros [t' p']. by apply safe_grow. }
  apply Forall_app. split; [by apply Hmono|]. constructor; [done|by apply Hmono].
Qed.

(** In every interleaving of fewer than [limit] calls the invariant holds and the
    tables only grow. *)
Lemma pool_sound limit n m c c' :
  pool_safe limit c -> good n (view c.2) -> nsteps any_step m c c' -> n + Z.of_nat m <= limit ->
  pool_safe limit c' /\ good (n + Z.of_nat m) (view c'.2) /\ grow (view c.2) (view c'.2).
Proof.
  intros Hsafe Hgood Hsteps. revert n Hsafe Hgood.
  induction Hsteps as [c|m c c1 c2 [t Hstep] Hsteps IH]; intros n Hsafe Hgood Hle.
  - rewrite Z.add_0_r. done.
  - destruct (pool_step_safe limit n t c c1) as (Hsafe1 & Hgood1 & Hgrow1 & _);
      [done..|lia|done|].
    destruct (IH (n + 1)) as (Hs & Hg & Hgr); [done..|lia|].
    split; [done|]. split; [|by etrans].
    by replace (n + Z.of_nat (S m)) with (n + 1 + Z.of_nat m) by lia.
Qed.

(** Along an execution of fewer than [limit] calls every call keeps [G]. *)
Lemma pool_step_sound limit n m c c1 t c2 :
  pool_safe limit c -> good n (view c.2) -> nsteps any_step m c c1 ->
  n + Z.of_nat m < limit -> pool_step t c1 c2 ->
  G t (view c1.2) (view c2.2).
Proof.
  intros Hsafe Hgood Hsteps Hlt Hstep.
  destruct (pool_sound limit n m c c1) as (Hs1 & Hg1 & _); [done..|lia|].
  by eapply pool_step_safe.
Qed.
End pool.

(** ** Composition of programs *)

Section compose.
Context {A B T : Type} (good : Z -> tables -> Prop) (grow : tables -> tables -> Prop)
  (G : T -> tables -> tables -> Prop) `{!PreOrder grow}.

(** A program followed by programs that are safe from any tables: enough for the
    prefix that only reads. *)
Lemma safe_bind limit t (m : prog A) (f : A -> prog B) v0 :
  safe good grow G limit t m v0 ->
  (forall x v, grow v0 v -> safe good grow G limit t (f x) v) ->
  safe good grow G limit t (prog_bind m f) v0.
Proof.
  revert v0. induction m as [y|X op k IH]; intros v0 Hm Hf; simpl in *.
  - by apply Hf.
  - intros n v v' x Hv Hn Hgood Hpost.
    destruct (Hm n v v' x Hv Hn Hgood Hpost) as [Hstep Hk]. split; [done|].
    apply IH; [done|]. intros y w Hw. apply Hf. etrans; [exact Hv|]. etrans; [|exact Hw].
    apply Hstep.
Qed.
End compose.

(** A judgement with one guarantee gives any weaker one, under any tag. *)
Lemma safe_weaken {A T T' : Type} (good : Z -> tables -> Prop) (grow : tables -> tables -> Prop)
    (G : T -> tables -> tables -> Prop) (G' : T' -> tables -> tables -> Prop)
    limit t t' (p : prog A) v0 :
  (forall v v', G t v v' -> G' t' v v') ->
  safe good grow G limit t p v0 -> safe good grow G' limit t' p v0.
Proof.
  intros HG. revert v0. induction p as [r|X op k IH]; intros v0; simpl; [done|].
  intros Hp n v v' x Hv Hn Hg Hpost. destruct (Hp n v v' x Hv Hn Hg Hpost) as [(? & ? & ?) Hk].
  auto.
Qed.
