(* ===== verification/system.v ===== *)
(** * The use cases together

    The invariant of the tables, the growth every call keeps to, and the proof
    that each use case of [service.v] is safe, so that they hold in every
    interleaving of the requests of all tenants over any lawful store. *)

From S2P Require Import Prelude.
From S2P Require Import golang.
From S2P Require Import domain.
From S2P Require Import external.
From S2P Require Import repository.
From S2P Require Import service.
From S2P Require Import interleave.

Open Scope string_scope.
Open Scope list_scope.
Open Scope Z_scope.

(** ** Invariant *)

(** Weights and capacities small enough that the sum of two of them is an
    [int64]. *)
Definition max_weight : Z := 2 ^ 62 - 1.

(** The weight a shipment takes on a leg. *)
Definition load_on (leg : string) (s : Shipment) : Z :=
  if decide (sh_LegID s = Some leg) then sh_WeightKg s else 0.

Record shipment_ok (n : Z) (v : tables) (s : Shipment) : Prop := {
  ok_version : 1 <= sh_Version s <= n;
  ok_weight : 0 < sh_WeightKg s <= max_weight;
  ok_draft : sh_Status s = ShipmentDraft -> sh_LegID s = None;
  ok_leg l : sh_LegID s = Some l ->
    exists leg, tb_legs v !! l = Some leg /\ leg_TenantID leg = sh_TenantID s /\
      leg_Origin leg = sh_Origin s /\ leg_Destination leg = sh_Destination s }.

Record leg_ok (n : Z) (v : tables) (id : string) (l : FlightLeg) : Prop := {
  ok_leg_version : 1 <= leg_Version l <= n;
  ok_capacity : leg_CapacityKg l <= max_weight;
  ok_reserved : leg_ReservedKg l <= leg_CapacityKg l;
  ok_account : leg_ReservedKg l = map_sum (load_on id) (tb_shipments v) }.

(** The tables after at most [n] calls. *)
Record good (n : Z) (v : tables) : Prop := {
  good_count : 0 <= n;
  good_users : keyed u_ID (tb_users v);
  good_keys : keyed sh_ID (tb_shipments v);
  good_leg_keys : keyed leg_ID (tb_legs v);
  good_shipment id s : tb_shipments v !! id = Some s -> shipment_ok n v s;
  good_leg id l : tb_legs v !! id = Some l -> leg_ok n v id l }.

(** A store without cargo is where it starts. *)
Lemma good_start n v :
  0 <= n -> keyed u_ID (tb_users v) -> tb_shipments v = ∅ -> tb_legs v = ∅ -> good n v.
Proof.
  intros Hn Hu Hs Hl. split; rewrite ?Hs, ?Hl; auto with go; intros id x Hx;
    by rewrite lookup_empty in Hx.
Qed.

(** ** Growth *)

(** What no use case changes in a shipment, and how the rest may change. *)
Record shipment_grows (s s' : Shipment) : Prop := {
  grows_same : sh_ID s' = sh_ID s /\ sh_TenantID s' = sh_TenantID s /\
    sh_Origin s' = sh_Origin s /\ sh_Destination s' = sh_Destination s /\
    sh_WeightKg s' = sh_WeightKg s /\ sh_IdempotencyKey s' = sh_IdempotencyKey s;
  grows_version : s' = s \/ sh_Version s < sh_Version s';
  grows_status : rtc ship_edge (sh_Status s) (sh_Status s');
  grows_leg l : sh_LegID s = Some l -> sh_LegID s' = Some l }.

Record leg_grows (l l' : FlightLeg) : Prop := {
  leg_grows_same : leg_ID l' = leg_ID l /\ leg_TenantID l' = leg_TenantID l /\
    leg_Origin l' = leg_Origin l /\ leg_Destination l' = leg_Destination l /\
    leg_CapacityKg l' = leg_CapacityKg l;
  leg_grows_version : l' = l \/ leg_Version l < leg_Version l';
  leg_grows_reserved : leg_ReservedKg l <= leg_ReservedKg l' }.

Record user_grows (u u' : User) : Prop := {
  user_grows_same : u_ID u' = u_ID u /\ u_TenantID u' = u_TenantID u /\
    u_Email u' = u_Email u /\ u_Role u' = u_Role u /\ u_PasswordHash u' = u_PasswordHash u;
  user_grows_active : u_Active u' = true -> u_Active u = true }.

(** No record goes, and each grows as [R] says. *)
Definition map_grows {A} (R : A -> A -> Prop) (m m' : gmap string A) : Prop :=
  forall k a, m !! k = Some a -> exists a', m' !! k = Some a' /\ R a a'.

Record grow (v v' : tables) : Prop := {
  grow_users : map_grows user_grows (tb_users v) (tb_users v');
  grow_shipments : map_grows shipment_grows (tb_shipments v) (tb_shipments v');
  grow_legs : map_grows leg_grows (tb_legs v) (tb_legs v') }.

#[export] Instance shipment_grows_preorder : PreOrder shipment_grows.
Proof.
  split; [by split; auto using rtc_refl|].
  intros s1 s2 s3 [H1 V1 E1 L1] [H2 V2 E2 L2]. split.
  - destruct_and!. split_and!; congruence.
  - destruct V1 as [->|], V2 as [->|]; auto. right; lia.
  - by etrans.
  - auto.
Qed.

#[export] Instance leg_grows_preorder : PreOrder leg_grows.
Proof.
  split; [by split; auto using rtc_refl|].
  intros s1 s2 s3 [H1 V1 L1] [H2 V2 L2]. split.
  - destruct_and!. split_and!; congruence.
  - destruct V1 as [->|], V2 as [->|]; auto. right; lia.
  - lia.
Qed.

#[export] Instance user_grows_preorder : PreOrder user_grows.
Proof.
  split; [by split|]. intros u1 u2 u3 [H1 A1] [H2 A2]. split; [|auto]. destruct_and!. split_and!; congruence.
Qed.

#[export] Instance map_grows_preorder {A} (R : A -> A -> Prop) `{!PreOrder R} :
  PreOrder (map_grows R).
Proof.
  split; [intros m k a Hk; by exists a|]. intros m1 m2 m3 H1 H2 k a Hk.
  destruct (H1 k a Hk) as (b & Hb & Rab). destruct (H2 k b Hb) as (c & Hc & Rbc).
  exists c. split; [done|]. by etrans.
Qed.

#[export] Instance grow_preorder : PreOrder grow.
Proof.
  split; [by split|]. intros v1 v2 v3 [U1 S1 L1] [U2 S2 L2]. split; by etrans.
Qed.

Lemma map_grows_insert {A} (R : A -> A -> Prop) `{!PreOrder R} m k a a' :
  m !! k = Some a -> R a a' -> map_grows R m (<[k := a']> m).
Proof.
  intros Hk HR j b Hj. rewrite lookup_insert. case_decide; simplify_eq; [by eexists|].
  by exists b.
Qed.

Lemma map_grows_new {A} (R : A -> A -> Prop) `{!PreOrder R} m k a' :
  m !! k = None -> map_grows R m (<[k := a']> m).
Proof.
  intros Hk j b Hj. rewrite lookup_insert. case_decide; simplify_eq. by exists b.
Qed.

(** ** Tenant isolation *)

(** A call for [tenant] leaves the records of the other tenants as they are, and
    adds records of [tenant] only. *)
Definition tenant_only {A} (owner : A -> string) (tenant : string) (m m' : gmap string A) : Prop :=
  (forall k a, m !! k = Some a -> owner a <> tenant -> m' !! k = Some a) /\
  (forall k a, m' !! k = Some a -> owner a <> tenant -> m !! k = Some a).

Definition isolated (tenant : string) (v v' : tables) : Prop :=
  tenant_only sh_TenantID tenant (tb_shipments v) (tb_shipments v') /\
  tenant_only leg_TenantID tenant (tb_legs v) (tb_legs v').

Lemma tenant_only_refl {A} (owner : A -> string) tenant m : tenant_only owner tenant m m.
Proof. by split. Qed.

Lemma tenant_only_insert {A} (owner : A -> string) tenant m k a' :
  (forall a, m !! k = Some a -> owner a = tenant) -> owner a' = tenant ->
  tenant_only owner tenant m (<[k := a']> m).
Proof.
  intros Hk Ha'. split; intros j b; rewrite lookup_insert; case_decide; subst; try done.
  - intros Hj ?. by destruct (Hk b Hj).
  - by intros [= ->].
Qed.

#[export] Hint Resolve tenant_only_refl tenant_only_insert : go.

(** ** One call *)

(** What the rely-guarantee judgement asks of a call. *)
Definition call_ok (t : string) (n : Z) (v v' : tables) : Prop :=
  good (n + 1) v' /\ grow v v' /\ isolated t v v'.

Lemma shipment_ok_mono n v v' s :
  tb_legs v' = tb_legs v -> shipment_ok n v s -> shipment_ok (n + 1) v' s.
Proof. intros Hl [Hv Hw Hd Hleg]. split; [lia|done..|]. by rewrite Hl. Qed.

Lemma leg_ok_mono n v v' id l :
  tb_shipments v' = tb_shipments v -> leg_ok n v id l -> leg_ok (n + 1) v' id l.
Proof. intros Hs [Hv Hc Hr Ha]. split; [lia|done..|]. by rewrite Hs. Qed.

(** A leg may be replaced by one for the same route and tenant. *)
Lemma shipment_ok_leg n v v' id l l' s :
  tb_legs v !! id = Some l -> leg_grows l l' -> tb_legs v' = <[id := l']> (tb_legs v) ->
  shipment_ok n v s -> shipment_ok n v' s.
Proof.
  intros Hid [(_ & Ht & Ho & Hdest & _) _ _] Hl [Hv Hw Hd Hleg]. split; [done..|].
  intros k Hk. rewrite Hl. destruct (Hleg k Hk) as (leg & Hk' & Ht' & Ho' & Hd').
  rewrite lookup_insert. case_decide; [|eauto]. simplify_eq. exists l'. split_and!; congruence.
Qed.

Lemma shipment_ok_new_leg n v v' id l' s :
  tb_legs v !! id = None -> tb_legs v' = <[id := l']> (tb_legs v) ->
  shipment_ok n v s -> shipment_ok n v' s.
Proof.
  intros Hid Hl [Hv Hw Hd Hleg]. split; [done..|].
  intros k Hk. rewrite Hl. destruct (Hleg k Hk) as (leg & Hk' & ?).
  exists leg. split; [|done]. rewrite lookup_insert_ne by congruence. done.
Qed.

(** A leg keeps its account when the shipment that changes keeps its load. *)
Lemma leg_ok_shipment n v v' k s s' id l :
  tb_shipments v !! k = Some s -> load_on id s' = load_on id s ->
  tb_shipments v' = <[k := s']> (tb_shipments v) -> leg_ok n v id l -> leg_ok n v' id l.
Proof.
  intros Hk Hload Hs [Hv Hc Hr Ha]. split; [done..|].
  rewrite Hs, (map_sum_update _ _ _ _ _ Hk). lia.
Qed.

Lemma leg_ok_new_shipment n v v' k s' id l :
  tb_shipments v !! k = None -> load_on id s' = 0 ->
  tb_shipments v' = <[k := s']> (tb_shipments v) -> leg_ok n v id l -> leg_ok n v' id l.
Proof.
  intros Hk Hload Hs [Hv Hc Hr Ha]. split; [done..|].
  rewrite Hs, map_sum_insert by done. lia.
Qed.

Section calls.
Implicit Types (t : string) (n : Z) (v : tables).

(** Calls that leave shipments and legs alone. *)
Lemma call_frame t n v v' :
  good n v ->
  tb_shipments v' = tb_shipments v -> tb_legs v' = tb_legs v ->
  keyed u_ID (tb_users v') -> map_grows user_grows (tb_users v) (tb_users v') ->
  call_ok t n v v'.
Proof.
  intros Hgood Hs Hl Hk Hu. destruct Hgood as [Hcount Ku Ks Kl Gs Gl]. split_and!.
  - split; rewrite ?Hs, ?Hl; [lia|eauto using shipment_ok_mono, leg_ok_mono..].
  - split; rewrite ?Hs, ?Hl; [done|by reflexivity..].
  - split; rewrite ?Hs, ?Hl; apply tenant_only_refl.
Qed.

Lemma call_same t n v :
  good n v -> call_ok t n v v.
Proof.
  intros Hgood. apply call_frame; [done..|apply Hgood|reflexivity]. Qed.

Lemma call_sessions t n v m :
  good n v -> call_ok t n v (set_sessions m v).
Proof.
  intros Hgood. destruct v. apply call_frame; [done..|apply Hgood|reflexivity]. Qed.

Lemma call_customs t n v m :
  good n v -> call_ok t n v (set_customs m v).
Proof.
  intros Hgood. destruct v. apply call_frame; [done..|apply Hgood|reflexivity]. Qed.

Lemma call_security t n v m :
  good n v -> call_ok t n v (set_security m v).
Proof.
  intros Hgood. destruct v. apply call_frame; [done..|apply Hgood|reflexivity]. Qed.

Lemma call_deactivate t n v id u at_ m :
  good n v ->
  tb_users v !! id = Some u ->
  call_ok t n v (set_sessions m (set_users (<[id := deactivated at_ u]> (tb_users v)) v)).
Proof.
  intros Hgood Hu. pose proof (good_users _ _ Hgood) as Ku. destruct v as [us ss sh lg cu se]. simpl in *.
  apply call_frame; [done..| |]; simpl.
  - eapply keyed_update; [done..|]. by destruct u.
  - eapply map_grows_insert; [apply _|done|]. by destruct u.
Qed.

(** A shipment moves on. *)
Lemma call_set_shipment t n v id s s' :
  good n v ->
  tb_shipments v !! id = Some s -> sh_TenantID s = t ->
  shipment_grows s s' -> sh_LegID s' = sh_LegID s ->
  sh_Version s' <= n + 1 -> (sh_Status s' = ShipmentDraft -> sh_LegID s' = None) ->
  call_ok t n v (set_shipments (<[id := s']> (tb_shipments v)) v).
Proof.
  intros Hgood Hid Ht Hgrows Hleg Hn Hd. destruct Hgood as [Hcount Ku Ks Kl Gs Gl].
  pose proof (grows_same _ _ Hgrows) as (Hid' & Ht' & Ho & Hdest & Hw & Hi).
  destruct v as [us ss sh lg cu se]. simpl in *. split_and!.
  - split; simpl; [lia|done| |done| |].
    + by eapply keyed_update.
    + intros k x. rewrite lookup_insert. case_decide; [intros [= <-]|].
      * destruct (Gs _ _ Hid) as [Hv1 Hw1 Hd1 Hl1]. split; simpl in *.
        -- destruct (grows_version _ _ Hgrows) as [->|]; lia.
        -- congruence.
        -- done.
        -- intros l. rewrite Hleg, Ht', Ho, Hdest. apply Hl1.
      * intros Hx. eapply shipment_ok_mono; [|by eapply Gs]. done.
    + intros k l Hk. eapply (leg_ok_shipment _ (mkTables us ss sh lg cu se)); [exact Hid| |done|].
      * unfold load_on. by rewrite Hleg, Hw.
      * by apply (leg_ok_mono n (mkTables us ss sh lg cu se)), Gl.
  - split; simpl; [by reflexivity| |by reflexivity]. eapply map_grows_insert; [apply _|done..].
  - split; simpl; [|apply tenant_only_refl]. apply tenant_only_insert; [|congruence].
    intros; congruence.
Qed.

Lemma call_new_shipment t n v s :
  good n v ->
  tb_shipments v !! sh_ID s = None -> sh_TenantID s = t -> sh_LegID s = None ->
  sh_Version s = 1 -> 0 < sh_WeightKg s <= max_weight ->
  call_ok t n v (set_shipments (<[sh_ID s := s]> (tb_shipments v)) v).
Proof.
  intros Hgood Hid Ht Hleg Hv Hw. destruct Hgood as [Hcount Ku Ks Kl Gs Gl].
  destruct v as [us ss sh lg cu se]. simpl in *. split_and!.
  - split; simpl; [lia|done|by apply keyed_insert|done| |].
    + intros k x. rewrite lookup_insert. case_decide; [intros [= <-]|].
      * split; [lia|done|done|]. simpl. intros l. congruence.
      * intros Hx. eapply shipment_ok_mono; [|by eapply Gs]. done.
    + intros k l Hk. eapply (leg_ok_new_shipment _ (mkTables us ss sh lg cu se)); [exact Hid| |done|].
      * unfold load_on. by rewrite Hleg.
      * by apply (leg_ok_mono n (mkTables us ss sh lg cu se)), Gl.
  - split; simpl; [by reflexivity| |by reflexivity]. apply map_grows_new; [apply _|done].
  - split; simpl; [|apply tenant_only_refl]. apply tenant_only_insert; [|done]. congruence.
Qed.

Lemma call_set_leg t n v id l l' :
  good n v ->
  tb_legs v !! id = Some l -> leg_TenantID l = t -> leg_grows l l' ->
  leg_ReservedKg l' = leg_ReservedKg l -> leg_Version l' <= n + 1 ->
  call_ok t n v (set_legs (<[id := l']> (tb_legs v)) v).
Proof.
  intros Hgood Hid Ht Hgrows Hres Hn. destruct Hgood as [Hcount Ku Ks Kl Gs Gl].
  pose proof (leg_grows_same _ _ Hgrows) as (Hid' & Ht' & Ho & Hdest & Hc).
  destruct v as [us ss sh lg cu se]. simpl in *. split_and!.
  - split; simpl; [lia|done|done|by eapply keyed_update| |].
    + intros k x Hx. eapply (shipment_ok_leg _ (mkTables us ss sh lg cu se)); [exact Hid|done|done|].
      by apply (shipment_ok_mono n (mkTables us ss sh lg cu se)), (Gs k).
    + intros k x. rewrite lookup_insert. case_decide; [intros [= <-]; subst|].
      * destruct (Gl _ _ Hid) as [Hv1 Hc1 Hr1 Ha1]. split; simpl in *; [|congruence..|congruence].
        destruct (leg_grows_version _ _ Hgrows) as [->|]; lia.
      * intros Hx. eapply leg_ok_mono; [|by eapply Gl]. done.
  - split; simpl; [by reflexivity..|]. eapply map_grows_insert; [apply _|done..].
  - split; simpl; [apply tenant_only_refl|]. apply tenant_only_insert; [|congruence].
    intros; congruence.
Qed.

Lemma no_load_on_new_leg n v id :
  good n v -> tb_legs v !! id = None -> map_sum (load_on id) (tb_shipments v) = 0.
Proof.
  intros Hgood Hid. apply map_sum_zero. intros k s Hk. unfold load_on. case_decide as Hleg; [|done].
  destruct (ok_leg _ _ _ (good_shipment _ _ Hgood _ _ Hk) _ Hleg) as (l & Hl & _). congruence.
Qed.

Lemma call_new_leg t n v l :
  good n v ->
  tb_legs v !! leg_ID l = None -> leg_TenantID l = t -> leg_ReservedKg l = 0 ->
  leg_Version l = 1 -> 0 < leg_CapacityKg l <= max_weight ->
  call_ok t n v (set_legs (<[leg_ID l := l]> (tb_legs v)) v).
Proof.
  intros Hgood Hid Ht Hres Hv Hc. pose proof (no_load_on_new_leg _ _ _ Hgood Hid) as Hload.
  destruct Hgood as [Hcount Ku Ks Kl Gs Gl].
  destruct v as [us ss sh lg cu se]. simpl in *. split_and!.
  - split; simpl; [lia|done|done|by apply keyed_insert| |].
    + intros k x Hx. eapply (shipment_ok_new_leg _ (mkTables us ss sh lg cu se)); [exact Hid|done|].
      by apply (shipment_ok_mono n (mkTables us ss sh lg cu se)), (Gs k).
    + intros k x. rewrite lookup_insert. case_decide; [intros [= <-]; subst|].
      * split; simpl; lia.
      * intros Hx. eapply leg_ok_mono; [|by eapply Gl]. done.
  - split; simpl; [by reflexivity..|]. apply map_grows_new; [apply _|done].
  - split; simpl; [apply tenant_only_refl|]. apply tenant_only_insert; [|done]. congruence.
Qed.
End calls.

Lemma booked_on_grows n s leg at_ :
  1 <= sh_Version s <= n -> n < max_int64 ->
  sh_Status s = ShipmentDraft -> sh_LegID s = None ->
  sh_Version (booked_on leg at_ s) = sh_Version s + 1 /\
  shipment_grows s (booked_on leg at_ s).
Proof.
  intros Hv Hn Hst Hleg. destruct s; unfold booked_on; simpl in *. subst.
  rewrite add64_exact by int64_lia. split; [done|]. split; simpl; [done|right; lia| |done].
  apply rtc_once. constructor.
Qed.

Lemma reserved_on_grows n w l :
  1 <= leg_Version l <= n -> n < max_int64 -> 0 < w -> in_int64 (leg_ReservedKg l + w) ->
  leg_Version (reserved_on w l) = leg_Version l + 1 /\
  leg_ReservedKg (reserved_on w l) = leg_ReservedKg l + w /\ leg_grows l (reserved_on w l).
Proof.
  intros Hv Hn Hw Hsum. destruct l; unfold reserved_on; simpl in *. rewrite !add64_exact by (done || int64_lia).
  split_and!; [done..|]. split; simpl; [done|right; lia|lia].
Qed.

(** The load of every leg after a booking. *)
Lemma load_on_booked id leg at_ s :
  sh_LegID s = None ->
  load_on id (booked_on leg at_ s) = load_on id s + if decide (id = leg) then sh_WeightKg s else 0.
Proof.
  intros Hs. unfold load_on. rewrite Hs. destruct s; simpl. repeat case_decide; naive_solver lia.
Qed.

Lemma edge_to_booked s : ship_edge s ShipmentBooked -> s = ShipmentDraft.
Proof. intros H. by edge_cases H. Qed.

(** A booking takes the weight of the shipment out of the capacity of the leg. *)
Lemma call_book t n v sid lid s l at_ :
  good n v -> n < max_int64 ->
  tb_shipments v !! sid = Some s -> tb_legs v !! lid = Some l ->
  sh_TenantID s = t -> leg_TenantID l = t ->
  Shipment_CanTransition (sh_Status s) ShipmentBooked = true ->
  sh_Origin s = leg_Origin l -> sh_Destination s = leg_Destination l ->
  ValidateCapacity l (sh_WeightKg s) = None ->
  call_ok t n v (set_shipments (<[sid := booked_on lid at_ s]> (tb_shipments v))
                  (set_legs (<[lid := reserved_on (sh_WeightKg s) l]> (tb_legs v)) v)).
Proof.
  intros Hgood Hn Hs Hl Hst Hlt Hcan Horig Hdest Hcap.
  apply Shipment_CanTransition_edge, edge_to_booked in Hcan.
  pose proof (good_shipment _ _ Hgood _ _ Hs) as [Sv Sw Sd _].
  pose proof (good_leg _ _ Hgood _ _ Hl) as [Lv Lc Lr La].
  specialize (Sd Hcan).
  pose proof (ValidateCapacity_nonneg _ _ Hcap) as [_ Hres].
  assert (Hsum : in_int64 (leg_ReservedKg l + sh_WeightKg s)) by (unfold max_weight in *; int64_lia).
  apply (ValidateCapacity_exact _ _ Hsum) in Hcap as (_ & Lr0 & Lfit).
  destruct (booked_on_grows n s lid at_) as [Sv' Sg]; [done..|].
  destruct (reserved_on_grows n (sh_WeightKg s) l) as (Lv' & Lres & Lg); [done|done|lia|done|].
  destruct Hgood as [Hcount Ku Ks Kl Gs Gl]. destruct v as [us ss sh lg cu se]. simpl in *. split_and!.
  - split; simpl; [lia|done| | | |].
    + eapply keyed_update; [done..|by destruct s].
    + eapply keyed_update; [done..|by destruct l].
    + intros k x. rewrite lookup_insert. case_decide; [intros [= <-]|].
      * split; [by lia|by destruct s|by destruct s|]. intros k'. simpl.
        replace (sh_LegID (booked_on lid at_ s)) with (Some lid) by (by destruct s).
        intros [= <-]. rewrite lookup_insert_eq. eexists. split; [done|].
        destruct s, l; simpl in *; split_and!; congruence.
      * intros Hx. eapply (shipment_ok_leg _ (mkTables us ss sh lg cu se)); [exact Hl|done|done|].
        by apply (shipment_ok_mono n (mkTables us ss sh lg cu se)), (Gs k).
    + intros k x. rewrite lookup_insert. case_decide as Hk; [intros [= <-]|]; subst.
      * destruct l; simpl in *. split; simpl in *; [lia..|].
        rewrite (map_sum_update _ _ _ _ _ Hs), load_on_booked, decide_True by done. lia.
      * intros Hx. destruct (Gl _ _ Hx) as [Hv1 Hc1 Hr1 Ha1]. split; simpl in *; [lia..|].
        rewrite (map_sum_update _ _ _ _ _ Hs), load_on_booked, decide_False by congruence. lia.
  - split; simpl; [by reflexivity|eapply map_grows_insert; [apply _|done..]..].
  - split; simpl; apply tenant_only_insert; try (intros; congruence); by destruct s, l.
Qed.

(** ** Every use case is safe *)

Section use_cases.
Context `{External}.

Definition safe_use_case {A} (t : string) (p : prog A) (v0 : tables) : Prop :=
  safe good grow isolated max_int64 t p v0.

Section rules.
Context {A B : Type} (t : string) (k : result B -> prog A) (v0 : tables).

Lemma safe_reads (op : storeop (result B)) P :
  (forall v r v', store_may op v r v' -> reads P v r v') ->
  (forall n v r, grow v0 v -> good n v -> (forall a, r = Ok a -> P v a) ->
   safe_use_case t (k r) v) ->
  safe_use_case t (Call op k) v0.
Proof.
  intros Hop Hk n v v' r Hv Hn Hg Hpost. destruct (Hop _ _ _ Hpost) as [-> Hr].
  split; [by apply call_same|]. by apply (Hk n).
Qed.

Lemma safe_writes (op : storeop (result B)) Q :
  (forall v r v', store_may op v r v' -> writes false Q v r v') ->
  (forall n v a v', grow v0 v -> n < max_int64 -> good n v -> Q v a v' -> call_ok t n v v') ->
  (forall v r, grow v0 v -> safe_use_case t (k r) v) ->
  safe_use_case t (Call op k) v0.
Proof.
  intros Hop Hok Hk n v v' r Hv Hn Hg Hpost. specialize (Hop _ _ _ Hpost).
  assert (Hcall : call_ok t n v v').
  { destruct r as [a|e]; simpl in Hop; [by eapply Hok|]. destruct Hop as [->|[a Ha]]; [by apply call_same|by eapply Hok]. }
  split; [done|]. apply Hk. etrans; [exact Hv|]. apply Hcall.
Qed.
End rules.

(** [safe_read] and [safe_write] take one call of a use case. *)
Ltac safe_read v Hv Hg a Ha :=
  let n := fresh "calls" in
  eapply safe_reads; [exact (fun _ _ _ Hpost => Hpost)|];
  intros n v [a|?] Hv Hg Ha; [specialize (Ha a eq_refl)|clear Ha].
Ltac safe_write :=
  eapply safe_writes; [exact (fun _ _ _ Hpost => Hpost)| |by intros ? []; repeat case_match].

Lemma Authenticate_safe t token now v0 : safe_use_case t (Authenticate token now) v0.
Proof.
  unfold Authenticate. case_decide; [done|]. safe_read v Hv Hg s Hs; [|done].
  destruct (IsSessionActive s now); [done|]. safe_read v' Hv' Hg' u Hu; [|done].
  by destruct (u_Active _).
Qed.

Lemma Login_safe t a email password raw rid now v0 :
  safe_use_case t (Login a email password raw rid now) v0.
Proof.
  unfold Login. safe_read v Hv Hg u Hu; [|done].
  destruct (negb _); [done|]. destruct (Compare _ _); [done|]. destruct (randomToken raw); [|done].
  safe_write. intros n w [] w' _ _ Hw (x & r & c & ->). by apply call_sessions.
Qed.

Lemma Logout_safe t token now v0 : safe_use_case t (Logout token now) v0.
Proof.
  unfold Logout. case_decide; [done|]. safe_write.
  intros n w [] w' _ _ Hw (h & m & _ & ->). by apply call_sessions.
Qed.

Lemma DeactivateUser_safe t actor target now1 now2 v0 :
  safe_use_case t (DeactivateUser actor target now1 now2) v0.
Proof.
  unfold DeactivateUser. apply (safe_bind good grow isolated); [apply Authenticate_safe|].
  intros [[u s]|e] v Hv; [|done]. case_decide; [done|]. safe_write.
  intros n w [] w' _ _ Hw (x & m & at_ & Hx & _ & ->). by apply call_deactivate.
Qed.

(** A request that creates a shipment with no leg and a weight in range. *)
Definition sane_shipment (s : Shipment) : Prop :=
  sh_LegID s = None /\ sh_WeightKg s <= max_weight.

Lemma ValidateShipment_weight s : ValidateShipment s = None -> 0 < sh_WeightKg s.
Proof. unfold ValidateShipment. repeat case_decide; try done. intros. lia. Qed.

Lemma CreateShipment_safe u s idem rid now v0 :
  sane_shipment s -> safe_use_case (u_TenantID u) (CreateShipment u s idem rid now) v0.
Proof.
  intros [Hleg Hw]. unfold CreateShipment. case_decide; [done|].
  match goal with |- context [ValidateShipment ?x] => set (s' := x) end.
  destruct (ValidateShipment s') eqn:Hval; [done|]. apply ValidateShipment_weight in Hval.
  assert (Hcreate : forall v, safe_use_case (u_TenantID u)
    (r <- repository.CreateShipment s' ;;
     match r with
     | Err err => Ret (Err (Errorf "create shipment: " err ""))
     | Ok _ => Ret (Ok s')
     end) v).
  { intros v. safe_write. intros n w [] w' _ _ Hg [[-> _]|(Hnew & x & y & ->)]; [by apply call_same|].
    by apply (call_new_shipment _ _ _ (retimed_shipment x y s')). }
  case_decide; [|done]. safe_read v Hv Hg old Hold; [done|]. by destruct (negb _).
Qed.

Lemma GetShipment_safe u id v0 : safe_use_case (u_TenantID u) (GetShipment u id) v0.
Proof. unfold GetShipment. by safe_read v Hv Hg s Hs. Qed.

Lemma ListShipments_safe order u req v0 :
  safe_use_case (u_TenantID u) (ListShipments order u req) v0.
Proof. unfold ListShipments. case_decide; [done|]. by safe_read v Hv Hg s Hs. Qed.

Lemma BookShipment_safe u id legID now v0 :
  safe_use_case (u_TenantID u) (BookShipment u id legID now) v0.
Proof.
  unfold BookShipment. case_decide; [done|]. safe_read v Hv Hg s Hs; [|done].
  safe_read v1 Hv1 Hg1 l Hl; [|done]. destruct (_ || _); [done|]. case_decide; [done|].
  safe_write. intros n w b w' _ Hn Hw (s1 & l1 & z & ? & ? & ? & ? & ? & ? & ? & ? & ? & ? & ? & -> & ->).
  by apply call_book.
Qed.

Lemma store_transition_safe t id s next now v0 :
  tb_shipments v0 !! id = Some s -> sh_ID s = id -> sh_TenantID s = t ->
  Shipment_CanTransition (sh_Status s) next = true ->
  safe_use_case t (store_transition s next now) v0.
Proof.
  intros Hs Hid Ht Hcan%Shipment_CanTransition_edge. unfold store_transition. safe_write.
  intros n w [] w' Hv0 Hn Hw (old & key & x & y & Hold & Hver & Hkey & ->).
  replace (sh_ID (set_sh_UpdatedAt now (set_sh_Status next s))) with id in * by (by destruct s).
  replace (sh_Version (set_sh_UpdatedAt now (set_sh_Status next s))) with (sh_Version s) in *
    by (by destruct s).
  destruct (grow_shipments _ _ Hv0 _ _ Hs) as (s' & Hs' & Hgr).
  assert (s' = s /\ old = s) as [-> ->].
  { destruct (grows_version _ _ Hgr) as [->|]; split; try congruence.
    - assert (old = s') by congruence. subst. lia.
    - assert (old = s') by congruence. subst. lia. }
  pose proof (ok_version _ _ _ (good_shipment _ _ Hw _ _ Hold)) as Hvn.
  assert (key = sh_IdempotencyKey s) as -> by (clear -Hkey; destruct s; naive_solver).
  rewrite add64_exact by int64_lia.
  eapply call_set_shipment; [done|exact Hold|done| | | |].
  - destruct s; simpl in *. split; simpl; [done|right; lia|by apply rtc_once|done].
  - by destruct s.
  - destruct s; simpl in *; lia.
  - intros Hd. destruct s; simpl in *. subst. by apply no_edge_to_draft in Hcan.
Qed.

Lemma TransitionShipment_safe u id next now v0 :
  safe_use_case (u_TenantID u) (TransitionShipment u id next now) v0.
Proof.
  unfold TransitionShipment. case_decide; [done|]. safe_read v Hv Hg s Hs; [|done].
  destruct Hs as [Hs Ht].
  destruct (negb _) eqn:Hcan; [done|]. apply negb_false_iff in Hcan.
  assert (Hst : forall w, grow v w -> tb_shipments v !! id = Some s ->
    safe_use_case (u_TenantID u) (store_transition s next now) w).
  { intros w Hw _. apply (safe_grow good grow isolated _ _ _ v); [done|].
    eapply store_transition_safe; [done| |done|done]. by eapply (good_keys _ _ Hg). }
  case_decide; [|by apply Hst].
  safe_read v1 Hv1 Hg1 c Hc; safe_read v2 Hv2 Hg2 sec Hsec; try done.
  destruct (_ || _); [done|]. apply Hst; [by etrans|done].
Qed.

(** A request that creates a leg with nothing reserved and a capacity in range. *)
Definition sane_leg (l : FlightLeg) : Prop :=
  leg_ReservedKg l = 0 /\ leg_CapacityKg l <= max_weight.

Lemma CreateLeg_safe u l rid now1 now2 v0 :
  sane_leg l -> safe_use_case (u_TenantID u) (CreateLeg u l rid now1 now2) v0.
Proof.
  intros [Hres Hcap]. unfold CreateLeg. case_decide; [done|].
  match goal with |- context [ValidateLeg ?x] => set (l' := x) end.
  destruct (ValidateLeg l' now2) eqn:Hval; [done|].
  assert (0 < leg_CapacityKg l').
  { unfold ValidateLeg in Hval. case_decide; [done|]. lia. }
  safe_write. intros n w [] w' _ _ Hw (Hnew & x & y & z & ->).
  by apply (call_new_leg _ _ _ (retimed_leg x y z l')).
Qed.

Lemma OpenLeg_safe u id v0 : safe_use_case (u_TenantID u) (OpenLeg u id) v0.
Proof.
  unfold OpenLeg. case_decide; [done|]. safe_read v Hv Hg l Hl; [|done].
  safe_write. intros n w [] w' _ Hn Hw (l1 & Hl1 & Ht & Hver & ->).
  pose proof (ok_leg_version _ _ _ _ (good_leg _ _ Hw _ _ Hl1)) as Hvn.
  rewrite <- Hver, add64_exact by int64_lia.
  eapply call_set_leg; [done|exact Hl1|done| | |]; destruct l1; simpl in *; [|done|lia].
  split; simpl; [done|right; lia|lia].
Qed.

Lemma PutCustoms_safe u c rid now v0 : safe_use_case (u_TenantID u) (PutCustoms u c rid now) v0.
Proof.
  unfold PutCustoms. case_decide; [done|]. safe_read v Hv Hg s Hs; [|done].
  safe_read v1 Hv1 Hg1 old Hold; [destruct (negb _); [done|]|];
    safe_write; intros n w [] w' _ _ Hw [m ->]; by apply call_customs.
Qed.

Lemma PutSecurity_safe u c rid now v0 : safe_use_case (u_TenantID u) (PutSecurity u c rid now) v0.
Proof.
  unfold PutSecurity. case_decide; [done|]. safe_read v Hv Hg s Hs; [|done].
  safe_write; intros n w [] w' _ _ Hw [m ->]; by apply call_security.
Qed.

Lemma Summary_safe order u v0 : safe_use_case (u_TenantID u) (Summary order u) v0.
Proof.
  unfold Summary. case_decide; [done|]. safe_read v Hv Hg p Hp; [|done].
  intros n w w' r Hw Hn Hgw Hpost. split; [rewrite Hpost; by apply call_same|].
  destruct r as [[pending failed]|]; [|done]. by destruct (foldl _ _ _).
Qed.

Lemma Ping_safe t v0 : safe_use_case t Ping v0.
Proof.
  intros n v v' r Hv Hn Hg Hpost. split; [|done].
  change (v' = v) in Hpost. subst v'. by apply call_same.
Qed.
End use_cases.

(** ** Requests *)

(** A request for a use case, with everything the use case takes. *)
Inductive request :=
  | RLogin (a : Application) (email password : string) (raw : result string) (rid : string)
      (now : Time)
  | RLogout (token : string) (now : Time)
  | RDeactivateUser (actor target : string) (now1 now2 : Time)
  | RCreateShipment (u : User) (s : Shipment) (idem rid : string) (now : Time)
  | RGetShipment (u : User) (id : string)
  | RListShipments (order : list string) (u : User) (req : PageRequest)
  | RBookShipment (u : User) (id legID : string) (now : Time)
  | RTransitionShipment (u : User) (id : string) (next : ShipmentStatus) (now : Time)
  | RCreateLeg (u : User) (l : FlightLeg) (rid : string) (now1 now2 : Time)
  | ROpenLeg (u : User) (id : string)
  | RPutCustoms (u : User) (c : CustomsCase) (rid : string) (now : Time)
  | RPutSecurity (u : User) (s : SecurityCheck) (rid : string) (now : Time)
  | RSummary (order : list string) (u : User).

(** The tenant a request acts for; the session requests touch no cargo. *)
Definition request_tenant (r : request) : string :=
  match r with
  | RLogin _ _ _ _ _ _ | RLogout _ _ | RDeactivateUser _ _ _ _ => ""
  | RCreateShipment u _ _ _ _ | RGetShipment u _ | RListShipments _ u _
  | RBookShipment u _ _ _ | RTransitionShipment u _ _ _ | RCreateLeg u _ _ _ _
  | ROpenLeg u _ | RPutCustoms u _ _ _ | RPutSecurity u _ _ _ | RSummary _ u => u_TenantID u
  end.

(** Shipments are created without a leg, legs without reservations, and both with
    weights in range. *)
Definition sane (r : request) : Prop :=
  match r with
  | RCreateShipment _ s _ _ _ => sane_shipment s
  | RCreateLeg _ l _ _ _ => sane_leg l
  | _ => True
  end.

(** The error a use case ends with. *)
Definition outcome {A} (p : prog (result A)) : prog (option error) :=
  r <~ p ;; Ret (match r with Ok _ => None | Err e => Some e end).

Section serve.
Context `{External}.

Definition serve (r : request) : prog (option error) :=
  match r with
  | RLogin a email password raw rid now => outcome (Login a email password raw rid now)
  | RLogout token now => outcome (Logout token now)
  | RDeactivateUser actor target now1 now2 => outcome (DeactivateUser actor target now1 now2)
  | RCreateShipment u s idem rid now => outcome (CreateShipment u s idem rid now)
  | RGetShipment u id => outcome (GetShipment u id)
  | RListShipments order u req => outcome (ListShipments order u req)
  | RBookShipment u id legID now => outcome (BookShipment u id legID now)
  | RTransitionShipment u id next now => outcome (TransitionShipment u id next now)
  | RCreateLeg u l rid now1 now2 => outcome (CreateLeg u l rid now1 now2)
  | ROpenLeg u id => outcome (OpenLeg u id)
  | RPutCustoms u c rid now => outcome (PutCustoms u c rid now)
  | RPutSecurity u s rid now => outcome (PutSecurity u s rid now)
  | RSummary order u => outcome (Summary order u)
  end.

Lemma serve_safe r v : sane r -> safe_use_case (request_tenant r) (serve r) v.
Proof.
  intros Hr. destruct r; simpl in *; (eapply safe_bind; [apply _| |done]).
  - apply Login_safe.
  - apply Logout_safe.
  - apply DeactivateUser_safe.
  - by apply CreateShipment_safe.
  - apply GetShipment_safe.
  - apply ListShipments_safe.
  - apply BookShipment_safe.
  - apply TransitionShipment_safe.
  - by apply CreateLeg_safe.
  - apply OpenLeg_safe.
  - apply PutCustoms_safe.
  - apply PutSecurity_safe.
  - apply Summary_safe.
Qed.

(** The server at work on [rs] from store [s]. *)
Definition serving {state} (rs : list request) (s : state)
    : list (string * prog (option error)) * state :=
  (map (fun r => (request_tenant r, serve r)) rs, s).

Lemma serving_safe {state} `{LawfulStore state} rs s :
  store_inv s -> Forall sane rs -> pool_safe good grow isolated max_int64 (serving rs s).
Proof.
  intros Hs Hrs. split; [done|]. simpl. induction Hrs; simpl; [constructor|].
  constructor; [by apply serve_safe|done].
Qed.
End serve.

(** ** Every interleaving *)

(** The writes that carry the version their caller read: the shipment and the
    version. *)
Definition shipment_write {X} (op : storeop X) : option (string * Z) :=
  match op with
  | UpdateShipment v version => Some (sh_ID v, version)
  | repository.BookShipment _ id _ version _ _ => Some (id, version)
  | _ => None
  end.

(** What such a write returns when it takes effect. *)
Definition succeeds {X} (op : storeop X) : X -> Prop :=
  match op in storeop X return X -> Prop with
  | UpdateShipment _ _ => fun r => ~ is_err r
  | repository.BookShipment _ _ _ _ _ _ => fun r => ~ is_err r
  | _ => fun _ => False
  end.

Section interleavings.
Context `{External} {state : Type} `{Hlaw : LawfulStore state}.
Context (rs : list request) (n m : nat) (s0 : state) (c : list (string * prog (option error)) * state).
Context (Hinv : store_inv s0) (Hgood : good (Z.of_nat n) (view s0)) (Hsane : Forall sane rs).
Context (Hsteps : nsteps any_step m (serving rs s0) c).

Lemma serving_sound :
  Z.of_nat (n + m) <= max_int64 ->
  pool_safe good grow isolated max_int64 c /\ good (Z.of_nat (n + m)) (view c.2) /\
  grow (view s0) (view c.2).
Proof.
  intros Hm. rewrite Nat2Z.inj_add in *.
  exact (pool_sound good grow isolated max_int64 _ m (serving rs s0) c
    (serving_safe rs s0 Hinv Hsane) Hgood Hsteps Hm).
Qed.

Lemma serving_later k c' :
  nsteps any_step k c c' -> Z.of_nat (n + m + k) <= max_int64 ->
  good (Z.of_nat (n + m)) (view c.2) /\ good (Z.of_nat (n + m + k)) (view c'.2) /\
  store_inv c'.2 /\ grow (view c.2) (view c'.2).
Proof.
  intros Hk Hle. destruct serving_sound as (Hsafe & Hg & _); [lia|].
  destruct (pool_sound good grow isolated max_int64 (Z.of_nat (n + m)) k c c') as ([Hi _] & Hg' & Hgr);
    [done..|lia|]. split_and!; [done| |done..].
  by replace (Z.of_nat (n + m + k)) with (Z.of_nat (n + m) + Z.of_nat k) by lia.
Qed.
End interleavings.

(** The load of the shipments on a leg is never negative. *)
Lemma load_nonneg n v id : good n v -> 0 <= map_sum (load_on id) (tb_shipments v).
Proof.
  intros Hg. apply map_sum_nonneg. intros k s Hk. unfold load_on. case_decide; [|done].
  pose proof (ok_weight _ _ _ (good_shipment _ _ Hg _ _ Hk)). lia.
Qed.

(** A write that takes effect finds the version it carries and leaves a later one.  It
    takes effect when it succeeds, and when it changes something although it reports
    an error. *)
Lemma shipment_write_version {X} (op : storeop X) n v r v' id k :
  good n v -> n < max_int64 -> store_may op v r v' -> succeeds op r \/ v' <> v ->
  shipment_write op = Some (id, k) ->
  (exists s, tb_shipments v !! id = Some s /\ sh_Version s = k) /\
  (exists s', tb_shipments v' !! id = Some s' /\ sh_Version s' = k + 1).
Proof.
  intros Hg Hn Hpost Hr Hop. destruct op; simpl in *; try done; simplify_eq.
  - assert (Hdone : exists x, store_may (UpdateShipment v0 k) v (Ok x) v').
    { destruct r as [x|e]; [by exists x|]. destruct Hr as [[]|Hr]; [done|]. by destruct Hpost. }
    clear Hpost. destruct Hdone as (_ & old & key & x & y & Hold & Hver & _ & ->).
    pose proof (ok_version _ _ _ (good_shipment _ _ Hg _ _ Hold)) as Hv.
    split; [by exists old|]. exists (set_sh_Version (add64 k 1) (rekeyed key (retimed_shipment x y v0))).
    destruct v, v0; simpl in *. rewrite lookup_insert_eq. split; [done|].
    rewrite add64_exact by int64_lia. done.
  - assert (Hdone : exists x, store_may (repository.BookShipment tenant id legID k legVersion at_) v (Ok x) v').
    { destruct r as [x|e]; [by exists x|]. destruct Hr as [[]|Hr]; [done|]. by destruct Hpost. }
    clear Hpost. destruct Hdone as (x & s & l & u & Hs & _ & _ & _ & Hver & _ & _ & _ & _ & _ & _ & -> & ->).
    pose proof (ok_version _ _ _ (good_shipment _ _ Hg _ _ Hs)) as Hv.
    split; [by exists s|]. exists (booked_on legID u s).
    destruct v, s; simpl in *. rewrite lookup_insert_eq. split; [done|].
    rewrite add64_exact by int64_lia. by subst.
Qed.

(** A write that carries another version than the shipment has fails, and changes
    nothing. *)
Lemma stale_write {X} (op : storeop X) v r v' id k :
  store_may op v r v' -> shipment_write op = Some (id, k) ->
  (forall s, tb_shipments v !! id = Some s -> sh_Version s <> k) -> ~ succeeds op r /\ v' = v.
Proof.
  intros Hpost Hop Hstale. destruct op; simpl in *; try done; simplify_eq; destruct r as [x|e].
  - destruct Hpost as (old & ? & ? & ? & Hold & ? & _). by destruct (Hstale old).
  - split; [intros Hc; by destruct Hc|]. destruct Hpost as [->|(_ & old & ? & ? & ? & Hold & ? & _)]; [done|]. by destruct (Hstale old).
  - destruct Hpost as (s & l & _ & Hs & _ & _ & _ & ? & _). by destruct (Hstale s).
  - split; [intros Hc; by destruct Hc|]. destruct Hpost as [->|(_ & s & l & _ & Hs & _ & _ & _ & ? & _)]; [done|]. by destruct (Hstale s).
Qed.

(** C1. Whatever the interleaving of the requests of all tenants, at every moment
    the reservation counter of every leg is the total weight of the shipments
    booked on it, and lies between zero and the capacity.  The requests are [sane]: a
    new shipment comes without a leg, a new leg without reservations, with a weight
    and a capacity of at most 2^62-1; and the start is [good]: it has these
    properties already, as a store without cargo does, and fewer than 2^63-1 calls
    are made. *)
Theorem no_overbooking `{External} {state} `{LawfulStore state} rs n m (s0 s : state) ts :
  store_inv s0 -> good (Z.of_nat n) (view s0) -> Forall sane rs ->
  nsteps any_step m (serving rs s0) (ts, s) -> Z.of_nat (n + m) <= max_int64 ->
  forall id l, tb_legs (view s) !! id = Some l ->
  leg_ReservedKg l = map_sum (load_on id) (tb_shipments (view s)) /\
  0 <= leg_ReservedKg l <= leg_CapacityKg l.
Proof.
  intros Hinv Hgood Hrs Hsteps Hm id l Hl.
  destruct (serving_sound rs n m s0 (ts, s)) as (_ & Hg & _); [done..|].
  destruct (good_leg _ _ Hg _ _ Hl) as [_ _ Hr Ha].
  split; [done|]. pose proof (load_nonneg _ _ id Hg). simpl in *. lia.
Qed.

(** C3. No shipment is lost or rewritten: between any two moments of any
    interleaving every shipment keeps its identity, tenant, route, weight and
    idempotency key, its status only moves along the machine, its leg is never
    dropped or exchanged, and any change raises its version.  The requests are [sane]
    and the start [good], as above: no shipment is created with a leg. *)
Theorem shipment_history `{External} {state} `{LawfulStore state} rs n m k (s0 : state) c c' :
  store_inv s0 -> good (Z.of_nat n) (view s0) -> Forall sane rs ->
  nsteps any_step m (serving rs s0) c -> nsteps any_step k c c' ->
  Z.of_nat (n + m + k) <= max_int64 ->
  forall id s, tb_shipments (view c.2) !! id = Some s ->
  exists s', tb_shipments (view c'.2) !! id = Some s' /\ shipment_grows s s'.
Proof.
  intros Hinv Hgood Hrs Hsteps Hk Hm id s Hs.
  destruct (serving_later rs n m s0 c Hinv Hgood Hrs Hsteps k c') as (_ & _ & _ & Hgr); [done..|].
  by apply (grow_shipments _ _ Hgr).
Qed.

(** C4. No update is lost: after a versioned write of a shipment took effect, even one
    that reported an error, a later write that carries the same version fails and
    changes nothing, in any interleaving. *)
Theorem no_lost_update `{External} {state} `{LawfulStore state} rs n m k (s0 s1 s2 : state)
    ts1 ts2 t X (op : storeop X) f x id version c Y (op' : storeop Y) s3 y :
  store_inv s0 -> good (Z.of_nat n) (view s0) -> Forall sane rs ->
  nsteps any_step m (serving rs s0) (ts1 ++ (t, Call op f) :: ts2, s1) ->
  exec op s1 = (s2, x) -> succeeds op x \/ view s2 <> view s1 -> shipment_write op = Some (id, version) ->
  nsteps any_step k (ts1 ++ (t, f x) :: ts2, s2) c ->
  Z.of_nat (n + (m + 1) + k) <= max_int64 ->
  exec op' c.2 = (s3, y) -> shipment_write op' = Some (id, version) ->
  ~ succeeds op' y /\ view s3 = view c.2.
Proof.
  intros Hinv Hgood Hrs Hsteps Hop Hx Hw Hk Hm Hop' Hw'.
  assert (Hsteps2 : nsteps any_step (m + 1) (serving rs s0) (ts1 ++ (t, f x) :: ts2, s2)).
  { eapply nsteps_trans; [exact Hsteps|]. apply nsteps_once. exists t. by constructor. }
  destruct (serving_sound rs n m s0 (ts1 ++ (t, Call op f) :: ts2, s1)) as ([Hi1 _] & Hg1 & _);
    [done..|lia|].
  destruct (serving_later rs n (m + 1) s0 _ Hinv Hgood Hrs Hsteps2 k c) as (_ & Hg3 & Hi3 & Hgr);
    [done|lia|].
  destruct (shipment_write_version op (Z.of_nat (n + m)) (view s1) x (view s2) id version)
    as [_ (s' & Hs' & Hv')]; [done|lia|by eapply exec_post|done|done|].
  destruct (grow_shipments _ _ Hgr _ _ Hs') as (s'' & Hs'' & Hgr').
  eapply (stale_write op'); [by eapply exec_post|exact Hw'|]. intros s4 Hs4 Hv4. simpl in *.
  destruct (grows_version _ _ Hgr') as [->|]; simplify_eq; lia.
Qed.

(** C5. A call made for one tenant leaves the shipments and legs of every other
    tenant as they are, and adds none to them, in any interleaving of [sane] requests
    from a [good] start. *)
Theorem tenant_isolation `{External} {state} `{LawfulStore state} rs n m (s0 : state) c c' t :
  store_inv s0 -> good (Z.of_nat n) (view s0) -> Forall sane rs ->
  nsteps any_step m (serving rs s0) c -> pool_step t c c' ->
  Z.of_nat (n + m) < max_int64 ->
  (forall id s, sh_TenantID s <> t ->
    tb_shipments (view c'.2) !! id = Some s <-> tb_shipments (view c.2) !! id = Some s) /\
  (forall id l, leg_TenantID l <> t ->
    tb_legs (view c'.2) !! id = Some l <-> tb_legs (view c.2) !! id = Some l).
Proof.
  intros Hinv Hgood Hrs Hsteps Hstep Hm. rewrite Nat2Z.inj_add in Hm.
  destruct (pool_step_sound good grow isolated max_int64 (Z.of_nat n) m (serving rs s0) c t c')
    as [[S1 S2] [L1 L2]]; [by apply serving_safe|done..|].
  split; intros id a Ha; split; intros Hid; eauto.
Qed.

(** A user that is inactive at some moment stays so. *)
Lemma inactive_stays v v' id u u' :
  grow v v' -> tb_users v !! id = Some u -> u_Active u = false ->
  tb_users v' !! id = Some u' -> u_Active u' = false.
Proof.
  intros Hgr Hu Hact Hu'. destruct (grow_users _ _ Hgr _ _ Hu) as (u1 & Hu1 & Hg).
  assert (u1 = u') as -> by congruence. pose proof (user_grows_active _ _ Hg).
  destruct (u_Active u'); [|done]. rewrite Hact in *. naive_solver.
Qed.

Lemma deactivate_inactive n v id at_ v' :
  good n v -> store_may (repository.DeactivateUser id at_) v (Ok tt) v' ->
  exists u, tb_users v' !! id = Some u /\ u_Active u = false.
Proof.
  intros Hg (u & m & z & Hu & _ & ->). exists (deactivated z u).
  destruct v, u; simpl. by rewrite lookup_insert_eq.
Qed.

(** C6. Once a request deactivated a user, no session authenticates as that user
    and no password logs that user in, whatever the other requests, [sane] ones from a
    [good] start, do in between. *)
Theorem deactivated_for_good `{External} {state} `{LawfulStore state} rs n m k (s0 s s1 : state)
    ts1 ts2 t f c id at_ :
  store_inv s0 -> good (Z.of_nat n) (view s0) -> Forall sane rs ->
  nsteps any_step m (serving rs s0)
    (ts1 ++ (t, Call (repository.DeactivateUser id at_) f) :: ts2, s) ->
  exec (repository.DeactivateUser id at_) s = (s1, Ok tt) ->
  nsteps any_step k (ts1 ++ (t, f (Ok tt)) :: ts2, s1) c ->
  Z.of_nat (n + (m + 1) + k) <= max_int64 ->
  (forall token now s2 u se,
    run (Authenticate token now) c.2 = (s2, Ok (u, se)) -> u_ID u <> id) /\
  (forall a email password raw rid now s2 lr,
    run (Login a email password raw rid now) c.2 = (s2, Ok lr) -> u_ID (lr_User lr) <> id).
Proof.
  intros Hinv Hgood Hrs Hsteps Hop Hk Hm.
  assert (Hsteps2 : nsteps any_step (m + 1) (serving rs s0) (ts1 ++ (t, f (Ok tt)) :: ts2, s1)).
  { eapply nsteps_trans; [exact Hsteps|]. apply nsteps_once. exists t. by constructor. }
  edestruct (serving_sound rs n m s0) as ([Hi1 _] & Hg1 & _); [done..|lia|].
  destruct (serving_later rs n (m + 1) s0 _ Hinv Hgood Hrs Hsteps2 k c) as (_ & Hg3 & Hi3 & Hgr);
    [done|lia|].
  edestruct (deactivate_inactive (Z.of_nat (n + m)) (view s) id at_ (view s1)) as (u0 & Hu0 & Hact0);
    [done|by apply (exec_post _ _ _ _ _ Hi1 Hop)|].
  pose proof (good_users _ _ Hg3) as Hkeys.
  split.
  - intros token now s2 u se Hrun.
    destruct (Authenticate_sound _ _ _ _ _ _ Hi3 Hrun) as (_ & _ & Hu & Hact & _).
    intros <-. rewrite <- (Hkeys _ _ Hu) in Hu.
    rewrite (inactive_stays _ _ _ _ _ Hgr Hu0 Hact0 Hu) in Hact. done.
  - intros a email password raw rid now s2 lr Hrun.
    destruct (Login_sound _ _ _ _ _ _ _ _ _ Hi3 Hrun) as (Hu & Hact & _).
    intros <-. rewrite (inactive_stays _ _ _ _ _ Hgr Hu0 Hact0 Hu) in Hact. done.
Qed.
