(* ===== verification/usecases.v ===== *)
(** * The use cases on the in-memory store

    What each use case of [service.v] does when it runs alone on the store of
    [memory.v]: which requests succeed, what they change and return, and that
    the others change nothing. *)

From S2P Require Import Prelude.
From S2P Require Import golang.
From S2P Require Import domain.
From S2P Require Import external.
From S2P Require Import memory.
From S2P Require Import repository.
From S2P Require Import service.
From S2P Require Import interleave.
From S2P Require Import system.

Open Scope string_scope.
Open Scope list_scope.
Open Scope Z_scope.

(** ** Failures *)

Section failures.
Context `{External}.

Lemma all_or_nothing_failed p (s s' : memory.Store) e :
  all_or_nothing p -> run p s = (s', Some e) -> s' = s.
Proof.
  revert s. induction p as [r|X op k IH]; intros s; simpl; [intros _ [= ->]; done|].
  destruct (exec op s) as [s1 x] eqn:Hex. destruct (read_only op) eqn:Hro; intros Hp Hrun.
  - apply (exec_read_only _ _ _ _ _ Hex) in Hro as ->. by eapply IH.
  - specialize (Hp x). destruct (op_error op x) as [err|] eqn:Herr.
    + apply (exec_failed _ _ _ _ _ _ Hex) in Herr as ->. by eapply IH.
    + rewrite Hp in Hrun. by simplify_eq/=.
Qed.

(** Every use case is of that form. *)
Lemma serve_all_or_nothing r : all_or_nothing (serve r).
Proof.
  destruct r; simpl; unfold outcome;
    cbv beta delta [Login Logout DeactivateUser Authenticate CreateShipment GetShipment
      ListShipments BookShipment TransitionShipment store_transition CreateLeg OpenLeg PutCustoms
      PutSecurity Summary];
    repeat (case_match; simpl; try done; intros).
  done.
Qed.
End failures.

(** ** Calls of the in-memory store *)

Section calls.
Context `{External}.

Lemma run_read {A X} (op : storeop X) (k : X -> prog A) (s : memory.Store) :
  read_only op = true -> run (Call op k) s = run (k (exec op s).2) s.
Proof.
  intros Hop. simpl. destruct (exec op s) as [s' x] eqn:Hex.
  by apply (exec_read_only _ _ _ _ _ Hex) in Hop as ->.
Qed.

Lemma run_write {A X} (op : storeop X) (k : X -> prog A) (s : memory.Store) :
  run (Call op k) s = run (k (exec op s).2) (exec op s).1.
Proof. simpl. by destruct (exec op s). Qed.

(** What the reads return. *)
Lemma ask_shipment tenant id s v :
  (exec (repository.GetShipment tenant id) s).2 = Ok v <->
  shipments s !! id = Some v /\ sh_TenantID v = tenant.
Proof.
  unfold exec, memory_store, memory.GetShipment. destruct (shipments s !! id); simpl;
    [case_decide; simpl|]; naive_solver.
Qed.

Lemma ask_leg tenant id s v :
  (exec (repository.GetLeg tenant id) s).2 = Ok v <->
  legs s !! id = Some v /\ leg_TenantID v = tenant.
Proof.
  unfold exec, memory_store, memory.GetLeg. destruct (legs s !! id); simpl;
    [case_decide; simpl|]; naive_solver.
Qed.

Lemma ask_customs id s v :
  (exec (repository.GetCustoms id) s).2 = Ok v <-> customs s !! id = Some v.
Proof. unfold exec, memory_store, memory.GetCustoms. destruct (customs s !! id); naive_solver. Qed.

Lemma ask_security id s v :
  (exec (repository.GetSecurity id) s).2 = Ok v <-> security s !! id = Some v.
Proof. unfold exec, memory_store, memory.GetSecurity. destruct (security s !! id); naive_solver. Qed.

Lemma ask_session token s v :
  (exec (repository.GetSession token) s).2 = Ok v <-> sessions s !! tokenHash token = Some v.
Proof. unfold exec, memory_store, memory.GetSession. destruct (sessions s !! _); naive_solver. Qed.

Lemma ask_user id s v :
  (exec (repository.GetUser id) s).2 = Ok v <-> users s !! id = Some v.
Proof.
  unfold exec, memory_store, memory.GetUser. destruct (users s !! id); rewrite ?cloneUser_id; naive_solver.
Qed.

(** What the conditional writes do when they succeed. *)
Lemma do_book tenant sid lid sv lv at_ s b :
  (exec (repository.BookShipment tenant sid lid sv lv at_) s).2 = Ok b <->
  exists sh leg, shipments s !! sid = Some sh /\ legs s !! lid = Some leg /\
    sh_TenantID sh = tenant /\ leg_TenantID leg = tenant /\
    sh_Version sh = sv /\ leg_Version leg = lv /\
    sh_Status sh = ShipmentDraft /\ leg_Status leg = LegOpen /\
    sh_Origin sh = leg_Origin leg /\ sh_Destination sh = leg_Destination leg /\
    ValidateCapacity leg (sh_WeightKg sh) = None /\ b = booked_on lid at_ sh.
Proof.
  unfold exec, memory_store, memory.BookShipment.
  destruct (shipments s !! sid) as [sh|]; [|naive_solver].
  destruct (legs s !! lid) as [leg|]; [|case_decide; naive_solver].
  assert (Hbook : Shipment_CanTransition (sh_Status sh) ShipmentBooked = true <->
    sh_Status sh = ShipmentDraft).
  { rewrite Shipment_CanTransition_edge. split; [apply edge_to_booked|intros ->; constructor]. }
  split.
  - intros Hex. split_cases. exists sh, leg. rewrite <- Hbook. naive_solver.
  - intros (? & ? & [= <-] & [= <-] & <- & Ht & <- & <- & Hst & Hl & Ho & Hd & Hcap & ->).
    apply Hbook in Hst. rewrite Hst, Hcap, Hl. simpl.
    rewrite !decide_False by naive_solver. done.
Qed.

Lemma do_book_state tenant sid lid sv lv at_ s sh leg :
  (exec (repository.BookShipment tenant sid lid sv lv at_) s).2 = Ok (booked_on lid at_ sh) ->
  shipments s !! sid = Some sh -> legs s !! lid = Some leg ->
  (exec (repository.BookShipment tenant sid lid sv lv at_) s).1 =
  with_shipments (<[sid := booked_on lid at_ sh]> (shipments s))
    (with_legs (<[lid := reserved_on (sh_WeightKg sh) leg]> (legs s)) s).
Proof.
  unfold exec, memory_store, memory.BookShipment. intros Hb Hs Hl. rewrite Hs, Hl in *.
  destruct s. split_cases; done.
Qed.

Lemma do_update v version s old :
  shipments s !! sh_ID v = Some old -> sh_Version old = version ->
  exec (UpdateShipment v version) s =
  (with_shipments (<[sh_ID v := set_sh_Version (add64 version 1) v]> (shipments s)) s, Ok tt).
Proof.
  intros Hold Hv. unfold exec, memory_store, memory.UpdateShipment. rewrite Hold.
  rewrite decide_False by naive_solver. by destruct v.
Qed.
End calls.

(** ** Bookings *)

Section bookings.
Context `{External}.

(** C14. A booking succeeds for exactly the coordinators whose tenant owns a draft
    shipment and an open leg on its route with room for its weight; it then binds
    the shipment, reserves its weight on the leg, and raises both versions, at
    once and changing nothing else. *)
Theorem BookShipment_spec u id legID now (s s' : memory.Store) b :
  run (BookShipment u id legID now) s = (s', Ok b) <->
  u_Role u = RoleCoordinator /\ exists sh leg,
    shipments s !! id = Some sh /\ legs s !! legID = Some leg /\
    sh_TenantID sh = u_TenantID u /\ leg_TenantID leg = u_TenantID u /\
    sh_Status sh = ShipmentDraft /\ leg_Status leg = LegOpen /\
    sh_Origin sh = leg_Origin leg /\ sh_Destination sh = leg_Destination leg /\
    ValidateCapacity leg (sh_WeightKg sh) = None /\ b = booked_on legID now sh /\
    s' = with_shipments (<[id := b]> (shipments s))
           (with_legs (<[legID := reserved_on (sh_WeightKg sh) leg]> (legs s)) s).
Proof.
  unfold BookShipment. case_decide as Hrole; [split; simpl; naive_solver|].
  rewrite run_read by done. split.
  - destruct (exec (repository.GetShipment _ _) s).2 as [sh|] eqn:Hsh; [|done].
    rewrite run_read by done.
    destruct (exec (repository.GetLeg _ _) s).2 as [leg|] eqn:Hleg; [|done].
    destruct (_ || _); [done|]. case_decide; [done|]. rewrite run_write.
    destruct (exec (repository.BookShipment _ _ _ _ _ _) s).2 as [b'|] eqn:Hb; [|done].
    intros [= <- <-]. split; [done|].
    pose proof Hb as (sh' & leg' & ? & ? & ? & ? & _ & _ & ? & ? & ? & ? & ? & ->)%do_book.
    exists sh', leg'. by erewrite (do_book_state _ _ _ _ _ _ _ sh' leg').
  - intros (_ & sh & leg & Hsh & Hleg & Ht & Htl & Hst & Hlst & Ho & Hd & Hcap & -> & ->).
    rewrite (proj2 (ask_shipment _ _ _ _) (conj Hsh Ht)), run_read by done.
    rewrite (proj2 (ask_leg _ _ _ _) (conj Hleg Htl)).
    replace (_ || _) with false by (rewrite Hst, Hlst; reflexivity).
    rewrite decide_False by naive_solver. rewrite run_write.
    assert (Hb : (exec (repository.BookShipment (u_TenantID u) id legID (sh_Version sh)
      (leg_Version leg) now) s).2 = Ok (booked_on legID now sh))
      by (apply do_book; exists sh, leg; split_and!; auto).
    rewrite Hb. simpl. f_equal. by eapply do_book_state.
Qed.
End bookings.

(** ** Transitions *)

Section transitions.
Context `{External}.

(** What the gate in front of the aircraft asks of a shipment bound to a leg. *)
Definition cleared_to_load (id : string) (s : memory.Store) : Prop :=
  exists c sec, customs s !! id = Some c /\ cc_Status c = CustomsReleased /\
    security s !! id = Some sec /\ sc_Status sec = SecurityPassed.

Lemma store_transition_run id sh next now (s : memory.Store) :
  shipments s !! id = Some sh -> sh_ID sh = id ->
  run (store_transition sh next now) s =
  (with_shipments (<[id := set_sh_Version (add64 (sh_Version sh) 1)
      (set_sh_UpdatedAt now (set_sh_Status next sh))]> (shipments s)) s,
   Ok (set_sh_UpdatedAt now (set_sh_Status next sh))).
Proof.
  intros Hs Hid. unfold store_transition. rewrite run_write.
  rewrite (do_update _ _ _ sh); destruct sh; simpl in *; by subst.
Qed.

(** The part of [TransitionShipment] from its gate on. *)
Lemma gated_transition_run id sh next now (s s' : memory.Store) r :
  run (if decide (sh_LegID sh <> None /\ (next = ShipmentLoaded \/ next = ShipmentDeparted)) then
         ce <- GetCustoms id ;;
         se <- GetSecurity id ;;
         match ce, se with
         | Ok c, Ok sec =>
             if negb (CustomsAllowsLoading c) || negb (SecurityAllowsLoading sec)
             then Ret (Err ErrState) else store_transition sh next now
         | _, _ => Ret (Err ErrState)
         end
       else store_transition sh next now) s = (s', Ok r) <->
  (sh_LegID sh <> None -> next = ShipmentLoaded \/ next = ShipmentDeparted ->
   cleared_to_load id s) /\ run (store_transition sh next now) s = (s', Ok r).
Proof.
  case_decide as Hgate; [|naive_solver].
  rewrite run_read by done. unfold cleared_to_load.
  destruct (exec (GetCustoms id) s).2 as [c|] eqn:Hc; rewrite run_read by done;
    destruct (exec (GetSecurity id) s).2 as [sec|] eqn:Hsec;
    try (split; [done|]; intros [Hcl _]; destruct Hgate as [Hg1 Hg2];
      destruct (Hcl Hg1 Hg2) as (c' & sec' & Hc' & _ & Hsec' & _);
      rewrite <- ask_customs in Hc'; rewrite <- ask_security in Hsec'; congruence).
  apply ask_customs in Hc. apply ask_security in Hsec.
  destruct (negb _ || negb _) eqn:Hallow.
  - split; [done|]. intros [Hcl _]. destruct Hgate as [Hg1 Hg2].
    destruct (Hcl Hg1 Hg2) as (c' & sec' & Hc' & Hrel & Hsec' & Hpass).
    simplify_eq. unfold CustomsAllowsLoading, SecurityAllowsLoading in Hallow.
    by rewrite Hrel, Hpass in Hallow.
  - split_cases_clean. unfold CustomsAllowsLoading, SecurityAllowsLoading in *.
    clean_conditions. split; [|naive_solver]. intros. split; [|done]. eauto 10.
Qed.

(** C15. A transition succeeds for exactly the coordinators and ground agents whose
    tenant owns the shipment, along an edge of the machine, and a shipment bound to
    a leg is loaded or departs only when customs released it and security passed
    it; only its status, update time and version change. *)
Theorem TransitionShipment_spec u id next now (s s' : memory.Store) r :
  wf s ->
  run (TransitionShipment u id next now) s = (s', Ok r) <->
  (u_Role u = RoleCoordinator \/ u_Role u = RoleGroundAgent) /\ exists sh,
    shipments s !! id = Some sh /\ sh_TenantID sh = u_TenantID u /\
    ship_edge (sh_Status sh) next /\
    (sh_LegID sh <> None -> next = ShipmentLoaded \/ next = ShipmentDeparted ->
     cleared_to_load id s) /\
    r = set_sh_UpdatedAt now (set_sh_Status next sh) /\
    s' = with_shipments (<[id := set_sh_Version (add64 (sh_Version sh) 1) r]> (shipments s)) s.
Proof.
  intros Hwf. unfold TransitionShipment. case_decide as Hrole; [split; [done|naive_solver]|].
  rewrite run_read by done. split.
  - destruct (exec (repository.GetShipment _ _) s).2 as [sh|] eqn:Hsh; [|done].
    apply ask_shipment in Hsh as [Hsh Ht]. destruct (negb _) eqn:Hcan; [done|].
    apply negb_false_iff, Shipment_CanTransition_edge in Hcan.
    rewrite gated_transition_run, (store_transition_run id) by
      (done || by eapply (wf_shipments _ Hwf)).
    intros [Hgate [= <- <-]]. split; [|by exists sh].
    destruct (decide (u_Role u = RoleCoordinator)); [by left|].
    destruct (decide (u_Role u = RoleGroundAgent)); [by right|]. by destruct Hrole.
  - intros (_ & sh & Hsh & Ht & Hcan & Hgate & -> & ->).
    rewrite (proj2 (ask_shipment _ _ _ _) (conj Hsh Ht)).
    apply Shipment_CanTransition_edge in Hcan. rewrite Hcan. simpl negb. cbn iota.
    rewrite gated_transition_run, (store_transition_run id) by
      (done || by eapply (wf_shipments _ Hwf)). done.
Qed.
End transitions.

(** ** Sessions *)

Section sessions.
Context `{External}.

(** Who authenticates, on the in-memory store. *)
Lemma Authenticate_memory token now s u se :
  run (Authenticate token now) s = (s, Ok (u, se)) <->
  token <> "" /\ sessions s !! HashToken token = Some se /\ IsSessionActive se now = None /\
  users s !! ses_UserID se = Some u /\ u_Active u = true.
Proof.
  unfold Authenticate. case_decide; [naive_solver|]. rewrite run_read by done.
  rewrite <- (ask_session token).
  destruct (exec (GetSession token) s).2 as [se'|]; [|naive_solver].
  destruct (IsSessionActive se' now) eqn:Hact; [naive_solver congruence|].
  rewrite run_read by done. rewrite <- ask_user.
  destruct (exec (GetUser (ses_UserID se')) s).2 as [u'|] eqn:Hu;
    [|split; [done|]; naive_solver congruence].
  destruct (u_Active u') eqn:Hua; simpl; split; naive_solver congruence.
Qed.

(** Authentication answers with a user and a session or with [ErrForbidden]. *)
Lemma Authenticate_total token now (s : memory.Store) :
  exists r, run (Authenticate token now) s = (s, r) /\ match r with Ok _ => True | Err e => e = ErrForbidden end.
Proof.
  unfold Authenticate. case_decide; [by eexists|]. rewrite run_read by done.
  destruct (exec (GetSession token) s).2 as [se'|]; [|by eexists].
  destruct (IsSessionActive se' now); [by eexists|]. rewrite run_read by done.
  destruct (exec _ s).2 as [u|]; [|by eexists]. destruct (u_Active u); by eexists.
Qed.

Lemma Authenticate_refused token now (s : memory.Store) :
  (forall u se, run (Authenticate token now) s <> (s, Ok (u, se))) ->
  run (Authenticate token now) s = (s, Err ErrForbidden).
Proof.
  intros Hno. destruct (Authenticate_total token now s) as ([[u se]|e] & Hr & He).
  - by destruct (Hno u se).
  - by subst.
Qed.

Lemma IsSessionActive_None se now :
  IsSessionActive se now = None <-> ses_RevokedAt se = None /\ now < ses_ExpiresAt se.
Proof.
  unfold IsSessionActive. destruct (ses_RevokedAt se); [naive_solver|]. case_decide; naive_solver.
Qed.

Lemma Logout_memory token now s se :
  token <> "" -> sessions s !! HashToken token = Some se ->
  run (Logout token now) s =
  (with_sessions (<[HashToken token := set_ses_RevokedAt (Some now) se]> (sessions s)) s, Ok tt).
Proof.
  intros Ht Hse. unfold Logout. rewrite decide_False by done. simpl.
  unfold exec, memory_store, memory.RevokeSession. change (tokenHash token) with (HashToken token).
  by rewrite Hse.
Qed.

(** A login on the in-memory store files one session, for as long as the
    application says. *)
Lemma Login_memory a email password raw rid now (s s1 : memory.Store) lr :
  run (Login a email password raw rid now) s = (s1, Ok lr) ->
  sessions s1 !! HashToken (lr_Token lr) =
    Some (mkSession (randomID rid) (u_ID (lr_User lr)) (HashToken (lr_Token lr))
            (time_Add now (app_ttl a)) None now).
Proof.
  unfold Login. rewrite run_read by done.
  destruct (exec (GetUserByEmail _) s).2 as [u|]; [|done].
  destruct (negb _); [done|]. destruct (Compare _ _); [done|].
  destruct (randomToken raw) as [tok|]; [|done]. simpl. intros [= <- <-].
  destruct s; simpl. apply lookup_insert_eq.
Qed.

(** A user created with a hash of a password can log in with the password. *)
Lemma created_user_logs_in `{!HashMatches} a u email password bytes rid now (s s1 : memory.Store) :
  HashPassword password = Ok (u_PasswordHash u) -> u_Active u = true ->
  strings_ToLower (TrimSpace email) = u_Email u -> exec (repository.CreateUser u) s = (s1, Ok tt) ->
  exists s2, run (Login a email password (Ok bytes) rid now) s1 =
    (s2, Ok (mkLoginResult (hex_encode bytes) (time_Add now (app_ttl a)) u)).
Proof.
  intros Hhash Hact Hemail Hnew. unfold exec, memory_store, memory.CreateUser in Hnew.
  destruct (byEmail s !! u_Email u); [done|]. injection Hnew as <-.
  unfold Login. rewrite Hemail. cbn [run]. unfold exec at 1, memory_store at 1, memory.GetUserByEmail.
  destruct s; cbn. rewrite lookup_insert_eq. cbn. rewrite lookup_insert_eq. cbn.
  rewrite !cloneUser_id, Hact. unfold Compare. rewrite (bcrypt_matches _ _ _ Hhash). by eexists.
Qed.

(** C18. The life of a session: a login with fresh random bytes gives a token that
    authenticates its user until the time to live is over and never after, and a
    logout ends it at once. *)
Theorem session_life a email password bytes rid now lr now1 (s s1 : memory.Store) :
  wf s -> bytes <> "" ->
  run (Login a email password (Ok bytes) rid now) s = (s1, Ok lr) ->
  (forall t, t < time_Add now (app_ttl a) ->
     exists se, run (Authenticate (lr_Token lr) t) s1 = (s1, Ok (lr_User lr, se))) /\
  (forall t, time_Add now (app_ttl a) <= t ->
     run (Authenticate (lr_Token lr) t) s1 = (s1, Err ErrForbidden)) /\
  (exists s2, run (Logout (lr_Token lr) now1) s1 = (s2, Ok tt) /\
     forall t, run (Authenticate (lr_Token lr) t) s2 = (s2, Err ErrForbidden)).
Proof.
  intros Hwf Hb Hrun.
  destruct (Login_sound (Hlaw:=memory_lawful) _ _ _ _ _ _ _ _ _ Hwf Hrun)
    as (Hu & Hact & _ & Htok & Hus & _).
  pose proof (Login_memory _ _ _ _ _ _ _ _ _ Hrun) as Hse.
  set (se := mkSession _ _ _ _ _ _) in Hse.
  assert (Hne : lr_Token lr <> "").
  { simpl in Htok. injection Htok as <-. by destruct bytes. }
  simpl in Hu, Hus. rewrite <- Hus in Hu.
  assert (Hauth : forall t, t < time_Add now (app_ttl a) ->
    run (Authenticate (lr_Token lr) t) s1 = (s1, Ok (lr_User lr, se))).
  { intros t Ht. apply Authenticate_memory. by rewrite IsSessionActive_None. }
  split; [by eauto|]. split.
  - intros t Ht. apply Authenticate_refused. intros u se' (_ & Hs & Hac & _)%Authenticate_memory.
    apply IsSessionActive_None in Hac as [_ Hlt]. simplify_eq/=. lia.
  - eexists. split; [by apply Logout_memory|]. intros t. apply Authenticate_refused.
    intros u se' (_ & Hs & Hac & _)%Authenticate_memory.
    apply IsSessionActive_None in Hac as [Hac _]. destruct s1; simpl in *.
    rewrite lookup_insert_eq in Hs. by simplify_eq/=.
Qed.
End sessions.

(** ** New shipments *)

Section creation.
Context `{External}.

Definition may_create (u : User) : Prop := u_Role u = RoleShipper \/ u_Role u = RoleCoordinator.

(** After a successful creation the index leads from its key to its answer. *)
Lemma created_indexed u v idem rid now (s s1 : memory.Store) r :
  idem <> "" -> run (CreateShipment u v idem rid now) s = (s1, Ok r) ->
  (exec (FindByIdempotency (u_TenantID u) idem) s1).2 = Ok r.
Proof.
  intros Hidem. unfold CreateShipment. case_decide; [done|].
  destruct (ValidateShipment _); [done|]. rewrite decide_True by done. rewrite run_read by done.
  destruct (exec (FindByIdempotency (u_TenantID u) idem) s).2 as [old|e] eqn:Hfind.
  { by intros [= <- <-]. }
  destruct (negb _); [done|]. rewrite run_write.
  unfold exec, memory_store, memory.FindByIdempotency, memory.CreateShipment in *. simpl in *.
  destruct (memory.idem s !! idem_key (u_TenantID u) idem); [done|].
  rewrite !decide_True by done.
  destruct (shipments s !! _) eqn:Hid; simpl; [done|]. intros [= <- <-].
  destruct s; simpl. by rewrite !lookup_insert_eq.
Qed.

(** A request whose key the index knows is answered from the index. *)
Lemma create_answered u v idem rid now s old :
  may_create u -> idem <> "" -> ValidateShipment (new_shipment u v idem rid now) = None ->
  (exec (FindByIdempotency (u_TenantID u) idem) s).2 = Ok old ->
  run (CreateShipment u v idem rid now) s = (s, Ok old).
Proof.
  intros Hu Hidem Hval Hold. unfold CreateShipment.
  rewrite decide_False by (intros []; destruct Hu; done).
  rewrite Hval, decide_True by done. rewrite run_read by done. by rewrite Hold.
Qed.

(** C20. Creation is idempotent: after a request with an idempotency key succeeded,
    every valid request of the tenant with that key, whatever cargo it names, is
    answered with the same shipment and changes nothing. *)
Theorem CreateShipment_idempotent u u' v v' idem rid rid' now now' (s s1 : memory.Store) r :
  run (CreateShipment u v idem rid now) s = (s1, Ok r) -> idem <> "" ->
  may_create u' -> u_TenantID u' = u_TenantID u ->
  ValidateShipment (new_shipment u' v' idem rid' now') = None ->
  run (CreateShipment u' v' idem rid' now') s1 = (s1, Ok r).
Proof.
  intros Hrun Hidem Hu Ht Hval. apply create_answered; [done..|].
  rewrite Ht. by eapply created_indexed.
Qed.

(** The index is keyed by the text tenant, bar, key: a tenant whose name has a
    bar shares keys with another tenant, which is then answered with a shipment
    that is not its own. *)
Theorem idempotency_crosses_tenants u u' v v' a b key rid rid' now now' (s s1 : memory.Store) r :
  run (CreateShipment u v key rid now) s = (s1, Ok r) -> key <> "" ->
  u_TenantID u = a +:+ "|" +:+ b -> u_TenantID u' = a -> may_create u' ->
  ValidateShipment (new_shipment u' v' (b +:+ "|" +:+ key) rid' now') = None ->
  run (CreateShipment u' v' (b +:+ "|" +:+ key) rid' now') s1 = (s1, Ok r).
Proof.
  intros Hrun Hkey Ht Ht' Hu Hval. apply create_answered; [done| |done|].
  { destruct b; [done|discriminate]. }
  rewrite <- (created_indexed _ _ _ _ _ _ _ _ Hkey Hrun).
  unfold exec, memory_store, memory.FindByIdempotency, idem_key. rewrite Ht, Ht'.
  by rewrite <- !string_app_assoc.
Qed.

(** The index tells apart the keys of tenants without a bar in their names. *)
Lemma idem_key_inj t k t' k' :
  free_of "|" t -> free_of "|" t' -> idem_key t k = idem_key t' k' -> t = t' /\ k = k'.
Proof. apply join_inj. Qed.
End creation.

(** ** Listing *)

Section listing.
Context `{External}.

(** The shipments of a tenant. *)
Definition of_tenant (tenant : string) (s : memory.Store) : list Shipment :=
  filter (fun v => sh_TenantID v = tenant) (map_to_list (shipments s)).*2.

Lemma ListShipments_memory order tenant req (s : memory.Store) :
  range_order (shipments s) order ->
  exists sorted,
    exec (repository.ListShipments order tenant req) s =
      (s, Ok (mkPage (take (Z.to_nat (pr_Limit (Normalized req))) sorted) ""
                (Z.of_nat (length (of_tenant tenant s))))) /\
    sorted ≡ₚ of_tenant tenant s /\ sorted_by (less_on sh_CreatedAt) sorted.
Proof.
  intros Hord. exists (SliceStable (less_on sh_CreatedAt)
    (filter (fun v => sh_TenantID v = tenant) (range_values (shipments s) order))).
  assert (Hp : SliceStable (less_on sh_CreatedAt)
    (filter (fun v => sh_TenantID v = tenant) (range_values (shipments s) order))
    ≡ₚ of_tenant tenant s).
  { rewrite SliceStable_perm. unfold of_tenant. by rewrite (range_values_perm _ _ Hord). }
  split; [|split; [exact Hp|apply SliceStable_sorted, less_on_weak_order]].
  unfold exec, memory_store, memory.ListShipments. rewrite (Permutation_length Hp).
  case_decide as Hlen; [done|]. rewrite take_ge; [done|].
  rewrite (Permutation_length Hp). pose proof (Normalized_limit req). lia.
Qed.

(** C21. A page of shipments holds the oldest shipments of the caller's tenant, at
    most 200 of them, in order of creation, with the number of all of them,
    whatever order the map is iterated in. *)
Theorem ListShipments_page order u req (s s' : memory.Store) p :
  range_order (shipments s) order ->
  run (ListShipments order u req) s = (s', Ok p) ->
  s' = s /\ pg_Total p = Z.of_nat (length (of_tenant (u_TenantID u) s)) /\
  (length (pg_Items p) = Nat.min (Z.to_nat (pr_Limit (Normalized req)))
                           (length (of_tenant (u_TenantID u) s)) /\
   Z.of_nat (length (pg_Items p)) <= 200) /\
  sorted_by (less_on sh_CreatedAt) (pg_Items p) /\
  exists rest, pg_Items p ++ rest ≡ₚ of_tenant (u_TenantID u) s /\
    forall v w, v ∈ pg_Items p -> w ∈ rest -> sh_CreatedAt v <= sh_CreatedAt w.
Proof.
  intros Hord. unfold ListShipments. case_decide; [done|].
  destruct (ListShipments_memory order (u_TenantID u) req s Hord) as (l & Hex & Hp & Hsort).
  pose proof (Normalized_limit req) as Hlim.
  remember (Z.to_nat (pr_Limit (Normalized req))) as n eqn:Hn.
  rewrite run_read, Hex by done. intros [= <- <-]. simpl.
  rewrite length_take, (Permutation_length Hp).
  split_and!; [done..|lia|by apply sorted_by_prefix|].
  exists (drop n l). rewrite take_drop. split; [done|].
  intros v w Hv Hw. rewrite <- (take_drop n l) in Hsort.
  pose proof (sorted_by_app _ _ _ _ _ Hsort Hv Hw) as Hless.
  unfold less_on in Hless. apply bool_decide_eq_false in Hless. lia.
Qed.

(** When no two shipments of the tenant were created at the same instant, the
    page does not depend on the order the map is iterated in. *)
Theorem ListShipments_deterministic order order' u req (s : memory.Store) :
  range_order (shipments s) order -> range_order (shipments s) order' ->
  (forall v w, v ∈ of_tenant (u_TenantID u) s -> w ∈ of_tenant (u_TenantID u) s ->
     sh_CreatedAt v = sh_CreatedAt w -> v = w) ->
  run (ListShipments order u req) s = run (ListShipments order' u req) s.
Proof.
  intros Hord Hord' Hsep. unfold ListShipments. case_decide; [done|]. rewrite !run_read by done.
  destruct (ListShipments_memory order (u_TenantID u) req s Hord) as (l & -> & Hp & Hsort).
  destruct (ListShipments_memory order' (u_TenantID u) req s Hord') as (l' & -> & Hp' & Hsort').
  assert (l = l') as ->; [|done].
  apply (sorted_by_unique (less_on sh_CreatedAt)); [|done..|by rewrite Hp, Hp'].
  unfold less_on. intros v w Hv Hw. rewrite !bool_decide_eq_false. intros.
  apply Hsep; [by rewrite <- Hp..|lia].
Qed.
End listing.

(** ** Customs *)

Section customs.
Context `{External}.

(** The in-memory store files a customs case under the identifier of the case,
    and the gate asks for it under that of the shipment: recording a case whose
    identifier differs, as a generated one does, leaves what the gate sees as it
    was, whatever status it carries. *)
Theorem PutCustoms_misfiled u c c' rid now (s s' : memory.Store) :
  run (PutCustoms u c rid now) s = (s', Ok c') -> cc_ID c' <> cc_ShipmentID c ->
  cc_Status c' = cc_Status c /\ customs s' !! cc_ID c' = Some c' /\
  (exec (GetCustoms (cc_ShipmentID c)) s').2 = (exec (GetCustoms (cc_ShipmentID c)) s).2 /\
  (cleared_to_load (cc_ShipmentID c) s' <-> cleared_to_load (cc_ShipmentID c) s).
Proof.
  unfold PutCustoms. case_decide; [done|]. rewrite run_read by done.
  destruct (exec (repository.GetShipment _ _) s).2 as [sh|]; [|done]. rewrite run_read by done.
  set (new := mkCustomsCase _ _ _ _ _ _).
  assert (Hput : run (r <- repository.PutCustoms new ;;
      match r with Err err => Ret (Err err) | Ok _ => Ret (Ok new) end) s =
    (with_customs (<[cc_ID new := new]> (customs s)) s, Ok new)) by done.
  intros Hrun Hne.
  assert (Hnew : (s', Ok c') = (with_customs (<[cc_ID new := new]> (customs s)) s, Ok new)).
  { rewrite <- Hput. destruct (exec (GetCustoms _) s).2 as [old|];
      [destruct (negb _); [done|]|]; exact (eq_sym Hrun). }
  assert (Hst : cc_Status new = cc_Status c) by done. clear Hput Hrun. clearbody new.
  injection Hnew as -> ->. unfold cleared_to_load, exec, memory_store, memory.GetCustoms.
  destruct s; simpl in *. rewrite lookup_insert_eq, !lookup_insert_ne by done.
  split_and!; [done..|by destruct (customs !! _)|done].
Qed.
End customs.
