(* ===== verification/httpapi.v ===== *)
(** * Packages httpapi and middleware

    The handlers, the authentication in front of them and the mapping of errors
    to responses ([internal/httpapi/server.go], [internal/middleware/http.go]).

    Matching a path to a route is the router's ([chi]) and reading a JSON body is
    [encoding/json]'s: a request arrives as its route with the path parameters,
    and with the decoded body, [None] when decoding failed.  The readings of the
    clock and of [crypto/rand] that a request causes are in its [env]. *)

From S2P Require Import Prelude.
From S2P Require Import golang.
From S2P Require Import strconv.
From S2P Require Import domain.
From S2P Require Import external.
From S2P Require Import memory.
From S2P Require Import repository.
From S2P Require Import service.
From S2P Require Import interleave.
From S2P Require Import system.
From S2P Require Import usecases.

Open Scope string_scope.
Open Scope list_scope.
Open Scope Z_scope.

(** ** Responses *)

Inductive body :=
  | NoBody
  | OkBody
  | ReadyBody
  | LoginBody (token : string) (expires_at : Time) (user : User)
  | ShipmentBody (v : Shipment)
  | PageBody (v : Page Shipment)
  | LegBody (v : FlightLeg)
  | CustomsBody (v : CustomsCase)
  | SecurityBody (v : SecurityCheck)
  | SummaryBody (v : OperationsSummary)
  | ErrorBody (code message : string).

Record response := mkResponse { rs_status : Z; rs_body : body }.

Definition status (err : error) : Z :=
  if errors_Is err ErrInvalid then 400 else
  if errors_Is err ErrForbidden || errors_Is err ErrExpired || errors_Is err ErrRevoked then 401 else
  if errors_Is err ErrNotFound then 404 else
  if errors_Is err ErrConflict || errors_Is err ErrCapacity || errors_Is err ErrState then 409 else
  500.

Definition fail_code (err : error) : string :=
  if errors_Is err ErrInvalid then "invalid_request" else
  if errors_Is err ErrForbidden then "forbidden" else
  if errors_Is err ErrNotFound then "not_found" else
  if errors_Is err ErrConflict then "conflict" else
  if errors_Is err ErrCapacity then "capacity_unavailable" else
  if errors_Is err ErrState then "invalid_state" else
  "internal_error".

Definition write (status : Z) (v : body) : response := mkResponse status v.

Definition fail (status : Z) (err : error) : response :=
  write status (ErrorBody (fail_code err) (error_string err)).

(** ** Package middleware *)

(** What the program stores in a request's context. *)
Inductive any := AnyString (v : string) | AnyUser (u : User).

(** A chain of [context.WithValue], the newest first. *)
Definition context := list (string * any).
Definition WithValue (ctx : context) (key : string) (v : any) : context := (key, v) :: ctx.
Fixpoint Value (ctx : context) (key : string) : option any :=
  match ctx with
  | [] => None
  | (k, v) :: ctx => if decide (k = key) then Some v else Value ctx key
  end.

Definition userKey : string := "airbridge-user".
Definition requestIDKey : string := "airbridge-request-id".

Definition RequestIDFrom (ctx : context) : string :=
  match Value ctx requestIDKey with Some (AnyString id) => id | _ => "" end.
Definition WithUser (ctx : context) (u : User) : context := WithValue ctx userKey (AnyUser u).
Definition UserFrom (ctx : context) : option any := Value ctx userKey.

(** A handler: what it does and answers in a context. *)
Abbreviation Handler A := (context -> prog A) (only parsing).

(** The value of the response's header next to the response.  [Read] is what
    [crypto/rand] gives for eight bytes; when it fails they stay zero. *)
Definition RequestID {A} (header : string) (Read : result string) (next : Handler A)
    : Handler (string * A) := fun ctx =>
  let id := if decide (header = "") then
      hex_encode (match Read with
        | Ok b => b
        | Err _ => String.string_of_list_ascii (replicate 8 Ascii.zero)
        end)
    else header in
  x <~ next (WithValue ctx requestIDKey (AnyString id)) ;;
  Ret (id, x).

Record log_record := mkLog {
  log_method : string; log_path : string; log_duration_ms : Z; log_request_id : string }.

(** The log record next to the response. *)
Definition Logger {A} (method path : string) (started finished : Time) (next : Handler A)
    : Handler (A * log_record) := fun ctx =>
  x <~ next ctx ;;
  Ret (x, mkLog method path (Z.quot (time_Sub finished started) Millisecond) (RequestIDFrom ctx)).

(** ** Requests *)

(** The clock and the random bytes that a request meets. *)
Record env := mkEnv {
  env_auth : Time; env_now : Time; env_now2 : Time;
  env_rid : string; env_raw : result string; env_order : list string }.

(** The routes of [New] without the [auth] middleware, and those behind it. *)
Inductive open_route :=
  | GetHealthz
  | GetReadyz
  | PostLogin (in_ : option (string * string)).

Inductive protected_route :=
  | PostLogout
  | PostShipments (in_ : option Shipment) (idempotency_key : string)
  | GetShipments (limit cursor : string)
  | PostShipmentBook (id : string) (in_ : option string)
  | PostShipmentTransition (id : string) (in_ : option ShipmentStatus)
  | PostFlightLegs (in_ : option FlightLeg)
  | PostFlightLegOpen (id : string)
  | PostCustoms (shipmentID : string) (in_ : option CustomsCase)
  | PostSecurity (shipmentID : string) (in_ : option SecurityCheck)
  | GetOperationsSummary.

Inductive route :=
  | Open (r : open_route)
  | Protected (r : protected_route).

Record http_request := mkRequest {
  rq_authorization : string; rq_route : route; rq_env : env }.

Section server.
Context `{External} (app : Application).

(** Runs a use case and answers with its value or its error. *)
Definition respond {A} (p : prog (result A)) (ok : Z) (show : A -> body) : prog response :=
  r <~ p ;;
  Ret (match r with
       | Err err => fail (status err) err
       | Ok v => write ok (show v)
       end).

Definition health : prog response := Ret (write 200 OkBody).

Definition ready : prog response :=
  r <~ Ping ;;
  Ret (match r with
       | Err err => fail 503 err
       | Ok _ => write 200 ReadyBody
       end).

Definition bad_request : prog response := Ret (fail 400 ErrInvalid).

Definition token_of (authorization : string) : string := TrimPrefix authorization "Bearer ".

Definition auth (authorization : string) (e : env) (next : Handler response) : Handler response :=
  fun ctx =>
  r <~ Authenticate (token_of authorization) (env_auth e) ;;
  match r with
  | Err _ => Ret (fail 401 ErrForbidden)
  | Ok (u, _) => next (WithUser ctx u)
  end.

(** The user that [auth] left in the context.  Without one the type assertion panics:
    [net/http] recovers and closes the connection without a response, status 0. *)
Definition mustUser (k : User -> prog response) : Handler response := fun ctx =>
  match UserFrom ctx with
  | Some (AnyUser u) => k u
  | _ => Ret (mkResponse 0 NoBody)
  end.

Definition login (e : env) (in_ : option (string * string)) : prog response :=
  match in_ with
  | None => bad_request
  | Some (email, password) =>
      respond (Login app email password (env_raw e) (env_rid e) (env_now e)) 200
        (fun out => LoginBody (lr_Token out) (lr_ExpiresAt out) (lr_User out))
  end.

Definition logout (authorization : string) (e : env) : prog response :=
  respond (Logout (token_of authorization) (env_now e)) 204 (fun _ => NoBody).

Definition createShipment (e : env) (u : User) (in_ : option Shipment) (idem : string)
    : prog response :=
  match in_ with
  | None => bad_request
  | Some in_ => respond (CreateShipment u in_ idem (env_rid e) (env_now e)) 201 ShipmentBody
  end.

Definition listShipments (e : env) (u : User) (limit cursor : string) : prog response :=
  respond (ListShipments (env_order e) u (mkPageRequest (Atoi limit) cursor "")) 200 PageBody.

Definition bookShipment (e : env) (u : User) (id : string) (in_ : option string) : prog response :=
  match in_ with
  | None => bad_request
  | Some leg_id => respond (BookShipment u id leg_id (env_now e)) 200 ShipmentBody
  end.

Definition transitionShipment (e : env) (u : User) (id : string) (in_ : option ShipmentStatus)
    : prog response :=
  match in_ with
  | None => bad_request
  | Some next => respond (TransitionShipment u id next (env_now e)) 200 ShipmentBody
  end.

Definition createLeg (e : env) (u : User) (in_ : option FlightLeg) : prog response :=
  match in_ with
  | None => bad_request
  | Some in_ => respond (CreateLeg u in_ (env_rid e) (env_now e) (env_now2 e)) 201 LegBody
  end.

Definition openLeg (u : User) (id : string) : prog response := respond (OpenLeg u id) 200 LegBody.

Definition customs (e : env) (u : User) (shipmentID : string) (in_ : option CustomsCase)
    : prog response :=
  match in_ with
  | None => bad_request
  | Some (mkCustomsCase id _ st doc by_ upd) =>
      respond (service.PutCustoms u (mkCustomsCase id shipmentID st doc by_ upd) (env_rid e) (env_now e))
        200 CustomsBody
  end.

Definition security (e : env) (u : User) (shipmentID : string) (in_ : option SecurityCheck)
    : prog response :=
  match in_ with
  | None => bad_request
  | Some (mkSecurityCheck id _ st officer notes at_) =>
      respond (service.PutSecurity u (mkSecurityCheck id shipmentID st officer notes at_) (env_rid e)
        (env_now e)) 200 SecurityBody
  end.

Definition summary (e : env) (u : User) : prog response :=
  respond (service.Summary (env_order e) u) 200 SummaryBody.

(** The handlers that [New] registers. *)
Definition open_handler (e : env) (r : open_route) : prog response :=
  match r with
  | GetHealthz => health
  | GetReadyz => ready
  | PostLogin in_ => login e in_
  end.

Definition protected_handler (authorization : string) (e : env) (r : protected_route) (u : User)
    : prog response :=
  match r with
  | PostLogout => logout authorization e
  | PostShipments in_ idem => createShipment e u in_ idem
  | GetShipments limit cursor => listShipments e u limit cursor
  | PostShipmentBook id in_ => bookShipment e u id in_
  | PostShipmentTransition id in_ => transitionShipment e u id in_
  | PostFlightLegs in_ => createLeg e u in_
  | PostFlightLegOpen id => openLeg u id
  | PostCustoms shipmentID in_ => customs e u shipmentID in_
  | PostSecurity shipmentID in_ => security e u shipmentID in_
  | GetOperationsSummary => summary e u
  end.

(** The router of [New]. *)
Definition router (r : http_request) : Handler response := fun ctx =>
  match rq_route r with
  | Open o => open_handler (rq_env r) o
  | Protected p =>
      auth (rq_authorization r) (rq_env r)
        (mustUser (protected_handler (rq_authorization r) (rq_env r) p)) ctx
  end.

(** What the server does for a request. *)
Definition handle (r : http_request) : prog response := router r [].

(** The handler that [New] returns: the router behind the middleware. *)
Definition New (method path header : string) (Read : result string) (started finished : Time)
    (r : http_request) : prog (string * (response * log_record)) :=
  RequestID header Read (Logger method path started finished (router r)) [].

Lemma mustUser_WithUser k ctx u : mustUser k (WithUser ctx u) = k u.
Proof. done. Qed.

(** A handler behind [auth] finds its user, and what is in the context besides makes
    no difference. *)
Lemma router_context r ctx : router r ctx = handle r.
Proof. by destruct r as [? [|] ?]. Qed.

Lemma hex_encode_length b : String.length (hex_encode b) = (2 * String.length b)%nat.
Proof. induction b as [|a b IH]; simpl; [done|]. rewrite IH. lia. Qed.

(** The middleware changes nothing of what a request does: the response and the
    store are those of the handler alone.  The identifier in the response's header is
    the one the log has: the client's, or sixteen hexadecimal digits for eight bytes. *)
Theorem New_identifies {state} `{Store state} method path header Read started finished r
    (s s' : state) id resp l :
  run (New method path header Read started finished r) s = (s', (id, (resp, l))) ->
  run (handle r) s = (s', resp) /\ log_request_id l = id /\
  (header <> "" -> id = header) /\
  (header = "" -> (forall b, Read = Ok b -> String.length b = 8%nat) -> String.length id = 16%nat).
Proof.
  unfold New, RequestID, Logger. rewrite !run_bind, router_context.
  destruct (run (handle r) s) as [s1 resp1]. simpl. intros [= <- <- <- <-]. split_and!; [done..| |].
  - intros Hh. by rewrite decide_False.
  - intros -> HR. rewrite decide_True by done. destruct Read as [b|]; [|done].
    rewrite hex_encode_length. by rewrite (HR b).
Qed.
End server.

(** ** Errors and responses *)

(** The sentinel errors of the domain. *)
Definition sentinels : list error :=
  [ErrNotFound; ErrConflict; ErrForbidden; ErrInvalid; ErrExpired; ErrRevoked; ErrCapacity; ErrState].

Definition known (e : error) : Prop := root_cause e ∈ sentinels.

(** The response to an error depends on what it wraps and not on the
    wrapping: the status and the code of an error are those of its root cause. *)
Lemma fail_root_cause st e :
  status e = status (root_cause e) /\
  fail st e = write st (ErrorBody (fail_code (root_cause e)) (error_string e)).
Proof.
  unfold fail, status, fail_code.
  assert (Hr : root_cause (root_cause e) = root_cause e) by (by induction e).
  rewrite !errors_Is_root_cause by done. by rewrite Hr.
Qed.

Lemma status_known e : known e -> status e ∈ [400; 401; 404; 409].
Proof.
  intros Hk. unfold status. rewrite !errors_Is_root_cause by done. unfold known, sentinels in Hk.
  set_unfold in Hk. destruct_or!; rewrite Hk; vm_compute; set_solver.
Qed.

Lemma status_error e : 400 <= status e.
Proof. unfold status. repeat case_match; lia. Qed.

(** A program whose errors are known, as long as those of the store are. *)
Fixpoint errors_known (p : prog (option error)) : Prop :=
  match p with
  | Ret r => forall e, r = Some e -> known e
  | Call op k => forall x, (forall e, op_error op x = Some e -> known e) -> errors_known (k x)
  end.

Lemma known_wrap pre e post : known e -> known (Errorf pre e post).
Proof. done. Qed.

(** The checks of the domain fail with its sentinels. *)
Ltac sentinel :=
  match goal with |- known ?e => exact (bool_decide_unpack (root_cause e ∈ sentinels) I) end.

Lemma ValidateCapacity_known l w e : ValidateCapacity l w = Some e -> known e.
Proof. unfold ValidateCapacity. case_decide; [|done]. intros [= <-]. sentinel. Qed.

Lemma ValidateShipment_known s e : ValidateShipment s = Some e -> known e.
Proof. unfold ValidateShipment. repeat case_decide; try done; intros [= <-]; sentinel. Qed.

Lemma ValidateLeg_known l now e : ValidateLeg l now = Some e -> known e.
Proof. unfold ValidateLeg. case_decide; [|done]. intros [= <-]. sentinel. Qed.

#[local] Hint Resolve ValidateCapacity_known ValidateShipment_known ValidateLeg_known known_wrap : go.

(** One step towards the error of a branch. *)
Ltac error_step :=
  first
    [ progress (intros; simplify_eq/=) | done | sentinel | apply known_wrap
    | match goal with
      | H : forall e, Some ?x = Some e -> known e |- known ?x => exact (H _ eq_refl)
      end
    | solve [eauto 2 with go]
    | case_match ].

Section handlers.
Context `{External} (app : Application).

(** The errors of the in-memory store are known. *)
Lemma memory_error_known X (op : storeop X) (s s' : memory.Store) x e :
  exec op s = (s', x) -> op_error op x = Some e -> known e.
Proof.
  intros Hop. destruct op; unfold_method Hop; repeat case_match; simplify_eq/=; try done;
    intros; simplify_eq; try sentinel; eauto with go.
  - rewrite Claim_eq in Hop. by simplify_eq.
  - destruct (Summary_reads tenant s) as [r Hr]. rewrite Hr in Hop. by simplify_eq.
Qed.

Lemma errors_known_run p (s s' : memory.Store) e :
  errors_known p -> run p s = (s', Some e) -> known e.
Proof.
  revert s. induction p as [r|X op k IH]; intros s Hp; simpl.
  - intros [= -> ->]. by apply Hp.
  - destruct (exec op s) as [s1 x] eqn:Hex. apply IH. apply Hp. intros e'. by eapply memory_error_known.
Qed.

(** A use case fails with the errors of its checks and of the store, wrapped. *)
Lemma serve_errors_known r :
  (forall a email password e rid now, r <> RLogin a email password (Err e) rid now) ->
  errors_known (serve r).
Proof.
  intros Hraw.
  destruct r; simpl; unfold outcome;
    cbv beta delta [Login Logout DeactivateUser Authenticate CreateShipment GetShipment
      ListShipments BookShipment TransitionShipment store_transition CreateLeg OpenLeg
      service.PutCustoms service.PutSecurity service.Summary randomToken];
    repeat error_step.
  by destruct (Hraw a email password e rid now).
Qed.

(** [serve] of a use case fails when the use case does. *)
Lemma outcome_run {A} (p : prog (result A)) (s s' : memory.Store) r :
  run p s = (s', r) -> run (outcome p) s = (s', result_error r).
Proof. intros Hp. unfold outcome. rewrite run_bind, Hp. by destruct r. Qed.

(** The answer to a use case: its success changes the store as the use case does,
    its failure leaves it, with the status of a known error. *)
Lemma respond_run {A} (q : request) (p : prog (result A)) ok show (s s' : memory.Store) resp :
  serve q = outcome p -> run (respond p ok show) s = (s', resp) ->
  (exists v, run p s = (s', Ok v) /\ resp = write ok (show v)) \/
  (exists e, s' = s /\ resp = fail (status e) e /\
     ((forall a email password e rid now, q <> RLogin a email password (Err e) rid now) ->
      known e)).
Proof.
  intros Hq. unfold respond. rewrite run_bind. destruct (run p s) as [s1 r] eqn:Hp.
  destruct r as [v|e]; intros [= <- <-]; [left; eauto|]. right. exists e.
  apply outcome_run in Hp. rewrite <- Hq in Hp. simpl in Hp. split_and!; [|done|].
  - eapply all_or_nothing_failed; [|exact Hp]. apply serve_all_or_nothing.
  - intros Hraw. eapply errors_known_run; [|exact Hp]. by apply serve_errors_known.
Qed.

(** What every answer is like: a success of the handler, or an error that left
    the store alone. *)
Definition answered (fresh : Prop) (s s' : memory.Store) (resp : response) : Prop :=
  rs_status resp ∈ [200; 201; 204] \/
  (s' = s /\ 400 <= rs_status resp /\ (fresh -> rs_status resp ∈ [400; 401; 404; 409])).

Lemma respond_answered {A} q (p : prog (result A)) ok show (s s' : memory.Store) resp fresh :
  serve q = outcome p -> ok ∈ [200; 201; 204] ->
  (fresh -> forall a email password e rid now, q <> RLogin a email password (Err e) rid now) ->
  run (respond p ok show) s = (s', resp) -> answered fresh s s' resp.
Proof.
  intros Hq Hok Hraw Hrun.
  destruct (respond_run q p ok show s s' resp Hq Hrun) as [(v & _ & ->)|(e & -> & -> & Hk)].
  - by left.
  - right. split_and!; [done|apply status_error|]. intros Hf. by apply status_known, Hk, Hraw.
Qed.

Lemma bad_request_answered s s' resp fresh :
  run bad_request s = (s', resp) -> answered fresh s s' resp.
Proof. intros [= <- <-]. right. split_and!; [done|done|]. intros _. simpl. set_solver. Qed.

Lemma protected_answered authorization e r u (s s' : memory.Store) resp fresh :
  run (protected_handler authorization e r u) s = (s', resp) -> answered fresh s s' resp.
Proof.
  set (now := env_now e). set (rid := env_rid e).
  destruct r as [|[v|] idem|limit cursor|id [leg|]|id [next|]|[l|]|id|id [c|]|id [c|]|]; simpl;
    try apply bad_request_answered; try destruct c as [cid sid st x y z];
    [ apply (respond_answered (RLogout (token_of authorization) now))
    | apply (respond_answered (RCreateShipment u v idem rid now))
    | apply (respond_answered (RListShipments (env_order e) u (mkPageRequest (Atoi limit) cursor "")))
    | apply (respond_answered (RBookShipment u id leg now))
    | apply (respond_answered (RTransitionShipment u id next now))
    | apply (respond_answered (RCreateLeg u l rid now (env_now2 e)))
    | apply (respond_answered (ROpenLeg u id))
    | apply (respond_answered (RPutCustoms u (mkCustomsCase cid id st x y z) rid now))
    | apply (respond_answered (RPutSecurity u (mkSecurityCheck cid id st x y z) rid now))
    | apply (respond_answered (RSummary (env_order e) u)) ];
    (done || set_solver).
Qed.

(** C16. Every response below 300 is 200, 201 or 204; every other one leaves the
    store as it was, and, when the random source works, is 400, 401, 404 or 409:
    no request makes the server answer with an internal error. *)
Theorem responses r (s s' : memory.Store) resp :
  run (handle app r) s = (s', resp) ->
  rs_status resp ∈ [200; 201; 204] \/
  (s' = s /\ 400 <= rs_status resp /\
   ((exists b, env_raw (rq_env r) = Ok b) -> rs_status resp ∈ [400; 401; 404; 409])).
Proof.
  unfold handle, router. destruct (rq_route r) as [[| |[[email password]|]]|p]; intros Hrun.
  - left. simplify_eq/=. set_solver.
  - left. simplify_eq/=. set_solver.
  - revert Hrun. apply (respond_answered (RLogin app email password (env_raw (rq_env r))
      (env_rid (rq_env r)) (env_now (rq_env r)))); [done|set_solver|].
    intros [b Hb] a e p err rid now. rewrite Hb. congruence.
  - by eapply bad_request_answered.
  - unfold auth in Hrun. rewrite run_bind in Hrun.
    destruct (Authenticate_total (token_of (rq_authorization r)) (env_auth (rq_env r)) s)
      as ([[u se]|e] & Ha & _); rewrite Ha in Hrun.
    + rewrite mustUser_WithUser in Hrun. by eapply protected_answered.
    + simplify_eq/=. right. split_and!; [done|done|set_solver].
Qed.

(** C17. Nothing behind the authentication runs without it: a request to a
    protected route whose token is not that of a live session of an active user is
    answered with 401 and changes nothing. *)
Theorem protected_needs_session authorization e p (s : memory.Store) :
  (forall se u, sessions s !! auth.HashToken (token_of authorization) = Some se ->
     users s !! ses_UserID se = Some u ->
     ses_RevokedAt se <> None \/ ses_ExpiresAt se <= env_auth e \/ u_Active u = false) ->
  run (handle app (mkRequest authorization (Protected p) e)) s = (s, fail 401 ErrForbidden).
Proof.
  intros Hno. unfold handle, router, auth. simpl rq_route. cbn iota. rewrite run_bind. simpl.
  rewrite Authenticate_refused; [done|].
  intros u se (_ & Hse & Hact & Hu & Hua)%Authenticate_memory.
  apply IsSessionActive_None in Hact as [Hr He].
  destruct (Hno se u Hse Hu) as [?|[?|?]]; [done|lia|congruence].
Qed.
End handlers.

(** ** The server under load *)

(** A request whose body names no leg for a new shipment and no reservation for a
    new leg, with weights in range. *)
Definition sane_http (r : http_request) : Prop :=
  match rq_route r with
  | Protected (PostShipments (Some v) _) => sane_shipment v
  | Protected (PostFlightLegs (Some l)) => sane_leg l
  | _ => True
  end.

Section load.
Context `{External} (app : Application).

Definition anything (_ : unit) (_ _ : tables) : Prop := True.

Lemma respond_safe {A} t (p : prog (result A)) ok show v :
  safe_use_case t p v -> safe good grow anything max_int64 tt (respond p ok show) v.
Proof.
  intros Hp. apply (safe_bind good grow anything); [|done]. by apply (safe_weaken good grow isolated anything _ t).
Qed.

#[local] Hint Resolve Login_safe Logout_safe CreateShipment_safe GetShipment_safe
  ListShipments_safe BookShipment_safe TransitionShipment_safe CreateLeg_safe OpenLeg_safe
  PutCustoms_safe PutSecurity_safe Summary_safe : go.

Lemma protected_safe authorization e p u v :
  sane_http (mkRequest authorization (Protected p) e) ->
  safe good grow anything max_int64 tt (protected_handler authorization e p u) v.
Proof.
  intros Hs. set (t := u_TenantID u).
  destruct p as [|[x|] idem|limit cursor|id [leg|]|id [next|]|[l|]|id|id [c|]|id [c|]|]; simpl in *;
    try done; try destruct c; apply (respond_safe t); eauto with go.
Qed.

Lemma handle_safe r v :
  sane_http r -> safe good grow anything max_int64 tt (handle app r) v.
Proof.
  intros Hs. unfold handle, router. destruct r as [authorization [[| |[[email password]|]]|p] e]; simpl rq_route;
    cbn iota.
  - done.
  - apply (safe_bind good grow anything); [|done].
    apply (safe_weaken good grow isolated anything _ ""); [done|]. apply Ping_safe.
  - apply (respond_safe ""). apply Login_safe.
  - done.
  - unfold auth. apply (safe_bind good grow anything).
    + apply (safe_weaken good grow isolated anything _ ""); [done|]. apply Authenticate_safe.
    + intros [[u se]|err] w Hw; [|done]. rewrite mustUser_WithUser. by apply protected_safe.
Qed.

(** The server at work on requests from any clients. *)
Definition http_serving {state} (rs : list http_request) (s : state)
    : list (unit * prog response) * state :=
  (map (fun r => (tt, handle app r)) rs, s).

(** The running server, over any store that keeps the contract: whatever HTTP
    requests arrive and however their calls interleave, every shipment on a leg is
    on its own tenant's leg along its own route, no draft is on a leg, the
    reservations of every leg are the weights booked on it and fit its capacity,
    and nothing stored when the requests arrived is lost. *)
Theorem server_under_load {state} `{LawfulStore state} rs n m (s0 : state) c :
  store_inv s0 -> good (Z.of_nat n) (view s0) -> Forall sane_http rs ->
  nsteps any_step m (http_serving rs s0) c -> Z.of_nat (n + m) <= max_int64 ->
  (forall id s l, tb_shipments (view c.2) !! id = Some s -> sh_LegID s = Some l ->
     sh_Status s <> ShipmentDraft /\
     exists leg, tb_legs (view c.2) !! l = Some leg /\ leg_TenantID leg = sh_TenantID s /\
       leg_Origin leg = sh_Origin s /\ leg_Destination leg = sh_Destination s) /\
  (forall id l, tb_legs (view c.2) !! id = Some l ->
     leg_ReservedKg l = map_sum (load_on id) (tb_shipments (view c.2)) /\
     leg_ReservedKg l <= leg_CapacityKg l) /\
  (forall id, is_Some (tb_shipments (view s0) !! id) -> is_Some (tb_shipments (view c.2) !! id)).
Proof.
  intros Hinv Hgood Hrs Hsteps Hm.
  assert (Hsafe : pool_safe good grow anything max_int64 (http_serving rs s0)).
  { split; [done|]. clear Hsteps. simpl.
    induction Hrs; simpl; [constructor|constructor; [by apply handle_safe|done]]. }
  rewrite Nat2Z.inj_add in Hm.
  destruct (pool_sound good grow anything max_int64 (Z.of_nat n) m _ c Hsafe Hgood Hsteps Hm)
    as (_ & Hg & Hgr). split_and!.
  - intros id s l Hs Hl. destruct (good_shipment _ _ Hg _ _ Hs) as [_ _ Hd Hleg].
    split; [|by apply Hleg]. intros Hst. rewrite (Hd Hst) in Hl. done.
  - intros id l Hl. by destruct (good_leg _ _ Hg _ _ Hl).
  - intros id [s Hs]. destruct (grow_shipments _ _ Hgr _ _ Hs) as (s' & Hs' & _). by exists s'.
Qed.
End load.
