(* ===== verification/worker.v ===== *)
(** * Package worker

    [OutboxRunner] of [internal/worker/outbox.go] on the in-memory store: the
    claim of a batch, the publication of its events, the marks, and the loop. *)

From S2P Require Import Prelude.
From S2P Require Import golang.
From S2P Require Import domain.
From S2P Require Import external.
From S2P Require Import memory.
From S2P Require Import repository.

Open Scope string_scope.
Open Scope list_scope.
Open Scope Z_scope.

(** ** The code *)

(** [publish]: the context as the publication finds it. *)
Definition publish (ctx : Context) (event : OutboxEvent) : option error := ctx.

(** The loop of [tick] over the batch, from its [i]-th event on; [ctx i] is the
    context when the [i]-th event is published. *)
Fixpoint tick_loop (ctx : nat -> Context) (now : Time) (i : nat) (events : list OutboxEvent)
    : prog unit :=
  match events with
  | [] => Ret tt
  | event :: events' =>
      match publish (ctx i) event with
      | Some err =>
          _ <- MarkFailed (ob_ID event) now (error_string err) ;;
          tick_loop ctx now (S i) events'
      | None =>
          _ <- MarkPublished (ob_ID event) now ;;
          tick_loop ctx now (S i) events'
      end
  end.

Definition tick (ctx : nat -> Context) (order : list string) (now : Time) : prog unit :=
  r <- Claim order now 20 ;;
  match r with
  | Err _ => Ret tt
  | Ok events => tick_loop ctx now 0 events
  end.

(** What a round of the [select] of [Run] receives. *)
Inductive select :=
  | Done_ctx
  | Done_wait
  | Ticker (ctx : nat -> Context) (order : list string) (now : Time).

(** [Run]: the rounds until one of the two channels is closed. *)
Fixpoint Run (rounds : list select) : prog unit :=
  match rounds with
  | [] => Ret tt
  | (Done_ctx | Done_wait) :: _ => Ret tt
  | Ticker ctx order now :: rounds' => _ <~ tick ctx order now ;; Run rounds'
  end.

(** ** The claim *)

(** The events a claim may take. *)
Definition due (now : Time) (m : gmap string OutboxEvent) : list OutboxEvent :=
  filter (claimable now) (map_to_list m).*2.

(** The map after the assignment of every event of a list. *)
Definition put_all (l : list OutboxEvent) (m : gmap string OutboxEvent) : gmap string OutboxEvent :=
  foldl (fun m v => <[ob_ID v := v]> m) m l.

Lemma claimed_ID now v : ob_ID (claimed now v) = ob_ID v.
Proof. by destruct v. Qed.

Lemma claimed_IDs now (l : list OutboxEvent) : ob_ID <$> (claimed now <$> l) = ob_ID <$> l.
Proof.
  rewrite <- list_fmap_compose. apply list_fmap_ext. intros i w _. apply claimed_ID.
Qed.

Lemma put_all_lookup_ne l m k : k ∉ ob_ID <$> l -> put_all l m !! k = m !! k.
Proof.
  revert m. induction l as [|v l IH]; intros m Hk; simpl; [done|].
  rewrite fmap_cons, not_elem_of_cons in Hk. destruct Hk as [Hv Hk].
  unfold put_all in *. simpl. rewrite IH by done. by apply lookup_insert_ne.
Qed.

Lemma put_all_lookup l m v : NoDup (ob_ID <$> l) -> v ∈ l -> put_all l m !! ob_ID v = Some v.
Proof.
  revert m. induction l as [|w l IH]; intros m Hnd Hv; [by apply elem_of_nil in Hv|].
  rewrite fmap_cons in Hnd. apply NoDup_cons in Hnd as [Hw Hnd].
  unfold put_all in *. simpl. apply elem_of_cons in Hv as [->|Hv]; [|by apply IH].
  change (put_all l (<[ob_ID w:=w]> m) !! ob_ID w = Some w).
  rewrite put_all_lookup_ne by done. apply lookup_insert_eq.
Qed.

Lemma range_values_insert (m : gmap string OutboxEvent) ks k v :
  k ∉ ks -> range_values (<[k:=v]> m) ks = range_values m ks.
Proof.
  induction ks as [|j ks IH]; [done|]. rewrite not_elem_of_cons. intros [Hj Hk]. simpl.
  rewrite lookup_insert_ne by done. by rewrite IH.
Qed.

(** The loop takes the first claimable events of its order, as many as it may. *)
Lemma claim_loop now n order m out :
  NoDup order -> keyed ob_ID m ->
  let batch := take (Z.to_nat n - length out) (filter (claimable now) (range_values m order)) in
  foldl (claim_round now n) (m, out) order =
  (put_all (claimed now <$> batch) m, out ++ (claimed now <$> batch)).
Proof.
  revert m out. induction order as [|id order IH]; intros m out Hnd Hm; simpl.
  { unfold range_values. simpl. by rewrite filter_nil, take_nil, app_nil_r. }
  apply NoDup_cons in Hnd as [Hid Hnd]. unfold range_values in *. simpl.
  destruct (m !! id) as [v|] eqn:Hv; [|by apply IH].
  rewrite filter_cons.
  destruct (decide (claimable now v)) as [Hc|Hc].
  - destruct (decide (Z.of_nat (length out) < n)) as [Hn|Hn].
    + rewrite decide_True by done.
      replace (Z.to_nat n - length out)%nat with (S (Z.to_nat n - S (length out))) by lia.
      rewrite IH; [|done|eapply keyed_update; [done..|apply claimed_ID]].
      fold (range_values (<[id:=claimed now v]> m) order). fold (range_values m order).
      rewrite range_values_insert by done. rewrite length_app. simpl.
      replace (length out + 1)%nat with (S (length out)) by lia.
      rewrite <- (Hm _ _ Hv). unfold put_all. simpl.
      rewrite claimed_ID. by rewrite <- app_assoc.
    + rewrite decide_False by tauto.
      replace (Z.to_nat n - length out)%nat with 0%nat by lia.
      rewrite IH by done. by replace (Z.to_nat n - length out)%nat with 0%nat by lia.
  - rewrite decide_False by tauto. by apply IH.
Qed.

Section worker.
Context `{External}.

(** What a claim takes: a batch of distinct claimable events, as many as there are
    up to the limit. *)
Lemma Claim_batch order now n (s : memory.Store) :
  wf s -> range_order (outbox s) order ->
  exists batch rest,
    batch ++ rest ≡ₚ due now (outbox s) /\
    length batch = Nat.min (Z.to_nat n) (length (due now (outbox s))) /\
    NoDup (ob_ID <$> batch) /\
    (forall v, v ∈ batch -> outbox s !! ob_ID v = Some v /\ claimable now v) /\
    exec (Claim order now n) s =
      (with_outbox (put_all (claimed now <$> batch) (outbox s)) s, Ok (claimed now <$> batch)).
Proof.
  intros Hwf Hord. pose proof (wf_outbox _ Hwf) as Hk. pose proof Hord as [Hnd Hks].
  set (c := filter (claimable now) (range_values (outbox s) order)).
  assert (Hc : c ≡ₚ due now (outbox s)).
  { unfold c, due. by rewrite (range_values_perm _ _ Hord). }
  exists (take (Z.to_nat n) c), (drop (Z.to_nat n) c). split_and!.
  - by rewrite take_drop.
  - rewrite length_take, <- (Permutation_length Hc). done.
  - apply (sublist_NoDup _ order); [done|].
    rewrite <- (keyed_range ob_ID (outbox s) order Hk) by (intros k; apply Hks).
    apply fmap_sublist. etrans; [apply sublist_take|apply sublist_filter].
  - intros v Hv. assert (Hv' : v ∈ c) by (rewrite <- (take_drop (Z.to_nat n) c); set_solver).
    apply list_elem_of_filter in Hv' as [Hcl Hv']. split; [|done].
    apply elem_of_range_values in Hv' as [k Hv']; [|done]. by rewrite (Hk _ _ Hv').
  - unfold exec, memory_store. rewrite Claim_eq, claim_loop by done. simpl.
    by rewrite Nat.sub_0_r.
Qed.

Lemma claimed_not_claimable now now' v : ~ claimable now' (claimed now v).
Proof. intros (_ & Hc & _). by destruct v. Qed.

Lemma put_all_due now m batch v k :
  NoDup (ob_ID <$> batch) ->
  put_all (claimed now <$> batch) m !! k = Some v ->
  (exists w, w ∈ batch /\ v = claimed now w) \/ (k ∉ (ob_ID <$> batch) /\ m !! k = Some v).
Proof.
  intros Hnd. pose proof (claimed_IDs now batch) as Hids.
  destruct (decide (k ∈ ob_ID <$> batch)) as [Hk|Hk].
  - apply list_elem_of_fmap in Hk as (w & -> & Hw). rewrite <- (claimed_ID now w).
    rewrite put_all_lookup; [|by rewrite Hids|by apply list_elem_of_fmap_2].
    intros [= <-]. left; eauto.
  - rewrite put_all_lookup_ne by (by rewrite Hids). by right.
Qed.

(** Claims are exclusive: an event that one claim handed out is not handed out
    by the next one, however the two iterate over the map and whatever the time. *)
Theorem Claim_exclusive order order' now now' n n' (s s1 s2 : memory.Store) evs evs' :
  wf s -> range_order (outbox s) order -> range_order (outbox s1) order' ->
  exec (Claim order now n) s = (s1, Ok evs) ->
  exec (Claim order' now' n') s1 = (s2, Ok evs') ->
  Z.of_nat (length evs) <= Z.max 0 n /\ NoDup (ob_ID <$> evs) /\
  forall e e', e ∈ evs -> e' ∈ evs' -> ob_ID e <> ob_ID e'.
Proof.
  intros Hwf Hord Hord' Hex Hex'.
  assert (Hwf1 : wf s1) by (by eapply exec_wf).
  destruct (Claim_batch order now n s Hwf Hord) as (batch & rest & Hp & Hlen & Hnd & Hin & Heq).
  destruct (Claim_batch order' now' n' s1 Hwf1 Hord') as (batch' & rest' & _ & _ & _ & Hin' & Heq').
  rewrite Hex in Heq. rewrite Hex' in Heq'. simplify_eq.
  pose proof (claimed_IDs now batch) as Hids.
  rewrite length_fmap, Hids. split_and!; [lia|done|].
  intros e e' (v & -> & Hv)%list_elem_of_fmap (v' & -> & Hv')%list_elem_of_fmap.
  rewrite !claimed_ID. intros Heq. destruct (Hin' v' Hv') as [Hlook Hcl].
  destruct s; simpl in *.
  apply put_all_due in Hlook as [(w & _ & ->)|[Hk _]]; [|apply Hk|done].
  - by apply claimed_not_claimable in Hcl.
  - rewrite <- Heq. by apply list_elem_of_fmap_2.
Qed.

(** ** The tick *)

(** An event after its publication was tried. *)
Definition marked (ctx : Context) (now : Time) (v : OutboxEvent) : OutboxEvent :=
  match publish ctx v with
  | Some err => failed now (error_string err) v
  | None => published now v
  end.

Lemma marked_ID ctx now v : ob_ID (marked ctx now v) = ob_ID v.
Proof. unfold marked. destruct (publish ctx v); [apply failed_ID|apply published_ID]. Qed.

Lemma tick_loop_run ctx now evs : forall i (s : memory.Store),
  NoDup (ob_ID <$> evs) -> (forall v, v ∈ evs -> outbox s !! ob_ID v = Some v) ->
  run (tick_loop ctx now i evs) s =
  (with_outbox (put_all (imap (fun j v => marked (ctx (i + j)%nat) now v) evs) (outbox s)) s, tt).
Proof.
  induction evs as [|v evs IH]; intros i s Hnd Hin; simpl.
  { by destruct s. }
  rewrite fmap_cons in Hnd. apply NoDup_cons in Hnd as [Hv Hnd].
  assert (Hvs : outbox s !! ob_ID v = Some v) by (apply Hin; set_solver).
  transitivity (run (tick_loop ctx now (S i) evs)
    (with_outbox (<[ob_ID v := marked (ctx i) now v]> (outbox s)) s)).
  { unfold marked. destruct (publish (ctx i) v) as [err|]; simpl;
      unfold exec, memory_store, memory.MarkFailed, memory.MarkPublished; by rewrite Hvs. }
  rewrite IH; [|done|].
  - rewrite Nat.add_0_r. unfold put_all. simpl. rewrite marked_ID.
    assert (Hmap : imap ((fun j v => marked (ctx (i + j)%nat) now v) ∘ S) evs =
                   imap (fun j v => marked (ctx (S i + j)%nat) now v) evs).
    { apply imap_ext. intros j w _. simpl. by rewrite Nat.add_succ_r. }
    rewrite Hmap. by destruct s.
  - intros w Hw. destruct s; simpl in *. rewrite lookup_insert_ne; [apply Hin; set_solver|].
    intros Heq. apply Hv. rewrite Heq. by apply list_elem_of_fmap_2.
Qed.

(** The marks of a batch, and what a tick leaves in the outbox. *)
Definition marks (ctx : nat -> Context) (now : Time) (batch : list OutboxEvent) : list OutboxEvent :=
  imap (fun j v => marked (ctx j) now v) (claimed now <$> batch).

Lemma marks_lookup ctx now batch i v :
  batch !! i = Some v -> marks ctx now batch !! i = Some (marked (ctx i) now (claimed now v)).
Proof. intros Hv. unfold marks. by rewrite list_lookup_imap, list_lookup_fmap, Hv. Qed.

Lemma marks_IDs ctx now batch : ob_ID <$> marks ctx now batch = ob_ID <$> batch.
Proof.
  rewrite <- (claimed_IDs now batch). unfold marks. apply list_eq. intros i.
  rewrite !list_lookup_fmap, list_lookup_imap, list_lookup_fmap.
  destruct (batch !! i); simpl; [by rewrite marked_ID|done].
Qed.

Lemma tick_run ctx order now (s : memory.Store) :
  wf s -> range_order (outbox s) order ->
  exists batch rest m,
    batch ++ rest ≡ₚ due now (outbox s) /\
    length batch = Nat.min 20 (length (due now (outbox s))) /\ NoDup (ob_ID <$> batch) /\
    run (tick ctx order now) s = (with_outbox m s, tt) /\
    (forall i v, batch !! i = Some v ->
       m !! ob_ID v = Some (marked (ctx i) now (claimed now v))) /\
    (forall k, k ∉ (ob_ID <$> batch) -> m !! k = outbox s !! k).
Proof.
  intros Hwf Hord.
  destruct (Claim_batch order now 20 s Hwf Hord) as (batch & rest & Hp & Hlen & Hnd & Hin & Hex).
  pose proof (claimed_IDs now batch) as Hids. pose proof (marks_IDs ctx now batch) as Hmids.
  exists batch, rest, (put_all (marks ctx now batch) (put_all (claimed now <$> batch) (outbox s))).
  split_and!; [done..| | |].
  - unfold tick. simpl. rewrite Hex. rewrite tick_loop_run; [by destruct s|by rewrite Hids|].
    intros v Hv. destruct s; simpl. apply put_all_lookup; [by rewrite Hids|done].
  - intros i v Hv. pose proof (marks_lookup ctx now batch i v Hv) as Hm.
    rewrite <- (claimed_ID now v), <- (marked_ID (ctx i) now (claimed now v)).
    rewrite put_all_lookup; [done|by rewrite Hmids|by eapply list_elem_of_lookup_2].
  - intros k Hk. by rewrite !put_all_lookup_ne by (by rewrite ?Hmids, ?Hids).
Qed.

(** A tick takes a batch of the events that are due, twenty or all of them,
    counts an attempt on each, and settles every one: it is published, or, when
    the context was done, released with the error, to be due again after as many
    minutes as attempts.  The other events are as before. *)
Theorem tick_settles ctx order now (s : memory.Store) :
  wf s -> range_order (outbox s) order ->
  exists batch rest m,
    run (tick ctx order now) s = (with_outbox m s, tt) /\
    batch ++ rest ≡ₚ due now (outbox s) /\
    length batch = Nat.min 20 (length (due now (outbox s))) /\
    (forall i v, batch !! i = Some v ->
       m !! ob_ID v = Some (match ctx i with
                            | Some err => failed now (error_string err) (claimed now v)
                            | None => published now (claimed now v)
                            end)) /\
    (forall k, k ∉ (ob_ID <$> batch) -> m !! k = outbox s !! k).
Proof.
  intros Hwf Hord.
  destruct (tick_run ctx order now s Hwf Hord) as (batch & rest & m & ? & ? & _ & ? & ? & ?).
  by exists batch, rest, m.
Qed.

(** ** Draining *)

Lemma elem_of_values (m : gmap string OutboxEvent) v :
  v ∈ (map_to_list m).*2 <-> exists k, m !! k = Some v.
Proof.
  rewrite list_elem_of_fmap. split.
  - intros ([k w] & -> & Hk%elem_of_map_to_list). by exists k.
  - intros [k Hk]. exists (k, v). split; [done|]. by apply elem_of_map_to_list.
Qed.

Lemma elem_of_due now m v : v ∈ due now m <-> claimable now v /\ exists k, m !! k = Some v.
Proof. unfold due. by rewrite list_elem_of_filter, elem_of_values. Qed.

Lemma claimable_later now now' v : now <= now' -> claimable now v -> claimable now' v.
Proof. intros Hle (? & ? & ?). split_and!; [done..|lia]. Qed.

(** The iteration orders and instants of consecutive ticks with a live context. *)
Definition live_rounds (rounds : list (list string * Time)) : list select :=
  (fun '(order, now) => Ticker (fun _ => None) order now) <$> rounds.

(** A tick with a live context publishes its batch and leaves the rest: either it
    publishes all that is due, or there are twenty fewer events to come. *)
Lemma live_tick order now until (s : memory.Store) :
  wf s -> range_order (outbox s) order -> now <= until ->
  exists m, run (tick (fun _ => None) order now) s = (with_outbox m s, tt) /\
    keyed ob_ID m /\ (forall k, is_Some (m !! k) <-> is_Some (outbox s !! k)) /\
    (forall k v, outbox s !! k = Some v -> m !! k = Some v \/
       claimable now v /\ exists v', m !! k = Some v' /\ ob_PublishedAt v' <> None) /\
    ((forall k v, outbox s !! k = Some v -> claimable now v ->
        exists v', m !! k = Some v' /\ ob_PublishedAt v' <> None) \/
     (length (due until m) + 20 <= length (due until (outbox s)))%nat).
Proof.
  intros Hwf Hord Hle. pose proof (wf_outbox _ Hwf) as Hk.
  destruct (tick_run (fun _ => None) order now s Hwf Hord)
    as (batch & rest & m & Hp & Hlen & Hnd & Hrun & Hin & Hout).
  exists m. split; [done|].
  assert (Hbatch : forall v, v ∈ batch -> claimable now v /\ outbox s !! ob_ID v = Some v).
  { intros v Hv. assert (Hd : v ∈ due now (outbox s)) by (rewrite <- Hp; set_solver).
    apply elem_of_due in Hd as [Hc [k Hd]]. by rewrite (Hk _ _ Hd). }
  assert (Hpub : forall v, v ∈ batch -> exists v', m !! ob_ID v = Some v' /\ ob_ID v' = ob_ID v /\
    ob_PublishedAt v' <> None).
  { intros v [i Hv]%list_elem_of_lookup_1. eexists. split; [exact (Hin _ _ Hv)|]. by destruct v. }
  (* every event is in the batch or as before *)
  assert (Hcase : forall k, (exists v, v ∈ batch /\ k = ob_ID v) \/ m !! k = outbox s !! k).
  { intros k. destruct (decide (k ∈ ob_ID <$> batch)) as [(v & -> & Hv)%list_elem_of_fmap|Hkb];
      [left; eauto|right; auto]. }
  assert (Hkm : keyed ob_ID m).
  { intros k v Hv. destruct (Hcase k) as [(w & Hw & ->)|Hs]; [|apply Hk; congruence].
    destruct (Hpub w Hw) as (v' & Hv' & ? & _). congruence. }
  split_and!; [done| | |].
  - intros k. destruct (Hcase k) as [(w & Hw & ->)| ->]; [|done].
    destruct (Hpub w Hw) as (v' & -> & _), (Hbatch w Hw) as [_ ->]. by split; eexists.
  - intros k v Hv. destruct (Hcase k) as [(w & Hw & ->)| ->]; [right|by left].
    destruct (Hbatch w Hw) as [Hc Hs]. simplify_eq. destruct (Hpub v Hw) as (v' & ? & _ & ?). eauto.
  - destruct (decide (length (due now (outbox s)) <= 20)%nat) as [Hfew|Hmany]; [left|right].
    + intros k v Hv Hc. assert (Hvd : v ∈ due now (outbox s)) by (apply elem_of_due; eauto).
      assert (rest = []) as -> by (apply length_zero_iff_nil; rewrite <- Hp, length_app in Hlen, Hfew; lia).
      rewrite <- Hp, app_nil_r in Hvd. destruct (Hpub v Hvd) as (v' & Hv' & _ & ?).
      rewrite (Hk _ _ Hv) in Hv'. eauto.
    + replace 20%nat with (length batch) by lia. rewrite Nat.add_comm, <- length_app.
      apply submseteq_length, NoDup_submseteq; [apply NoDup_app; split_and!|].
      * by eapply NoDup_fmap_1.
      * intros v Hv (Hc & k & Hm)%elem_of_due. destruct (Hpub v Hv) as (v' & Hv' & _ & Hp').
        rewrite (Hkm _ _ Hm), Hm in Hv'. simplify_eq. by destruct Hc.
      * by apply NoDup_filter, (keyed_values_NoDup ob_ID).
      * intros v [Hv|(Hc & k & Hm)%elem_of_due]%elem_of_app; apply elem_of_due.
        -- destruct (Hbatch v Hv) as [Hc Hs]. split; [by eapply claimable_later|by eexists].
        -- split; [done|]. destruct (Hcase k) as [(w & Hw & ->)|Hs]; [|exists k; congruence].
           destruct (Hpub w Hw) as (v' & Hv' & _ & Hp'). simplify_eq. by destruct Hc.
Qed.

Lemma rounds_run rounds now0 until (s : memory.Store) :
  wf s -> now0 <= until ->
  Forall (fun '(order, now) => range_order (outbox s) order /\ now0 <= now <= until) rounds ->
  exists s', run (Run (live_rounds rounds)) s = (s', tt) /\
    (forall k, is_Some (outbox s' !! k) <-> is_Some (outbox s !! k)) /\
    (forall k v, outbox s !! k = Some v -> ~ claimable until v -> outbox s' !! k = Some v) /\
    ((length (due until (outbox s)) <= 20 * length rounds)%nat ->
     forall k v, outbox s !! k = Some v -> claimable now0 v ->
     exists v', outbox s' !! k = Some v' /\ ob_PublishedAt v' <> None).
Proof.
  intros Hwf Hle. revert s Hwf. induction rounds as [|[order now] rounds IH]; intros s Hwf Hrounds.
  - exists s. split_and!; try done. intros Hlen k v Hv Hc.
    assert (Hd : v ∈ due until (outbox s)) by (apply elem_of_due; eauto using claimable_later).
    destruct (due until (outbox s)); [by apply elem_of_nil in Hd|simpl in Hlen; lia].
  - apply Forall_cons in Hrounds as [(Hord & Hnow & Huntil) Hrounds].
    destruct (live_tick order now until s Hwf Hord Huntil) as (m & Hrun & Hkm & Hdom & Hrow & Hleft).
    assert (Hm : outbox (with_outbox m s) = m) by (by destruct s).
    destruct (IH (with_outbox m s)) as (s' & Hrun' & Hdom' & Hkeep & Hall); rewrite ?Hm in *.
    { destruct Hwf. destruct s; by split. }
    { eapply Forall_impl; [exact Hrounds|]. intros [o t] [[Hnd Ho] Ht].
      split; [|done]. split; [done|]. intros k. by rewrite Ho, Hdom. }
    (* what is published stays so *)
    assert (Hstay : forall k, (exists v, m !! k = Some v /\ ob_PublishedAt v <> None) ->
      exists v, outbox s' !! k = Some v /\ ob_PublishedAt v <> None).
    { intros k (v & Hv & Hp). exists v. split; [|done]. apply Hkeep; [done|]. by intros [? _]. }
    exists s'. split_and!.
    + change (run (_ <~ tick (fun _ => None) order now ;; Run (live_rounds rounds)) s = (s', tt)).
      by rewrite run_bind, Hrun.
    + intros k. by rewrite Hdom', Hdom.
    + intros k v Hv Hc. destruct (Hrow k v Hv) as [Hs|[Hc' _]]; [by apply Hkeep|].
      destruct Hc. by eapply claimable_later.
    + intros Hlen k v Hv Hc. simpl in Hlen.
      destruct Hleft as [Hpub|Hfewer]; [apply Hstay, (Hpub k v); [done|by eapply claimable_later]|].
      destruct (Hrow k v Hv) as [Hs|[_ Hp]]; [apply (Hall ltac:(lia) k v); done|by apply Hstay].
Qed.

(** C19. The outbox drains over the in-memory store: when there are ticks enough for the
    events that are due by the last of them, one for every twenty, every event that
    is due at the first is published by the end, whatever else waits in the outbox,
    at whatever instants and in any iteration orders.  No event is lost, and the
    ones that are published, claimed or not yet due stay as they are. *)
Theorem outbox_drains rounds now0 until (s : memory.Store) :
  wf s -> now0 <= until ->
  Forall (fun '(order, now) => range_order (outbox s) order /\ now0 <= now <= until) rounds ->
  (length (due until (outbox s)) <= 20 * length rounds)%nat ->
  exists s', run (Run (live_rounds rounds)) s = (s', tt) /\
    (forall k v, outbox s !! k = Some v -> claimable now0 v ->
       exists v', outbox s' !! k = Some v' /\ ob_PublishedAt v' <> None) /\
    (forall k v, outbox s !! k = Some v -> ~ claimable until v -> outbox s' !! k = Some v) /\
    (forall k, is_Some (outbox s' !! k) <-> is_Some (outbox s !! k)).
Proof.
  intros Hwf Hle Hrounds Hlen.
  destruct (rounds_run rounds now0 until s Hwf Hle Hrounds) as (s' & Hrun & Hdom & Hkeep & Hpub).
  exists s'. split; [done|]. split; [by apply Hpub|]. by split.
Qed.
End worker.
