(* ===== verification/machine.v ===== *)
(** * Components as machines

    The packages that keep state behind one mutex: each of their methods runs
    alone from its first line to its return, so the states such a component can
    reach are those after a sequence of calls.  The packages that start goroutines
    are pools of them: each has a local state, and a step of the pool changes the
    state of one of them and the shared part. *)

From S2P Require Import Prelude.

Section machine.
Context {state op : Type} (step : op -> state -> state).

(** The state after a sequence of calls. *)
Fixpoint after (ops : list op) (s : state) : state :=
  match ops with
  | [] => s
  | o :: ops' => after ops' (step o s)
  end.

(** Every call of the sequence is admissible in the state it meets. *)
Fixpoint legal (adm : op -> state -> Prop) (ops : list op) (s : state) : Prop :=
  match ops with
  | [] => True
  | o :: ops' => adm o s /\ legal adm ops' (step o s)
  end.

Lemma after_app ops1 ops2 s : after (ops1 ++ ops2) s = after ops2 (after ops1 s).
Proof. revert s. induction ops1; intros s; simpl; auto. Qed.

(** An invariant of the admissible calls holds after any sequence of them. *)
Lemma after_invariant (P : state -> Prop) adm ops s :
  (forall o s, adm o s -> P s -> P (step o s)) -> legal adm ops s -> P s -> P (after ops s).
Proof.
  intros Hstep. revert s. induction ops as [|o ops IH]; intros s; simpl; [done|].
  intros [Ho Hops] HP. auto.
Qed.

(** A property that every call keeps holds after any sequence. *)
Lemma after_stable (P : state -> Prop) ops s :
  (forall o s, P s -> P (step o s)) -> P s -> P (after ops s).
Proof. intros Hstep. revert s. induction ops; intros s HP; simpl; auto. Qed.

(** A preorder that every call respects relates the ends of a sequence. *)
Lemma after_preorder (R : state -> state -> Prop) `{!PreOrder R} ops s :
  (forall o s, R s (step o s)) -> R s (after ops s).
Proof.
  intros Hstep. revert s. induction ops as [|o ops IH]; intros s; simpl; [done|].
  etrans; [apply Hstep|apply IH].
Qed.

#[export] Instance legal_dec (adm : op -> state -> Prop) `{!forall o s, Decision (adm o s)} ops s :
  Decision (legal adm ops s).
Proof. revert s. induction ops; intros s; simpl; apply _. Defined.
End machine.

(** ** Goroutines *)

#[local] Open Scope list_scope.
#[local] Open Scope nat_scope.

(** One goroutine of a list changes: what the list holds of it changes, and the rest
    stays. *)
Lemma omap_change {A B} (f : A -> option B) l w s s' :
  l !! w = Some s ->
  exists rest, omap f l ≡ₚ option_list (f s) ++ rest /\
    omap f (<[w := s']> l) ≡ₚ option_list (f s') ++ rest.
Proof.
  intros Hw. exists (omap f (take w l) ++ omap f (drop (S w) l)).
  assert (Hcons : forall x k, omap f (x :: k) = option_list (f x) ++ omap f k)
    by (intros x k; simpl; by destruct (f x)).
  rewrite (insert_take_drop l w s') by (by eapply lookup_lt_Some).
  rewrite <- (take_drop_middle l w s Hw) at 1. rewrite !omap_app, !Hcons, !(assoc (++)).
  split; f_equiv; apply Permutation_app_comm.
Qed.

Lemma sum_change {A} (f : A -> nat) l w s s' :
  l !! w = Some s -> sum_list_with f (<[w := s']> l) + f s = sum_list_with f l + f s'.
Proof.
  revert w. induction l as [|x l IH]; intros [|w]; simpl; [done..| |].
  - intros [= ->]. lia.
  - intros Hw%IH. lia.
Qed.

Lemma Forall_change {A} (P : A -> Prop) l w s' : Forall P l -> P s' -> Forall P (<[w := s']> l).
Proof. intros Hl Hs. by apply Forall_insert. Qed.

(** Steps that make a measure smaller come to an end. *)
Lemma measure_bound {A} (R : A -> A -> Prop) (m : A -> nat) k x y :
  (forall x y, R x y -> m y < m x) -> nsteps R k x y -> k + m y <= m x.
Proof.
  intros Hm. induction 1 as [|k x y z Hxy _ IH]; [lia|]. apply Hm in Hxy. lia.
Qed.

(** An invariant of the steps holds after any number of them. *)
Lemma rtc_invariant {A} (R : A -> A -> Prop) (P : A -> Prop) x y :
  (forall x y, R x y -> P x -> P y) -> rtc R x y -> P x -> P y.
Proof. intros HP. induction 1; eauto. Qed.

Lemma omap_length_le {A B} (f : A -> option B) l : length (omap f l) <= length l.
Proof.
  induction l as [|x l IH]; [done|]. simpl. unfold omap in IH.
  destruct (f x); simpl; lia.
Qed.
