(* ===== verification/pagination.v ===== *)
(** * Package pagination

    Opaque cursors ([internal/pagination/cursor.go]). *)

From S2P Require Import Prelude.
From S2P Require Import golang.
From S2P Require Import strconv.
From S2P Require Import domain.

Open Scope string_scope.
Open Scope list_scope.
Open Scope Z_scope.

Record Cursor := mkCursor { CreatedAt : Z; ID : string }.

Definition zero_Cursor : Cursor := mkCursor 0 "".

Definition bar : ascii := "|"%char.

Definition Encode (c : Cursor) : string :=
  let raw := FormatInt (CreatedAt c) +:+ String bar (ID c) in
  EncodeToString raw.

Definition Decode (raw : string) : result Cursor :=
  if decide (raw = "") then Ok zero_Cursor else
  match DecodeString raw with
  | None => Err ErrInvalid
  | Some data =>
      match Cut bar data with
      | None => Err ErrInvalid
      | Some (part0, part1) =>
          match ParseInt part0 with
          | None => Err ErrInvalid
          | Some ts => if decide (part1 = "") then Err ErrInvalid else Ok (mkCursor ts part1)
          end
      end
  end.

(** [Next]; the length of a slice is not negative, so [limit > 0] makes [limit] an
    index into it. *)
Definition Next {T} (items : list T) (limit : Z) (hasMore : bool) (encode : T -> Cursor) : string :=
  if negb hasMore || bool_decide (items = []) then "" else
  let items :=
    if decide (limit > 0 /\ Z.of_nat (length items) > limit)
    then take (Z.to_nat limit) items else items in
  match last items with
  | Some v => Encode (encode v)
  | None => ""
  end.

Lemma Encode_nonempty c : Encode c <> "".
Proof.
  unfold Encode. apply EncodeToString_nonempty. destruct (FormatInt (CreatedAt c)); done.
Qed.

Lemma Decode_Encode c : in_int64 (CreatedAt c) -> ID c <> "" -> Decode (Encode c) = Ok c.
Proof.
  intros Hts Hid. unfold Decode. rewrite decide_False by apply Encode_nonempty.
  unfold Encode. rewrite DecodeString_EncodeToString.
  rewrite Cut_join by (by apply FormatInt_free). rewrite ParseInt_FormatInt by done.
  rewrite decide_False by done. by destruct c.
Qed.

(** C31. Cursors survive the trip through a page token: encoding and decoding gives
    the cursor back, for every 64-bit time and every identifier that is not empty;
    and every token that is accepted, whoever wrote it, is the first page's or
    carries such a cursor. *)
Theorem cursor_roundtrip (c : Cursor) (raw : string) :
  (in_int64 (CreatedAt c) -> Decode (Encode c) = if decide (ID c = "") then Err ErrInvalid else Ok c) /\
  (Decode raw = Ok c -> raw = "" /\ c = zero_Cursor \/
     in_int64 (CreatedAt c) /\ ID c <> "" /\ Decode (Encode c) = Ok c).
Proof.
  split.
  - intros Hts. case_decide as Hid; [|by apply Decode_Encode].
    unfold Decode. rewrite decide_False by apply Encode_nonempty.
    unfold Encode. rewrite DecodeString_EncodeToString.
    rewrite Cut_join by (by apply FormatInt_free). rewrite ParseInt_FormatInt by done.
    by rewrite decide_True.
  - unfold Decode. case_decide as Hraw; [intros [= <-]; by left|].
    destruct (DecodeString raw) as [data|]; [|done].
    destruct (Cut bar data) as [[part0 part1]|]; [|done].
    destruct (ParseInt part0) as [ts|] eqn:Hts; [|done]. case_decide; [done|].
    intros [= <-]. right. apply ParseInt_range in Hts.
    split_and!; [done..|]. by apply Decode_Encode.
Qed.

Lemma cursor_roundtrip_witness :
  Decode (Encode (mkCursor (-7) "S1|a")) = Ok (mkCursor (-7) "S1|a") /\
  in_int64 (CreatedAt (mkCursor 5 "S2")) /\ ID (mkCursor 5 "S2") <> "".
Proof.
  split.
  - apply (cursor_roundtrip (mkCursor (-7) "S1|a") ""). vm_compute. split; discriminate.
  - destruct (cursor_roundtrip (mkCursor 5 "S2") "NXxTMg") as [_ H].
    destruct (H ltac:(vm_compute; reflexivity)) as [[E _]|(Hi & Hd & _)]; [discriminate E|].
    by split.
Defined.
