(* ===== verification/retry.v ===== *)
(** * Package retry

    Retries with exponential back-off ([internal/retry/policy.go]). *)

From S2P Require Import Prelude.
From S2P Require Import golang.
From S2P Require Import floats.
From S2P Require Import domain.

Open Scope list_scope.
Open Scope Z_scope.

Record Policy := mkPolicy { MaxAttempts : Z; InitialDelay : Duration; MaxDelay : Duration }.

Definition Normalize (p : Policy) : Policy :=
  mkPolicy (if decide (MaxAttempts p < 1) then 1 else MaxAttempts p)
    (if decide (InitialDelay p <= 0) then 100 * Millisecond else InitialDelay p)
    (if decide (MaxDelay p <= 0) then 10 * Second else MaxDelay p).

#[local] Arguments Normalize : simpl never.

Section retry.
Context `{Platform}.

Definition Delay (p : Policy) (attempt : Z) : Duration :=
  let p := Normalize p in
  let attempt := if decide (attempt < 1) then 1 else attempt in
  let factor := Pow2 (attempt - 1) in
  let d := int64_of_float64 (mul_float64 (float64_of_int (InitialDelay p)) factor) in
  if decide (d > MaxDelay p) then MaxDelay p else d.

(** What [Do] does, in order. *)
Inductive action := Call (attempt : Z) | Wait (d : Duration).

Section Do.
(** [ctx i]: the context's error before attempt [i]; [fn i]: what the function
    returns then; [wait i]: the context's error when it ends the wait after attempt
    [i] before the timer. *)
Context (p : Policy) (ctx : Z -> Context) (fn : Z -> option error) (wait : Z -> option error).

(** The rounds of the loop that are left, from [attempt] on. *)
Fixpoint Do_loop (rounds : nat) (attempt : Z) (last : option error)
    : list action * option error :=
  match rounds with
  | O => ([], last)
  | S rounds' =>
      match ctx attempt with
      | Some err => ([], Some err)
      | None =>
          match fn attempt with
          | None => ([Call attempt], None)
          | Some err =>
              if errors_Is err Canceled || errors_Is err DeadlineExceeded
              then ([Call attempt], Some err) else
              if decide (attempt = MaxAttempts (Normalize p)) then ([Call attempt], Some err) else
              match wait attempt with
              | Some e => ([Call attempt; Wait (Delay p attempt)], Some e)
              | None =>
                  let '(tr, r) := Do_loop rounds' (attempt + 1) (Some err) in
                  (Call attempt :: Wait (Delay p attempt) :: tr, r)
              end
          end
      end
  end.

Definition Do : list action * option error :=
  Do_loop (Z.to_nat (MaxAttempts (Normalize p))) 1 None.

(** A failure after which [Do] goes on to the next attempt. *)
Definition retried (i : Z) : Prop :=
  ctx i = None /\ wait i = None /\
  exists err, fn i = Some err /\ errors_Is err Canceled = false /\
    errors_Is err DeadlineExceeded = false.

(** The calls and waits of the attempts from [a] on, [n] of them. *)
Fixpoint tries (a : Z) (n : nat) : list action :=
  match n with
  | O => []
  | S n' => Call a :: Wait (Delay p a) :: tries (a + 1) n'
  end.

(** How [Do] ends in the round of attempt [k]: the actions of the round and its
    result. *)
Inductive ends (k : Z) : list action -> option error -> Prop :=
  | ends_cancelled err : ctx k = Some err -> ends k [] (Some err)
  | ends_done : ctx k = None -> fn k = None -> ends k [Call k] None
  | ends_given_up err :
      ctx k = None -> fn k = Some err ->
      errors_Is err Canceled || errors_Is err DeadlineExceeded = true \/
        k = MaxAttempts (Normalize p) ->
      ends k [Call k] (Some err)
  | ends_interrupted err e :
      ctx k = None -> fn k = Some err -> k < MaxAttempts (Normalize p) -> wait k = Some e ->
      ends k [Call k; Wait (Delay p k)] (Some e).

Lemma Do_loop_ends rounds a last :
  (0 < rounds)%nat -> a + Z.of_nat rounds = MaxAttempts (Normalize p) + 1 ->
  exists n final, (n < rounds)%nat /\ (forall i, a <= i < a + Z.of_nat n -> retried i) /\
    (Do_loop rounds a last).1 = tries a n ++ final /\
    ends (a + Z.of_nat n) final (Do_loop rounds a last).2.
Proof.
  revert a last. induction rounds as [|rounds IH]; intros a last Hpos Ha; [lia|]. cbn [Do_loop].
  destruct (ctx a) as [err|] eqn:Hctx.
  { exists O, []. split_and!; [lia|intros; lia|done|]. rewrite Z.add_0_r. by constructor. }
  destruct (fn a) as [err|] eqn:Hfn.
  2:{ exists O, [Call a]. split_and!; [lia|intros; lia|done|]. rewrite Z.add_0_r. by constructor. }
  destruct (_ || _) eqn:Hcan.
  { exists O, [Call a]. split_and!; [lia|intros; lia|done|]. rewrite Z.add_0_r. constructor; auto. }
  case_decide as Hmax.
  { exists O, [Call a]. split_and!; [lia|intros; lia|done|]. rewrite Z.add_0_r. constructor; auto. }
  destruct (wait a) as [e|] eqn:Hw.
  { exists O, [Call a; Wait (Delay p a)]. split_and!; [lia|intros; lia|done|]. rewrite Z.add_0_r.
    apply ends_interrupted with err; auto. lia. }
  destruct (IH (a + 1) (Some err)) as (n & final & Hn & Hre & Htr & Hend); [lia..|].
  destruct (Do_loop rounds (a + 1) (Some err)) as [tr r]. simpl in *.
  exists (S n), final. split_and!; [lia| |by rewrite Htr|].
  - intros i Hi. destruct (decide (i = a)) as [->|]; [|apply Hre; lia].
    apply orb_false_iff in Hcan as []. split_and!; [done..|]. by exists err.
  - replace (a + Z.of_nat (S n)) with (a + 1 + Z.of_nat n) by lia. done.
Qed.
End Do.

(** A retry runs at most [MaxAttempts] attempts: it calls the function and waits
    for the attempt's delay as long as the calls fail for a reason other than a
    cancellation, and the round it stops in has one of four ends: the context was
    done, the call succeeded, it failed for good, or the context ended the wait. *)
Theorem Do_bounded p ctx fn wait :
  exists k final, 1 <= k <= MaxAttempts (Normalize p) /\
    (forall i, 1 <= i < k -> retried ctx fn wait i) /\
    (Do p ctx fn wait).1 = tries p 1 (Z.to_nat (k - 1)) ++ final /\
    ends p ctx fn wait k final (Do p ctx fn wait).2.
Proof.
  assert (1 <= MaxAttempts (Normalize p)) by (unfold Normalize; simpl; case_decide; lia).
  destruct (Do_loop_ends p ctx fn wait (Z.to_nat (MaxAttempts (Normalize p))) 1 None)
    as (n & final & Hn & Hre & Htr & Hend); [lia..|].
  exists (1 + Z.of_nat n), final. split_and!; [lia|lia|auto| |done].
  unfold Do. rewrite Htr. do 2 f_equal. lia.
Qed.

(** The delay before the next attempt doubles from the initial one up to the
    greatest one, exactly, as long as the doubled value is a 64-bit integer.  Beyond
    that it is what the platform converts an oversized float to. *)
Theorem Delay_doubles p attempt :
  1 <= attempt -> InitialDelay p < 2 ^ 53 ->
  let initial := InitialDelay (Normalize p) in
  let most := MaxDelay (Normalize p) in
  Delay p attempt =
  if decide (initial * 2 ^ (attempt - 1) < 2 ^ 63) then Z.min most (initial * 2 ^ (attempt - 1))
  else Z.min most (out_of_range (mul_float64 (float64_of_int initial) (Pow2 (attempt - 1)))).
Proof.
  intros Hat Hini initial most.
  assert (Hi : 0 < initial < 2 ^ 53)
    by (subst initial; unfold Normalize, Millisecond; simpl; case_decide; lia).
  unfold Delay. fold initial most. rewrite (decide_False (P := attempt < 1)) by lia.
  rewrite int64_mul_Pow2 by lia. repeat case_decide; lia.
Qed.
End retry.

(** On amd64 the back-off collapses: with the default delays the thirty-eighth
    and every later wait is negative, so that the remaining attempts follow each
    other without a pause. *)
Theorem Delay_collapses p attempt :
  InitialDelay p <= 0 -> MaxDelay p <= 0 -> 38 <= attempt ->
  Delay (H := amd64) p attempt = min_int64.
Proof.
  intros Hi Hm Hat. rewrite (Delay_doubles (H := amd64)) by lia.
  unfold Normalize. simpl. rewrite (decide_True (P := InitialDelay p <= 0)) by done.
  rewrite (decide_True (P := MaxDelay p <= 0)) by done.
  unfold amd64, out_of_range, Millisecond, Second.
  rewrite decide_False.
  - unfold min_int64. lia.
  - pose proof (Z.pow_le_mono_r 2 37 (attempt - 1)). lia.
Qed.

Lemma Delay_doubles_witness :
  Delay (H := amd64) (mkPolicy 9 0 0) 3 = 400000000 /\
  Delay (H := amd64) (mkPolicy 9 0 0) 20 = 10 * Second.
Proof.
  split.
  - rewrite (Delay_doubles (H := amd64) (mkPolicy 9 0 0) 3) by (simpl; lia).
    vm_compute. reflexivity.
  - rewrite (Delay_doubles (H := amd64) (mkPolicy 9 0 0) 20) by (simpl; lia).
    vm_compute. reflexivity.
Defined.
