(* ===== verification/priority.v ===== *)
(** * Package priority

    The priority queue of [internal/priority/queue.go] over container/heap. *)

From S2P Require Import Prelude.
From S2P Require Import golang.
From S2P Require Import heap.
From S2P Require Import domain.
From S2P Require Import machine.

Open Scope string_scope.
Open Scope list_scope.
Open Scope Z_scope.

Section queue.
(** What a value of type [any] holds when it is not nil. *)
Context {V : Type}.

Record Item := mkItem { ID : string; Priority : Z; Value : option V; index : Z }.

#[export] Instance Item_inhabited : Inhabited Item := populate (mkItem "" 0 None 0).

(** [items.Less] on the elements at its two positions. *)
Definition Less (x y : Item) : bool :=
  if decide (Priority x = Priority y) then string_less (ID x) (ID y)
  else bool_decide (Priority x > Priority y).

Definition set_index (i : Z) (x : Item) : Item := mkItem (ID x) (Priority x) (Value x) i.

(** The heap holds pointers to copies of the items that [Add] was given, which
    nothing else refers to. *)
Record Queue := mkQueue { items : list Item }.

Definition New : Queue := mkQueue [].

Definition Add (v : Item) (q : Queue) : Queue * result unit :=
  if decide (ID v = "" \/ Value v = None) then (q, Err ErrInvalid) else
  (mkQueue (heap_Push Less set_index v (items q)), Ok tt).

Definition Take (q : Queue) : Queue * result Item :=
  if decide (length (items q) = 0%nat) then (q, Err ErrNotFound) else
  let '(l, x) := heap_Pop Less set_index (items q) in
  (mkQueue l, Ok x).

Definition Len (q : Queue) : Z := Z.of_nat (length (items q)).

(** ** Sequences of calls *)

Inductive op := OAdd (v : Item) | OTake.

Definition step (o : op) (q : Queue) : Queue :=
  match o with
  | OAdd v => (Add v q).1
  | OTake => (Take q).1
  end.

(** The items that a sequence of calls adds, and the ones it takes, in order. *)
Definition added (o : op) : list Item :=
  match o with
  | OAdd v => if decide (ID v = "" \/ Value v = None) then [] else [v]
  | OTake => []
  end.

Fixpoint taken (ops : list op) (q : Queue) : list Item :=
  match ops with
  | [] => []
  | o :: ops' =>
      match o, (Take q).2 with
      | OTake, Ok v => [v]
      | _, _ => []
      end ++ taken ops' (step o q)
  end.

(** An item without its index. *)
Definition content (x : Item) : string * Z * option V := (ID x, Priority x, Value x).

Lemma Less_weak_order : weak_order Less.
Proof.
  pose proof (less_then_weak_order (fun x => - Priority x) ID) as H.
  assert (E : forall x y, Less x y = less_then (fun x => - Priority x) ID x y).
  { intros x y. unfold Less, less_then. repeat case_decide; first [done | exfalso; lia | apply bool_decide_ext; lia]. }
  destruct H as [Hi Ha Ht]. split; intros *; rewrite !E; eauto.
Qed.

Lemma Less_total x y :
  Less x y = false -> Less y x = false -> Priority x = Priority y /\ ID x = ID y.
Proof.
  unfold Less. repeat case_decide; rewrite ?bool_decide_eq_false; try lia.
  intros H1 H2. split; [done|]. by apply string_less_total.
Qed.

Definition queue_ok (q : Queue) : Prop :=
  heap_ok Less (length (items q)) (items q) /\ indexed index (items q).

Lemma Add_ok v q :
  queue_ok q ->
  queue_ok (step (OAdd v) q) /\
  map content (items (step (OAdd v) q)) ≡ₚ map content (added (OAdd v)) ++ map content (items q).
Proof.
  intros [Hh Hi]. unfold step, Add, added. case_decide; [done|]. simpl.
  destruct (heap_Push_ok Less set_index index content Less_weak_order) with v (items q)
    as (Hh' & Hi' & Hp); done.
Qed.

Lemma Take_ok q :
  queue_ok q ->
  queue_ok (step OTake q) /\
  match (Take q).2 with
  | Err e => e = ErrNotFound /\ items q = [] /\ step OTake q = q
  | Ok x => map content (items q) ≡ₚ content x :: map content (items (step OTake q)) /\
      forall y, y ∈ items q -> Less y x = false
  end.
Proof.
  intros [Hh Hi]. unfold step, Take. case_decide as Hn.
  - split; [done|]. simpl. split_and!; [done|by apply nil_length_inv|done].
  - destruct (heap_Pop Less set_index (items q)) as [l x] eqn:E.
    destruct (heap_Pop_ok Less set_index index content Less_weak_order) with (items q) l x
      as (Hh' & Hi' & Hp & _ & Hmin); try done. intros Hnil. by rewrite Hnil in Hn.
Qed.
Lemma priority_New_ok : queue_ok New.
Proof. split; [intros j Hj|intros k Hk]; simpl in *; lia. Qed.

Lemma step_queue_ok o q : queue_ok q -> queue_ok (step o q).
Proof. intros Hq. destruct o; [by apply Add_ok|by apply Take_ok]. Qed.

Lemma taken_conserves ops q :
  queue_ok q ->
  map content (flat_map added ops) ++ map content (items q) ≡ₚ
  map content (taken ops q) ++ map content (items (after step ops q)).
Proof.
  revert q. induction ops as [|o ops IH]; intros q Hq; simpl; [done|].
  rewrite !map_app, <- !app_assoc, <- IH by (by apply step_queue_ok). destruct o as [v|].
  - destruct (Add_ok v q Hq) as [_ ->]. simpl. solve_Permutation.
  - destruct (Take_ok q Hq) as [_ Ht]. simpl in *. destruct (Take q).2 as [x|e]; simpl.
    + destruct Ht as [-> _]. solve_Permutation.
    + by destruct Ht as (_ & _ & ->).
Qed.

Lemma Less_content x y x' y' : content x = content x' -> content y = content y' -> Less x y = Less x' y'.
Proof. unfold content, Less. intros [= Hi Hp _] [= Hi' Hp' _]. by rewrite Hi, Hp, Hi', Hp'. Qed.

Lemma drain_sorted n q :
  queue_ok q -> length (items q) = n ->
  sorted_by Less (taken (repeat OTake n) q) /\
  map content (taken (repeat OTake n) q) ≡ₚ map content (items q).
Proof.
  revert q. induction n as [|n IH]; intros q Hq Hn; simpl.
  { apply nil_length_inv in Hn. rewrite Hn. split; [constructor|done]. }
  destruct (Take_ok q Hq) as [Hq' Ht]. destruct (Take q).2 as [x|e]; simpl in *.
  - destruct Ht as [Hp Hmin]. destruct (IH (Take q).1 Hq') as [Hs Hc].
    { apply Permutation_length in Hp. simpl in Hp. rewrite !length_map in Hp. simpl. lia. }
    split; [|by rewrite Hp, Hc]. constructor; [done|]. apply Forall_forall. intros y Hy.
    assert (Hcy : content y ∈ map content (items q)).
    { rewrite Hp, <- Hc. apply elem_of_cons. right. by apply list_elem_of_fmap_2. }
    apply list_elem_of_fmap in Hcy as (y' & Hy' & Hin).
    rewrite (Less_content y x y' x) by done. by apply Hmin.
  - destruct Ht as (_ & Hnil & _). by rewrite Hnil in Hn.
Qed.

(** Whatever is added and taken, every item that was added has been taken once
    or waits, and [Take] gives one of the items that wait with no other before it,
    by priority and then by identifier; it fails only when none waits. *)
Theorem queue_serves_first ops :
  let q := after step ops New in
  map content (flat_map added ops) ≡ₚ map content (taken ops New) ++ map content (items q) /\
  match (Take q).2 with
  | Err e => e = ErrNotFound /\ items q = []
  | Ok x => content x ∈ map content (items q) /\ forall y, y ∈ items q -> Less y x = false
  end.
Proof.
  intros q. assert (Hq : queue_ok q) by (apply after_stable; [apply step_queue_ok|apply priority_New_ok]).
  split.
  - pose proof (taken_conserves ops New priority_New_ok) as Hp. simpl in Hp. by rewrite app_nil_r in Hp.
  - destruct (Take_ok q Hq) as [_ Ht]. destruct (Take q).2 as [x|e]; [|by destruct Ht as (? & ? & _)].
    destruct Ht as [Hp Hmin]. split; [|done]. rewrite Hp. apply elem_of_cons. by left.
Qed.

(** The queue sorts: adding items and taking as many gives all of them, each
    with its value, by falling priority and then by identifier. *)
Theorem queue_sorts (vs : list Item) :
  Forall (fun v => ID v <> "" /\ Value v <> None) vs ->
  let out := taken (repeat OTake (length vs)) (after step (map OAdd vs) New) in
  map content out ≡ₚ map content vs /\
  StronglySorted (fun x y => Priority x > Priority y \/
    Priority x = Priority y /\ string_less (ID y) (ID x) = false) out.
Proof.
  intros Hvs out. set (q := after step (map OAdd vs) New) in *.
  assert (Hq : queue_ok q) by (apply after_stable; [apply step_queue_ok|apply priority_New_ok]).
  assert (Hc : map content (items q) ≡ₚ map content vs).
  { pose proof (taken_conserves (map OAdd vs) New priority_New_ok) as Hp. fold q in Hp. simpl in Hp.
    rewrite app_nil_r in Hp.
    replace (taken (map OAdd vs) New) with (@nil Item) in Hp
      by (generalize New; clear; induction vs; intros; simpl; auto).
    rewrite <- Hp. clear -Hvs. induction Hvs as [|v vs [Hv1 Hv2] _ IH]; simpl; [done|].
    rewrite decide_False by tauto. simpl. by rewrite IH. }
  destruct (drain_sorted (length vs) q Hq) as [Hs Hp].
  { apply Permutation_length in Hc. by rewrite !length_map in Hc. }
  fold out in Hs, Hp. split; [by rewrite Hp|]. revert Hs. apply StronglySorted_weaken.
  intros x y. unfold Less. case_decide as He; [auto|]. rewrite bool_decide_eq_false. lia.
Qed.
End queue.

Lemma queue_sorts_witness :
  let vs := [mkItem "b" 1 (Some 10) 0; mkItem "a" 1 (Some 20) 0; mkItem "c" 5 (Some 30) 0] in
  Forall (fun v => ID v <> "" /\ Value v <> None) vs /\
  map ID (taken (repeat OTake (length vs)) (after step (map OAdd vs) New)) = ["c"; "a"; "b"] /\
  map content (taken (repeat OTake (length vs)) (after step (map OAdd vs) New)) ≡ₚ map content vs.
Proof.
  intros vs.
  assert (Hvs : Forall (fun v => ID v <> "" /\ Value v <> None) vs) by (repeat constructor; done).
  split; [exact Hvs|]. split; [vm_compute; reflexivity|]. by apply (queue_sorts vs).
Defined.
