(* ===== verification/route.v ===== *)
(** * Package route

    Route planning over hubs and flight segments ([internal/route/planner.go]). *)

From S2P Require Import Prelude.
From S2P Require Import golang.
From S2P Require Import floats.
From S2P Require Import domain.
From S2P Require Import machine.

Open Scope string_scope.
Open Scope list_scope.
Open Scope Z_scope.

Record Hub := mkHub {
  hb_Code : string; hb_Timezone : string; hb_OpenAt : Duration; hb_CloseAt : Duration;
  hb_HandlingMinutes : Z }.

Record Segment := mkSegment {
  sg_From : string; sg_To : string; sg_Depart : Time; sg_Arrive : Time; sg_Flight : string;
  sg_AvailableKg : Z }.

Record Plan_ := mkPlan {
  pl_ShipmentID : string; pl_Segments : list Segment; pl_TotalMinutes : Z; pl_TotalStops : Z }.

Record Planner := mkPlanner { hubs : gmap string Hub; segments : list Segment }.

Definition NewPlanner : Planner := mkPlanner ∅ [].

Definition AddHub (h : Hub) (p : Planner) : Planner * result unit :=
  if decide (hb_Code h = "" \/ hb_HandlingMinutes h < 0 \/ hb_CloseAt h <= hb_OpenAt h)
  then (p, Err ErrInvalid) else
  match hubs p !! hb_Code h with
  | Some _ => (p, Err ErrConflict)
  | None => (mkPlanner (<[hb_Code h := h]> (hubs p)) (segments p), Ok tt)
  end.

Definition AddSegment (s : Segment) (p : Planner) : Planner * result unit :=
  if decide (sg_From s = "" \/ sg_To s = "" \/ sg_From s = sg_To s \/
             ~ sg_Arrive s > sg_Depart s \/ sg_AvailableKg s < 0)
  then (p, Err ErrInvalid) else
  match hubs p !! sg_From s with
  | None => (p, Err ErrNotFound)
  | Some _ =>
      match hubs p !! sg_To s with
      | None => (p, Err ErrNotFound)
      | Some _ => (mkPlanner (hubs p) (segments p ++ [s]), Ok tt)
      end
  end.

(** The wait a hub asks for between two flights; a hub that is not known asks for
    none, as the zero value of the map. *)
Definition handling (p : Planner) (code : string) : Duration :=
  mul64 (default 0 (hb_HandlingMinutes <$> hubs p !! code)) Minute.

(** The condition of the outer loop's list. *)
Definition starts (from : string) (weight : Z) (earliest : Time) (s : Segment) : Prop :=
  sg_From s = from /\ sg_AvailableKg s >= weight /\ ~ sg_Depart s < earliest.

(** The condition of the inner loop. *)
Definition connects (p : Planner) (to : string) (weight : Z) (first second : Segment) : Prop :=
  sg_From second = sg_To first /\ sg_To second = to /\
  sg_Depart second > time_Add (sg_Arrive first) (handling p (sg_To first)) /\
  sg_AvailableKg second >= weight.

#[export] Instance starts_dec from weight earliest s : Decision (starts from weight earliest s).
Proof. unfold starts. apply _. Defined.

#[export] Instance connects_dec p to weight first second :
  Decision (connects p to weight first second).
Proof. unfold connects. apply _. Defined.

(** [int(d.Minutes())] *)
Definition whole_minutes `{Platform} (d : Duration) : Z := int64_of_float64 (Minutes d).

Definition no_route : error := ErrText "no feasible route".

Section plan.
Context `{Platform} `{SortSlice}.
(** [ctx i]: the context's error at its [i]-th check. *)
Context (ctx : nat -> Context) (p : Planner) (shipment to : string) (weight : Z).

(** The inner loop over [p.segments]: the plan, the error, or the number of checks
    made. *)
Fixpoint second_loop (i : nat) (first : Segment) (ss : list Segment)
    : nat + result Plan_ :=
  match ss with
  | [] => inl i
  | second :: ss' =>
      match ctx i with
      | Some err => inr (Err err)
      | None =>
          if decide (connects p to weight first second) then
            inr (Ok (mkPlan shipment [first; second]
                       (whole_minutes (time_Sub (sg_Arrive second) (sg_Depart first))) 1))
          else second_loop (S i) first ss'
      end
  end.

(** The outer loop over the sorted list. *)
Fixpoint first_loop (i : nat) (queue : list Segment) : result Plan_ :=
  match queue with
  | [] => Err no_route
  | first :: queue' =>
      if decide (sg_To first = to) then
        Ok (mkPlan shipment [first]
              (whole_minutes (time_Sub (sg_Arrive first) (sg_Depart first))) 0)
      else
        match second_loop i first (segments p) with
        | inl i' => first_loop i' queue'
        | inr r => r
        end
  end.

Definition Plan (from : string) (earliest : Time) : result Plan_ :=
  if decide (weight <= 0) then Err ErrInvalid else
  let queue := filter (starts from weight earliest) (segments p) in
  let queue := sort_Slice (less_on sg_Arrive) queue in
  if decide (length queue = 0%nat) then Err ErrNotFound else
  first_loop 0 queue.
End plan.

(** ** Sequences of calls *)

Inductive op := OAddHub (h : Hub) | OAddSegment (s : Segment).

Definition step (o : op) (p : Planner) : Planner :=
  match o with
  | OAddHub h => (AddHub h p).1
  | OAddSegment s => (AddSegment s p).1
  end.

(** Hubs are filed under their codes, and segments are flights between two hubs. *)
Record planner_ok (p : Planner) : Prop := {
  ok_hubs : map_Forall (fun k h => hb_Code h = k /\ 0 <= hb_HandlingMinutes h) (hubs p);
  ok_segments : Forall (fun s => sg_From s <> sg_To s /\ sg_Depart s < sg_Arrive s /\
    0 <= sg_AvailableKg s /\ is_Some (hubs p !! sg_From s) /\ is_Some (hubs p !! sg_To s))
    (segments p) }.

Lemma step_planner o p : planner_ok p -> planner_ok (step o p).
Proof.
  intros [Hh Hs]. destruct o as [h|s]; simpl.
  - unfold AddHub. case_decide as Hg; [done|]. destruct (hubs p !! hb_Code h) eqn:E; [done|].
    split; simpl.
    + apply map_Forall_insert_2; [split; [done|lia]|done].
    + eapply Forall_impl; [exact Hs|]. intros s (? & ? & ? & Hf & Ht).
      split_and!; [done..| |]; rewrite lookup_insert; case_decide; auto.
  - unfold AddSegment. case_decide as Hg; [done|].
    destruct (hubs p !! sg_From s) eqn:E1; [|done]. destruct (hubs p !! sg_To s) eqn:E2; [|done].
    split; simpl; [done|]. apply Forall_app. split; [done|]. constructor; [|done].
    rewrite E1, E2. split_and!; eauto; try lia. naive_solver.
Qed.

Lemma reachable_planner ops : planner_ok (after step ops NewPlanner).
Proof. apply after_stable; [apply step_planner|]. split; [apply map_Forall_empty|constructor]. Qed.

(** ** What the planner finds *)

Section find.
Context `{Platform} `{SortSlice}.
Context (p : Planner) (shipment to : string) (weight : Z).

(** The journeys that begin with a segment: it alone, or with a connection. *)
Definition journey (first : Segment) (js : list Segment) : Prop :=
  (sg_To first = to /\ js = [first]) \/
  (sg_To first <> to /\ exists second, second ∈ segments p /\
     connects p to weight first second /\ js = [first; second]).

Abbreviation live := (fun _ : nat => @None error).

Lemma second_loop_live i first ss :
  match second_loop live p shipment to weight i first ss with
  | inl _ => forall second, second ∈ ss -> ~ connects p to weight first second
  | inr (Ok pl) => pl_ShipmentID pl = shipment /\ pl_TotalStops pl = 1 /\
      exists second, second ∈ ss /\ connects p to weight first second /\
        pl_Segments pl = [first; second]
  | inr (Err _) => False
  end.
Proof.
  revert i. induction ss as [|second ss IH]; intros i; simpl; [by intros ? ?%elem_of_nil|].
  case_decide as Hc; [split_and!; eauto; exists second; split_and!; auto; constructor|].
  specialize (IH (S i)). destruct (second_loop _ _ _ _ _ _ _ _) as [i'|[pl|e]]; [|naive_solver set_solver|done].
  intros s [->|Hs]%elem_of_cons; auto.
Qed.

Lemma first_loop_live i queue :
  match first_loop live p shipment to weight i queue with
  | Ok pl => pl_ShipmentID pl = shipment /\
      pl_TotalStops pl = Z.of_nat (length (pl_Segments pl)) - 1 /\
      exists before first after_, queue = before ++ first :: after_ /\
        journey first (pl_Segments pl) /\
        forall s js, s ∈ before -> ~ journey s js
  | Err e => e = no_route /\ forall s js, s ∈ queue -> ~ journey s js
  end.
Proof.
  revert i. induction queue as [|first queue IH]; intros i; simpl.
  { split; [done|]. by intros ? ? ?%elem_of_nil. }
  case_decide as Hto.
  { simpl. split_and!; [done..|]. exists [], first, queue. split_and!; [done|by left|].
    by intros ? ? ?%elem_of_nil. }
  pose proof (second_loop_live i first (segments p)) as H2.
  destruct (second_loop _ _ _ _ _ _ _ _) as [i'|[pl|e]]; [| |done].
  - assert (Hno : forall js, ~ journey first js) by (intros js [[? _]|(_ & s & ? & ? & _)]; naive_solver).
    specialize (IH i'). destruct (first_loop _ _ _ _ _ _ _) as [pl|e].
    + destruct IH as (? & ? & before & f & rest & -> & Hj & Hb). split_and!; [done..|].
      exists (first :: before), f, rest. split_and!; [done..|].
      intros s js [->|Hs]%elem_of_cons; auto.
    + destruct IH as [? IH]. split; [done|]. intros s js [->|Hs]%elem_of_cons; auto.
  - destruct H2 as (? & -> & s & Hs & Hc & Hpl). rewrite Hpl. split_and!; [done..|].
    exists [], first, queue. split_and!; [done| |by intros ? ? ?%elem_of_nil].
    right. eauto.
Qed.
End find.

(** C29. With a live context the planner finds a journey of one or two flights
    exactly when there is one: it starts at the origin no earlier than asked, every
    flight has room for the weight, a connection leaves the hub its handling time,
    and no first flight that arrives before the chosen one leads to the
    destination.  It says that there is none, or that no flight leaves the origin,
    only when that is so. *)
Theorem Plan_finds `{Platform} `{SortSlice} p shipment from to weight earliest :
  match Plan (fun _ => None) p shipment to weight from earliest with
  | Ok pl =>
      0 < weight /\ pl_ShipmentID pl = shipment /\
      pl_TotalStops pl = Z.of_nat (length (pl_Segments pl)) - 1 /\
      exists first, first ∈ segments p /\ starts from weight earliest first /\
        journey p to weight first (pl_Segments pl) /\
        forall s js, s ∈ segments p -> starts from weight earliest s ->
          sg_Arrive s < sg_Arrive first -> ~ journey p to weight s js
  | Err e =>
      (e = ErrInvalid /\ weight <= 0) \/
      (e = ErrNotFound /\ forall s, s ∈ segments p -> ~ starts from weight earliest s) \/
      (e = no_route /\ forall s js, s ∈ segments p -> starts from weight earliest s ->
         ~ journey p to weight s js)
  end.
Proof.
  unfold Plan. case_decide as Hw; [auto|].
  set (queue := sort_Slice _ _).
  assert (Hq : forall s, s ∈ queue <-> s ∈ segments p /\ starts from weight earliest s).
  { intros s. unfold queue. rewrite sort_Slice_perm, list_elem_of_filter. tauto. }
  case_decide as Hlen.
  { right; left. split; [done|]. intros s Hs Hst.
    assert (Hin : s ∈ queue) by (by apply Hq). apply nil_length_inv in Hlen.
    rewrite Hlen in Hin. by apply elem_of_nil in Hin. }
  pose proof (first_loop_live p shipment to weight 0 queue) as Hf.
  destruct (first_loop _ _ _ _ _ _ _) as [pl|e].
  - destruct Hf as (Hid & Hstops & before & first & rest & Hsplit & Hj & Hb).
    split_and!; [lia|done|done|]. exists first.
    assert (Hin : first ∈ queue) by (rewrite Hsplit; set_solver).
    apply Hq in Hin as [Hin Hst]. split_and!; [done..|].
    intros s js Hs Hss Harr. assert (Hsq : s ∈ queue) by (by apply Hq).
    rewrite Hsplit in Hsq. apply elem_of_app in Hsq as [Hsb|[->|Hsr]%elem_of_cons]; [by apply Hb|lia|].
    assert (Hsorted : sorted_by (less_on sg_Arrive) queue) by (apply sort_Slice_sorted; auto with go).
    rewrite Hsplit in Hsorted. change (first :: rest) with ([first] ++ rest) in Hsorted.
    rewrite app_assoc in Hsorted.
    pose proof (sorted_by_app _ _ _ first s Hsorted) as Hle. unfold less_on in Hle.
    rewrite bool_decide_eq_false in Hle. exfalso. apply Hle; [set_solver|done|done].
  - destruct Hf as [-> Hno]. right; right. split; [done|]. intros s js Hs Hst. apply Hno.
    by apply Hq.
Qed.

(** The flights of a plan follow each other: whatever was added to the planner,
    a plan departs no earlier than asked, each of its flights arrives after it
    departs, and a connecting flight departs after the first has arrived and the
    hub has handled the cargo, for handling times that are durations. *)
Theorem Plan_travels `{Platform} `{SortSlice} ops ctx shipment from to weight earliest pl :
  let p := after step ops NewPlanner in
  (forall k h, hubs p !! k = Some h -> in_int64 (hb_HandlingMinutes h * Minute)) ->
  Plan ctx p shipment to weight from earliest = Ok pl ->
  match pl_Segments pl with
  | [a] => sg_From a = from /\ sg_To a = to /\ earliest <= sg_Depart a < sg_Arrive a
  | [a; b] => sg_From a = from /\ sg_To a = sg_From b /\ sg_To b = to /\
      earliest <= sg_Depart a < sg_Arrive a /\ sg_Arrive a < sg_Depart b < sg_Arrive b
  | _ => False
  end.
Proof.
  intros p Hh. unfold Plan. case_decide as Hw; [done|].
  set (queue := sort_Slice _ _). case_decide as Hlen; [done|].
  assert (Hq : forall s, s ∈ queue -> s ∈ segments p /\ starts from weight earliest s).
  { intros s. unfold queue. rewrite sort_Slice_perm, list_elem_of_filter. tauto. }
  clearbody queue. clear Hlen. destruct (reachable_planner ops) as [Hhubs Hsegs]. fold p in Hhubs, Hsegs.
  rewrite Forall_forall in Hsegs.
  generalize 0%nat as i. induction queue as [|a queue IH]; intros i; simpl; [done|].
  destruct (Hq a) as [Ha (Hfrom & _ & Hdep)]; [set_solver|].
  destruct (Hsegs a Ha) as (_ & Hta & _). case_decide as Hto.
  { intros [= <-]. simpl. split_and!; auto; lia. }
  assert (H2 : forall ss j r, ss ⊆ segments p ->
    second_loop ctx p shipment to weight j a ss = inr (Ok r) ->
    exists b, b ∈ segments p /\ connects p to weight a b /\ pl_Segments r = [a; b]).
  { clear -p. induction ss as [|b ss IH]; intros j r Hss; simpl; [done|].
    destruct (ctx j); [done|]. case_decide; [|apply IH; set_solver].
    intros [= <-]. exists b. split_and!; [set_solver|done..]. }
  specialize (H2 (segments p) i). destruct (second_loop _ _ _ _ _ _ _ _) as [i'|r].
  { apply IH. intros; apply Hq; set_solver. }
  intros ->. destruct (H2 pl) as (b & Hb & (Hf & Ht & Hconn & _) & ->); [done..|].
  destruct (Hsegs b Hb) as (_ & Htb & _ & Hhub & _). rewrite Hf in Hhub.
  destruct Hhub as [h Hhub]. unfold time_Add, handling in Hconn. rewrite Hhub in Hconn.
  destruct (Hhubs _ _ Hhub) as [_ Hmin]. simpl in Hconn.
  rewrite mul64_exact in Hconn by (by eapply Hh).
  assert (0 <= hb_HandlingMinutes h * Minute) by (unfold Minute, Second; lia).
  split_and!; auto; lia.
Qed.

Definition sample_hub (code : string) : Hub := mkHub code "UTC" 0 (24 * Hour) 60.
Definition sample_ops : list op :=
  [OAddHub (sample_hub "PEK"); OAddHub (sample_hub "DXB"); OAddHub (sample_hub "LHR");
   OAddSegment (mkSegment "PEK" "DXB" (1 * Hour) (5 * Hour) "AB1" 100);
   OAddSegment (mkSegment "DXB" "LHR" (6 * Hour) (9 * Hour) "AB2" 100);
   OAddSegment (mkSegment "DXB" "LHR" (7 * Hour) (11 * Hour) "AB3" 100)].

Lemma Plan_travels_witness :
  let p := after step sample_ops NewPlanner in
  match Plan (H := amd64) (H0 := stable_sort) (fun _ => None) p "S1" "LHR" 80 "PEK" 0 with
  | Ok pl => pl_TotalMinutes pl = 600 /\
      match pl_Segments pl with
      | [a; b] => sg_Flight b = "AB3" /\ sg_Arrive a < sg_Depart b
      | _ => False
      end
  | Err _ => False
  end.
Proof.
  intros p.
  destruct (Plan (H := amd64) (H0 := stable_sort) (fun _ => None) p "S1" "LHR" 80 "PEK" 0)
    as [pl|e] eqn:E; [|vm_compute in E; discriminate E].
  pose proof (Plan_travels (H := amd64) (H0 := stable_sort) sample_ops (fun _ => None) "S1" "PEK" "LHR"
    80 0 pl) as Ht. cbv zeta in Ht.
  assert (Hlong : forall k h, hubs (after step sample_ops NewPlanner) !! k = Some h ->
    in_int64 (hb_HandlingMinutes h * Minute)).
  { apply (bool_decide_eq_true_1 (map_Forall (fun _ h => in_int64 (hb_HandlingMinutes h * Minute))
      (hubs (after step sample_ops NewPlanner)))). vm_compute. reflexivity. }
  specialize (Ht Hlong E). vm_compute in E. injection E as <-.
  clear Hlong. cbn [pl_Segments pl_TotalMinutes] in *.
  split; [reflexivity|]. split; [reflexivity|]. apply Ht.
Defined.
