(* ===== verification/reconciliation.v ===== *)
(** * Package reconciliation

    Comparison of local and remote entries ([internal/reconciliation/reconcile.go]). *)

From S2P Require Import Prelude.
From S2P Require Import golang.
From S2P Require Import domain.

Open Scope string_scope.
Open Scope list_scope.
Open Scope Z_scope.

Record Entry := mkEntry {
  en_ID : string; en_ExternalID : string; en_Kind : string; en_Amount : Z; en_OccurredAt : Time }.

Record Difference := mkDifference {
  df_ExternalID : string; df_Reason : string; df_Local : option Entry; df_Remote : option Entry }.

(** The map that a loop over entries fills. *)
Definition by_external (es : list Entry) : gmap string Entry :=
  foldl (fun m v => <[en_ExternalID v := v]> m) ∅ es.

(** The body of the last loop: what it appends for a key. *)
Definition difference (lm rm : gmap string Entry) (k : string) : option Difference :=
  match lm !! k, rm !! k with
  | None, r => Some (mkDifference k "missing_local" None r)
  | Some l, None => Some (mkDifference k "missing_remote" (Some l) None)
  | Some l, Some r =>
      if decide (en_Kind l <> en_Kind r \/ en_Amount l <> en_Amount r \/
                 en_OccurredAt l <> en_OccurredAt r)
      then Some (mkDifference k "different_values" (Some l) (Some r)) else None
  end.

(** [lorder] and [rorder]: the orders in which the two maps are ranged over. *)
Definition Compare `{SortSlice} (lorder rorder : list string) (local remote : list Entry)
    : list Difference :=
  let lm := by_external local in
  let rm := by_external remote in
  let keys := lorder ++ filter (fun k => lm !! k = None) rorder in
  let keys := sort_Slice string_less keys in
  omap (difference lm rm) keys.

Definition Validate (e : Entry) : option error :=
  if decide (en_ExternalID e = "" \/ en_Kind e = "" \/ IsZero (en_OccurredAt e))
  then Some ErrInvalid else None.

(** ** Specification *)

(** The entry that counts for an identifier: the last of its list. *)
Definition last_entry (k : string) (es : list Entry) : option Entry :=
  last (filter (fun e => en_ExternalID e = k) es).

(** Two entries that agree. *)
Definition same_values (l r : Entry) : Prop :=
  en_Kind l = en_Kind r /\ en_Amount l = en_Amount r /\ en_OccurredAt l = en_OccurredAt r.

(** What is to be reported of an identifier. *)
Inductive reported (k : string) (local remote : list Entry) : Difference -> Prop :=
  | missing_local r :
      last_entry k local = None -> last_entry k remote = Some r ->
      reported k local remote (mkDifference k "missing_local" None (Some r))
  | missing_remote l :
      last_entry k local = Some l -> last_entry k remote = None ->
      reported k local remote (mkDifference k "missing_remote" (Some l) None)
  | different_values l r :
      last_entry k local = Some l -> last_entry k remote = Some r -> ~ same_values l r ->
      reported k local remote (mkDifference k "different_values" (Some l) (Some r)).

Lemma by_external_lookup es k : by_external es !! k = last_entry k es.
Proof.
  unfold by_external, last_entry. induction es as [|e es IH] using rev_ind; [done|].
  rewrite foldl_app, filter_app. simpl. rewrite lookup_insert, IH, filter_cons, filter_nil.
  repeat case_decide; try done.
  - by rewrite last_snoc.
  - by rewrite app_nil_r.
Qed.

Lemma difference_reported local remote k d :
  is_Some (by_external local !! k) \/ is_Some (by_external remote !! k) ->
  difference (by_external local) (by_external remote) k = Some d <-> reported k local remote d.
Proof.
  unfold difference. rewrite !by_external_lookup. intros Hk. split.
  - destruct (last_entry k local) eqn:El, (last_entry k remote) eqn:Er.
    + case_decide as Hd; [|done]. intros [= <-]. constructor; [done..|].
      unfold same_values. tauto.
    + intros [= <-]. by constructor.
    + intros [= <-]. by constructor.
    + by destruct Hk as [[]|[]].
  - destruct 1 as [r Hl Hr|l Hl Hr|l r Hl Hr Hd]; rewrite Hl, Hr; [done..|].
    rewrite decide_True; [done|]. unfold same_values in Hd.
    destruct (decide (en_Kind l = en_Kind r)); [|tauto].
    destruct (decide (en_Amount l = en_Amount r)); tauto.
Qed.

(** The keys of both maps, each once. *)
Lemma compared_keys local remote lorder rorder :
  range_order (by_external local) lorder -> range_order (by_external remote) rorder ->
  let keys := lorder ++ filter (fun k => by_external local !! k = None) rorder in
  NoDup keys /\ forall k, k ∈ keys <->
    is_Some (by_external local !! k) \/ is_Some (by_external remote !! k).
Proof.
  intros [Hnl Hl] [Hnr Hr] keys. split.
  - apply NoDup_app. split_and!; [done| |by apply NoDup_filter].
    intros k Hk%Hl Hk'. apply list_elem_of_filter in Hk' as [Hk' _]. rewrite Hk' in Hk. by destruct Hk.
  - intros k. subst keys. rewrite elem_of_app, list_elem_of_filter, Hl, Hr.
    destruct (by_external local !! k); naive_solver.
Qed.

Lemma difference_key lm rm k d : difference lm rm k = Some d -> df_ExternalID d = k.
Proof. unfold difference. split_cases; naive_solver. Qed.

(** A sorted list of keys stays sorted, by the keys of the differences, where some
    are passed over. *)
Lemma omap_sorted lm rm keys :
  NoDup keys -> sorted_by string_less keys ->
  StronglySorted (fun d d' => string_less (df_ExternalID d) (df_ExternalID d') = true)
    (omap (difference lm rm) keys).
Proof.
  intros Hnd Hs. induction Hs as [|k keys Hs IH Hk]; simpl; [constructor|].
  apply NoDup_cons in Hnd as [Hni Hnd]. destruct (difference lm rm k) as [d|] eqn:Hd; [|auto].
  constructor; [auto|]. apply Forall_forall. intros d' (k' & Hk' & Hd')%list_elem_of_omap.
  rewrite (difference_key _ _ _ _ Hd), (difference_key _ _ _ _ Hd').
  rewrite Forall_forall in Hk. specialize (Hk k' Hk').
  destruct (string_less k k') eqn:E; [done|]. by rewrite (string_less_total _ _ E Hk) in Hni.
Qed.

(** C32. A comparison reports exactly the identifiers on which the last entries of
    the two sides differ, with the reason and the entries, each once and in order
    of identifiers, in whatever order the maps are ranged over. *)
Theorem Compare_reports `{SortSlice} lorder rorder local remote :
  range_order (by_external local) lorder -> range_order (by_external remote) rorder ->
  let out := Compare lorder rorder local remote in
  (forall d, d ∈ out <-> reported (df_ExternalID d) local remote d) /\
  StronglySorted (fun d d' => string_less (df_ExternalID d) (df_ExternalID d') = true) out.
Proof.
  intros Hl Hr out. destruct (compared_keys _ _ _ _ Hl Hr) as [Hnd Hkeys].
  unfold out, Compare. set (keys := sort_Slice _ _).
  assert (Hp : keys ≡ₚ lorder ++ filter (fun k => by_external local !! k = None) rorder)
    by apply sort_Slice_perm.
  split.
  - intros d. rewrite list_elem_of_omap. split.
    + intros (k & Hk & Hd). rewrite Hp, Hkeys in Hk.
      rewrite (difference_key _ _ _ _ Hd). by apply difference_reported.
    + intros Hd. exists (df_ExternalID d).
      assert (Hin : is_Some (by_external local !! df_ExternalID d) \/
                    is_Some (by_external remote !! df_ExternalID d)).
      { rewrite !by_external_lookup. inversion Hd as [r Hn Hs|l Hs Hn|l r Hs Hn]; rewrite Hs; eauto. }
      split; [by rewrite Hp, Hkeys|]. by apply difference_reported.
  - apply omap_sorted; [by rewrite Hp|]. apply sort_Slice_sorted. auto with go.
Qed.

Definition sample_entry (id : string) (amount : Z) : Entry := mkEntry id id "fee" amount 5.

Lemma Compare_reports_witness :
  let local := [sample_entry "a" 1; sample_entry "b" 2; sample_entry "b" 3] in
  let remote := [sample_entry "c" 4; sample_entry "b" 3; sample_entry "a" 9] in
  map df_Reason (Compare (H := stable_sort) ["b"; "a"] ["a"; "c"; "b"] local remote) =
    ["different_values"; "missing_local"] /\
  StronglySorted (fun d d' => string_less (df_ExternalID d) (df_ExternalID d') = true)
    (Compare (H := stable_sort) ["b"; "a"] ["a"; "c"; "b"] local remote).
Proof.
  intros local remote. split; [vm_compute; reflexivity|].
  apply (Compare_reports (H := stable_sort)).
  - split; [repeat constructor; set_solver|]. intros k. unfold local. simpl.
    rewrite by_external_lookup. unfold last_entry. simpl. rewrite !filter_cons, filter_nil. simpl.
    rewrite !elem_of_cons, elem_of_nil. repeat case_decide; naive_solver.
  - split; [repeat constructor; set_solver|]. intros k. unfold remote.
    rewrite by_external_lookup. unfold last_entry. rewrite !filter_cons, filter_nil. simpl.
    rewrite !elem_of_cons, elem_of_nil. repeat case_decide; naive_solver.
Defined.
