(* ===== verification/bulk.v ===== *)
(** * Package bulk

    Processing of a batch by a pool of workers ([internal/bulk/bulk.go]).

    [Run] starts its workers, offers them the indices of the batch one at a time over
    an unbuffered channel, closes it, waits and reads the results.  [step] gives the
    steps of the main goroutine and of the workers, in any interleaving; each takes
    its mutex for one access, so an access is a step. *)

From S2P Require Import Prelude.
From S2P Require Import golang.
From S2P Require Import domain.
From S2P Require Import machine.

Open Scope list_scope.
Open Scope nat_scope.

Section bulk.
Context {T : Type} (zero : T).

Record Result := mkResult { Index : nat; Value : T; Err_ : option error }.

(** [Handle] is the error of the handler for the value at an index, if there is a
    handler. *)
Record Processor := mkProcessor {
  StopOnError : bool; Workers : Z; Handle : option (nat -> T -> option error) }.

(** Where a worker is in its loop: at the receive, after it, between its look at
    [cancelled] and its result, after its result, and past the loop. *)
Inductive worker :=
  | Idle
  | Got (idx : nat)
  | Halting (idx : nat)
  | Handling (idx : nat)
  | Sent (err : option error)
  | Exited.

#[export] Instance worker_eq_dec : EqDecision worker.
Proof. solve_decision. Defined.

Record pool := mkPool {
  next : nat;                  (* the index the main goroutine offers *)
  dropped : list nat;          (* the indices it passed over *)
  workers : list worker;
  cancelled : bool;
  results : list Result;       (* the buffered channel *)
  ctx_done : bool }.

Definition start (p : Processor) : pool :=
  let n := if decide (Workers p < 1)%Z then 1 else Z.to_nat (Workers p) in
  mkPool 0 [] (replicate n Idle) false [] false.

Section run.
Context (stop_on_error : bool) (handle : nat -> T -> option error) (values : list T).

Definition fails (err : option error) : bool := match err with Some _ => true | None => false end.

Inductive step : pool -> pool -> Prop :=
  (* the context is cancelled from outside *)
  | step_ctx i d ws c rs :
      step (mkPool i d ws c rs false) (mkPool i d ws c rs true)
  (* [case <-ctx.Done()]: the index is not offered again *)
  | step_drop i d ws c rs :
      i < length values ->
      step (mkPool i d ws c rs true) (mkPool (S i) (d ++ [i]) ws true rs true)
  (* [case jobs <- i], received by worker [w] *)
  | step_send i d ws c rs x w :
      i < length values -> ws !! w = Some Idle ->
      step (mkPool i d ws c rs x) (mkPool (S i) d (<[w := Got i]> ws) c rs x)
  (* the worker looks at [cancelled] *)
  | step_look i d ws c rs x w idx :
      ws !! w = Some (Got idx) ->
      step (mkPool i d ws c rs x)
           (mkPool i d (<[w := if c then Halting idx else Handling idx]> ws) c rs x)
  | step_halt i d ws c rs x w idx :
      ws !! w = Some (Halting idx) -> length rs < length values ->
      step (mkPool i d ws c rs x)
           (mkPool i d (<[w := Idle]> ws) c (rs ++ [mkResult idx zero (Some Canceled)]) x)
  | step_handle i d ws c rs x w idx v :
      ws !! w = Some (Handling idx) -> values !! idx = Some v -> length rs < length values ->
      step (mkPool i d ws c rs x)
           (mkPool i d (<[w := Sent (handle idx v)]> ws) c
              (rs ++ [mkResult idx v (handle idx v)]) x)
  (* [if err != nil && p.StopOnError], under the once and the mutex *)
  | step_stop i d ws c rs x w err :
      ws !! w = Some (Sent err) ->
      step (mkPool i d ws c rs x)
           (mkPool i d (<[w := Idle]> ws) (c || (fails err && stop_on_error)) rs x)
  (* the channel is closed and empty *)
  | step_exit d ws c rs x w :
      ws !! w = Some Idle ->
      step (mkPool (length values) d ws c rs x)
           (mkPool (length values) d (<[w := Exited]> ws) c rs x).

(** [wg.Wait] returns. *)
Definition finished (c : pool) : Prop :=
  next c = length values /\ Forall (fun w => w = Exited) (workers c).
End run.

(** What [Run] may return, and whether its context was done by then. *)
Inductive Run (p : Processor) (values : list T) : list Result -> bool -> Prop :=
  | Run_invalid done_ : Handle p = None -> Run p values [mkResult 0 zero (Some ErrInvalid)] done_
  | Run_pool handle c :
      Handle p = Some handle ->
      rtc (step (StopOnError p) handle values) (start p) c -> finished values c ->
      Run p values (results c) (ctx_done c).

(** ** Invariant *)

#[local] Arguments seq : simpl never.

Section invariant.
Context (stop_on_error : bool) (handle : nat -> T -> option error) (values : list T).
Abbreviation step := (step stop_on_error handle values).

(** The index a worker holds and has not answered. *)
Definition busy (w : worker) : option nat :=
  match w with Got idx | Halting idx | Handling idx => Some idx | _ => None end.

(** The two kinds of results. *)
Definition handled (r : Result) : Prop :=
  values !! Index r = Some (Value r) /\ Err_ r = handle (Index r) (Value r).
Definition skipped (r : Result) : Prop := Value r = zero /\ Err_ r = Some Canceled.

(** Why processing may have been given up. *)
Definition gave_up (c : pool) : Prop :=
  ctx_done c = true \/
  (stop_on_error = true /\ exists r, r ∈ results c /\ handled r /\ Err_ r <> None).

(** What the place of a worker says about the rest of the pool. *)
Definition worker_ok (c : bool) (i : nat) (rs : list Result) (w : worker) : Prop :=
  match w with
  | Halting _ => c = true
  | Sent (Some e) => exists r, r ∈ rs /\ handled r /\ Err_ r <> None
  | Exited => i = length values
  | _ => True
  end.

Record pool_ok (c : pool) : Prop := {
  ok_next : next c <= length values;
  ok_accounts : omap busy (workers c) ++ dropped c ++ map Index (results c) ≡ₚ seq 0 (next c);
  ok_results : Forall (fun r => handled r \/ skipped r /\ cancelled c = true) (results c);
  ok_dropped : ctx_done c = false -> dropped c = [];
  ok_workers : Forall (worker_ok (cancelled c) (next c) (results c)) (workers c);
  ok_cancelled : cancelled c = true -> gave_up c }.

Lemma start_ok p : pool_ok (start p).
Proof.
  assert (Hb : forall n, omap busy (replicate n Idle) = []) by (induction n; done).
  unfold start. split; simpl; [lia|by rewrite Hb|constructor|done| |done].
  apply Forall_replicate. done.
Qed.

(** The conditions on the workers do not get lost as the pool goes on. *)
Lemma workers_mono (c1 c2 : bool) i1 i2 (rs1 rs2 : list Result) ws :
  (c1 = true -> c2 = true) -> (i1 = length values -> i2 = length values) -> rs1 ⊆ rs2 ->
  Forall (worker_ok c1 i1 rs1) ws -> Forall (worker_ok c2 i2 rs2) ws.
Proof.
  intros Hc Hi Hrs Hws. eapply Forall_impl; [exact Hws|]. intros [| | | |[e|]|]; simpl; auto.
  intros (r & Hr & ?). exists r. auto.
Qed.

Lemma gave_up_mono i1 i2 d1 d2 ws1 ws2 c1 c2 rs1 rs2 (x : bool) :
  rs1 ⊆ rs2 -> gave_up (mkPool i1 d1 ws1 c1 rs1 x) -> gave_up (mkPool i2 d2 ws2 c2 rs2 x).
Proof. intros Hrs [Hx|(Hs & r & Hr & ?)]; [by left|right]. split; [done|]. exists r. auto. Qed.

(** A worker goes on with what it has. *)
Lemma move_ok i d ws c rs x w s s' :
  pool_ok (mkPool i d ws c rs x) -> ws !! w = Some s -> busy s' = busy s -> worker_ok c i rs s' ->
  pool_ok (mkPool i d (<[w := s']> ws) c rs x).
Proof.
  intros [Hn Ha Hr Hd Hw Hc] Hs Hb Hs'. simpl in *.
  destruct (omap_change busy ws w s s' Hs) as (rest & Hr1 & Hr2). split; simpl; auto.
  - by rewrite <- Ha, Hr2, Hr1, Hb.
  - by apply Forall_change.
Qed.

(** A worker answers the index that it holds. *)
Lemma answer_ok i d ws c rs x w s s' r :
  pool_ok (mkPool i d ws c rs x) -> ws !! w = Some s -> busy s = Some (Index r) -> busy s' = None ->
  handled r \/ skipped r /\ c = true -> worker_ok c i (rs ++ [r]) s' ->
  pool_ok (mkPool i d (<[w := s']> ws) c (rs ++ [r]) x).
Proof.
  intros [Hn Ha Hr Hd Hw Hc] Hs Hb Hb' Hnew Hs'. simpl in *.
  destruct (omap_change busy ws w s s' Hs) as (rest & Hr1 & Hr2). rewrite Hb in Hr1. rewrite Hb' in Hr2.
  assert (Hrs : rs ⊆ rs ++ [r]) by set_solver. split; simpl; auto.
  - rewrite map_app. simpl. rewrite <- Ha, Hr2, Hr1. simpl. solve_Permutation.
  - apply Forall_app. split; [done|]. by apply Forall_singleton.
  - apply Forall_change; [|done]. by eapply workers_mono; [..|exact Hw].
  - intros Hct. eapply gave_up_mono; [exact Hrs|by apply Hc].
Qed.

Lemma step_ok c c' : step c c' -> pool_ok c -> pool_ok c'.
Proof.
  intros Hstep Hok. pose proof Hok as [Hn Ha Hr Hd Hw Hc]. destruct Hstep; simpl in *.
  - split; simpl; auto; try done. intros _. by left.
  - split; simpl; auto.
    + rewrite seq_S, <- Ha. simpl. solve_Permutation.
    + eapply Forall_impl; [exact Hr|]. intros r [?|[? _]]; auto.
    + done.
    + eapply workers_mono; [| |done|exact Hw]; [done|lia].
    + intros _. by left.
  - destruct (omap_change busy ws w Idle (Got i)) as (rest & Hr1 & Hr2); [done|]. simpl in *.
    split; simpl; auto.
    + rewrite seq_S, <- Ha, Hr2, Hr1. simpl. solve_Permutation.
    + apply Forall_change; [|done]. eapply workers_mono; [| |done|exact Hw]; [done|lia].
  - eapply move_ok; [done..| |]; by destruct c.
  - eapply answer_ok; [done..| |done]. right. split; [done|].
    rewrite Forall_lookup in Hw. exact (Hw w (Halting idx) H).
  - assert (Hv : handled (mkResult idx v (handle idx v))) by done.
    eapply answer_ok; [done..|by left|]. simpl. destruct (handle idx v) as [e|] eqn:He; [|done].
    exists (mkResult idx v (Some e)). split; [set_solver|done].
  - assert (Hmv := move_ok _ _ _ _ _ _ _ _ Idle Hok H eq_refl I).
    destruct Hmv as [Hn' Ha' Hr' Hd' Hw' Hc']. simpl in *. split; simpl; auto.
    + eapply Forall_impl; [exact Hr'|]. intros r [?|[? ->]]; auto.
    + eapply workers_mono; [|done|done|exact Hw']. by intros ->.
    + intros [Hct|[He Hs]%andb_true_iff]%orb_true_iff.
      * eapply gave_up_mono; [|by apply Hc]. done.
      * right. split; [done|]. simpl. destruct err as [e|]; [|done].
        rewrite Forall_lookup in Hw. apply (Hw w (Sent (Some e)) H).
  - by eapply move_ok.
Qed.

Lemma reachable_ok p c : rtc step (start p) c -> pool_ok c.
Proof. intros Hc. eapply rtc_invariant; [apply step_ok|exact Hc|apply start_ok]. Qed.

(** ** Progress *)

(** The steps a worker may still take before it asks for another index. *)
Definition credit (w : worker) : nat :=
  match w with Idle => 1 | Got _ => 5 | Halting _ | Handling _ => 4 | Sent _ => 2 | Exited => 0 end.

Definition measure (c : pool) : nat :=
  5 * (length values - next c) + sum_list_with credit (workers c) + (if ctx_done c then 0 else 1).

Lemma step_measure c c' : step c c' -> measure c' < measure c.
Proof.
  unfold measure. intros Hstep. destruct Hstep; simpl; try lia;
    match goal with
    | Hw : ?ws !! ?w = Some ?s |- context [<[?w := ?s']> ?ws] =>
        pose proof (sum_change credit ws w s s' Hw); simpl in *
    end; repeat case_match; simpl in *; lia.
Qed.

Lemma start_measure p : measure (start p) <= 5 * length values + Z.to_nat (Z.max 1 (Workers p)) + 1.
Proof.
  unfold measure, start. simpl.
  assert (Hn : forall n, sum_list_with credit (replicate n Idle) = n) by (induction n; simpl; lia).
  rewrite Hn. case_decide; lia.
Qed.

Lemma step_workers c c' : step c c' -> length (workers c') = length (workers c).
Proof. destruct 1; simpl; by rewrite ?length_insert. Qed.

(** A worker that is not idle and not past its loop can go on. *)
Lemma busy_step c w s :
  pool_ok c -> workers c !! w = Some s -> s <> Idle -> s <> Exited -> exists c', step c c'.
Proof.
  destruct c as [i d ws cc rs x]. intros [Hn Ha _ _ _ _] Hw Hi He. simpl in *.
  assert (Hroom : forall idx, busy s = Some idx ->
    length rs < length values /\ exists v, values !! idx = Some v).
  { intros idx Hb. destruct (omap_change busy ws w s s Hw) as (rest & Hr & _).
    rewrite Hb in Hr. rewrite Hr in Ha. simpl in Ha. split.
    - apply Permutation_length in Ha. simpl in Ha.
      rewrite !length_app, length_map, length_seq in Ha. lia.
    - apply lookup_lt_is_Some. assert (Hin : idx ∈ seq 0 i) by (rewrite <- Ha; by constructor).
      apply elem_of_seq in Hin. lia. }
  destruct s as [|idx|idx|idx|err|]; try done.
  - eexists. by apply step_look.
  - destruct (Hroom idx) as [? _]; [done|]. eexists. by eapply step_halt.
  - destruct (Hroom idx) as [? [v Hv]]; [done|]. eexists. by eapply step_handle.
  - eexists. by apply step_stop.
Qed.

Lemma progress c : pool_ok c -> workers c <> [] -> ~ finished values c -> exists c', step c c'.
Proof.
  intros Hok Hne Hnf.
  destruct (decide (Forall (fun w => w = Idle \/ w = Exited) (workers c))) as [Hall|Hsome].
  - destruct (decide (Forall (fun w => w = Exited) (workers c))) as [Hex|Hnex].
    + destruct Hnf. split; [|done]. destruct (workers c) as [|w ws] eqn:E; [done|].
      pose proof (ok_workers _ Hok) as Hh. rewrite E in Hh.
      apply Forall_cons in Hh as [Hh _]. apply Forall_cons in Hex as [-> _]. done.
    + apply not_Forall_Exists, Exists_exists in Hnex as (s & Hs & Hse); [|apply _].
      apply list_elem_of_lookup in Hs as [w Hw].
      rewrite Forall_lookup in Hall. destruct (Hall w s Hw) as [->|]; [|done].
      destruct c as [i d ws cc rs x]. simpl in *. pose proof (ok_next _ Hok) as Hn. simpl in Hn.
      destruct (decide (i = length values)) as [->|]; eexists.
      * by apply step_exit.
      * apply step_send; [lia|exact Hw].
  - apply not_Forall_Exists, Exists_exists in Hsome as (s & Hs & Hse); [|apply _].
    apply list_elem_of_lookup in Hs as [w Hw]. apply (busy_step c w s); naive_solver.
Qed.
End invariant.

(** C24. However the workers interleave, a batch ends with a result for every value,
    once, unless the context was done: each result is the value with its handler's
    error, or says that the value was passed over, which happens only after the
    context was done or, when the processor stops on errors, after a value failed. *)
Theorem Run_results (p : Processor) (values : list T) handle out ctx :
  Handle p = Some handle -> Run p values out ctx ->
  NoDup (map Index out) /\
  (ctx = false -> map Index out ≡ₚ seq 0 (length values)) /\
  Forall (fun r => Index r < length values /\ (handled handle values r \/ skipped r)) out /\
  (ctx = false -> StopOnError p = false -> Forall (handled handle values) out) /\
  (ctx = false -> Exists (fun r => ~ handled handle values r) out ->
     Exists (fun r => handled handle values r /\ Err_ r <> None) out).
Proof.
  intros Hh HR. destruct HR as [|handle' c Hh' Hc [Hnext Hfin]]; [congruence|].
  assert (handle' = handle) as -> by congruence.
  destruct (reachable_ok _ _ _ _ _ Hc) as [Hn Ha Hr Hd _ Hcan].
  assert (Hbusy : omap busy (workers c) = []).
  { clear -Hfin. induction Hfin as [|w ws -> _ IH]; [done|]. exact IH. }
  rewrite Hbusy, Hnext in Ha. simpl in Ha. rewrite Forall_forall in Hr. split_and!.
  - assert (Hnd : NoDup (dropped c ++ map Index (results c))) by (rewrite Ha; apply NoDup_seq).
    by apply NoDup_app in Hnd as (_ & _ & ?).
  - intros Hx. by rewrite Hd in Ha.
  - apply Forall_forall. intros r Hin. split; [|destruct (Hr r Hin); tauto].
    assert (Hs : Index r ∈ seq 0 (length values)).
    { rewrite <- Ha, elem_of_app. right. by apply list_elem_of_fmap_2. }
    apply elem_of_seq in Hs. lia.
  - intros Hx Hstop. apply Forall_forall. intros r Hin.
    destruct (Hr r Hin) as [?|[_ Hct]]; [done|]. destruct (Hcan Hct) as [|[]]; congruence.
  - intros Hx (r & Hin & Hnh)%Exists_exists. apply Exists_exists.
    destruct (Hr r Hin) as [?|[_ Hct]]; [done|].
    destruct (Hcan Hct) as [|(_ & r' & ? & ? & ?)]; [congruence|eauto].
Qed.

(** C25. A batch always ends: whatever the interleaving, the pool takes at most five
    steps per value and one per worker besides, and it can go on as long as [Run]
    has not returned. *)
Theorem Run_terminates (p : Processor) (values : list T) handle k c :
  nsteps (step (StopOnError p) handle values) k (start p) c ->
  k <= 5 * length values + Z.to_nat (Z.max 1 (Workers p)) + 1 /\
  (finished values c \/ exists c', step (StopOnError p) handle values c c').
Proof.
  intros Hk. split.
  - pose proof (measure_bound _ (measure values) _ _ _ (step_measure _ _ _) Hk).
    pose proof (start_measure values p). lia.
  - destruct (decide (next c = length values /\ Forall (fun w => w = Exited) (workers c)))
      as [?|Hnf]; [by left|right].
    assert (Hw : length (workers c) = length (workers (start p))).
    { clear -Hk. induction Hk as [|k c c1 c2 Hs _ IH]; [done|].
      rewrite IH. by apply step_workers in Hs. }
    apply progress.
    + apply reachable_ok with p. eapply rtc_nsteps_2. exact Hk.
    + intros E. rewrite E in Hw. unfold start in Hw. simpl in Hw.
      rewrite length_replicate in Hw. case_decide; lia.
    + exact Hnf.
Qed.
End bulk.

(** ** A batch that stops on its first error *)

Definition sample : Processor (T := Z) :=
  mkProcessor true 1 (Some (fun i _ => if decide (i = 0) then Some ErrState else None)).
Definition sample_handle (i : nat) (_ : Z) : option error :=
  if decide (i = 0) then Some ErrState else None.
Definition sample_end : pool (T := Z) :=
  mkPool 2 [] [Exited] true
    [mkResult 0 10%Z (Some ErrState); mkResult 1 0%Z (Some Canceled)] false.

Lemma sample_steps :
  nsteps (step 0%Z true sample_handle [10; 20]%Z) 8 (start sample) sample_end.
Proof.
  eapply nsteps_l; [apply (step_send _ _ _ _ 0 [] [Idle] false [] false 0); [simpl; lia|done]|].
  eapply nsteps_l; [apply (step_look _ _ _ _ 1 [] [Got 0] false [] false 0 0); done|].
  eapply nsteps_l;
    [apply (step_handle _ _ _ _ 1 [] [Handling 0] false [] false 0 0 10%Z); [done|done|simpl; lia]|].
  eapply nsteps_l; [eapply (step_stop _ _ _ _ 1 [] [Sent (Some ErrState)] false _ false 0); done|].
  eapply nsteps_l; [eapply (step_send _ _ _ _ 1 [] [Idle] true _ false 0); [simpl; lia|done]|].
  eapply nsteps_l; [eapply (step_look _ _ _ _ 2 [] [Got 1] true _ false 0 1); done|].
  eapply nsteps_l; [eapply (step_halt _ _ _ _ 2 [] [Halting 1] true _ false 0 1); [done|simpl; lia]|].
  eapply nsteps_l; [eapply (step_exit 0%Z true sample_handle [10; 20]%Z [] [Idle] true _ false 0); done|].
  apply nsteps_O.
Qed.

Lemma Run_results_witness :
  Run 0%Z sample [10; 20]%Z (results sample_end) false /\
  map Index (results sample_end) ≡ₚ seq 0 2.
Proof.
  assert (HR : Run 0%Z sample [10; 20]%Z (results sample_end) false).
  { apply (Run_pool 0%Z sample [10; 20]%Z sample_handle sample_end); [done| |].
    - eapply rtc_nsteps_2, sample_steps.
    - split; [done|]. repeat constructor. }
  split; [exact HR|].
  destruct (Run_results 0%Z sample [10; 20]%Z sample_handle (results sample_end) false) as (_ & H & _);
    [done|exact HR|]. by apply H.
Defined.

Lemma Run_terminates_witness :
  nsteps (step 0%Z true sample_handle [10; 20]%Z) 8 (start sample) sample_end /\ 8 <= 12.
Proof.
  split; [apply sample_steps|].
  destruct (Run_terminates 0%Z sample [10; 20]%Z sample_handle 8 sample_end sample_steps) as [H _].
  exact H.
Defined.
