(* ===== verification/locks.v ===== *)
(** * Package locks

    Locks by key ([internal/locks/lock.go]): a key's lock is a channel with room for
    one token, which the holder has put in; releasing takes it out. *)

From S2P Require Import Prelude.
From S2P Require Import golang.
From S2P Require Import domain.
From S2P Require Import machine.

Open Scope string_scope.
Open Scope list_scope.
Open Scope Z_scope.

(** Where a caller is: outside, in the [select] of [Acquire] on its key's channel
    with a context that may end, or holding the key with its release function. *)
Inductive caller :=
  | Outside
  | Waiting (key : string) (ctx : Context)
  | Holding (key : string).

#[export] Instance caller_eq_dec : EqDecision caller.
Proof. solve_decision. Defined.

(** [held]: the channels by key, and whether the token is in. *)
Record Keyed := mkKeyed { held : gmap string bool; callers : list caller }.

Definition New (n : nat) : Keyed := mkKeyed ∅ (replicate n Outside).

(** The part of [Acquire] under the mutex: the key's channel is found or made. *)
Definition channel (key : string) (m : gmap string bool) : gmap string bool :=
  match m !! key with
  | Some _ => m
  | None => <[key := false]> m
  end.

(** The beginning of [Acquire]: what it returns at once, or the [select]. *)
Definition Acquire (ctx : Context) (key : string) (m : gmap string bool)
    : gmap string bool * result caller :=
  if decide (key = "") then (m, Err ErrInvalid) else
  (channel key m, Ok (Waiting key ctx)).

(** [child] is the context with the timeout, which ends with the parent or at the
    deadline. *)
Definition WithTimeout (child : Context) (key : string) (d : Duration) (m : gmap string bool)
    : gmap string bool * result caller :=
  if decide (d <= 0) then (m, Err ErrInvalid) else Acquire child key m.

Inductive step : Keyed -> Keyed -> Prop :=
  | step_acquire m cs c ctx key m' s :
      cs !! c = Some Outside -> Acquire ctx key m = (m', Ok s) ->
      step (mkKeyed m cs) (mkKeyed m' (<[c := s]> cs))
  | step_timeout m cs c child key d m' s :
      cs !! c = Some Outside -> WithTimeout child key d m = (m', Ok s) ->
      step (mkKeyed m cs) (mkKeyed m' (<[c := s]> cs))
  (* the context of a caller ends *)
  | step_ctx m cs c key err :
      cs !! c = Some (Waiting key None) ->
      step (mkKeyed m cs) (mkKeyed m (<[c := Waiting key (Some err)]> cs))
  (* [case ch <- struct{}{}]: there is room for the token *)
  | step_enter m cs c key ctx :
      cs !! c = Some (Waiting key ctx) -> m !! key = Some false ->
      step (mkKeyed m cs) (mkKeyed (<[key := true]> m) (<[c := Holding key]> cs))
  (* [case <-ctx.Done()] *)
  | step_give_up m cs c key err :
      cs !! c = Some (Waiting key (Some err)) ->
      step (mkKeyed m cs) (mkKeyed m (<[c := Outside]> cs))
  (* the release function: it waits for a token *)
  | step_release m cs c key :
      cs !! c = Some (Holding key) -> m !! key = Some true ->
      step (mkKeyed m cs) (mkKeyed (<[key := false]> m) (<[c := Outside]> cs)).

(** ** Tokens *)

Definition holds (key : string) (s : caller) : nat :=
  if decide (s = Holding key) then 1 else 0.

(** A key's channel exists when someone waits for it, and holds as many tokens as
    there are callers inside. *)
Record keyed_ok (k : Keyed) : Prop := {
  ok_tokens key : sum_list_with (holds key) (callers k) =
    match held k !! key with Some true => 1%nat | _ => 0%nat end;
  ok_waiting c key ctx : callers k !! c = Some (Waiting key ctx) -> is_Some (held k !! key) }.

Lemma New_keyed_ok n : keyed_ok (New n).
Proof.
  split; simpl.
  - intros key. induction n as [|n IH]; [done|]. exact IH.
  - intros c key ctx Hl. by apply lookup_replicate in Hl as [? _].
Qed.

Lemma channel_tokens key m k :
  match channel key m !! k with Some true => 1%nat | _ => 0%nat end =
  match m !! k with Some true => 1%nat | _ => 0%nat end.
Proof.
  unfold channel. destruct (m !! key) eqn:E; [done|]. rewrite lookup_insert.
  case_decide; [|done]. subst. by rewrite E.
Qed.

Lemma channel_keeps key m k : is_Some (m !! k) -> is_Some (channel key m !! k).
Proof.
  unfold channel. destruct (m !! key) eqn:E; [done|]. rewrite lookup_insert. case_decide; eauto.
Qed.

Lemma channel_here key m : is_Some (channel key m !! key).
Proof. unfold channel. destruct (m !! key) eqn:E; [by rewrite E|]. rewrite lookup_insert_eq. eauto. Qed.

(** A caller that moves outside the lock moves no token. *)
Lemma holds_change key cs c s s' :
  cs !! c = Some s -> holds key s = holds key s' ->
  sum_list_with (holds key) (<[c := s']> cs) = sum_list_with (holds key) cs.
Proof. intros Hc Hs. pose proof (sum_change (holds key) cs c s s' Hc). lia. Qed.

Lemma Acquire_ok ctx key m cs c m' s :
  keyed_ok (mkKeyed m cs) -> cs !! c = Some Outside -> Acquire ctx key m = (m', Ok s) ->
  keyed_ok (mkKeyed m' (<[c := s]> cs)).
Proof.
  intros [Ht Hw] Hc. unfold Acquire. case_decide; [done|]. intros [= <- <-]. split; simpl in *.
  - intros k. rewrite channel_tokens, <- Ht. by apply holds_change with Outside.
  - intros c' k ctx'. rewrite list_lookup_insert_Some. intros [(_ & [= <- <-] & _)|[_ Hc']].
    + apply channel_here.
    + by eapply channel_keeps, Hw.
Qed.

Lemma step_keyed k k' : step k k' -> keyed_ok k -> keyed_ok k'.
Proof.
  intros Hstep Hk. destruct Hstep as [m cs c ctx key m' s Hc Ha|m cs c child key d m' s Hc Ha
    |m cs c key err Hc|m cs c key ctx Hc Hm|m cs c key err Hc|m cs c key Hc Hm].
  - by eapply Acquire_ok.
  - unfold WithTimeout in Ha. case_decide; [done|]. by eapply Acquire_ok.
  - destruct Hk as [Ht Hw]. split; simpl in *.
    + intros k. rewrite <- Ht. by eapply holds_change.
    + intros c' k ctx'. rewrite list_lookup_insert_Some.
      intros [(_ & [= <- <-] & _)|[_ Hc']]; by eapply Hw.
  - destruct Hk as [Ht Hw]. split; simpl in *.
    + intros k. pose proof (sum_change (holds k) cs c _ (Holding key) Hc) as Hs.
      specialize (Ht k). unfold holds in Hs, Ht |- *. rewrite lookup_insert.
      repeat case_decide; simplify_eq; rewrite ?Hm in Ht; lia.
    + intros c' k ctx'. rewrite list_lookup_insert_Some, lookup_insert.
      intros [(_ & ? & _)|[_ Hc']]; [done|]. case_decide; eauto.
  - destruct Hk as [Ht Hw]. split; simpl in *.
    + intros k. rewrite <- Ht. by eapply holds_change.
    + intros c' k ctx'. rewrite list_lookup_insert_Some. intros [(_ & ? & _)|[_ Hc']]; [done|].
      by eapply Hw.
  - destruct Hk as [Ht Hw]. split; simpl in *.
    + intros k. pose proof (sum_change (holds k) cs c _ Outside Hc) as Hs.
      specialize (Ht k). unfold holds in Hs, Ht |- *. rewrite lookup_insert.
      repeat case_decide; simplify_eq; rewrite ?Hm in Ht; lia.
    + intros c' k ctx'. rewrite list_lookup_insert_Some, lookup_insert.
      intros [(_ & ? & _)|[_ Hc']]; [done|]. case_decide; eauto.
Qed.

Lemma reachable_keyed n k : rtc step (New n) k -> keyed_ok k.
Proof. intros Hk. eapply rtc_invariant; [apply step_keyed|exact Hk|apply New_keyed_ok]. Qed.

Lemma sum_two (f : caller -> nat) l i j x y :
  f Outside = 0%nat -> l !! i = Some x -> l !! j = Some y -> i <> j -> (f x + f y <= sum_list_with f l)%nat.
Proof.
  intros H0 Hi Hj Hij. pose proof (sum_change f l i x Outside Hi) as H1.
  pose proof (sum_change f (<[i := Outside]> l) j y Outside) as H2.
  rewrite list_lookup_insert_ne in H2 by done. specialize (H2 Hj). lia.
Qed.

(** C26. However the callers interleave, a key has one holder at a time; the holder
    can always release it; and when nobody holds a key, whoever waits for it can
    enter: no wake-up is lost and no holder is stuck. *)
Theorem one_holder n k :
  rtc step (New n) k ->
  (forall c c' key, callers k !! c = Some (Holding key) -> callers k !! c' = Some (Holding key) ->
     c = c') /\
  (forall c key, callers k !! c = Some (Holding key) ->
     step k (mkKeyed (<[key := false]> (held k)) (<[c := Outside]> (callers k)))) /\
  (forall c key ctx, callers k !! c = Some (Waiting key ctx) ->
     (forall c', callers k !! c' <> Some (Holding key)) ->
     step k (mkKeyed (<[key := true]> (held k)) (<[c := Holding key]> (callers k)))).
Proof.
  intros Hk%reachable_keyed. destruct k as [m cs]. destruct Hk as [Ht Hw]. simpl in *.
  assert (Hone : forall c key, cs !! c = Some (Holding key) -> m !! key = Some true).
  { intros c key Hc. specialize (Ht key).
    pose proof (sum_change (holds key) cs c _ Outside Hc) as Hs.
    unfold holds at 2 4 in Hs. rewrite decide_True, decide_False in Hs by done.
    destruct (m !! key) as [[]|]; [done|lia..]. }
  split_and!.
  - intros c c' key Hc Hc'. destruct (decide (c = c')) as [|Hne]; [done|].
    pose proof (sum_two (holds key) cs c c' _ _ eq_refl Hc Hc' Hne) as Hs. rewrite Ht in Hs.
    unfold holds in Hs. rewrite decide_True in Hs by done. repeat case_match; lia.
  - intros c key Hc. apply step_release; eauto.
  - intros c key ctx Hc Hno. apply step_enter with ctx; [done|].
    destruct (Hw c key ctx Hc) as [[] Hb]; [|done]. exfalso.
    specialize (Ht key). rewrite Hb in Ht.
    assert (Hz : sum_list_with (holds key) cs = 0%nat); [|lia].
    clear -Hno. induction cs as [|s cs IH]; [done|]. simpl. rewrite IH.
    + unfold holds. case_decide as Hs; [|done]. destruct (Hno 0%nat). simpl. by rewrite Hs.
    + intros c'. apply (Hno (S c')).
Qed.

Lemma one_holder_witness :
  let k := mkKeyed {["S1" := true]} [Holding "S1"; Waiting "S1" None] in
  rtc step (New 2) k /\
  step k (mkKeyed (<["S1" := false]> (held k)) (<[0%nat := Outside]> (callers k))).
Proof.
  intros k. assert (Hk : rtc step (New 2) k).
  { eapply rtc_l; [eapply (step_acquire _ _ 0 None "S1"); [done|reflexivity]|].
    eapply rtc_l; [eapply (step_acquire _ _ 1 None "S1"); [done|reflexivity]|].
    eapply rtc_l; [eapply (step_enter _ _ 0 "S1"); [done|reflexivity]|].
    apply rtc_refl. }
  split; [exact Hk|]. apply (one_holder 2 k Hk). reflexivity.
Defined.
