(* ===== verification/workerpool.v ===== *)
(** * Package workerpool

    A pool of goroutines behind a queue ([internal/workerpool/pool.go]).  A [select]
    with several ready cases takes any of them. *)

From S2P Require Import Prelude.
From S2P Require Import golang.
From S2P Require Import domain.
From S2P Require Import machine.

Open Scope list_scope.
Open Scope Z_scope.

Section pool.
(** The jobs, told apart by what they are. *)
Context {Job : Type}.

(** A worker at its [select], in a job, or returned. *)
Inductive worker := Selecting | Running (j : Job) | Returned.

(** [accepted] and [ran] record the history: the jobs that [Submit] took and the
    ones that came to their end. *)
Record Pool := mkPool {
  size : Z;                     (* the field [workers] *)
  capacity : Z;                 (* of the channel [jobs] *)
  jobs : list Job;
  done_ : bool;                 (* the channel [done] is closed *)
  ctx_done : bool;              (* the context of [Start] *)
  workers : list worker;
  accepted : list Job;
  ran : list Job }.

Definition New (workers queue : Z) : Pool :=
  let workers := if decide (workers < 1) then 1 else workers in
  let queue := if decide (queue < workers) then workers else queue in
  mkPool workers queue [] false false [] [] [].

Inductive step : Pool -> Pool -> Prop :=
  | step_start n q js d x ws a r :
      step (mkPool n q js d x ws a r)
           (mkPool n q js d x (ws ++ replicate (Z.to_nat n) Selecting) a r)
  (* [Submit]: [case p.jobs <- job] *)
  | step_submit n q js d x ws a r j :
      Z.of_nat (length js) < q ->
      step (mkPool n q js d x ws a r) (mkPool n q (js ++ [j]) d x ws (a ++ [j]) r)
  (* a worker: [case job := <-p.jobs], and the end of the job *)
  | step_take n q j js d x ws a r w :
      ws !! w = Some Selecting ->
      step (mkPool n q (j :: js) d x ws a r) (mkPool n q js d x (<[w := Running j]> ws) a r)
  | step_finish n q js d x ws a r w j :
      ws !! w = Some (Running j) ->
      step (mkPool n q js d x ws a r) (mkPool n q js d x (<[w := Selecting]> ws) a (r ++ [j]))
  (* [case <-ctx.Done()] and [case <-p.done] *)
  | step_return n q js d x ws a r w :
      ws !! w = Some Selecting -> d = true \/ x = true ->
      step (mkPool n q js d x ws a r) (mkPool n q js d x (<[w := Returned]> ws) a r)
  (* [Stop]: the channel is closed, once *)
  | step_stop n q js x ws a r :
      step (mkPool n q js false x ws a r) (mkPool n q js true x ws a r)
  | step_ctx n q js d ws a r :
      step (mkPool n q js d false ws a r) (mkPool n q js d true ws a r).

(** The outcomes of [Submit]: what it may return in a state; [None] is success. *)
Inductive Submit (ctx : Context) (job : option Job) (p : Pool) : option error -> Prop :=
  | Submit_nil : job = None -> Submit ctx job p (Some ErrInvalid)
  | Submit_sent j : job = Some j -> Z.of_nat (length (jobs p)) < capacity p -> Submit ctx job p None
  | Submit_ctx j err : job = Some j -> ctx = Some err -> Submit ctx job p (Some err)
  | Submit_done j : job = Some j -> done_ p = true -> Submit ctx job p (Some ErrState).

(** [Stop] returns: every worker has. *)
Definition stopped (p : Pool) : Prop :=
  done_ p = true /\ Forall (fun w => w = Returned) (workers p).

(** ** Invariant *)

Definition running (w : worker) : option Job :=
  match w with Running j => Some j | _ => None end.

Record pool_ok (p : Pool) : Prop := {
  ok_size : 1 <= size p <= capacity p;
  ok_queue : Z.of_nat (length (jobs p)) <= capacity p;
  ok_order : exists started, accepted p = started ++ jobs p /\
    started ≡ₚ omap running (workers p) ++ ran p }.

Lemma New_pool_ok n q : pool_ok (New n q).
Proof. split; simpl; [repeat case_decide; lia..|]. by exists []. Qed.

Lemma step_pool_ok p p' : step p p' -> pool_ok p -> pool_ok p'.
Proof.
  intros Hstep [Hs Hq (started & Ha & Hp)]. destruct Hstep as [| | |n q js d x ws a r w j Hw|
    n q js d x ws a r w Hw Hd| |]; simpl in *; try (split; simpl; eauto; done).
  - split; simpl; [done..|]. exists started. split; [done|]. rewrite omap_app, Hp.
    replace (omap running (replicate (Z.to_nat n) Selecting)) with (@nil Job); [by rewrite app_nil_r|].
    by induction (Z.to_nat n).
  - split; simpl; [done|rewrite length_app; simpl; lia|]. exists started.
    by rewrite Ha, <- (assoc (++)).
  - destruct (omap_change running ws w Selecting (Running j)) as (rest & Hr1 & Hr2); [done|].
    simpl in *. split; simpl; [done|lia|]. exists (started ++ [j]). rewrite <- (assoc (++)).
    split; [done|]. rewrite Hp, Hr2, Hr1. solve_Permutation.
  - destruct (omap_change running ws w (Running j) Selecting) as (rest & Hr1 & Hr2); [done|].
    simpl in *. split; simpl; [done..|]. exists started. split; [done|]. rewrite Hp, Hr2, Hr1.
    solve_Permutation.
  - destruct (omap_change running ws w Selecting Returned) as (rest & Hr1 & Hr2); [done|].
    simpl in *. split; simpl; [done..|]. exists started. split; [done|]. by rewrite Hp, Hr2, Hr1.
Qed.

Lemma reachable_pool n q p : rtc step (New n q) p -> pool_ok p.
Proof. intros Hp. eapply rtc_invariant; [apply step_pool_ok|exact Hp|apply New_pool_ok]. Qed.

(** ** Stopping *)

(** The steps of the workers. *)
Inductive worker_step : Pool -> Pool -> Prop :=
  | worker_moves p p' :
      step p p' -> accepted p' = accepted p -> done_ p' = done_ p -> ctx_done p' = ctx_done p ->
      length (workers p') = length (workers p) -> worker_step p p'.

Definition credit (w : worker) : nat :=
  match w with Selecting => 1 | Running _ => 2 | Returned => 0 end.

Definition measure (p : Pool) : nat :=
  3 * length (jobs p) + sum_list_with credit (workers p).

Lemma worker_step_measure p p' :
  1 <= size p -> worker_step p p' -> (measure p' < measure p)%nat.
Proof.
  intros Hn Hw. revert Hn. destruct Hw as [q q' Hstep Ha Hd Hx Hl]. unfold measure.
  destruct Hstep as [| |n c j js d x ws a r w Hw|n c js d x ws a r w j Hw|n c js d x ws a r w Hw Hdx| |];
    simpl in *; intros Hn; try congruence.
  - rewrite length_app, length_replicate in Hl. lia.
  - apply (f_equal length) in Ha. rewrite length_app in Ha. simpl in Ha. lia.
  - pose proof (sum_change credit ws w _ (Running j) Hw). simpl in *. lia.
  - pose proof (sum_change credit ws w _ Selecting Hw). simpl in *. lia.
  - pose proof (sum_change credit ws w _ Returned Hw). simpl in *. lia.
Qed.

(** The pool starts the jobs it accepted in their order, each at most once, and
    runs no more of them at a time than it has workers: at any moment of any
    interleaving what was accepted is what was started followed by the queue, and
    what was started is running or has run. *)
Theorem jobs_run_once n q p :
  rtc step (New n q) p ->
  Z.of_nat (length (jobs p)) <= capacity p /\
  (length (omap running (workers p)) <= length (workers p))%nat /\
  exists started, accepted p = started ++ jobs p /\
    started ≡ₚ omap running (workers p) ++ ran p.
Proof.
  intros [_ Hq Ho]%reachable_pool. split_and!; [done| |done].
  apply omap_length_le.
Qed.

(** C28. [Stop] returns: once it is called or the context is done, and unless more
    jobs are submitted, the workers take a bounded number of steps, and one of them
    can go on as long as they have not all returned. *)
Theorem Stop_returns n q p k p' :
  rtc step (New n q) p -> done_ p = true \/ ctx_done p = true ->
  nsteps worker_step k p p' ->
  (k <= 3 * length (jobs p) + 2 * length (workers p))%nat /\
  (Forall (fun w => w = Returned) (workers p') \/ exists p'', worker_step p' p'').
Proof.
  intros Hreach Hd Hk. pose proof (reachable_pool n q p Hreach) as Hok.
  assert (Hkeep : (k + measure p' <= measure p)%nat /\ (done_ p' = true \/ ctx_done p' = true)).
  { clear Hreach. induction Hk as [p|k p p1 p2 Hs _ IH]; [split; [lia|done]|].
    pose proof (worker_step_measure p p1 (proj1 (ok_size _ Hok)) Hs) as Hm.
    destruct Hs as [p p1 Hs Ha Hd1 Hx1 Hl]. destruct IH as [IH ?];
      [by rewrite Hd1, Hx1|by eapply step_pool_ok|]. split; [lia|done]. }
  destruct Hkeep as [Hm Hd']. split.
  - assert (Hc : (sum_list_with credit (workers p) <= 2 * length (workers p))%nat).
    { clear. induction (workers p) as [|[] ws IH]; simpl; lia. }
    unfold measure in Hm. lia.
  - assert (Hor : Forall (fun w => w = Returned) (workers p') \/
      exists w s, workers p' !! w = Some s /\ s <> Returned).
    { clear. induction (workers p') as [|s ws [IH|(w & s' & Hw & Hs)]].
      - by left.
      - destruct s as [|j|]; [right; by exists 0%nat, Selecting|right; by exists 0%nat, (Running j)|].
        left. by constructor.
      - right. by exists (S w), s'. }
    destruct Hor as [?|(w & s & Hw & Hs)]; [by left|right].
    destruct p' as [n' q' js d x ws a r]. simpl in *. destruct s as [|j|]; [| |done].
    + eexists. constructor; [by apply step_return with (w := w)|..]; try done.
      apply length_insert.
    + eexists. constructor; [by apply step_finish with (w := w)|..]; try done.
      apply length_insert.
Qed.
End pool.

(** A job can be accepted and never run: [Stop] does not wait for the queue, and
    [Submit] may still send after it. *)
Lemma accepted_job_lost (j : nat) :
  exists p, rtc step (New 1 1) p /\ stopped p /\ jobs p = [j] /\ ran p = [] /\
    Submit None (Some j) (mkPool 1 1 [] true false [Returned] [] []) None.
Proof.
  exists (mkPool 1 1 [j] true false [Returned] [j] []). split.
  - eapply rtc_l; [apply step_start|]. eapply rtc_l; [apply step_stop|].
    eapply rtc_l; [by eapply (step_return _ _ _ _ _ _ _ _ 0); [|left]|].
    eapply rtc_l; [apply (step_submit _ _ _ _ _ _ _ _ j); simpl; lia|]. apply rtc_refl.
  - split_and!; [split; [done|by constructor]|done..|]. apply Submit_sent with j; [done|]. simpl. lia.
Qed.

Definition sample_pool : Pool (Job := nat) := mkPool 1 2 [7%nat] true false [Running 5%nat] [5%nat; 7%nat] [].

Lemma sample_reachable : rtc step (New 1 2) sample_pool.
Proof.
  eapply rtc_l; [apply step_start|]. eapply rtc_l; [apply (step_submit _ _ _ _ _ _ _ _ 5%nat); simpl; lia|].
  eapply rtc_l; [by eapply (step_take _ _ _ _ _ _ _ _ _ 0)|].
  eapply rtc_l; [apply (step_submit _ _ _ _ _ _ _ _ 7%nat); simpl; lia|].
  eapply rtc_l; [apply step_stop|]. apply rtc_refl.
Qed.

Lemma jobs_run_once_witness :
  exists started, accepted sample_pool = started ++ jobs sample_pool /\
    started ≡ₚ omap running (workers sample_pool) ++ ran sample_pool.
Proof. apply (jobs_run_once 1 2 sample_pool), sample_reachable. Defined.

Lemma Stop_returns_witness :
  Forall (fun w => w = Returned) (workers sample_pool) \/ exists p, worker_step sample_pool p.
Proof.
  apply (Stop_returns 1 2 sample_pool 0 sample_pool sample_reachable); [by left|constructor].
Defined.
