(* ===== verification/stream.v ===== *)
(** * Package stream

    An event bus with buffered subscribers ([internal/stream/stream.go]).  [Publish]
    holds the read lock from its first line to its last, [Subscribe] and
    [Unsubscribe] the write lock, so neither runs while a value is being published. *)

From S2P Require Import Prelude.
From S2P Require Import golang.
From S2P Require Import domain.
From S2P Require Import machine.

Open Scope list_scope.
Open Scope nat_scope.

Section bus.
Context {T : Type}.

(** A subscriber's channel.  [sent] and [received] record the values that went in and
    came out. *)
Record chan := mkChan { cap : nat; buffer : list T; sent : list T; received : list T }.

Definition send (v : T) (ch : chan) : chan :=
  mkChan (cap ch) (buffer ch ++ [v]) (sent ch ++ [v]) (received ch).

(** A goroutine that publishes: outside, or in the loop with the subscribers it has
    served and the ones to come. *)
Inductive publisher :=
  | Outside
  | Publishing (v : T) (served rest : list nat).

(** [closed]: the channels that [Unsubscribe] took out, which their owners may still
    drain. *)
Record Bus := mkBus {
  subscribers : gmap nat chan; next : nat; closed : gmap nat chan; publishers : list publisher }.

Definition New (n : nat) : Bus := mkBus ∅ 0 ∅ (replicate n Outside).

(** The write lock is free. *)
Definition unlocked (ps : list publisher) : Prop := Forall (fun p => p = Outside) ps.

Definition Subscribe (size : Z) (b : Bus) : Bus * result nat :=
  if decide (size < 1)%Z then (b, Err ErrInvalid) else
  (mkBus (<[next b := mkChan (Z.to_nat size) [] [] []]> (subscribers b)) (S (next b)) (closed b)
     (publishers b), Ok (next b)).

Definition Unsubscribe (id : nat) (b : Bus) : Bus :=
  match subscribers b !! id with
  | Some ch => mkBus (delete id (subscribers b)) (next b) (<[id := ch]> (closed b)) (publishers b)
  | None => b
  end.

Inductive step : Bus -> Bus -> Prop :=
  | step_subscribe b size :
      unlocked (publishers b) -> step b (Subscribe size b).1
  | step_unsubscribe b id :
      unlocked (publishers b) -> step b (Unsubscribe id b)
  (* [Publish] takes the lock and ranges over the map in any order *)
  | step_publish m n cl ps p v order :
      ps !! p = Some Outside -> NoDup order -> (forall id, id ∈ order <-> is_Some (m !! id)) ->
      step (mkBus m n cl ps) (mkBus m n cl (<[p := Publishing v [] order]> ps))
  (* [case ch <- v] *)
  | step_send m n cl ps p v served id rest ch :
      ps !! p = Some (Publishing v served (id :: rest)) -> m !! id = Some ch ->
      length (buffer ch) < cap ch ->
      step (mkBus m n cl ps)
           (mkBus (<[id := send v ch]> m) n cl (<[p := Publishing v (served ++ [id]) rest]> ps))
  (* [case <-ctx.Done()] *)
  | step_give_up m n cl ps p v served id rest :
      ps !! p = Some (Publishing v served (id :: rest)) ->
      step (mkBus m n cl ps) (mkBus m n cl (<[p := Outside]> ps))
  | step_published m n cl ps p v served :
      ps !! p = Some (Publishing v served []) ->
      step (mkBus m n cl ps) (mkBus m n cl (<[p := Outside]> ps))
  (* a subscriber receives, from its channel or from what it left *)
  | step_receive m n cl ps id c x xs s r :
      m !! id = Some (mkChan c (x :: xs) s r) ->
      step (mkBus m n cl ps) (mkBus (<[id := mkChan c xs s (r ++ [x])]> m) n cl ps)
  | step_drain m n cl ps id c x xs s r :
      cl !! id = Some (mkChan c (x :: xs) s r) ->
      step (mkBus m n cl ps) (mkBus m n (<[id := mkChan c xs s (r ++ [x])]> cl) ps).

(** ** Invariant *)

(** A channel gives out what went in, in order, and never holds more than it may. *)
Definition chan_ok (ch : chan) : Prop :=
  sent ch = received ch ++ buffer ch /\ length (buffer ch) <= cap ch.

(** A publisher has before it, or behind it, every subscriber once. *)
Definition publisher_ok (m : gmap nat chan) (p : publisher) : Prop :=
  match p with
  | Outside => True
  | Publishing v served rest =>
      NoDup (served ++ rest) /\ (forall id, id ∈ served ++ rest <-> is_Some (m !! id)) /\
      forall id, id ∈ served -> exists ch, m !! id = Some ch /\ v ∈ sent ch
  end.

Record bus_ok (b : Bus) : Prop := {
  ok_open : map_Forall (fun id ch => id < next b /\ chan_ok ch) (subscribers b);
  ok_closed : map_Forall (fun id ch => chan_ok ch) (closed b);
  ok_publishers : Forall (publisher_ok (subscribers b)) (publishers b) }.

Lemma New_bus_ok n : bus_ok (New n).
Proof.
  split; simpl; [apply map_Forall_empty..|]. by apply Forall_replicate.
Qed.

(** A channel that changes keeps the publishers right when nothing is lost. *)
Lemma publisher_keep m id ch ch' p :
  m !! id = Some ch -> (forall v, v ∈ sent ch -> v ∈ sent ch') ->
  publisher_ok m p -> publisher_ok (<[id := ch']> m) p.
Proof.
  intros Hid Hsent. destruct p as [|v served rest]; [done|]. intros (Hnd & Hall & Hserved).
  split_and!; [done| |].
  - intros k. rewrite Hall, lookup_insert. case_decide; [|done]. subst. rewrite Hid.
    split; eauto.
  - intros k Hk. destruct (Hserved k Hk) as (ch1 & Hk1 & Hv). rewrite lookup_insert.
    case_decide; [|eauto]. simplify_eq. eauto.
Qed.

(** While the write lock is held, nobody publishes. *)
Lemma unlocked_ok m ps : unlocked ps -> Forall (publisher_ok m) ps.
Proof. intros Hps. eapply Forall_impl; [exact Hps|]. by intros p ->. Qed.

Lemma step_bus b b' : step b b' -> bus_ok b -> bus_ok b'.
Proof.
  intros Hstep [Ho Hc Hp]. destruct Hstep as [b size Hu|b id Hu|m n cl ps p v order Hps Hnd Hall
    |m n cl ps p v served id rest ch Hps Hid Hroom|m n cl ps p v served id rest Hps
    |m n cl ps p v served Hps|m n cl ps id c x xs s r Hid|m n cl ps id c x xs s r Hid]; simpl in *.
  - unfold Subscribe. case_decide; [done|]. simpl. split; simpl; [|done|by apply unlocked_ok].
    apply map_Forall_insert_2; [split; [lia|split; simpl; [done|lia]]|].
    eapply map_Forall_impl; [exact Ho|]. intros k ch [? ?]. split; [lia|done].
  - unfold Unsubscribe. destruct (subscribers b !! id) as [ch|] eqn:Hid; [|done].
    split; simpl; [by apply map_Forall_delete| |by apply unlocked_ok].
    apply map_Forall_insert_2; [|done]. by apply (Ho id ch).
  - split; simpl; [done..|]. apply Forall_change; [done|]. split_and!; [done..|].
    by intros ? ?%elem_of_nil.
  - destruct (Ho id ch Hid) as (Hlt & Hsent & Hcap).
    assert (Hch : chan_ok (send v ch)).
    { split; simpl; [by rewrite Hsent, (assoc (++))|]. rewrite length_app. simpl. lia. }
    assert (Hkeep : Forall (publisher_ok (<[id := send v ch]> m)) ps).
    { eapply Forall_impl; [exact Hp|]. intros q. apply publisher_keep with ch; [done|].
      simpl. set_solver. }
    split; simpl; [by apply map_Forall_insert_2|done|]. apply Forall_change; [done|].
    rewrite Forall_lookup in Hkeep. destruct (Hkeep p _ Hps) as (Hnd & Hall & Hserved).
    unfold publisher_ok.
    replace ((served ++ [id]) ++ rest) with (served ++ id :: rest) by (by rewrite <- (assoc (++))).
    split; [exact Hnd|]. split; [exact Hall|].
    intros k [Hk| ->%list_elem_of_singleton]%elem_of_app; [by apply Hserved|].
    rewrite lookup_insert_eq. eexists. split; [done|]. simpl. set_solver.
  - split; simpl; [done..|]. by apply Forall_change.
  - split; simpl; [done..|]. by apply Forall_change.
  - destruct (Ho id _ Hid) as (Hlt & Hsent & Hcap). simpl in *. split; simpl; [|done|].
    + apply map_Forall_insert_2; [|done]. split; [done|]. split; simpl; [|lia].
      by rewrite <- (assoc (++)).
    + eapply Forall_impl; [exact Hp|]. intros q. by eapply publisher_keep.
  - destruct (Hc id _ Hid) as (Hsent & Hcap). simpl in *. split; simpl; [done| |done].
    apply map_Forall_insert_2; [|done]. split; simpl; [|lia]. by rewrite <- (assoc (++)).
Qed.

(** C27. Whatever is published, received and unsubscribed in any interleaving: a
    subscriber receives exactly what was sent to it, in order, with no more waiting
    than its buffer holds; a publisher never sends on a closed channel; and when a
    value has been published, it was sent to every subscriber. *)
Theorem delivery n b :
  rtc step (New n) b ->
  (forall id ch, subscribers b !! id = Some ch \/ closed b !! id = Some ch ->
     sent ch = received ch ++ buffer ch /\ length (buffer ch) <= cap ch) /\
  (forall p v served rest, publishers b !! p = Some (Publishing v served rest) ->
     (forall id, id ∈ rest -> is_Some (subscribers b !! id)) /\
     (rest = [] -> forall id ch, subscribers b !! id = Some ch -> v ∈ sent ch)).
Proof.
  intros Hb. destruct (rtc_invariant _ _ _ _ step_bus Hb (New_bus_ok n)) as [Ho Hc Hp]. split.
  - intros id ch [Hid|Hid]; [apply (Ho id ch Hid)|apply (Hc id ch Hid)].
  - intros p v served rest Hpub. rewrite Forall_lookup in Hp.
    destruct (Hp p _ Hpub) as (_ & Hall & Hserved). split.
    + intros id Hid. apply Hall, elem_of_app. by right.
    + intros -> id ch Hid. rewrite app_nil_r in Hall.
      destruct (Hserved id) as (ch' & ? & ?); [apply Hall; eauto|]. by simplify_eq.
Qed.

(** A full subscriber holds up everyone: while a publisher waits for it, nobody can
    unsubscribe it. *)
Lemma publisher_locks b p v served rest :
  publishers b !! p = Some (Publishing v served rest) -> ~ unlocked (publishers b).
Proof. intros Hp Hu. unfold unlocked in Hu. rewrite Forall_lookup in Hu. by specialize (Hu p _ Hp). Qed.
End bus.

Lemma delivery_witness :
  let ch := mkChan 1 [7] [7] [] in
  let b := mkBus {[0 := ch]} 1 ∅ [Publishing 7 [0] []] in
  rtc step (New 1) b /\ sent ch = received ch ++ buffer ch.
Proof.
  intros ch b. assert (Hb : rtc step (New 1) b).
  { eapply rtc_l; [apply (step_subscribe (New 1) 1); by constructor|].
    eapply rtc_l; [eapply (step_publish _ _ _ _ 0 7 [0]); [done|repeat constructor; set_solver|]|].
    - intros id. rewrite list_elem_of_singleton, lookup_insert. simpl.
      case_decide; [subst; split; eauto|]. rewrite lookup_empty. split; [naive_solver|by intros []].
    - eapply rtc_l; [eapply (step_send _ _ _ _ 0); [done|reflexivity|simpl; lia]|].
      apply rtc_refl. }
  split; [exact Hb|]. apply (delivery 1 b Hb) with 0. left. reflexivity.
Defined.
