(* ===== verification/capacity.v ===== *)
(** * Package capacity

    Versioned capacity buckets ([internal/capacity/capacity.go]). *)

From S2P Require Import Prelude.
From S2P Require Import golang.
From S2P Require Import domain.
From S2P Require Import machine.

Open Scope Z_scope.

Record Bucket := mkBucket { Limit : Z; Used : Z; Version : Z }.

#[export] Instance Bucket_eq_dec : EqDecision Bucket.
Proof. solve_decision. Defined.

Record Book := mkBook { buckets : gmap string Bucket }.

Definition New : Book := mkBook ∅.

Definition Define (key : string) (limit : Z) (b : Book) : Book * result unit :=
  if decide (key = ""%string \/ limit <= 0) then (b, Err ErrInvalid) else
  match buckets b !! key with
  | Some _ => (b, Err ErrConflict)
  | None => (mkBook (<[key := mkBucket limit 0 1]> (buckets b)), Ok tt)
  end.

Definition Hold (key : string) (amount version : Z) (b : Book) : Book * result unit :=
  if decide (amount <= 0) then (b, Err ErrInvalid) else
  match buckets b !! key with
  | None => (b, Err ErrNotFound)
  | Some v =>
      if decide (Version v <> version) then (b, Err ErrConflict) else
      if decide (add64 (Used v) amount > Limit v) then (b, Err ErrCapacity) else
      let v := mkBucket (Limit v) (add64 (Used v) amount) (add64 (Version v) 1) in
      (mkBook (<[key := v]> (buckets b)), Ok tt)
  end.

Definition Release (key : string) (amount : Z) (b : Book) : Book * result unit :=
  if decide (amount <= 0) then (b, Err ErrInvalid) else
  match buckets b !! key with
  | None => (b, Err ErrNotFound)
  | Some v =>
      if decide (amount > Used v) then (b, Err ErrInvalid) else
      let v := mkBucket (Limit v) (sub64 (Used v) amount) (add64 (Version v) 1) in
      (mkBook (<[key := v]> (buckets b)), Ok tt)
  end.

Definition Get (key : string) (b : Book) : result Bucket :=
  match buckets b !! key with
  | None => Err ErrNotFound
  | Some v => Ok v
  end.

(** ** Sequences of calls *)

Inductive op :=
  | ODefine (key : string) (limit : Z)
  | OHold (key : string) (amount version : Z)
  | ORelease (key : string) (amount : Z).

Definition exec_op (o : op) (b : Book) : Book * result unit :=
  match o with
  | ODefine key limit => Define key limit b
  | OHold key amount version => Hold key amount version b
  | ORelease key amount => Release key amount b
  end.

Definition step (o : op) (b : Book) : Book := (exec_op o b).1.

(** What the calls that succeeded took out of a bucket, net of what they gave back. *)
Definition taken_by (key : string) (o : op) (b : Book) : Z :=
  match (exec_op o b).2, o with
  | Ok _, OHold k amount _ => if decide (k = key) then amount else 0
  | Ok _, ORelease k amount => if decide (k = key) then - amount else 0
  | _, _ => 0
  end.

Fixpoint taken (key : string) (ops : list op) (b : Book) : Z :=
  match ops with
  | [] => 0
  | o :: ops' => taken_by key o b + taken key ops' (step o b)
  end.

(** Limits and amounts whose sum is an [int64]. *)
Definition half : Z := 2 ^ 62 - 1.
Definition moderate (o : op) : Prop :=
  match o with
  | ODefine _ limit => limit <= half
  | OHold _ amount _ => amount <= half
  | ORelease _ _ => True
  end.

#[export] Instance moderate_dec o : Decision (moderate o).
Proof. destruct o; simpl; apply _. Defined.

Definition bucket_ok (v : Bucket) : Prop := 0 <= Used v <= Limit v /\ Limit v <= half.
Definition book_ok (b : Book) : Prop := map_Forall (fun _ v => bucket_ok v) (buckets b).

(** What is held in a bucket. *)
Definition held (key : string) (b : Book) : Z := from_option Used 0 (buckets b !! key).

(** One call keeps the buckets within their limits and accounts for what it took. *)
Lemma capacity_step_ok o b :
  moderate o -> book_ok b ->
  book_ok (step o b) /\ forall key, held key (step o b) = held key b + taken_by key o b.
Proof.
  intros Ho Hb. unfold step, taken_by, held.
  destruct o as [k limit|k amount version|k amount]; simpl in *; unfold Define, Hold, Release;
    (case_decide as Hpos; [simpl; split; [done|intros; lia]|]);
    destruct (buckets b !! k) as [v|] eqn:Hk; simpl; try (split; [done|intros; lia]).
  - split; [apply map_Forall_insert_2; [unfold bucket_ok; simpl; lia|done]|].
    intros key. rewrite lookup_insert. case_decide; subst; [rewrite Hk; simpl|]; lia.
  - case_decide; [simpl; split; [done|intros; lia]|]. pose proof (Hb _ _ Hk) as Hv.
    unfold bucket_ok, half in *. rewrite add64_exact by int64_lia.
    case_decide; simpl; [split; [done|intros; lia]|].
    split; [apply map_Forall_insert_2; [unfold bucket_ok, half; simpl; lia|done]|].
    intros key. rewrite lookup_insert. case_decide; subst; [rewrite Hk|]; simpl; lia.
  - case_decide; [simpl; split; [done|intros; lia]|]. pose proof (Hb _ _ Hk) as Hv.
    unfold bucket_ok, half in *. rewrite sub64_exact by int64_lia. simpl.
    split; [apply map_Forall_insert_2; [unfold bucket_ok, half; simpl; lia|done]|].
    intros key. rewrite lookup_insert. case_decide; subst; [rewrite Hk|]; simpl; lia.
Qed.

(** After any sequence of calls with limits and amounts below 2^62 every bucket
    holds between nothing and its limit, namely what the successful holds took
    minus what the successful releases gave back. *)
Theorem book_accounts ops :
  Forall moderate ops ->
  (forall key v, buckets (after step ops New) !! key = Some v -> 0 <= Used v <= Limit v) /\
  (forall key, held key (after step ops New) = taken key ops New).
Proof.
  intros Hops.
  assert (Hall : forall b, book_ok b ->
    book_ok (after step ops b) /\ forall key, held key (after step ops b) = held key b + taken key ops b).
  { induction Hops as [|o ops Ho _ IH]; intros b Hb; simpl; [split; [done|intros; lia]|].
    destruct (capacity_step_ok o b Ho Hb) as [Hb' Hheld]. destruct (IH _ Hb') as [Hb'' Hheld'].
    split; [done|]. intros key. rewrite Hheld', Hheld. lia. }
  destruct (Hall New) as [Hok Hheld]; [apply map_Forall_empty|]. split.
  - intros key v Hv. by destruct (Hok _ _ Hv).
  - intros key. rewrite Hheld. unfold held. simpl. rewrite lookup_empty. simpl. lia.
Qed.

Lemma book_accounts_witness :
  let ops := [ODefine "hold-1" 100; OHold "hold-1" 70 1; OHold "hold-1" 70 2; ORelease "hold-1" 20]%string in
  (forall key v, buckets (after step ops New) !! key = Some v -> 0 <= Used v <= Limit v) /\
  (forall key, held key (after step ops New) = taken key ops New).
Proof. apply book_accounts. apply (bool_decide_unpack _). vm_compute. exact I. Defined.

(** An amount near the end of [int64] is held although it does not fit: the sum
    wraps, and the bucket then counts a negative use. *)
Theorem Hold_overflow key v amount b :
  buckets b !! key = Some v -> 0 < Used v <= Limit v -> Limit v <= max_int64 ->
  amount <= max_int64 -> max_int64 < Used v + amount ->
  let '(b', r) := Hold key amount (Version v) b in
  r = Ok tt /\ held key b' = Used v + amount - 2 ^ 64 /\ held key b' < 0.
Proof.
  intros Hk Hused Hlim Hmax Hover. unfold Hold, held.
  rewrite decide_False by int64_lia. rewrite Hk, decide_False by naive_solver.
  rewrite add64_overflow by int64_lia. rewrite decide_False by int64_lia. simpl.
  rewrite lookup_insert_eq. simpl. split_and!; [done..|int64_lia].
Qed.

Lemma Hold_overflow_witness :
  let b := mkBook {[ "k"%string := mkBucket 100 60 2 ]} in
  let '(b', r) := Hold "k" max_int64 2 b in
  r = Ok tt /\ held "k" b' = 60 + max_int64 - 2 ^ 64 /\ held "k" b' < 0.
Proof.
  apply (Hold_overflow "k" (mkBucket 100 60 2) max_int64 (mkBook {[ "k"%string := mkBucket 100 60 2 ]}));
    [reflexivity|vm_compute; intuition discriminate|vm_compute; discriminate..|reflexivity].
Defined.
