(* ===== verification/booking.v ===== *)
(** * Package booking

    The allocation ledger of [internal/booking/booking.go]: capacities, reserved
    weights and allocations of legs, and the accounting between them. *)

From S2P Require Import Prelude.
From S2P Require Import golang.
From S2P Require Import domain.
From S2P Require Import machine.
From stdpp Require Import pretty.

Open Scope string_scope.
Open Scope list_scope.
Open Scope Z_scope.

Record Request := mkRequest {
  rq_TenantID : string; rq_ShipmentID : string; rq_LegID : string; rq_WeightKg : Z;
  rq_Priority : Z; rq_RequestedAt : Time }.

Record Allocation := mkAllocation {
  al_ID : string; al_Request : Request; al_Accepted : bool; al_Reason : string;
  al_CreatedAt : Time }.

Record Ledger := mkLedger {
  capacity : gmap string Z; reserved : gmap string Z; allocations : gmap string Allocation }.

Definition NewLedger : Ledger := mkLedger ∅ ∅ ∅.

(** A map read with the zero value for absent keys. *)
Definition get0 (m : gmap string Z) (k : string) : Z := default 0 (m !! k).

Definition zero_Request : Request := mkRequest "" "" "" 0 0 zero_time.
Definition zero_Allocation : Allocation := mkAllocation "" zero_Request false "" zero_time.

Definition DefineLeg (id : string) (cap : Z) (l : Ledger) : Ledger * result unit :=
  if decide (id = "" \/ cap <= 0) then (l, Err ErrInvalid) else
  match capacity l !! id with
  | Some _ => (l, Err ErrConflict)
  | None =>
      (mkLedger (<[id := cap]> (capacity l)) (<[id := 0]> (reserved l)) (allocations l), Ok tt)
  end.

(** [fmt.Sprintf("%s-%d", shipment, nano)] *)
Definition allocation_id (shipment : string) (nano : Z) : string := shipment +:+ "-" +:+ pretty nano.

(** [nano] and [created] are the two readings of the clock.  The error comes with
    an allocation, as in the source. *)
Definition Reserve (ctx : Context) (r : Request) (nano : Z) (created : Time) (l : Ledger)
    : Ledger * (Allocation * option error) :=
  match ctx with
  | Some err => (l, (zero_Allocation, Some err))
  | None =>
      if decide (rq_LegID r = "" \/ rq_WeightKg r <= 0)
      then (l, (zero_Allocation, Some ErrInvalid)) else
      match capacity l !! rq_LegID r with
      | None => (l, (zero_Allocation, Some ErrNotFound))
      | Some cap =>
          if decide (add64 (get0 (reserved l) (rq_LegID r)) (rq_WeightKg r) > cap)
          then (l, (mkAllocation "" r false "capacity" created, Some ErrCapacity)) else
          let id := allocation_id (rq_ShipmentID r) nano in
          let a := mkAllocation id r true "" created in
          (mkLedger (capacity l)
             (<[rq_LegID r := add64 (get0 (reserved l) (rq_LegID r)) (rq_WeightKg r)]> (reserved l))
             (<[id := a]> (allocations l)), (a, None))
      end
  end.

Definition released (a : Allocation) : Allocation :=
  let 'mkAllocation id r _ _ at_ := a in mkAllocation id r false "released" at_.

Definition Release (id : string) (l : Ledger) : Ledger * result unit :=
  match allocations l !! id with
  | None => (l, Err ErrNotFound)
  | Some a =>
      if negb (al_Accepted a) then (l, Ok tt) else
      let leg := rq_LegID (al_Request a) in
      (mkLedger (capacity l)
         (<[leg := sub64 (get0 (reserved l) leg) (rq_WeightKg (al_Request a))]> (reserved l))
         (<[id := released a]> (allocations l)), Ok tt)
  end.

Definition Available (id : string) (l : Ledger) : result Z :=
  match capacity l !! id with
  | None => Err ErrNotFound
  | Some cap => Ok (sub64 cap (get0 (reserved l) id))
  end.

Definition List `{SortSlice} (order : list string) (tenant : string) (l : Ledger) : list Allocation :=
  sort_Slice (less_on al_CreatedAt)
    (filter (fun a => rq_TenantID (al_Request a) = tenant) (range_values (allocations l) order)).

(** ** Accounting *)

Inductive op :=
  | ODefineLeg (id : string) (cap : Z)
  | OReserve (ctx : Context) (r : Request) (nano : Z) (created : Time)
  | ORelease (id : string).

Definition step (o : op) (l : Ledger) : Ledger :=
  match o with
  | ODefineLeg id cap => (DefineLeg id cap l).1
  | OReserve ctx r nano created => (Reserve ctx r nano created l).1
  | ORelease id => (Release id l).1
  end.

(** What an allocation holds on a leg. *)
Definition weight_on (leg : string) (a : Allocation) : Z :=
  if decide (al_Accepted a = true /\ rq_LegID (al_Request a) = leg)
  then rq_WeightKg (al_Request a) else 0.

Definition half : Z := 2 ^ 62 - 1.

(** Weights and capacities whose sum is an [int64], and an allocation identifier
    not given before: the clock moved between two requests for a shipment. *)
Definition admissible (o : op) (l : Ledger) : Prop :=
  match o with
  | ODefineLeg _ cap => cap <= half
  | OReserve _ r nano _ =>
      rq_WeightKg r <= half /\ allocations l !! allocation_id (rq_ShipmentID r) nano = None
  | ORelease _ => True
  end.

#[export] Instance admissible_dec o l : Decision (admissible o l).
Proof. destruct o; simpl; apply _. Defined.

Record ledger_ok (l : Ledger) : Prop := {
  ok_reserved leg : get0 (reserved l) leg = map_sum (weight_on leg) (allocations l);
  ok_fits leg cap : capacity l !! leg = Some cap ->
    get0 (reserved l) leg <= cap /\ cap <= half;
  ok_weights id a : allocations l !! id = Some a -> al_Accepted a = true ->
    0 < rq_WeightKg (al_Request a) /\ is_Some (capacity l !! rq_LegID (al_Request a)) }.

Lemma get0_insert m k v j : get0 (<[k := v]> m) j = if decide (k = j) then v else get0 m j.
Proof. unfold get0. rewrite lookup_insert. by case_decide. Qed.

Lemma reserved_nonneg l leg : ledger_ok l -> 0 <= get0 (reserved l) leg.
Proof.
  intros [Hr _ Hw]. rewrite Hr. apply map_sum_nonneg. intros id a Ha. unfold weight_on.
  case_decide as Hacc; [|done]. destruct Hacc as [Hacc _]. destruct (Hw id a Ha Hacc). lia.
Qed.

(** An accepted allocation is within the capacity of its leg. *)
Lemma accepted_bounded l id a :
  ledger_ok l -> allocations l !! id = Some a -> al_Accepted a = true ->
  rq_WeightKg (al_Request a) <= get0 (reserved l) (rq_LegID (al_Request a)).
Proof.
  intros Hl Ha Hacc. pose proof Hl as [Hr _ Hw]. rewrite Hr, (map_sum_delete _ _ _ _ Ha).
  assert (0 <= map_sum (weight_on (rq_LegID (al_Request a))) (delete id (allocations l))).
  { apply map_sum_nonneg. intros j b [_ Hb]%lookup_delete_Some. unfold weight_on.
    case_decide as Hacc'; [|done]. destruct Hacc' as [Hacc' _]. destruct (Hw j b Hb Hacc'). lia. }
  unfold weight_on at 1. rewrite decide_True by done. lia.
Qed.

Lemma DefineLeg_ok id cap l : cap <= half -> ledger_ok l -> ledger_ok (DefineLeg id cap l).1.
Proof.
  intros Hcap Hl. unfold DefineLeg. case_decide as Hpos; [done|].
  destruct (capacity l !! id) eqn:Hid; [done|]. simpl.
  assert (Hzero : get0 (reserved l) id = 0).
  { destruct Hl as [Hr _ Hw]. rewrite Hr. apply map_sum_zero. intros k a Ha. unfold weight_on.
    case_decide as Hacc; [|done]. destruct Hacc as [Hacc <-]. destruct (Hw k a Ha Hacc) as [_ [? ?]].
    congruence. }
  destruct Hl as [Hr Hf Hw]. split; simpl.
  - intros leg. rewrite get0_insert. case_decide; subst; [by rewrite <- Hzero|apply Hr].
  - intros leg c. rewrite lookup_insert, get0_insert. case_decide; [intros [= <-]; lia|apply Hf].
  - intros k a Ha Hacc. destruct (Hw k a Ha Hacc). split; [done|].
    rewrite lookup_insert. by case_decide.
Qed.

Lemma Reserve_ok ctx r nano created l :
  rq_WeightKg r <= half -> allocations l !! allocation_id (rq_ShipmentID r) nano = None ->
  ledger_ok l -> ledger_ok (Reserve ctx r nano created l).1.
Proof.
  intros Hw Hfresh Hl. unfold Reserve. destruct ctx; [done|]. case_decide as Hpos; [done|].
  destruct (capacity l !! rq_LegID r) as [cap|] eqn:Hcap; [|done].
  pose proof (reserved_nonneg l (rq_LegID r) Hl) as Hres.
  destruct (ok_fits l Hl _ _ Hcap) as [Hfit Hhalf].
  rewrite add64_exact by (unfold half in *; int64_lia). case_decide; [done|]. simpl.
  split; simpl.
  - intros leg. rewrite get0_insert, map_sum_insert by done. unfold weight_on at 1. simpl.
    rewrite <- (ok_reserved l Hl leg). repeat case_decide; subst; try lia; naive_solver.
  - intros leg c Hc. rewrite get0_insert. case_decide; subst; [|by apply (ok_fits l Hl)].
    simplify_eq. lia.
  - intros k a. rewrite lookup_insert. case_decide; [|by apply (ok_weights l Hl)].
    intros [= <-] _. simpl. split; [lia|by eexists].
Qed.

Lemma Release_ok id l : ledger_ok l -> ledger_ok (Release id l).1.
Proof.
  intros Hl. unfold Release. destruct (allocations l !! id) as [a|] eqn:Ha; [|done].
  destruct (al_Accepted a) eqn:Hacc; [|done]. simpl.
  pose proof (accepted_bounded l id a Hl Ha Hacc) as Hle.
  destruct (ok_weights l Hl id a Ha Hacc) as [Hpos [cap Hcap]].
  destruct (ok_fits l Hl _ _ Hcap) as [Hfit Hhalf].
  rewrite sub64_exact by (unfold half in *; int64_lia). split; simpl.
  - intros leg. rewrite get0_insert, (map_sum_update _ _ _ _ _ Ha), <- (ok_reserved l Hl leg).
    unfold weight_on. destruct a; simpl in *. repeat case_decide; subst; try lia; naive_solver.
  - intros leg c Hc. rewrite get0_insert. case_decide; subst; [|by apply (ok_fits l Hl)].
    simplify_eq. lia.
  - intros k b. rewrite lookup_insert. case_decide; [|by apply (ok_weights l Hl)].
    intros [= <-] Hrel. by destruct a.
Qed.

Lemma booking_step_ok o l : admissible o l -> ledger_ok l -> ledger_ok (step o l).
Proof.
  destruct o; simpl; intros Ho Hl;
    [by apply DefineLeg_ok|destruct Ho; by apply Reserve_ok|by apply Release_ok].
Qed.

Lemma NewLedger_ok : ledger_ok NewLedger.
Proof.
  split; simpl; done.
Qed.

(** C36. The ledger balances: after any calls whose allocation identifiers were
    fresh and whose weights and capacities are below 2^62, what is available on a
    leg is its capacity less the weights of the allocations still accepted on it,
    and it is never negative. *)
Theorem ledger_balances ops leg cap :
  legal step admissible ops NewLedger ->
  capacity (after step ops NewLedger) !! leg = Some cap ->
  let taken := map_sum (weight_on leg) (allocations (after step ops NewLedger)) in
  Available leg (after step ops NewLedger) = Ok (cap - taken) /\ 0 <= cap - taken.
Proof.
  intros Hlegal Hcap.
  assert (Hl : ledger_ok (after step ops NewLedger)).
  { eapply after_invariant; [apply booking_step_ok|exact Hlegal|apply NewLedger_ok]. }
  pose proof (reserved_nonneg _ leg Hl). destruct (ok_fits _ Hl _ _ Hcap).
  unfold Available. rewrite Hcap, <- (ok_reserved _ Hl leg).
  rewrite sub64_exact by (unfold half in *; int64_lia). split; [done|lia].
Qed.

Definition sample_request (weight : Z) : Request := mkRequest "acme" "S1" "L1" weight 0 0.

Lemma ledger_balances_witness :
  let ops := [ODefineLeg "L1" 100; OReserve None (sample_request 60) 5 5;
              OReserve None (sample_request 60) 6 6; ORelease "S1-5";
              OReserve None (sample_request 70) 7 7] in
  let l := after step ops NewLedger in
  let taken := map_sum (weight_on "L1") (allocations l) in
  Available "L1" l = Ok (100 - taken) /\ 0 <= 100 - taken.
Proof.
  apply (ledger_balances [ODefineLeg "L1" 100; OReserve None (sample_request 60) 5 5;
              OReserve None (sample_request 60) 6 6; ORelease "S1-5";
              OReserve None (sample_request 70) 7 7] "L1" 100).
  - apply (bool_decide_unpack _). vm_compute. exact I.
  - vm_compute. reflexivity.
Defined.

Lemma Reserve_accepts r nano created l cap :
  rq_LegID r <> "" -> 0 < rq_WeightKg r -> capacity l !! rq_LegID r = Some cap ->
  in_int64 (get0 (reserved l) (rq_LegID r) + rq_WeightKg r) ->
  get0 (reserved l) (rq_LegID r) + rq_WeightKg r <= cap ->
  let a := mkAllocation (allocation_id (rq_ShipmentID r) nano) r true "" created in
  Reserve None r nano created l =
  (mkLedger (capacity l)
     (<[rq_LegID r := get0 (reserved l) (rq_LegID r) + rq_WeightKg r]> (reserved l))
     (<[al_ID a := a]> (allocations l)), (a, None)).
Proof.
  intros Hleg Hw Hcap Hint Hfit a. unfold Reserve.
  rewrite decide_False by (intros [?|?]; [done|lia]).
  by rewrite Hcap, add64_exact, decide_False by (done || lia).
Qed.

Lemma Release_accepted id l a :
  allocations l !! id = Some a -> al_Accepted a = true ->
  let leg := rq_LegID (al_Request a) in
  Release id l =
  (mkLedger (capacity l)
     (<[leg := sub64 (get0 (reserved l) leg) (rq_WeightKg (al_Request a))]> (reserved l))
     (<[id := released a]> (allocations l)), Ok tt).
Proof. intros Ha Hacc leg. unfold Release. by rewrite Ha, Hacc. Qed.

Lemma Release_released id l a :
  allocations l !! id = Some a -> al_Accepted a = false -> Release id l = (l, Ok tt).
Proof. intros Ha Hacc. unfold Release. by rewrite Ha, Hacc. Qed.

(** When the clock reads the same twice for one shipment, the second allocation
    replaces the first: the weight is counted twice, and releasing all that is left
    to release frees it once. *)
Theorem Reserve_same_instant r nano at1 at2 l cap used :
  rq_LegID r <> "" -> 0 < rq_WeightKg r -> capacity l !! rq_LegID r = Some cap ->
  reserved l !! rq_LegID r = Some used -> 0 <= used -> used + 2 * rq_WeightKg r <= cap <= half ->
  let id := allocation_id (rq_ShipmentID r) nano in
  let l' := after step [OReserve None r nano at1; OReserve None r nano at2; ORelease id; ORelease id] l in
  al_Accepted <$> allocations l' !! id = Some false /\
  Available (rq_LegID r) l' = Ok (cap - used - rq_WeightKg r).
Proof.
  intros Hleg Hw Hcap Hused H0 Hfit id l'.
  assert (Hget : get0 (reserved l) (rq_LegID r) = used) by (unfold get0; by rewrite Hused).
  assert (Hl : l' = mkLedger (capacity l)
      (<[rq_LegID r := used + rq_WeightKg r]> (reserved l))
      (<[id := mkAllocation id r false "released" at2]> (allocations l))).
  { unfold l'. cbn [after step].
    rewrite (Reserve_accepts r nano at1 l cap)
      by (unfold half in *; try done; rewrite ?Hget; int64_lia). cbn [fst].
    rewrite (Reserve_accepts r nano at2 _ cap)
      by (unfold half in *; try done; simpl; rewrite ?get0_insert, ?decide_True, ?Hget by done; int64_lia).
    cbn [fst capacity reserved allocations al_ID]. fold id.
    rewrite get0_insert, decide_True, Hget by done.
    rewrite (Release_accepted id (mkLedger _ _ _) (mkAllocation id r true "" at2)) by (done || (simpl; apply lookup_insert_eq)).
    cbn [fst]. rewrite (Release_released id (mkLedger _ _ _) (mkAllocation id r false "released" at2))
      by (done || (simpl; apply lookup_insert_eq)).
    cbn [fst capacity reserved allocations al_Request released].
    rewrite get0_insert, decide_True by done. rewrite !insert_insert_eq. f_equal.
    rewrite sub64_exact by (unfold half in *; int64_lia). f_equal. lia. }
  rewrite Hl. cbn [allocations]. rewrite lookup_insert_eq. split; [done|].
  unfold Available. cbn [capacity reserved]. rewrite Hcap, get0_insert, decide_True by done.
  f_equal. rewrite sub64_exact by (unfold half in *; int64_lia). lia.
Qed.

Lemma Reserve_same_instant_witness :
  let l := mkLedger {["L1" := 100]} {["L1" := 0]} ∅ in
  let l' := after step [OReserve None (sample_request 40) 5 5; OReserve None (sample_request 40) 5 5;
                        ORelease "S1-5"; ORelease "S1-5"] l in
  al_Accepted <$> allocations l' !! "S1-5" = Some false /\ Available "L1" l' = Ok 60.
Proof.
  apply (Reserve_same_instant (sample_request 40) 5 5 5 (mkLedger {["L1" := 100]} {["L1" := 0]} ∅) 100 0);
    try reflexivity; vm_compute; intuition discriminate.
Defined.
