(* ===== verification/warehouse.v ===== *)
(** * Package warehouse

    Slots of a warehouse and their bookings ([internal/warehouse/slot.go]). *)

From Stdlib Require Import SpecFloat.
From S2P Require Import Prelude.
From S2P Require Import golang.
From S2P Require Import domain.
From S2P Require Import machine.

Open Scope string_scope.
Open Scope list_scope.
Open Scope Z_scope.

Record Slot := mkSlot {
  sl_ID : string; sl_Terminal : string; sl_Zone : string; sl_MaxKg : Z; sl_UsedKg : Z;
  sl_OpenAt : Time; sl_CloseAt : Time }.

Record Booking := mkBooking {
  bk_ID : string; bk_ShipmentID : string; bk_SlotID : string; bk_WeightKg : Z;
  bk_Start : Time; bk_End : Time }.

Record Calendar := mkCalendar { slots : gmap string Slot; bookings : gmap string Booking }.

Definition New : Calendar := mkCalendar ∅ ∅.

Definition zero_Slot : Slot := mkSlot "" "" "" 0 0 zero_time zero_time.

Definition set_UsedKg (w : Z) (s : Slot) : Slot :=
  let 'mkSlot a b c d _ f g := s in mkSlot a b c d w f g.

Definition Add (s : Slot) (c : Calendar) : Calendar * result unit :=
  if decide (sl_ID s = "" \/ sl_Terminal s = "" \/ sl_MaxKg s <= 0
             \/ ~ sl_OpenAt s < sl_CloseAt s)
  then (c, Err ErrInvalid) else
  match slots c !! sl_ID s with
  | Some _ => (c, Err ErrConflict)
  | None => (mkCalendar (<[sl_ID s := s]> (slots c)) (bookings c), Ok tt)
  end.

(** Two bookings want the same slot at the same time. *)
Definition clash (b old : Booking) : Prop :=
  bk_SlotID old = bk_SlotID b /\ bk_Start b < bk_End old /\ bk_Start old < bk_End b.

#[export] Instance clash_dec b old : Decision (clash b old).
Proof. unfold clash. apply _. Defined.

(** The loop over [c.bookings] only asks whether there is a clash. *)
Definition Book (ctx : Context) (b : Booking) (c : Calendar) : Calendar * result unit :=
  match ctx with
  | Some err => (c, Err err)
  | None =>
      if decide (bk_ID b = "" \/ bk_ShipmentID b = "" \/ bk_SlotID b = "" \/ bk_WeightKg b <= 0
                 \/ ~ bk_Start b < bk_End b)
      then (c, Err ErrInvalid) else
      match slots c !! bk_SlotID b with
      | None => (c, Err ErrNotFound)
      | Some s =>
          if decide (bk_Start b < sl_OpenAt s \/ sl_CloseAt s < bk_End b
                     \/ add64 (sl_UsedKg s) (bk_WeightKg b) > sl_MaxKg s)
          then (c, Err ErrCapacity) else
          if decide (Exists (clash b) (map_to_list (bookings c)).*2)
          then (c, Err ErrConflict) else
          (mkCalendar (<[bk_SlotID b := set_UsedKg (add64 (sl_UsedKg s) (bk_WeightKg b)) s]> (slots c))
             (<[bk_ID b := b]> (bookings c)), Ok tt)
      end
  end.

Definition Cancel (id : string) (c : Calendar) : Calendar * result unit :=
  match bookings c !! id with
  | None => (c, Err ErrNotFound)
  | Some b =>
      let s := default zero_Slot (slots c !! bk_SlotID b) in
      (mkCalendar (<[bk_SlotID b := set_UsedKg (sub64 (sl_UsedKg s) (bk_WeightKg b)) s]> (slots c))
         (delete id (bookings c)), Ok tt)
  end.

Definition Utilization (id : string) (c : Calendar) : result float64 :=
  match slots c !! id with
  | None => Err ErrNotFound
  | Some s => Ok (div_float64 (float64_of_int (sl_UsedKg s)) (float64_of_int (sl_MaxKg s)))
  end.

(** ** Sequences of calls *)

Inductive op :=
  | OAdd (s : Slot)
  | OBook (ctx : Context) (b : Booking)
  | OCancel (id : string).

Definition step (o : op) (c : Calendar) : Calendar :=
  match o with
  | OAdd s => (Add s c).1
  | OBook ctx b => (Book ctx b c).1
  | OCancel id => (Cancel id c).1
  end.

Lemma no_clash b c :
  ~ Exists (clash b) (map_to_list (bookings c)).*2 ->
  forall k old, bookings c !! k = Some old -> ~ clash b old.
Proof.
  intros Hno k old Hk Hclash. apply Hno, Exists_exists. exists old. split; [|done].
  apply list_elem_of_fmap. exists (k, old). split; [done|]. by apply elem_of_map_to_list.
Qed.

(** *** The schedule *)

(** Every booking lies within the hours of its slot, and two bookings of a slot
    do not overlap. *)
Definition within_hours (c : Calendar) (b : Booking) : Prop :=
  bk_Start b < bk_End b /\ exists s, slots c !! bk_SlotID b = Some s /\
    sl_OpenAt s <= bk_Start b /\ bk_End b <= sl_CloseAt s.

Definition disjoint_bookings (b b' : Booking) : Prop :=
  bk_SlotID b = bk_SlotID b' -> bk_End b <= bk_Start b' \/ bk_End b' <= bk_Start b.

Record schedule_ok (c : Calendar) : Prop := {
  ok_hours k b : bookings c !! k = Some b -> within_hours c b;
  ok_disjoint k k' b b' : bookings c !! k = Some b -> bookings c !! k' = Some b' -> k <> k' ->
    disjoint_bookings b b' }.

(** The slots keep their hours. *)
Lemma within_hours_slots c c' b :
  (forall k s, slots c !! k = Some s -> exists s', slots c' !! k = Some s' /\
     sl_OpenAt s' = sl_OpenAt s /\ sl_CloseAt s' = sl_CloseAt s) ->
  within_hours c b -> within_hours c' b.
Proof.
  intros Hs [Hb (s & Hk & Ho & Hc)]. split; [done|].
  destruct (Hs _ _ Hk) as (s' & Hk' & Ho' & Hc'). exists s'. by rewrite Ho', Hc'.
Qed.

Lemma slots_update c k s w bs :
  slots c !! k = Some s -> forall j x, slots c !! j = Some x ->
  exists s', slots (mkCalendar (<[k := set_UsedKg w s]> (slots c)) bs) !! j = Some s' /\
    sl_OpenAt s' = sl_OpenAt x /\ sl_CloseAt s' = sl_CloseAt x.
Proof.
  intros Hk j x Hj. simpl. rewrite lookup_insert. case_decide; subst; [|by exists x].
  assert (x = s) as -> by congruence. eexists. split; [done|]. by destruct s.
Qed.

Lemma step_schedule o c : schedule_ok c -> schedule_ok (step o c).
Proof.
  intros [Hh Hd]. destruct o as [s|ctx b|id]; simpl.
  - unfold Add. case_decide; [done|]. destruct (slots c !! sl_ID s) eqn:Hk; [done|]. split; simpl.
    + intros k b Hb. eapply within_hours_slots; [|by eapply Hh]. intros j x Hj. exists x. simpl.
      rewrite lookup_insert_ne; [done|congruence].
    + done.
  - unfold Book. destruct ctx; [done|]. case_decide as Hv; [done|].
    destruct (slots c !! bk_SlotID b) as [s|] eqn:Hs; [|done]. case_decide as Hcap; [done|].
    case_decide as Hno; [done|]. pose proof (no_clash _ _ Hno) as Hclash. split; simpl.
    + intros k x. rewrite lookup_insert. intros Hx. case_decide; [injection Hx as <-|].
      * split; [lia|]. exists (set_UsedKg (add64 (sl_UsedKg s) (bk_WeightKg b)) s). simpl.
        rewrite lookup_insert_eq. split; [done|]. destruct s; simpl in *. lia.
      * eapply within_hours_slots; [by apply slots_update|by eapply Hh].
    + intros k k' x x'. rewrite !lookup_insert. unfold disjoint_bookings, clash in *.
      repeat case_decide; intros Hx Hx' Hkk; simplify_eq; try done.
      * intros Hsl. specialize (Hclash _ _ Hx').
        destruct (decide (bk_Start x < bk_End x')), (decide (bk_Start x' < bk_End x));
          [by destruct Hclash|lia..].
      * intros Hsl. specialize (Hclash _ _ Hx).
        destruct (decide (bk_Start x' < bk_End x)), (decide (bk_Start x < bk_End x'));
          [by destruct Hclash|lia..].
      * by apply (Hd k k').
  - unfold Cancel. destruct (bookings c !! id) as [b|] eqn:Hb; [|done].
    destruct (Hh _ _ Hb) as (_ & s & Hs & _). rewrite Hs. split; simpl.
    + intros k x [_ Hx]%lookup_delete_Some.
      eapply within_hours_slots; [by apply slots_update|by eapply Hh].
    + intros k k' x x' [_ Hx]%lookup_delete_Some [_ Hx']%lookup_delete_Some. by apply (Hd k k').
Qed.

(** C37. Whatever is called, in whatever order, every booking lies within the hours of
    its slot, which is in the calendar, and overlaps no other booking of that slot. *)
Theorem calendar_never_overlaps ops k b :
  let c := after step ops New in
  bookings c !! k = Some b ->
  within_hours c b /\
  (forall k' b', bookings c !! k' = Some b' -> k' <> k -> bk_SlotID b' = bk_SlotID b ->
     bk_End b <= bk_Start b' \/ bk_End b' <= bk_Start b).
Proof.
  intros c Hb.
  assert (Hc : schedule_ok c) by (apply after_stable; [apply step_schedule|by split]).
  destruct Hc as [Hh Hd]. split; [by eapply Hh|]. intros k' b' Hb' Hk Hs. by apply (Hd k k').
Qed.

(** *** The weights *)

Definition half : Z := 2 ^ 62 - 1.

Definition weight_in (slot : string) (b : Booking) : Z :=
  if decide (bk_SlotID b = slot) then bk_WeightKg b else 0.

(** A slot that is added empty, weights below 2^62, and a booking identifier that
    is not in use. *)
Definition admissible (o : op) (c : Calendar) : Prop :=
  match o with
  | OAdd s => sl_UsedKg s = 0 /\ sl_MaxKg s <= half
  | OBook _ b => bk_WeightKg b <= half /\ bookings c !! bk_ID b = None
  | OCancel _ => True
  end.

#[export] Instance admissible_dec o c : Decision (admissible o c).
Proof. destruct o; simpl; apply _. Defined.

Record weights_ok (c : Calendar) : Prop := {
  ok_booking k b : bookings c !! k = Some b -> 0 < bk_WeightKg b /\ is_Some (slots c !! bk_SlotID b);
  ok_slot k s : slots c !! k = Some s ->
    sl_UsedKg s = map_sum (weight_in k) (bookings c) /\ sl_UsedKg s <= sl_MaxKg s <= half }.

Lemma weights_nonneg c m k :
  weights_ok c -> (forall j b, m !! j = Some b -> bookings c !! j = Some b) ->
  0 <= map_sum (weight_in k) m.
Proof.
  intros [Hb _] Hm. apply map_sum_nonneg. intros j b Hj%Hm. destruct (Hb _ _ Hj).
  unfold weight_in. case_decide; lia.
Qed.

Lemma step_weights o c : admissible o c -> weights_ok c -> weights_ok (step o c).
Proof.
  intros Ho Hc. pose proof Hc as [Hb Hs]. destruct o as [s|ctx b|id]; simpl in *.
  - unfold Add. case_decide as Hv; [done|]. destruct (slots c !! sl_ID s) eqn:Hk; [done|]. split; simpl.
    + intros k b Hkb. destruct (Hb _ _ Hkb) as [? Hsl]. split; [done|].
      rewrite lookup_insert. by case_decide.
    + intros k x. rewrite lookup_insert. case_decide; [intros [= <-]; subst|apply Hs].
      rewrite map_sum_zero; [split; [lia|destruct Ho; lia]|]. intros k b Hkb. unfold weight_in. case_decide; [|done].
      destruct (Hb _ _ Hkb) as [_ [? Hsl]]. congruence.
  - unfold Book. destruct ctx; [done|]. case_decide as Hv; [done|].
    destruct (slots c !! bk_SlotID b) as [s|] eqn:Hk; [|done]. destruct (Hs _ _ Hk) as [Hu Hmax].
    pose proof (weights_nonneg c (bookings c) (bk_SlotID b) Hc (fun _ _ H => H)) as H0.
    destruct Ho as [Hw Hfresh].
    rewrite add64_exact by (unfold half in *; int64_lia). case_decide; [done|]. case_decide; [done|].
    split; simpl.
    + intros k x. rewrite !lookup_insert. case_decide; [intros [= <-]|intros Hx].
      * split; [lia|]. by rewrite decide_True.
      * destruct (Hb _ _ Hx). split; [done|]. by case_decide.
    + intros k x. rewrite lookup_insert, map_sum_insert by done. unfold weight_in at 1.
      case_decide; [intros [= <-]; subst; destruct s; simpl in *; lia|]. intros Hx.
      destruct (Hs _ _ Hx). lia.
  - unfold Cancel. destruct (bookings c !! id) as [b|] eqn:Hid; [|done].
    destruct (Hb _ _ Hid) as [Hpos [s Hk]]. rewrite Hk. simpl. destruct (Hs _ _ Hk) as [Hu Hmax].
    assert (H0 : 0 <= map_sum (weight_in (bk_SlotID b)) (delete id (bookings c))).
    { apply (weights_nonneg c); [done|]. by intros j x [_ ?]%lookup_delete_Some. }
    assert (Hsum : sl_UsedKg s = bk_WeightKg b + map_sum (weight_in (bk_SlotID b)) (delete id (bookings c))).
    { rewrite Hu, (map_sum_delete _ _ _ _ Hid). unfold weight_in at 1. by rewrite decide_True. }
    rewrite sub64_exact by (unfold half in *; int64_lia). split; simpl.
    + intros k x [_ Hx]%lookup_delete_Some. destruct (Hb _ _ Hx). split; [done|].
      rewrite lookup_insert. by case_decide.
    + intros k x. rewrite lookup_insert. case_decide as Heq; [intros [= <-]; subst; destruct s; simpl in *; lia|].
      intros Hx. destruct (Hs _ _ Hx) as [Hux Hmx]. split; [|done].
      rewrite Hux, (map_sum_delete _ _ _ _ Hid). unfold weight_in at 1. rewrite decide_False by done. lia.
Qed.

(** A slot is used by exactly the weights of its bookings and never beyond its
    maximum, after any calls that add empty slots and use new booking identifiers. *)
Theorem calendar_accounts ops k s :
  legal step admissible ops New -> slots (after step ops New) !! k = Some s ->
  sl_UsedKg s = map_sum (weight_in k) (bookings (after step ops New)) /\ sl_UsedKg s <= sl_MaxKg s.
Proof.
  intros Hops Hk. assert (Hc : weights_ok (after step ops New)).
  { eapply after_invariant; [apply step_weights|exact Hops|by split]. }
  by destruct (ok_slot _ Hc _ _ Hk) as (? & ? & _).
Qed.

Definition sample_slot : Slot := mkSlot "A" "T1" "Z" 100 0 0 50.
Definition sample_booking (id : string) (from to : Time) : Booking := mkBooking id "S" "A" 40 from to.
Definition sample_ops : list op :=
  [OAdd sample_slot; OBook None (sample_booking "b1" 1 5); OBook None (sample_booking "b2" 4 8);
   OBook None (sample_booking "b3" 5 9); OBook None (sample_booking "b4" 10 11); OCancel "b3"].

Lemma calendar_never_overlaps_witness :
  let c := after step (take 4 sample_ops) New in
  within_hours c (sample_booking "b1" 1 5) /\
  exists b', bookings c !! "b3" = Some b' /\ (5 <= bk_Start b' \/ bk_End b' <= 1).
Proof.
  intros c. destruct (calendar_never_overlaps (take 4 sample_ops) "b1" (sample_booking "b1" 1 5)) as [Hh Hd].
  - vm_compute. reflexivity.
  - split; [exact Hh|]. exists (sample_booking "b3" 5 9). split; [vm_compute; reflexivity|].
    exact (Hd "b3" (sample_booking "b3" 5 9) ltac:(vm_compute; reflexivity) ltac:(discriminate) eq_refl).
Defined.

Lemma calendar_accounts_witness : exists s,
  slots (after step sample_ops New) !! "A" = Some s /\ sl_UsedKg s = 40 /\
  sl_UsedKg s = map_sum (weight_in "A") (bookings (after step sample_ops New)) /\
  sl_UsedKg s <= sl_MaxKg s.
Proof.
  eexists. split; [vm_compute; reflexivity|]. split; [reflexivity|].
  apply (calendar_accounts sample_ops "A"); [apply (bool_decide_unpack _); vm_compute; exact I|].
  vm_compute. reflexivity.
Defined.
