(* ===== verification/transport.v ===== *)
(** * Package transport

    Vehicles and their assignments ([internal/transport/assignment.go]). *)

From S2P Require Import Prelude.
From S2P Require Import golang.
From S2P Require Import domain.
From S2P Require Import machine.

Open Scope string_scope.
Open Scope list_scope.
Open Scope Z_scope.

Record Vehicle := mkVehicle {
  v_ID : string; v_Registration : string; v_Carrier : string; v_MaxKg : Z;
  v_AvailableFrom : Time; v_AvailableTo : Time }.

Record Assignment := mkAssignment {
  as_ID : string; as_ShipmentID : string; as_VehicleID : string; as_WeightKg : Z;
  as_Status : string; as_AssignedAt : Time }.

Record Planner := mkPlanner { vehicles : gmap string Vehicle; assignments : gmap string Assignment }.

Definition New : Planner := mkPlanner ∅ ∅.

Definition AddVehicle (v : Vehicle) (p : Planner) : Planner * result unit :=
  if decide (v_ID v = "" \/ v_Registration v = "" \/ v_MaxKg v <= 0
             \/ ~ v_AvailableFrom v < v_AvailableTo v)
  then (p, Err ErrInvalid) else
  match vehicles p !! v_ID v with
  | Some _ => (p, Err ErrConflict)
  | None => (mkPlanner (<[v_ID v := v]> (vehicles p)) (assignments p), Ok tt)
  end.

(** An assignment that keeps its vehicle. *)
Definition holds_vehicle (vehicle : string) (old : Assignment) : Prop :=
  as_VehicleID old = vehicle /\ as_Status old <> "cancelled".

#[export] Instance holds_vehicle_dec vehicle old : Decision (holds_vehicle vehicle old).
Proof. unfold holds_vehicle. apply _. Defined.

Definition assigned (at_ : Time) (a : Assignment) : Assignment :=
  mkAssignment (as_ID a) (as_ShipmentID a) (as_VehicleID a) (as_WeightKg a) "assigned" at_.

Definition Assign (ctx : Context) (a : Assignment) (at_ : Time) (p : Planner)
    : Planner * result unit :=
  match ctx with
  | Some err => (p, Err err)
  | None =>
      if decide (as_ID a = "" \/ as_ShipmentID a = "" \/ as_VehicleID a = "" \/ as_WeightKg a <= 0)
      then (p, Err ErrInvalid) else
      match vehicles p !! as_VehicleID a with
      | None => (p, Err ErrNotFound)
      | Some v =>
          if decide (as_WeightKg a > v_MaxKg v \/ at_ < v_AvailableFrom v \/ ~ at_ < v_AvailableTo v)
          then (p, Err ErrCapacity) else
          if decide (Exists (holds_vehicle (as_VehicleID a)) (map_to_list (assignments p)).*2)
          then (p, Err ErrConflict) else
          (mkPlanner (vehicles p) (<[as_ID a := assigned at_ a]> (assignments p)), Ok tt)
      end
  end.

Definition Complete (id : string) (p : Planner) : Planner * result unit :=
  match assignments p !! id with
  | None => (p, Err ErrNotFound)
  | Some a =>
      if decide (as_Status a <> "assigned") then (p, Err ErrState) else
      let a := mkAssignment (as_ID a) (as_ShipmentID a) (as_VehicleID a) (as_WeightKg a)
                 "completed" (as_AssignedAt a) in
      (mkPlanner (vehicles p) (<[id := a]> (assignments p)), Ok tt)
  end.

Definition List `{SortSlice} (order : list string) (vehicle : string) (p : Planner)
    : list Assignment :=
  sort_Slice (less_on as_AssignedAt)
    (filter (fun a => vehicle = "" \/ as_VehicleID a = vehicle) (range_values (assignments p) order)).

Definition Describe (id : string) (p : Planner) : result Assignment :=
  match assignments p !! id with
  | None => Err (Errorf "" ErrNotFound ": assignment")
  | Some a => Ok a
  end.

(** ** Sequences of calls *)

Inductive op :=
  | OAddVehicle (v : Vehicle)
  | OAssign (ctx : Context) (a : Assignment) (at_ : Time)
  | OComplete (id : string).

Definition step (o : op) (p : Planner) : Planner :=
  match o with
  | OAddVehicle v => (AddVehicle v p).1
  | OAssign ctx a at_ => (Assign ctx a at_ p).1
  | OComplete id => (Complete id p).1
  end.

(** An assignment suits its vehicle. *)
Definition suits (p : Planner) (a : Assignment) : Prop :=
  (as_Status a = "assigned" \/ as_Status a = "completed") /\
  exists v, vehicles p !! as_VehicleID a = Some v /\ 0 < as_WeightKg a <= v_MaxKg v /\
    v_AvailableFrom v <= as_AssignedAt a < v_AvailableTo v.

Record fleet_ok (p : Planner) : Prop := {
  ok_suits k a : assignments p !! k = Some a -> suits p a;
  ok_exclusive k k' a a' : assignments p !! k = Some a -> assignments p !! k' = Some a' ->
    as_VehicleID a = as_VehicleID a' -> k = k' }.

Lemma suits_vehicles p p' a :
  (forall k v, vehicles p !! k = Some v -> vehicles p' !! k = Some v) -> suits p a -> suits p' a.
Proof. intros Hv [Hs (v & Hk & ?)]. split; [done|]. exists v. auto. Qed.

Lemma elem_of_assignments p a :
  a ∈ (map_to_list (assignments p)).*2 <-> exists k, assignments p !! k = Some a.
Proof.
  rewrite list_elem_of_fmap. split.
  - intros ([k b] & -> & Hk%elem_of_map_to_list). by exists k.
  - intros [k Hk]. exists (k, a). split; [done|]. by apply elem_of_map_to_list.
Qed.

Lemma step_fleet o p : fleet_ok p -> fleet_ok (step o p).
Proof.
  intros [Hs He]. destruct o as [v|ctx a at_|id]; simpl.
  - unfold AddVehicle. case_decide; [done|]. destruct (vehicles p !! v_ID v) eqn:Hv; [done|].
    split; simpl; [|done]. intros k a Ha. apply (suits_vehicles p); [|by eapply Hs].
    intros j x Hj. simpl. rewrite lookup_insert_ne; [done|congruence].
  - unfold Assign. destruct ctx; [done|]. case_decide as Hval; [done|].
    destruct (vehicles p !! as_VehicleID a) as [v|] eqn:Hv; [|done].
    case_decide as Hcap; [done|]. case_decide as Hno; [done|]. split; simpl.
    + intros k x. rewrite lookup_insert. case_decide; [intros [= <-]|apply Hs].
      split; [by left|]. exists v. simpl. split; [done|]. lia.
    + assert (Hfree : forall k x, assignments p !! k = Some x -> as_VehicleID x <> as_VehicleID a).
      { intros k x Hk Heq. apply Hno, Exists_exists. exists x. split.
        - apply elem_of_assignments. by exists k.
        - split; [done|]. destruct (Hs k x Hk) as [[-> | ->] _]; done. }
      intros k k' x x'. rewrite !lookup_insert. repeat case_decide; intros Hx Hx' Heq;
        simplify_eq/=; try done; [by destruct (Hfree _ _ Hx')|by destruct (Hfree _ _ Hx)|by eapply He].
  - unfold Complete. destruct (assignments p !! id) as [a|] eqn:Hid; [|done].
    case_decide; [done|]. destruct (Hs _ _ Hid) as [_ (v & Hv & ?)]. split; simpl.
    + intros k x. rewrite lookup_insert. case_decide; [intros [= <-]|apply Hs].
      split; [by right|]. by exists v.
    + intros k k' x x'. rewrite !lookup_insert. repeat case_decide; intros Hx Hx' Heq;
        simplify_eq/=; try done; by eapply He.
Qed.

Lemma reachable_fleet ops : fleet_ok (after step ops New).
Proof. apply after_stable; [apply step_fleet|by split]. Qed.

(** Whatever is called, a vehicle carries at most one assignment, of a weight it
    takes, made within its hours. *)
Theorem one_assignment_per_vehicle ops k a :
  let p := after step ops New in
  assignments p !! k = Some a ->
  (forall k' a', assignments p !! k' = Some a' -> as_VehicleID a' = as_VehicleID a -> k' = k) /\
  exists v, vehicles p !! as_VehicleID a = Some v /\ 0 < as_WeightKg a <= v_MaxKg v /\
    v_AvailableFrom v <= as_AssignedAt a < v_AvailableTo v.
Proof.
  intros p Ha. destruct (reachable_fleet ops) as [Hs He]. split; [|by destruct (Hs _ _ Ha)].
  intros k' a' Ha' Heq. by eapply He.
Qed.

(** A completed assignment keeps its vehicle: as long as it is there, every
    further assignment of the vehicle fails. *)
Theorem completed_blocks_vehicle ops ctx a old at_ k :
  let p := after step ops New in
  assignments p !! k = Some old -> as_Status old = "completed" ->
  as_VehicleID a = as_VehicleID old ->
  exists err, Assign ctx a at_ p = (p, Err err).
Proof.
  intros p Hk Hst Hv. unfold Assign. destruct ctx; [by eexists|]. case_decide; [by eexists|].
  destruct (vehicles p !! as_VehicleID a); [|by eexists]. case_decide; [by eexists|].
  rewrite decide_True; [by eexists|]. apply Exists_exists. exists old. split.
  - apply elem_of_assignments. by exists k.
  - split; [done|]. by rewrite Hst.
Qed.

Definition sample_vehicle : Vehicle := mkVehicle "V1" "REG" "ACME" 100 0 50.
Definition sample_assignment (id : string) : Assignment := mkAssignment id "S1" "V1" 60 "" 0.
Definition sample_ops : list op :=
  [OAddVehicle sample_vehicle; OAssign None (sample_assignment "a1") 10; OComplete "a1";
   OAssign None (sample_assignment "a2") 11].

Lemma one_assignment_per_vehicle_witness :
  let p := after step sample_ops New in
  exists a, assignments p !! "a1" = Some a /\
  (forall k' a', assignments p !! k' = Some a' -> as_VehicleID a' = as_VehicleID a -> k' = "a1") /\
  exists v, vehicles p !! as_VehicleID a = Some v /\ 0 < as_WeightKg a <= v_MaxKg v /\
    v_AvailableFrom v <= as_AssignedAt a < v_AvailableTo v.
Proof.
  eexists. split; [vm_compute; reflexivity|].
  apply (one_assignment_per_vehicle sample_ops "a1"). vm_compute. reflexivity.
Defined.

Lemma completed_blocks_vehicle_witness :
  let p := after step (take 3 sample_ops) New in
  exists err, Assign None (sample_assignment "a2") 11 p = (p, Err err).
Proof.
  apply (completed_blocks_vehicle (take 3 sample_ops) None (sample_assignment "a2")
    (mkAssignment "a1" "S1" "V1" 60 "completed" 10) 11 "a1");
    [vm_compute; reflexivity|reflexivity|reflexivity].
Defined.
