(* ===== verification/finance.v ===== *)
(** * Package finance

    The ledger of [internal/finance/ledger.go]: entries, balances that are kept
    along with them, and their reconciliation. *)

From S2P Require Import Prelude.
From S2P Require Import golang.
From S2P Require Import domain.
From S2P Require Import machine.

Open Scope string_scope.
Open Scope list_scope.
Open Scope Z_scope.

Record Entry := mkEntry {
  e_ID : string; e_TenantID : string; e_ShipmentID : string; e_Currency : string;
  e_Debit : Z; e_Credit : Z; e_Memo : string; e_PostedAt : Time }.

Record Ledger := mkLedger { entries : list Entry; balances : gmap string Z }.

Definition New : Ledger := mkLedger [] ∅.

Definition Balance (tenant : string) (l : Ledger) : Z := default 0 (balances l !! tenant).

Definition Post (e : Entry) (l : Ledger) : Ledger * result unit :=
  if decide (e_ID e = "" \/ e_TenantID e = "" \/ e_ShipmentID e = "" \/ e_Currency e = ""
             \/ IsZero (e_PostedAt e))
  then (l, Err ErrInvalid) else
  if decide (e_Debit e < 0 \/ e_Credit e < 0 \/ (e_Debit e = 0 /\ e_Credit e = 0))
  then (l, Err ErrInvalid) else
  if decide (e_Debit e > 0 /\ e_Credit e > 0) then (l, Err ErrInvalid) else
  if decide (Exists (fun old => e_ID old = e_ID e) (entries l)) then (l, Err ErrConflict) else
  let amount := sub64 (e_Credit e) (e_Debit e) in
  (mkLedger (entries l ++ [e])
     (<[e_TenantID e := add64 (Balance (e_TenantID e) l) amount]> (balances l)), Ok tt).

Definition Entries `{SortSlice} (tenant : string) (l : Ledger) : list Entry :=
  sort_Slice (less_on e_PostedAt) (filter (fun e => e_TenantID e = tenant) (entries l)).

(** The loop of [Reconcile]. *)
Definition total (tenant : string) (es : list Entry) : Z :=
  foldl (fun total e =>
    if decide (e_TenantID e = tenant)
    then add64 total (sub64 (e_Credit e) (e_Debit e)) else total) 0 es.

Definition Reconcile (tenant : string) (l : Ledger) : option error :=
  if decide (total tenant (entries l) <> Balance tenant l)
  then Some (Errorf "" ErrConflict ": ledger balance") else None.

(** ** Sequences of postings *)

Definition step (e : Entry) (l : Ledger) : Ledger := (Post e l).1.

(** The exact balance of a tenant. *)
Definition exact (tenant : string) (es : list Entry) : Z :=
  foldr (fun e acc => (if decide (e_TenantID e = tenant) then e_Credit e - e_Debit e else 0) + acc) 0 es.

Lemma wrap64_add a b : wrap64 (a + wrap64 b) = wrap64 (a + b).
Proof. rewrite Z.add_comm, wrap64_wrap64. by rewrite Z.add_comm. Qed.

Lemma exact_snoc tenant es e :
  exact tenant (es ++ [e]) =
  exact tenant es + if decide (e_TenantID e = tenant) then e_Credit e - e_Debit e else 0.
Proof. induction es as [|x es IH]; simpl; [|rewrite IH]; repeat case_decide; lia. Qed.

Lemma total_snoc tenant es e :
  total tenant (es ++ [e]) =
  if decide (e_TenantID e = tenant)
  then add64 (total tenant es) (sub64 (e_Credit e) (e_Debit e)) else total tenant es.
Proof. unfold total. by rewrite foldl_app. Qed.

Lemma total_exact tenant es : total tenant es = wrap64 (exact tenant es).
Proof.
  induction es as [|e es IH] using rev_ind; [done|]. rewrite total_snoc, exact_snoc, IH.
  case_decide; [|by rewrite Z.add_0_r]. unfold add64, sub64. rewrite wrap64_add. apply wrap64_wrap64.
Qed.

Record ledger_ok (l : Ledger) : Prop := {
  ok_ids : NoDup (e_ID <$> entries l);
  ok_balance tenant : Balance tenant l = total tenant (entries l);
  ok_sides : Forall (fun e => 0 <= e_Debit e /\ 0 <= e_Credit e /\ (e_Debit e = 0 <-> 0 < e_Credit e))
    (entries l) }.

Lemma finance_step_ok e l : ledger_ok l -> ledger_ok (step e l).
Proof.
  intros [Hi Hb Hs]. unfold step, Post. case_decide; [done|]. case_decide as Hneg; [done|].
  case_decide as Hboth; [done|]. case_decide as Hdup; [done|]. split; simpl.
  - rewrite fmap_app. apply NoDup_app. split; [done|]. split; [|simpl; constructor; [|constructor]; set_solver].
    intros x (old & -> & Hold)%list_elem_of_fmap. simpl. rewrite list_elem_of_singleton. intros Heq.
    apply Hdup, Exists_exists. by exists old.
  - intros tenant. rewrite total_snoc. unfold Balance. simpl. rewrite lookup_insert.
    case_decide as Heq; simpl; [subst; by rewrite <- Hb|apply Hb].
  - apply Forall_app. split; [done|]. constructor; [lia|constructor].
Qed.

(** C40. The books balance: after any postings, accepted or refused, the identifiers
    are distinct, every entry is a debit or a credit, every balance is the sum of
    its entries (as an [int64]), and [Reconcile] never reports a difference. *)
Theorem books_balance es tenant :
  let l := after step es New in
  NoDup (e_ID <$> entries l) /\
  Balance tenant l = wrap64 (exact tenant (entries l)) /\ Reconcile tenant l = None /\
  Forall (fun e => (0 < e_Debit e /\ e_Credit e = 0) \/ (e_Debit e = 0 /\ 0 < e_Credit e)) (entries l).
Proof.
  intros l. assert (Hl : ledger_ok l).
  { apply after_stable; [apply finance_step_ok|]. split; [constructor|done|constructor]. }
  destruct Hl as [Hi Hb Hs]. split; [done|]. split; [by rewrite Hb, total_exact|]. split.
  - unfold Reconcile. by rewrite decide_False by (rewrite Hb; tauto).
  - eapply Forall_impl; [exact Hs|]. simpl. intros e He. lia.
Qed.

(** The statement of a tenant lists exactly its entries, in order of posting. *)
Lemma Entries_sorted `{SortSlice} tenant l :
  Entries tenant l ≡ₚ filter (fun e => e_TenantID e = tenant) (entries l) /\
  sorted_by (less_on e_PostedAt) (Entries tenant l).
Proof. split; [apply sort_Slice_perm|apply sort_Slice_sorted, less_on_weak_order]. Qed.
