(* ===== verification/customs.v ===== *)
(** * Package customs

    The customs workflow of [internal/customs/workflow.go].  Cases are values:
    a caller that opens two cases with one slice of documents, whose spare
    capacity [append] would share, is outside the model. *)

From S2P Require Import Prelude.
From S2P Require Import golang.
From S2P Require Import domain.
From S2P Require Import machine.

Open Scope string_scope.
Open Scope list_scope.
Open Scope Z_scope.

Record Document := mkDocument {
  doc_Number : string; doc_Kind : string; doc_IssuedAt : Time; doc_ExpiresAt : Time;
  doc_Hash : string }.

Record Case := mkCase {
  cs_ID : string; cs_ShipmentID : string; cs_TenantID : string; cs_Documents : list Document;
  cs_Status : CustomsStatus; cs_Notes : list string; cs_UpdatedAt : Time }.

#[export] Instance Document_eq_dec : EqDecision Document.
Proof. solve_decision. Defined.
#[export] Instance Case_eq_dec : EqDecision Case.
Proof. solve_decision. Defined.

Record Workflow := mkWorkflow { cases : gmap string Case }.

Definition NewWorkflow : Workflow := mkWorkflow ∅.

Definition zero_Case : Case := mkCase "" "" "" [] "" [] zero_time.

(** [now] is the reading of the clock. *)
Definition Open (c : Case) (now : Time) (w : Workflow) : Workflow * result unit :=
  if decide (cs_ID c = "" \/ cs_ShipmentID c = "" \/ cs_TenantID c = "") then (w, Err ErrInvalid) else
  match cases w !! cs_ShipmentID c with
  | Some _ => (w, Err ErrConflict)
  | None =>
      let c := mkCase (cs_ID c) (cs_ShipmentID c) (cs_TenantID c) (cs_Documents c)
                 CustomsPending (cs_Notes c) now in
      (mkWorkflow (<[cs_ShipmentID c := c]> (cases w)), Ok tt)
  end.

Definition attached (d : Document) (now : Time) (c : Case) : Case :=
  mkCase (cs_ID c) (cs_ShipmentID c) (cs_TenantID c) (cs_Documents c ++ [d]) (cs_Status c)
    (cs_Notes c) now.

Definition Attach (shipment : string) (d : Document) (now : Time) (w : Workflow)
    : Workflow * result unit :=
  if decide (TrimSpace (doc_Number d) = "" \/ doc_ExpiresAt d < doc_IssuedAt d)
  then (w, Err ErrInvalid) else
  match cases w !! shipment with
  | None => (w, Err ErrNotFound)
  | Some c =>
      if decide (Exists (fun old => doc_Number old = doc_Number d) (cs_Documents c))
      then (w, Err ErrConflict) else
      (mkWorkflow (<[shipment := attached d now c]> (cases w)), Ok tt)
  end.

(** The loop of [Review]: the first document that has expired. *)
Fixpoint first_expired (now : Time) (docs : list Document) : option Document :=
  match docs with
  | [] => None
  | d :: docs' => if decide (~ now < doc_ExpiresAt d) then Some d else first_expired now docs'
  end.

Definition held_for (d : Document) (c : Case) : Case :=
  mkCase (cs_ID c) (cs_ShipmentID c) (cs_TenantID c) (cs_Documents c) CustomsHeld
    (cs_Notes c ++ ["expired document " +:+ doc_Number d]) (cs_UpdatedAt c).

Definition released_by (actor : string) (now : Time) (c : Case) : Case :=
  mkCase (cs_ID c) (cs_ShipmentID c) (cs_TenantID c) (cs_Documents c) CustomsReleased
    (cs_Notes c ++ ["reviewed by " +:+ actor]) now.

(** The case comes back with [ErrExpired] too. *)
Definition Review (shipment actor : string) (now : Time) (w : Workflow)
    : Workflow * (Case * option error) :=
  match cases w !! shipment with
  | None => (w, (zero_Case, Some ErrNotFound))
  | Some c =>
      if decide (actor = "") then (w, (zero_Case, Some ErrForbidden)) else
      if decide (cs_Documents c = [])
      then (w, (zero_Case, Some (Errorf "" ErrState ": documents missing"))) else
      match first_expired now (cs_Documents c) with
      | Some d =>
          let c := held_for d c in
          (mkWorkflow (<[shipment := c]> (cases w)), (c, Some ErrExpired))
      | None =>
          let c := released_by actor now c in
          (mkWorkflow (<[shipment := c]> (cases w)), (c, None))
      end
  end.

Definition Get (shipment : string) (w : Workflow) : result Case :=
  match cases w !! shipment with
  | None => Err ErrNotFound
  | Some c => Ok c
  end.

(** ** Sequences of calls *)

Inductive op :=
  | OOpen (c : Case) (now : Time)
  | OAttach (shipment : string) (d : Document) (now : Time)
  | OReview (shipment actor : string) (now : Time).

Definition step (o : op) (w : Workflow) : Workflow :=
  match o with
  | OOpen c now => (Open c now w).1
  | OAttach shipment d now => (Attach shipment d now w).1
  | OReview shipment actor now => (Review shipment actor now w).1
  end.

Lemma first_expired_None now docs :
  first_expired now docs = None <-> Forall (fun d => now < doc_ExpiresAt d) docs.
Proof.
  induction docs as [|d docs IH]; simpl; [split; [constructor|done]|].
  rewrite Forall_cons. case_decide; [split; [done|tauto]|]. rewrite IH. split; [|tauto].
  intros Hd. split; [lia|done].
Qed.

Lemma first_expired_Some now docs d :
  first_expired now docs = Some d -> d ∈ docs /\ doc_ExpiresAt d <= now.
Proof.
  induction docs as [|x docs IH]; simpl; [done|]. case_decide; [intros [= <-]|intros Hd%IH].
  - split; [set_solver|lia].
  - set_solver.
Qed.

(** A case that is released carries documents, of distinct numbers. *)
Record case_ok (c : Case) : Prop := {
  ok_numbers : NoDup (doc_Number <$> cs_Documents c);
  ok_released : cs_Status c = CustomsReleased -> cs_Documents c <> [] }.

(** Cases are opened with documents of distinct numbers. *)
Definition admissible (o : op) (_ : Workflow) : Prop :=
  match o with
  | OOpen c _ => NoDup (doc_Number <$> cs_Documents c)
  | _ => True
  end.

#[export] Instance admissible_dec o w : Decision (admissible o w).
Proof. destruct o; simpl; apply _. Defined.

Definition workflow_ok (w : Workflow) : Prop :=
  map_Forall (fun k c => cs_ShipmentID c = k /\ case_ok c) (cases w).

Lemma step_workflow o w : admissible o w -> workflow_ok w -> workflow_ok (step o w).
Proof.
  unfold workflow_ok. intros Ho Hw. destruct o as [c now|shipment d now|shipment actor now]; simpl in *.
  - unfold Open. case_decide; [done|]. destruct (cases w !! cs_ShipmentID c); [done|].
    apply map_Forall_insert_2; [by split|done].
  - unfold Attach. case_decide; [done|]. destruct (cases w !! shipment) as [c|] eqn:Hc; [|done].
    case_decide as Hdup; [done|]. destruct (Hw _ _ Hc) as [Hid [Hn Hr]].
    apply map_Forall_insert_2; [split; [done|]|done]. split; simpl.
    + rewrite fmap_app. apply NoDup_app. split; [done|].
      split; [|simpl; constructor; [set_solver|constructor]].
      intros x (old & -> & Hold)%list_elem_of_fmap. simpl. rewrite list_elem_of_singleton.
      intros Heq. apply Hdup, Exists_exists. by exists old.
    + intros _. by destruct (cs_Documents c).
  - unfold Review. destruct (cases w !! shipment) as [c|] eqn:Hc; [|done].
    case_decide; [done|]. case_decide as Hdocs; [done|]. destruct (Hw _ _ Hc) as [Hid [Hn Hr]].
    destruct (first_expired now (cs_Documents c)); simpl;
      (apply map_Forall_insert_2; [split; [done|by split]|done]).
Qed.

(** A review of a case that has documents, by a named officer, releases it when
    every document is still valid and otherwise holds it, noting an expired one;
    every other review changes nothing.  Released cases have documents, and the
    documents of a case have distinct numbers. *)
Theorem Review_outcome ops shipment actor now :
  legal step admissible ops NewWorkflow ->
  let w := after step ops NewWorkflow in
  let '(w', (c', err)) := Review shipment actor now w in
  match cases w !! shipment with
  | Some c =>
      NoDup (doc_Number <$> cs_Documents c) /\
      (cs_Status c = CustomsReleased -> cs_Documents c <> []) /\
      (actor = "" \/ cs_Documents c = [] -> w' = w /\ is_Some err) /\
      (actor <> "" -> cs_Documents c <> [] -> cases w' = <[shipment := c']> (cases w) /\
        (Forall (fun d => now < doc_ExpiresAt d) (cs_Documents c) ->
         err = None /\ c' = released_by actor now c) /\
        (Exists (fun d => doc_ExpiresAt d <= now) (cs_Documents c) ->
         err = Some ErrExpired /\ exists d, d ∈ cs_Documents c /\ doc_ExpiresAt d <= now /\
           c' = held_for d c))
  | None => w' = w /\ err = Some ErrNotFound
  end.
Proof.
  intros Hlegal w. unfold Review.
  assert (Hw : workflow_ok w).
  { eapply after_invariant; [apply step_workflow|exact Hlegal|apply map_Forall_empty]. }
  destruct (cases w !! shipment) as [c|] eqn:Hc; [|done]. destruct (Hw _ _ Hc) as [_ [Hn Hr]].
  case_decide as Ha; [naive_solver|]. case_decide as Hd; [naive_solver|].
  assert (Hlive : Forall (fun d => now < doc_ExpiresAt d) (cs_Documents c) ->
                  ~ Exists (fun d => doc_ExpiresAt d <= now) (cs_Documents c)).
  { rewrite Forall_forall, Exists_exists. intros Hall (d & Hin & Hle). specialize (Hall d Hin). lia. }
  destruct (first_expired now (cs_Documents c)) as [d|] eqn:He.
  - apply first_expired_Some in He as [Hin Hle]. split_and!; [done..|naive_solver|].
    intros _ _. split; [done|]. split; [|naive_solver]. intros Hall. destruct (Hlive Hall).
    apply Exists_exists. by exists d.
  - apply first_expired_None in He. split_and!; [done..|naive_solver|]. intros _ _. naive_solver.
Qed.

Definition sample_case : Case := mkCase "c1" "S1" "acme" [] "" [] 0.
Definition sample_document : Document := mkDocument "D-1" "invoice" 5 50 "".
Definition sample_ops : list op := [OOpen sample_case 10; OAttach "S1" sample_document 11].

Lemma Review_outcome_witness :
  let w := after step sample_ops NewWorkflow in
  let '(w', (c', err)) := Review "S1" "officer" 20 w in
  err = None /\ cs_Status c' = CustomsReleased.
Proof.
  pose proof (Review_outcome sample_ops "S1" "officer" 20) as H.
  assert (Hlegal : legal step admissible sample_ops NewWorkflow).
  { apply (bool_decide_unpack _). vm_compute. exact I. }
  specialize (H Hlegal). vm_compute in H |- *.
  destruct H as (_ & _ & _ & H). destruct H as (_ & Hrel & _); [discriminate..|].
  split; reflexivity.
Defined.

(** The review pays no heed to the status machine of the domain: it releases a
    case that is still pending, or held, steps the machine does not have. *)
Theorem Review_ignores_machine shipment actor now w c :
  cases w !! shipment = Some c -> actor <> "" -> cs_Documents c <> [] ->
  Forall (fun d => now < doc_ExpiresAt d) (cs_Documents c) ->
  cs_Status c = CustomsPending \/ cs_Status c = CustomsHeld ->
  let '(_, (c', err)) := Review shipment actor now w in
  err = None /\ Customs_CanTransition (cs_Status c) (cs_Status c') = false.
Proof.
  intros Hc Ha Hd Hall Hst. unfold Review. rewrite Hc, !decide_False by done.
  apply first_expired_None in Hall. rewrite Hall. simpl. split; [done|].
  destruct Hst as [-> | ->]; reflexivity.
Qed.

Lemma Review_ignores_machine_witness :
  let c := mkCase "c1" "S1" "acme" [sample_document] CustomsPending [] 0 in
  let '(_, (c', err)) := Review "S1" "officer" 20 (mkWorkflow {["S1" := c]}) in
  err = None /\ Customs_CanTransition (cs_Status c) (cs_Status c') = false.
Proof.
  apply (Review_ignores_machine "S1" "officer" 20
    (mkWorkflow {["S1" := mkCase "c1" "S1" "acme" [sample_document] CustomsPending [] 0]})
    (mkCase "c1" "S1" "acme" [sample_document] CustomsPending [] 0));
    [reflexivity|discriminate|discriminate|repeat constructor|left; reflexivity].
Defined.
