(* ===== verification/idempotency.v ===== *)
(** * Package idempotency

    Records of requests by idempotency key ([internal/idempotency/store.go]). *)

From S2P Require Import Prelude.
From S2P Require Import golang.
From S2P Require Import domain.
From S2P Require Import external.

Open Scope string_scope.
Open Scope list_scope.
Open Scope Z_scope.

Record Record_ := mkRecord {
  rec_TenantID : string; rec_Key : string; rec_Fingerprint : string; rec_Status : Z;
  rec_Body : string; rec_CreatedAt : Time; rec_ExpiresAt : Time }.

Record Store := mkStore { records : gmap string Record_ }.

Definition New : Store := mkStore ∅.

Definition zero_Record : Record_ := mkRecord "" "" "" 0 "" zero_time zero_time.

Definition newline : string := String (ascii_of_N 10) "".

Definition Fingerprint `{External} (method path body : string) : string :=
  hex_encode (sha256_Sum256 ((method +:+ newline +:+ path +:+ newline) +:+ body)).

Definition compound (tenant key : string) : string := tenant +:+ "|" +:+ key.

Definition fresh_record (tenant key fingerprint : string) (now : Time) : Record_ :=
  mkRecord tenant key fingerprint 102 "" now (time_Add now (24 * Hour)).

(** The record, whether it is a replay, and the error. *)
Definition Begin (tenant key fingerprint : string) (now : Time) (s : Store)
    : Store * (Record_ * bool * option error) :=
  if decide (tenant = "" \/ key = "" \/ fingerprint = "")
  then (s, (zero_Record, false, Some ErrInvalid)) else
  let begin_new :=
    let v := fresh_record tenant key fingerprint now in
    (mkStore (<[compound tenant key := v]> (records s)), (v, false, None)) in
  match records s !! compound tenant key with
  | Some old =>
      if decide (now < rec_ExpiresAt old) then
        if decide (rec_Fingerprint old <> fingerprint)
        then (s, (zero_Record, false, Some ErrConflict))
        else (s, (old, true, None))
      else begin_new
  | None => begin_new
  end.

Definition completed (status : Z) (body : string) (v : Record_) : Record_ :=
  mkRecord (rec_TenantID v) (rec_Key v) (rec_Fingerprint v) status body (rec_CreatedAt v)
    (rec_ExpiresAt v).

Definition Complete (tenant key : string) (status : Z) (body : string) (s : Store)
    : Store * result unit :=
  match records s !! compound tenant key with
  | None => (s, Err ErrNotFound)
  | Some v => (mkStore (<[compound tenant key := completed status body v]> (records s)), Ok tt)
  end.

(** The loop of [Cleanup]; what it deletes and counts does not depend on the order
    of the iteration. *)
Definition Cleanup (now : Time) (s : Store) : Store * Z :=
  map_fold (fun k v '(s, n) =>
    if decide (~ now < rec_ExpiresAt v) then (mkStore (delete k (records s)), n + 1) else (s, n))
    (s, 0) (records s).

(** ** Facts *)

(** The conditions on the texts of a request. *)
Definition named (tenant key fingerprint : string) : Prop :=
  tenant <> "" /\ key <> "" /\ fingerprint <> "".

Lemma Begin_fresh tenant key fingerprint now s :
  named tenant key fingerprint ->
  (forall old, records s !! compound tenant key = Some old -> rec_ExpiresAt old <= now) ->
  let v := fresh_record tenant key fingerprint now in
  Begin tenant key fingerprint now s =
  (mkStore (<[compound tenant key := v]> (records s)), (v, false, None)).
Proof.
  intros (? & ? & ?) Hold v. unfold Begin. rewrite decide_False by naive_solver.
  destruct (records s !! compound tenant key) as [old|]; [|done].
  specialize (Hold old eq_refl). by rewrite decide_False by lia.
Qed.

Lemma Begin_live tenant key fingerprint now s old :
  named tenant key fingerprint -> records s !! compound tenant key = Some old ->
  now < rec_ExpiresAt old ->
  Begin tenant key fingerprint now s =
  (s, if decide (rec_Fingerprint old = fingerprint) then (old, true, None)
      else (zero_Record, false, Some ErrConflict)).
Proof.
  intros (? & ? & ?) Hold Hlt. unfold Begin. rewrite decide_False by naive_solver.
  rewrite Hold, decide_True by done. repeat case_decide; naive_solver.
Qed.

(** A request and its replays: a key begun at [now] and completed answers the
    same request with the stored answer for 24 hours, refuses another request under
    the key for as long, and is free again after that. *)
Theorem Begin_replays tenant key fp fp' now now' status body s :
  named tenant key fp -> fp' <> "" -> fp' <> fp ->
  (forall old, records s !! compound tenant key = Some old -> rec_ExpiresAt old <= now) ->
  let s1 := (Begin tenant key fp now s).1 in
  let s2 := (Complete tenant key status body s1).1 in
  (Begin tenant key fp now s).2 = (fresh_record tenant key fp now, false, None) /\
  (Complete tenant key status body s1).2 = Ok tt /\
  (now' < now + 24 * Hour ->
    Begin tenant key fp now' s2 =
      (s2, (completed status body (fresh_record tenant key fp now), true, None)) /\
    Begin tenant key fp' now' s2 = (s2, (zero_Record, false, Some ErrConflict))) /\
  (now + 24 * Hour <= now' ->
    (Begin tenant key fp' now' s2).2 = (fresh_record tenant key fp' now', false, None)).
Proof.
  intros Hn Hfp' Hne Hold s1 s2. pose proof Hn as (Ht & Hk & Hf).
  assert (Hs1 : s1 = mkStore (<[compound tenant key := fresh_record tenant key fp now]> (records s))).
  { unfold s1. by rewrite Begin_fresh. }
  assert (Hc : Complete tenant key status body s1 =
    (mkStore (<[compound tenant key := completed status body (fresh_record tenant key fp now)]>
       (records s1)), Ok tt)).
  { unfold Complete. rewrite Hs1. cbn [records]. by rewrite lookup_insert_eq. }
  assert (Hl : records s2 !! compound tenant key =
    Some (completed status body (fresh_record tenant key fp now))).
  { unfold s2. rewrite Hc. cbn [fst records]. apply lookup_insert_eq. }
  split; [by rewrite Begin_fresh|]. split; [by rewrite Hc|]. split.
  - intros Hlt. split.
    + rewrite (Begin_live tenant key fp now' s2 _ Hn Hl) by done. by rewrite decide_True.
    + rewrite (Begin_live tenant key fp' now' s2 _ (conj Ht (conj Hk Hfp')) Hl) by done.
      rewrite decide_False; [done|]. simpl. congruence.
  - intros Hge. rewrite Begin_fresh; [done|done|]. intros old. rewrite Hl. by intros [= <-].
Qed.

Lemma Begin_replays_witness :
  let s1 := (Begin "acme" "k" "fp" 10 New).1 in
  let s2 := (Complete "acme" "k" 201 "body" s1).1 in
  (Begin "acme" "k" "fp" 10 New).2 = (fresh_record "acme" "k" "fp" 10, false, None) /\
  (Complete "acme" "k" 201 "body" s1).2 = Ok tt /\
  (20 < 10 + 24 * Hour ->
    Begin "acme" "k" "fp" 20 s2 =
      (s2, (completed 201 "body" (fresh_record "acme" "k" "fp" 10), true, None)) /\
    Begin "acme" "k" "other" 20 s2 = (s2, (zero_Record, false, Some ErrConflict))) /\
  (10 + 24 * Hour <= 20 ->
    (Begin "acme" "k" "other" 20 s2).2 = (fresh_record "acme" "k" "other" 20, false, None)).
Proof.
  apply (Begin_replays "acme" "k" "fp" "other" 10 20 201 "body" New).
  - split; [discriminate|split; discriminate].
  - discriminate.
  - discriminate.
  - intros old Hold. vm_compute in Hold. discriminate Hold.
Defined.

(** Keys of tenants without a bar in their names do not meet: beginning under one
    pair leaves the record of every other pair as it was. *)
Theorem Begin_separates tenant key fp now s tenant' key' :
  free_of "|" tenant -> free_of "|" tenant' -> (tenant, key) <> (tenant', key') ->
  records (Begin tenant key fp now s).1 !! compound tenant' key' =
  records s !! compound tenant' key'.
Proof.
  intros Hf Hf' Hne. assert (Hc : compound tenant key <> compound tenant' key').
  { intros Heq. by destruct (join_inj _ _ _ _ _ Hf Hf' Heq) as [-> ->]. }
  unfold Begin. repeat (case_match; try done); simpl; by apply lookup_insert_ne.
Qed.

Lemma Begin_separates_witness :
  records (Begin "acme" "k|1" "fp" 10 New).1 !! compound "acme2" "k" = None.
Proof.
  apply (Begin_separates "acme" "k|1" "fp" 10 New "acme2" "k");
    [apply (bool_decide_unpack _); vm_compute; exact I..|discriminate].
Defined.

(** ** Cleaning up *)

Lemma Cleanup_fold now (s0 : Store) (m : gmap string Record_) n0 :
  let r := map_fold (fun k v '(s, n) =>
    if decide (~ now < rec_ExpiresAt v) then (mkStore (delete k (records s)), n + 1) else (s, n))
    (s0, n0) m in
  (forall k, records r.1 !! k =
    match m !! k with
    | Some v => if decide (~ now < rec_ExpiresAt v) then None else records s0 !! k
    | None => records s0 !! k
    end) /\
  r.2 = n0 + map_sum (fun v => if decide (~ now < rec_ExpiresAt v) then 1 else 0) m.
Proof.
  induction m as [|j v m Hj IH] using map_ind; simpl.
  { rewrite map_fold_empty, map_sum_empty. split; [intros k; by rewrite lookup_empty|simpl; lia]. }
  rewrite map_fold_insert_L; [|intros|done].
  - rewrite map_sum_insert by done. simpl in IH. destruct (map_fold _ _ m) as [s n]. simpl in IH.
    destruct IH as [Hk Hn]. destruct (decide (~ now < rec_ExpiresAt v)); simpl; split; try lia.
    + intros k. rewrite lookup_delete, lookup_insert. destruct (decide (j = k)); [by rewrite decide_True|apply Hk].
    + intros k. rewrite lookup_insert. destruct (decide (j = k)) as [<-|]; [|apply Hk].
      by rewrite Hk, Hj, decide_False.
  - destruct y as [s n]. repeat case_decide; try done. simpl. do 2 f_equal.
    apply delete_delete.
Qed.

(** A cleanup removes exactly the expired records and counts them. *)
Theorem Cleanup_removes_expired now s :
  let '(s', n) := Cleanup now s in
  (forall k v, records s' !! k = Some v <-> records s !! k = Some v /\ now < rec_ExpiresAt v) /\
  n = map_sum (fun v => if decide (now < rec_ExpiresAt v) then 0 else 1) (records s).
Proof.
  pose proof (Cleanup_fold now s (records s) 0) as H. unfold Cleanup. simpl in H.
  destruct (map_fold _ _ (records s)) as [s' n]. simpl in H. destruct H as [Hk Hn]. split.
  - intros k v. rewrite Hk. destruct (records s !! k) as [w|]; [|naive_solver].
    case_decide; naive_solver.
  - rewrite Hn. simpl. apply map_sum_ext. intros k v _. repeat case_decide; done || lia.
Qed.
