(* ===== verification/ratelimit.v ===== *)
(** * Package ratelimit

    Fixed-window rate limiting ([internal/ratelimit/limiter.go]). *)

From S2P Require Import Prelude.
From S2P Require Import golang.
From S2P Require Import domain.

Open Scope string_scope.
Open Scope list_scope.
Open Scope Z_scope.

Record Window := mkWindow { Started : Time; Count : Z }.

Record Limiter := mkLimiter { limit : Z; duration : Duration; windows : gmap string Window }.

Definition New (limit : Z) (d : Duration) : Limiter :=
  let limit := if decide (limit < 1) then 1 else limit in
  let d := if decide (d <= 0) then Minute else d in
  mkLimiter limit d ∅.

Definition Allow (key : string) (now : Time) (l : Limiter) : Limiter * bool :=
  if decide (key = "") then (l, false) else
  let open_window := (mkLimiter (limit l) (duration l) (<[key := mkWindow now 1]> (windows l)), true) in
  match windows l !! key with
  | None => open_window
  | Some w =>
      if decide (~ now < time_Add (Started w) (duration l)) then open_window else
      if decide (Count w >= limit l) then (l, false) else
      let w := mkWindow (Started w) (add64 (Count w) 1) in
      (mkLimiter (limit l) (duration l) (<[key := w]> (windows l)), true)
  end.

Definition Reset (key : string) (l : Limiter) : Limiter :=
  mkLimiter (limit l) (duration l) (delete key (windows l)).

Definition Remaining (key : string) (now : Time) (l : Limiter) : Z :=
  match windows l !! key with
  | None => limit l
  | Some w =>
      if decide (~ now < time_Add (Started w) (duration l)) then limit l else
      if decide (Count w >= limit l) then 0 else
      sub64 (limit l) (Count w)
  end.

(** ** Facts *)

Record limiter_ok (l : Limiter) : Prop := {
  ok_limit : 1 <= limit l <= max_int64;
  ok_duration : 0 < duration l;
  ok_window k w : windows l !! k = Some w -> 1 <= Count w <= limit l }.

Lemma New_ok n d : n <= max_int64 -> limiter_ok (New n d).
Proof.
  intros Hn. unfold New. split; simpl; [case_decide; int64_lia|case_decide; [by vm_compute|lia]|done].
Qed.

Lemma Allow_cases key now l :
  limiter_ok l -> key <> "" ->
  (* a new window *)
  ((forall w, windows l !! key = Some w -> Started w + duration l <= now) /\
   Allow key now l = (mkLimiter (limit l) (duration l) (<[key := mkWindow now 1]> (windows l)), true)) \/
  exists w, windows l !! key = Some w /\ now < Started w + duration l /\
  ( (* the window is full *)
   (Count w = limit l /\ Allow key now l = (l, false)) \/
   (* the window has room *)
   (Count w < limit l /\
    Allow key now l =
      (mkLimiter (limit l) (duration l) (<[key := mkWindow (Started w) (Count w + 1)]> (windows l)), true))).
Proof.
  intros [Hl Hd Hw] Hk. unfold Allow. rewrite decide_False by done.
  destruct (windows l !! key) as [w|] eqn:E; [|by left].
  case_decide as Hnow; unfold time_Add in Hnow.
  - left. split; [intros w' [= <-]; lia|done].
  - right. exists w. split; [done|]. split; [lia|]. specialize (Hw _ _ E). case_decide.
    + left. split; [lia|done].
    + right. split; [lia|]. rewrite add64_exact by int64_lia. done.
Qed.

Lemma Allow_ok key now l : limiter_ok l -> limiter_ok (Allow key now l).1.
Proof.
  intros Hl. destruct (decide (key = "")) as [->|Hk]; [done|]. pose proof Hl as [H1 H2 H3].
  destruct (Allow_cases key now l Hl Hk) as [[_ ->]|(w & Hw & _ & [[_ ->]|[Hc ->]])]; [|done|];
    (split; simpl; [done|done|]; intros k x; rewrite lookup_insert; case_decide; [intros [= <-]|apply H3]);
    simpl; [lia|]. specialize (H3 _ _ Hw). lia.
Qed.

Lemma Allow_config key now l :
  limit (Allow key now l).1 = limit l /\ duration (Allow key now l).1 = duration l.
Proof. unfold Allow. by repeat case_match. Qed.

(** [Remaining] tells what [Allow] does: a request is allowed exactly when
    something remains, and takes one. *)
Theorem Remaining_exact n d calls key now :
  n <= max_int64 -> key <> "" ->
  let l := foldl (fun l '(k, t) => (Allow k t l).1) (New n d) calls in
  let '(l', ok) := Allow key now l in
  (ok = true <-> 0 < Remaining key now l) /\
  Remaining key now l' = Remaining key now l - (if ok then 1 else 0) /\
  0 <= Remaining key now l <= limit l.
Proof.
  intros Hn Hk l. assert (Hl : limiter_ok l).
  { unfold l. generalize (New_ok n d Hn). generalize (New n d).
    induction calls as [|[k t] calls IH]; intros l0 H0; simpl; [done|]. by apply IH, Allow_ok. }
  clearbody l. pose proof Hl as [H1 H2 H3].
  destruct (Allow_cases key now l Hl Hk) as [[Hold ->]|(w & Hw & Hnow & Hcase)].
  - assert (Hrem : Remaining key now l = limit l).
    { unfold Remaining. destruct (windows l !! key) as [w|]; [|done].
      specialize (Hold w eq_refl). rewrite decide_True; [done|]. unfold time_Add. lia. }
    rewrite Hrem. split_and!; [split; [lia|done]| |lia..].
    unfold Remaining. simpl. rewrite lookup_insert_eq. unfold time_Add. simpl.
    rewrite decide_False by lia. case_decide; [lia|]. rewrite sub64_exact by int64_lia. lia.
  - specialize (H3 _ _ Hw).
    assert (Hrem : Remaining key now l = limit l - Count w).
    { unfold Remaining, time_Add. rewrite Hw, decide_False by lia. case_decide; [lia|].
      apply sub64_exact. int64_lia. }
    destruct Hcase as [[Hc ->]|[Hc ->]].
    + rewrite Hrem. split_and!; [split; [done|lia]|lia..].
    + rewrite Hrem. split_and!; [split; [lia|done]| |lia..].
      unfold Remaining, time_Add. simpl. rewrite lookup_insert_eq. simpl.
      rewrite decide_False by lia. case_decide; [lia|]. rewrite sub64_exact by int64_lia. lia.
Qed.

Lemma Remaining_exact_witness :
  let l := foldl (fun l '(k, t) => (Allow k t l).1) (New 2 Minute) [("k", 5); ("k", 6)] in
  let '(l', ok) := Allow "k" 7 l in
  (ok = true <-> 0 < Remaining "k" 7 l) /\
  Remaining "k" 7 l' = Remaining "k" 7 l - (if ok then 1 else 0) /\
  0 <= Remaining "k" 7 l <= limit l.
Proof. apply (Remaining_exact 2 Minute [("k", 5); ("k", 6)] "k" 7); [vm_compute|]; discriminate. Defined.

(** ** Bursts *)

(** The requests of a key that are allowed within [duration] from [t] on. *)
Definition in_span (t : Time) (l : Limiter) (x : Time) : Prop := t <= x < t + duration l.

#[export] Instance in_span_dec t l x : Decision (in_span t l x).
Proof. unfold in_span. apply _. Defined.

Fixpoint admitted (key : string) (t : Time) (calls : list (string * Time)) (l : Limiter) : Z :=
  match calls with
  | [] => 0
  | (k, x) :: calls' =>
      let '(l', ok) := Allow k x l in
      (if decide (k = key /\ in_span t l x /\ ok = true) then 1 else 0) + admitted key t calls' l'
  end.

(** How many requests of the key the present window leaves for the span: a window
    that started in the span is the last that counts, one from before the span can
    be followed by one more. *)
Definition room (key : string) (t now : Time) (l : Limiter) : Z :=
  match windows l !! key with
  | None => 2 * limit l
  | Some w =>
      if decide (t <= Started w) then
        if decide (Started w < t + duration l) then limit l - Count w else 0
      else if decide (t <= now) then 2 * limit l - Count w else 2 * limit l
  end.

Lemma room_nonneg key t now l : limiter_ok l -> 0 <= room key t now l.
Proof.
  intros [Hl Hd Hw]. unfold room. destruct (windows l !! key) as [w|] eqn:E; [|lia].
  specialize (Hw _ _ E). repeat case_decide; lia.
Qed.

Lemma room_mono key t now x l : now <= x -> limiter_ok l -> room key t x l <= room key t now l.
Proof.
  intros Hx [Hl Hd Hw]. unfold room. destruct (windows l !! key) as [w|] eqn:E; [|done].
  specialize (Hw _ _ E). repeat case_decide; lia.
Qed.

(** A request of another key, or of none, leaves the window of the key. *)
Lemma Allow_other key k x l :
  k <> key \/ key = "" -> windows (Allow k x l).1 !! key = windows l !! key.
Proof.
  intros Hk. unfold Allow. repeat (case_match; try done); simpl;
    (apply lookup_insert_ne; naive_solver).
Qed.

Lemma room_other key k t now x l :
  k <> key \/ key = "" -> now <= x -> limiter_ok l ->
  room key t x (Allow k x l).1 <= room key t now l.
Proof.
  intros Hk Hx Hl. etrans; [|by apply room_mono]. unfold room.
  destruct (Allow_config k x l) as [-> ->]. by rewrite Allow_other.
Qed.

Lemma Allow_started key k x l :
  (forall w, windows l !! key = Some w -> Started w <= x) ->
  forall w, windows (Allow k x l).1 !! key = Some w -> Started w <= x.
Proof.
  intros Hst w. destruct (decide (k = key)) as [->|Hk]; [|rewrite Allow_other by auto; apply Hst].
  unfold Allow. repeat case_match; cbn [fst windows]; rewrite ?lookup_insert_eq; intros Hw;
    simplify_eq/=; try done; by apply Hst.
Qed.

Lemma room_step key t now x l :
  key <> "" -> now <= x -> (forall w, windows l !! key = Some w -> Started w <= now) -> limiter_ok l ->
  (if decide (in_span t l x /\ (Allow key x l).2 = true) then 1 else 0) +
    room key t x (Allow key x l).1 <= room key t now l.
Proof.
  intros Hk Hx Hst Hl. pose proof Hl as [H1 H2 H3]. unfold in_span.
  destruct (Allow_cases key x l Hl Hk) as [[Hold ->]|(w & Hw & Hnow & Hcase)].
  - unfold room. simpl. rewrite lookup_insert_eq. simpl.
    destruct (windows l !! key) as [w|] eqn:E.
    + specialize (Hold w eq_refl). specialize (H3 _ _ E). specialize (Hst w eq_refl).
      repeat case_decide; lia.
    + repeat case_decide; lia.
  - specialize (H3 _ _ Hw). specialize (Hst _ Hw). unfold room. rewrite Hw.
    destruct Hcase as [[Hc ->]|[Hc ->]]; simpl; rewrite ?Hw, ?lookup_insert_eq; simpl;
      repeat case_decide; naive_solver lia.
Qed.

(** C38. No burst passes the limiter: of the requests of a key, arriving in order of
    time among those of any other keys, at most twice the limit is allowed within
    any span as long as the window. *)
Theorem burst_bound n d key t calls :
  n <= max_int64 -> Sorted Z.le calls.*2 ->
  admitted key t calls (New n d) <= 2 * limit (New n d).
Proof.
  intros Hn Hsorted.
  assert (Hall : forall calls l now, limiter_ok l ->
    (forall w, windows l !! key = Some w -> Started w <= now) ->
    StronglySorted Z.le (now :: calls.*2) -> admitted key t calls l <= room key t now l).
  { clear. induction calls as [|[k x] calls IH]; intros l now Hl Hst Hs; simpl; [by apply room_nonneg|].
    inversion Hs as [|? ? Hs' Hle]; subst. simpl in Hle. apply Forall_cons in Hle as [Hx Hle].
    assert (Hnext : admitted key t calls (Allow k x l).1 <= room key t x (Allow k x l).1).
    { apply IH; [by apply Allow_ok| |done]. apply Allow_started. intros w Hw. specialize (Hst w Hw). lia. }
    destruct (decide (k = key /\ key <> "")) as [[-> Hk]|Hk].
    - pose proof (room_step key t now x l Hk Hx Hst Hl) as Hroom.
      destruct (Allow key x l) as [l' ok]. simpl in *. repeat case_decide; try lia; naive_solver.
    - pose proof (room_other key k t now x l) as Hroom.
      assert (Hor : k <> key \/ key = "") by (destruct (decide (k = key)), (decide (key = "")); naive_solver).
      specialize (Hroom Hor Hx Hl).
      assert (Hno : ~ (k = key /\ in_span t l x /\ (Allow k x l).2 = true)).
      { intros (-> & _ & Hok). assert (key = "") as -> by (destruct Hor; done). done. }
      destruct (Allow k x l) as [l' ok]. simpl in *. rewrite decide_False by done. lia. }
  destruct calls as [|[k x] calls]; [cbn [admitted]; pose proof (ok_limit _ (New_ok n d Hn)); lia|].
  apply (Hall _ (New n d) x); [by apply New_ok|done|].
  apply Sorted_StronglySorted in Hsorted; [|intros ? ? ?; lia]. simpl in *. constructor; [done|].
  inversion Hsorted; subst. constructor; [done|]. done.
Qed.

Lemma burst_bound_witness :
  let calls := [("k", 59); ("k", 59); ("j", 60); ("k", 61); ("k", 61); ("k", 61)] in
  admitted "k" 59 calls (New 2 60) = 2 /\
  admitted "k" 59 calls (New 2 60) <= 2 * limit (New 2 60).
Proof.
  split; [vm_compute; reflexivity|].
  apply (burst_bound 2 60 "k" 59
    [("k", 59); ("k", 59); ("j", 60); ("k", 61); ("k", 61); ("k", 61)]); [vm_compute; discriminate|].
  repeat constructor; vm_compute; discriminate.
Defined.
