(* ===== verification/approvals.v ===== *)
(** * Package approvals

    Requests that need a second person ([internal/approvals/approval.go]). *)

From S2P Require Import Prelude.
From S2P Require Import golang.
From S2P Require Import domain.
From S2P Require Import machine.

Open Scope string_scope.
Open Scope list_scope.
Open Scope Z_scope.

Record Request := mkRequest {
  ap_ID : string; ap_TenantID : string; ap_ObjectID : string; ap_RequestedBy : string;
  ap_ApprovedBy : string; ap_Status : string; ap_CreatedAt : Time; ap_DecidedAt : option Time }.

Record Queue := mkQueue { items : gmap string Request }.

Definition New : Queue := mkQueue ∅.

Definition submitted (v : Request) : Request :=
  let 'mkRequest a b c d e _ g h := v in mkRequest a b c d e "pending" g h.

Definition Submit (v : Request) (q : Queue) : Queue * result unit :=
  if decide (ap_ID v = "" \/ ap_TenantID v = "" \/ ap_ObjectID v = "" \/ ap_RequestedBy v = ""
             \/ IsZero (ap_CreatedAt v))
  then (q, Err ErrInvalid) else
  match items q !! ap_ID v with
  | Some _ => (q, Err ErrConflict)
  | None => (mkQueue (<[ap_ID v := submitted v]> (items q)), Ok tt)
  end.

Definition decided (actor : string) (approve : bool) (at_ : Time) (v : Request) : Request :=
  let 'mkRequest a b c d _ _ g _ := v in
  mkRequest a b c d actor (if approve then "approved" else "rejected") g (Some at_).

Definition Decide (id actor : string) (approve : bool) (at_ : Time) (q : Queue)
    : Queue * result unit :=
  match items q !! id with
  | None => (q, Err ErrNotFound)
  | Some v =>
      if decide (ap_Status v <> "pending" \/ actor = "" \/ actor = ap_RequestedBy v
                 \/ at_ < ap_CreatedAt v)
      then (q, Err ErrState) else
      (mkQueue (<[id := decided actor approve at_ v]> (items q)), Ok tt)
  end.

Definition Get (id : string) (q : Queue) : result Request :=
  match items q !! id with
  | None => Err ErrNotFound
  | Some v => Ok v
  end.

(** ** Sequences of calls *)

Inductive op :=
  | OSubmit (v : Request)
  | ODecide (id actor : string) (approve : bool) (at_ : Time).

Definition step (o : op) (q : Queue) : Queue :=
  match o with
  | OSubmit v => (Submit v q).1
  | ODecide id actor approve at_ => (Decide id actor approve at_ q).1
  end.

(** A request that is pending, or was decided by someone else than its author. *)
Definition four_eyes (v : Request) : Prop :=
  ap_Status v = "pending" \/
  ((ap_Status v = "approved" \/ ap_Status v = "rejected") /\ ap_ApprovedBy v <> "" /\
   ap_ApprovedBy v <> ap_RequestedBy v /\
   exists at_, ap_DecidedAt v = Some at_ /\ ap_CreatedAt v <= at_).

Definition queue_ok (q : Queue) : Prop := map_Forall (fun _ v => four_eyes v) (items q).

Lemma approvals_step_ok o q : queue_ok q -> queue_ok (step o q).
Proof.
  intros Hq. destruct o as [v|id actor approve at_]; simpl.
  - unfold Submit. case_decide; [done|]. destruct (items q !! ap_ID v); [done|].
    apply map_Forall_insert_2; [left; by destruct v|done].
  - unfold Decide. destruct (items q !! id) as [v|] eqn:Hv; [|done]. case_decide as Hd; [done|].
    apply map_Forall_insert_2; [|done]. right. destruct v; simpl in *.
    split_and!; [destruct approve; auto|tauto|tauto|]. exists at_. split; [done|lia].
Qed.

(** What later calls may do to a request: nothing once it is decided. *)
Definition settles (v v' : Request) : Prop :=
  v' = v \/
  (ap_Status v = "pending" /\ ap_ID v' = ap_ID v /\ ap_RequestedBy v' = ap_RequestedBy v /\
   ap_ObjectID v' = ap_ObjectID v /\ ap_TenantID v' = ap_TenantID v /\ ap_Status v' <> "pending").

Definition later (q q' : Queue) : Prop :=
  forall id v, items q !! id = Some v -> exists v', items q' !! id = Some v' /\ settles v v'.

#[export] Instance later_preorder : PreOrder later.
Proof.
  split; [intros q id v Hv; exists v; split; [done|by left]|].
  intros q1 q2 q3 H12 H23 id v Hv. destruct (H12 _ _ Hv) as (v2 & Hv2 & Hs).
  destruct (H23 _ _ Hv2) as (v3 & Hv3 & Hs'). exists v3. split; [done|].
  destruct Hs as [->|Hs]; [done|]. destruct Hs' as [->|Hs']; [by right|]. destruct_and!. done.
Qed.

Lemma step_later o q : later q (step o q).
Proof.
  intros id v Hv. destruct o as [w|id' actor approve at_]; simpl.
  - unfold Submit. case_decide; [exists v; split; [done|by left]|].
    destruct (items q !! ap_ID w) eqn:Hw; [exists v; split; [done|by left]|]. simpl.
    exists v. rewrite lookup_insert_ne by congruence. split; [done|by left].
  - unfold Decide. destruct (items q !! id') as [w|] eqn:Hw; [|exists v; split; [done|by left]].
    case_decide as Hd; [exists v; split; [done|by left]|]. simpl. rewrite lookup_insert.
    case_decide; [|exists v; split; [done|by left]]. simplify_eq. eexists. split; [done|]. right.
    destruct v; simpl in *. split_and!; [|done..|by destruct approve].
    destruct (decide (ap_Status0 = "pending")); [done|tauto].
Qed.

(** Four eyes: a request that is not pending was decided by a named person other
    than its author, not before it was made; and a decision is final, whatever is
    called after it. *)
Theorem decisions_are_final ops ops' id v :
  let q := after step ops New in
  items q !! id = Some v -> ap_Status v <> "pending" ->
  ap_ApprovedBy v <> "" /\ ap_ApprovedBy v <> ap_RequestedBy v /\
  (exists at_, ap_DecidedAt v = Some at_ /\ ap_CreatedAt v <= at_) /\
  items (after step ops' q) !! id = Some v.
Proof.
  intros q Hv Hst.
  assert (Hq : queue_ok q) by (apply after_stable; [apply approvals_step_ok|apply map_Forall_empty]).
  destruct (Hq _ _ Hv) as [?|(_ & ? & ? & ?)]; [done|]. split_and!; [done..|].
  assert (Hlater : later q (after step ops' q)) by (apply (after_preorder step later); apply step_later).
  destruct (Hlater _ _ Hv) as (v' & Hv' & [->|[? _]]); done.
Qed.

Definition sample_request : Request := mkRequest "r1" "acme" "S1" "ann" "" "" 5 None.

Lemma decisions_are_final_witness :
  let q := after step [OSubmit sample_request; ODecide "r1" "ann" true 6; ODecide "r1" "bob" false 7] New in
  exists v, items q !! "r1" = Some v /\ ap_Status v = "rejected" /\
  items (after step [ODecide "r1" "cid" true 9; OSubmit sample_request] q) !! "r1" = Some v.
Proof.
  eexists. split; [vm_compute; reflexivity|]. split; [reflexivity|].
  apply (decisions_are_final
    [OSubmit sample_request; ODecide "r1" "ann" true 6; ODecide "r1" "bob" false 7]
    [ODecide "r1" "cid" true 9; OSubmit sample_request] "r1"); [vm_compute; reflexivity|discriminate].
Defined.
