(* ===== verification/aggregate.v ===== *)
(** * Package aggregate

    Shipments with the list of their transitions
    ([internal/aggregate/aggregate.go]).  The store copies the events of a shipment
    when it comes in and when it goes out, so they are values. *)

From S2P Require Import Prelude.
From S2P Require Import golang.
From S2P Require Import domain.
From S2P Require Import machine.

Open Scope string_scope.
Open Scope list_scope.
Open Scope Z_scope.

Record Shipment := mkShipment {
  ag_ID : string; ag_Status : ShipmentStatus; ag_Version : Z; ag_Events : list string }.

Record Store := mkStore { items : gmap string Shipment }.

Definition New : Store := mkStore ∅.

Definition Create (v : Shipment) (s : Store) : Store * result unit :=
  if decide (ag_ID v = "" \/ ag_Version v < 1) then (s, Err ErrInvalid) else
  match items s !! ag_ID v with
  | Some _ => (s, Err ErrConflict)
  | None => (mkStore (<[ag_ID v := v]> (items s)), Ok tt)
  end.

Definition Transition (id : string) (next : ShipmentStatus) (version : Z) (s : Store)
    : Store * result unit :=
  match items s !! id with
  | None => (s, Err ErrNotFound)
  | Some v =>
      if decide (ag_Version v <> version) then (s, Err ErrConflict) else
      if negb (Shipment_CanTransition (ag_Status v) next) then (s, Err ErrState) else
      let v := mkShipment (ag_ID v) next (add64 (ag_Version v) 1) (ag_Events v ++ [next]) in
      (mkStore (<[id := v]> (items s)), Ok tt)
  end.

Definition Get (id : string) (s : Store) : result Shipment :=
  match items s !! id with
  | None => Err ErrNotFound
  | Some v => Ok v
  end.

(** ** Sequences of calls *)

Inductive op :=
  | OCreate (v : Shipment)
  | OTransition (id : string) (next : ShipmentStatus) (version : Z).

Definition step (o : op) (s : Store) : Store :=
  match o with
  | OCreate v => (Create v s).1
  | OTransition id next version => (Transition id next version s).1
  end.

Lemma run_path_snoc can s l next :
  run_path can s (l ++ [next]) = run_path can s l && can (default s (last l)) next.
Proof.
  revert s. induction l as [|x l IH]; intros s; simpl; [by rewrite andb_true_r|].
  rewrite IH, andb_assoc. by rewrite default_last_cons.
Qed.

(** [replays v0 l v]: the events [l] lead from the shipment [v0] to [v]. *)
Definition replays (v0 : Shipment) (l : list string) (v : Shipment) : Prop :=
  ag_ID v = ag_ID v0 /\ ag_Events v = ag_Events v0 ++ l /\
  run_path Shipment_CanTransition (ag_Status v0) l = true /\
  ag_Status v = default (ag_Status v0) (last l) /\
  ag_Version v = wrap64 (ag_Version v0 + Z.of_nat (length l)).

Lemma replays_refl v : in_int64 (ag_Version v) -> replays v [] v.
Proof.
  intros Hv. unfold replays. rewrite app_nil_r, Z.add_0_r, wrap64_id by done. by split_and!.
Qed.

(** One call appends at most one event, which the machine allows. *)
Lemma step_replays o s id v0 l v :
  items s !! id = Some v -> replays v0 l v ->
  exists l' v', items (step o s) !! id = Some v' /\ replays v0 l' v'.
Proof.
  intros Hv Hr. destruct o as [w|id' next version]; simpl.
  - exists l, v. split; [|done]. unfold Create. case_decide; [done|].
    destruct (items s !! ag_ID w) eqn:Hw; [done|]. simpl. by rewrite lookup_insert_ne by congruence.
  - unfold Transition. destruct (items s !! id') as [w|] eqn:Hw; [|by exists l, v].
    case_decide; [by exists l, v|]. destruct (Shipment_CanTransition (ag_Status w) next) eqn:Hcan; simpl;
      [|by exists l, v].
    rewrite lookup_insert. case_decide; [|by exists l, v]. simplify_eq.
    destruct Hr as (Hid & He & Hp & Hst & Hver). exists (l ++ [next]). eexists. split; [done|].
    split_and!; simpl; [done| | | |].
    + by rewrite He, app_assoc.
    + by rewrite run_path_snoc, Hp, <- Hst, Hcan.
    + by rewrite last_snoc.
    + rewrite Hver, length_app. unfold add64. rewrite wrap64_wrap64. f_equal. simpl. lia.
Qed.

(** The events explain the state: whatever is called after a shipment is in the
    store, the events appended since are a path of the machine from the status it
    had to the status it has, and its version counts them. *)
Theorem events_replay ops ops' id v0 :
  items (after step ops New) !! id = Some v0 -> in_int64 (ag_Version v0) ->
  exists l v, items (after step (ops ++ ops') New) !! id = Some v /\
    ag_Events v = ag_Events v0 ++ l /\ (length l <= 5)%nat /\
    run_path Shipment_CanTransition (ag_Status v0) l = true /\
    ag_Status v = default (ag_Status v0) (last l) /\
    ag_Version v = wrap64 (ag_Version v0 + Z.of_nat (length l)).
Proof.
  intros Hv0 Hver. rewrite after_app. generalize (replays_refl v0 Hver). revert Hv0.
  assert (Hall : forall s v l, items s !! id = Some v -> replays v0 l v ->
    exists l' v', items (after step ops' s) !! id = Some v' /\ replays v0 l' v').
  { induction ops' as [|o ops' IH]; intros s v l Hv Hr; simpl; [by exists l, v|].
    destruct (step_replays o s id v0 l v Hv Hr) as (l' & v' & Hv' & Hr'). by eapply IH. }
  intros Hv0 Hr. destruct (Hall _ _ _ Hv0 Hr) as (l & v & Hv & (_ & He & Hp & Hst & Hn)).
  exists l, v. split_and!; try done. pose proof (run_path_length _ _ Hp) as Hlen.
  assert (forall st, stages_left st <= 5)%nat as Hmax.
  { intros st. unfold stages_left. repeat case_decide; lia. }
  specialize (Hmax (ag_Status v0)). lia.
Qed.

Definition sample_shipment : Shipment := mkShipment "S1" ShipmentDraft 1 ["created"].

Lemma events_replay_witness : exists l v,
  items (after step ([OCreate sample_shipment] ++
    [OTransition "S1" ShipmentBooked 1; OTransition "S1" ShipmentLoaded 2;
     OTransition "S1" ShipmentScreening 2]) New) !! "S1" = Some v /\
  ag_Events v = ["created"] ++ l /\ (length l <= 5)%nat /\
  run_path Shipment_CanTransition ShipmentDraft l = true /\
  ag_Status v = default ShipmentDraft (last l) /\ ag_Version v = wrap64 (1 + Z.of_nat (length l)).
Proof.
  apply (events_replay [OCreate sample_shipment]
    [OTransition "S1" ShipmentBooked 1; OTransition "S1" ShipmentLoaded 2;
     OTransition "S1" ShipmentScreening 2] "S1" sample_shipment).
  - vm_compute. reflexivity.
  - apply (bool_decide_unpack _). vm_compute. exact I.
Defined.
