(* ===== verification/collections.v ===== *)
(** * Packages collections, sets and sortx

    Functions on slices ([internal/collections/collections.go]), sets as slices (the
    module [sets], [internal/sets/sets.go]) and stable orders of records (the module
    [sortx], [internal/sortx/sortx.go]).  [None] is the panic of [make] with a negative
    capacity; the [map[T]bool] of the source is a finite set. *)

From stdpp Require Import gmap.
From S2P Require Import Prelude.
From S2P Require Import golang.

Open Scope string_scope.
Open Scope list_scope.
Open Scope Z_scope.

Section collections.
Context {T : Type}.
Implicit Types (values : list T).

(** The loop of [Chunk]: as long as values are left, the next part is [size] of them
    or all. *)
Fixpoint Chunk_loop (fuel : nat) (size : nat) values : list (list T) :=
  match fuel, values with
  | S fuel, _ :: _ =>
      let n := if decide (length values < size)%nat then length values else size in
      take n values :: Chunk_loop fuel size (drop n values)
  | _, _ => []
  end.

(** [(len(values)+size-1)/size] *)
Definition Chunk_cap (len size : Z) : Z := Z.quot (sub64 (add64 len size) 1) size.

Definition Chunk values (size : Z) : option (list (list T)) :=
  if decide (size < 1) then Some [] else
  if decide (Chunk_cap (Z.of_nat (length values)) size < 0) then None else
  Some (Chunk_loop (length values) (Z.to_nat size) values).

Definition Map {R} values (fn : T -> R) : list R := fn <$> values.

Definition Compact `{EqDecision T} values (zero : T) : list T := filter (fun v => v <> zero) values.

Definition Clone values : list T := [] ++ values.

(** ** Chunks *)

(** Full parts, then one that holds the rest. *)
Inductive chunks_of (size : nat) : list T -> list (list T) -> Prop :=
  | chunks_nil : chunks_of size [] []
  | chunks_last values : values <> [] -> (length values <= size)%nat -> chunks_of size values [values]
  | chunks_cons part values parts :
      length part = size -> values <> [] -> chunks_of size values parts ->
      chunks_of size (part ++ values) (part :: parts).

Lemma Chunk_loop_spec size fuel values :
  (1 <= size)%nat -> (length values <= fuel)%nat -> chunks_of size values (Chunk_loop fuel size values).
Proof.
  intros Hsize. revert values. induction fuel as [|fuel IH]; intros values Hlen.
  { destruct values; [constructor|simpl in Hlen; lia]. }
  destruct values as [|x values]; [constructor|]. cbn [Chunk_loop]. case_decide as Hs.
  - rewrite take_ge, drop_ge by lia. replace (Chunk_loop fuel size []) with (@nil (list T)) by (by destruct fuel).
    constructor; [done|lia].
  - destruct (drop size (x :: values)) as [|y rest] eqn:Hd.
    + replace (Chunk_loop fuel size []) with (@nil (list T)) by (by destruct fuel).
      apply (f_equal length) in Hd. rewrite length_drop in Hd. simpl length in *.
      rewrite take_ge by (simpl; lia). constructor; [done|simpl; lia].
    + rewrite <- (take_drop size (x :: values)) at 1. rewrite Hd. constructor.
      * rewrite length_take. lia.
      * done.
      * apply IH. rewrite <- Hd, length_drop. simpl in *. lia.
Qed.

Lemma chunks_of_concat size values parts : chunks_of size values parts -> concat parts = values.
Proof. induction 1; simpl; [done|by rewrite app_nil_r|by f_equal]. Qed.

Lemma chunks_of_sizes size values parts :
  (1 <= size)%nat -> chunks_of size values parts ->
  Forall (fun part => (1 <= length part <= size)%nat) parts.
Proof.
  intros Hs. induction 1 as [|values Hv Hl|part values parts Hp _ _ IH]; constructor; try done.
  - destruct values; [done|]. simpl in *. lia.
  - lia.
Qed.

Lemma Chunk_cap_nonneg len size :
  0 <= len -> 1 <= size -> len + size - 1 <= max_int64 -> 0 <= Chunk_cap len size.
Proof.
  intros Hl Hs Hm. unfold Chunk_cap, sub64, add64. destruct (decide (len + size <= max_int64)) as [Hle|Hgt].
  - rewrite (wrap64_id (len + size)) by int64_lia. rewrite wrap64_id by int64_lia.
    apply Z.quot_pos; lia.
  - replace (wrap64 (len + size) - 1) with (wrap64 (len + size) + -1) by lia.
    rewrite wrap64_wrap64. rewrite wrap64_id by int64_lia. apply Z.quot_pos; lia.
Qed.

(** The parts of a slice, put together, are the slice; all but the last have the
    requested size and the last has no more, as long as the rounded-up length is an
    [int]. *)
Theorem Chunk_parts values size :
  1 <= size -> Z.of_nat (length values) + size - 1 <= max_int64 ->
  exists parts, Chunk values size = Some parts /\ chunks_of (Z.to_nat size) values parts /\
    concat parts = values /\ Forall (fun part => 1 <= Z.of_nat (length part) <= size) parts.
Proof.
  intros Hs Hm. unfold Chunk. rewrite decide_False by lia.
  rewrite decide_False by (pose proof (Chunk_cap_nonneg (Z.of_nat (length values)) size); lia).
  assert (Hc : chunks_of (Z.to_nat size) values (Chunk_loop (length values) (Z.to_nat size) values))
    by (apply Chunk_loop_spec; lia).
  eexists. split; [done|]. split; [done|]. split; [by eapply chunks_of_concat|].
  eapply Forall_impl; [apply (chunks_of_sizes (Z.to_nat size) values); [lia|exact Hc]|].
  simpl. intros part Hp. lia.
Qed.
End collections.

(** The rounding overflows for a size near the largest [int]: [make] panics. *)
Lemma Chunk_panics {T} (x y z : T) : Chunk [x; y; z] max_int64 = None.
Proof. reflexivity. Qed.

Lemma Chunk_parts_witness :
  exists parts, Chunk [1; 2; 3; 4; 5]%N 2 = Some parts /\ concat parts = [1; 2; 3; 4; 5]%N.
Proof.
  destruct (Chunk_parts [1; 2; 3; 4; 5]%N 2) as (parts & H1 & _ & H2 & _); [lia|vm_compute; discriminate|].
  exists parts. split; [exact H1|exact H2].
Defined.

(** ** Package sets *)

Module sets.
Section sets.
Context {T : Type} `{Countable T}.
Implicit Types (a b : list T) (seen : gset T).

(** The loop that fills [seen]. *)
Definition seen_of b : gset T := foldl (fun seen v => {[ v ]} ∪ seen) ∅ b.

Definition Difference a b : list T :=
  let seen := seen_of b in filter (fun v => v ∉ seen) a.

Fixpoint Union_loop seen (l : list T) : list T :=
  match l with
  | [] => []
  | v :: l => if decide (v ∈ seen) then Union_loop seen l else v :: Union_loop ({[ v ]} ∪ seen) l
  end.

Definition Union a b : list T := Union_loop ∅ (a ++ b).

Fixpoint Contains (values : list T) (target : T) : bool :=
  match values with
  | [] => false
  | v :: values => if decide (v = target) then true else Contains values target
  end.

Lemma elem_of_seen_of b v : v ∈ seen_of b <-> v ∈ b.
Proof.
  unfold seen_of. induction b as [|x b IH] using rev_ind; [set_solver|].
  rewrite foldl_app. simpl. set_solver.
Qed.

Lemma Contains_elem values target : Contains values target = true <-> target ∈ values.
Proof.
  induction values as [|v values IH]; simpl; [set_solver|].
  case_decide; [set_solver|]. rewrite IH. set_solver.
Qed.

Lemma elem_of_Difference a b v : v ∈ Difference a b <-> v ∈ a /\ v ∉ b.
Proof. unfold Difference. rewrite list_elem_of_filter, elem_of_seen_of. tauto. Qed.

Lemma Union_loop_spec seen l :
  NoDup (Union_loop seen l) /\ forall v, v ∈ Union_loop seen l <-> v ∈ l /\ v ∉ seen.
Proof.
  revert seen. induction l as [|x l IH]; intros seen; simpl; [split; [constructor|set_solver]|].
  case_decide as Hx.
  - destruct (IH seen) as [Hn He]. split; [done|]. intros v. rewrite He. set_solver.
  - destruct (IH ({[ x ]} ∪ seen)) as [Hn He]. split.
    + constructor; [|done]. rewrite He. set_solver.
    + intros v. rewrite elem_of_cons, He. destruct (decide (v = x)); set_solver.
Qed.

(** Nothing that was seen comes back, and the others come in the order of their
    first occurrence. *)
Lemma Union_loop_skip seen l1 v l2 :
  v ∉ l1 -> v ∉ seen ->
  Union_loop seen (l1 ++ v :: l2) =
  Union_loop seen l1 ++ v :: Union_loop ({[ v ]} ∪ (list_to_set l1 ∪ seen)) l2.
Proof.
  revert seen. induction l1 as [|x l1 IH]; intros seen Hv Hs; simpl.
  { rewrite decide_False by done. by replace (∅ ∪ seen) with seen by set_solver. }
  case_decide as Hx.
  - rewrite IH by set_solver. do 3 f_equal. set_solver.
  - simpl. f_equal. rewrite IH by set_solver. do 3 f_equal. set_solver.
Qed.

(** The operations are those of sets: a union has each element of its arguments
    once, where it first occurs, a difference has those of the first that the second
    has not, in order, and membership is decided. *)
Theorem set_operations a b :
  NoDup (Union a b) /\
  (forall v, v ∈ Union a b <-> v ∈ a \/ v ∈ b) /\
  (forall l1 v l2, a ++ b = l1 ++ v :: l2 -> v ∉ l1 ->
     exists rest, Union a b = Union l1 [] ++ v :: rest) /\
  (forall v, v ∈ Difference a b <-> v ∈ a /\ v ∉ b) /\
  Difference a b `sublist_of` a /\
  (forall v, Contains a v = true <-> v ∈ a).
Proof.
  destruct (Union_loop_spec ∅ (a ++ b)) as [Hn He]. split_and!; [done| | | | |].
  - intros v. unfold Union. rewrite He. set_solver.
  - intros l1 v l2 Hab Hv. unfold Union. rewrite Hab, app_nil_r, Union_loop_skip by set_solver. eauto.
  - apply elem_of_Difference.
  - apply sublist_filter.
  - apply Contains_elem.
Qed.
End sets.
End sets.

(** ** Package sortx *)

Module sortx.
Record Record_ := mkRecord { rec_ID : string; rec_Time : Time; rec_Score : Z }.

Definition ByTime_less (descending : bool) (x y : Record_) : bool :=
  if descending then bool_decide (rec_Time x > rec_Time y) else bool_decide (rec_Time x < rec_Time y).

Definition ByTime (records : list Record_) (descending : bool) : list Record_ :=
  SliceStable (ByTime_less descending) records.

Definition ByScore_less (x y : Record_) : bool :=
  if decide (rec_Score x = rec_Score y) then string_less (rec_ID x) (rec_ID y)
  else bool_decide (rec_Score x > rec_Score y).

Definition ByScore (records : list Record_) : list Record_ := SliceStable ByScore_less records.

Lemma ByTime_less_weak_order descending : weak_order (ByTime_less descending).
Proof.
  split; unfold ByTime_less; destruct descending; intros *;
    rewrite ?bool_decide_eq_true, ?bool_decide_eq_false; lia.
Qed.

Lemma ByScore_less_weak_order : weak_order ByScore_less.
Proof.
  assert (Heq : forall x y, ByScore_less x y = less_then (fun r => - rec_Score r) rec_ID x y).
  { intros x y. unfold ByScore_less, less_then. repeat case_decide; try done; try lia. }
  pose proof (less_then_weak_order (fun r => - rec_Score r) rec_ID) as Hw.
  split; intros *; rewrite !Heq; by apply Hw.
Qed.

(** Both functions reorder the records: by falling score and then identifier, or
    by time in either direction, where records of one instant keep their order. *)
Theorem sorts_records records descending :
  ByTime records descending ≡ₚ records /\
  sorted_by (ByTime_less descending) (ByTime records descending) /\
  (forall t, filter (fun r => rec_Time r = t) (ByTime records descending) =
             filter (fun r => rec_Time r = t) records) /\
  ByScore records ≡ₚ records /\ sorted_by ByScore_less (ByScore records).
Proof.
  split_and!; try apply SliceStable_perm.
  - apply SliceStable_sorted, ByTime_less_weak_order.
  - intros t.
    assert (Ht : forall l : list Record_, filter (fun r => rec_Time r = t) l =
      filter (same_rank (ByTime_less descending) (mkRecord "" t 0)) l).
    { intros l. apply list_filter_iff. intros r. unfold same_rank, ByTime_less.
      destruct descending; simpl; rewrite !bool_decide_eq_false; lia. }
    rewrite !Ht. apply SliceStable_stable, ByTime_less_weak_order.
  - apply SliceStable_sorted, ByScore_less_weak_order.
Qed.
End sortx.
