(* ===== verification/filter.v ===== *)
(** * Package filter

    Shipment filters ([internal/filter/filter.go]). *)

From S2P Require Import Prelude.
From S2P Require Import golang.
From S2P Require Import domain.
From S2P Require Import external.

Open Scope string_scope.
Open Scope list_scope.
Open Scope Z_scope.

Record Shipment := mkShipment {
  fs_ID : string; fs_TenantID : string; fs_Reference : string; fs_Status : ShipmentStatus;
  fs_Origin : string; fs_Destination : string; fs_WeightKg : Z; fs_CreatedAt : Time }.

Record Input := mkInput {
  in_TenantID : string; in_Text : string; in_Statuses : list ShipmentStatus; in_Origin : string;
  in_Destination : string; in_MinWeight : Z; in_MaxWeight : Z; in_Since : option Time;
  in_Until : option Time }.

Section filter.
Context `{External}.

(** The [map[S]bool] of the statuses, read with [false] for absent keys. *)
Definition statuses_of (l : list ShipmentStatus) : gmap string bool :=
  foldl (fun m s => <[s := true]> m) ∅ l.

(** The body of the loop: the item is passed over, or kept. *)
Definition keep (in_ : Input) (statuses : gmap string bool) (text : string) (item : Shipment) : bool :=
  if decide (in_TenantID in_ <> "" /\ fs_TenantID item <> in_TenantID in_) then false else
  if bool_decide (text <> "") && negb (strings_Contains (strings_ToLower (fs_Reference item)) text)
  then false else
  if bool_decide (0 < size statuses)%nat && negb (default false (statuses !! fs_Status item))
  then false else
  if decide (in_Origin in_ <> "" /\ fs_Origin item <> in_Origin in_) then false else
  if decide (in_Destination in_ <> "" /\ fs_Destination item <> in_Destination in_) then false else
  if decide (in_MinWeight in_ > 0 /\ fs_WeightKg item < in_MinWeight in_) then false else
  if decide (in_MaxWeight in_ > 0 /\ fs_WeightKg item > in_MaxWeight in_) then false else
  if match in_Since in_ with Some t => bool_decide (fs_CreatedAt item < t) | None => false end
  then false else
  if match in_Until in_ with Some t => bool_decide (~ fs_CreatedAt item < t) | None => false end
  then false else true.

Fixpoint Apply_loop (in_ : Input) (statuses : gmap string bool) (text : string)
    (items : list Shipment) (out : list Shipment) : list Shipment :=
  match items with
  | [] => out
  | item :: items =>
      if keep in_ statuses text item then Apply_loop in_ statuses text items (out ++ [item])
      else Apply_loop in_ statuses text items out
  end.

Definition Apply (items : list Shipment) (in_ : Input) : list Shipment :=
  Apply_loop in_ (statuses_of (in_Statuses in_)) (strings_ToLower (TrimSpace (in_Text in_))) items [].

Definition Normalize (in_ : Input) : Input :=
  let 'mkInput tenant text statuses origin destination min max since until := in_ in
  mkInput tenant (TrimSpace text) statuses (strings_ToUpper (TrimSpace origin))
    (strings_ToUpper (TrimSpace destination)) (if decide (min < 0) then 0 else min)
    (if decide (max < 0) then 0 else max) since until.

(** ** Specification *)

(** What a filter asks of a shipment: an empty criterion asks nothing, the weights
    are bounds when positive, the period is half open. *)
Record matches (in_ : Input) (s : Shipment) : Prop := {
  match_tenant : in_TenantID in_ = "" \/ fs_TenantID s = in_TenantID in_;
  match_text : let text := strings_ToLower (TrimSpace (in_Text in_)) in
    text = "" \/ strings_Contains (strings_ToLower (fs_Reference s)) text = true;
  match_status : in_Statuses in_ = [] \/ fs_Status s ∈ in_Statuses in_;
  match_origin : in_Origin in_ = "" \/ fs_Origin s = in_Origin in_;
  match_destination : in_Destination in_ = "" \/ fs_Destination s = in_Destination in_;
  match_min : in_MinWeight in_ <= 0 \/ in_MinWeight in_ <= fs_WeightKg s;
  match_max : in_MaxWeight in_ <= 0 \/ fs_WeightKg s <= in_MaxWeight in_;
  match_since t : in_Since in_ = Some t -> t <= fs_CreatedAt s;
  match_until t : in_Until in_ = Some t -> fs_CreatedAt s < t }.

Lemma statuses_of_lookup l s : statuses_of l !! s = if decide (s ∈ l) then Some true else None.
Proof.
  unfold statuses_of. induction l as [|x l IH] using rev_ind; [by rewrite decide_False by set_solver|].
  rewrite foldl_app. simpl. rewrite lookup_insert, IH. repeat case_decide; set_solver.
Qed.

Lemma statuses_of_size l : (0 < size (statuses_of l))%nat <-> l <> [].
Proof.
  split.
  - intros Hs ->. unfold statuses_of in Hs. simpl in Hs. rewrite map_size_empty in Hs. lia.
  - intros Hl. destruct l as [|x l]; [done|].
    assert (size (statuses_of (x :: l)) <> 0%nat); [|lia]. apply map_size_ne_0_lookup. exists x.
    rewrite statuses_of_lookup, decide_True by set_solver. eauto.
Qed.

Lemma keep_matches in_ s :
  keep in_ (statuses_of (in_Statuses in_)) (strings_ToLower (TrimSpace (in_Text in_))) s = true <->
  matches in_ s.
Proof.
  assert (Hd : forall P (dP : Decision P) b,
    (if dP then false else b) = true <-> ~ P /\ b = true) by (intros P [] b; naive_solver).
  assert (Hb : forall c b : bool, (if c then false else b) = true <-> c = false /\ b = true)
    by (intros [] b; naive_solver).
  assert (Hst : bool_decide (0 < size (statuses_of (in_Statuses in_)))%nat &&
    negb (default false (statuses_of (in_Statuses in_) !! fs_Status s)) = false <->
    (in_Statuses in_ = [] \/ fs_Status s ∈ in_Statuses in_)).
  { rewrite andb_false_iff, bool_decide_eq_false, statuses_of_size, negb_false_iff, statuses_of_lookup.
    destruct (in_Statuses in_) as [|x l]; [naive_solver|]. case_decide; naive_solver. }
  assert (Hs : forall o t, match o with Some x => bool_decide (t < x) | None => false end = false <->
    forall x, o = Some x -> x <= t).
  { intros [x|] t; [|by split]. rewrite bool_decide_eq_false. split; [intros Hx y [= <-]; lia|].
    intros Hx. specialize (Hx x eq_refl). lia. }
  assert (Hu : forall o t, match o with Some x => bool_decide (~ t < x) | None => false end = false <->
    forall x, o = Some x -> t < x).
  { intros [x|] t; [|by split]. rewrite bool_decide_eq_false. split; [intros Hx y [= <-]; lia|].
    intros Hx. specialize (Hx x eq_refl). lia. }
  assert (Hor : forall A B : string, ~ (A <> "" /\ B <> A) <-> (A = "" \/ B = A)).
  { intros A B. destruct (decide (A = "")), (decide (B = A)); naive_solver. }
  unfold keep. repeat (rewrite Hd || rewrite Hb).
  rewrite Hst, Hs, Hu, !Hor, andb_false_iff, bool_decide_eq_false, negb_false_iff.
  split.
  - intros (H1 & H2 & H3 & H4 & H5 & H6 & H7 & H8 & H9 & _).
    split; simpl; try done; [|lia..]. destruct H2 as [H2%dec_stable|]; tauto.
  - intros []. split_and!; try done; [|lia..]. destruct match_text0 as [Ht|]; [left|by right].
    by intros Hne.
Qed.

Lemma Apply_loop_filter in_ statuses text items out :
  Apply_loop in_ statuses text items out =
  out ++ filter (fun s => keep in_ statuses text s = true) items.
Proof.
  revert out. induction items as [|s items IH]; intros out; simpl; [by rewrite app_nil_r|].
  rewrite filter_cons. destruct (keep in_ statuses text s) eqn:Hk; rewrite IH.
  - by rewrite decide_True, <- (assoc (++)).
  - by rewrite decide_False.
Qed.

(** Applying a filter keeps the shipments that match every criterion, in their
    order, and no others; applying it again changes nothing. *)
Theorem Apply_matches items in_ :
  Apply items in_ `sublist_of` items /\
  (forall s, s ∈ Apply items in_ <-> s ∈ items /\ matches in_ s) /\
  Apply (Apply items in_) in_ = Apply items in_.
Proof.
  unfold Apply. rewrite !Apply_loop_filter. simpl. split_and!.
  - apply sublist_filter.
  - intros s. rewrite list_elem_of_filter, keep_matches. tauto.
  - rewrite list_filter_filter. apply list_filter_iff. tauto.
Qed.
End filter.
