(* ===== verification/search.v ===== *)
(** * Package search

    Search over shipments with a score ([internal/search/query.go]). *)

From S2P Require Import Prelude.
From S2P Require Import golang.
From S2P Require Import domain.
From S2P Require Import external.
From S2P Require Import filter.

Open Scope string_scope.
Open Scope list_scope.
Open Scope Z_scope.

Record Query := mkQuery {
  q_Term : string; q_Statuses : list ShipmentStatus; q_Origin : string; q_Destination : string;
  q_Limit : Z }.

Record Item := mkItem {
  it_ID : string; it_Reference : string; it_Origin : string; it_Destination : string;
  it_Status : ShipmentStatus; it_Score : Z }.

Definition set_it_Score (n : Z) (v : Item) : Item :=
  let 'mkItem a b c d e _ := v in mkItem a b c d e n.

Section search.
Context `{External}.

Definition score (v : Item) (term : string) : Z :=
  if decide (term = "") then 0 else
  let score := 0 in
  let score := if strings_EqualFold (it_Reference v) term then score + 100 else score in
  if strings_Contains (strings_ToLower (it_Reference v)) term then score + 10 else score.

(** The conditions under which the loop passes over an item. *)
Definition skipped (q : Query) (term : string) (status : gmap string bool) (v : Item) : bool :=
  (bool_decide (term <> "") && negb (strings_Contains (strings_ToLower (it_Reference v)) term)) ||
  bool_decide (q_Origin q <> "" /\ it_Origin v <> q_Origin q) ||
  bool_decide (q_Destination q <> "" /\ it_Destination v <> q_Destination q) ||
  (bool_decide (0 < size status)%nat && negb (default false (status !! it_Status v))).

Fixpoint Filter_loop (q : Query) (term : string) (status : gmap string bool)
    (items out : list Item) : list Item :=
  match items with
  | [] => out
  | v :: items =>
      if skipped q term status v then Filter_loop q term status items out
      else Filter_loop q term status items (out ++ [set_it_Score (score v term) v])
  end.

(** The order of the results. *)
Definition better (x y : Item) : bool :=
  if decide (it_Score x = it_Score y) then string_less (it_ID x) (it_ID y)
  else bool_decide (it_Score x > it_Score y).

Definition Filter (items : list Item) (q : Query) : list Item :=
  let term := strings_ToLower (TrimSpace (q_Term q)) in
  let out := Filter_loop q term (statuses_of (q_Statuses q)) items [] in
  let out := SliceStable better out in
  if decide (q_Limit q > 0 /\ Z.of_nat (length out) > q_Limit q)
  then take (Z.to_nat (q_Limit q)) out else out.

(** ** Specification *)

(** What a query asks of an item. *)
Definition found (q : Query) (v : Item) : Prop :=
  let term := strings_ToLower (TrimSpace (q_Term q)) in
  (term = "" \/ strings_Contains (strings_ToLower (it_Reference v)) term = true) /\
  (q_Origin q = "" \/ it_Origin v = q_Origin q) /\
  (q_Destination q = "" \/ it_Destination v = q_Destination q) /\
  (q_Statuses q = [] \/ it_Status v ∈ q_Statuses q).

(** Its score: nothing without a term, else 10, and 110 for the whole reference. *)
Definition rank (q : Query) (v : Item) : Z :=
  let term := strings_ToLower (TrimSpace (q_Term q)) in
  if decide (term = "") then 0 else if strings_EqualFold (it_Reference v) term then 110 else 10.

Lemma skipped_found q v :
  skipped q (strings_ToLower (TrimSpace (q_Term q))) (statuses_of (q_Statuses q)) v = false <->
  found q v.
Proof.
  unfold skipped, found. rewrite !orb_false_iff, !andb_false_iff, !bool_decide_eq_false,
    !negb_false_iff, statuses_of_size, statuses_of_lookup.
  assert (Hor : forall A B : string, ~ (A <> "" /\ B <> A) <-> (A = "" \/ B = A)).
  { intros A B. destruct (decide (A = "")), (decide (B = A)); naive_solver. }
  rewrite !Hor. destruct (decide (strings_ToLower (TrimSpace (q_Term q)) = "")),
    (decide (q_Statuses q = [])); case_decide; naive_solver.
Qed.

Lemma found_rank q v : found q v -> score v (strings_ToLower (TrimSpace (q_Term q))) = rank q v.
Proof.
  intros (Ht & _). unfold score, rank. case_decide; [done|]. destruct Ht as [|Ht]; [done|].
  rewrite Ht. by destruct (strings_EqualFold _ _).
Qed.

Lemma Filter_loop_found q items out :
  exists new, Filter_loop q (strings_ToLower (TrimSpace (q_Term q))) (statuses_of (q_Statuses q)) items out
    = out ++ new /\
  forall v, v ∈ new <-> exists u, u ∈ items /\ found q u /\ v = set_it_Score (rank q u) u.
Proof.
  revert out. induction items as [|u items IH]; intros out; simpl.
  { exists []. rewrite app_nil_r. set_solver. }
  destruct (skipped q _ _ u) eqn:Hu.
  - destruct (IH out) as (new & -> & Hn). exists new. split; [done|]. intros v. rewrite Hn.
    assert (~ found q u) by (rewrite <- skipped_found; congruence). set_solver.
  - apply skipped_found in Hu. rewrite (found_rank _ _ Hu).
    destruct (IH (out ++ [set_it_Score (rank q u) u])) as (new & -> & Hn).
    exists (set_it_Score (rank q u) u :: new). rewrite <- (assoc (++)). split; [done|].
    intros v. rewrite elem_of_cons, Hn. set_solver.
Qed.

Lemma better_weak_order : weak_order better.
Proof.
  assert (Heq : forall x y, better x y = less_then (fun v => - it_Score v) it_ID x y).
  { intros x y. unfold better, less_then. repeat case_decide; try done; try lia. }
  pose proof (less_then_weak_order (fun v => - it_Score v) it_ID) as Hw.
  split; intros *; rewrite !Heq; by apply Hw.
Qed.

(** A search answers with items that the query asks for, with their scores, best
    scores first and then by identifier; it leaves nothing better out: an item that
    is missing although it was asked for is not before any item of the answer, and
    is missing only when the answer has as many items as the limit. *)
Theorem Filter_best items q :
  let out := Filter items q in
  sorted_by better out /\
  (forall v, v ∈ out -> exists u, u ∈ items /\ found q u /\ v = set_it_Score (rank q u) u) /\
  (q_Limit q > 0 -> Z.of_nat (length out) <= q_Limit q) /\
  (forall u, u ∈ items -> found q u -> set_it_Score (rank q u) u ∈ out \/
     (Z.of_nat (length out) = q_Limit q /\ 0 < q_Limit q /\
      forall v, v ∈ out -> better (set_it_Score (rank q u) u) v = false)).
Proof.
  intros out. unfold out, Filter.
  destruct (Filter_loop_found q items []) as (new & -> & Hnew). simpl.
  pose proof (SliceStable_perm better new) as Hp.
  pose proof (SliceStable_sorted better better_weak_order new) as Hs.
  set (all := SliceStable better new) in *.
  assert (Hall : forall v, v ∈ all <-> v ∈ new) by (intros v; by rewrite Hp).
  case_decide as Hl; split_and!.
  - by apply sorted_by_prefix.
  - intros v Hv. apply Hnew, Hall. rewrite <- (take_drop (Z.to_nat (q_Limit q)) all). set_solver.
  - intros _. rewrite length_take. lia.
  - intros u Hu Hf.
    assert (Hin : set_it_Score (rank q u) u ∈ all) by (apply Hall, Hnew; eauto).
    rewrite <- (take_drop (Z.to_nat (q_Limit q)) all) in Hin. apply elem_of_app in Hin as [Hin|Hin]; [by left|].
    right. rewrite length_take. split; [lia|]. split; [lia|]. intros v Hv.
    rewrite <- (take_drop (Z.to_nat (q_Limit q)) all) in Hs. by eapply sorted_by_app.
  - done.
  - intros v Hv. by apply Hnew, Hall.
  - intros Hpos. lia.
  - intros u Hu Hf. left. apply Hall, Hnew. eauto.
Qed.
End search.
