(* ===== verification/timeline.v ===== *)
(** * Package timeline

    The events of a shipment in time ([internal/timeline/timeline.go]). *)

From S2P Require Import Prelude.
From S2P Require Import golang.
From S2P Require Import domain.
From S2P Require Import machine.

Open Scope string_scope.
Open Scope list_scope.
Open Scope Z_scope.

Record Event := mkEvent { ev_Kind : string; ev_At : Time; ev_Actor : string; ev_Details : string }.
Record Timeline := mkTimeline { Events : list Event }.

Definition New : Timeline := mkTimeline [].

Definition Append (e : Event) (t : Timeline) : Timeline * result unit :=
  if decide (ev_Kind e = "" \/ ev_Actor e = "" \/ IsZero (ev_At e)) then (t, Err ErrInvalid) else
  if existsb (fun old => bool_decide (ev_Kind old = ev_Kind e /\ ev_At old = ev_At e)) (Events t)
  then (t, Err ErrConflict) else
  (mkTimeline (SliceStable (less_on ev_At) (Events t ++ [e])), Ok tt).

Definition Between (t : Timeline) (start end_ : Time) : list Event :=
  filter (fun e => ~ ev_At e < start /\ ev_At e < end_) (Events t).

(** The loop from the last event to the first. *)
Fixpoint Latest_loop (kind : string) (backwards : list Event) : result Event :=
  match backwards with
  | [] => Err ErrNotFound
  | e :: l => if decide (ev_Kind e = kind) then Ok e else Latest_loop kind l
  end.

Definition Latest (t : Timeline) (kind : string) : result Event := Latest_loop kind (rev (Events t)).

Definition Duration_ (t : Timeline) (startKind endKind : string) : result Duration :=
  match Latest t startKind with
  | Err err => Err err
  | Ok a =>
      match Latest t endKind with
      | Err err => Err err
      | Ok b => if decide (ev_At b < ev_At a) then Err ErrState else Ok (time_Sub (ev_At b) (ev_At a))
      end
  end.

(** ** Timelines *)

Record timeline_ok (t : Timeline) : Prop := {
  ok_sorted : sorted_by (less_on ev_At) (Events t);
  ok_distinct : NoDup ((fun e => (ev_Kind e, ev_At e)) <$> Events t);
  ok_events : Forall (fun e => ev_Kind e <> "" /\ ev_Actor e <> "" /\ ~ IsZero (ev_At e)) (Events t) }.

Definition step (e : Event) (t : Timeline) : Timeline := (Append e t).1.

Lemma Append_timeline_ok e t : timeline_ok t -> timeline_ok (step e t).
Proof.
  intros [Hs Hd He]. unfold step, Append. case_decide as Hi; [by split|].
  destruct (existsb _ _) eqn:Hex; [by split|].
  assert (Hno : (ev_Kind e, ev_At e) ∉ ((fun e => (ev_Kind e, ev_At e)) <$> Events t)).
  { rewrite list_elem_of_fmap. intros (old & [= Hk Ha] & Hin). apply not_true_iff_false in Hex.
    apply Hex, existsb_exists. exists old. split; [by apply list_elem_of_In|]. by apply bool_decide_eq_true. }
  split; simpl.
  - apply SliceStable_sorted, less_on_weak_order.
  - rewrite SliceStable_perm, fmap_app. simpl. apply NoDup_app. split_and!; [done| |apply NoDup_singleton].
    intros x Hx [->|[]%elem_of_nil]%elem_of_cons. done.
  - rewrite SliceStable_perm. apply Forall_app. split; [done|]. constructor; [tauto|constructor].
Qed.

Lemma timeline_after_ok es : timeline_ok (after step es New).
Proof.
  apply after_stable; [apply Append_timeline_ok|]. split; simpl; constructor.
Qed.

Lemma Latest_loop_spec kind l e :
  Latest_loop kind l = Ok e <->
  exists newer older, l = newer ++ e :: older /\ ev_Kind e = kind /\ Forall (fun x => ev_Kind x <> kind) newer.
Proof.
  induction l as [|x l IH]; simpl.
  { split; [done|]. intros ([] & older & Hl & _); done. }
  case_decide as Hx.
  - split.
    + intros [= ->]. by exists [], l.
    + intros ([|y newer] & older & Hl & Hk & Hn); simplify_eq/=; [done|]. by inversion Hn.
  - rewrite IH. split.
    + intros (newer & older & -> & Hk & Hn). exists (x :: newer), older. split_and!; [done|done|by constructor].
    + intros ([|y newer] & older & Hl & Hk & Hn); simplify_eq/=. inversion Hn. by eauto.
Qed.

Lemma Latest_loop_none kind l e : Latest_loop kind l = Err e <-> e = ErrNotFound /\ Forall (fun x => ev_Kind x <> kind) l.
Proof.
  induction l as [|x l IH]; simpl; [naive_solver|]. rewrite Forall_cons. case_decide; naive_solver.
Qed.

(** After any appends the events are in the order of their instants, none
    repeats kind and instant, and the latest event of a kind is one that no event of
    the kind is after; asking for it fails exactly when there is none.  A duration
    is the time from the latest event of one kind to that of the other. *)
Theorem timeline_queries es kind kind' start end_ :
  let t := after step es New in
  sorted_by (less_on ev_At) (Events t) /\
  NoDup ((fun e => (ev_Kind e, ev_At e)) <$> Events t) /\
  (forall e, Latest t kind = Ok e -> e ∈ Events t /\ ev_Kind e = kind /\
     forall x, x ∈ Events t -> ev_Kind x = kind -> ev_At x <= ev_At e) /\
  (forall err, Latest t kind = Err err <-> err = ErrNotFound /\ forall x, x ∈ Events t -> ev_Kind x <> kind) /\
  (forall d, Duration_ t kind kind' = Ok d -> 0 <= d /\ exists a b, Latest t kind = Ok a /\
     Latest t kind' = Ok b /\ (ev_At b - ev_At a <= max_int64 -> d = ev_At b - ev_At a)) /\
  (forall x, x ∈ Between t start end_ <-> x ∈ Events t /\ start <= ev_At x < end_).
Proof.
  intros t. destruct (timeline_after_ok es) as [Hs Hd _]. fold t in Hs, Hd. split_and!; [done..| | | |].
  - intros e (newer & older & Hl & Hk & Hn)%Latest_loop_spec.
    apply (f_equal (@rev Event)) in Hl. rewrite rev_involutive, rev_app_distr in Hl. simpl in Hl.
    rewrite <- (assoc (++)) in Hl. rewrite Hl in *. simpl. split; [set_solver|]. split; [done|].
    intros x Hx Hkx. apply elem_of_app in Hx as [Hx|Hx].
    + assert (less_on ev_At e x = false) as Hle by (eapply sorted_by_app; [exact Hs|done|set_solver]).
      apply bool_decide_eq_false in Hle. lia.
    + apply elem_of_cons in Hx as [->|Hx]; [lia|].
      rewrite Forall_forall in Hn. destruct (Hn x); [|done].
      apply list_elem_of_In. apply list_elem_of_In in Hx. by apply in_rev.
  - intros err. unfold Latest. rewrite Latest_loop_none, Forall_forall.
    assert (Hrev : forall x, x ∈ rev (Events t) <-> x ∈ Events t)
      by (intros x; rewrite !list_elem_of_In; symmetry; apply in_rev).
    by setoid_rewrite Hrev.
  - intros d. unfold Duration_. destruct (Latest t kind) as [a|]; [|done].
    destruct (Latest t kind') as [b|]; [|done]. case_decide as Hba; [done|]. intros [= <-].
    unfold time_Sub. split; [int64_lia|]. exists a, b. split_and!; [done..|]. intros. int64_lia.
  - intros x. unfold Between. rewrite list_elem_of_filter. intuition lia.
Qed.
