(* ===== verification/pricing.v ===== *)
(** * Package pricing

    Freight rates and quotes ([internal/pricing/rules.go]). *)

From S2P Require Import Prelude.
From S2P Require Import golang.
From S2P Require Import domain.

Open Scope string_scope.
Open Scope list_scope.
Open Scope Z_scope.

Record Rate := mkRate {
  r_Origin : string; r_Destination : string; r_MinKg : Z; r_MaxKg : Z; r_CentsPerKg : Z;
  r_FuelCents : Z; r_EffectiveFrom : Time; r_EffectiveTo : Time }.

Record Quote := mkQuote {
  qt_Currency : string; qt_BaseCents : Z; qt_FuelCents : Z; qt_Surcharges : Z; qt_TotalCents : Z;
  qt_Rate : Rate }.

Record Table := mkTable { rates : list Rate }.

Definition NewTable : Table := mkTable [].

Definition Add (r : Rate) (t : Table) : Table * result unit :=
  if decide (r_Origin r = "" \/ r_Destination r = "" \/ r_MinKg r <= 0 \/ r_MaxKg r < r_MinKg r \/
             r_CentsPerKg r < 0 \/ ~ r_EffectiveTo r > r_EffectiveFrom r)
  then (t, Err ErrInvalid) else (mkTable (rates t ++ [r]), Ok tt).

(** The condition of the loop over the rates. *)
Definition applies (origin destination : string) (weight : Z) (at_ : Time) (r : Rate) : Prop :=
  r_Origin r = origin /\ r_Destination r = destination /\ weight >= r_MinKg r /\ weight <= r_MaxKg r /\
  ~ at_ < r_EffectiveFrom r /\ at_ < r_EffectiveTo r.

#[export] Instance applies_dec o d w at_ r : Decision (applies o d w at_ r).
Proof. unfold applies. apply _. Defined.

Definition later (x y : Rate) : bool := bool_decide (r_EffectiveFrom x > r_EffectiveFrom y).

Definition Quote_ `{SortSlice} (t : Table) (origin destination : string) (weight : Z) (at_ : Time)
    : result Quote :=
  if decide (weight <= 0) then Err ErrInvalid else
  let candidates := filter (applies origin destination weight at_) (rates t) in
  match sort_Slice later candidates with
  | [] => Err ErrNotFound
  | r :: _ =>
      let base := mul64 (r_CentsPerKg r) weight in
      let fuel := r_FuelCents r in
      let total := add64 base fuel in
      if decide (total < 0 \/ total > max_int64) then Err ErrInvalid else
      Ok (mkQuote "CNY" base fuel 0 total r)
  end.

Lemma later_weak_order : weak_order later.
Proof. split; unfold later; intros *; rewrite ?bool_decide_eq_true, ?bool_decide_eq_false; lia. Qed.

(** A quote uses the applicable rate that took effect last; there is none exactly
    when no rate applies, and the total is the exact price when it is a 64-bit
    integer: negative totals are refused. *)
Theorem Quote_uses_latest `{SortSlice} t origin destination weight at_ :
  0 < weight ->
  let ok r := r ∈ rates t /\ applies origin destination weight at_ r in
  (Quote_ t origin destination weight at_ = Err ErrNotFound <-> forall r, ~ ok r) /\
  (forall q, Quote_ t origin destination weight at_ = Ok q ->
     ok (qt_Rate q) /\ (forall r, ok r -> r_EffectiveFrom r <= r_EffectiveFrom (qt_Rate q)) /\
     0 <= qt_TotalCents q /\
     let exact := r_CentsPerKg (qt_Rate q) * weight in
     (in_int64 exact -> in_int64 (exact + r_FuelCents (qt_Rate q)) ->
      qt_TotalCents q = exact + r_FuelCents (qt_Rate q))).
Proof.
  intros Hw ok. unfold Quote_. rewrite decide_False by lia.
  pose proof (sort_Slice_perm later (filter (applies origin destination weight at_) (rates t))) as Hp.
  pose proof (sort_Slice_sorted later (filter (applies origin destination weight at_) (rates t))
    later_weak_order) as Hs.
  destruct (sort_Slice later _) as [|r rest].
  - apply Permutation_nil_l in Hp. split; [|done]. split; [|done]. intros _ r [Hr Ha].
    assert (Hin : r ∈ filter (applies origin destination weight at_) (rates t))
      by (by apply list_elem_of_filter). rewrite <- Hp in Hin. by apply elem_of_nil in Hin.
  - assert (Hok : forall x, ok x <-> x ∈ r :: rest).
    { intros x. rewrite Hp, list_elem_of_filter. unfold ok. tauto. }
    split.
    + split; [by case_decide|]. intros Hno. destruct (Hno r). apply Hok. set_solver.
    + intros q. case_decide as Ht; [done|]. intros [= <-]. simpl. split; [apply Hok; set_solver|].
      split; [|split].
      * intros x Hx%Hok. apply elem_of_cons in Hx as [->|Hx]; [lia|].
        inversion Hs as [|? ? _ Hr]; subst. rewrite Forall_forall in Hr.
        specialize (Hr x Hx).
        apply bool_decide_eq_false in Hr. lia.
      * lia.
      * intros He Ht'. by rewrite mul64_exact, add64_exact.
Qed.

(** Prices beyond 64 bits wrap around: here 2^32 cents a kilogram for 2^32 kilograms
    cost nothing. *)
Example Quote_wraps :
  let r := mkRate "PEK" "FRA" 1 (2 ^ 40) (2 ^ 32) 0 0 10 in
  @Quote_ stable_sort (Add r NewTable).1 "PEK" "FRA" (2 ^ 32) 5 = Ok (mkQuote "CNY" 0 0 0 0 r).
Proof. vm_compute. reflexivity. Qed.

Lemma Quote_uses_latest_witness :
  let r1 := mkRate "PEK" "FRA" 1 1000 10 500 0 100 in
  let r2 := mkRate "PEK" "FRA" 1 1000 12 500 20 90 in
  let t := (Add r2 (Add r1 NewTable).1).1 in
  exists q, @Quote_ stable_sort t "PEK" "FRA" 60 50 = Ok q /\ qt_Rate q = r2 /\ qt_TotalCents q = 1220.
Proof.
  eexists. split; [vm_compute; reflexivity|]. split; [reflexivity|].
  destruct (@Quote_uses_latest stable_sort
    (mkTable [mkRate "PEK" "FRA" 1 1000 10 500 0 100; mkRate "PEK" "FRA" 1 1000 12 500 20 90])
    "PEK" "FRA" 60 50) as [_ Hq]; [lia|].
  destruct (Hq (mkQuote "CNY" 720 500 0 1220 (mkRate "PEK" "FRA" 1 1000 12 500 20 90))) as (_ & _ & _ & Ht).
  - vm_compute. reflexivity.
  - apply Ht; vm_compute; intuition discriminate.
Defined.
