(* ===== verification/labels.v ===== *)
(** * Package labels

    Labels of records and their text form ([internal/labels]). *)

From S2P Require Import Prelude.
From S2P Require Import golang.
From S2P Require Import strconv.
From S2P Require Import domain.
From S2P Require Import external.

Open Scope string_scope.
Open Scope list_scope.
Open Scope Z_scope.

Abbreviation Set_ := (gmap string string) (only parsing).

(** [order]: the keys in the order in which a [range] meets them. *)
Definition Keys `{SortSlice} (order : list string) : list string := sort_Slice string_less order.

Section clean.
Context `{External}.

Definition Clean (order : list string) (m : Set_) : Set_ :=
  foldl (fun out k =>
    match m !! k with
    | None => out
    | Some v =>
        let k := TrimSpace (strings_ToLower k) in
        let v := TrimSpace v in
        if decide (k <> "" /\ v <> "") then <[k := v]> out else out
    end) ∅ order.
End clean.

Definition Merge (order_base order_override : list string) (base override : Set_) : Set_ :=
  copy_onto override order_override (copy_onto base order_base ∅).

Definition Validate (order : list string) (m : Set_) : option error :=
  if existsb (fun k => bool_decide (TrimSpace k = "" \/ TrimSpace (default "" (m !! k)) = "")) order
  then Some ErrInvalid else None.

(** ** format.go *)

Definition part_of (m : Set_) (k : string) : string := k +:+ String "="%char (default "" (m !! k)).

Definition Format `{SortSlice} (order : list string) (m : Set_) : string :=
  Join ","%char (part_of m <$> Keys order).

Fixpoint Parse_loop (parts : list string) (out : Set_) : Set_ :=
  match parts with
  | [] => out
  | part :: parts =>
      match Cut "="%char part with
      | Some (k, v) => Parse_loop parts (<[TrimSpace k := TrimSpace v]> out)
      | None => Parse_loop parts out
      end
  end.

Definition Parse (raw : string) : Set_ := Parse_loop (Split ","%char raw) ∅.

Definition SortedValues `{SortSlice} (order : list string) (m : Set_) : list string :=
  sort_Slice string_less ((fun k => default "" (m !! k)) <$> Keys order).

(** ** Specification *)

(** Labels that the text form can carry: no surrounding space, no comma, and no equals
    sign in the key. *)
Definition plain (k v : string) : Prop :=
  TrimSpace k = k /\ TrimSpace v = v /\ free_of ","%char k /\ free_of "="%char k /\ free_of ","%char v.

Lemma Merge_union ob oo base override :
  range_order base ob -> range_order override oo -> Merge ob oo base override = override ∪ base.
Proof. intros Hb Ho. unfold Merge. by rewrite !copy_onto_union, (right_id ∅ (∪)). Qed.

Lemma Parse_loop_parts (m : Set_) ks out :
  (forall k, k ∈ ks -> exists v, m !! k = Some v /\ plain k v) ->
  Parse_loop (part_of m <$> ks) out =
  foldl (fun out k => <[k := default "" (m !! k)]> out) out ks.
Proof.
  revert out. induction ks as [|k ks IH]; intros out Hks; [done|]. simpl.
  destruct (Hks k) as (v & Hv & Ht & Ht' & _ & He & _); [set_solver|].
  unfold part_of at 1. rewrite Hv. simpl. rewrite Cut_join by done. rewrite Ht, Ht'.
  apply IH. intros k' Hk'. apply Hks. set_solver.
Qed.

(** Labels survive their text form: parsing the formatted text of labels without
    surrounding spaces and separators gives them back, whatever the iteration
    order of the map, and that text does not depend on the order. *)
Theorem labels_roundtrip `{SortSlice} m order order' :
  range_order m order -> range_order m order' ->
  map_Forall plain m ->
  Parse (Format order m) = m /\ Format order m = Format order' m.
Proof.
  intros Ho Ho' Hm.
  assert (Hkeys : forall o, range_order m o -> Keys o ≡ₚ o) by (intros; apply sort_Slice_perm).
  assert (Hsorted : forall o, sorted_by string_less (Keys o))
    by (intros; apply sort_Slice_sorted, string_less_weak_order).
  split.
  - destruct Ho as [Hnd Hin]. unfold Parse, Format.
    destruct (decide (Keys order = [])) as [Hnil|Hne].
    { rewrite Hnil. simpl. apply map_eq. intros k. rewrite lookup_empty.
      destruct (m !! k) eqn:Hk; [|done]. assert (k ∈ Keys order) as Hkk.
      { rewrite Hkeys by done. apply Hin. eauto. } rewrite Hnil in Hkk. by apply elem_of_nil in Hkk. }
    rewrite Split_Join.
    + rewrite Parse_loop_parts.
      * apply map_eq. intros k.
        assert (Hfold : forall ks (out : gmap string string),
          foldl (fun out k => <[k := default "" (m !! k)]> out) out ks !! k =
          if decide (k ∈ ks) then Some (default "" (m !! k)) else out !! k).
        { induction ks as [|x ks IH]; intros out; cbn [foldl];
            [by rewrite decide_False by (by intros ?%elem_of_nil)|].
          rewrite IH, lookup_insert. repeat case_decide; subst; try done; set_solver. }
        rewrite Hfold, lookup_empty. destruct (m !! k) as [v|] eqn:Hk.
        -- rewrite decide_True; [done|]. rewrite Hkeys by done. apply Hin. eauto.
        -- rewrite decide_False; [done|]. rewrite Hkeys by done. rewrite Hin, Hk. by intros [? ?].
      * intros k Hk. rewrite Hkeys in Hk by done. apply Hin in Hk as [v Hv]. exists v. eauto.
    + by destruct (Keys order).
    + apply Forall_fmap, Forall_forall. intros k Hk. rewrite Hkeys in Hk by done.
      apply Hin in Hk as [v Hv]. destruct (Hm _ _ Hv) as (_ & _ & Hc & _ & Hcv).
      unfold compose, part_of. rewrite Hv. apply free_of_app. by split.
  - unfold Format. do 2 f_equal. apply (sorted_by_unique string_less); try done.
    + intros x y _ _. by apply string_less_total.
    + rewrite !Hkeys by done. destruct Ho as [Hn Hi], Ho' as [Hn' Hi'].
      apply NoDup_Permutation; [done..|]. intros k. by rewrite Hi, Hi'.
Qed.

Lemma labels_roundtrip_witness :
  let m : gmap string string := {[ "zone" := "north gate"; "class" := "x=1" ]} in
  Parse (@Format stable_sort ["zone"; "class"] m) = m.
Proof.
  intros m. apply (@labels_roundtrip stable_sort m ["zone"; "class"] ["zone"; "class"]).
  - split; [apply (bool_decide_unpack _); vm_compute; exact I|]. intros k.
    unfold m. rewrite lookup_insert, lookup_singleton. repeat case_decide; subst; split; intros Hk;
      try (by eexists); try set_solver; destruct Hk; done.
  - split; [apply (bool_decide_unpack _); vm_compute; exact I|]. intros k.
    unfold m. rewrite lookup_insert, lookup_singleton. repeat case_decide; subst; split; intros Hk;
      try (by eexists); try set_solver; destruct Hk; done.
  - apply (bool_decide_unpack _). vm_compute. exact I.
Defined.
