(* ===== verification/permissions.v ===== *)
(** * Package permissions

    What each role may do ([internal/permissions/permissions.go]), against the
    checks that the use cases make themselves. *)

From S2P Require Import Prelude.
From S2P Require Import golang.
From S2P Require Import domain.
From S2P Require Import external.
From S2P Require Import repository.
From S2P Require Import service.

Open Scope string_scope.
Open Scope Z_scope.

Abbreviation Action := string (only parsing).
Definition CreateShipment : Action := "shipment:create".
Definition BookShipment : Action := "shipment:book".
Definition ReviewCustoms : Action := "customs:review".
Definition ScanCargo : Action := "cargo:scan".
Definition ViewSummary : Action := "summary:view".

Definition Allows (role : Role) (action : Action) : bool :=
  if decide (role = RoleShipper) then bool_decide (action = CreateShipment) else
  if decide (role = RoleCoordinator) then
    bool_decide (action = CreateShipment \/ action = BookShipment \/ action = ReviewCustoms
                 \/ action = ViewSummary) else
  if decide (role = RoleGroundAgent) then bool_decide (action = ScanCargo) else false.

Definition Require_ (role : Role) (action : Action) : option error :=
  if negb (Allows role action) then Some ErrForbidden else None.

Section agreement.
Context `{External}.

(** A use case that answers [ErrForbidden] before it touches the store. *)
Definition refused {A} (p : prog (result A)) : Prop := p = Ret (Err ErrForbidden).

Lemma refused_guard {A} P `{Decision P} (p : prog (result A)) :
  ~ refused p -> refused (if decide P then Ret (Err ErrForbidden) else p) <-> P.
Proof. intros Hp. case_decide; [done|]. tauto. Qed.

Lemma ValidateShipment_error s e : ValidateShipment s = Some e -> e = ErrInvalid.
Proof. unfold ValidateShipment. repeat case_decide; naive_solver. Qed.

(** The rows of the table. *)
Lemma Allows_create role :
  Allows role CreateShipment = false <-> role <> RoleShipper /\ role <> RoleCoordinator.
Proof. unfold Allows. repeat case_decide; subst; try case_bool_decide; naive_solver. Qed.

Lemma Allows_coordinator role action :
  action = BookShipment \/ action = ReviewCustoms \/ action = ViewSummary ->
  Allows role action = false <-> role <> RoleCoordinator.
Proof.
  intros Ha. unfold Allows. repeat case_decide; subst; try case_bool_decide; naive_solver.
Qed.

Lemma Allows_scan role : Allows role ScanCargo = false <-> role <> RoleGroundAgent.
Proof. unfold Allows. repeat case_decide; subst; try case_bool_decide; naive_solver. Qed.

(** C33. The table agrees with the use cases on creating and booking shipments,
    reviewing customs and viewing the summary: a use case refuses a user at once
    exactly when the table does not allow the action.  They differ on scanning
    cargo, which the table denies to coordinators and the use case does not. *)
Theorem permissions_agree (u : User) :
  (forall s idem rid now,
     refused (service.CreateShipment u s idem rid now) <-> Allows (u_Role u) CreateShipment = false) /\
  (forall id leg now,
     refused (service.BookShipment u id leg now) <-> Allows (u_Role u) BookShipment = false) /\
  (forall c rid now,
     refused (service.PutCustoms u c rid now) <-> Allows (u_Role u) ReviewCustoms = false) /\
  (forall order,
     refused (service.Summary order u) <-> Allows (u_Role u) ViewSummary = false) /\
  (forall s rid now,
     refused (service.PutSecurity u s rid now) <->
     Allows (u_Role u) ScanCargo = false /\ u_Role u <> RoleCoordinator).
Proof.
  split_and!; intros *.
  - rewrite Allows_create. apply refused_guard. unfold refused.
    destruct (ValidateShipment _) as [e|] eqn:Hv.
    + apply ValidateShipment_error in Hv as ->. congruence.
    + by case_decide.
  - rewrite Allows_coordinator by tauto. by apply refused_guard.
  - rewrite Allows_coordinator by tauto. by apply refused_guard.
  - rewrite Allows_coordinator by tauto. by apply refused_guard.
  - rewrite Allows_scan. by apply refused_guard.
Qed.
End agreement.
