(* ===== verification/alerts.v ===== *)
(** * Package alerts

    Operational alerts ([internal/alerts/alerts.go]). *)

From S2P Require Import Prelude.
From S2P Require Import golang.
From S2P Require Import domain.
From S2P Require Import machine.

Open Scope string_scope.
Open Scope list_scope.
Open Scope Z_scope.

Record Alert := mkAlert {
  al_ID : string; al_TenantID : string; al_Severity : string; al_Code : string;
  al_Message : string; al_OpenedAt : Time; al_ClosedAt : option Time }.

Record Registry := mkRegistry { items : gmap string Alert }.

Definition New : Registry := mkRegistry ∅.

Definition is_open (a : Alert) : Prop := al_ClosedAt a = None.

#[export] Instance is_open_dec a : Decision (is_open a).
Proof. unfold is_open. apply _. Defined.

Definition Open_ (a : Alert) (r : Registry) : Registry * result unit :=
  if decide (al_ID a = "" \/ al_TenantID a = "" \/ al_Code a = "" \/ al_Message a = ""
             \/ IsZero (al_OpenedAt a))
  then (r, Err ErrInvalid) else
  let opened := (mkRegistry (<[al_ID a := a]> (items r)), Ok tt) in
  match items r !! al_ID a with
  | Some old => if decide (is_open old) then (r, Err ErrConflict) else opened
  | None => opened
  end.

Definition closed (at_ : Time) (a : Alert) : Alert :=
  let 'mkAlert i t s c m o _ := a in mkAlert i t s c m o (Some at_).

Definition Close_ (id : string) (at_ : Time) (r : Registry) : Registry * result unit :=
  match items r !! id with
  | None => (r, Err ErrNotFound)
  | Some a =>
      if decide (al_ClosedAt a <> None \/ at_ < al_OpenedAt a) then (r, Err ErrState)
      else (mkRegistry (<[id := closed at_ a]> (items r)), Ok tt)
  end.

Definition Active (order : list string) (tenant : string) (r : Registry) : list Alert :=
  filter (fun a => al_TenantID a = tenant /\ is_open a) (range_values (items r) order).

Inductive op := OOpen (a : Alert) | OClose (id : string) (at_ : Time).

Definition step (o : op) (r : Registry) : Registry :=
  match o with OOpen a => (Open_ a r).1 | OClose id at_ => (Close_ id at_ r).1 end.

Definition registry_ok (r : Registry) : Prop := keyed al_ID (items r).

Lemma alerts_step_ok o r : registry_ok r -> registry_ok (step o r).
Proof.
  intros Hr. unfold registry_ok, step in *. destruct o; simpl.
  - unfold Open_. case_decide; [done|].
    destruct (items r !! al_ID a); [case_decide; [done|]|]; by apply keyed_insert.
  - unfold Close_. destruct (items r !! id) as [a|] eqn:Ha; [case_decide; [done|]|done].
    eapply keyed_update; [done|done|]. by destruct a.
Qed.

(** The active alerts of a tenant are the open ones, in any iteration order.  While
    an alert is open its identifier cannot be opened again; closing it, not before
    it was opened, succeeds once, takes it from the active ones and frees its
    identifier. *)
Theorem alert_lifecycle ops id a at_ order :
  let r := after step ops New in
  items r !! id = Some a -> is_open a -> al_OpenedAt a <= at_ -> range_order (items r) order ->
  (forall x, x ∈ Active order (al_TenantID a) r <->
     exists k, items r !! k = Some x /\ al_TenantID x = al_TenantID a /\ is_open x) /\
  (forall b, al_ID b = id -> exists e, Open_ b r = (r, Err e)) /\
  exists r', Close_ id at_ r = (r', Ok tt) /\ items r' !! id = Some (closed at_ a) /\
    (forall x, x ∈ Active order (al_TenantID a) r' -> al_ID x <> id) /\
    (forall at_', Close_ id at_' r' = (r', Err ErrState)) /\
    (forall b, al_ID b = id -> al_TenantID b <> "" -> al_Code b <> "" -> al_Message b <> "" ->
       id <> "" -> ~ IsZero (al_OpenedAt b) -> (Open_ b r').2 = Ok tt).
Proof.
  intros r Ha Hopen Hle Hord.
  assert (Hkeyed : keyed al_ID (items r)).
  { apply (after_stable step registry_ok); [apply alerts_step_ok|]. apply keyed_empty. }
  assert (Hclose : Close_ id at_ r = (mkRegistry (<[id := closed at_ a]> (items r)), Ok tt)).
  { unfold Close_. rewrite Ha, decide_False; [done|]. unfold is_open in Hopen. intros [?|?]; [done|lia]. }
  split_and!.
  - intros x. unfold Active. rewrite list_elem_of_filter, elem_of_range_values by done. naive_solver.
  - intros b Hb. unfold Open_. case_decide; [by eexists|]. rewrite Hb, Ha, decide_True by done. by eexists.
  - eexists. split; [exact Hclose|]. simpl. rewrite lookup_insert_eq. split_and!; [done| | |].
    + intros x. unfold Active, range_values. simpl.
      rewrite list_elem_of_filter, list_elem_of_omap. intros [[_ Hx] (k & _ & Hk)] Hid.
      assert (Hk' : keyed al_ID (<[id := closed at_ a]> (items r))).
      { eapply keyed_update; [done|exact Ha|]. by destruct a. }
      apply Hk' in Hk as Hkid. rewrite Hid in Hkid. subst k. rewrite lookup_insert_eq in Hk.
      injection Hk as <-. by destruct a.
    + intros at_'. unfold Close_. simpl. rewrite lookup_insert_eq, decide_True; [done|]. left. by destruct a.
    + intros b Hb Ht Hc Hm Hid Hz. unfold Open_. rewrite decide_False by naive_solver. simpl.
      rewrite Hb, lookup_insert_eq, decide_False; [done|]. by destruct a.
Qed.

Definition sample_alert : Alert := mkAlert "a1" "acme" "high" "TEMP" "too warm" 5 None.

Lemma alert_lifecycle_witness :
  let r := after step [OOpen sample_alert] New in
  Active ["a1"] "acme" r = [sample_alert] /\ exists r', Close_ "a1" 9 r = (r', Ok tt).
Proof.
  split; [vm_compute; reflexivity|].
  destruct (alert_lifecycle [OOpen sample_alert] "a1" sample_alert 9 ["a1"]) as (_ & _ & r' & Hr & _).
  - vm_compute. reflexivity.
  - reflexivity.
  - vm_compute. discriminate.
  - split; [apply (bool_decide_unpack _); vm_compute; exact I|].
    intros k. change (items (after step [OOpen sample_alert] New)) with ({[ "a1" := sample_alert ]} : gmap string Alert).
    rewrite lookup_singleton. case_decide; subst; split; intros Hk; try set_solver; try (by eexists); by destruct Hk.
  - exists r'. exact Hr.
Defined.
