(* ===== verification/tenant.v ===== *)
(** * Package tenant

    The registry of tenants ([internal/tenant/tenant.go]). *)

From S2P Require Import Prelude.
From S2P Require Import golang.
From S2P Require Import domain.
From S2P Require Import machine.

Open Scope string_scope.
Open Scope list_scope.
Open Scope Z_scope.

Record Registry := mkRegistry { items : gmap string Tenant }.

Definition New : Registry := mkRegistry ∅.

Definition Add (t : Tenant) (r : Registry) : Registry * result unit :=
  if decide (TrimSpace (t_ID t) = "" \/ TrimSpace (t_Name t) = "") then (r, Err ErrInvalid) else
  match items r !! t_ID t with
  | Some _ => (r, Err ErrConflict)
  | None => (mkRegistry (<[t_ID t := t]> (items r)), Ok tt)
  end.

Definition inactive (t : Tenant) : Tenant :=
  let 'mkTenant a b _ d := t in mkTenant a b false d.

Definition Deactivate (id : string) (r : Registry) : Registry * result unit :=
  match items r !! id with
  | None => (r, Err ErrNotFound)
  | Some t => (mkRegistry (<[id := inactive t]> (items r)), Ok tt)
  end.

Definition Get (id : string) (r : Registry) : result Tenant :=
  match items r !! id with None => Err ErrNotFound | Some t => Ok t end.

Definition CanAccess (id : string) (r : Registry) : bool :=
  match Get id r with Ok t => t_Active t | Err _ => false end.

Inductive op := OAdd (t : Tenant) | ODeactivate (id : string).

Definition step (o : op) (r : Registry) : Registry :=
  match o with OAdd t => (Add t r).1 | ODeactivate id => (Deactivate id r).1 end.

(** What calls do to a registered tenant: nothing, or deactivate it. *)
Definition only_deactivates (r r' : Registry) : Prop :=
  forall id t, items r !! id = Some t -> items r' !! id = Some t \/ items r' !! id = Some (inactive t).

Lemma inactive_idemp t : inactive (inactive t) = inactive t.
Proof. by destruct t. Qed.

#[export] Instance only_deactivates_preorder : PreOrder only_deactivates.
Proof.
  split; [intros r id t Ht; by left|]. intros r1 r2 r3 H12 H23 id t Ht.
  destruct (H12 _ _ Ht) as [H2|H2]; [by apply H23|].
  destruct (H23 _ _ H2) as [H3|H3]; [by right|]. rewrite inactive_idemp in H3. by right.
Qed.

Lemma tenant_step_deactivates o r : only_deactivates r (step o r).
Proof.
  intros id t Ht. destruct o as [t'|id']; simpl.
  - unfold Add. case_decide; [by left|]. destruct (items r !! t_ID t') eqn:Hn; [by left|]. simpl.
    left. by rewrite lookup_insert_ne by congruence.
  - unfold Deactivate. destruct (items r !! id') as [t'|] eqn:Hid; [|by left]. simpl.
    rewrite lookup_insert. case_decide; [|by left]. simplify_eq. by right.
Qed.

(** A tenant has access once it was added as active and until it is deactivated:
    what was added is found again unchanged but for its activity, a second tenant
    with its identifier is refused, and after a deactivation no call gives access
    back. *)
Theorem tenant_access ops ops' t r1 :
  let r := after step ops New in
  Add t r = (r1, Ok tt) ->
  CanAccess (t_ID t) r = false /\ CanAccess (t_ID t) r1 = t_Active t /\
  let r2 := after step ops' r1 in
  (Get (t_ID t) r2 = Ok t \/ Get (t_ID t) r2 = Ok (inactive t)) /\
  (forall t', t_ID t' = t_ID t -> exists e, Add t' r2 = (r2, Err e)) /\
  exists r3, Deactivate (t_ID t) r2 = (r3, Ok tt) /\
    forall ops'', CanAccess (t_ID t) (after step ops'' r3) = false.
Proof.
  intros r. unfold Add. case_decide; [done|]. destruct (items r !! t_ID t) eqn:Hno; [done|].
  intros [= <-]. unfold CanAccess, Get. rewrite Hno. simpl. rewrite lookup_insert_eq.
  split_and!; [done|done|..].
  all: pose proof (after_preorder step only_deactivates ops' (mkRegistry (<[t_ID t := t]> (items r)))
    tenant_step_deactivates (t_ID t) t (lookup_insert_eq _ _ _)) as Ht.
  - destruct Ht as [-> | ->]; auto.
  - intros t' Hid. unfold Add. case_decide; [by eexists|]. rewrite Hid.
    destruct Ht as [-> | ->]; by eexists.
  - assert (Hd : exists u, items (after step ops' (mkRegistry (<[t_ID t := t]> (items r)))) !! t_ID t = Some u)
      by (destruct Ht; eauto). destruct Hd as [u Hu].
    unfold Deactivate. rewrite Hu. eexists. split; [done|]. intros ops''.
    destruct (after_preorder step only_deactivates ops''
      (mkRegistry (<[t_ID t := inactive u]> (items (after step ops' (mkRegistry (<[t_ID t := t]> (items r)))))))
      tenant_step_deactivates (t_ID t) (inactive u) (lookup_insert_eq _ _ _)) as [-> | ->]; by destruct u.
Qed.

Lemma tenant_access_witness :
  let t := mkTenant "acme" "Acme" true 1 in
  let r1 := (Add t New).1 in
  CanAccess "acme" r1 = true /\ exists r3, Deactivate "acme" r1 = (r3, Ok tt) /\
    CanAccess "acme" (after step [OAdd t] r3) = false.
Proof.
  destruct (tenant_access [] [] (mkTenant "acme" "Acme" true 1) (Add (mkTenant "acme" "Acme" true 1) New).1)
    as (_ & Hacc & _ & _ & r3 & Hd & Hno).
  - vm_compute. reflexivity.
  - split; [exact Hacc|]. exists r3. split; [exact Hd|apply (Hno [OAdd (mkTenant "acme" "Acme" true 1)])].
Defined.
