(* ===== verification/scan.v ===== *)
(** * Package scan

    Security scans of shipments ([internal/scan/security.go]).  The clock reading
    is an argument, and [order] the one in which the signals are ranged over. *)

From S2P Require Import Prelude.
From S2P Require Import golang.
From S2P Require Import domain.
From S2P Require Import machine.

Open Scope string_scope.
Open Scope list_scope.
Open Scope Z_scope.

Record Result_ := mkResult {
  rs_ShipmentID : string; rs_Status : SecurityStatus; rs_Officer : string; rs_Reason : string;
  rs_CheckedAt : Time }.

Record Service := mkService { results : gmap string Result_; blocked : gmap string string }.

Definition New : Service := mkService ∅ ∅.

(** The first bad signal the loop meets. *)
Fixpoint first_bad (signals : gmap string bool) (order : list string) : option string :=
  match order with
  | [] => None
  | name :: order => if default false (signals !! name) then Some name else first_bad signals order
  end.

Definition Check_ (order : list string) (ctx : Context) (shipment officer : string)
    (signals : gmap string bool) (now : Time) (s : Service) : Service * result Result_ :=
  match ctx with
  | Some err => (s, Err err)
  | None =>
      if decide (shipment = "" \/ officer = "") then (s, Err ErrInvalid) else
      match first_bad signals order with
      | Some name =>
          let r := mkResult shipment SecurityFailed officer ("signal " +:+ name) now in
          (mkService (<[shipment := r]> (results s)) (<[shipment := rs_Reason r]> (blocked s)), Ok r)
      | None =>
          let r := mkResult shipment SecurityPassed officer "" now in
          (mkService (<[shipment := r]> (results s)) (delete shipment (blocked s)), Ok r)
      end
  end.

Definition Get (shipment : string) (s : Service) : result Result_ :=
  match results s !! shipment with None => Err ErrNotFound | Some r => Ok r end.

Definition Blocked (shipment : string) (s : Service) : bool := bool_decide (is_Some (blocked s !! shipment)).

Record check := mkCheck {
  ck_order : list string; ck_ctx : Context; ck_shipment : string; ck_officer : string;
  ck_signals : gmap string bool; ck_now : Time }.

Definition step (c : check) (s : Service) : Service :=
  (Check_ (ck_order c) (ck_ctx c) (ck_shipment c) (ck_officer c) (ck_signals c) (ck_now c) s).1.

(** A shipment is blocked exactly while its last result is a failure, for the reason
    of that result. *)
Definition service_ok (s : Service) : Prop := forall k,
  blocked s !! k = match results s !! k with
  | Some r => if decide (rs_Status r = SecurityFailed) then Some (rs_Reason r) else None
  | None => None
  end.

Lemma scan_step_ok c s : service_ok s -> service_ok (step c s).
Proof.
  intros Hs k. unfold step, Check_. destruct (ck_ctx c); [apply Hs|]. case_decide; [apply Hs|].
  destruct (first_bad _ _); simpl; rewrite lookup_insert.
  - rewrite lookup_insert. case_decide; [done|apply Hs].
  - rewrite lookup_delete. case_decide; [done|apply Hs].
Qed.

Lemma first_bad_iff (signals : gmap string bool) order :
  range_order signals order ->
  (exists name, first_bad signals order = Some name) <-> exists name, signals !! name = Some true.
Proof.
  intros [_ Hin].
  assert (Hgen : forall ks, (exists name, first_bad signals ks = Some name) <->
    exists name, name ∈ ks /\ signals !! name = Some true).
  { induction ks as [|x ks IH]; simpl; [set_solver|].
    destruct (signals !! x) as [[]|] eqn:Hx; simpl.
    - split; [intros _; exists x; set_solver|eauto].
    - rewrite IH. split; [set_solver|]. intros (n & [->|?]%elem_of_cons & Hn); [congruence|eauto].
    - rewrite IH. split; [set_solver|]. intros (n & [->|?]%elem_of_cons & Hn); [congruence|eauto]. }
  rewrite Hgen. split; [naive_solver|]. intros [n Hn]. exists n. split; [apply Hin; eauto|done].
Qed.

(** After any checks a shipment is blocked exactly when the last result kept for it
    is a failure; a check that takes place fails exactly when some signal is bad, in
    any iteration order, and its result is what is kept. *)
Theorem scan_blocks_failures cs order shipment officer signals now :
  let s := after step cs New in
  (forall k, Blocked k s = true <-> exists r, Get k s = Ok r /\ rs_Status r = SecurityFailed) /\
  (shipment <> "" -> officer <> "" -> range_order signals order ->
   let out := Check_ order None shipment officer signals now s in
   exists r, out.2 = Ok r /\ Get shipment out.1 = Ok r /\
     (rs_Status r = SecurityFailed <-> exists name, signals !! name = Some true) /\
     (rs_Status r = SecurityFailed \/ rs_Status r = SecurityPassed) /\
     (Blocked shipment out.1 = true <-> exists name, signals !! name = Some true)).
Proof.
  intros s. assert (Hok : service_ok s) by (apply after_stable; [apply scan_step_ok|by intros k]).
  assert (Hblocked : forall s', service_ok s' -> forall k, Blocked k s' = true <->
    exists r, Get k s' = Ok r /\ rs_Status r = SecurityFailed).
  { intros s' Hs' k. unfold Blocked, Get. rewrite bool_decide_eq_true, Hs'.
    destruct (results s' !! k) as [r|]; [case_decide|]; naive_solver. }
  split; [by apply Hblocked|]. intros Hsh Hof Hord out.
  assert (Hok' : service_ok out.1) by (apply (scan_step_ok (mkCheck order None shipment officer signals now)), Hok).
  pose proof (Hblocked _ Hok' shipment) as Hb. pose proof (first_bad_iff _ _ Hord) as Hbad.
  assert (Hout : out = match first_bad signals order with
    | Some name =>
        let r := mkResult shipment SecurityFailed officer ("signal " +:+ name) now in
        (mkService (<[shipment := r]> (results s)) (<[shipment := rs_Reason r]> (blocked s)), Ok r)
    | None =>
        let r := mkResult shipment SecurityPassed officer "" now in
        (mkService (<[shipment := r]> (results s)) (delete shipment (blocked s)), Ok r)
    end) by (unfold out, Check_; by rewrite decide_False by tauto).
  rewrite Hout in *. clear out Hok' Hout.
  destruct (first_bad signals order) as [name|] eqn:Hf; simpl in *; unfold Get in *; simpl in *;
    rewrite lookup_insert_eq in *; eexists; (split_and!; [done|done|..]); simpl.
  - rewrite <- Hbad. naive_solver.
  - by left.
  - rewrite Hb, <- Hbad. naive_solver.
  - rewrite <- Hbad. naive_solver.
  - by right.
  - rewrite Hb, <- Hbad. naive_solver.
Qed.

Lemma scan_blocks_failures_witness :
  let signals : gmap string bool := {[ "xray" := true ]} in
  let out := Check_ ["xray"] None "S1" "bob" signals 5 New in
  exists r, out.2 = Ok r /\ rs_Status r = SecurityFailed /\ Blocked "S1" out.1 = true.
Proof.
  destruct (scan_blocks_failures [] ["xray"] "S1" "bob" {[ "xray" := true ]} 5) as [_ Hc].
  destruct Hc as (r & Hr & _ & Hst & _ & Hb).
  - discriminate.
  - discriminate.
  - split; [apply (bool_decide_unpack _); vm_compute; exact I|].
    intros k. rewrite lookup_singleton. case_decide; subst; split; intros Hk; try set_solver;
      try (by eexists); by destruct Hk.
  - exists r. split; [exact Hr|]. split; [apply Hst|apply Hb]; exists "xray"; reflexivity.
Defined.
