(* ===== verification/redaction.v ===== *)
(** * Package redaction

    Redaction of sensitive values in nested data ([internal/redaction/redaction.go]).
    A [map[string]any] is the list of its bindings: the loop writes each key once, so
    the order in which it ranges over them does not matter.  [V] holds the values
    of every other dynamic type. *)

From S2P Require Import Prelude.
From S2P Require Import golang.
From S2P Require Import domain.
From S2P Require Import external.

Open Scope string_scope.
Open Scope list_scope.

#[warnings="-register-all"] Inductive any {V : Type} : Type :=
| Object (m : list (string * any))
| Array (l : list any)
| Text (s : string)
| Other (v : V).
Arguments any : clear implicits.

Definition sensitive (k : string) : bool :=
  bool_decide (k ∈ ["password"; "token"; "authorization"; "password_hash"; "secret"]).

Section redaction.
Context `{External} {V : Type}.
Implicit Types (v w : any V) (m : list (string * any V)).

Definition hidden : any V := Text "[REDACTED]".

(** [Map] on the bindings of an object, with the loop of [slice] inlined; other values
    are left alone. *)
Fixpoint redacted (v : any V) : any V :=
  match v with
  | Object m =>
      Object (map (fun '(k, w) =>
        (k, if sensitive (strings_ToLower k) then hidden else
            match w with
            | Object _ => redacted w
            | Array l => Array (map (fun x => match x with Object _ => redacted x | _ => x end) l)
            | _ => w
            end)) m)
  | _ => v
  end.

(** [slice] treats the elements that are maps. *)
Definition slice (l : list (any V)) : list (any V) :=
  map (fun x => match x with Object _ => redacted x | _ => x end) l.

(** The type switch of [Map]. *)
Definition switched (w : any V) : any V :=
  match w with Object _ => redacted w | Array l => Array (slice l) | _ => w end.

Definition Map (input : list (string * any V)) : list (string * any V) :=
  map (fun '(k, w) => (k, if sensitive (strings_ToLower k) then hidden else switched w)) input.

(** The two readings of [Map] are one. *)
Lemma redacted_Object m : redacted (Object m) = Object (Map m).
Proof. done. Qed.

(** [JSON], over [json.Unmarshal] into a map and [json.Marshal]. *)
Definition JSON (Unmarshal : string -> result (list (string * any V)))
    (Marshal : list (string * any V) -> result string) (input : string) : result string :=
  match Unmarshal input with
  | Err err => Err err
  | Ok v => Marshal (Map v)
  end.

(** ** Places in nested data *)

Inductive place := Key (k : string) | Index (i : nat).

Fixpoint binding (k : string) m : option (any V) :=
  match m with
  | [] => None
  | (k', w) :: m => if decide (k' = k) then Some w else binding k m
  end.

Fixpoint at_ (p : list place) v : option (any V) :=
  match p with
  | [] => Some v
  | Key k :: p => match v with Object m => binding k m ≫= at_ p | _ => None end
  | Index i :: p => match v with Array l => l !! i ≫= at_ p | _ => None end
  end.

(** No list directly inside a list on the way. *)
Fixpoint unnested (inside : bool) (p : list place) : bool :=
  match p with
  | [] => true
  | Key _ :: p => unnested false p
  | Index _ :: p => negb inside && unnested true p
  end.

(** A place none of whose keys is sensitive. *)
Definition plain (p : list place) : Prop :=
  Forall (fun s => match s with Key k => sensitive (strings_ToLower k) = false | Index _ => True end) p.

(** What redaction makes of an element of a list, and of the value of a key. *)
Definition element (x : any V) : any V := match x with Object _ => redacted x | _ => x end.
Definition child (inside : bool) (v : any V) : any V := if inside then element v else switched v.

Lemma binding_Map k m :
  binding k (Map m) =
  (fun w => if sensitive (strings_ToLower k) then hidden else switched w) <$> binding k m.
Proof.
  induction m as [|[k' w] m IH]; [done|]. simpl. case_decide; [by subst|]. exact IH.
Qed.

Lemma slice_lookup l i : slice l !! i = element <$> l !! i.
Proof. apply list_lookup_fmap. Qed.

Lemma child_Object inside m : child inside (Object m) = Object (Map m).
Proof. by destruct inside. Qed.

Lemma hidden_inside p k : at_ (p ++ [Key k]) hidden = None.
Proof. by destruct p as [|[]]. Qed.

Lemma child_hides inside v p k w :
  unnested inside (p ++ [Key k]) = true -> at_ (p ++ [Key k]) (child inside v) = Some w ->
  sensitive (strings_ToLower k) = true -> w = hidden.
Proof.
  intros Hp Hw Hk. revert inside v Hp Hw. induction p as [|[j|i] p IH]; intros inside v; simpl.
  - intros _. destruct v as [m| | |]; try by destruct inside.
    rewrite child_Object, binding_Map, Hk. destruct (binding k m); naive_solver.
  - intros Hp. destruct v as [m| | |]; try by destruct inside.
    rewrite child_Object, binding_Map. destruct (binding j m) as [x|]; [|done]. simpl.
    destruct (sensitive (strings_ToLower j)); [by rewrite hidden_inside|].
    exact (IH false x Hp).
  - destruct inside; [done|]. simpl. intros Hp. destruct v as [|l| |]; try done. simpl.
    rewrite slice_lookup. destruct (l !! i) as [x|]; [|done]. simpl. exact (IH true x Hp).
Qed.

Lemma child_keeps inside v p w :
  plain p -> at_ p v = Some w -> (forall m, w <> Object m) -> (forall l, w <> Array l) ->
  at_ p (child inside v) = Some w.
Proof.
  intros Hp Hw Hm Hl. revert inside v Hw. induction Hp as [|s p Hs Hp IH]; intros inside v; simpl.
  - intros [= ->]. destruct w; try done; [by destruct (Hm m)|by destruct (Hl l)| |]; by destruct inside.
  - destruct s as [k|i].
    + destruct v as [m| | |]; try done. rewrite child_Object, binding_Map, Hs.
      destruct (binding k m) as [x|]; [|done]. simpl. intros Hx. exact (IH false x Hx).
    + destruct v as [|l| |]; try done. destruct (l !! i) as [x|] eqn:Hi; [|done]. simpl. intros Hx.
      destruct inside; simpl; [by rewrite Hi|]. rewrite slice_lookup, Hi. simpl. exact (IH true x Hx).
Qed.

(** C34. In redacted data every sensitive key, in any letter case and at any depth not
    below a list of lists, has the placeholder for its value, and every text or
    other leaf away from sensitive keys is still there. *)
Theorem Map_redacts m :
  (forall p k w, unnested false (p ++ [Key k]) = true -> sensitive (strings_ToLower k) = true ->
     at_ (p ++ [Key k]) (Object (Map m)) = Some w -> w = Text "[REDACTED]") /\
  (forall p w, plain p -> at_ p (Object m) = Some w ->
     (forall m', w <> Object m') -> (forall l, w <> Array l) ->
     at_ p (Object (Map m)) = Some w) /\
  (Map m).*1 = m.*1.
Proof.
  rewrite <- (child_Object false). split_and!.
  - intros p k w Hp Hk Hw. by eapply child_hides.
  - intros p w. apply child_keeps.
  - unfold Map. induction m as [|[k w] m IH]; [done|]. simpl. by f_equal.
Qed.
End redaction.

(** A map inside a list inside a list is not redacted. *)
Example nested_list_leaks :
  let data : list (string * any nat) := [("rows", Array [Array [Object [("password", Text "hunter2")]]])] in
  @Map sample_external nat data = data.
Proof. vm_compute. reflexivity. Qed.
