(* ===== verification/version.v ===== *)
(** * Package version

    Release versions ([internal/version/version.go]). *)

From S2P Require Import Prelude.
From S2P Require Import golang.
From S2P Require Import strconv.
From S2P Require Import fmt.
From S2P Require Import domain.

Open Scope string_scope.
Open Scope list_scope.
Open Scope Z_scope.

Record Value := mkValue { Major : Z; Minor : Z; Patch : Z; Pre : string }.

Definition Parse (raw : string) : result Value :=
  let raw := TrimPrefix (TrimSpace raw) "v" in
  let '(core, pre) := match Cut "-"%char raw with
    | Some (core, pre) => (core, Some pre)
    | None => (raw, None)
    end in
  let nums := Split "."%char core in
  if decide (length nums <> 3%nat) then Err ErrInvalid else
  match Sscanf_triple (Join "."%char nums) with
  | None => Err ErrInvalid
  | Some (major, minor, patch) =>
      if decide (major < 0 \/ minor < 0 \/ patch < 0) then Err ErrInvalid
      else Ok (mkValue major minor patch (default "" pre))
  end.

Definition String_ (v : Value) : string :=
  let out := "v" +:+ FormatInt (Major v) +:+ "." +:+ FormatInt (Minor v) +:+ "." +:+ FormatInt (Patch v) in
  if decide (Pre v <> "") then out +:+ "-" +:+ Pre v else out.

Definition AtLeast (v other : Value) : bool :=
  if decide (Major v <> Major other) then bool_decide (Major v > Major other) else
  if decide (Minor v <> Minor other) then bool_decide (Minor v > Minor other) else
  bool_decide (Patch v >= Patch other).

(** ** Specification *)

Definition in_range (v : Value) : Prop :=
  0 <= Major v <= max_int64 /\ 0 <= Minor v <= max_int64 /\ 0 <= Patch v <= max_int64.

Definition core_of (v : Value) : string :=
  FormatInt (Major v) +:+ "." +:+ FormatInt (Minor v) +:+ "." +:+ FormatInt (Patch v).

Lemma append_nil (s : string) : s +:+ "" = s.
Proof. induction s as [|a s IH]; [done|]. exact (f_equal (String a) IH). Qed.

Lemma String_core v :
  String_ v = String "v" (core_of v +:+ (if decide (Pre v <> "") then String "-" (Pre v) else "")).
Proof.
  unfold String_, core_of. case_decide; [|by rewrite append_nil].
  change ("-" +:+ Pre v) with (String "-" (Pre v)).
  by rewrite <- !string_app_assoc.
Qed.

Lemma dot_app s : "." +:+ s = String "." s.
Proof. done. Qed.

Lemma core_scanned v : in_range v -> Sscanf_triple (core_of v) = Some (Major v, Minor v, Patch v).
Proof.
  intros (Ha & Hb & Hc). unfold Sscanf_triple, core_of. rewrite !dot_app.
  rewrite scan_int_FormatInt by done. rewrite scan_int_FormatInt by done.
  pose proof (scan_int_FormatInt (Patch v) "" Hc I) as Hp. by rewrite append_nil in Hp; rewrite Hp.
Qed.

Lemma core_split v :
  Split "."%char (core_of v) = [FormatInt (Major v); FormatInt (Minor v); FormatInt (Patch v)].
Proof.
  unfold core_of. rewrite !dot_app. rewrite Split_app by by apply FormatInt_free.
  rewrite Split_app by by apply FormatInt_free. by rewrite Split_free by by apply FormatInt_free.
Qed.

Lemma TrimPrefix_v s : TrimPrefix (String "v" s) "v" = s.
Proof. unfold TrimPrefix. simpl. by destruct s. Qed.

Lemma Parse_String v : in_range v -> TrimSpace (String_ v) = String_ v -> Parse (String_ v) = Ok v.
Proof.
  intros Hv Htrim. unfold Parse. rewrite Htrim, String_core.
  assert (Hfree : free_of "-"%char (core_of v)).
  { destruct Hv as (Ha & Hb & Hc). unfold core_of. rewrite !free_of_app.
    repeat split; try done; (eapply digits_free; [done|apply FormatInt_digits; lia]). }
  assert (Hcut : Cut "-"%char (core_of v +:+ (if decide (Pre v <> "") then String "-" (Pre v) else ""))
    = if decide (Pre v <> "") then Some (core_of v, Pre v) else None).
  { case_decide; [by apply Cut_join|]. rewrite append_nil.
    destruct (Cut "-"%char (core_of v)) as [[x y]|] eqn:Hc; [|done].
    apply Cut_Some in Hc as [Hc _]. rewrite Hc in Hfree. apply free_of_app in Hfree as [_ [[] _]].
    done. }
  rewrite TrimPrefix_v.
  rewrite Hcut. destruct v as [a b c p]; simpl Pre in *.
  assert (Hend : (if decide (length (Split "."%char (core_of (mkValue a b c p))) <> 3%nat)
    then Err ErrInvalid else
    match Sscanf_triple (Join "."%char (Split "."%char (core_of (mkValue a b c p)))) with
    | None => Err ErrInvalid
    | Some (major, minor, patch) =>
        if decide (major < 0 \/ minor < 0 \/ patch < 0) then Err ErrInvalid
        else Ok (mkValue major minor patch p)
    end) = Ok (mkValue a b c p)).
  { rewrite core_split, decide_False by (intros []; done).
    change (Join _ _) with (core_of (mkValue a b c p)). rewrite core_scanned by done. simpl.
    destruct Hv as (Ha & Hb & Hc). simpl in *. by rewrite decide_False by lia. }
  clear Hcut. destruct (decide (p <> "")) as [Hp|Hp]; [exact Hend|]. rewrite append_nil.
  assert (p = "") as -> by (by apply dec_stable). exact Hend.
Qed.

Lemma scan_int_range s n rest : scan_int s = Some (n, rest) -> in_int64 n.
Proof.
  unfold scan_int. destruct (skip_space s) as [s'|]; [|done].
  destruct (match s' with EmptyString => _ | String _ _ => _ end) as [sign s2].
  destruct (span numeric s2) as [tok rest']. case_decide; [done|].
  destruct (ParseInt _) eqn:Hp; [|done]. intros [= <- <-]. by apply ParseInt_range in Hp.
Qed.

Lemma Parse_range raw w : Parse raw = Ok w -> in_range w.
Proof.
  unfold Parse. destruct (match Cut _ _ with Some _ => _ | None => _ end) as [core pre].
  case_decide; [done|]. destruct (Sscanf_triple _) as [[[a b] c]|] eqn:Hs; [|done].
  case_decide; [done|]. intros [= <-]. unfold in_range, Sscanf_triple in *. simpl.
  destruct (scan_int (Join _ _)) as [[a' s1]|] eqn:H1; [|done].
  destruct s1 as [|[[] [] [] [] [] [] [] []] s1]; try done.
  destruct (scan_int s1) as [[b' s2]|] eqn:H2; [|done].
  destruct s2 as [|[[] [] [] [] [] [] [] []] s2]; try done.
  destruct (scan_int s2) as [[c' s3]|] eqn:H3; [|done]. simplify_eq.
  apply scan_int_range in H1, H2, H3. unfold in_int64 in *. lia.
Qed.

(** A version is parsed back from its text; what is parsed has components in range;
    and [AtLeast] is the total lexicographic order on the three components. *)
Theorem version_roundtrip v raw w :
  in_range v -> TrimSpace (String_ v) = String_ v -> Parse raw = Ok w ->
  Parse (String_ v) = Ok v /\ in_range w /\
  (AtLeast v w = true <->
     Major v > Major w \/ (Major v = Major w /\ (Minor v > Minor w \/
       (Minor v = Minor w /\ Patch v >= Patch w)))) /\
  (AtLeast v w = true \/ AtLeast w v = true) /\
  (AtLeast v w = true -> AtLeast w v = true ->
     Major v = Major w /\ Minor v = Minor w /\ Patch v = Patch w).
Proof.
  intros Hv Htrim Hw. split_and!.
  - by apply Parse_String.
  - by eapply Parse_range.
  - unfold AtLeast. repeat case_decide; rewrite bool_decide_eq_true; lia.
  - unfold AtLeast. repeat case_decide; rewrite !bool_decide_eq_true; lia.
  - unfold AtLeast. repeat case_decide; rewrite !bool_decide_eq_true; lia.
Qed.

Lemma version_roundtrip_witness :
  let v := mkValue 1 20 3 "rc-1" in
  Parse "v1.20.3-rc-1" = Ok v /\ AtLeast v (mkValue 1 4 0 "") = true.
Proof.
  destruct (version_roundtrip (mkValue 1 20 3 "rc-1") " 1.4.0 " (mkValue 1 4 0 "")) as (Hp & _ & Ha & _).
  - unfold in_range. simpl. unfold max_int64. lia.
  - vm_compute. reflexivity.
  - vm_compute. reflexivity.
  - split; [exact Hp|]. apply Ha. simpl. lia.
Defined.

(** What follows the third number is not looked at. *)
Example Parse_ignores_rest : Parse "v1.2.3oops" = Ok (mkValue 1 2 3 "").
Proof. vm_compute. reflexivity. Qed.
