(* ===== verification/sequence.v ===== *)
(** * Package sequence

    Numbered references of a day ([internal/sequence/sequence.go]). *)

From S2P Require Import Prelude.
From S2P Require Import golang.
From S2P Require Import strconv.
From S2P Require Import fmt.
From S2P Require Import domain.

Open Scope string_scope.
Open Scope list_scope.
Open Scope Z_scope.

Record Generator := mkGenerator { g_prefix : string; g_day : string; g_next : Z }.

Definition New (prefix : string) : Generator := mkGenerator prefix "" 0.

Definition reference (prefix day : string) (n : Z) : string :=
  prefix +:+ "-" +:+ day +:+ "-" +:+ FormatPadded 6 n.

Definition Next (now : Time) (g : Generator) : Generator * result string :=
  if decide (g_prefix g = "" \/ IsZero now) then (g, Err ErrInvalid) else
  let day := FormatDay now in
  let g := if decide (day <> g_day g) then mkGenerator (g_prefix g) day 0 else g in
  let g := mkGenerator (g_prefix g) (g_day g) (add64 (g_next g) 1) in
  (g, Ok (reference (g_prefix g) day (g_next g))).

Definition Peek (g : Generator) : Z := add64 (g_next g) 1.

(** The answers to calls at given readings of the clock. *)
Fixpoint issue (times : list Time) (g : Generator) : list (result string) :=
  match times with
  | [] => []
  | t :: times => let '(g, r) := Next t g in r :: issue times g
  end.

(** How many of the readings are on the day of [t]. *)
Definition tally (t : Time) (times : list Time) : Z :=
  Z.of_nat (length (filter (fun u => FormatDay u = FormatDay t) times)).

(** The clock does not go back, and starts after the first instant of year 1. *)
Definition monotone (times : list Time) : Prop :=
  StronglySorted Z.le times /\ Forall (fun t => 0 < t) times.

Lemma tally_snoc t us u :
  tally t (us ++ [u]) = tally t us + (if decide (FormatDay u = FormatDay t) then 1 else 0).
Proof.
  unfold tally. rewrite filter_app, length_app, filter_cons, filter_nil. case_decide; simpl; lia.
Qed.

(** The state after the calls [past]. *)
Definition counted (prefix : string) (past : list Time) (g : Generator) : Prop :=
  g_prefix g = prefix /\
  match last past with
  | None => g_next g = 0
  | Some t => g_day g = FormatDay t /\ g_next g = tally t past
  end.

(** A day that is over has no more readings. *)
Lemma day_over past t u : monotone (past ++ [t]) -> last past = Some u ->
  FormatDay t <> FormatDay u -> tally t past = 0.
Proof.
  intros [Hs Hp] Hu Hne. unfold tally.
  enough (filter (fun u => FormatDay u = FormatDay t) past = []) as -> by done.
  apply elem_of_nil_inv. intros w [He Hw]%list_elem_of_filter.
  assert (Hpos : forall x, x ∈ past ++ [t] -> 0 <= x).
  { intros x Hx. rewrite Forall_forall in Hp. specialize (Hp x Hx). lia. }
  apply last_Some in Hu as [past' ->].
  assert (Hle : w <= u /\ u <= t).
  { apply StronglySorted_app in Hs as (Hlast & Hs & _). split; [|apply Hlast; set_solver].
    apply StronglySorted_app in Hs as (Hx & _ & _).
    apply elem_of_app in Hw as [Hw|Hw]; [apply Hx; set_solver|]. apply list_elem_of_singleton in Hw. lia. }
  apply Hne. rewrite FormatDay_iff in * by (apply Hpos; set_solver).
  assert (w / (24 * Hour) <= u / (24 * Hour)) by (apply Z.div_le_mono; [done|lia]).
  assert (u / (24 * Hour) <= t / (24 * Hour)) by (apply Z.div_le_mono; [done|lia]). lia.
Qed.

Lemma counted_Next prefix past t g : prefix <> "" -> monotone (past ++ [t]) ->
  Z.of_nat (length past) < max_int64 -> counted prefix past g ->
  (Next t g).2 = Ok (reference prefix (FormatDay t) (tally t (past ++ [t]))) /\
  counted prefix (past ++ [t]) (Next t g).1.
Proof.
  intros Hpre Hm Hlen [Hp Hg].
  assert (Ht : ~ IsZero t).
  { destruct Hm as [_ Hm]. rewrite Forall_forall in Hm. specialize (Hm t ltac:(set_solver)).
    unfold IsZero, zero_time. lia. }
  assert (Hn : g_next (if decide (FormatDay t <> g_day g) then mkGenerator (g_prefix g) (FormatDay t) 0
      else g) = tally t past /\
    g_day (if decide (FormatDay t <> g_day g) then mkGenerator (g_prefix g) (FormatDay t) 0 else g)
      = FormatDay t).
  { destruct (last past) as [u|] eqn:Hu.
    - destruct Hg as [Hd Hn]. rewrite Hd. case_decide as Hday; simpl.
      + by rewrite (day_over _ _ _ Hm Hu Hday).
      + rewrite Hn, Hd, <- Hday. split; [|done]. unfold tally. by rewrite Hday.
    - apply last_None in Hu as ->. case_decide as Hday; simpl; [done|].
      by rewrite Hg, <- Hday. }
  unfold Next. rewrite decide_False by (rewrite Hp; tauto). simpl.
  destruct Hn as [Hn Hd].
  assert (Hnext : add64 (tally t past) 1 = tally t (past ++ [t])).
  { rewrite tally_snoc, decide_True by done. apply add64_exact. unfold in_int64, tally.
    pose proof (length_filter (fun u => FormatDay u = FormatDay t) past). unfold min_int64 in *. lia. }
  assert (Hp' : g_prefix (if decide (FormatDay t <> g_day g) then mkGenerator (g_prefix g) (FormatDay t) 0
    else g) = prefix) by (by case_decide).
  rewrite Hn, Hd, Hp', Hnext. split; [done|]. split; [done|]. by rewrite last_snoc.
Qed.

Lemma issue_spec prefix past times g : prefix <> "" -> monotone (past ++ times) ->
  Z.of_nat (length (past ++ times)) <= max_int64 -> counted prefix past g ->
  forall i, issue times g !! i =
    (fun t => Ok (reference prefix (FormatDay t) (tally t (past ++ take (S i) times)))) <$> times !! i.
Proof.
  intros Hpre. revert past g. induction times as [|t times IH]; intros past g Hm Hlen Hc i; [done|].
  replace (past ++ t :: times) with ((past ++ [t]) ++ times) in * by (by rewrite <- (assoc (++))).
  destruct (counted_Next prefix past t g) as [Hr Hc']; [done| | |done|].
  - destruct Hm as [Hs Hp]. split; [by eapply StronglySorted_app_1_l|]. by apply Forall_app in Hp as [Hp _].
  - rewrite !length_app in Hlen. simpl in Hlen. lia.
  - simpl. destruct (Next t g) as [g' r]. simpl in Hr, Hc'. subst r.
    destruct i as [|i]; [done|]. simpl. rewrite (IH _ _ Hm Hlen Hc').
    destruct (times !! i); [|done]. simpl. by rewrite <- (assoc (++)).
Qed.

Lemma reference_inj prefix t u n n' : 0 <= t -> 0 <= u -> 0 <= n -> 0 <= n' ->
  reference prefix (FormatDay t) n = reference prefix (FormatDay u) n' ->
  FormatDay t = FormatDay u /\ n = n'.
Proof.
  intros Ht Hu Hn Hn' He. unfold reference in He. apply (inj (String.append prefix)) in He.
  injection He as He. apply join_inj in He as [Hd He]; [|by apply FormatDay_free..].
  split; [done|]. by eapply FormatPadded_inj.
Qed.

(** C39. While the clock does not go back, the references of a generator are numbered
    from one on each day, and no two are equal. *)
Theorem references_distinct prefix times :
  prefix <> "" -> monotone times -> Z.of_nat (length times) <= max_int64 ->
  (forall i t, times !! i = Some t ->
     issue times (New prefix) !! i = Some (Ok (reference prefix (FormatDay t) (tally t (take (S i) times))))) /\
  NoDup (issue times (New prefix)).
Proof.
  intros Hpre Hm Hlen.
  pose proof (issue_spec prefix [] times (New prefix) Hpre Hm Hlen (conj eq_refl eq_refl)) as Hi.
  split; [intros i t Ht; by rewrite Hi, Ht|].
  apply NoDup_alt. intros i j r. rewrite !Hi. simpl.
  destruct (times !! i) as [t|] eqn:Ht; [|done]. destruct (times !! j) as [u|] eqn:Hu; [|done].
  simpl. intros [= <-] [= He]. symmetry in He. revert He.
  enough (Hlt : forall (i j : nat) t u, times !! i = Some t -> times !! j = Some u -> (i < j)%nat ->
    reference prefix (FormatDay t) (tally t (take (S i) times)) <>
    reference prefix (FormatDay u) (tally u (take (S j) times))).
  { intros He. destruct (Nat.lt_trichotomy i j) as [Hl|[->|Hl]]; [|done|];
      [by destruct (Hlt _ _ _ _ Ht Hu Hl)|by destruct (Hlt _ _ _ _ Hu Ht Hl)]. }
  clear i j t u Ht Hu. intros i j t u Ht Hu Hl He.
  assert (Hpos : forall k v, times !! k = Some v -> 0 <= v).
  { intros k v Hv. destruct Hm as [_ Hm]. rewrite Forall_lookup in Hm. specialize (Hm k v Hv). lia. }
  apply reference_inj in He as [Hd Hn]; [|by eapply Hpos|by eapply Hpos|unfold tally; lia..].
  assert (Hday : tally t (take (S i) times) = tally u (take (S i) times)) by (unfold tally; by rewrite Hd).
  rewrite Hday in Hn. rewrite (take_S_r times j u Hu), tally_snoc, decide_True in Hn by done.
  assert (Hle : tally u (take (S i) times) <= tally u (take j times)).
  { replace (take (S i) times) with (take (S i) (take j times)) by (rewrite take_take; f_equal; lia).
    rewrite <- (take_drop (S i) (take j times)) at 2. unfold tally. rewrite filter_app, length_app. lia. }
  lia.
Qed.

Lemma references_distinct_witness :
  issue [5; 7; 24 * Hour] (New "AB") !! 2%nat = Some (Ok "AB-00010102-000001").
Proof.
  destruct (references_distinct "AB" [5; 7; 24 * Hour]) as [Hi _].
  - discriminate.
  - split; [|repeat (constructor; [reflexivity|]); constructor].
    repeat (constructor; [|repeat (constructor; [vm_compute; discriminate|]); constructor]). constructor.
  - vm_compute. discriminate.
  - exact (Hi 2%nat (24 * Hour) eq_refl).
Defined.

(** When a reading from before midnight reaches the generator after one from the next
    day, the counter starts again and a reference is issued twice. *)
Example midnight_repeats :
  let out := issue [24 * Hour - 2; 24 * Hour; 24 * Hour - 1] (New "AB") in
  out !! 0%nat = out !! 2%nat /\ out !! 0%nat = Some (Ok "AB-00010101-000001").
Proof. vm_compute. done. Qed.
