(* ===== verification/claims.v ===== *)
(** * Package claims

    Claims for damaged cargo ([internal/claims/claims.go]). *)

From S2P Require Import Prelude.
From S2P Require Import golang.
From S2P Require Import domain.

Open Scope string_scope.
Open Scope list_scope.
Open Scope Z_scope.

Record Claim := mkClaim {
  cl_ID : string; cl_TenantID : string; cl_ShipmentID : string; cl_FiledBy : string;
  cl_Reason : string; cl_Status : string; cl_FiledAt : Time; cl_ResolvedAt : option Time }.

Definition Open_ (c : Claim) : option error :=
  if decide (cl_ID c = "" \/ cl_TenantID c = "" \/ cl_ShipmentID c = "" \/ cl_FiledBy c = ""
             \/ TrimSpace (cl_Reason c) = "" \/ IsZero (cl_FiledAt c))
  then Some ErrInvalid else None.

Definition decided (status : string) (at_ : Time) (c : Claim) : Claim :=
  let 'mkClaim i t s f r _ fa _ := c in mkClaim i t s f r status fa (Some at_).

Definition Resolve (c : Claim) (at_ : Time) : result Claim :=
  if decide (cl_Status c = "resolved" \/ cl_Status c = "rejected") then Err ErrState else
  if decide (at_ < cl_FiledAt c) then Err ErrInvalid else
  Ok (decided "resolved" at_ c).

Definition Reject (c : Claim) (at_ : Time) : result Claim :=
  if decide (cl_Status c = "resolved" \/ cl_Status c = "rejected") then Err ErrState else
  if decide (at_ < cl_FiledAt c) then Err ErrInvalid else
  Ok (decided "rejected" at_ c).

Definition IsOpen (c : Claim) : bool :=
  bool_decide (cl_Status c = "open" \/ cl_Status c = "investigating").

(** ** Histories of a claim *)

Inductive decision := Resolving (at_ : Time) | Rejecting (at_ : Time).

Definition decide_claim (d : decision) (c : Claim) : result Claim :=
  match d with Resolving at_ => Resolve c at_ | Rejecting at_ => Reject c at_ end.

(** The claim that is kept after a decision: the old one when it fails. *)
Definition after_decision (c : Claim) (d : decision) : Claim :=
  match decide_claim d c with Ok c' => c' | Err _ => c end.

Definition final (c : Claim) : Prop := cl_Status c = "resolved" \/ cl_Status c = "rejected".

Lemma final_refuses c d : final c -> decide_claim d c = Err ErrState.
Proof. intros Hc. by destruct d; simpl; unfold Resolve, Reject; rewrite decide_True. Qed.

Lemma decide_claim_Ok d c c' : decide_claim d c = Ok c' ->
  ~ final c /\ final c' /\
  exists status at_, c' = decided status at_ c /\ cl_FiledAt c <= at_ /\
    (status = "resolved" \/ status = "rejected").
Proof.
  unfold final. destruct d as [at_|at_]; simpl; unfold Resolve, Reject; (case_decide; [done|]);
    (case_decide; [done|]); intros [= <-]; (split; [done|]); (split; [destruct c; simpl; tauto|]);
    eexists _, at_; split_and!; eauto; lia.
Qed.

(** Among any decisions on a claim the first one that succeeds is the only one: it
    closes the claim, not before it was filed, keeps everything else, and all later
    ones are refused. *)
Theorem claim_decided_once c d ds c' :
  decide_claim d c = Ok c' ->
  IsOpen c' = false /\ foldl after_decision c' ds = c' /\
  Forall (fun d' => decide_claim d' c' = Err ErrState) ds /\
  (exists at_, cl_ResolvedAt c' = Some at_ /\ cl_FiledAt c <= at_ /\
    c' = decided (cl_Status c') at_ c).
Proof.
  intros Hd. destruct (decide_claim_Ok _ _ _ Hd) as (_ & Hf & status & at_ & -> & Hat & Hs).
  split_and!.
  - apply bool_decide_eq_false. destruct Hf as [-> | ->]; intuition discriminate.
  - induction ds as [|d' ds IH]; [done|]. simpl. unfold after_decision at 2.
    by rewrite (final_refuses _ d' Hf).
  - apply Forall_forall. intros d' _. by apply final_refuses.
  - exists at_. destruct c. by split_and!.
Qed.

Lemma claim_decided_once_witness :
  let c := mkClaim "c1" "acme" "s1" "bob" "dented" "open" 5 None in
  IsOpen c = true /\ Resolve (decided "rejected" 9 c) 10 = Err ErrState.
Proof.
  split; [reflexivity|].
  destruct (claim_decided_once (mkClaim "c1" "acme" "s1" "bob" "dented" "open" 5 None) (Rejecting 9)
    [Resolving 10] (mkClaim "c1" "acme" "s1" "bob" "dented" "rejected" 5 (Some 9))) as (_ & _ & Hr & _).
  - reflexivity.
  - inversion Hr. assumption.
Defined.
