(* ===== verification/retention.v ===== *)
(** * Packages retention and expiry

    Deletion of old records ([internal/retention/retention.go]) and values that
    expire, with a grace period (the module [expiry], [internal/expiry/expiry.go]). *)

From S2P Require Import Prelude.
From S2P Require Import golang.
From S2P Require Import domain.

Open Scope string_scope.
Open Scope Z_scope.

Record Policy := mkPolicy { pol_Name : string; pol_Keep : Duration; pol_LegalHold : bool }.

Record Record_ := mkRecord {
  rec_ID : string; rec_CreatedAt : Time; rec_DeletedAt : option Time; rec_Hold : bool }.

Definition Expired (p : Policy) (r : Record_) (now : Time) : bool :=
  if decide (pol_Name p = "" \/ pol_Keep p <= 0 \/ IsZero (rec_CreatedAt r) \/ rec_Hold r = true
             \/ pol_LegalHold p = true)
  then false else bool_decide (~ now < time_Add (rec_CreatedAt r) (pol_Keep p)).

Definition MarkDeleted (p : Policy) (r : Record_) (now : Time) : result Record_ :=
  if negb (Expired p r now) then Err ErrState else
  Ok (mkRecord (rec_ID r) (rec_CreatedAt r) (Some now) (rec_Hold r)).

Definition Purgeable (r : Record_) (now : Time) : bool :=
  match rec_DeletedAt r with
  | None => false
  | Some deleted => bool_decide (now > time_Add deleted (24 * Hour))
  end.

Lemma Expired_iff p r now :
  Expired p r now = true <->
  pol_Name p <> "" /\ 0 < pol_Keep p /\ ~ IsZero (rec_CreatedAt r) /\ rec_Hold r = false /\
  pol_LegalHold p = false /\ rec_CreatedAt r + pol_Keep p <= now.
Proof.
  unfold Expired, time_Add. case_decide as Hg.
  - split; [done|]. intros (? & ? & ? & ? & ? & ?). destruct (rec_Hold r), (pol_LegalHold p); intuition lia.
  - rewrite bool_decide_eq_true. destruct (rec_Hold r), (pol_LegalHold p); intuition lia.
Qed.

(** A record is purged more than a day after it was marked deleted, and it is marked
    only when no hold is on it and its policy's time has passed; then it stays
    expired.  A hold protects the record whatever the clock says. *)
Theorem purge_needs_expiry p r r' now later :
  MarkDeleted p r now = Ok r' ->
  rec_Hold r = false /\ pol_LegalHold p = false /\ rec_CreatedAt r + pol_Keep p <= now /\
  (now <= later -> Expired p r' later = true) /\
  (Purgeable r' later = true <-> now + 24 * Hour < later) /\
  (forall q s, (rec_Hold s = true \/ pol_LegalHold q = true) -> MarkDeleted q s later = Err ErrState).
Proof.
  unfold MarkDeleted. destruct (Expired p r now) eqn:He; [|done]. intros [= <-].
  apply Expired_iff in He as (Hn & Hk & Hz & Hh & Hl & Ht). split_and!; try done.
  - intros Hle. apply Expired_iff. simpl. split_and!; try done. lia.
  - unfold Purgeable, time_Add. simpl. rewrite bool_decide_eq_true. lia.
  - intros q s Hhold. destruct (Expired q s later) eqn:Hs; [|done].
    apply Expired_iff in Hs as (_ & _ & _ & Hh' & Hl' & _). destruct Hhold; congruence.
Qed.

Lemma purge_needs_expiry_witness :
  let p := mkPolicy "default" 10 false in
  let r' := mkRecord "r1" 5 (Some 15) false in
  MarkDeleted p (mkRecord "r1" 5 None false) 15 = Ok r' /\ Purgeable r' (16 + 24 * Hour) = true.
Proof.
  split; [reflexivity|].
  destruct (purge_needs_expiry (mkPolicy "default" 10 false) (mkRecord "r1" 5 None false)
    (mkRecord "r1" 5 (Some 15) false) 15 (16 + 24 * Hour)) as (_ & _ & _ & _ & Hp & _).
  - reflexivity.
  - apply Hp. reflexivity.
Defined.

(** ** Package expiry *)

Module expiry.
Record Value := mkValue { v_IssuedAt : Time; v_ExpiresAt : Time; v_Grace : Duration }.

Definition New (issued : Time) (ttl grace : Duration) : result Value :=
  if decide (IsZero issued \/ ttl <= 0 \/ grace < 0) then Err ErrInvalid else
  Ok (mkValue issued (time_Add issued ttl) grace).

Definition Active (v : Value) (at_ : Time) : bool := bool_decide (at_ < v_ExpiresAt v).

Definition WithinGrace (v : Value) (at_ : Time) : bool :=
  bool_decide (~ at_ < v_ExpiresAt v) && bool_decide (at_ < time_Add (v_ExpiresAt v) (v_Grace v)).

Definition Remaining (v : Value) (at_ : Time) : Duration :=
  if decide (~ at_ < v_ExpiresAt v) then 0 else time_Sub (v_ExpiresAt v) at_.

(** A value passes through its phases in order: active for exactly its time to live,
    then in grace, then over, never in two at once; the remaining time is positive
    exactly while it is active and counts down to zero. *)
Theorem value_phases issued ttl grace v at_ :
  New issued ttl grace = Ok v -> in_int64 ttl -> issued <= at_ ->
  (Active v at_ = true <-> at_ - issued < ttl) /\
  (WithinGrace v at_ = true <-> ttl <= at_ - issued < ttl + grace) /\
  Active v at_ && WithinGrace v at_ = false /\
  Remaining v at_ = Z.max 0 (ttl - (at_ - issued)) /\
  (0 < Remaining v at_ <-> Active v at_ = true).
Proof.
  unfold New. case_decide as Hg; [done|]. intros [= <-] [_ Httl] Hat. unfold Active, WithinGrace, Remaining, time_Add.
  simpl. rewrite andb_true_iff, andb_false_iff, andb_false_iff, !bool_decide_eq_true, !bool_decide_eq_false.
  unfold time_Sub, min_int64 in *.
  case_decide; split_and!; lia.
Qed.

Lemma value_phases_witness :
  let v := mkValue 5 15 3 in Active v 14 = true /\ WithinGrace v 17 = true /\ Remaining v 14 = 1.
Proof.
  destruct (value_phases 5 10 3 (mkValue 5 15 3) 14) as (Ha & _ & _ & Hr & _).
  - reflexivity.
  - split; discriminate.
  - discriminate.
  - split; [apply Ha; reflexivity|]. split; [reflexivity|exact Hr].
Defined.
End expiry.
