(* ===== verification/eta.v ===== *)
(** * Package eta

    Estimated arrivals ([internal/eta/eta.go]). *)

From S2P Require Import Prelude.
From S2P Require Import golang.
From S2P Require Import floats.
From S2P Require Import domain.

Open Scope string_scope.
Open Scope list_scope.
Open Scope Z_scope.

Record Stop := mkStop { st_Code : string; st_Arrive : Time; st_Depart : Time }.

Record Estimate := mkEstimate {
  es_ShipmentID : string; es_Arrival : Time; es_Confidence : string; es_DelayMinutes : Z }.

(** The loop over the stops: the departure from the last one. *)
Fixpoint stops_loop (last : Time) (stops : list Stop) : result Time :=
  match stops with
  | [] => Ok last
  | s :: stops =>
      if decide (st_Code s = "" \/ ~ st_Depart s > st_Arrive s \/ st_Arrive s < last) then Err ErrInvalid
      else stops_loop (st_Depart s) stops
  end.

Definition Calculate `{Platform} (shipment : string) (stops : list Stop) (now : Time) : result Estimate :=
  if decide (shipment = "" \/ length stops = 0%nat) then Err ErrInvalid else
  match stops_loop now stops with
  | Err err => Err err
  | Ok last =>
      let delay := if decide (last < now) then int64_of_float64 (Minutes (time_Sub now last)) else 0 in
      let confidence := if decide (3 < length stops)%nat then "medium" else "high" in
      Ok (mkEstimate shipment last confidence delay)
  end.

Definition AddDelay (e : Estimate) (minutes : Z) : result Estimate :=
  if decide (minutes < 0) then Err ErrInvalid else
  let delay := add64 (es_DelayMinutes e) minutes in
  Ok (mkEstimate (es_ShipmentID e) (time_Add (es_Arrival e) (mul64 minutes Minute))
        (if decide (delay > 120) then "low" else es_Confidence e) delay).

(** The stops are named, left after they are reached, and follow each other from [t]
    to [u]. *)
Fixpoint itinerary (t : Time) (stops : list Stop) (u : Time) : Prop :=
  match stops with
  | [] => t = u
  | s :: stops => st_Code s <> "" /\ t <= st_Arrive s < st_Depart s /\ itinerary (st_Depart s) stops u
  end.

Lemma stops_loop_ok last stops u : stops_loop last stops = Ok u <-> itinerary last stops u.
Proof.
  revert last. induction stops as [|s stops IH]; intros last; simpl; [split; congruence|].
  case_decide; [split; [done|]; intuition lia|]. rewrite IH. intuition lia.
Qed.

Lemma stops_loop_error last stops e : stops_loop last stops = Err e -> e = ErrInvalid.
Proof.
  revert last. induction stops as [|s stops IH]; intros last; simpl; [done|].
  case_decide; [congruence|]. apply IH.
Qed.

Lemma itinerary_later t stops u : itinerary t stops u -> t <= u /\ (stops <> [] -> t < u).
Proof.
  revert t. induction stops as [|s stops IH]; intros t; simpl; [intuition lia|].
  intros (_ & Ht & Hi). apply IH in Hi as [Hi _]. split; intros; lia.
Qed.

(** An estimate exists exactly for a named shipment with stops in order from now on;
    its arrival is the departure from the last stop, after now, so it never carries a
    delay of its own; added delays move the arrival by as many minutes. *)
Theorem Calculate_exact `{Platform} shipment stops now :
  (forall e, Calculate shipment stops now = Ok e <->
     shipment <> "" /\ stops <> [] /\ itinerary now stops (es_Arrival e) /\ es_DelayMinutes e = 0 /\
     es_ShipmentID e = shipment /\
     es_Confidence e = if decide (3 < length stops)%nat then "medium" else "high") /\
  (forall err, Calculate shipment stops now = Err err -> err = ErrInvalid) /\
  (forall e e' minutes, Calculate shipment stops now = Ok e -> 0 <= minutes ->
     in_int64 (minutes * Minute) -> AddDelay e minutes = Ok e' ->
     es_Arrival e' = es_Arrival e + minutes * Minute /\ es_DelayMinutes e' = minutes /\
     now < es_Arrival e').
Proof.
  assert (Hiff : forall e, Calculate shipment stops now = Ok e <->
     shipment <> "" /\ stops <> [] /\ itinerary now stops (es_Arrival e) /\ es_DelayMinutes e = 0 /\
     es_ShipmentID e = shipment /\
     es_Confidence e = if decide (3 < length stops)%nat then "medium" else "high").
  { intros e. unfold Calculate. case_decide as Hg.
    { split; [done|]. intros (Hs & Hst & _). destruct Hg as [?|Hl]; [done|]. by apply nil_length_inv in Hl. }
    destruct (stops_loop now stops) as [last|err] eqn:Hl.
    - apply stops_loop_ok in Hl as Hi. apply itinerary_later in Hi as Hlt.
      rewrite (decide_False (P := last < now)) by lia. split.
      + intros [= <-]. simpl. split_and!; try done; [tauto|]. intros ->. by apply Hg; right.
      + intros (_ & _ & Hi' & Hd & Hs & Hc). apply stops_loop_ok in Hi'. destruct e; simpl in *.
        rewrite Hl in Hi'. injection Hi' as ->. by subst.
    - split; [done|]. intros (_ & _ & Hi & _). apply stops_loop_ok in Hi. congruence. }
  split_and!; [done| |].
  - intros err. unfold Calculate. destruct (decide (shipment = "" \/ _)); [by intros [= <-]|].
    destruct (stops_loop now stops) eqn:Hl; [done|]. intros [= <-]. by apply stops_loop_error in Hl.
  - intros e e' minutes He Hm Hr. apply Hiff in He as (_ & Hne & Hi & Hd & _).
    apply itinerary_later in Hi as [_ Hi]. specialize (Hi Hne).
    unfold AddDelay. rewrite decide_False by lia. intros [= <-]. simpl. unfold time_Add.
    rewrite mul64_exact by done. rewrite Hd. simpl.
    assert (0 < Minute) by done.
    rewrite add64_exact; [nia|]. unfold in_int64, min_int64, max_int64, Minute, Second in *. lia.
Qed.
