(* ===== verification/healthcheck.v ===== *)
(** * Packages healthcheck and health

    Probes of the server's surroundings and summaries of their results
    ([internal/healthcheck/], [internal/health/health.go]).  A probe is called with
    its context and answers with an error or none after some time. *)

From S2P Require Import Prelude.
From S2P Require Import golang.
From S2P Require Import strconv.
From S2P Require Import domain.

Open Scope string_scope.
Open Scope list_scope.
Open Scope Z_scope.

(** [context.WithTimeout(ctx, d)], as a probe is given it. *)
Record child := mkChild { parent : Context; timeout : Duration }.

Record Probe := mkProbe {
  pr_Name : string; pr_Timeout : Duration; pr_Run : option (child -> option error * Duration) }.

Record Result_ := mkResult {
  res_Name : string; res_OK : bool; res_Elapsed : Duration; res_Error : string }.

Definition Execute (ctx : Context) (p : Probe) : Result_ :=
  match pr_Run p with
  | None => mkResult (pr_Name p) false 0 (error_string ErrInvalid)
  | Some run =>
      if decide (pr_Name p = "") then mkResult (pr_Name p) false 0 (error_string ErrInvalid) else
      match run (mkChild ctx (pr_Timeout p)) with
      | (Some err, elapsed) => mkResult (pr_Name p) false elapsed (error_string err)
      | (None, elapsed) => mkResult (pr_Name p) true elapsed ""
      end
  end.

Fixpoint All_loop (ctx : Context) (probes : list Probe) (out : list Result_) : list Result_ :=
  match probes with
  | [] => out
  | p :: probes => All_loop ctx probes (out ++ [Execute ctx p])
  end.
Definition All (ctx : Context) (probes : list Probe) : list Result_ := All_loop ctx probes [].

Fixpoint Count_loop (results : list Result_) (ok failed : Z) : Z * Z :=
  match results with
  | [] => (ok, failed)
  | result :: results =>
      if res_OK result then Count_loop results (ok + 1) failed else Count_loop results ok (failed + 1)
  end.
Definition Count (results : list Result_) : Z * Z := Count_loop results 0 0.

Definition Names (results : list Result_) : list string := map res_Name results.

Fixpoint all_ok (results : list Result_) : bool :=
  match results with
  | [] => true
  | r :: results => if negb (res_OK r) then false else all_ok results
  end.
Definition Healthy (results : list Result_) : bool :=
  if decide (length results = 0%nat) then false else all_ok results.

Definition Failed `{SortSlice} (results : list Result_) : list Result_ :=
  sort_Slice (string_less_on res_Name) (filter (fun r => res_OK r = false) results).

Definition rendered (r : Result_) : string :=
  res_Name r +:+ ":" +:+ (if negb (res_OK r) then "failed" else "ok").
Definition Render (results : list Result_) : string := Join ","%char (map rendered results).

(** ** Package health: checks by name *)

Module health.
Record Status := mkStatus { st_Name : string; st_OK : bool; st_Error : string; st_Duration : Duration }.

Abbreviation Check := (Context -> option error * Duration) (only parsing).
Record Registry := mkRegistry { checks : gmap string Check }.

Definition New : Registry := mkRegistry ∅.

Definition Register (name : string) (fn : Check) (r : Registry) : Registry :=
  mkRegistry (<[name := fn]> (checks r)).

Definition status_of (ctx : Context) (name : string) (fn : Check) : Status :=
  match fn ctx with
  | (None, took) => mkStatus name true "" took
  | (Some err, took) => mkStatus name false (error_string err) took
  end.

(** [order] is the one in which the copied map is ranged over. *)
Definition Run (order : list string) (ctx : Context) (r : Registry) : list Status :=
  omap (fun name => status_of ctx name <$> checks r !! name) order.
End health.

(** ** Laws *)

Lemma All_map ctx probes : All ctx probes = map (Execute ctx) probes.
Proof.
  assert (Hl : forall out, All_loop ctx probes out = out ++ map (Execute ctx) probes).
  { induction probes as [|p probes IH]; intros out; simpl; [by rewrite app_nil_r|].
    by rewrite IH, <- (assoc (++)). }
  apply (Hl []).
Qed.

Abbreviation ok_results := (filter (fun r => res_OK r = true)).
Abbreviation failed_results := (filter (fun r => res_OK r = false)).

Lemma Count_filters results :
  Count results = (Z.of_nat (length (ok_results results)), Z.of_nat (length (failed_results results))).
Proof.
  assert (Hl : forall ok failed, Count_loop results ok failed =
    (ok + Z.of_nat (length (ok_results results)), failed + Z.of_nat (length (failed_results results)))).
  { induction results as [|r results IH]; intros ok failed; simpl; [f_equal; lia|].
    rewrite !filter_cons. destruct (res_OK r); rewrite IH; simpl; f_equal; lia. }
  unfold Count. by rewrite Hl.
Qed.

Lemma all_ok_failed results : all_ok results = true <-> failed_results results = [].
Proof.
  induction results as [|r results IH]; simpl; [done|]. rewrite filter_cons.
  destruct (res_OK r); simpl; [exact IH|done].
Qed.

Lemma ok_or_failed results :
  (length (ok_results results) + length (failed_results results) = length results)%nat.
Proof.
  induction results as [|r results IH]; [done|]. rewrite !filter_cons. destruct (res_OK r); simpl; lia.
Qed.

(** The summaries of executed probes agree: results keep the order and names of the
    probes, the counts add up to their number, the server is healthy exactly when
    there is a probe and none failed, the failed ones are listed by name, and the
    rendered line splits into one part per probe. *)
Theorem health_summaries `{SortSlice} ctx probes :
  let results := All ctx probes in
  Names results = map pr_Name probes /\
  (forall ok failed, Count results = (ok, failed) ->
     ok + failed = Z.of_nat (length probes) /\ Z.of_nat (length (Failed results)) = failed /\
     (Healthy results = true <-> 0 < ok /\ failed = 0)) /\
  Failed results ≡ₚ failed_results results /\ sorted_by (string_less_on res_Name) (Failed results) /\
  (probes <> [] -> Forall (fun p => free_of ","%char (pr_Name p)) probes ->
     Split ","%char (Render results) = map rendered results).
Proof.
  intros results. assert (Hp : Failed results ≡ₚ failed_results results) by apply sort_Slice_perm.
  assert (Hnames : Names results = map pr_Name probes).
  { unfold results. rewrite All_map. unfold Names. rewrite map_map. apply map_ext. intros p.
    unfold Execute. destruct (pr_Run p) as [run|]; [|done]. case_decide; [done|].
    by destruct (run _) as [[] ?]. }
  assert (Hlen : length results = length probes) by (unfold results; rewrite All_map; apply length_map).
  split_and!; [done| |done| |].
  - intros ok failed. rewrite Count_filters. intros [= <- <-]. rewrite Hp.
    pose proof (ok_or_failed results) as Hsum. split_and!; [lia|done|].
    unfold Healthy. case_decide as He; [split; [done|lia]|]. rewrite all_ok_failed, <- length_zero_iff_nil. lia.
  - apply sort_Slice_sorted, string_less_on_weak_order.
  - intros Hne Hf. apply Split_Join.
    + intros He. apply Hne, nil_length_inv. rewrite <- Hlen, <- (length_map rendered), He. done.
    + apply Forall_map, Forall_forall. intros r Hr. unfold rendered. rewrite !free_of_app. split_and!.
      * assert (Hin : res_Name r ∈ Names results) by (apply list_elem_of_fmap; eauto).
        rewrite Hnames in Hin. apply list_elem_of_fmap in Hin as (p & -> & Hp').
        rewrite Forall_forall in Hf. by apply Hf.
      * done.
      * by destruct (res_OK r).
Qed.

(** A run reports each registered check once, by its name and with its answer, in any
    iteration order. *)
Lemma health_Run_complete ctx r order : range_order (health.checks r) order ->
  (forall name fn, health.checks r !! name = Some fn -> health.status_of ctx name fn ∈ health.Run order ctx r) /\
  (forall s, s ∈ health.Run order ctx r -> exists fn, health.checks r !! health.st_Name s = Some fn /\
     s = health.status_of ctx (health.st_Name s) fn) /\
  length (health.Run order ctx r) = size (health.checks r).
Proof.
  intros [Hnd Hin]. unfold health.Run. split_and!.
  - intros name fn Hf. apply list_elem_of_omap. exists name. rewrite Hf. split; [apply Hin; eauto|done].
  - intros s. rewrite list_elem_of_omap. intros (name & _ & Hs).
    destruct (health.checks r !! name) as [fn|] eqn:Hf; [|done]. injection Hs as <-. exists fn.
    unfold health.status_of. by destruct (fn ctx) as [[] ?].
  - assert (Hl : forall ks, (forall k, k ∈ ks -> is_Some (health.checks r !! k)) ->
      length (omap (fun name => health.status_of ctx name <$> health.checks r !! name) ks) = length ks).
    { induction ks as [|k ks IH]; intros Hk; [done|]. simpl.
      destruct (Hk k ltac:(set_solver)) as [fn Hfn]. rewrite Hfn. simpl.
      f_equal. apply IH. set_solver. }
    rewrite Hl by (intros k; apply Hin). rewrite <- length_map_to_list, <- (length_map fst).
    apply Permutation_length, NoDup_Permutation; [done|apply NoDup_fst_map_to_list|].
    intros k. rewrite Hin. destruct (range_order_exists (health.checks r)) as [_ Hk]. by rewrite Hk.
Qed.
