(* ===== verification/metrics.v ===== *)
(** * Package metrics

    Counters by name ([internal/metrics/metrics.go]).  The readings of the clock are
    arguments. *)

From S2P Require Import Prelude.
From S2P Require Import golang.
From S2P Require Import machine.

Open Scope string_scope.
Open Scope list_scope.
Open Scope Z_scope.

Record Counter := mkCounter { values : gmap string Z }.

Definition NewCounter : Counter := mkCounter ∅.

Definition Get (name : string) (c : Counter) : Z := default 0 (values c !! name).

Definition Add (name : string) (n : Z) (c : Counter) : Counter :=
  if decide (name = "") then c else mkCounter (<[name := add64 (Get name c) n]> (values c)).

Definition Inc (name : string) (c : Counter) : Counter := Add name 1 c.

(** The loop that copies the map, in the order [order]. *)
Definition Snapshot (order : list string) (c : Counter) : gmap string Z :=
  copy_onto (values c) order ∅.

Record Timer := mkTimer { started : Time }.
Definition StartTimer (now : Time) : Timer := mkTimer now.
Definition Elapsed (t : Timer) (now : Time) : Duration := time_Sub now (started t).

Definition step (o : string * Z) (c : Counter) : Counter := Add o.1 o.2 c.

(** What was added under a name. *)
Fixpoint added (name : string) (ops : list (string * Z)) : Z :=
  match ops with
  | [] => 0
  | (k, n) :: ops => (if decide (k = name) then n else 0) + added name ops
  end.

Lemma Get_Add name k n c : Get k (Add name n c) =
  if decide (name <> "" /\ name = k) then add64 (Get k c) n else Get k c.
Proof.
  unfold Add. destruct (decide (name = "")) as [->|Hne]; [by rewrite decide_False by tauto|].
  unfold Get. simpl.
  destruct (decide (name = k)) as [->|Hk].
  - by rewrite lookup_insert_eq, decide_True.
  - by rewrite lookup_insert_ne, decide_False by naive_solver.
Qed.

Lemma Get_after name ops c : name <> "" -> in_int64 (Get name c) ->
  Get name (after step ops c) = wrap64 (Get name c + added name ops).
Proof.
  intros Hne. revert c. induction ops as [|[k n] ops IH]; intros c Hc; simpl.
  { by rewrite Z.add_0_r, wrap64_id. }
  assert (Hs : Get name (step (k, n) c) = if decide (k = name) then add64 (Get name c) n else Get name c).
  { unfold step. simpl. rewrite Get_Add. destruct (decide (k = name)) as [->|Hk].
    - by rewrite decide_True.
    - by rewrite decide_False by tauto. }
  rewrite IH; rewrite Hs; destruct (decide (k = name)).
  - unfold add64. rewrite wrap64_wrap64. f_equal. lia.
  - f_equal.
  - apply wrap64_in.
  - done.
Qed.

(** A counter holds the sum of what was added under its name, modulo 2^64, and
    nothing under the empty name; a snapshot holds the same counters, whatever the
    iteration order. *)
Theorem counters_sum ops order :
  let c := after step ops NewCounter in
  range_order (values c) order ->
  (forall name, name <> "" -> Get name c = wrap64 (added name ops)) /\
  Get "" c = 0 /\
  Snapshot order c = values c.
Proof.
  intros c Hord. split_and!.
  - intros name Hne. apply (Get_after name ops NewCounter Hne). vm_compute. by split.
  - apply (after_stable step (fun c => Get "" c = 0)); [|done].
    intros [k n] c' Hc. unfold step. simpl. rewrite Get_Add, decide_False; [done|]. by intros [? ->].
  - unfold Snapshot. by rewrite copy_onto_union, (right_id ∅ (∪)).
Qed.

Lemma counters_sum_witness :
  let c := after step [("hits", 2); ("", 9); ("hits", 3)] NewCounter in
  Get "hits" c = 5 /\ Get "" c = 0.
Proof.
  destruct (counters_sum [("hits", 2); ("", 9); ("hits", 3)] ["hits"]) as (Hg & He & _).
  - split; [apply (bool_decide_unpack _); vm_compute; exact I|].
    intros k. change (values _) with ({[ "hits" := 5 ]} : gmap string Z).
    rewrite lookup_singleton. case_decide; subst; split; intros Hk; try set_solver;
      try (by eexists); by destruct Hk.
  - split; [rewrite Hg by discriminate; reflexivity|exact He].
Defined.
