(* ===== verification/notification.v ===== *)
(** * Package notification

    Messages routed to senders by channel ([internal/notification/router.go]).
    Senders are pointers: several channels may share one, so they live in a heap
    and the router holds their addresses. *)

From S2P Require Import Prelude.
From S2P Require Import golang.
From S2P Require Import domain.

Open Scope string_scope.
Open Scope list_scope.
Open Scope Z_scope.

Record Message := mkMessage {
  msg_ID : string; msg_TenantID : string; msg_Recipient : string; msg_Channel : string;
  msg_Subject : string; msg_Body : string; msg_CreatedAt : Time }.

Record MemorySender := mkMemorySender { Sent : list Message; Failures : Z }.

Definition Send (ctx : Context) (v : Message) (m : MemorySender) : MemorySender * option error :=
  match ctx with
  | Some err => (m, Some err)
  | None =>
      if decide (Failures m > 0)
      then (mkMemorySender (Sent m) (sub64 (Failures m) 1), Some (ErrText "temporary notification failure"))
      else (mkMemorySender (Sent m ++ [v]) (Failures m), None)
  end.

Record Router := mkRouter { senders : gmap string nat }.

Definition New : Router := mkRouter ∅.

(** [s] is the address of the sender, or nil. *)
Definition Register_ (channel : string) (s : option nat) (r : Router) : Router * option error :=
  match s with
  | None => (r, Some ErrInvalid)
  | Some s =>
      if decide (TrimSpace channel = "") then (r, Some ErrInvalid) else
      match senders r !! channel with
      | Some _ => (r, Some ErrConflict)
      | None => (mkRouter (<[channel := s]> (senders r)), None)
      end
  end.

Abbreviation Senders := (gmap nat MemorySender) (only parsing).

Definition Deliver (ctx : Context) (v : Message) (r : Router) (h : Senders) : Senders * option error :=
  if decide (msg_ID v = "" \/ msg_Recipient v = "" \/ msg_Body v = "") then (h, Some ErrInvalid) else
  match senders r !! msg_Channel v with
  | None => (h, Some ErrNotFound)
  | Some s =>
      match h !! s with
      | None => (h, None)
      | Some m => let '(m, err) := Send ctx v m in (<[s := m]> h, err)
      end
  end.

(** Deliveries one after the other, with their answers. *)
Fixpoint deliveries (r : Router) (vs : list Message) (h : Senders) : Senders * list (option error) :=
  match vs with
  | [] => (h, [])
  | v :: vs =>
      let '(h, err) := Deliver None v r h in
      let '(h, errs) := deliveries r vs h in (h, err :: errs)
  end.

Definition complete (v : Message) : Prop := msg_ID v <> "" /\ msg_Recipient v <> "" /\ msg_Body v <> "".

(** A sender that is to fail [n] times refuses the first [n] of the complete
    messages of the channels that lead to it, and keeps the others in order; no other
    sender changes. *)
Theorem deliveries_after_failures r vs h s m (n : nat) :
  h !! s = Some m -> Failures m = Z.of_nat n -> Failures m <= max_int64 ->
  Forall (fun v => complete v /\ senders r !! msg_Channel v = Some s) vs ->
  exists m', deliveries r vs h =
      (<[s := m']> h, replicate (min n (length vs)) (Some (ErrText "temporary notification failure"))
                        ++ replicate (length vs - n) None) /\
    Sent m' = Sent m ++ drop n vs /\ Failures m' = Z.of_nat (n - length vs).
Proof.
  intros Hm Hn Hmax Hvs. revert h m n Hm Hn Hmax.
  induction Hvs as [|v vs [(Hi & Hr & Hb) Hc] Hvs IH]; intros h m n Hm Hn Hmax; simpl.
  { exists m. rewrite insert_id by done. rewrite drop_nil, Nat.min_0_r, Nat.sub_0_r, Hn.
    by rewrite !app_nil_r. }
  unfold Deliver. rewrite decide_False by tauto. rewrite Hc, Hm. simpl. case_decide as Hf.
  - destruct n as [|n]; [lia|].
    destruct (IH (<[s := mkMemorySender (Sent m) (sub64 (Failures m) 1)]> h)
      (mkMemorySender (Sent m) (sub64 (Failures m) 1)) n) as (m' & -> & Hs & Hf').
    + apply lookup_insert_eq.
    + simpl. rewrite sub64_exact; [lia|]. unfold in_int64, min_int64. lia.
    + simpl. rewrite sub64_exact; [lia|]. unfold in_int64, min_int64. lia.
    + exists m'. rewrite insert_insert_eq. done.
  - destruct n as [|n]; [|lia].
    destruct (IH (<[s := mkMemorySender (Sent m ++ [v]) (Failures m)]> h)
      (mkMemorySender (Sent m ++ [v]) (Failures m)) 0%nat) as (m' & -> & Hs & Hf').
    + apply lookup_insert_eq.
    + done.
    + done.
    + exists m'. rewrite insert_insert_eq. rewrite Nat.sub_0_r. split_and!; [done| |done].
      rewrite Hs. simpl. by rewrite <- (assoc (++)).
Qed.

Lemma deliveries_after_failures_witness :
  let v i := mkMessage i "acme" "bob" "mail" "hi" "text" 1 in
  exists m', deliveries (mkRouter {[ "mail" := 0%nat ]}) [v "1"; v "2"] {[ 0%nat := mkMemorySender [] 1 ]}
    = (<[0%nat := m']> {[ 0%nat := mkMemorySender [] 1 ]},
       [Some (ErrText "temporary notification failure"); None]) /\ Sent m' = [v "2"].
Proof.
  destruct (deliveries_after_failures (mkRouter {[ "mail" := 0%nat ]})
    [mkMessage "1" "acme" "bob" "mail" "hi" "text" 1; mkMessage "2" "acme" "bob" "mail" "hi" "text" 1]
    {[ 0%nat := mkMemorySender [] 1 ]} 0 (mkMemorySender [] 1) 1) as (m' & Hd & Hs & _).
  - reflexivity.
  - reflexivity.
  - discriminate.
  - repeat (constructor; [split; [repeat split; discriminate|reflexivity]|]). constructor.
  - exists m'. split; [exact Hd|exact Hs].
Defined.
