(* ===== verification/rules.v ===== *)
(** * Package rules

    Named rules over a context of values ([internal/rules/rules.go]).  [V] is the type
    of the values, and [as_time] the type assertion to [time.Time]. *)

From S2P Require Import Prelude.
From S2P Require Import golang.
From S2P Require Import domain.

Open Scope string_scope.
Open Scope list_scope.
Open Scope Z_scope.

Section rules.
Context {V : Type} (as_time : V -> option Time).

Record Rule := mkRule {
  ru_Name : string; ru_Enabled : bool; ru_Check : option (gmap string V -> option error) }.

(** The checks that are not nil run. *)
Definition run_check (r : Rule) (values : gmap string V) : option error :=
  match ru_Check r with Some check => check values | None => None end.

Abbreviation Set_ := (list Rule) (only parsing).

Definition New : Set_ := [].

Definition Add (r : Rule) (s : Set_) : Set_ * option error :=
  if decide (TrimSpace (ru_Name r) = "" \/ ru_Check r = None) then (s, Some ErrInvalid) else
  if existsb (fun old => bool_decide (ru_Name old = ru_Name r)) s then (s, Some ErrConflict) else
  (s ++ [r], None).

Fixpoint Evaluate (values : gmap string V) (s : Set_) : option error :=
  match s with
  | [] => None
  | r :: s =>
      if ru_Enabled r then
        match run_check r values with
        | Some err => Some err
        | None => Evaluate values s
        end
      else Evaluate values s
  end.

Definition Before (deadline : Time) : Rule :=
  mkRule "before_deadline" true (Some (fun values =>
    match values !! "at" ≫= as_time with
    | Some raw => if decide (~ raw < deadline) then Some ErrExpired else None
    | None => Some ErrExpired
    end)).

Lemma Add_names r s s' err : Add r s = (s', err) ->
  NoDup (map ru_Name s) -> NoDup (map ru_Name s') /\ (err = None <-> s' = s ++ [r]).
Proof.
  unfold Add. case_decide as Hg.
  { intros [= <- <-] Hs. split; [done|]. split; [done|]. intros He.
    apply (f_equal length) in He. rewrite length_app in He. simpl in He. lia. }
  destruct (existsb _ s) eqn:He.
  { intros [= <- <-] Hs. split; [done|]. split; [done|]. intros Hl.
    apply (f_equal length) in Hl. rewrite length_app in Hl. simpl in Hl. lia. }
  intros [= <- <-] Hs. split; [|done]. rewrite map_app. apply NoDup_app. split_and!; [done| |repeat constructor; set_solver].
  intros n Hn. simpl. intros ->%list_elem_of_singleton.
  apply list_elem_of_fmap in Hn as (old & Hname & Hold).
  apply not_true_iff_false in He. apply He, existsb_exists. exists old.
  split; [by apply list_elem_of_In|by apply bool_decide_eq_true].
Qed.

Lemma Evaluate_first values s :
  match Evaluate values s with
  | None => forall r, r ∈ s -> ru_Enabled r = true -> run_check r values = None
  | Some err => exists s1 r s2, s = s1 ++ r :: s2 /\ ru_Enabled r = true /\ run_check r values = Some err /\
      forall r', r' ∈ s1 -> ru_Enabled r' = true -> run_check r' values = None
  end.
Proof.
  induction s as [|r s IH]; simpl; [set_solver|].
  destruct (ru_Enabled r) eqn:Hr; [destruct (run_check r values) as [err|] eqn:Hc|].
  - exists [], r, s. set_solver.
  - destruct (Evaluate values s).
    + destruct IH as (s1 & r0 & s2 & -> & H1 & H2 & H3). exists (r :: s1), r0, s2. split_and!; [done..|].
      intros r' [->|Hr']%elem_of_cons; auto.
    + intros r' [->|Hr']%elem_of_cons; auto.
  - destruct (Evaluate values s).
    + destruct IH as (s1 & r0 & s2 & -> & H1 & H2 & H3). exists (r :: s1), r0, s2. split_and!; [done..|].
      intros r' [->|Hr']%elem_of_cons; [congruence|auto].
    + intros r' [->|Hr']%elem_of_cons; [congruence|auto].
Qed.

(** Rules that were added have distinct names; an evaluation passes exactly when
    every enabled rule does, and otherwise answers with the error of the first that
    fails, in the order of the additions; the deadline rule passes exactly on a time
    under "at" before the deadline. *)
Theorem rules_evaluate rs values deadline :
  let s := foldl (fun s r => (Add r s).1) New rs in
  NoDup (map ru_Name s) /\
  (Evaluate values s = None <-> forall r, r ∈ s -> ru_Enabled r = true -> run_check r values = None) /\
  (forall err, Evaluate values s = Some err ->
     exists s1 r s2, s = s1 ++ r :: s2 /\ ru_Enabled r = true /\ run_check r values = Some err /\
       Evaluate values s1 = None) /\
  (run_check (Before deadline) values = None <->
     exists v t, values !! "at" = Some v /\ as_time v = Some t /\ t < deadline).
Proof.
  intros s. pose proof (Evaluate_first values s) as Hf. split_and!.
  - subst s. rewrite <- (rev_involutive rs). clear Hf. induction (rev rs) as [|r l IH]; simpl; [constructor|].
    rewrite foldl_app. simpl. destruct (Add r _) as [s' err] eqn:Ha. simpl. by apply Add_names in Ha as [? _].
  - destruct (Evaluate values s) as [err|]; [|done]. destruct Hf as (s1 & r & s2 & -> & Hr & Hc & _).
    split; [done|]. intros Hall. rewrite (Hall r) in Hc; [done|set_solver|done].
  - intros err He. rewrite He in Hf. destruct Hf as (s1 & r & s2 & Hs & Hr & Hc & Hall).
    exists s1, r, s2. split_and!; try done. pose proof (Evaluate_first values s1) as Hf1.
    destruct (Evaluate values s1); [|done]. destruct Hf1 as (? & r' & ? & -> & Hr' & Hc' & _).
    rewrite (Hall r') in Hc'; [done|set_solver|done].
  - unfold run_check. simpl. destruct (values !! "at") as [v|]; simpl; [|naive_solver].
    destruct (as_time v) as [t|] eqn:Ht; [case_decide|]; naive_solver.
Qed.
End rules.
