(* ===== verification/report.v ===== *)
(** * Package report

    Summaries of shipments ([internal/report/summary.go]).  [ByStatus] has the
    statuses that occur; the order of rows of one instant is left open, as
    [sort.Slice] leaves it. *)

From S2P Require Import Prelude.
From S2P Require Import golang.
From S2P Require Import domain.

Open Scope string_scope.
Open Scope list_scope.
Open Scope Z_scope.

Record ShipmentRow := mkRow {
  row_Reference : string; row_Status : ShipmentStatus; row_WeightKg : Z; row_CreatedAt : Time }.

Record Summary := mkSummary {
  Total : Z; WeightKg : Z; ByStatus : gmap ShipmentStatus Z; Latest : list ShipmentRow }.

Fixpoint Build_loop (rows : list ShipmentRow) (total weight : Z) (by_status : gmap ShipmentStatus Z)
    : Z * Z * gmap ShipmentStatus Z :=
  match rows with
  | [] => (total, weight, by_status)
  | r :: rows =>
      Build_loop rows (add64 total 1) (add64 weight (row_WeightKg r))
        (<[row_Status r := add64 (default 0 (by_status !! row_Status r)) 1]> by_status)
  end.

Definition later (x y : ShipmentRow) : bool := bool_decide (row_CreatedAt x > row_CreatedAt y).

Definition Build `{SortSlice} (rows : list ShipmentRow) (limit : Z) : Summary :=
  let limit := if decide (limit < 1) then 10 else limit in
  let copyRows := sort_Slice later rows in
  let '(total, weight, by_status) := Build_loop copyRows 0 0 ∅ in
  mkSummary total weight by_status
    (if decide (Z.of_nat (length copyRows) > limit) then take (Z.to_nat limit) copyRows else copyRows).

Fixpoint Window_loop (rows : list ShipmentRow) (start finish : Time) (out : list ShipmentRow)
    : list ShipmentRow :=
  match rows with
  | [] => out
  | r :: rows =>
      if decide (~ row_CreatedAt r < start /\ row_CreatedAt r < finish)
      then Window_loop rows start finish (out ++ [r]) else Window_loop rows start finish out
  end.
Definition Window (rows : list ShipmentRow) (start finish : Time) : list ShipmentRow :=
  Window_loop rows start finish [].

Definition with_status (st : ShipmentStatus) : list ShipmentRow -> list ShipmentRow :=
  filter (fun r => row_Status r = st).

Definition weights (rows : list ShipmentRow) : Z := foldr (fun r acc => row_WeightKg r + acc) 0 rows.

Lemma row_later_weak_order : weak_order later.
Proof. split; unfold later; intros *; rewrite ?bool_decide_eq_true, ?bool_decide_eq_false; lia. Qed.

Lemma Window_filter rows start finish :
  Window rows start finish = filter (fun r => start <= row_CreatedAt r < finish) rows.
Proof.
  assert (Hl : forall out, Window_loop rows start finish out =
    out ++ filter (fun r => start <= row_CreatedAt r < finish) rows).
  { induction rows as [|r rows IH]; intros out; simpl; [by rewrite app_nil_r|].
    rewrite filter_cons. destruct (decide (start <= _ < _)); case_decide; try lia; rewrite IH; [|done].
    by rewrite <- (assoc (++)). }
  apply (Hl []).
Qed.

Lemma weights_perm rows rows' : rows ≡ₚ rows' -> weights rows = weights rows'.
Proof. unfold weights. induction 1; simpl; lia. Qed.

Lemma Build_loop_counts rows total weight by_status : in_int64 total -> in_int64 weight ->
  exists by_status', Build_loop rows total weight by_status =
    (wrap64 (total + Z.of_nat (length rows)), wrap64 (weight + weights rows), by_status') /\
  forall st, by_status' !! st =
    if decide (with_status st rows = []) then by_status !! st
    else Some (wrap64 (default 0 (by_status !! st) + Z.of_nat (length (with_status st rows)))).
Proof.
  revert total weight by_status. induction rows as [|r rows IH]; intros total weight by_status Ht Hw.
  { exists by_status. simpl. by rewrite !Z.add_0_r, !wrap64_id. }
  simpl. destruct (IH (add64 total 1) (add64 weight (row_WeightKg r))
    (<[row_Status r := add64 (default 0 (by_status !! row_Status r)) 1]> by_status))
    as (by_status' & -> & Hb); [apply wrap64_in..|].
  exists by_status'. split.
  - unfold add64. rewrite !wrap64_wrap64. change (weights (r :: rows)) with (row_WeightKg r + weights rows).
    do 2 f_equal; f_equal; lia.
  - intros st. rewrite Hb. unfold with_status. rewrite filter_cons.
    destruct (decide (row_Status r = st)) as [->|Hne].
    + rewrite (decide_False (P := r :: _ = [])) by done. rewrite lookup_insert_eq. simpl.
      case_decide as He.
      * rewrite He. simpl. unfold add64. done.
      * unfold add64. rewrite wrap64_wrap64. do 2 f_equal. lia.
    + by rewrite lookup_insert_ne.
Qed.

(** A summary counts the rows, in all and by status, and adds up their weights,
    modulo 2^64; the rows it lists are the newest ones, newest first, as many as the
    limit, or ten without one; a window has the rows from its start to before its
    end, in order. *)
Theorem Build_summary `{SortSlice} rows limit start finish :
  let s := Build rows limit in
  let most := if decide (limit < 1) then 10 else limit in
  Total s = wrap64 (Z.of_nat (length rows)) /\ WeightKg s = wrap64 (weights rows) /\
  (forall st, ByStatus s !! st =
     if decide (with_status st rows = []) then None
     else Some (wrap64 (Z.of_nat (length (with_status st rows))))) /\
  Z.of_nat (length (Latest s)) = Z.min most (Z.of_nat (length rows)) /\
  sorted_by later (Latest s) /\
  (exists rest, Latest s ++ rest ≡ₚ rows /\
     forall x y, x ∈ Latest s -> y ∈ rest -> row_CreatedAt y <= row_CreatedAt x) /\
  Window rows start finish = filter (fun r => start <= row_CreatedAt r < finish) rows.
Proof.
  intros s most. subst s. unfold Build. fold most.
  assert (Hmost : 1 <= most) by (subst most; case_decide; lia).
  pose proof (sort_Slice_perm later rows) as Hp.
  pose proof (sort_Slice_sorted later rows row_later_weak_order) as Hs.
  destruct (Build_loop_counts (sort_Slice later rows) 0 0 ∅) as (by_status & -> & Hb); [done..|].
  rewrite (Permutation_length Hp), (weights_perm _ _ Hp). cbv beta iota zeta.
  assert (Hcut : (if decide (Z.of_nat (length rows) > most) then take (Z.to_nat most) (sort_Slice later rows)
    else sort_Slice later rows) = take (Z.to_nat most) (sort_Slice later rows)).
  { case_decide; [done|]. rewrite take_ge; [done|]. rewrite Hp. lia. }
  simpl. rewrite Hcut. split_and!; [done|done| | | | |apply Window_filter].
  - intros st. rewrite Hb.
    assert (Hw : with_status st (sort_Slice later rows) ≡ₚ with_status st rows) by (by apply filter_Permutation).
    rewrite (Permutation_length Hw). rewrite lookup_empty. simpl.
    assert (Hnil : with_status st (sort_Slice later rows) = [] <-> with_status st rows = []).
    { split; intros He; rewrite He in Hw; [by apply Permutation_nil in Hw|by apply Permutation_nil_r in Hw]. }
    destruct (decide (with_status st rows = [])) as [He|He]; [by rewrite decide_True by tauto|].
    by rewrite decide_False by tauto.
  - rewrite length_take, Hp. lia.
  - by apply sorted_by_prefix.
  - exists (drop (Z.to_nat most) (sort_Slice later rows)). split; [by rewrite take_drop|].
    intros x y Hx Hy. rewrite <- (take_drop (Z.to_nat most) (sort_Slice later rows)) in Hs.
    pose proof (sorted_by_app _ _ _ _ _ Hs Hx Hy) as Hl. apply bool_decide_eq_false in Hl. lia.
Qed.
