(* ===== verification/checksum.v ===== *)
(** * Package checksum

    Hexadecimal SHA-256 digests ([internal/checksum/checksum.go]). *)

From S2P Require Import Prelude.
From S2P Require Import golang.
From S2P Require Import domain.
From S2P Require Import external.

Open Scope string_scope.
Open Scope list_scope.
Open Scope Z_scope.

(** What an [io.Reader] delivers: pieces of data, and the error that ends it unless it
    ends regularly. *)
Record reader := mkReader { pieces : list string; failure : option error }.

Section checksum.
Context `{External}.

Definition Bytes (data : string) : string := hex_encode (sha256_Sum256 data).

(** [io.Copy] writes each piece to the hash. *)
Definition Reader (r : option reader) : result string :=
  match r with
  | None => Err ErrInvalid
  | Some r =>
      match failure r with
      | Some err => Err err
      | None => Ok (hex_encode (sha256_Sum256 (foldl String.append "" (pieces r))))
      end
  end.

Definition Equal (a b : string) : bool :=
  bool_decide (String.length a = String.length b) && bool_decide (a <> "") && bool_decide (Bytes a = Bytes b).
End checksum.

(** ** Digests determine their data *)

Lemma hex_digit_inj n m : (n < 16)%N -> (m < 16)%N -> hex_digit n = hex_digit m -> n = m.
Proof.
  intros Hn Hm.
  assert (Hall : forall i, (i < 16)%N -> i ∈ [0; 1; 2; 3; 4; 5; 6; 7; 8; 9; 10; 11; 12; 13; 14; 15]%N)
    by (intros i Hi; rewrite !elem_of_cons; lia).
  pose proof (Hall n Hn) as Hn'. pose proof (Hall m Hm) as Hm'. clear Hall Hn Hm.
  assert (Hd : Forall (fun i => Forall (fun j => hex_digit i = hex_digit j -> i = j)
    [0; 1; 2; 3; 4; 5; 6; 7; 8; 9; 10; 11; 12; 13; 14; 15]%N)
    [0; 1; 2; 3; 4; 5; 6; 7; 8; 9; 10; 11; 12; 13; 14; 15]%N)
    by (apply (bool_decide_unpack _); vm_compute; exact I).
  rewrite Forall_forall in Hd. specialize (Hd n Hn'). rewrite Forall_forall in Hd. by apply Hd.
Qed.

#[export] Instance hex_encode_inj : Inj (=) (=) hex_encode.
Proof.
  intros a. induction a as [|x a IH]; intros [|y b]; simpl; try done. intros [= Hh Hl Hr].
  assert (Hb : forall z : ascii, (byte_of z / 16 < 16)%N /\ (byte_of z mod 16 < 16)%N).
  { intros z. pose proof (N_ascii_bounded z). unfold byte_of. split; [|by apply N.mod_lt].
    apply N.Div0.div_lt_upper_bound. lia. }
  apply hex_digit_inj in Hh; [|apply Hb..]. apply hex_digit_inj in Hl; [|apply Hb..].
  f_equal; [|by apply IH]. rewrite <- (ascii_N_embedding x), <- (ascii_N_embedding y). f_equal.
  change (byte_of x = byte_of y). rewrite (N.div_mod' (byte_of x) 16), (N.div_mod' (byte_of y) 16). congruence.
Qed.

Lemma Bytes_inj `{CollisionFree} a b : Bytes a = Bytes b -> a = b.
Proof. intros He. by apply hex_encode_inj, sha256_inj in He. Qed.

(** Without collisions the comparison holds exactly of equal texts that are not
    empty, and the digest of a reader is that of its whole data, whatever its
    pieces. *)
Theorem checksum_compares `{CollisionFree} a b r :
  (Equal a b = true <-> a = b /\ a <> "") /\
  (failure r = None -> Reader (Some r) = Ok (Bytes (foldl String.append "" (pieces r)))) /\
  (forall s, failure r = None -> Reader (Some r) = Ok (Bytes s) -> s = foldl String.append "" (pieces r)).
Proof.
  split_and!.
  - unfold Equal. rewrite !andb_true_iff, !bool_decide_eq_true. split; [|by intros [-> ?]].
    intros [[_ Hne] He]. split; [by apply Bytes_inj|done].
  - intros Hf. unfold Reader. by rewrite Hf.
  - intros s Hf. unfold Reader. rewrite Hf. intros [= He]. symmetry. by apply Bytes_inj.
Qed.

#[export] Instance sample_collision_free : @CollisionFree sample_external.
Proof. intros a b. exact id. Qed.

Lemma checksum_compares_witness :
  @Equal sample_external "a" "b" <> true /\
  @Reader sample_external (Some (mkReader ["ab"; "c"] None)) = Ok (@Bytes sample_external "abc").
Proof.
  destruct (@checksum_compares sample_external sample_collision_free "a" "b" (mkReader ["ab"; "c"] None))
    as (He & Hr & _).
  split; [intros Ht; apply He in Ht as [Ht _]; discriminate|exact (Hr eq_refl)].
Defined.
