(* ===== verification/codec.v ===== *)
(** * Package codec

    JSON documents and gzip streams ([internal/codec/codec.go]).

    [encoding/json] and [compress/gzip] are parameters.  A gzip writer is a program
    that hands pieces to the writer below it and sees what that answers ([stream]);
    [sliceWriter] is the one of the source. *)

From S2P Require Import Prelude.
From S2P Require Import golang.
From S2P Require Import domain.

Open Scope string_scope.
Open Scope list_scope.
Open Scope Z_scope.

(** ** Documents *)

Section json.
Context {V : Type}.
(** [json.Marshal], and [json.Unmarshal]: what it leaves in the value it is given, and
    its error. *)
Context (Marshal : V -> result string) (Unmarshal : string -> V -> V * option error).

Definition Encode (v : V) : result string := Marshal v.

(** [None] is a nil value. *)
Definition Decode (data : string) (v : option V) : option V * option error :=
  match v with
  | None => (None, Some ErrInvalid)
  | Some old =>
      if decide (String.length data = 0%nat) then (v, Some ErrInvalid) else
      let '(new, err) := Unmarshal data old in (Some new, err)
  end.

(** What was encoded is decoded again over any value, as long as the library reads
    back what it writes and writes no empty document; a refusal before the library is
    reached leaves the value alone. *)
Theorem document_roundtrip v old data :
  (forall v data old, Marshal v = Ok data -> data <> "" /\ Unmarshal data old = (v, None)) ->
  Encode v = Ok data ->
  Decode data (Some old) = (Some v, None) /\
  Decode "" (Some old) = (Some old, Some ErrInvalid) /\ Decode data None = (None, Some ErrInvalid).
Proof.
  intros Hlaw Hv. destruct (Hlaw v data old Hv) as [Hne Hun]. split_and!; [|done|done].
  unfold Decode. rewrite decide_False by (by destruct data). by rewrite Hun.
Qed.
End json.

(** ** Streams *)

(** A program that writes to an [io.Writer]: each write is answered by a number of
    bytes and an error. *)
Inductive stream (A : Type) :=
  | Done (x : A)
  | Write (p : string) (k : Z * option error -> stream A).
Arguments Done {A} x.
Arguments Write {A} p k.

Fixpoint stream_bind {A B} (m : stream A) (f : A -> stream B) : stream B :=
  match m with
  | Done x => f x
  | Write p k => Write p (fun a => stream_bind (k a) f)
  end.

(** [sliceWriter.Write] appends to the slice that [out] points to. *)
Definition sliceWriter_Write (out p : string) : string * (Z * option error) :=
  (out +:+ p, (Z.of_nat (String.length p), None)).

(** A program over the slice writer: the slice after it. *)
Fixpoint written {A} (m : stream A) (out : string) : string * A :=
  match m with
  | Done x => (out, x)
  | Write p k => let '(out, answer) := sliceWriter_Write out p in written (k answer) out
  end.

(** [compress/gzip]: a writer's [Write] and [Close], and the reader. *)
Class Gzip := {
  gz : Type;
  NewWriter : gz;
  gz_Write : string -> gz -> stream (gz * option error);
  gz_Close : gz -> stream (option error);
  gunzip : string -> option string }.

Definition Compress `{Gzip} (data : string) : result string :=
  let out := "" in
  let '(out, (z, err)) := written (gz_Write data NewWriter) out in
  match err with
  | Some err => Err err
  | None =>
      let '(out, err) := written (gz_Close z) out in
      match err with
      | Some err => Err err
      | None => Ok out
      end
  end.

(** The pieces of a program whose writes are all taken in full. *)
Fixpoint all_taken {A} (m : stream A) : list string * A :=
  match m with
  | Done x => ([], x)
  | Write p k =>
      let '(ps, x) := all_taken (k (Z.of_nat (String.length p), None)) in (p :: ps, x)
  end.

(** The documented behaviour: over a writer that takes everything a gzip writer
    reports no error, and a reader gives back the data from the pieces. *)
Class GzipLaws `{Gzip} := gzip_reads_back : forall data,
  let '(ps, (z, err)) := all_taken (gz_Write data NewWriter) in
  let '(qs, err') := all_taken (gz_Close z) in
  err = None /\ err' = None /\ gunzip (String.concat "" (ps ++ qs)) = Some data.

Lemma concat_cons p ps : String.concat "" (p :: ps) = p +:+ String.concat "" ps.
Proof. destruct ps; [by rewrite append_nil_r|done]. Qed.

Lemma concat_pieces ps qs : String.concat "" (ps ++ qs) = String.concat "" ps +:+ String.concat "" qs.
Proof.
  induction ps as [|p ps IH]; [done|]. cbn [app]. by rewrite !concat_cons, IH, string_app_assoc.
Qed.

(** The slice writer loses nothing and keeps the order: a program over it leaves the
    concatenation of its pieces behind what was there. *)
Lemma written_all_taken {A} (m : stream A) out :
  written m out = (out +:+ String.concat "" (all_taken m).1, (all_taken m).2).
Proof.
  revert out. induction m as [x|p k IH]; intros out; simpl.
  - by rewrite append_nil_r.
  - rewrite IH. destruct (all_taken (k _)) as [ps x]. cbn [fst snd]. by rewrite concat_cons, string_app_assoc.
Qed.

(** What is compressed is read back, whatever the data, and compressing never fails. *)
Theorem Compress_roundtrip `{GzipLaws} data :
  exists out, Compress data = Ok out /\ gunzip out = Some data.
Proof.
  pose proof (gzip_reads_back data) as Hlaw. unfold Compress. rewrite written_all_taken.
  destruct (all_taken (gz_Write data NewWriter)) as [ps [z err]]. simpl.
  rewrite written_all_taken. destruct (all_taken (gz_Close z)) as [qs err']. simpl.
  destruct Hlaw as (-> & -> & Hg). eexists. split; [done|].
  rewrite concat_pieces in Hg. exact Hg.
Qed.

(** A library that writes a mark, then the data in one piece, and nothing at the end. *)
Definition sample_gzip : Gzip := {|
  gz := unit;
  NewWriter := tt;
  gz_Write data z := Write "gz" (fun _ => Write data (fun a => Done (z, a.2)));
  gz_Close _ := Done None;
  gunzip s := match s with String "g" (String "z" data) => Some data | _ => None end |}.

Lemma sample_gzip_laws : @GzipLaws sample_gzip.
Proof. intros data. simpl. split_and!; [done..|]. by destruct data. Qed.

Lemma Compress_roundtrip_witness : @Compress sample_gzip "cargo" = Ok "gzcargo" /\
  exists out, @Compress sample_gzip "cargo" = Ok out /\ @gunzip sample_gzip out = Some "cargo".
Proof. split; [reflexivity|]. exact (@Compress_roundtrip sample_gzip sample_gzip_laws "cargo"). Defined.
