(* ===== verification/manifest.v ===== *)
(** * Package manifest

    Cargo manifests ([internal/manifest/manifest.go]).  [Marshal] is the JSON text of
    the fields that are hashed. *)

From S2P Require Import Prelude.
From S2P Require Import golang.
From S2P Require Import domain.
From S2P Require Import external.
From S2P Require Import checksum.

Open Scope string_scope.
Open Scope list_scope.
Open Scope Z_scope.

Record Item := mkItem {
  it_SKU : string; it_Description : string; it_Quantity : Z; it_WeightKg : Z; it_Hazardous : bool }.

Record Manifest := mkManifest {
  mf_ID : string; mf_ShipmentID : string; mf_Version : Z; mf_Items : list Item;
  mf_SealedAt : option Time; mf_Hash : string }.

#[export] Instance Item_eq_dec : EqDecision Item.
Proof. solve_decision. Defined.

Fixpoint Validate_loop (items : list Item) : option error :=
  match items with
  | [] => None
  | item :: items =>
      if decide (it_SKU item = "" \/ it_Quantity item <= 0 \/ it_WeightKg item <= 0) then Some ErrInvalid
      else Validate_loop items
  end.
Definition Validate (items : list Item) : option error :=
  if decide (length items = 0%nat) then Some ErrInvalid else Validate_loop items.

Fixpoint TotalWeight_loop (items : list Item) (n : Z) : Z :=
  match items with
  | [] => n
  | i :: items => TotalWeight_loop items (add64 n (mul64 (it_WeightKg i) (it_Quantity i)))
  end.
Definition TotalWeight (m : Manifest) : Z := TotalWeight_loop (mf_Items m) 0.

Fixpoint HazardousCount_loop (items : list Item) (n : Z) : Z :=
  match items with
  | [] => n
  | i :: items => HazardousCount_loop items (if it_Hazardous i then add64 n (it_Quantity i) else n)
  end.
Definition HazardousCount (m : Manifest) : Z := HazardousCount_loop (mf_Items m) 0.

Section manifest.
Context `{External} `{SortSlice} (Marshal : string -> string -> Z -> list Item -> string).

Definition hash (m : Manifest) : string :=
  let b := Marshal (mf_ID m) (mf_ShipmentID m) (mf_Version m) (mf_Items m) in
  hex_encode (sha256_Sum256 b).

Definition Build (id shipment : string) (items : list Item) : result Manifest :=
  match Validate items with
  | Some err => Err err
  | None =>
      let copyItems := sort_Slice (string_less_on it_SKU) items in
      let m := mkManifest id shipment 1 copyItems None "" in
      Ok (mkManifest id shipment 1 copyItems None (hash m))
  end.

Definition Seal (m : Manifest) (now : Time) : result Manifest :=
  match mf_SealedAt m with
  | Some _ => Err ErrConflict
  | None =>
      let m := mkManifest (mf_ID m) (mf_ShipmentID m) (mf_Version m) (mf_Items m) (Some now) (mf_Hash m) in
      Ok (mkManifest (mf_ID m) (mf_ShipmentID m) (mf_Version m) (mf_Items m) (Some now) (hash m))
  end.

(** ** Laws *)

Definition proper (i : Item) : Prop := it_SKU i <> "" /\ 0 < it_Quantity i /\ 0 < it_WeightKg i.

Lemma Validate_proper items : Validate items = None <-> items <> [] /\ Forall proper items.
Proof.
  assert (Hl : Validate_loop items = None <-> Forall proper items).
  { induction items as [|i items IH]; simpl; [by split|]. rewrite Forall_cons. unfold proper at 1.
    case_decide as Hd; [|rewrite IH].
    - split; [done|]. intros [(? & ? & ?) _]. intuition lia.
    - split; [intros Hf; split; [|done]; split_and!; [tauto|lia|lia]|tauto]. }
  unfold Validate. case_decide as Hn.
  - split; [done|]. intros [Hne _]. by apply nil_length_inv in Hn.
  - rewrite Hl. split; [|tauto]. intros Hf. split; [|done]. by intros ->.
Qed.

Lemma Validate_error items e : Validate items = Some e -> e = ErrInvalid.
Proof.
  unfold Validate. case_decide; [congruence|].
  induction items as [|i l IH]; simpl; [done|]. destruct (decide (it_SKU i = "" \/ _)); [congruence|].
  destruct l; [done|]. by apply IH.
Qed.

Lemma Validate_perm items items' : items ≡ₚ items' -> Validate items = Validate items'.
Proof.
  intros Hp. pose proof (Validate_proper items) as H1. pose proof (Validate_proper items') as H2.
  assert (Hnil : items = [] <-> items' = []).
  { split; intros ->; [by apply Permutation_nil in Hp|by apply Permutation_nil_r in Hp]. }
  assert (Hall : Forall proper items <-> Forall proper items') by (by rewrite Hp).
  destruct (Validate items) as [e|] eqn:He, (Validate items') as [e'|] eqn:He'.
  - by rewrite (Validate_error _ _ He), (Validate_error _ _ He').
  - rewrite <- Hall, <- Hnil in H2. destruct H1 as [_ H1]. by rewrite H1 by (by apply H2).
  - rewrite Hall, Hnil in H1. destruct H2 as [_ H2]. by rewrite H2 by (by apply H1).
  - done.
Qed.

(** The weight of the items as an unbounded number. *)
Definition gross (items : list Item) : Z := foldr (fun i acc => it_WeightKg i * it_Quantity i + acc) 0 items.

Lemma TotalWeight_loop_gross items n : in_int64 n ->
  TotalWeight_loop items n = wrap64 (n + gross items).
Proof.
  revert n. induction items as [|i items IH]; intros n Hn; simpl.
  { by rewrite Z.add_0_r, wrap64_id. }
  rewrite IH by apply wrap64_in. unfold add64, mul64.
  rewrite wrap64_wrap64.
  replace (n + wrap64 (it_WeightKg i * it_Quantity i) + gross items)
    with (wrap64 (it_WeightKg i * it_Quantity i) + (n + gross items)) by lia.
  rewrite wrap64_wrap64. f_equal. lia.
Qed.

Lemma gross_perm items items' : items ≡ₚ items' -> gross items = gross items'.
Proof. induction 1; simpl; lia. Qed.

(** A manifest is built exactly of proper items, in the order of their SKUs, which
    their order in the request does not influence when the SKUs are distinct; its
    weight is that of the items, modulo 2^64; it is sealed once, which changes
    neither its contents nor its hash. *)
Theorem manifest_life id shipment items items' now :
  (forall m, Build id shipment items = Ok m ->
     items <> [] /\ Forall proper items /\ mf_Items m ≡ₚ items /\
     sorted_by (string_less_on it_SKU) (mf_Items m) /\ mf_Hash m = hash m /\ mf_SealedAt m = None /\
     TotalWeight m = wrap64 (gross items) /\
     exists m', Seal m now = Ok m' /\ mf_SealedAt m' = Some now /\ mf_Items m' = mf_Items m /\
       mf_Hash m' = mf_Hash m /\ mf_Hash m' = hash m' /\ forall at_, Seal m' at_ = Err ErrConflict) /\
  (items <> [] -> Forall proper items -> exists m, Build id shipment items = Ok m) /\
  (items ≡ₚ items' -> NoDup (map it_SKU items) -> Build id shipment items = Build id shipment items').
Proof.
  split_and!.
  - intros m. unfold Build. destruct (Validate items) eqn:Hv; [done|]. intros [= <-].
    apply Validate_proper in Hv as [Hne Hf]. unfold TotalWeight. simpl.
    split_and!; try done; [apply sort_Slice_perm|apply sort_Slice_sorted, string_less_on_weak_order| |].
    + rewrite TotalWeight_loop_gross by done. f_equal. simpl. apply gross_perm, sort_Slice_perm.
    + eexists. split; [done|]. by split_and!.
  - intros Hne Hf. unfold Build. rewrite (proj2 (Validate_proper items)) by done. eauto.
  - intros Hp Hnd. unfold Build.
    by rewrite (Validate_perm _ _ Hp), (sort_Slice_canonical it_SKU _ _ Hp Hnd).
Qed.
End manifest.
