(* ===== verification/snapshot.v ===== *)
(** * Package snapshot

    Snapshots of a tenant's cargo with a digest ([internal/snapshot/snapshot.go]).
    [Marshal] is the JSON text of the fields that are hashed. *)

From S2P Require Import Prelude.
From S2P Require Import golang.
From S2P Require Import domain.
From S2P Require Import external.
From S2P Require Import checksum.

Open Scope string_scope.
Open Scope list_scope.
Open Scope Z_scope.

Record Snapshot := mkSnapshot {
  sn_Version : Z; sn_TenantID : string; sn_CreatedAt : Time; sn_Shipments : list Shipment;
  sn_Legs : list FlightLeg; sn_Hash : string }.

Section snapshot.
Context `{External} `{SortSlice} (Marshal : Z -> string -> list Shipment -> list FlightLeg -> string).

Definition payload (s : Snapshot) : string :=
  Marshal (sn_Version s) (sn_TenantID s) (sn_Shipments s) (sn_Legs s).

Definition hash (s : Snapshot) : string := hex_encode (sha256_Sum256 (payload s)).

Definition Make (version : Z) (tenant : string) (shipments : list Shipment) (legs : list FlightLeg)
    (at_ : Time) : result Snapshot :=
  if decide (version < 1 \/ tenant = "" \/ IsZero at_) then Err ErrInvalid else
  let shipments := sort_Slice (string_less_on sh_ID) shipments in
  let legs := sort_Slice (string_less_on leg_ID) legs in
  let s := mkSnapshot version tenant at_ shipments legs "" in
  Ok (mkSnapshot version tenant at_ shipments legs (hash s)).

Definition EqualPayload (s other : Snapshot) : bool :=
  bool_decide (sn_Hash s = sn_Hash other) && bool_decide (sn_TenantID s = sn_TenantID other)
  && bool_decide (sn_Version s = sn_Version other).

Definition Validate (s : Snapshot) : option error :=
  if decide (sn_Version s < 1 \/ sn_TenantID s = "" \/ sn_Hash s = "") then Some ErrInvalid else
  if decide (sn_Hash s <> hash s) then Some ErrConflict else None.

(** What is made validates, has the given cargo in the order of its identifiers, and
    equals in payload any other snapshot of the version made of the same cargo in
    another order, when identifiers are distinct.  Without collisions a valid snapshot
    with the digest of a made one has its hashed text, so a changed payload under the
    old digest is found. *)
Theorem snapshot_detects_changes `{!CollisionFree} version tenant shipments legs at_ s :
  Make version tenant shipments legs at_ = Ok s -> sn_Hash s <> "" ->
  Validate s = None /\ sn_Shipments s ≡ₚ shipments /\ sn_Legs s ≡ₚ legs /\
  sorted_by (string_less_on sh_ID) (sn_Shipments s) /\
  (forall t, sn_Hash t = sn_Hash s -> (Validate t = None -> payload t = payload s) /\
     (1 <= sn_Version t -> sn_TenantID t <> "" -> payload t <> payload s -> Validate t = Some ErrConflict)) /\
  (forall shipments' at_' s', shipments' ≡ₚ shipments -> NoDup (map sh_ID shipments) ->
     Make version tenant shipments' legs at_' = Ok s' -> EqualPayload s s' = true).
Proof.
  unfold Make. case_decide as Hg; [done|]. intros [= Hs] Hne.
  assert (sn_Version s = version /\ sn_TenantID s = tenant /\
    sn_Shipments s = sort_Slice (string_less_on sh_ID) shipments /\
    sn_Legs s = sort_Slice (string_less_on leg_ID) legs /\ hash s = sn_Hash s)
    as (Hv & Htn & Hsh & Hlg & Hhash) by (by subst s).
  rewrite Hsh, Hlg. split_and!; try apply sort_Slice_perm.
  - unfold Validate. rewrite decide_False by (rewrite Hv, Htn; tauto). rewrite Hhash.
    by rewrite decide_False by tauto.
  - apply sort_Slice_sorted, string_less_on_weak_order.
  - intros t Ht. split.
    + unfold Validate. case_decide; [done|]. case_decide as Hh; [done|]. intros _.
      rewrite Ht, <- Hhash in Hh. symmetry. by apply Bytes_inj.
    + intros Htv Htt Hp. unfold Validate. rewrite decide_False by (rewrite Ht; intuition lia).
      rewrite decide_True; [done|]. rewrite Ht, <- Hhash. intros He. apply Hp. symmetry. by apply Bytes_inj.
  - intros shipments' at_' s' Hperm Hnd. case_decide; [done|]. intros [= <-]. unfold EqualPayload. simpl.
    assert (Hl : sort_Slice (string_less_on sh_ID) shipments' = sort_Slice (string_less_on sh_ID) shipments)
      by (apply sort_Slice_canonical; [done|]; by rewrite Hperm).
    rewrite Hl, Hv, Htn. rewrite <- Hhash. unfold hash, payload. rewrite Hv, Htn, Hsh, Hlg. simpl.
    by rewrite !bool_decide_eq_true_2.
Qed.
End snapshot.

Lemma snapshot_detects_changes_witness :
  let marshal v t s l := (t +:+ ":" +:+ String.concat "," (map sh_ID s))%string in
  exists s, @Make sample_external stable_sort marshal 1 "acme" [] [] 5 = Ok s /\
    @Validate sample_external marshal s = None.
Proof.
  eexists. split; [reflexivity|].
  pose proof (@snapshot_detects_changes sample_external stable_sort
    (fun v t s l => (t +:+ ":" +:+ String.concat "," (map sh_ID s))%string) sample_collision_free
    1 "acme" [] [] 5 _ eq_refl) as Hs.
  apply Hs. vm_compute. discriminate.
Defined.
