(* ===== verification/audit.v ===== *)
(** * Package audit

    The audit trail over the repository ([internal/audit/audit.go]). *)

From S2P Require Import Prelude.
From S2P Require Import golang.
From S2P Require Import domain.
From S2P Require Import external.
From S2P Require Import repository.
From S2P Require Import memory.

Open Scope string_scope.
Open Scope list_scope.
Open Scope Z_scope.

Definition Record_ (e : AuditEvent) : prog (result unit) :=
  if decide (ae_ID e = "" \/ ae_TenantID e = "" \/ ae_ActorID e = "" \/ ae_ObjectType e = ""
             \/ ae_ObjectID e = "" \/ ae_Action e = "")
  then Ret (Err ErrInvalid) else
  r <- repository.AppendAudit e ;;
  Ret r.

Definition Recent (tenant : string) (req : PageRequest) : prog (result (Page AuditEvent)) :=
  r <- repository.ListAudit tenant req ;;
  Ret r.

Section audit.
Context `{External}.

(** An event that [Record_] accepts. *)
Definition acceptable (e : AuditEvent) : Prop :=
  ~ (ae_ID e = "" \/ ae_TenantID e = "" \/ ae_ActorID e = "" \/ ae_ObjectType e = ""
     \/ ae_ObjectID e = "" \/ ae_Action e = "").

Lemma run_Record e s :
  run (Record_ e) s =
  if decide (acceptable e) then (with_audit (memory.audit s ++ [e]) s, Ok tt) else (s, Err ErrInvalid).
Proof.
  unfold Record_, acceptable. case_decide as He.
  - rewrite decide_False by tauto. done.
  - rewrite decide_True by tauto. done.
Qed.

(** The store after recording events. *)
Definition record_all (es : list AuditEvent) (s : memory.Store) : memory.Store :=
  foldl (fun s e => (run (Record_ e) s).1) s es.

Lemma record_all_audit es s : memory.audit (record_all es s) = memory.audit s ++ filter acceptable es.
Proof.
  unfold record_all. revert s. induction es as [|e es IH]; intros s; simpl; [by rewrite app_nil_r|].
  rewrite IH, run_Record, filter_cons. destruct (decide (acceptable e)); [|done].
  destruct s. simpl. by rewrite <- (assoc (++)).
Qed.

(** The trail keeps exactly the complete events, in the order they were recorded,
    and shows a tenant its own ones only; an incomplete event is refused and changes
    nothing. *)
Theorem audit_trail es tenant req s :
  (exists page, run (Recent tenant req) (record_all es s) = (record_all es s, Ok page) /\
     pg_Items page = filter (fun e => ae_TenantID e = tenant) (memory.audit s ++ filter acceptable es) /\
     pg_Total page = Z.of_nat (length (pg_Items page))) /\
  (forall e, ~ acceptable e -> run (Record_ e) s = (s, Err ErrInvalid)).
Proof.
  split.
  - eexists. split; [reflexivity|]. simpl. by rewrite record_all_audit.
  - intros e He. rewrite run_Record. by rewrite decide_False.
Qed.
End audit.
