(* ===== verification/locale.v ===== *)
(** * Package locale

    Windows and business days in a time zone ([internal/locale/timezone.go]).  A
    location is its offset from UTC at each instant; [LoadLocation] finds it in the
    time zone data of the host.   [ParseInLocation] is the one of package time for the layout
    RFC3339. *)

From S2P Require Import Prelude.
From S2P Require Import golang.
From S2P Require Import domain.

Open Scope string_scope.
Open Scope Z_scope.

Abbreviation Location := (Time -> Duration) (only parsing).

(** [t.In(loc).Weekday()], Sunday being 0; 1 January of year 1 was a Monday. *)
Definition Weekday (loc : Location) (t : Time) : Z := ((t + loc t) / (24 * Hour) + 1) mod 7.
Definition Sunday : Z := 0.
Definition Saturday : Z := 6.

Section locale.
Context (LoadLocation : string -> result Location).

(** [In] changes how an instant is shown, not when it is. *)
Definition Window (name : string) (start finish : Time) : result Duration :=
  match LoadLocation name with
  | Err err => Err err
  | Ok _ => if decide (~ finish > start) then Err ErrInvalid else Ok (time_Sub finish start)
  end.

Definition Parse (ParseInLocation : string -> Location -> result Time) (name value : string)
    : result Time :=
  match LoadLocation name with
  | Err err => Err err
  | Ok loc => ParseInLocation value loc
  end.

Definition BusinessDay (name : string) (t : Time) : bool :=
  match LoadLocation name with
  | Err _ => false
  | Ok loc => bool_decide (Weekday loc t <> Saturday) && bool_decide (Weekday loc t <> Sunday)
  end.

(** A window of a known zone is as long as the instants are apart, and is never
    empty; and of any seven days at the same local offset exactly two are no business
    days. *)
Theorem business_week name loc start finish t :
  LoadLocation name = Ok loc -> (forall u, loc u = loc t) ->
  (forall d, Window name start finish = Ok d -> 0 < d /\ (finish - start <= max_int64 -> d = finish - start)) /\
  length (filter (fun i => BusinessDay name (t + Z.of_nat i * (24 * Hour)) = false) (seq 0 7)) = 2%nat.
Proof.
  intros Hload Hfix. split.
  - intros d. unfold Window. rewrite Hload. case_decide; [done|]. intros [= <-].
    unfold time_Sub, min_int64, max_int64. lia.
  - assert (Hday : forall i : nat, BusinessDay name (t + Z.of_nat i * (24 * Hour)) = false <->
      let w := (Weekday loc t + Z.of_nat i) mod 7 in w = 0 \/ w = 6).
    { intros i. unfold BusinessDay, Weekday, Saturday, Sunday. rewrite Hload, Hfix.
      replace (t + Z.of_nat i * (24 * Hour) + loc t) with (t + loc t + Z.of_nat i * (24 * Hour)) by lia.
      rewrite Z.div_add by done. rewrite Z.add_mod_idemp_l by done.
      replace ((t + loc t) / (24 * Hour) + Z.of_nat i + 1) with ((t + loc t) / (24 * Hour) + 1 + Z.of_nat i) by lia.
      rewrite andb_false_iff, !bool_decide_eq_false. split; [|tauto]. intros [Hn|Hn]; apply dec_stable in Hn; tauto. }
    assert (Hw : 0 <= Weekday loc t < 7) by (by apply Z.mod_pos_bound).
    rewrite (list_filter_iff _ (fun i => (Weekday loc t + Z.of_nat i) mod 7 = 0 \/ (Weekday loc t + Z.of_nat i) mod 7 = 6))
      by (intros i; apply Hday).
    clear Hday Hload. generalize dependent (Weekday loc t). intros w Hw.
    assert (w = 0 \/ w = 1 \/ w = 2 \/ w = 3 \/ w = 4 \/ w = 5 \/ w = 6) as Hc by lia.
    by repeat destruct Hc as [->|Hc]; subst; vm_compute.
Qed.
End locale.

Lemma business_week_witness :
  BusinessDay (fun _ => Ok (fun _ => 8 * Hour)) "Asia/Shanghai" 0 = true /\
  length (filter (fun i => BusinessDay (fun _ => Ok (fun _ => 8 * Hour)) "Asia/Shanghai"
    (0 + Z.of_nat i * (24 * Hour)) = false) (seq 0 7)) = 2%nat.
Proof.
  split; [reflexivity|].
  apply (business_week (fun _ => Ok (fun _ => 8 * Hour)) "Asia/Shanghai" (fun _ => 8 * Hour) 0 1 0);
    [reflexivity|intros u; reflexivity].
Defined.
