(* ===== verification/masking.v ===== *)
(** * Package masking

    Masked renderings of personal data ([internal/masking/masking.go]).  A result of
    [None] is a panic of a slice expression. *)

From S2P Require Import Prelude.
From S2P Require Import golang.
From S2P Require Import utf8.

Open Scope string_scope.
Open Scope list_scope.
Open Scope Z_scope.

Definition len (v : string) : Z := Z.of_nat (String.length v).

Definition Email (v : string) : option string :=
  let at_ := Index v "@"%char in
  if decide (at_ <= 1) then Some "***" else
  first ← byte_slice 0 1 v; rest ← byte_slice at_ (len v) v; Some (first +:+ "***" +:+ rest).

Definition Token (v : string) : option string :=
  if decide (RuneCount v <= 8) then Some "***" else
  first ← byte_slice 0 4 v; last ← byte_slice (len v - 4) (len v) v; Some (first +:+ "..." +:+ last).

(** Slices of the runes: [r[:2]] and [r[len(r)-2:]], in range where they are taken. *)
Definition Phone (v : string) : string :=
  let r := runes v in
  if decide (length r <= 4)%nat then "***" else
  of_runes (take 2 r) +:+ "***" +:+ of_runes (drop (length r - 2) r).

Definition Secret (v : string) : string :=
  if decide (TrimSpace v = "") then "" else "[REDACTED]".

(** What a mask lets through. *)
Definition prefix (n : nat) (v : string) : string := String.substring 0 n v.
Definition suffix (n : nat) (v : string) : string :=
  String.substring (String.length v - n) n v.
Definition domain_part (v : string) : string :=
  String.substring (Z.to_nat (Index v "@"%char)) (String.length v - Z.to_nat (Index v "@"%char)) v.

Lemma Email_shape v : Email v =
  Some (if decide (Index v "@"%char <= 1) then "***" else prefix 1 v +:+ "***" +:+ domain_part v).
Proof.
  unfold Email, len. case_decide as Hat; [done|].
  destruct (index_from_bounds 0 "@"%char v) as [He|Hb]; fold (Index v "@"%char) in *; [lia|].
  rewrite !byte_slice_Some by lia. simpl. unfold domain_part, prefix.
  replace (Z.to_nat (Z.of_nat (String.length v) - Index v "@"%char))
    with (String.length v - Z.to_nat (Index v "@"%char))%nat by lia. done.
Qed.

Lemma Token_shape v : Token v =
  Some (if decide (RuneCount v <= 8) then "***" else prefix 4 v +:+ "..." +:+ suffix 4 v).
Proof.
  unfold Token, len. case_decide as Hr; [done|].
  assert (Hlen : (8 < String.length v)%nat) by (pose proof (runes_length v); unfold RuneCount in Hr; lia).
  rewrite !byte_slice_Some by lia. simpl. unfold prefix, suffix.
  replace (Z.to_nat (Z.of_nat (String.length v) - 4)) with (String.length v - 4)%nat by lia.
  by replace (Z.to_nat (Z.of_nat (String.length v) - (Z.of_nat (String.length v) - 4))) with 4%nat by lia.
Qed.

(** No mask panics, and none lets through more than it says: two e-mail addresses
    with the same first byte and the same domain, two tokens with the same first and
    last four bytes, two phone numbers with the same first and last two characters
    look the same, if they are longer than that, and all secrets do. *)
Theorem masks_hide v w :
  (exists out, Email v = Some out) /\ (exists out, Token v = Some out) /\
  (1 < Index v "@"%char -> 1 < Index w "@"%char -> prefix 1 v = prefix 1 w -> domain_part v = domain_part w ->
     Email v = Email w) /\
  (8 < RuneCount v -> 8 < RuneCount w -> prefix 4 v = prefix 4 w -> suffix 4 v = suffix 4 w ->
     Token v = Token w) /\
  ((4 < length (runes v))%nat -> (4 < length (runes w))%nat -> take 2 (runes v) = take 2 (runes w) ->
     drop (length (runes v) - 2) (runes v) = drop (length (runes w) - 2) (runes w) ->
     Phone v = Phone w) /\
  (TrimSpace v <> "" -> TrimSpace w <> "" -> Secret v = Secret w).
Proof.
  rewrite !Email_shape, !Token_shape. split_and!; [eauto|eauto|..].
  - intros Hv Hw -> ->. by rewrite !decide_False by lia.
  - intros Hv Hw -> ->. by rewrite !decide_False by lia.
  - intros Hv Hw Ht Hd. unfold Phone. rewrite !decide_False by lia. by rewrite Ht, Hd.
  - intros Hv Hw. unfold Secret. by rewrite !decide_False.
Qed.

Example masks_ex :
  Email "alice@acme.io" = Some "a***@acme.io" /\ Token "0123456789abcdef" = Some "0123...cdef" /\
  Phone "13912345678" = "13***78".
Proof. vm_compute. done. Qed.
