(* ===== verification/stringsx.v ===== *)
(** * Package stringsx

    Cleaning of texts ([internal/stringsx/stringsx.go]).  [letter] holds of the
    encodings of runes that [unicode.IsLetter] or [unicode.IsDigit] accept. *)

From S2P Require Import Prelude.
From S2P Require Import golang.
From S2P Require Import strconv.
From S2P Require Import utf8.
From S2P Require Import domain.
From S2P Require Import external.

Open Scope string_scope.
Open Scope list_scope.
Open Scope Z_scope.

(** ** strings.Fields *)

(** The rest of a text after the white space it starts with, if it does. *)
Definition after_space (s : string) : option string :=
  match s with
  | String a s1 =>
      if ascii_space a then Some s1 else
      match s1 with
      | String b s2 =>
          if space2 a b then Some s2 else
          match s2 with
          | String c s3 => if space3 a b c then Some s3 else None
          | EmptyString => None
          end
      | EmptyString => None
      end
  | EmptyString => None
  end.

(** [field] is the part of the current field that was read. *)
Fixpoint Fields_loop (n : nat) (field s : string) : list string :=
  let flush := if decide (field = "") then [] else [field] in
  match n with
  | O => flush
  | S n =>
      match after_space s with
      | Some rest => flush ++ Fields_loop n "" rest
      | None =>
          match s with
          | EmptyString => flush
          | String a rest => Fields_loop n (field +:+ String a "") rest
          end
      end
  end.
Definition Fields (s : string) : list string := Fields_loop (S (String.length s)) "" s.

Example Fields_ex : Fields "  a  bc d " = ["a"; "bc"; "d"].
Proof. vm_compute. done. Qed.

(** ** strings.Trim(s, "-") *)

Fixpoint trim_dashes (s : string) : string :=
  match s with
  | String a s' => if decide (a = "-"%char) then trim_dashes s' else s
  | EmptyString => ""
  end.

Fixpoint trim_end_dashes (s : string) : string :=
  match s with
  | EmptyString => ""
  | String a s' =>
      let t := trim_end_dashes s' in
      if decide (t = "" /\ a = "-"%char) then "" else String a t
  end.
Definition Trim (s : string) : string := trim_end_dashes (trim_dashes s).

Section stringsx.
Context `{External} (letter : string -> bool).

Definition Clean (v : string) : string := Join " "%char (Fields (TrimSpace v)).

Fixpoint Slug_loop (rs : list string) (b : string) (dash : bool) : string :=
  match rs with
  | [] => b
  | r :: rs =>
      if letter r then Slug_loop rs (b +:+ r) false else
      if negb dash && bool_decide (0 < String.length b)%nat then Slug_loop rs (b +:+ "-") true
      else Slug_loop rs b dash
  end.
Definition Slug (v : string) : string :=
  let v := Clean (strings_ToLower v) in Trim (Slug_loop (runes v) "" false).

Definition Limit (v : string) (n : Z) : string :=
  if decide (n < 1) then "" else
  let r := runes v in
  if decide (Z.of_nat (length r) <= n) then v else of_runes (take (Z.to_nat n) r).

Definition EqualFoldNonEmpty (a b : string) : option error :=
  if decide (Clean a = "" \/ Clean b = "" \/ strings_EqualFold (Clean a) (Clean b) = false)
  then Some ErrInvalid else None.

(** ** The shape of a slug *)

Definition segment (p : string) : Prop := p <> "" /\ free_of "-"%char p.

(** Segments joined by dashes, with a dash at the end or not. *)
Definition shaped (b : string) (dash : bool) : Prop :=
  exists segs, Forall segment segs /\ (segs = [] -> dash = false) /\
    b = Join "-"%char segs +:+ (if dash then "-" else "").

Lemma Join_snoc c segs p : segs <> [] -> Join c (segs ++ [p]) = Join c segs +:+ String c p.
Proof.
  induction segs as [|q segs IH]; [done|]. intros _. destruct segs as [|q' segs]; [done|].
  change (Join c ((q :: q' :: segs) ++ [p])) with (q +:+ String c (Join c ((q' :: segs) ++ [p]))).
  rewrite IH by done. change (Join c (q :: q' :: segs)) with (q +:+ String c (Join c (q' :: segs))).
  by rewrite <- string_app_assoc.
Qed.

Lemma Join_extend c segs p r : Join c (segs ++ [p]) +:+ r = Join c (segs ++ [p +:+ r]).
Proof.
  induction segs as [|q segs IH]; [done|]. simpl.
  destruct (segs ++ [p]) eqn:Hp; [by destruct segs|]. destruct (segs ++ [p +:+ r]) eqn:Hq; [by destruct segs|].
  rewrite <- IH. by rewrite <- string_app_assoc.
Qed.

Lemma Slug_loop_shaped rs b dash :
  (forall r, r ∈ rs -> letter r = true -> segment r) -> shaped b dash ->
  exists dash', shaped (Slug_loop rs b dash) dash'.
Proof.
  revert b dash. induction rs as [|r rs IH]; intros b dash Hrs Hb; simpl; [eauto|].
  assert (Hrs' : forall r', r' ∈ rs -> letter r' = true -> segment r') by set_solver.
  destruct Hb as (segs & Hsegs & Hdash & ->).
  destruct (letter r) eqn:Hr; [|destruct (_ && _) eqn:Hd]; apply IH; try done.
  - destruct (Hrs r) as [Hne Hfree]; [set_solver|done|]. destruct dash.
    + exists (segs ++ [r]). split_and!; [by apply Forall_app; rewrite Forall_singleton|by destruct segs|].
      rewrite append_nil_r, Join_snoc by (intros ->; by specialize (Hdash eq_refl)).
      by rewrite <- string_app_assoc.
    + destruct segs as [|p segs _] using rev_ind.
      { exists [r]. split_and!; [by rewrite Forall_singleton|done|]. by rewrite !append_nil_r. }
      apply Forall_app in Hsegs as [Hsegs [Hpne Hpf]%Forall_singleton].
      exists (segs ++ [p +:+ r]). split_and!; [|by destruct segs|by rewrite !append_nil_r, Join_extend].
      apply Forall_app. split; [done|]. rewrite Forall_singleton. split; [by destruct p|]. by apply free_of_app.
  - apply andb_true_iff in Hd as [Hd Hl]. apply negb_true_iff in Hd as ->. apply bool_decide_eq_true in Hl.
    exists segs. split_and!; [done| |by rewrite append_nil_r]. intros ->. simpl in Hl. lia.
  - exists segs. by split_and!.
Qed.

Lemma trim_end_free s : free_of "-"%char s -> trim_end_dashes s = s.
Proof.
  induction s as [|a s IH]; simpl; [done|]. intros [Ha Hs]. rewrite (IH Hs). by rewrite decide_False by tauto.
Qed.

Lemma trim_end_app s t : trim_end_dashes t <> "" -> trim_end_dashes (s +:+ t) = s +:+ trim_end_dashes t.
Proof.
  intros Ht. induction s as [|a s IH]; [done|]. simpl. rewrite IH.
  rewrite decide_False; [done|]. intros [He _]. destruct s; [done|discriminate].
Qed.

Lemma Trim_shaped b dash : shaped b dash ->
  exists segs, Forall segment segs /\ Trim b = Join "-"%char segs.
Proof.
  intros (segs & Hsegs & Hdash & ->). exists segs. split; [done|].
  assert (Hend : forall t, trim_end_dashes t = "" ->
    trim_end_dashes (Join "-"%char segs +:+ t) = Join "-"%char segs).
  { intros t Ht. clear Hdash. induction Hsegs as [|p segs [Hne Hf] Hsegs IH]; [done|].
    assert (Hp : forall u, trim_end_dashes u = "" -> trim_end_dashes (p +:+ u) = p).
    { intros u Hu. clear Hne. induction p as [|a p IHp]; [done|]. destruct Hf as [Ha Hf]. simpl.
      rewrite (IHp Hf). by rewrite decide_False by tauto. }
    destruct segs as [|q segs]; [by apply Hp|].
    change (Join "-" (p :: q :: segs)) with (p +:+ String "-" (Join "-" (q :: segs))).
    rewrite <- string_app_assoc. change (String "-" ?x +:+ t) with (String "-" (x +:+ t)).
    rewrite trim_end_app; cbn [trim_end_dashes]; rewrite IH.
    - rewrite decide_False; [done|]. intros [He _]. inversion Hsegs as [|? ? [Hq _] _].
      destruct q; [done|]. by destruct segs.
    - case_decide as Hc; [|done]. destruct Hc as [He _]. inversion Hsegs as [|? ? [Hq _] _].
      destruct q; [done|]. by destruct segs. }
  unfold Trim. assert (Hstart : trim_dashes (Join "-" segs +:+ (if dash then "-" else "")) =
    Join "-" segs +:+ (if dash then "-" else "")).
  { destruct Hsegs as [|p segs [Hne Hf] Hsegs]; [by rewrite (Hdash eq_refl)|].
    destruct p as [|a p]; [done|]. destruct Hf as [Ha _].
    destruct segs; simpl; by rewrite decide_False. }
  rewrite Hstart. apply Hend. by destruct dash.
Qed.

(** A slug is empty or a row of non-empty parts between single dashes, none at its
    ends; a limited text has the first runes of the text, no more than the limit. *)
Theorem slug_shape v n :
  letter "-" = false -> 0 <= n ->
  (Slug v = "" \/ Forall (fun p => p <> "") (Split "-"%char (Slug v))) /\
  runes (Limit v n) = take (Z.to_nat n) (runes v).
Proof.
  intros Hdash Hn. split.
  - unfold Slug. set (rs := runes _).
    destruct (Slug_loop_shaped rs "" false) as [dash' Hs].
    + intros r Hin Hr. apply runes_dash in Hin as [Hne [->|Hf]]; [congruence|by split].
    + by exists [].
    + apply Trim_shaped in Hs as (segs & Hsegs & ->).
      destruct segs as [|p segs]; [by left|right].
      rewrite Split_Join; [|done|]; eapply Forall_impl; try apply Hsegs; by intros q [].
  - unfold Limit. case_decide as H0; [by replace (Z.to_nat n) with 0%nat by lia|].
    case_decide; [rewrite take_ge; [done|lia]|]. apply runes_of_take.
Qed.
End stringsx.

Definition ascii_letter (r : string) : bool :=
  match r with
  | String a "" => bool_decide (97 <= byte_of a <= 122 \/ 65 <= byte_of a <= 90 \/ 48 <= byte_of a <= 57)%N
  | _ => false
  end.

Lemma slug_shape_witness :
  @Slug sample_external ascii_letter "  Hello,  World! " = "hello-world" /\
  Forall (fun p => p <> "") (Split "-"%char (@Slug sample_external ascii_letter "  Hello,  World! ")).
Proof.
  split; [vm_compute; reflexivity|].
  destruct (@slug_shape sample_external ascii_letter "  Hello,  World! " 3) as [[He|Hf] _].
  - reflexivity.
  - discriminate.
  - exfalso. revert He. vm_compute. discriminate.
  - exact Hf.
Defined.
