(* ===== verification/validation.v ===== *)
(** * Package validation

    Checks of input texts ([internal/validation/input.go]).  [ParseAddress] is the one of
    net/mail. *)

From S2P Require Import Prelude.
From S2P Require Import golang.
From S2P Require Import utf8.
From S2P Require Import domain.
From S2P Require Import external.

Open Scope string_scope.
Open Scope list_scope.
Open Scope Z_scope.

(** The pattern [^[A-Z]{3}$]. *)
Definition capital (a : ascii) : bool := within 65 90 a.
Definition codePattern (s : string) : bool :=
  match s with
  | String a (String b (String c "")) => capital a && capital b && capital c
  | _ => false
  end.

Section validation.
Context `{External} (ParseAddress : string -> option error).

Definition Email (v : string) : option error :=
  let v := TrimSpace v in
  match ParseAddress v with Some _ => Some ErrInvalid | None => None end.

Definition AirportCode (v : string) : option error :=
  if negb (codePattern (strings_ToUpper (TrimSpace v))) then Some ErrInvalid else None.

Definition Reference (v : string) : option error :=
  let v := TrimSpace v in
  if decide (RuneCount v < 3 \/ RuneCount v > 64) then Some ErrInvalid else None.

Definition Notes (v : string) : option error :=
  if decide (RuneCount v > 1000) then Some ErrInvalid else None.

Fixpoint Required (values : list string) : option error :=
  match values with
  | [] => None
  | v :: values => if decide (TrimSpace v = "") then Some ErrInvalid else Required values
  end.

(** Each check refuses with the one error for invalid input, and accepts exactly:
    references of 3 to 64 characters around which spaces do not count, notes of at
    most 1000 characters, airport codes that are three capital letters in upper
    case, which no other length is, and rows of texts that are not blank. *)
Theorem checks_accept v values :
  (Reference v = None <-> 3 <= RuneCount (TrimSpace v) <= 64) /\
  (Notes v = None <-> RuneCount v <= 1000) /\
  (AirportCode v = None <-> exists a b c,
     strings_ToUpper (TrimSpace v) = String a (String b (String c "")) /\
     Forall (fun x => (65 <= byte_of x <= 90)%N) [a; b; c]) /\
  (Required values = None <-> Forall (fun w => TrimSpace w <> "") values) /\
  Forall (fun r => r = None \/ r = Some ErrInvalid)
    [Email v; AirportCode v; Reference v; Notes v; Required values].
Proof.
  split_and!.
  - unfold Reference. case_decide; split; intros; first [done | lia | exfalso; lia].
  - unfold Notes. case_decide; split; intros; first [done | lia | exfalso; lia].
  - unfold AirportCode. destruct (codePattern _) eqn:Hc; simpl.
    + split; [intros _|done]. destruct (strings_ToUpper _) as [|a [|b [|c [|]]]]; try done.
      exists a, b, c. split; [done|]. simpl in Hc. rewrite !andb_true_iff in Hc. unfold capital, within in Hc.
      rewrite !bool_decide_eq_true in Hc. by repeat constructor; apply Hc.
    + split; [done|]. intros (a & b & c & He & Hf). exfalso. rewrite He in Hc. simpl in Hc.
      inversion Hf as [|? ? Ha Hf']; inversion Hf' as [|? ? Hb Hf'']; inversion Hf'' as [|? ? Hcc _]; subst.
      unfold capital, within in Hc. by rewrite !bool_decide_eq_true_2 in Hc.
  - induction values as [|w values IH]; simpl; [by split|]. rewrite Forall_cons.
    case_decide; [by intuition|]. rewrite IH. tauto.
  - rewrite !Forall_cons, Forall_nil. split_and!; [..|done].
    + unfold Email. destruct (ParseAddress _); auto.
    + unfold AirportCode. destruct (negb _); auto.
    + unfold Reference. case_decide; auto.
    + unfold Notes. case_decide; auto.
    + induction values as [|w values IH]; simpl; [by left|]. case_decide; auto.
Qed.
End validation.

Example AirportCode_ex :
  @AirportCode sample_external " pek " = None /\ @AirportCode sample_external "peking" = Some ErrInvalid.
Proof. vm_compute. done. Qed.
