(* ===== verification/event.v ===== *)
(** * Package event

    Event envelopes with a JSON payload ([internal/event/event.go]).  [Marshal],
    [Unmarshal] and [Valid] are those of encoding/json, for payloads of a type [P]. *)

From S2P Require Import Prelude.
From S2P Require Import golang.
From S2P Require Import strconv.
From S2P Require Import domain.

Open Scope string_scope.
Open Scope list_scope.
Open Scope Z_scope.

Record Envelope := mkEnvelope {
  env_ID : string; env_Type : string; env_TenantID : string; env_AggregateID : string;
  env_OccurredAt : Time; env_Payload : string }.

Section event.
Context {P : Type} (Marshal : P -> result string) (Unmarshal : string -> result P) (Valid : string -> bool).

Definition New (id typ tenant aggregate : string) (payload : P) (at_ : Time) : result Envelope :=
  if decide (id = "" \/ typ = "" \/ tenant = "" \/ aggregate = "" \/ IsZero at_) then Err ErrInvalid else
  match Marshal payload with
  | Err err => Err err
  | Ok raw => Ok (mkEnvelope id typ tenant aggregate at_ raw)
  end.

Definition Decode (e : Envelope) : result P :=
  if decide (env_Payload e = "") then Err ErrInvalid else Unmarshal (env_Payload e).

Definition Validate (e : Envelope) : option error :=
  if decide (env_ID e = "" \/ env_Type e = "" \/ env_TenantID e = "" \/ env_AggregateID e = ""
             \/ IsZero (env_OccurredAt e))
  then Some ErrInvalid else
  if negb (Valid (env_Payload e)) then Some ErrInvalid else None.

(** The documented contract of the encoder: what it writes is JSON that reads back. *)
Definition json_contract : Prop := forall p raw, Marshal p = Ok raw ->
  raw <> "" /\ Valid raw = true /\ Unmarshal raw = Ok p.

(** A new envelope is valid and carries its payload back; it is made exactly when
    no field is missing and the payload can be encoded. *)
Theorem envelope_roundtrip id typ tenant aggregate payload at_ :
  json_contract ->
  (forall e, New id typ tenant aggregate payload at_ = Ok e -> Validate e = None /\ Decode e = Ok payload) /\
  ((exists e, New id typ tenant aggregate payload at_ = Ok e) <->
     id <> "" /\ typ <> "" /\ tenant <> "" /\ aggregate <> "" /\ ~ IsZero at_ /\
     exists raw, Marshal payload = Ok raw).
Proof.
  intros Hjson. unfold New. case_decide as Hg.
  { split; [done|]. split; [by intros [? ?]|tauto]. }
  destruct (Marshal payload) as [raw|err] eqn:Hm.
  - destruct (Hjson _ _ Hm) as (Hne & Hv & Hu). split; [|naive_solver].
    intros e [= <-]. unfold Validate, Decode. simpl. rewrite decide_False by done. rewrite Hv.
    by rewrite decide_False.
  - split; [done|]. split; [by intros [? ?]|]. by intros (_ & _ & _ & _ & _ & raw & ?).
Qed.
End event.

Lemma envelope_roundtrip_witness :
  let marshal (b : bool) : result string := Ok (if b then "true" else "false") in
  let valid s := bool_decide (s = "true" \/ s = "false") in
  let unmarshal s : result bool := if decide (s = "true") then Ok true else
    if decide (s = "false") then Ok false else Err ErrInvalid in
  exists e, New marshal "e1" "booked" "acme" "s1" true 5 = Ok e /\ Decode unmarshal e = Ok true.
Proof.
  eexists. split; [reflexivity|].
  destruct (envelope_roundtrip (fun b : bool => Ok (if b then "true" else "false"))
    (fun s => if decide (s = "true") then Ok true else if decide (s = "false") then Ok false else Err ErrInvalid)
    (fun s => bool_decide (s = "true" \/ s = "false")) "e1" "booked" "acme" "s1" true 5) as [Hd _].
  - intros p raw Hr. injection Hr as <-. destruct p; (split; [discriminate|split; reflexivity]).
  - exact (proj2 (Hd _ eq_refl)).
Defined.
