(* ===== verification/ratios.v ===== *)
(** * Package ratios

    Percentages, weighted means and the rounding to decimal places
    ([internal/ratios/ratios.go]), as IEEE binary64. *)

From Stdlib Require Import SpecFloat.
From S2P Require Import Prelude.
From S2P Require Import golang.
From S2P Require Import floats.
From S2P Require Import domain.

Open Scope list_scope.
Open Scope Z_scope.

Definition Percent (part total : Z) : result float64 :=
  if decide (total <= 0 \/ part < 0 \/ part > total) then Err ErrInvalid else
  Ok (div_float64 (mul_float64 (float64_of_int part) (float64_of_int 100)) (float64_of_int total)).

(** [math.Pow10] for a power that is not negative: two tables of constants, the powers
    of ten up to 31 and those of 10^32. *)
Definition Pow10 (n : Z) : float64 :=
  if decide (n <= 308)
  then mul_float64 (float64_of_int (10 ^ (32 * (n / 32)))) (float64_of_int (10 ^ (n mod 32)))
  else S754_infinity false.

(** The integer nearest to [m * 2 ^ e], halves away from zero. *)
Definition nearest (m : positive) (e : Z) : Z :=
  if decide (0 <= e) then Zpos m * 2 ^ e else (2 * Zpos m + 2 ^ (- e)) / 2 ^ (1 - e).

(** [math.Round] keeps the sign, of a zero too. *)
Definition math_Round (x : float64) : float64 :=
  match x with
  | S754_finite s m e =>
      if decide (0 <= e) then x
      else if s then SFopp (float64_of_int (nearest m e)) else float64_of_int (nearest m e)
  | _ => x
  end.

Definition Round (v : float64) (places : Z) : float64 :=
  let places := if decide (places < 0) then 0 else places in
  let factor := Pow10 places in
  div_float64 (math_Round (mul_float64 v factor)) factor.

(** [weights[i]] is in range for each [i] of the values, which are as many. *)
Fixpoint Weighted_loop (values weights : list Z) (sum weight : Z) : result (Z * Z) :=
  match values, weights with
  | v :: values, w :: weights =>
      if decide (v < 0 \/ w < 0) then Err ErrInvalid
      else Weighted_loop values weights (add64 sum (mul64 v w)) (add64 weight w)
  | _, _ => Ok (sum, weight)
  end.

Definition Weighted (values weights : list Z) : result float64 :=
  if decide (length values = 0%nat \/ length values <> length weights) then Err ErrInvalid else
  match Weighted_loop values weights 0 0 with
  | Err err => Err err
  | Ok (sum, weight) =>
      if decide (weight = 0) then Err ErrInvalid
      else Ok (div_float64 (float64_of_int sum) (float64_of_int weight))
  end.

(** The sums without a width. *)
Definition total_of (l : list Z) : Z := foldr Z.add 0 l.
Definition products (values weights : list Z) : Z := total_of (zip_with Z.mul values weights).

Lemma Weighted_loop_exact values weights sum weight :
  length values = length weights -> Forall (fun v => 0 <= v) values -> Forall (fun w => 0 <= w) weights ->
  0 <= sum -> 0 <= weight -> sum + products values weights <= max_int64 ->
  weight + total_of weights <= max_int64 ->
  Weighted_loop values weights sum weight = Ok (sum + products values weights, weight + total_of weights).
Proof.
  intros Hl Hv Hw. revert weights Hl Hw sum weight.
  assert (Hpos : forall vs ws, Forall (fun v => 0 <= v) vs -> Forall (fun w => 0 <= w) ws ->
    0 <= products vs ws /\ 0 <= total_of ws).
  { intros vs ws Hvs. revert ws. induction Hvs as [|v vs Hv0 Hvs IH]; intros ws Hws.
    - split; [done|]. induction Hws; simpl; lia.
    - destruct Hws as [|w ws Hw0 Hws]; [done|]. destruct (IH ws Hws). unfold products. simpl.
      unfold products in *. nia. }
  induction Hv as [|v values Hv0 Hv IH]; intros [|w weights] Hl Hw sum weight Hs Hwt Hsum Hweight; try done.
  { simpl. f_equal. f_equal; unfold products; simpl; lia. }
  inversion_clear Hw as [|? ? Hw0 Hw']. destruct (Hpos values weights Hv Hw').
  change (products (v :: values) (w :: weights)) with (v * w + products values weights) in *.
  change (total_of (w :: weights)) with (w + total_of weights) in *.
  assert (0 <= v * w) by nia. simpl. rewrite decide_False by lia.
  unfold max_int64 in *. rewrite mul64_exact, !add64_exact by (unfold in_int64, min_int64, max_int64; lia).
  rewrite IH by (simpl in Hl; done || lia). do 2 f_equal; lia.
Qed.

(** A weighted mean of values and weights that are not negative, not all weights
    zero, is the quotient of the sum of the products and the sum of the weights,
    while these fit an int64; anything else that is refused is refused as invalid,
    as is a percentage outside of zero to its total. *)
Theorem Weighted_exact values weights part total :
  (length values = length weights -> Forall (fun v => 0 <= v) values -> Forall (fun w => 0 <= w) weights ->
   products values weights <= max_int64 -> total_of weights <= max_int64 -> total_of weights <> 0 ->
   Weighted values weights =
     Ok (div_float64 (float64_of_int (products values weights)) (float64_of_int (total_of weights)))) /\
  (forall e, Weighted values weights = Err e -> e = ErrInvalid) /\
  (Percent part total = Err ErrInvalid <-> ~ (0 <= part <= total /\ 0 < total)).
Proof.
  split_and!.
  - intros Hl Hv Hw Hp Ht Hz. unfold Weighted. rewrite decide_False.
    + rewrite Weighted_loop_exact by (done || lia). simpl. by rewrite decide_False.
    + intros [Hn|Hn]; [|done]. destruct values, weights; done.
  - intros e. unfold Weighted. destruct (decide (length values = 0%nat \/ _)); [by intros [= <-]|].
    assert (Hloop : forall vs ws s w e', Weighted_loop vs ws s w = Err e' -> e' = ErrInvalid).
    { induction vs as [|v vs IH]; intros [|x ws] s w e'; simpl; try done. case_decide; [congruence|apply IH]. }
    destruct (Weighted_loop values weights 0 0) as [[s w]|e'] eqn:Hl.
    + case_decide; [by intros [= <-]|done].
    + intros [= <-]. by eapply Hloop.
  - unfold Percent. case_decide; [split; [lia|done]|]. split; [done|]. intros Hn. lia.
Qed.

(** The sums wrap silently: the mean of positive numbers can be negative. *)
Example Weighted_wraps :
  match Weighted [max_int64; max_int64] [1; 1] with
  | Ok f => trunc_float64 f = Some (-1)
  | Err _ => False
  end.
Proof. vm_compute. reflexivity. Qed.

Example Percent_ex :
  match Percent 1 4 with Ok f => trunc_float64 f = Some 25 | Err _ => False end.
Proof. vm_compute. reflexivity. Qed.

(** ** Rounding *)

Lemma trunc_opp x : trunc_float64 (SFopp x) = Z.opp <$> trunc_float64 x.
Proof.
  destruct x as [|s| |s m e]; try done. simpl. destruct s; simpl; f_equal; lia.
Qed.

(** An integer of at most 53 digits is a number, exactly. *)
Lemma trunc_of_int n : 0 <= n < 2 ^ 53 -> trunc_float64 (float64_of_int n) = Some n.
Proof.
  intros [H0 Hn]. destruct n as [|a|a]; [done| |lia].
  assert (Hd : (digits2_pos a <= 53)%positive).
  { pose proof (digits_spec a) as [Hlo _]. destruct (Pos.lt_total 53 (digits2_pos a)) as [Hgt|Hle]; [|lia].
    pose proof (Z.pow_le_mono_r 2 53 (Zpos (digits2_pos a) - 1)). lia. }
  unfold float64_of_int. destruct (normalize_exact a 0) as (k & Hk & _ & ->); [lia..|].
  simpl trunc_float64. f_equal. set (j := 53 - Zpos (digits2_pos a)) in *.
  replace (Zpos (digits2_pos a) + 0 - 53) with (- j) by (subst j; lia). rewrite Hk.
  case_decide as Hj.
  - assert (j = 0) as -> by (subst j; lia). simpl. lia.
  - rewrite Z.opp_involutive. apply Z.div_mul. apply Z.pow_nonzero; subst j; lia.
Qed.

(** The nearest integer is within a half, and a half goes up. *)
Lemma nearest_spec m e : e < 0 ->
  let k := - e in
  (2 * nearest m e - 1) * 2 ^ k <= 2 * Zpos m < (2 * nearest m e + 1) * 2 ^ k.
Proof.
  intros He k. unfold nearest. rewrite decide_False by lia. fold k.
  replace (1 - e) with (1 + k) by (subst k; lia). rewrite Z.pow_add_r by (subst k; lia).
  change (2 ^ 1) with 2. pose proof (Z.pow_pos_nonneg 2 k ltac:(lia) ltac:(subst k; lia)) as Hp.
  pose proof (Z.div_mod (2 * Zpos m + 2 ^ k) (2 * 2 ^ k) ltac:(lia)) as Hdm.
  pose proof (Z.mod_pos_bound (2 * Zpos m + 2 ^ k) (2 * 2 ^ k) ltac:(lia)). nia.
Qed.

(** [math.Round] gives the integer nearest to its argument, a half away from zero,
    and keeps integers; negative places count as none. *)
Theorem Round_nearest s m e v places :
  Zpos m < 2 ^ 53 ->
  trunc_float64 (math_Round (S754_finite s m e)) =
    Some (if (s : bool) then - nearest m e else nearest m e) /\
  (e < 0 -> (2 * nearest m e - 1) * 2 ^ (- e) <= 2 * Zpos m < (2 * nearest m e + 1) * 2 ^ (- e)) /\
  (places < 0 -> Round v places = Round v 0).
Proof.
  intros Hm. split_and!; [|by intros; apply nearest_spec|].
  - unfold math_Round. destruct (decide (0 <= e)) as [He|He].
    { simpl. unfold nearest. by rewrite !decide_True. }
    pose proof (nearest_spec m e ltac:(lia)) as [Hlo Hhi].
    pose proof (Z.pow_le_mono_r 2 1 (- e) ltac:(lia) ltac:(lia)) as Hp.
    assert (Hn : 0 <= nearest m e < 2 ^ 53) by nia.
    destruct s; [rewrite trunc_opp|]; by rewrite trunc_of_int.
  - intros Hp. unfold Round. by rewrite decide_True.
Qed.

(** A large number overflows on the way, and too many places make zero no number. *)
Example Round_overflows :
  Round (float64_of_int (10 ^ 300)) 10 = S754_infinity false /\
  Round (S754_zero false) 309 = S754_nan.
Proof. vm_compute. done. Qed.

Example Round_ex : trunc_float64 (mul_float64 (Round (div_float64 (float64_of_int 12345) (float64_of_int 1000)) 2)
  (float64_of_int 100)) = Some 1235.
Proof. vm_compute. reflexivity. Qed.
