(* ===== verification/geo.v ===== *)
(** * Package geo

    Great-circle distances ([internal/geo/geo.go]) in IEEE binary64, each operation
    rounded on its own as on amd64.  The sine, cosine and arcsine of package math are
    parameters. *)

From Stdlib Require Import SpecFloat.
From S2P Require Import Prelude.
From S2P Require Import golang.
From S2P Require Import domain.

Open Scope Z_scope.

Record Point := mkPoint { Lat : float64; Lon : float64 }.

(** [x >= y] is false when one of them is not a number. *)
Definition ge_float64 (x y : float64) : bool := SFleb y x.
Definition IsNaN (x : float64) : bool := match x with S754_nan => true | _ => false end.

Definition Valid (p : Point) : bool :=
  ge_float64 (Lat p) (float64_of_int (-90)) && ge_float64 (float64_of_int 90) (Lat p) &&
  ge_float64 (Lon p) (float64_of_int (-180)) && ge_float64 (float64_of_int 180) (Lon p) &&
  negb (IsNaN (Lat p)) && negb (IsNaN (Lon p)).

(** [math.Pi / 180], the constant rounded to a float64. *)
Definition rad : float64 := S754_finite false 5030569068109113 (-58).

Definition half (x : float64) : float64 := div_float64 x (float64_of_int 2).

Class Trigonometry := {
  Sin : float64 -> float64;
  Cos : float64 -> float64;
  Asin : float64 -> float64 }.

Definition Distance `{Trigonometry} (a b : Point) : result float64 :=
  if negb (Valid a) || negb (Valid b) then Err ErrInvalid else
  let lat1 := mul_float64 (Lat a) rad in
  let lat2 := mul_float64 (Lat b) rad in
  let dlat := mul_float64 (sub_float64 (Lat b) (Lat a)) rad in
  let dlon := mul_float64 (sub_float64 (Lon b) (Lon a)) rad in
  let h := add_float64 (mul_float64 (Sin (half dlat)) (Sin (half dlat)))
    (mul_float64 (mul_float64 (mul_float64 (Cos lat1) (Cos lat2)) (Sin (half dlon))) (Sin (half dlon))) in
  Ok (mul_float64 (float64_of_int (6371 * 2)) (Asin (SFsqrt 53 1024 h))).

(** ** Signs in float64 arithmetic *)

Lemma round_aux_opp s m e l :
  binary_round_aux 53 1024 (negb s) m e l = SFopp (binary_round_aux 53 1024 s m e l).
Proof.
  unfold binary_round_aux. destruct (shr_fexp 53 1024 m e l) as [mrs e'].
  destruct (shr_fexp 53 1024 _ e' loc_Exact) as [mrs' e'']. destruct (shr_m mrs'); try done.
  by destruct (_ <=? _).
Qed.

Lemma round_opp s m e : binary_round 53 1024 (negb s) m e = SFopp (binary_round 53 1024 s m e).
Proof. unfold binary_round. destruct (shl_align _ _ _). apply round_aux_opp. Qed.

Lemma mul_opp_l x y : mul_float64 (SFopp x) y = SFopp (mul_float64 x y).
Proof.
  unfold mul_float64. destruct x as [a|a| |a ma ea], y as [b|b| |b mb eb]; cbn [SFopp SFmul]; try done.
  all: rewrite <- ?negb_xorb_l; try done; apply round_aux_opp.
Qed.

Lemma mul_comm x y : mul_float64 x y = mul_float64 y x.
Proof.
  unfold mul_float64. destruct x as [a|a| |a ma ea], y as [b|b| |b mb eb]; cbn [SFmul]; try done;
    rewrite 1?(xorb_comm a b); try done. by rewrite Pos.mul_comm, Z.add_comm.
Qed.

Lemma opp_involutive x : SFopp (SFopp x) = x.
Proof. destruct x; cbn; by rewrite ?negb_involutive. Qed.

Lemma half_opp x : half (SFopp x) = SFopp (half x).
Proof.
  unfold half, div_float64. destruct x as [[]|[]| |a ma ea]; try done.
  cbn [SFopp]. unfold float64_of_int. destruct (binary_normalize 53 1024 2 0 false) eqn:E; try done.
  unfold SFdiv. destruct (SFdiv_core_binary 53 1024 (Zpos ma) ea (Zpos m) e) as [[mz ez] lz].
  rewrite <- negb_xorb_l. apply round_aux_opp.
Qed.

(** The differences of two numbers in both orders have opposite signs, or are zero. *)
Lemma sub_opp x y : sub_float64 x y = SFopp (sub_float64 y x) \/ sub_float64 x y = sub_float64 y x.
Proof.
  unfold sub_float64. destruct x as [[]|[]| |a ma ea], y as [[]|[]| |b mb eb]; cbn [SFsub SFopp negb]; auto.
  all: rewrite ?negb_involutive; auto.
  rewrite (Z.min_comm eb ea).
  set (u := cond_Zopp a _). set (v := cond_Zopp b _).
  replace (v - u) with (- (u - v)) by lia. destruct (u - v); [by right| |]; left; cbn [Z.opp binary_normalize].
  - change false with (negb true) at 1. apply round_opp.
  - change true with (negb false) at 1. apply round_opp.
Qed.

(** A function of the square of the sine of half a difference in radians. *)
Lemma haversine_sym `{Trigonometry} (f : float64 -> float64 -> float64) x y :
  (forall z, Sin (SFopp z) = SFopp (Sin z)) ->
  (forall z, f (SFopp z) (SFopp z) = f z z) ->
  let s u v := Sin (half (mul_float64 (sub_float64 u v) rad)) in f (s x y) (s x y) = f (s y x) (s y x).
Proof.
  intros Hsin Hf s. unfold s. destruct (sub_opp x y) as [->| ->]; [|done].
  by rewrite mul_opp_l, half_opp, Hsin, Hf.
Qed.

(** Distances do not depend on the direction, for a sine that is odd; they are refused
    exactly when a coordinate is out of its range or not a number, and the tests for
    the latter add nothing. *)
Theorem Distance_symmetric `{Trigonometry} a b :
  (forall z, Sin (SFopp z) = SFopp (Sin z)) ->
  Distance a b = Distance b a /\
  (Distance a b = Err ErrInvalid <-> Valid a = false \/ Valid b = false) /\
  (Valid a = true <->
    SFleb (float64_of_int (-90)) (Lat a) = true /\ SFleb (Lat a) (float64_of_int 90) = true /\
    SFleb (float64_of_int (-180)) (Lon a) = true /\ SFleb (Lon a) (float64_of_int 180) = true).
Proof.
  intros Hsin. split_and!.
  - unfold Distance. rewrite (orb_comm (negb (Valid a))). destruct (_ || _); [done|].
    assert (Hsq : forall z, mul_float64 (SFopp z) (SFopp z) = mul_float64 z z).
    { intros z. by rewrite mul_opp_l, (mul_comm z (SFopp z)), mul_opp_l, opp_involutive. }
    cbv zeta. rewrite (mul_comm (Cos (mul_float64 (Lat a) rad))).
    set (c := mul_float64 (Cos (mul_float64 (Lat b) rad)) _).
    rewrite (haversine_sym mul_float64 (Lat b) (Lat a) Hsin Hsq).
    rewrite (haversine_sym (fun u v => mul_float64 (mul_float64 c u) v) (Lon b) (Lon a) Hsin); [done|].
    intros z. rewrite (mul_comm c (SFopp z)), mul_opp_l, mul_opp_l, (mul_comm _ (SFopp z)), mul_opp_l, opp_involutive.
    by rewrite (mul_comm z c), mul_comm.
  - unfold Distance. destruct (Valid a), (Valid b); simpl; split; intros; destruct_or?; auto; done.
  - unfold Valid, ge_float64. destruct a as [lat lon]. simpl. rewrite !andb_true_iff.
    destruct lat, lon; simpl; intuition discriminate.
Qed.
