(* ===== verification/migration.v ===== *)
(** * Package repository/postgres: migrations

    The start-up migrations of [internal/repository/postgres/migration.go]: a server
    that starts looks up which files of the directory are recorded in the table
    [schema_migrations] and runs each of the others in a transaction that also
    records it.

    Servers start at the same time, so a start-up is a process ([proc]) of which
    [step] makes the next statement, and [starting] is any interleaving of such
    processes over one database.  A statement may fail with any error, and the commit
    may have taken effect when it does ([Lost]).  An
    [INSERT] of a key that an open transaction has inserted waits for the end of
    that transaction ([blocked]). *)

From S2P Require Import Prelude.
From S2P Require Import golang.
From S2P Require Import domain.
From S2P Require Import sql.
From S2P Require Import machine.

Open Scope string_scope.
Open Scope list_scope.
Open Scope Z_scope.

(** ** Discovery *)

(** An entry of the directory, with what reading the file gives. *)
Record DirEntry := mkDirEntry { de_Name : string; de_IsDir : bool; de_ReadFile : result string }.

Record migration := mkMigration { version : string; path : string; body : string }.

(** [filepath.Ext]: from the last dot of the last element. *)
Fixpoint Ext_from (s ext : string) : string :=
  match s with
  | EmptyString => ext
  | String a s' =>
      Ext_from s' (if decide (a = "."%char) then s else if decide (a = "/"%char) then "" else ext)
  end.
Definition Ext (s : string) : string := Ext_from s "".

Example Ext_ex : (Ext "001_core.sql", Ext "a.b/c", Ext "README") = (".sql", "", "").
Proof. reflexivity. Qed.

(** The loop over the entries of the directory. *)
Fixpoint discover_loop (root : string) (entries : list DirEntry) (items : list migration)
    : result (list migration) :=
  match entries with
  | [] => Ok items
  | entry :: entries =>
      if decide (de_IsDir entry = true \/ Ext (de_Name entry) <> ".sql")
      then discover_loop root entries items else
      match de_ReadFile entry with
      | Err e => Err (Errorf ("read migration " +:+ de_Name entry +:+ ": ") e "")
      | Ok text => discover_loop root entries
          (items ++ [mkMigration (de_Name entry) (root +:+ "/" +:+ de_Name entry) text])
      end
  end.

(** [ReadDir] answers with the entries of the directory. *)
Definition discover `{SortSlice} (root : string) (ReadDir : result (list DirEntry))
    : result (list migration) :=
  match ReadDir with
  | Err e => Err (Errorf "read migrations: " e "")
  | Ok entries =>
      match discover_loop root entries [] with
      | Err e => Err e
      | Ok items => Ok (sort_Slice (string_less_on version) items)
      end
  end.

(** The first candidate that is a directory with entries. *)
Fixpoint first_root (ReadDir : string -> result (list DirEntry)) (candidates : list string) : string :=
  match candidates with
  | [] => "migrations"
  | c :: cs =>
      match ReadDir c with
      | Ok (_ :: _) => c
      | _ => first_root ReadDir cs
      end
  end.

Definition migrationRoot (ReadDir : string -> result (list DirEntry)) : string :=
  first_root ReadDir ["migrations"; "../../../../migrations"; "../../../migrations"; "../../migrations"].

(** ** One start-up *)

(** The database as migrations see it: the recorded versions, the bodies whose effect
    it has, and the calls of the observers of all start-ups. *)
Record database := mkDatabase {
  schema_migrations : list string; schema : list string; observed : list string }.

(** Where a start-up is.  In [Committing] its transaction has inserted the version. *)
Inductive proc :=
  | Preparing
  | Discovering
  | Inspecting (todo : list migration)
  | Beginning (m : migration) (rest : list migration)
  | Executing (m : migration) (rest : list migration)
  | Recording (m : migration) (rest : list migration)
  | Committing (m : migration) (rest : list migration)
  | Done (r : result unit).

Definition failed_at (what : string) (m : migration) (e : error) : proc :=
  Done (Err (Errorf (what +:+ " migration " +:+ version m +:+ ": ") e "")).

(** How a statement fails: it is refused, or it takes effect but its acknowledgement
    does not arrive. *)
Inductive failure := Refused (e : error) | Lost (e : error).

Definition reason (f : failure) : error := match f with Refused e | Lost e => e end.

(** [f] is the failure of the statement, if it fails. *)
Definition ensureVersionTable (f : option failure) : proc :=
  match f with
  | Some e => Done (Err (Errorf "prepare migration history: " (reason e) ""))
  | None => Discovering
  end.

Definition isApplied (d : database) (v : string) (f : option failure) : result bool :=
  match f with
  | Some e => Err (reason e)
  | None => Ok (bool_decide (v ∈ schema_migrations d))
  end.

(** The body of the loop of [run] up to the call of [apply]. *)
Definition inspect (d : database) (item : migration) (rest : list migration) (f : option failure)
    : database * proc :=
  match isApplied d (version item) f with
  | Err e => (d, failed_at "inspect" item e)
  | Ok true => (d, Inspecting rest)
  | Ok false =>
      (mkDatabase (schema_migrations d) (schema d) (observed d ++ [version item]),
       Beginning item rest)
  end.

(** [INSERT INTO schema_migrations(version) VALUES($1)] *)
Definition record_version (d : database) (item : migration) (rest : list migration)
    (f : option failure) : proc :=
  match f with
  | Some e => failed_at "record" item (reason e)
  | None =>
      if decide (version item ∈ schema_migrations d)
      then failed_at "record" item (unique_violation "schema_migrations_pkey")
      else Committing item rest
  end.

Definition commit (d : database) (item : migration) (rest : list migration) (f : option failure)
    : database * proc :=
  let d' := mkDatabase (schema_migrations d ++ [version item]) (schema d ++ [body item]) (observed d) in
  match f with
  | Some (Refused e) => (d, failed_at "commit" item e)
  | Some (Lost e) => (d', failed_at "commit" item e)
  | None => (d', Inspecting rest)
  end.

Section runner.
Context `{SortSlice} (root : string) (ReadDir : result (list DirEntry)).

(** The next statement of a start-up. *)
Definition run (d : database) (p : proc) (f : option failure) : option (database * proc) :=
  match p with
  | Preparing => Some (d, ensureVersionTable f)
  | Discovering => Some (d,
      match discover root ReadDir with Err e => Done (Err e) | Ok items => Inspecting items end)
  | Inspecting [] => Some (d, Done (Ok tt))
  | Inspecting (item :: rest) => Some (inspect d item rest f)
  | Beginning item rest => Some (d,
      match f with Some e => failed_at "begin" item (reason e) | None => Executing item rest end)
  | Executing item rest => Some (d,
      match f with Some e => failed_at "execute" item (reason e) | None => Recording item rest end)
  | Recording item rest => Some (d, record_version d item rest f)
  | Committing item rest => Some (commit d item rest f)
  | Done _ => None
  end.

(** ** Start-ups at the same time *)

Definition holds_version (v : string) (p : proc) : Prop :=
  match p with Committing m _ => version m = v | _ => False end.

#[export] Instance holds_version_dec v p : Decision (holds_version v p).
Proof. destruct p; simpl; apply _. Defined.

(** The insertion of a version waits for the transaction that has inserted it. *)
Definition blocked (ps : list proc) (p : proc) : Prop :=
  match p with Recording m _ => Exists (holds_version (version m)) ps | _ => False end.

Inductive step (f : option failure) : database * list proc -> database * list proc -> Prop :=
  | step_run d ps i p d' p' :
      ps !! i = Some p -> ~ blocked ps p -> run d p f = Some (d', p') ->
      step f (d, ps) (d', <[i := p']> ps).

Definition starting (c c' : database * list proc) : Prop := exists f, step f c c'.
End runner.

(** A start-up on the directory that [migrationRoot] finds. *)
Definition migrateWithObserver `{SortSlice} (ReadDir : string -> result (list DirEntry)) :
    database -> proc -> option failure -> option (database * proc) :=
  let root := migrationRoot ReadDir in run root (ReadDir root).

(** ** The order of migrations *)

Section order.
Context `{SortSlice} (root : string) (ReadDir : result (list DirEntry)) (items : list migration).
Hypothesis Hitems : discover root ReadDir = Ok items.
Hypothesis Hnames : NoDup (version <$> items).

(** The database has the first [k] migrations. *)
Definition migrated (k : nat) (d : database) : Prop :=
  (k <= length items)%nat /\ schema_migrations d = take k (version <$> items) /\
  schema d = take k (body <$> items).

(** Where a start-up may be when the first [k] migrations are done. *)
Definition proc_ok (k : nat) (p : proc) : Prop :=
  match p with
  | Preparing | Discovering | Done (Err _) => True
  | Inspecting todo => exists j, (j <= k)%nat /\ todo = drop j items
  | Beginning m rest | Executing m rest | Recording m rest =>
      exists j, (j <= k)%nat /\ m :: rest = drop j items
  | Committing m rest => m :: rest = drop k items
  | Done (Ok _) => k = length items
  end.

(** At most one start-up has inserted a version without committing. *)
Definition one_writer (ps : list proc) : Prop :=
  forall i i' m m' r r', ps !! i = Some (Committing m r) -> ps !! i' = Some (Committing m' r') -> i = i'.

Definition start_ok (c : database * list proc) : Prop :=
  exists k, migrated k c.1 /\ Forall (proc_ok k) c.2 /\ one_writer c.2.

Lemma drop_cons_lookup {A} (l : list A) j x r : x :: r = drop j l -> l !! j = Some x /\ r = drop (S j) l.
Proof.
  intros Hx. assert (Hj : l !! j = Some x).
  { rewrite <- (Nat.add_0_r j), <- lookup_drop, <- Hx. done. }
  split; [done|]. rewrite (drop_S _ _ _ Hj) in Hx. by simplify_eq.
Qed.

(** The [j]-th version is recorded exactly when [j] is below [k]. *)
Lemma version_recorded k d j m :
  migrated k d -> items !! j = Some m -> version m ∈ schema_migrations d <-> (j < k)%nat.
Proof.
  intros (Hk & -> & _) Hj. rewrite elem_of_take. split.
  - intros (i & Hi & Hlt). assert (i = j) as ->; [|done]. eapply NoDup_lookup; [exact Hnames|done|].
    by rewrite list_lookup_fmap, Hj.
  - intros Hlt. exists j. split; [by rewrite list_lookup_fmap, Hj|done].
Qed.

Lemma take_S_fmap {A B} (f : A -> B) (l : list A) k x :
  l !! k = Some x -> take (S k) (f <$> l) = take k (f <$> l) ++ [f x].
Proof. intros Hk. rewrite (take_S_r _ _ (f x)); [done|]. by rewrite list_lookup_fmap, Hk. Qed.

Lemma one_writer_change ps i p :
  one_writer ps -> (forall m r, p <> Committing m r) -> one_writer (<[i := p]> ps).
Proof.
  intros Hw Hp j j' m m' r r' Hj Hj'.
  apply list_lookup_insert_Some in Hj as [(<- & Heq & _)|[_ Hj]]; [by destruct (Hp m r)|].
  apply list_lookup_insert_Some in Hj' as [(<- & Heq & _)|[_ Hj']]; [by destruct (Hp m' r')|].
  by eapply Hw.
Qed.

(** A step that leaves the database and writes nothing. *)
Lemma quiet_step_ok k d d' ps i p :
  migrated k d -> Forall (proc_ok k) ps -> one_writer ps ->
  schema_migrations d' = schema_migrations d -> schema d' = schema d ->
  proc_ok k p -> (forall m r, p <> Committing m r) -> start_ok (d', <[i := p]> ps).
Proof.
  intros (Hk & Hv & Hs) Hps Hw Hd Hd' Hp Hc. exists k. split_and!; simpl.
  - unfold migrated. by rewrite Hd, Hd'.
  - by apply Forall_change.
  - by apply one_writer_change.
Qed.

(** The next version that is not recorded is recorded by one start-up at a time. *)
Lemma record_step_ok k d ps i m rest :
  migrated k d -> Forall (proc_ok k) ps -> m :: rest = drop k items ->
  ~ Exists (holds_version (version m)) ps -> start_ok (d, <[i := Committing m rest]> ps).
Proof.
  intros Hm Hps Hd Hb. exists k. simpl. split; [done|]. split; [by apply Forall_change|].
  assert (Hno : forall i' m' r', ps !! i' <> Some (Committing m' r')).
  { intros i' m' r' Hi'. apply Hb. apply Exists_exists. exists (Committing m' r').
    split; [by eapply list_elem_of_lookup_2|]. simpl.
    pose proof (Forall_lookup_1 _ _ _ _ Hps Hi') as Hc. simpl in Hc.
    rewrite <- Hd in Hc. by simplify_eq. }
  intros j j' m1 m2 r1 r2 Hj1 Hj2.
  apply list_lookup_insert_Some in Hj1 as [(<- & _)|[_ Hj1]]; [|by destruct (Hno _ _ _ Hj1)].
  by apply list_lookup_insert_Some in Hj2 as [(<- & _)|[_ Hj2]]; [|destruct (Hno _ _ _ Hj2)].
Qed.

(** A commit makes the prefix one longer, and the others stay where they are. *)
Lemma commit_step_ok k d ps i m rest p :
  migrated k d -> Forall (proc_ok k) ps -> one_writer ps ->
  ps !! i = Some (Committing m rest) -> m :: rest = drop k items ->
  p = Inspecting rest \/ (exists e, p = Done (Err e)) ->
  start_ok (mkDatabase (schema_migrations d ++ [version m]) (schema d ++ [body m]) (observed d),
    <[i := p]> ps).
Proof.
  intros (Hk & Hv & Hs) Hps Hw Hi Hp Hnext. pose proof (drop_cons_lookup _ _ _ _ Hp) as [Hl Hr].
  pose proof (lookup_lt_Some _ _ _ Hl) as Hlt.
  exists (S k). split_and!; simpl;
    [split_and!; simpl| |apply one_writer_change; [done|by destruct Hnext as [->|[e ->]]]];
    [lia|by rewrite (take_S_fmap _ _ _ _ Hl), Hv|by rewrite (take_S_fmap _ _ _ _ Hl), Hs|].
  apply Forall_lookup. intros i' q. rewrite list_lookup_insert_Some.
  intros [(<- & <- & _)|[Hne Hq]]; [destruct Hnext as [->|[e ->]]; [by exists (S k)|done]|].
  pose proof (Forall_lookup_1 _ _ _ _ Hps Hq) as Hok.
  destruct q as [| |todo|m' r'|m' r'|m' r'|m' r'|[[]|e]]; simpl in *; try done;
    try (destruct Hok as (j & Hj & Hd); exists j; split; [lia|done]).
  - by destruct (Hne (Hw _ _ _ _ _ _ Hi Hq)).
  - lia.
Qed.

Lemma step_start_ok f c c' : step root ReadDir f c c' -> start_ok c -> start_ok c'.
Proof.
  intros Hstep (k & Hm & Hps & Hw). destruct Hstep as [d ps i p d' p' Hi Hb Hrun]. simpl in *.
  pose proof Hm as (Hk & Hv & Hs). pose proof (Forall_lookup_1 _ _ _ _ Hps Hi) as Hp.
  assert (Hquiet : forall d' p', schema_migrations d' = schema_migrations d -> schema d' = schema d ->
    proc_ok k p' -> (forall m r, p' <> Committing m r) -> start_ok (d', <[i := p']> ps))
    by (intros; by eapply quiet_step_ok).
  destruct p as [| |[|m rest]|m rest|m rest|m rest|m rest|r]; simpl in *; simplify_eq.
  - apply Hquiet; by destruct f.
  - rewrite Hitems. apply Hquiet; try done. exists 0%nat. split; [lia|done].
  - apply Hquiet; try done. destruct Hp as (j & Hj & Hd). simpl.
    apply (f_equal length) in Hd. rewrite length_drop in Hd. simpl in Hd. lia.
  - destruct Hp as (j & Hj & Hd). pose proof (drop_cons_lookup _ _ _ _ Hd) as [Hl Hr].
    unfold inspect, isApplied in *. destruct f as [e|]; simplify_eq; [by apply Hquiet|].
    case_bool_decide as Hin; simplify_eq; apply Hquiet; try done.
    + apply (version_recorded k _ j m) in Hin; [|done..]. exists (S j). split; [lia|done].
    + by exists j.
  - apply Hquiet; by destruct f.
  - apply Hquiet; by destruct f.
  - destruct Hp as (j & Hj & Hd). pose proof (drop_cons_lookup _ _ _ _ Hd) as [Hl Hr].
    unfold record_version. destruct f as [e|]; [by apply Hquiet|].
    case_decide as Hin; [by apply Hquiet|].
    assert (j = k) as -> by (rewrite (version_recorded k _ j m) in Hin by done; lia).
    by apply (record_step_ok k).
  - unfold commit in *. destruct f as [[e|e]|]; simplify_eq; [by apply Hquiet|..];
      eapply (commit_step_ok k); eauto.
Qed.
End order.

(** ** What discovery gives *)

Lemma discover_loop_names root entries items out :
  discover_loop root entries items = Ok out ->
  exists new, out = items ++ new /\ (version <$> new) `sublist_of` (de_Name <$> entries).
Proof.
  revert items. induction entries as [|e es IH]; intros items; simpl.
  { intros [= <-]. exists []. by rewrite app_nil_r. }
  case_decide.
  { intros (new & -> & Hs)%IH. exists new. split; [done|]. by apply sublist_cons. }
  destruct (de_ReadFile e); [|done]. intros (new & -> & Hs)%IH.
  exists (mkMigration (de_Name e) (root +:+ "/" +:+ de_Name e) v :: new). rewrite <- (assoc (++)).
  split; [done|]. simpl. by apply sublist_skip.
Qed.

Lemma discover_spec `{SortSlice} root entries items :
  NoDup (de_Name <$> entries) -> discover root (Ok entries) = Ok items ->
  NoDup (version <$> items) /\ sorted_by (string_less_on version) items.
Proof.
  intros Hnd. unfold discover. destruct (discover_loop root entries []) as [out|] eqn:Ho; [|done].
  intros [= <-]. apply discover_loop_names in Ho as (new & -> & Hs). simpl. split.
  - rewrite (sort_Slice_perm _ new). by eapply sublist_NoDup.
  - apply sort_Slice_sorted. apply string_less_on_weak_order.
Qed.

(** Recorded versions stay. *)
Lemma starting_prefix `{SortSlice} root ReadDir c c' :
  rtc (starting root ReadDir) c c' -> schema_migrations c.1 `prefix_of` schema_migrations c'.1.
Proof.
  induction 1 as [|x y z [f Hs] _ IH]; [done|]. etrans; [|exact IH].
  destruct Hs as [d ps i p d' p' Hi Hb Hrun]. simpl.
  destruct p as [| |[|m rest]|m rest|m rest|m rest|m rest|r]; simpl in Hrun; simplify_eq; try done.
  - unfold inspect, isApplied in *. destruct f; simplify_eq; [done|]. by case_bool_decide; simplify_eq.
  - unfold commit in *. destruct f as [[]|]; simplify_eq; simpl; [done|by apply prefix_app_r..].
Qed.

(** C13. However many servers start at the same time, and whatever statements fail, with the
    commits that took effect all the same: the
    migrations that took effect are the first so many files in the order of their
    names, each recorded once and run once, and a server that started has them all. *)
Theorem migrations_in_order `{SortSlice} root entries items n k0 d0 d ps :
  NoDup (de_Name <$> entries) -> discover root (Ok entries) = Ok items ->
  migrated items k0 d0 ->
  rtc (starting root (Ok entries)) (d0, replicate n Preparing) (d, ps) ->
  (exists k, (k0 <= k)%nat /\ schema_migrations d = take k (version <$> items) /\
     schema d = take k (body <$> items)) /\
  NoDup (schema_migrations d) /\ sorted_by (string_less_on version) items /\
  (forall i, ps !! i = Some (Done (Ok tt)) -> schema_migrations d = version <$> items).
Proof.
  intros Hnd Hdisc Hk0 Hsteps. destruct (discover_spec _ _ _ Hnd Hdisc) as [Hn Hsorted].
  assert (Hok : start_ok items (d, ps)).
  { eapply (rtc_invariant _ (start_ok items)); [|exact Hsteps|].
    - intros c c' [f Hs]. by eapply step_start_ok.
    - exists k0. split_and!; [done|by apply Forall_replicate|]. simpl.
      intros i i' m m' r r' [? _]%lookup_replicate. done. }
  destruct Hok as (k & (Hk & Hv & Hs) & Hps & _). simpl in *.
  pose proof (starting_prefix _ _ _ _ Hsteps) as Hpre. destruct Hk0 as (Hk0 & Hv0 & _). simpl in *.
  split_and!; [exists k; split_and!; [|done..]| |done|].
  - apply prefix_length in Hpre. rewrite Hv0, Hv, !length_take, length_fmap in Hpre. lia.
  - rewrite Hv. eapply sublist_NoDup; [exact Hn|apply sublist_take].
  - intros i Hi. pose proof (Forall_lookup_1 _ _ _ _ Hps Hi) as Hp. simpl in Hp. subst.
    by rewrite Hv, take_ge by (by rewrite length_fmap).
Qed.

(** ** Start-ups end *)

(** How many statements a start-up can still make. *)
Definition steps_left (n : nat) (p : proc) : nat :=
  match p with
  | Preparing => 5 * n + 3
  | Discovering => 5 * n + 2
  | Inspecting todo => 5 * length todo + 1
  | Beginning _ rest => 5 * length rest + 5
  | Executing _ rest => 5 * length rest + 4
  | Recording _ rest => 5 * length rest + 3
  | Committing _ rest => 5 * length rest + 2
  | Done _ => 0
  end%nat.

Definition is_done (p : proc) : Prop := match p with Done _ => True | _ => False end.

#[export] Instance is_done_dec p : Decision (is_done p).
Proof. destruct p; apply _. Defined.

(** The statement that a start-up makes when nothing stops it. *)
Lemma run_goes_on `{SortSlice} root ReadDir d p :
  ~ is_done p -> exists d' p', run root ReadDir d p None = Some (d', p').
Proof.
  intros Hp. destruct p as [| |[|m rest]|m rest|m rest|m rest|m rest|r]; try done; simpl; eauto.
  destruct (inspect d m rest None) as [d' p']. eauto.
Qed.

Lemma not_blocked `{SortSlice} root ReadDir d ps i p :
  ps !! i = Some p -> ~ is_done p -> ~ blocked ps p -> exists c', step root ReadDir None (d, ps) c'.
Proof.
  intros Hi Hp Hb. destruct (run_goes_on root ReadDir d p Hp) as (d' & p' & Hr).
  exists (d', <[i := p']> ps). by econstructor.
Qed.

(** A start-up ends: together the servers make a bounded number of statements, and
    as long as one of them is not done some server can go on, so that none waits
    for another for ever. *)
Theorem startups_end `{SortSlice} root ReadDir n m d0 d ps :
  nsteps (starting root ReadDir) m (d0, replicate n Preparing) (d, ps) ->
  let files := match discover root ReadDir with Ok items => length items | Err _ => 0%nat end in
  (m <= n * (5 * files + 3))%nat /\
  (Forall is_done ps \/ exists c', step root ReadDir None (d, ps) c').
Proof.
  intros Hsteps files. split.
  - assert (Hdec : forall x y, starting root ReadDir x y ->
      (sum_list_with (steps_left files) y.2 < sum_list_with (steps_left files) x.2)%nat).
    { intros x y [f [e qs i p d' p' Hi Hb Hrun]]. simpl.
      pose proof (sum_change (steps_left files) qs i p p' Hi) as Hsum.
      enough (steps_left files p' < steps_left files p)%nat by lia.
      destruct p as [| |[|a rest]|a rest|a rest|a rest|a rest|r]; simpl in Hrun; simplify_eq; simpl;
        unfold ensureVersionTable, record_version, inspect, isApplied, commit in *;
        repeat (case_match; simplify_eq); simpl; unfold files; try rewrite H1; simpl; lia. }
    pose proof (measure_bound _ (fun c => sum_list_with (steps_left files) c.2) _ _ _ Hdec Hsteps) as Hm.
    simpl in Hm. assert (Hrep : sum_list_with (steps_left files) (replicate n Preparing) = (n * (5 * files + 3))%nat).
    { clear. induction n as [|n IH]; simpl in *; lia. }
    lia.
  - destruct (decide (Forall is_done ps)) as [|He]; [by left|]. right.
    apply not_Forall_Exists, Exists_exists in He as (p & (i & Hi)%list_elem_of_lookup_1 & Hp); [|apply _].
    destruct p as [| |todo|a rest|a rest|a rest|a rest|r]; try by eapply not_blocked.
    + (* the holder of a version that another start-up waits for can commit *)
      destruct (decide (Exists (holds_version (version a)) ps)) as [Hb|Hb]; [|by eapply not_blocked].
      apply Exists_exists in Hb as (q & (j & Hj)%list_elem_of_lookup_1 & Hq).
      destruct q; try done. eapply not_blocked; [exact Hj|by intros []|by intros []].
    + by destruct Hp.
Qed.

(** ** Two servers and a new migration *)

Section race.
Context `{SortSlice} (root : string) (ReadDir : result (list DirEntry)).

(** Start-up [i] of two makes its next statement, and nothing fails. *)
Lemma race_step d ps i p d' p' :
  ps !! i = Some p -> (forall m r, p <> Recording m r) -> run root ReadDir d p None = Some (d', p') ->
  step root ReadDir None (d, ps) (d', <[i := p']> ps).
Proof.
  intros Hi Hp Hr. econstructor; [done| |done]. by destruct p; try (intros []; fail); destruct (Hp m rest).
Qed.

(** Nothing serialises start-ups between the lookup of a version and the
    transaction that records it: without any statement failing, two servers both go
    into the first new migration, and one of the start-ups ends with the error of a
    duplicate key. *)
Theorem concurrent_start_fails m rest :
  discover root ReadDir = Ok (m :: rest) ->
  exists d ps, rtc (step root ReadDir None) (mkDatabase [] [] [], [Preparing; Preparing]) (d, ps) /\
    observed d = [version m; version m] /\
    ps !! 1%nat = Some (Done (Err (Errorf ("record migration " +:+ version m +:+ ": ")
      (unique_violation "schema_migrations_pkey") ""))).
Proof.
  intros Hd.
  assert (Hgo : forall d ps i p d' p' c, ps !! i = Some p -> (forall m r, p <> Recording m r) ->
    run root ReadDir d p None = Some (d', p') ->
    rtc (step root ReadDir None) (d', <[i := p']> ps) c -> rtc (step root ReadDir None) (d, ps) c).
  { intros d ps i p d' p' c Hi Hp Hr Hc. eapply rtc_l; [|exact Hc]. by eapply race_step. }
  assert (Hdisc : forall d, run root ReadDir d Discovering None = Some (d, Inspecting (m :: rest)))
    by (intros d; simpl; by rewrite Hd).
  eexists _, _. split; [|split; [|]].
  - (* both look the version up *)
    eapply (Hgo _ _ 0%nat); [done|done|done|]. eapply (Hgo _ _ 0%nat); [done|done|apply Hdisc|].
    eapply (Hgo _ _ 1%nat); [done|done|done|]. eapply (Hgo _ _ 1%nat); [done|done|apply Hdisc|].
    eapply (Hgo _ _ 0%nat); [done|done|done|]. eapply (Hgo _ _ 1%nat); [done|done|done|].
    (* the first one applies it *)
    eapply (Hgo _ _ 0%nat); [done|done|done|]. eapply (Hgo _ _ 0%nat); [done|done|done|].
    eapply rtc_l.
    { eapply (step_run _ _ _ _ _ 0%nat); [done| |done]. simpl. rewrite !Exists_cons, Exists_nil. simpl. tauto. }
    simpl. eapply (Hgo _ _ 0%nat); [done|done|done|].
    (* then the second one tries to *)
    eapply (Hgo _ _ 1%nat); [done|done|done|]. eapply (Hgo _ _ 1%nat); [done|done|done|].
    eapply rtc_l.
    { eapply (step_run _ _ _ _ _ 1%nat); [done| |done]. simpl. rewrite !Exists_cons, Exists_nil. simpl. tauto. }
    simpl. apply rtc_refl.
  - done.
  - simpl. unfold record_version. simpl. rewrite decide_True by set_solver. done.
Qed.
End race.

(** ** A concrete directory *)

(** A start-up alone, [n] statements without failure. *)
Fixpoint run_alone `{SortSlice} (root : string) (ReadDir : result (list DirEntry)) (n : nat)
    (d : database) (p : proc) : database * proc :=
  match n with
  | O => (d, p)
  | S n =>
      match run root ReadDir d p None with
      | Some (d', p') => run_alone root ReadDir n d' p'
      | None => (d, p)
      end
  end.

Lemma run_alone_starting `{SortSlice} root ReadDir n d p d' p' :
  run_alone root ReadDir n d p = (d', p') ->
  rtc (starting root ReadDir) (d, [p]) (d', [p']).
Proof.
  revert d p. induction n as [|n IH]; intros d p; simpl; [intros [= <- <-]; apply rtc_refl|].
  destruct (run root ReadDir d p None) as [[d1 p1]|] eqn:Hr; [|intros [= <- <-]; apply rtc_refl].
  intros Hrest%IH. eapply rtc_l; [|exact Hrest]. exists None.
  apply (step_run root ReadDir None d [p] 0 p d1 p1); [done| |done].
  destruct p; simpl; rewrite ?Exists_cons, ?Exists_nil; simpl; tauto.
Qed.

Section example.
#[local] Existing Instance stable_sort.

Definition sample_dir : list DirEntry :=
  [mkDirEntry "002_seed.sql" false (Ok "INSERT ..."); mkDirEntry "README.md" false (Ok "");
   mkDirEntry "001_core.sql" false (Ok "CREATE ..."); mkDirEntry "old" true (Err (ErrText "is a directory"))].

Definition sample_items : list migration :=
  [mkMigration "001_core.sql" "migrations/001_core.sql" "CREATE ...";
   mkMigration "002_seed.sql" "migrations/002_seed.sql" "INSERT ..."].

Lemma migrations_in_order_witness :
  let out := run_alone "migrations" (Ok sample_dir) 20 (mkDatabase [] [] []) Preparing in
  out.2 = Done (Ok tt) /\ schema_migrations out.1 = ["001_core.sql"; "002_seed.sql"].
Proof.
  split; [vm_compute; reflexivity|].
  destruct (migrations_in_order "migrations" sample_dir sample_items 1 0 (mkDatabase [] [] [])
    (run_alone "migrations" (Ok sample_dir) 20 (mkDatabase [] [] []) Preparing).1
    [(run_alone "migrations" (Ok sample_dir) 20 (mkDatabase [] [] []) Preparing).2]) as (_ & _ & _ & Hdone).
  - apply (bool_decide_unpack _). vm_compute. exact I.
  - vm_compute. reflexivity.
  - split_and!; [simpl; lia|reflexivity|reflexivity].
  - apply (run_alone_starting _ _ 20). apply surjective_pairing.
  - apply (Hdone 0%nat). vm_compute. reflexivity.
Defined.

Lemma startups_end_witness :
  exists d ps, nsteps (starting "migrations" (Ok sample_dir)) 1
    (mkDatabase [] [] [], replicate 2 Preparing) (d, ps) /\
  (1 <= 2 * (5 * 2 + 3))%nat /\
  (Forall is_done ps \/ exists c', step "migrations" (Ok sample_dir) None (d, ps) c').
Proof.
  exists (mkDatabase [] [] []), [Discovering; Preparing].
  assert (Hn : nsteps (starting "migrations" (Ok sample_dir)) 1
    (mkDatabase [] [] [], replicate 2 Preparing) (mkDatabase [] [] [], [Discovering; Preparing])).
  { apply nsteps_once. exists None. 
    apply (step_run _ _ None (mkDatabase [] [] []) (replicate 2 Preparing) 0 Preparing _ Discovering);
      [done|by intros []|done]. }
  split; [exact Hn|]. exact (startups_end "migrations" (Ok sample_dir) 2 1 _ _ _ Hn).
Defined.

Lemma concurrent_start_fails_witness :
  exists d ps, rtc (step "migrations" (Ok sample_dir) None)
    (mkDatabase [] [] [], [Preparing; Preparing]) (d, ps) /\
  observed d = ["001_core.sql"; "001_core.sql"].
Proof.
  destruct (concurrent_start_fails "migrations" (Ok sample_dir)
    (mkMigration "001_core.sql" "migrations/001_core.sql" "CREATE ...")
    [mkMigration "002_seed.sql" "migrations/002_seed.sql" "INSERT ..."]) as (d & ps & Hs & Ho & _).
  - vm_compute. reflexivity.
  - exists d, ps. split; [exact Hs|exact Ho].
Defined.
End example.
