(* ===== verification/outbox.v ===== *)
(** * The outbox over PostgreSQL

    What becomes of events whose worker stops between claiming them and marking them
    ([internal/worker/outbox.go] over [internal/repository/postgres/outbox.go]). *)

From S2P Require Import Prelude.
From S2P Require Import golang.
From S2P Require Import domain.
From S2P Require Import external.
From S2P Require Import repository.
From S2P Require Import sql.
From S2P Require Import postgres.
From S2P Require Import worker.

Open Scope string_scope.
Open Scope list_scope.
Open Scope Z_scope.

Section stranded.
Context `{External} `{Server}.
Implicit Types (s : postgres.Store) (v e : OutboxEvent).

(** An event that a worker has taken and nobody has published. *)
Definition taken v : Prop := ob_ClaimedAt v <> None /\ ob_PublishedAt v = None.

(** The row of an event. *)
Definition row_of s (id : string) : option OutboxEvent := outbox_events (db s) !! id.

(** A claim leaves the rows that are taken alone and does not answer with them; what
    it answers with is stored, and taken. *)
Lemma claim_outbox_rows order now n d d' evs :
  consistent d -> claim_outbox order now n d = Ok (d', evs) ->
  (forall id v, outbox_events d !! id = Some v -> taken v -> outbox_events d' !! id = Some v /\
     forall e, e ∈ evs -> ob_ID e <> id) /\
  (forall e, e ∈ evs -> outbox_events d' !! ob_ID e = Some e /\ taken e).
Proof.
  intros Hd Hq. unfold claim_outbox, first_rows in Hq. case_decide; [done|].
  set (picked := take _ _) in Hq.
  case_decide; [|done]. injection Hq as <- <-.
  assert (Hready : forall w, w ∈ picked -> ready now w).
  { intros w Hw. apply elem_of_take in Hw as (i & Hw & _). apply list_elem_of_lookup_2 in Hw.
    rewrite SliceStable_perm in Hw. by apply list_elem_of_filter in Hw as [Hw _]. }
  assert (Hid : forall k w, outbox_events d !! k = Some w -> ob_ID w = k).
  { intros k w Hw. destruct (outbox_rows _ Hd _ _ Hw). done. }
  assert (Hans : forall e, e ∈ claim_row now <$> filter (.∈ picked) (range_values (outbox_events d) order) ->
    exists w, e = claim_row now w /\ w ∈ picked /\ outbox_events d !! ob_ID w = Some w).
  { intros e (w & -> & [Hw Hin]%list_elem_of_filter)%list_elem_of_fmap. exists w. split_and!; [done..|].
    apply list_elem_of_omap in Hin as (k & _ & Hk). by rewrite (Hid _ _ Hk). }
  split.
  - intros id v Hv [Hc Hp]. split.
    + destruct d; simpl in *. rewrite lookup_fmap, Hv. simpl. rewrite decide_False; [done|].
      intros [_ [Hr _]]%Hready. done.
    + intros e He. destruct (Hans e He) as (w & -> & Hw & Hk). intros Hidw.
      destruct w. simpl in *. subst id. rewrite Hv in Hk. injection Hk as ->.
      apply Hready in Hw as [_ [Hr _]]. done.
  - intros e He. destruct (Hans e He) as (w & -> & Hw & Hk). split.
    + destruct d; simpl in *. destruct w as [i]. simpl in *.
      rewrite lookup_fmap, Hk. simpl. by rewrite decide_True.
    + destruct (Hready w Hw) as [Hp _]. destruct w. simpl in *. by split.
Qed.

Lemma Claim_rows order now n s s' r :
  consistent (db s) -> Claim order now n s = (s', r) ->
  (forall id v, row_of s id = Some v -> taken v -> row_of s' id = Some v /\
     forall evs e, r = Ok evs -> e ∈ evs -> ob_ID e <> id) /\
  (forall evs e, r = Ok evs -> e ∈ evs -> row_of s' (ob_ID e) = Some e /\ taken e).
Proof.
  intros Hs Hc. unfold row_of. apply transaction_inv in Hc.
  assert (Hran : forall s1 s2 out, db s1 = db s -> (
    out <-? attempt (claim_outbox order now n) ;; _ <-? rows_Err ;; returns (Ok out)) s1 = (s2, Ok out) ->
    db s' = db s2 -> claim_outbox order now n (db s) = Ok (db s', out)).
  { intros s1 s2 out H1 Hbody ->.
    apply ok_bind_inv in Hbody as [(e & _ & [=])|(s3 & out' & Ha & Hbody)].
    apply attempt_inv in Ha. rewrite H1 in Ha.
    apply ok_bind_inv in Hbody as [(e & _ & [=])|(s4 & u & Hrows & Hret)].
    injection Hret as <- <-. by apply rows_Err_inv in Hrows as ->. }
  assert (Hrows : forall out, claim_outbox order now n (db s) = Ok (db s', out) ->
    (forall id v, outbox_events (db s) !! id = Some v -> taken v ->
       outbox_events (db s') !! id = Some v /\ forall e, e ∈ out -> ob_ID e <> id) /\
    (forall e, e ∈ out -> outbox_events (db s') !! ob_ID e = Some e /\ taken e)).
  { intros out Ha. exact (claim_outbox_rows _ _ _ _ _ _ Hs Ha). }
  destruct r as [evs|err].
  - destruct Hc as (s1 & s2 & H1 & _ & Hbody & H2).
    destruct (Hrows evs) as [Hkeep Hout]; [by eapply Hran|]. split.
    + intros id v Hv Ht. destruct (Hkeep _ _ Hv Ht) as [Hv' Hids]. split; [done|]. intros ? e [= <-]. apply Hids.
    + intros ? e [= <-]. apply Hout.
  - split; [|done]. intros id v Hv Ht. split; [|done].
    destruct Hc as [->|(out & s2 & s1 & H1 & _ & Hbody & H2 & _)]; [done|].
    destruct (Hrows out) as [Hkeep _]; [by eapply Hran|]. by apply Hkeep.
Qed.

(** A mark changes the row of its event only. *)
Lemma mark_rows (q : stmt Z) (id' : string) s s' r :
  (forall d d' n, q d = Ok (d', n) -> forall id, id <> id' -> outbox_events d' !! id = outbox_events d !! id) ->
  (_ <-? attempt q ;; returns (Ok tt)) s = (s', r) ->
  forall id, id <> id' -> row_of s' id = row_of s id.
Proof.
  intros Hq Hr id Hid. unfold row_of.
  apply ok_bind_inv in Hr as [(e & Ha & _)|(s1 & n & Ha & [= <- _])]; apply attempt_inv in Ha; [|by eapply Hq].
  destruct Ha as [->|[[n Ha] _]]; [done|by eapply Hq].
Qed.

Lemma MarkPublished_rows id' at_ s s' r : MarkPublished id' at_ s = (s', r) ->
  forall id, id <> id' -> row_of s' id = row_of s id.
Proof.
  apply mark_rows. intros d d' n Hq id Hid. unfold publish_outbox, bound in Hq.
  case_decide; [|done]. destruct (outbox_events d !! id') as [[]|]; injection Hq as <- _; [|done]. destruct d. simpl.
  by rewrite lookup_insert_ne.
Qed.

Lemma MarkFailed_rows id' at_ msg s s' r : MarkFailed id' at_ msg s = (s', r) ->
  forall id, id <> id' -> row_of s' id = row_of s id.
Proof.
  apply mark_rows. intros d d' n Hq id Hid. unfold fail_outbox, bound in Hq.
  case_decide; [|done]. destruct (outbox_events d !! id') as [[]|]; injection Hq as <- _; [|done]. destruct d. simpl.
  by rewrite lookup_insert_ne.
Qed.

Lemma run_Call {X A} (op : storeop X) (k : X -> prog A) s :
  run (Call op k) s = let '(s', x) := exec op s in run (k x) s'.
Proof. done. Qed.

(** The marks of a tick leave the other rows alone. *)
Lemma tick_loop_rows ctx now i evs id s :
  consistent (db s) -> (forall e, e ∈ evs -> ob_ID e <> id) ->
  consistent (db (run (tick_loop ctx now i evs) s).1) /\
  row_of (run (tick_loop ctx now i evs) s).1 id = row_of s id.
Proof.
  revert i s. induction evs as [|ev evs IH]; intros i s Hs Hid; [done|].
  assert (Hev : id <> ob_ID ev) by (intros ->; by apply (Hid ev); [left|]).
  assert (Hrest : forall e, e ∈ evs -> ob_ID e <> id) by set_solver.
  simpl. destruct (publish (ctx i) ev) as [err|]; rewrite run_Call;
    destruct (exec _ s) as [s1 x] eqn:Hx; pose proof (exec_consistent _ _ _ _ _ Hs Hx) as Hs1;
    destruct (IH (S i) s1 Hs1 Hrest) as [? ->]; (split; [done|]).
  - by eapply MarkFailed_rows.
  - by eapply MarkPublished_rows.
Qed.

Lemma tick_rows ctx order now id v s :
  consistent (db s) -> row_of s id = Some v -> taken v ->
  consistent (db (run (tick ctx order now) s).1) /\ row_of (run (tick ctx order now) s).1 id = Some v.
Proof.
  intros Hs Hv Ht. unfold tick. rewrite run_Call. destruct (exec _ s) as [s1 r] eqn:Hx.
  pose proof (exec_consistent _ _ _ _ _ Hs Hx) as Hs1.
  destruct (Claim_rows _ _ _ _ _ _ Hs Hx) as [Hkeep _]. destruct (Hkeep _ _ Hv Ht) as [Hv1 Hids].
  destruct r as [evs|err]; [|done].
  destruct (tick_loop_rows ctx now 0 evs id s1 Hs1) as [? ->]; [|done]. intros e. by apply Hids.
Qed.

Lemma Run_rows rounds id v s :
  consistent (db s) -> row_of s id = Some v -> taken v -> row_of (run (Run rounds) s).1 id = Some v.
Proof.
  revert s. induction rounds as [|[| |ctx order now] rounds IH]; intros s Hs Hv Ht; try done.
  cbn [Run]. rewrite run_bind. destruct (run (tick ctx order now) s) as [s1 u] eqn:Hr.
  destruct (tick_rows ctx order now id v s Hs Hv Ht) as [Hs1 Hv1]. rewrite Hr in Hs1, Hv1. by apply IH.
Qed.

(** A statement that the server or the driver refuses. *)
Definition refused (f : fate) : Prop := exists err : error, f = Refused err.

Lemma refused_mark (q : stmt Z) s (e : error) fs : faults s = Refused e :: fs ->
  (_ <-? attempt q ;; returns (Ok tt)) s = (postgres.mkStore (db s) fs, Err e).
Proof. intros Hf. unfold ok_bind, attempt, next_fault. by rewrite Hf. Qed.

Lemma tick_loop_refused ctx now i evs s :
  Forall refused (faults s) -> (length evs <= length (faults s))%nat ->
  db (run (tick_loop ctx now i evs) s).1 = db s.
Proof.
  revert i s. induction evs as [|ev evs IH]; intros i s Hf Hl; [done|].
  destruct s as [d [|f fs]]; simpl in Hl; [lia|]. inversion_clear Hf as [|? ? [e ->] Hfs].
  simpl. destruct (publish (ctx i) ev); rewrite run_Call; unfold exec, postgres_store;
    unfold MarkFailed, MarkPublished; (erewrite refused_mark by done); apply (IH (S i)); simpl; done || lia.
Qed.

(** C35. A tick whose statements fail after its claim, as they do when the server's
    context is cancelled, strands the events it claimed: no round of any worker,
    with any luck, publishes or releases them again. *)
Theorem cancelled_tick_strands ctx order now s s1 evs e rounds fs :
  consistent (db s) -> Claim order now 20 s = (s1, Ok evs) ->
  Forall refused (faults s1) -> (length evs <= length (faults s1))%nat -> e ∈ evs ->
  let s2 := (run (tick ctx order now) s).1 in
  let s3 := (run (Run rounds) (postgres.mkStore (db s2) fs)).1 in
  row_of s3 (ob_ID e) = Some e /\ ob_PublishedAt e = None /\ ob_ClaimedAt e <> None.
Proof.
  intros Hs Hc Hf Hl He s2 s3.
  destruct (Claim_rows _ _ _ _ _ _ Hs Hc) as [_ Hout]. destruct (Hout _ _ eq_refl He) as [Hrow Ht].
  assert (Hs2 : db s2 = db s1).
  { unfold s2, tick. rewrite run_Call. unfold exec, postgres_store. rewrite Hc. by apply tick_loop_refused. }
  split; [|split; apply Ht]. apply Run_rows; [|unfold row_of; simpl; by rewrite Hs2|done].
  simpl. rewrite Hs2. by eapply (exec_consistent _ (repository.Claim order now 20)).
Qed.
End stranded.
