(* ===== verification/stores.v ===== *)
(** * The two stores

    [repository/postgres] next to [repository/memory]: the PostgreSQL store keeps
    the contract and leaves nothing half done when it fails, the two stores decide a
    booking the same way, and where they differ. *)

From S2P Require Import Prelude.
From S2P Require Import golang.
From S2P Require Import utf8.
From S2P Require Import domain.
From S2P Require Import external.
From S2P Require Import repository.
From S2P Require Import memory.
From S2P Require Import sql.
From S2P Require Import postgres.
From S2P Require Import service.
From S2P Require Import interleave.
From S2P Require Import system.
From S2P Require outbox.
From S2P Require worker.

Open Scope string_scope.
Open Scope list_scope.
Open Scope Z_scope.

Section agreement.
Context `{External} `{Server}.
Implicit Types (d : DB) (m : memory.Store).

(** The in-memory booking in the words of the other store. *)
Lemma memory_booking m d tenant sid lid sv lv at_ :
  memory.shipments m = shipments d -> memory.legs m = flight_legs d ->
  memory.BookShipment tenant sid lid sv lv at_ m =
  match shipment_of tenant sid d, leg_of tenant lid d with
  | Some s, Some l =>
      match booking_refused s l sv lv with
      | Some e => (m, Err e)
      | None =>
          (memory.with_shipments (<[sid := booked_on lid at_ s]> (memory.shipments m))
             (memory.with_legs (<[lid := reserved_on (sh_WeightKg s) l]> (memory.legs m)) m),
           Ok (booked_on lid at_ s))
      end
  | _, _ => (m, Err ErrNotFound)
  end.
Proof.
  intros Hs Hl. unfold memory.BookShipment, shipment_of, leg_of, booking_refused.
  rewrite Hs, Hl. destruct (shipments d !! sid) as [s|]; simpl; [|done].
  destruct (flight_legs d !! lid) as [l|]; simpl; repeat case_decide; try done; try congruence;
    destruct (negb _ || _); try done; destruct (ValidateCapacity _ _); try done; destruct m; simpl in *; by rewrite Hs.
Qed.

(** A statement whose requirements all hold goes through. *)
Lemma checked_pass {A} cs d (v : A) : Forall (fun c => c.1 = true) cs -> checked cs d v = Ok (d, v).
Proof. intros Hcs. by apply checked_Ok. Qed.

(** The hash of a token is a text. *)
Lemma hash_text token : valid_text (HashToken token).
Proof. split; [apply ascii_valid|apply ascii_no_nul]; apply hex_encode_ascii. Qed.

(** The numbers of a booking are in the range of [bigint]. *)
Definition in_range (s : Shipment) (l : FlightLeg) : Prop :=
  in_int64 (sh_Version s + 1) /\ in_int64 (leg_Version l + 1) /\
  in_int64 (leg_ReservedKg l + sh_WeightKg s).

(** The database after a booking. *)
Definition booked_db (sid lid : string) (s : Shipment) (l : FlightLeg) (at_ : Time) d : DB :=
  sql.with_shipments (<[sid := booked_on lid (timestamptz at_) s]> (shipments d))
    (with_flight_legs (<[lid := reserved_on (sh_WeightKg s) l]> (flight_legs d)) d).

(** The two updates of a booking go through. *)
Lemma booking_updates d tenant sid lid s l at_ :
  consistent d -> shipment_of tenant sid d = Some s -> leg_of tenant lid d = Some l ->
  in_range s l -> valid_texts [tenant; sid; lid] ->
  exists d1, load_leg tenant lid (sh_WeightKg s) d = Ok (d1, 1) /\
    book_shipment tenant sid ShipmentBooked lid at_ d1 = Ok (booked_db sid lid s l at_ d, 1).
Proof.
  intros Hd [Hs Ht]%shipment_of_Some [Hl Htl]%leg_of_Some (Hsv & Hlv & Hw) Htx.
  unfold valid_texts in Htx. rewrite !Forall_cons in Htx. destruct Htx as (Ht1 & Ht2 & Ht3 & _).
  destruct (shipments_rows _ Hd _ _ Hs) as (_ & Hw0 & Hp0 & Hten & _).
  destruct (legs_rows _ Hd _ _ Hl) as (_ & _ & Hr0 & _).
  unfold load_leg, store_leg. rewrite bound_valid by texts. rewrite Hl, decide_True by done.
  rewrite checked_pass by (unfold in_int64 in *; rewrite !Forall_cons, Forall_nil, !require_true; by split_and!; try lia).
  destruct d as [ts us ss lg sh cu se au ob]; simpl in *.
  eexists. split; [done|]. unfold book_shipment.
  rewrite bound_valid by texts. simpl. rewrite Hs, decide_True by done.
  rewrite checked_pass; [unfold booked_db, booked_on, reserved_on; simpl; rewrite !add64_exact by done; by destruct l|]. unfold shipment_checks, shipment_references. simpl.
  rewrite !Forall_cons, Forall_nil, !require_true. destruct s; simpl in *.
  split_and!; try done. apply has_insert. by exists l.
Qed.

(** The booking of the PostgreSQL store while nothing fails. *)
Lemma postgres_booking d tenant sid lid sv lv at_ :
  consistent d -> valid_texts [tenant; sid; lid] ->
  (forall s l, shipment_of tenant sid d = Some s -> leg_of tenant lid d = Some l -> in_range s l) ->
  match shipment_of tenant sid d, leg_of tenant lid d with
  | Some s, Some l =>
      match booking_refused s l sv lv with
      | Some e => postgres.BookShipment tenant sid lid sv lv at_ (quiet d) = (quiet d, Err e)
      | None => postgres.BookShipment tenant sid lid sv lv at_ (quiet d) =
          (quiet (booked_db sid lid s l at_ d), Ok (booked_on lid at_ s))
      end
  | _, _ => postgres.BookShipment tenant sid lid sv lv at_ (quiet d) = (quiet d, Err ErrNotFound)
  end.
Proof.
  intros Hd Htx Hrange. unfold postgres.BookShipment.
  assert (Htx' : valid_text tenant /\ valid_text sid /\ valid_text lid).
  { unfold valid_texts in Htx. rewrite !Forall_cons in Htx. tauto. }
  destruct Htx' as (Ht1 & Ht2 & Ht3).
  match goal with |- context [transaction ?b] => set (body := b) end.
  assert (Hb : exists d' r, body (quiet d) = (quiet d', r) /\
    match shipment_of tenant sid d, leg_of tenant lid d with
    | Some s, Some l =>
        match booking_refused s l sv lv with
        | Some e => r = Err e
        | None => r = Ok s /\ d' = booked_db sid lid s l at_ d
        end
    | _, _ => r = Err ErrNotFound
    end).
  { unfold body, ok_bind. rewrite find_row_quiet by texts.
    destruct (shipment_of tenant sid d) as [s|] eqn:Hs; [|by eexists _, _].
    rewrite find_row_quiet by texts. destruct (leg_of tenant lid d) as [l|] eqn:Hl; [|by eexists _, _].
    destruct (booking_refused s l sv lv) eqn:Hr; [by eexists _, _|].
    destruct (booking_updates d tenant sid lid s l at_) as (d1 & H1 & H2); [by auto..|].
    rewrite attempt_quiet, H1, attempt_quiet, H2. by eexists _, _. }
  destruct Hb as (d' & r & Hb & Hr). unfold ok_bind. rewrite (transaction_quiet _ _ _ _ Hb).
  destruct (shipment_of tenant sid d) as [s|]; [|by subst].
  destruct (leg_of tenant lid d) as [l|]; [|by subst].
  destruct (booking_refused s l sv lv); [by subst|]. by destruct Hr as [-> ->].
Qed.

(** Both stores decide a booking the same way: on the same shipments and legs, with
    numbers and texts of the database, they give the same answer or the same
    error, and leave the same shipments and legs when the instant of the booking is
    a whole number of microseconds. *)
Theorem stores_agree_on_bookings m d tenant sid lid sv lv at_ :
  consistent d -> memory.shipments m = shipments d -> memory.legs m = flight_legs d ->
  valid_texts [tenant; sid; lid] ->
  (forall s l, shipment_of tenant sid d = Some s -> leg_of tenant lid d = Some l -> in_range s l) ->
  timestamptz at_ = at_ ->
  let out := memory.BookShipment tenant sid lid sv lv at_ m in
  let out' := postgres.BookShipment tenant sid lid sv lv at_ (quiet d) in
  out'.2 = out.2 /\ shipments (db out'.1) = memory.shipments out.1 /\
  flight_legs (db out'.1) = memory.legs out.1.
Proof.
  intros Hd Hs Hl Htx Hrange Hat. cbv zeta. rewrite (memory_booking m d) by done.
  pose proof (postgres_booking d tenant sid lid sv lv at_ Hd Htx Hrange) as Hp.
  destruct (shipment_of tenant sid d) as [s|] eqn:Hsh; [|by rewrite Hp].
  destruct (leg_of tenant lid d) as [l|] eqn:Hlg; [|by rewrite Hp].
  destruct (booking_refused s l sv lv) eqn:Href; [by rewrite Hp|].
  rewrite Hp. split; [done|]. simpl. unfold booked_db. rewrite Hat, Hs, Hl. by destruct m, d.
Qed.

(** ** Writes of the PostgreSQL store while nothing fails *)

Lemma update_quiet d s old :
  consistent d -> shipments d !! sh_ID s = Some old -> sh_TenantID s = sh_TenantID old ->
  sh_IdempotencyKey s = sh_IdempotencyKey old -> sh_CreatedAt s = sh_CreatedAt old ->
  sh_WeightKg s = sh_WeightKg old -> sh_Pieces s = sh_Pieces old -> sh_LegID s = sh_LegID old ->
  in_int4 (sh_Pieces s) -> in_int64 (sh_Version old + 1) -> valid_texts (shipment_texts s) ->
  UpdateShipment s (sh_Version old) (quiet d) =
  (quiet (sql.with_shipments (<[sh_ID s := set_sh_Version (sh_Version old + 1)
     (set_sh_UpdatedAt (timestamptz (sh_UpdatedAt s)) s)]> (shipments d)) d), Ok tt).
Proof.
  intros Hd Hold Ht Hk Hc Hw Hp Hl H4 Hv Htx.
  destruct (shipments_rows _ Hd _ _ Hold) as (Hoid & Hw0 & Hp0 & Hten & Hleg & _).
  unfold UpdateShipment, ok_bind. rewrite attempt_quiet. unfold update_shipment.
  rewrite bound_valid by done. rewrite decide_False by tauto. rewrite Hold. destruct s, old; simpl in *. subst.
  rewrite decide_True by done. rewrite checked_pass; [done|].
  unfold shipment_checks, shipment_references. cbn [app].
  rewrite !Forall_cons, Forall_nil, !require_true. by split_and!.
Qed.

(** A customs case is filed under its shipment and keeps the identifier it had. *)
Lemma customs_quiet d c :
  (customs_cases d !! cc_ShipmentID c = None -> no_row (fun r => cc_ID r = cc_ID c) (customs_cases d)) ->
  has (shipments d) (cc_ShipmentID c) -> has_opt (users d) (cc_ReviewedBy c) -> valid_texts (customs_texts c) ->
  let id := match customs_cases d !! cc_ShipmentID c with Some old => cc_ID old | None => cc_ID c end in
  postgres.PutCustoms c (quiet d) =
  (quiet (with_customs_cases (<[cc_ShipmentID c := mkCustomsCase id (cc_ShipmentID c) (cc_Status c)
     (cc_DocumentRef c) (cc_ReviewedBy c) (timestamptz (cc_UpdatedAt c))]> (customs_cases d)) d), Ok tt).
Proof.
  intros Hid Hs Hu Htx. unfold postgres.PutCustoms, ok_bind. rewrite attempt_quiet. unfold put_customs.
  rewrite bound_valid by done.
  destruct c as [id sid st doc by_ at_]; simpl in *.
  destruct (customs_cases d !! sid) as [old|]; rewrite checked_pass; try done;
    rewrite !Forall_cons, Forall_nil, !require_true; split_and!; auto.
Qed.

(** And so is a security check. *)
Lemma security_quiet d c :
  (security_checks d !! sc_ShipmentID c = None -> no_row (fun r => sc_ID r = sc_ID c) (security_checks d)) ->
  has (shipments d) (sc_ShipmentID c) -> has_opt (users d) (sc_OfficerID c) -> valid_texts (security_texts c) ->
  let id := match security_checks d !! sc_ShipmentID c with Some old => sc_ID old | None => sc_ID c end in
  postgres.PutSecurity c (quiet d) =
  (quiet (with_security_checks (<[sc_ShipmentID c := mkSecurityCheck id (sc_ShipmentID c) (sc_Status c)
     (sc_OfficerID c) (sc_Notes c) (timestamptz <$> sc_CheckedAt c)]> (security_checks d)) d), Ok tt).
Proof.
  intros Hid Hs Hu Htx. unfold postgres.PutSecurity, ok_bind. rewrite attempt_quiet. unfold put_security.
  rewrite bound_valid by done.
  destruct c as [id sid st officer notes at_]; simpl in *.
  destruct (security_checks d !! sid) as [old|]; rewrite checked_pass; try done;
    rewrite !Forall_cons, Forall_nil, !require_true; split_and!; auto.
Qed.

(** ** Where they differ *)

(** The keys of a stored leg are texts. *)
Lemma leg_key_texts d id l : consistent d -> flight_legs d !! id = Some l ->
  valid_text id /\ valid_text (leg_TenantID l).
Proof.
  intros Hd Hl. destruct (legs_rows _ Hd _ _ Hl) as (<- & _ & _ & _ & Ht).
  unfold valid_texts, leg_texts in Ht. rewrite !Forall_cons in Ht. tauto.
Qed.

Lemma leg_update_quiet d tenant id status version l :
  consistent d -> flight_legs d !! id = Some l -> leg_TenantID l = tenant ->
  leg_Version l = version -> in_int64 (version + 1) -> in_int64 (leg_ReservedKg l) ->
  valid_text status ->
  UpdateLegStatus tenant id status version (quiet d) =
  (quiet (with_flight_legs (<[id := set_leg_Version (version + 1) (set_leg_Status status l)]>
     (flight_legs d)) d), Ok tt).
Proof.
  intros Hd Hl Ht Hv Hn Hr Hst. destruct (legs_rows _ Hd _ _ Hl) as (_ & _ & Hr0 & _).
  destruct (leg_key_texts _ _ _ Hd Hl) as [Hid Hten]. rewrite Ht in Hten.
  unfold UpdateLegStatus, ok_bind. rewrite attempt_quiet. unfold set_leg_status, store_leg.
  rewrite bound_valid by texts.
  rewrite Hl, decide_True, checked_pass by (done || rewrite !Forall_cons, Forall_nil, !require_true;
    split_and!; try done; by subst).
  unfold affected, returns. simpl. subst. by destruct l.
Qed.

(** A coordinator opens any leg on the PostgreSQL store, whatever its status: its
    update does not consult the status machine and the use case leaves that to the
    store.  The in-memory store refuses what the machine does not allow. *)
Theorem postgres_reopens_legs m d u id l :
  consistent d -> memory.legs m = flight_legs d -> u_Role u = RoleCoordinator ->
  flight_legs d !! id = Some l -> leg_TenantID l = u_TenantID u ->
  Leg_CanTransition (leg_Status l) LegOpen = false ->
  in_int64 (leg_Version l + 1) -> in_int64 (leg_ReservedKg l) ->
  run (OpenLeg u id) m = (m, Err ErrState) /\
  exists d' l', run (OpenLeg u id) (quiet d) = (quiet d', Ok l') /\
    flight_legs d' !! id = Some l' /\ leg_Status l' = LegOpen.
Proof.
  intros Hd Hm Hrole Hl Ht Hcan Hn Hr. unfold OpenLeg. rewrite decide_False by naive_solver. split.
  - simpl. unfold exec, memory_store, memory.GetLeg. rewrite Hm, Hl, decide_False by naive_solver.
    simpl. unfold exec, memory_store, memory.UpdateLegStatus.
    by rewrite Hm, Hl, !decide_False, Hcan by naive_solver.
  - assert (Hget : GetLeg (u_TenantID u) id (quiet d) = (quiet d, Ok l)).
    { destruct (leg_key_texts _ _ _ Hd Hl) as [Hid Hten]. rewrite Ht in Hten.
      unfold GetLeg. rewrite find_row_quiet by texts. unfold leg_of. rewrite Hl. simpl.
      by rewrite decide_True. }
    cbn [run]. unfold exec, postgres_store. rewrite Hget. cbn [run].
    unfold exec, postgres_store. rewrite (leg_update_quiet d _ _ _ _ l) by done.
    eexists _, _. split; [done|]. rewrite add64_exact by done. destruct l, d; simpl in *.
    by rewrite lookup_insert_eq.
Qed.

(** The schema makes the pair of tenant and idempotency key unique, and the store
    writes a missing key as the empty text: a tenant can have one shipment without
    a key, and the next one is refused as a conflict. *)
Theorem one_keyless_shipment d v old :
  consistent d -> shipments d !! sh_ID old = Some old ->
  sh_TenantID old = sh_TenantID v -> sh_IdempotencyKey old = "" -> sh_IdempotencyKey v = "" ->
  sh_WeightKg v > 0 -> sh_Pieces v > 0 -> in_int4 (sh_Pieces v) ->
  valid_texts (sh_IdempotencyKey v :: shipment_texts v) ->
  postgres.CreateShipment v (quiet d) = (quiet d, Err ErrConflict).
Proof.
  intros Hd Hold Ht Hk Hkv Hw Hp H4 Htx. unfold postgres.CreateShipment, result_bind.
  rewrite attempt_quiet. unfold insert_shipment. rewrite bound_valid by done.
  destruct v; simpl in *. unfold checked. simpl.
  rewrite !bool_decide_true by done.
  destruct (decide (has (shipments d) sh_ID)) as [Hid|Hid].
  { rewrite (bool_decide_false (~ has _ _)) by auto. reflexivity. }
  rewrite (bool_decide_true (~ has _ _)) by done. rewrite bool_decide_false; [reflexivity|].
  intros Hno. apply (Hno _ _ Hold). by subst.
Qed.
End agreement.

(** ** The contract, the constraints and failures *)

(** C10. The PostgreSQL store implements the interface: from a consistent database every
    method changes the tables and answers as the contract says, whatever becomes of its
    statements.  A statement, [BEGIN], [COMMIT] or the end of a result set may be refused,
    or take effect while its acknowledgement is lost; a method that reports an error
    has made its change or not, but no part of it, and has not made it unless an
    acknowledgement was lost. *)
Theorem postgres_implements_store `{External} `{Server} X (op : storeop X) (s s' : postgres.Store) x :
  consistent (db s) -> exec op s = (s', x) ->
  store_may op (postgres.view s) x (postgres.view s') /\
  ((forall e, Lost e ∉ faults s) -> store_post op (postgres.view s) x (postgres.view s')).
Proof.
  intros Hs Hop. split; [by eapply postgres.pg_exec_may|]. intros Hl. eapply postgres.pg_exec_post; [done..|].
  destruct (op_error op x) as [e|] eqn:He; [right|by left].
  destruct (postgres.pg_exec_failed _ _ _ _ _ _ Hop He) as [?|[_ (e' & He')]]; [done|]. by destruct (Hl e').
Qed.

(** C11. A method of the PostgreSQL store that returns an error is all or nothing: either
    the database is as it was, or an acknowledgement was lost and the database is as
    the method leaves it when it succeeds.  Neither a refused statement nor a failed
    commit leaves a part of a booking or of a deactivation behind. *)
Theorem postgres_error_is_all_or_nothing `{External} `{Server} X (op : storeop X)
    (s s' : postgres.Store) x e :
  exec op s = (s', x) -> op_error op x = Some e ->
  db s' = db s \/
  (exists y, exec op (quiet (db s)) = (quiet (db s'), y) /\ op_error op y = None) /\
  exists e', Lost e' ∈ faults s.
Proof. apply postgres.pg_exec_failed. Qed.

(** ** A concrete database *)

Section depot.
#[local] Existing Instance sample_external.
#[local] Existing Instance sample_server.

(** A database with tenants only. *)
Definition fresh_db (ts : gmap string Tenant) : DB := mkDB ts ∅ ∅ ∅ ∅ ∅ ∅ ∅ ∅.

Lemma fresh_db_consistent ts : consistent (fresh_db ts).
Proof. split; simpl; try apply map_Forall_empty; by intros ? ? ? ? ?%lookup_empty_Some. Qed.

(** The database after a statement. *)
Definition then_do {A} (q : stmt A) (d : DB) : DB :=
  match q d with Ok (d', _) => d' | Err _ => d end.

Lemma then_do_consistent {A} (q : stmt A) d : keeps q -> consistent d -> consistent (then_do q d).
Proof. intros Hq Hd. unfold then_do. destruct (q d) as [[d' v]|] eqn:E; [by eapply Hq|done]. Qed.

Definition depot_user : User :=
  mkUser "u1" "acme" "cora@acme.example" "secret" RoleCoordinator true 1000 None.
Definition depot_leg (id : string) (st : LegStatus) : FlightLeg :=
  mkFlightLeg id "acme" (id +:+ "-flight") "PEK" "FRA" 5000 9000 100 0 st 1 1000.
Definition depot_shipment (id key : string) : Shipment :=
  mkShipment id "acme" "REF" "PEK" "FRA" 60 2 ShipmentDraft None key 1 1000 1000.

Definition depot : DB :=
  then_do (insert_shipment (depot_shipment "S1" ""))
    (then_do (insert_leg (depot_leg "L2" LegDeparted))
      (then_do (insert_leg (depot_leg "L1" LegOpen))
        (then_do (insert_user depot_user)
          (fresh_db {[ "acme" := mkTenant "acme" "Acme" true 0 ]})))).

Lemma depot_consistent : consistent depot.
Proof. repeat (apply then_do_consistent; [eauto with go|]). apply fresh_db_consistent. Qed.

(** The same cargo in the in-memory store. *)
Definition depot_memory : memory.Store :=
  memory.with_shipments (shipments depot)
    (memory.with_legs (flight_legs depot) (memory.with_users (users depot) memory.New)).

Lemma stores_agree_on_bookings_witness :
  let out := memory.BookShipment "acme" "S1" "L1" 1 1 7000 depot_memory in
  let out' := postgres.BookShipment "acme" "S1" "L1" 1 1 7000 (quiet depot) in
  ~ is_err out.2 /\ out'.2 = out.2.
Proof.
  split; [vm_compute; tauto|].
  apply (stores_agree_on_bookings depot_memory depot "acme" "S1" "L1" 1 1 7000).
  - apply depot_consistent.
  - reflexivity.
  - reflexivity.
  - texts.
  - intros s l Hs Hl. vm_compute in Hs, Hl. simplify_eq. vm_compute. intuition discriminate.
  - reflexivity.
Defined.

Lemma postgres_reopens_legs_witness :
  run (OpenLeg depot_user "L2") depot_memory = (depot_memory, Err ErrState) /\
  exists d' l', run (OpenLeg depot_user "L2") (quiet depot) = (quiet d', Ok l') /\
    leg_Status l' = LegOpen.
Proof.
  destruct (postgres_reopens_legs depot_memory depot depot_user "L2"
    (default (depot_leg "" "") (flight_legs depot !! "L2"))) as [Hm (d' & l' & Hr & _ & Hl)].
  - apply depot_consistent.
  - reflexivity.
  - reflexivity.
  - vm_compute. reflexivity.
  - vm_compute. reflexivity.
  - vm_compute. reflexivity.
  - vm_compute. intuition discriminate.
  - vm_compute. intuition discriminate.
  - split; [exact Hm|]. exists d', l'. split; [exact Hr|exact Hl].
Defined.

Lemma one_keyless_shipment_witness :
  postgres.CreateShipment (depot_shipment "S2" "") (quiet depot) = (quiet depot, Err ErrConflict).
Proof.
  apply (one_keyless_shipment depot (depot_shipment "S2" "")
    (default (depot_shipment "" "") (shipments depot !! "S1"))).
  - apply depot_consistent.
  - vm_compute. reflexivity.
  - vm_compute. reflexivity.
  - vm_compute. reflexivity.
  - reflexivity.
  - reflexivity.
  - reflexivity.
  - vm_compute. intuition discriminate.
  - texts.
Defined.

Lemma postgres_implements_store_witness :
  let out := exec (repository.BookShipment "acme" "S1" "L1" 1 1 7000) (quiet depot) in
  store_post (repository.BookShipment "acme" "S1" "L1" 1 1 7000) (postgres.view (quiet depot)) out.2
    (postgres.view out.1).
Proof.
  apply (postgres_implements_store _ (repository.BookShipment "acme" "S1" "L1" 1 1 7000) (quiet depot)).
  - apply depot_consistent.
  - apply surjective_pairing.
  - intros e He. inversion He.
Defined.

(** The commit of the booking is refused, or its acknowledgement is lost. *)
Definition unlucky (commit : fate) : postgres.Store :=
  postgres.mkStore depot [Passes; Passes; Passes; Passes; Passes; commit].

Definition reset : error := ErrText "connection reset".

Lemma postgres_error_is_all_or_nothing_witness :
  let book := postgres.BookShipment "acme" "S1" "L1" 1 1 7000 in
  let out := book (unlucky (Lost reset)) in
  (book (unlucky (Refused reset))).2 = Err reset /\
  shipments (db (book (unlucky (Refused reset))).1) !! "S1" = shipments depot !! "S1" /\
  out.2 = Err reset /\
  (db out.1 = depot \/
   (exists y, book (quiet depot) = (quiet (db out.1), y) /\ result_error y = None) /\
   exists e, Lost e ∈ faults (unlucky (Lost reset))) /\
  sh_LegID <$> shipments (db out.1) !! "S1" = Some (Some "L1").
Proof.
  split_and!; [vm_compute; reflexivity..| |vm_compute; reflexivity].
  apply (postgres_error_is_all_or_nothing _ (repository.BookShipment "acme" "S1" "L1" 1 1 7000)
    (unlucky (Lost reset)) (postgres.BookShipment "acme" "S1" "L1" 1 1 7000 (unlucky (Lost reset))).1
    (Err reset) reset).
  - vm_compute. reflexivity.
  - reflexivity.
Defined.

(** A shipment is created between the two statements of a listing: the page has one
    shipment and the total is two. *)
Example page_and_total_differ :
  let later := then_do (insert_shipment (depot_shipment "S2" "key")) depot in
  (postgres.ListShipments "acme" (mkPageRequest 10 "" "") (postgres.mkStore depot [Passes; Later later])).2 =
  Ok (mkPage [depot_shipment "S1" ""] "" 2).
Proof. vm_compute. reflexivity. Qed.

(** An event waits, and the server's context ends between its claim and its mark. *)
Definition posted : DB :=
  then_do (insert_outbox (mkOutboxEvent "o1" "acme" "shipment.booked" "S1" "{}" 0 5000 None None "")) depot.

Lemma posted_consistent : consistent posted.
Proof. apply then_do_consistent; [eauto with go|apply depot_consistent]. Qed.

Definition interrupted : postgres.Store :=
  postgres.mkStore posted [Passes; Passes; Passes; Passes; Refused Canceled].

Lemma cancelled_tick_strands_witness :
  let live := fun _ : nat => @None error in
  let s2 := (run (worker.tick live ["o1"] 10000) interrupted).1 in
  let s3 := (run (worker.Run [worker.Ticker live ["o1"] 100000000]) (postgres.mkStore (db s2) [])).1 in
  outbox.row_of s3 "o1" = Some (mkOutboxEvent "o1" "acme" "shipment.booked" "S1" "{}" 1 5000 (Some 10000) None "").
Proof.
  intros live s2 s3.
  destruct (outbox.cancelled_tick_strands live ["o1"] 10000 interrupted
    (postgres.Claim ["o1"] 10000 20 interrupted).1
    [mkOutboxEvent "o1" "acme" "shipment.booked" "S1" "{}" 1 5000 (Some 10000) None ""]
    (mkOutboxEvent "o1" "acme" "shipment.booked" "S1" "{}" 1 5000 (Some 10000) None "")
    [worker.Ticker live ["o1"] 100000000] []) as [Hrow _].
  - apply posted_consistent.
  - vm_compute. reflexivity.
  - vm_compute. repeat constructor. eexists. reflexivity.
  - vm_compute. repeat constructor.
  - apply list_elem_of_here.
  - exact Hrow.
Defined.
End depot.
