(* ===== verification/agreement.v ===== *)
(** * One application over two stores

    The in-memory store next to the PostgreSQL one while nothing fails: from stores
    that mirror each other the same requests get the same answers, and the stores
    mirror each other after them, for the requests that stay within what the two have
    in common ([portable]). *)

From S2P Require Import Prelude.
From S2P Require Import golang.
From S2P Require Import strconv.
From S2P Require Import domain.
From S2P Require Import external.
From S2P Require Import repository.
From S2P Require Import memory.
From S2P Require Import sql.
From S2P Require Import postgres.
From S2P Require Import service.
From S2P Require Import system.
From S2P Require Import usecases.
From S2P Require Import httpapi.
From S2P Require Import stores.

Open Scope string_scope.
Open Scope list_scope.
Open Scope Z_scope.

(** ** Sessions up to the instant of their revocation

    The in-memory store revokes a revoked session again, with a new instant. *)

#[export] Instance session_equiv : Equiv Session := fun v w =>
  set_ses_RevokedAt None v = set_ses_RevokedAt None w /\
  (ses_RevokedAt v = None <-> ses_RevokedAt w = None).

#[export] Instance session_equivalence : Equivalence (≡@{Session}).
Proof.
  split; [by split|intros v w [? ?]; by split|].
  intros u v w [? ?] [? ?]. split; [congruence|tauto].
Qed.

#[export] Instance IsSessionActive_proper : Proper ((≡) ==> (=) ==> (=)) IsSessionActive.
Proof.
  intros [] [] [Hf Hr] now ? <-. simpl in *. simplify_eq. unfold IsSessionActive. simpl in *.
  repeat case_match; naive_solver.
Qed.

Lemma live_session_eq (v w : Session) : v ≡ w -> ses_RevokedAt v = None -> v = w.
Proof. intros [Hf Hr] Hv. pose proof (proj1 Hr Hv). destruct v, w; simpl in *. congruence. Qed.

Lemma revoked_equiv (v w : Session) a b : v ≡ w ->
  set_ses_RevokedAt (Some a) v ≡ set_ses_RevokedAt (Some b) w.
Proof. intros [Hf Hr]. destruct v, w; simpl in *. simplify_eq. by split. Qed.

Lemma revoked_again_equiv (v w : Session) a : v ≡ w -> ses_RevokedAt w <> None ->
  set_ses_RevokedAt (Some a) v ≡ w.
Proof. intros [Hf Hr] Hw. destruct v, w; simpl in *. simplify_eq. split; simpl; naive_solver. Qed.

Lemma session_fields (v w : Session) : v ≡ w ->
  ses_ID v = ses_ID w /\ ses_UserID v = ses_UserID w /\ ses_TokenHash v = ses_TokenHash w.
Proof. intros [Hf _]. destruct v, w; simpl in *. by simplify_eq. Qed.

(** ** Mirrors *)

Section agreement.
Context `{External} `{Server}.
Implicit Types (m : memory.Store) (d : DB).

(** What the two stores hold is the same: the in-memory store has an index where the
    database has a unique key. *)
Record same m d : Prop := {
  mir_users : memory.users m = sql.users d;
  mir_emails e id : byEmail m !! e = Some id <->
    exists u, sql.users d !! id = Some u /\ u_Email u = e;
  mir_sessions : memory.sessions m ≡ sql.sessions d;
  mir_shipments : memory.shipments m = sql.shipments d;
  mir_idem t k id : has (tenants d) t -> k <> "" ->
    idem m !! idem_key t k = Some id <->
    exists s, sql.shipments d !! id = Some s /\ sh_TenantID s = t /\ sh_IdempotencyKey s = k;
  mir_tenants t : has (tenants d) t -> free_of "|" t;
  mir_legs : memory.legs m = flight_legs d;
  mir_customs : memory.customs m = customs_cases d;
  mir_customs_keys : keyed cc_ID (customs_cases d);
  mir_security : memory.security m = security_checks d;
  mir_security_keys : keyed sc_ID (security_checks d);
  mir_outbox : memory.outbox m = outbox_events d }.

Record mirrors m d : Prop := {
  mir_wf : memory.wf m;
  mir_consistent : consistent d;
  mir_same :> same m d }.

(** Run alone from [m] and from [d] the program gives the same answer, and stores
    that mirror each other. *)
Definition agrees {A} (p : prog A) m d : Prop :=
  exists m' d' x, run p m = (m', x) /\ run p (quiet d) = (quiet d', x) /\ mirrors m' d'.

Lemma agrees_Ret {A} (x : A) m d : mirrors m d -> agrees (Ret x) m d.
Proof. intros Hmd. by exists m, d, x. Qed.

Lemma agrees_call {A X} (op : storeop X) (k : X -> prog A) m d m' d' x :
  exec op m = (m', x) -> exec op (quiet d) = (quiet d', x) -> agrees (k x) m' d' ->
  agrees (Call op k) m d.
Proof.
  intros Hm Hd (m2 & d2 & y & Hm2 & Hd2 & Hmir). exists m2, d2, y. simpl. by rewrite Hm, Hd.
Qed.

Lemma agrees_bind {A B} (p : prog A) (f : A -> prog B) m d :
  agrees p m d -> (forall m' d' x, mirrors m' d' -> agrees (f x) m' d') -> agrees (prog_bind p f) m d.
Proof.
  intros (m1 & d1 & x & Hm & Hd & Hmir) Hf. destruct (Hf m1 d1 x Hmir) as (m2 & d2 & y & Hm2 & Hd2 & Hmir2).
  exists m2, d2, y. by rewrite !run_bind, Hm, Hd.
Qed.

(** ** Reads *)

Section reads.
Context (m : memory.Store) (d : DB) (Hmir : mirrors m d).

Lemma row_with_unique {A} (P : A -> Prop) `{!forall r, Decision (P r)} (t : gmap string A) i r :
  t !! i = Some r -> P r -> (forall j q, t !! j = Some q -> P q -> j = i) -> row_with P t = Some r.
Proof.
  intros Hi Hr Hone. unfold row_with.
  assert (Hin : r ∈ filter P (rows t)) by (apply list_elem_of_filter; split; [done|]; apply elem_of_rows; by exists i).
  destruct (filter P (rows t)) as [|q l] eqn:Hl; [set_solver|]. simpl. f_equal.
  assert (Hq : q ∈ filter P (rows t)) by (rewrite Hl; left).
  apply list_elem_of_filter in Hq as [Hq (j & Hj)%elem_of_rows].
  pose proof (Hone j q Hj Hq). congruence.
Qed.

Lemma row_with_None {A} (P : A -> Prop) `{!forall r, Decision (P r)} (t : gmap string A) :
  (forall j q, t !! j = Some q -> ~ P q) -> row_with P t = None.
Proof.
  intros Hno. destruct (row_with P t) as [r|] eqn:Hr; [|done].
  apply row_with_Some in Hr as [Hr (j & Hj)]. by destruct (Hno j r).
Qed.

Lemma GetUserByEmail_agrees e : valid_text e ->
  exists r, exec (repository.GetUserByEmail e) m = (m, r) /\
    exec (repository.GetUserByEmail e) (quiet d) = (quiet d, r) /\
    forall u, r = Ok u -> sql.users d !! u_ID u = Some u.
Proof.
  intros He'. unfold exec, memory_store, postgres_store, memory.GetUserByEmail, postgres.GetUserByEmail, user.
  rewrite find_row_quiet by texts. destruct (byEmail m !! e) as [id|] eqn:He.
  - apply (mir_emails m d Hmir) in He as (u & Hu & <-). eexists. split; [done|].
    rewrite (mir_users m d Hmir), Hu, cloneUser_id. simpl.
    rewrite (row_with_unique _ _ id u); [|done..|].
    + split; [done|]. intros ? [= <-]. by destruct (users_rows _ (mir_consistent _ _ Hmir) _ _ Hu) as [-> _].
    + intros j q Hj Hq. by eapply (users_email_key _ (mir_consistent _ _ Hmir)).
  - eexists. split; [done|]. rewrite row_with_None; [done|]. intros j q Hj Hq.
    assert (Hs : byEmail m !! e = Some j) by (apply (mir_emails m d Hmir); eauto). congruence.
Qed.

Lemma GetUser_agrees id : valid_text id ->
  exists r, exec (repository.GetUser id) m = (m, r) /\
    exec (repository.GetUser id) (quiet d) = (quiet d, r) /\
    forall u, r = Ok u -> sql.users d !! u_ID u = Some u.
Proof.
  intros Hid. unfold exec, memory_store, postgres_store, memory.GetUser, postgres.GetUser, user.
  rewrite find_row_quiet, (mir_users m d Hmir) by texts.
  destruct (sql.users d !! id) as [u|] eqn:Hu; eexists; (split; [done|]); [|done].
  rewrite cloneUser_id. split; [done|]. intros ? [= <-].
  by destruct (users_rows _ (mir_consistent _ _ Hmir) _ _ Hu) as [-> _].
Qed.

Lemma GetSession_agrees token :
  exists r r', exec (repository.GetSession token) m = (m, r) /\
    exec (repository.GetSession token) (quiet d) = (quiet d, r') /\
    match r, r' with
    | Ok v, Ok w => v ≡ w /\ valid_text (ses_UserID w)
    | Err e, Err e' => e = e'
    | _, _ => False
    end.
Proof.
  unfold exec, memory_store, postgres_store, memory.GetSession, postgres.GetSession, tokenHash.
  pose proof (hash_text token). rewrite find_row_quiet by texts. unfold HashToken.
  pose proof (mir_sessions m d Hmir (hex_encode (sha256_Sum256 token))) as Hs.
  inversion Hs as [v w Hvw Hv Hw|Hv Hw]; eexists _, _; [|done]. split_and!; [done..|].
  destruct (sessions_rows _ (mir_consistent _ _ Hmir) _ _ (eq_sym Hw)) as (_ & _ & Htx). split_texts Htx. done.
Qed.

Lemma GetShipment_agrees tenant id : valid_text tenant -> valid_text id ->
  exists r, exec (repository.GetShipment tenant id) m = (m, r) /\
    exec (repository.GetShipment tenant id) (quiet d) = (quiet d, r) /\
    forall s, r = Ok s -> sql.shipments d !! id = Some s /\ sh_TenantID s = tenant.
Proof.
  intros Ht Hid. unfold exec, memory_store, postgres_store, memory.GetShipment, postgres.GetShipment, shipment.
  rewrite find_row_quiet, (mir_shipments m d Hmir) by texts. unfold shipment_of.
  destruct (sql.shipments d !! id) as [s|]; simpl; [|by eexists].
  repeat case_decide; try done; eexists; split_and!; try done; by intros ? [= <-].
Qed.

Lemma GetLeg_agrees tenant id : valid_text tenant -> valid_text id ->
  exists r, exec (repository.GetLeg tenant id) m = (m, r) /\
    exec (repository.GetLeg tenant id) (quiet d) = (quiet d, r) /\
    forall l, r = Ok l -> flight_legs d !! id = Some l /\ leg_TenantID l = tenant.
Proof.
  intros Ht Hid. unfold exec, memory_store, postgres_store, memory.GetLeg, postgres.GetLeg.
  rewrite find_row_quiet, (mir_legs m d Hmir) by texts. unfold leg_of.
  destruct (flight_legs d !! id) as [s|]; simpl; [|by eexists].
  repeat case_decide; try done; eexists; split_and!; try done; by intros ? [= <-].
Qed.

Lemma GetCustoms_agrees id : valid_text id ->
  exists r, exec (repository.GetCustoms id) m = (m, r) /\
    exec (repository.GetCustoms id) (quiet d) = (quiet d, r).
Proof.
  intros Hid. unfold exec, memory_store, postgres_store, memory.GetCustoms, postgres.GetCustoms.
  rewrite find_row_quiet, (mir_customs m d Hmir) by texts. destruct (customs_cases d !! id); by eexists.
Qed.

Lemma GetSecurity_agrees id : valid_text id ->
  exists r, exec (repository.GetSecurity id) m = (m, r) /\
    exec (repository.GetSecurity id) (quiet d) = (quiet d, r).
Proof.
  intros Hid. unfold exec, memory_store, postgres_store, memory.GetSecurity, postgres.GetSecurity.
  rewrite find_row_quiet, (mir_security m d Hmir) by texts. destruct (security_checks d !! id); by eexists.
Qed.

Lemma FindByIdempotency_agrees tenant key :
  has (tenants d) tenant -> key <> "" -> valid_text tenant -> valid_text key ->
  exists r, exec (repository.FindByIdempotency tenant key) m = (m, r) /\
    exec (repository.FindByIdempotency tenant key) (quiet d) = (quiet d, r) /\
    ((exists s, r = Ok s) \/ r = Err ErrNotFound /\ idem m !! idem_key tenant key = None).
Proof.
  intros Ht Hk Htt Hkt.
  unfold exec, memory_store, postgres_store, memory.FindByIdempotency, postgres.FindByIdempotency, shipment.
  rewrite find_row_quiet by texts. destruct (idem m !! idem_key tenant key) as [id|] eqn:Hi.
  - apply (mir_idem m d Hmir tenant key id Ht Hk) in Hi as (s & Hs & Hst & Hsk). eexists. split; [done|].
    rewrite (mir_shipments m d Hmir), Hs, (row_with_unique _ _ id s); [by eauto|done..|].
    intros j q Hj [Hqt Hqk]. eapply (shipments_idempotency_key _ (mir_consistent _ _ Hmir)); [done..|]. congruence.
  - eexists. split; [done|]. rewrite row_with_None; [by eauto|]. intros j q Hj [Hqt Hqk].
    assert (Hs : idem m !! idem_key tenant key = Some j) by (apply (mir_idem m d Hmir tenant key j); eauto).
    congruence.
Qed.
End reads.

(** ** Changes of one table *)

Section changes.
Context (m : memory.Store) (d : DB) (Hmir : same m d).

Lemma same_sessions t t' :
  t ≡ t' -> same (memory.with_sessions t m) (sql.with_sessions t' d).
Proof. intros Ht. destruct Hmir; destruct m, d. by split. Qed.

Lemma same_legs t : same (memory.with_legs t m) (with_flight_legs t d).
Proof. destruct Hmir; destruct m, d. by split. Qed.

Lemma same_customs c : same (memory.with_customs (<[cc_ID c := c]> (memory.customs m)) m)
  (with_customs_cases (<[cc_ID c := c]> (customs_cases d)) d).
Proof.
  destruct Hmir; destruct m, d; simpl in *. split; simpl; try done; [by f_equal|].
  by apply keyed_insert.
Qed.

Lemma same_security c : same (memory.with_security (<[sc_ID c := c]> (memory.security m)) m)
  (with_security_checks (<[sc_ID c := c]> (security_checks d)) d).
Proof.
  destruct Hmir; destruct m, d; simpl in *. split; simpl; try done; [by f_equal|].
  by apply keyed_insert.
Qed.

(** A user keeps its e-mail. *)
Lemma same_user id u u' : sql.users d !! id = Some u -> u_Email u' = u_Email u ->
  same (memory.with_users (<[id := u']> (memory.users m)) m)
    (sql.with_users (<[id := u']> (sql.users d)) d).
Proof.
  intros Hu He. destruct Hmir; destruct m, d; simpl in *. split; simpl; try done; [by f_equal|].
  intros e i. rewrite mir_emails0. setoid_rewrite lookup_insert. case_decide; [|done]. subst i. split.
  - intros (v & Hv & <-). exists u'. split; [done|]. congruence.
  - intros (v & [= <-] & <-). by exists u.
Qed.

(** A shipment keeps its tenant and its key. *)
Lemma same_shipment id s s' : sql.shipments d !! id = Some s ->
  sh_TenantID s' = sh_TenantID s -> sh_IdempotencyKey s' = sh_IdempotencyKey s ->
  same (memory.with_shipments (<[id := s']> (memory.shipments m)) m)
    (sql.with_shipments (<[id := s']> (sql.shipments d)) d).
Proof.
  intros Hs Ht Hk. destruct Hmir; destruct m, d; simpl in *. split; simpl; try done; [by f_equal|].
  intros t k i Hten Hne. rewrite mir_idem0 by done. setoid_rewrite lookup_insert. case_decide; [|done]. subst i. split.
  - intros (v & Hv & ? & ?). exists s'. split; [done|]. simplify_eq. split; congruence.
  - intros (v & [= <-] & ? & ?). exists s. split; [done|]. split; congruence.
Qed.

(** A new shipment gets its entry in the index. *)
Lemma same_new_shipment s : sql.shipments d !! sh_ID s = None ->
  has (tenants d) (sh_TenantID s) -> sh_IdempotencyKey s <> "" ->
  idem m !! idem_key (sh_TenantID s) (sh_IdempotencyKey s) = None ->
  same (memory.with_idem (<[idem_key (sh_TenantID s) (sh_IdempotencyKey s) := sh_ID s]> (idem m))
          (memory.with_shipments (<[sh_ID s := s]> (memory.shipments m)) m))
    (sql.with_shipments (<[sh_ID s := s]> (sql.shipments d)) d).
Proof.
  intros Hs Hten Hkey Hfree. destruct Hmir; destruct m, d; simpl in *.
  split; simpl; try done; [by f_equal|]. intros t k i Ht Hk. rewrite !lookup_insert. split.
  - case_decide as Heq.
    + apply idem_key_inj in Heq as [<- <-]; [|by auto..]. intros [= <-]. exists s. by rewrite decide_True.
    + intros (v & Hv & ? & ?)%mir_idem0; [|done..]. exists v. rewrite decide_False; [done|]. congruence.
  - intros (v & Hv & <- & <-). case_decide as Hi.
    + simplify_eq. by rewrite decide_True.
    + assert (Hold : idem !! idem_key (sh_TenantID v) (sh_IdempotencyKey v) = Some i)
        by (apply mir_idem0; eauto).
      rewrite decide_False; [done|]. intros Heq. rewrite Heq in Hfree. congruence.
Qed.
End changes.

(** ** What the two stores have in common *)

(** An instant that the database keeps. *)
Definition whole (t : Time) : Prop := timestamptz t = t.

(** A shipment that can be listed by its instant of creation alone. *)
Definition listable (order : list string) (tenant : string) d : Prop :=
  range_order (sql.shipments d) order /\
  NoDup (sh_CreatedAt <$> filter (fun s => sh_TenantID s = tenant) (rows (sql.shipments d))).

(** The texts of a request that get to the database. *)
Definition request_texts (r : request) : list string :=
  match r with
  | RLogin _ email _ _ rid _ => [strings_ToLower (TrimSpace email); randomID rid]
  | RLogout _ _ => []
  | RDeactivateUser _ target _ _ => [target]
  | RCreateShipment u s idem rid now => idem :: shipment_texts (new_shipment u s idem rid now)
  | RListShipments _ u _ | RSummary _ u => [u_TenantID u]
  | RBookShipment u id legID _ => [u_TenantID u; id; legID]
  | RTransitionShipment u id next _ => [u_TenantID u; id; next]
  | RCreateLeg u l rid _ _ =>
      [nonEmpty (leg_ID l) (randomID rid); u_TenantID u; leg_FlightNumber l; leg_Origin l;
       leg_Destination l]
  | RGetShipment u id | ROpenLeg u id => [u_TenantID u; id]
  | RPutCustoms u c _ _ => u_TenantID u :: customs_texts c
  | RPutSecurity u v _ _ => u_TenantID u :: u_ID u :: security_texts v
  end.

(** The requests that the stores answer alike from [d].  Texts are valid; instants are whole
    microseconds and numbers fit their columns; identifiers that the in-memory store
    does not check are new, and references it does not check exist; a new shipment
    has an idempotency key; a leg that is opened may be opened; a customs case or a
    security check has the identifier of its shipment; no two shipments in a listing
    were created at one instant. *)
Definition portable (r : request) d : Prop :=
  valid_texts (request_texts r) /\
  match r with
  | RLogin a _ _ raw rid now =>
      whole now /\ whole (time_Add now (app_ttl a)) /\
      no_row (fun v => ses_ID v = randomID rid) (sql.sessions d) /\
      match raw with Ok b => ~ has (sql.sessions d) (HashToken (hex_encode b)) | Err _ => True end
  | RLogout _ _ | RGetShipment _ _ => True
  | RDeactivateUser _ _ _ now2 => whole now2
  | RCreateShipment u s idem _ now =>
      idem <> "" /\ has (tenants d) (u_TenantID u) /\ in_int4 (sh_Pieces s) /\
      has_opt (flight_legs d) (sh_LegID s) /\ whole now
  | RListShipments order u _ | RSummary order u => listable order (u_TenantID u) d
  | RBookShipment _ id legID now =>
      whole now /\
      match sql.shipments d !! id, flight_legs d !! legID with
      | Some s, Some l => in_range s l
      | _, _ => True
      end
  | RTransitionShipment _ id _ now =>
      whole now /\
      match sql.shipments d !! id with
      | Some s => in_int4 (sh_Pieces s) /\ in_int64 (sh_Version s + 1)
      | None => True
      end
  | RCreateLeg u l rid now1 _ =>
      ~ has (flight_legs d) (nonEmpty (leg_ID l) (randomID rid)) /\
      no_row (fun q => leg_TenantID q = u_TenantID u /\ leg_FlightNumber q = leg_FlightNumber l /\
        leg_DepartureAt q = leg_DepartureAt l) (flight_legs d) /\
      has (tenants d) (u_TenantID u) /\ leg_ReservedKg l >= 0 /\
      whole (leg_DepartureAt l) /\ whole (leg_ArrivalAt l) /\ whole now1
  | ROpenLeg _ id =>
      match flight_legs d !! id with
      | Some l => Leg_CanTransition (leg_Status l) LegOpen = true /\
          in_int64 (leg_Version l + 1) /\ in_int64 (leg_ReservedKg l)
      | None => True
      end
  | RPutCustoms _ c rid now =>
      nonEmpty (cc_ID c) (randomID rid) = cc_ShipmentID c /\
      has_opt (sql.users d) (cc_ReviewedBy c) /\ whole now
  | RPutSecurity u v rid now =>
      nonEmpty (sc_ID v) (randomID rid) = sc_ShipmentID v /\ has (sql.users d) (u_ID u) /\
      has_opt (sql.users d) (sc_OfficerID v) /\ whole now /\ timestamptz <$> sc_CheckedAt v = sc_CheckedAt v
  end.

(** ** Writes *)

Section writes.
Context (m : memory.Store) (d : DB) (Hmir : mirrors m d).

Lemma mirrors_write {X} (op : storeop X) m' d' x y :
  exec op m = (m', x) -> exec op (quiet d) = (quiet d', y) -> same m' d' -> mirrors m' d'.
Proof.
  intros Hm Hd Hs. split; [|by apply (postgres.exec_consistent _ op (quiet d) (quiet d') y (mir_consistent _ _ Hmir))|done].
  by eapply memory.exec_wf; [apply Hmir|].
Qed.

(** A call that both stores carry out alike. *)
Definition op_agrees {X} (op : storeop X) : Prop :=
  exists m' d' x, exec op m = (m', x) /\ exec op (quiet d) = (quiet d', x) /\ mirrors m' d'.

Lemma agreed {X} (op : storeop X) d' m' x :
  exec op (quiet d) = (quiet d', x) -> exec op m = (m', x) -> same m' d' -> op_agrees op.
Proof. intros Hd Hm Hs. exists m', d', x. split_and!; [done..|]. by eapply mirrors_write. Qed.

Lemma both_refuse {X} (op : storeop X) x :
  exec op (quiet d) = (quiet d, x) -> exec op m = (m, x) -> op_agrees op.
Proof. intros Hd Hm. by exists m, d, x. Qed.

Lemma CreateSession_agrees v :
  no_row (fun w => ses_ID w = ses_ID v) (sql.sessions d) -> ~ has (sql.sessions d) (ses_TokenHash v) ->
  has (sql.users d) (ses_UserID v) -> whole (ses_ExpiresAt v) -> whole (ses_CreatedAt v) ->
  ses_RevokedAt v = None -> valid_texts (session_texts v) ->
  op_agrees (repository.CreateSession v).
Proof.
  intros Hid Hh Hu He Hc Hr Htx. destruct v as [id user h ex r c]; simpl in *. subst r.
  assert (Hq : exec (repository.CreateSession (mkSession id user h ex None c)) (quiet d) =
    (quiet (sql.with_sessions (<[h := mkSession id user h ex None c]> (sql.sessions d)) d), Ok tt)).
  { unfold exec, postgres_store, postgres.CreateSession, ok_bind. rewrite attempt_quiet.
    unfold insert_session. rewrite bound_valid by done. rewrite checked_pass by (rewrite !Forall_cons, Forall_nil, !require_true; by split_and!).
    by rewrite He, Hc. }
  eapply (agreed _ _ _ _ Hq); [reflexivity|]. apply same_sessions; [apply Hmir|]. simpl.
  f_equiv. apply Hmir.
Qed.

(** The sessions of both stores after a revocation. *)
Lemma revoked_where_equiv (P : Session -> Prop) `{!forall v, Decision (P v)} (t t' : gmap string Session)
    (t1 : gmap string Session) a b :
  (forall v w, v ≡ w -> P v <-> P w) -> t ≡ t' ->
  (forall h, t1 !! h = (fun v => if decide (P v) then set_ses_RevokedAt (Some a) v else v) <$> t !! h) ->
  t1 ≡ ((fun v => if decide (P v /\ ses_RevokedAt v = None) then set_ses_RevokedAt (Some b) v else v) <$> t').
Proof.
  intros HP Ht Ht1 h. rewrite Ht1, lookup_fmap. specialize (Ht h).
  destruct Ht as [v w Hvw|]; simpl; constructor. pose proof (HP v w Hvw).
  repeat case_decide; try tauto; try done.
  - by apply revoked_equiv.
  - apply revoked_again_equiv; [done|tauto].
Qed.

(** A revocation with a valid argument. *)
Lemma revoke_where_quiet arg (P : Session -> Prop) `{!forall v, Decision (P v)} at_ d0 : valid_text arg ->
  attempt (revoke_where arg P at_) (quiet d0) =
  (quiet (sql.with_sessions ((fun v => if decide (P v /\ ses_RevokedAt v = None)
     then set_ses_RevokedAt (Some (timestamptz at_)) v else v) <$> sql.sessions d0) d0),
   Ok (Z.of_nat (length (filter (fun v => P v /\ ses_RevokedAt v = None) (rows (sql.sessions d0)))))).
Proof. intros Ha. rewrite attempt_quiet. unfold revoke_where. by rewrite bound_valid by texts. Qed.

Lemma RevokeUserSessions_agrees id at_ : valid_text id -> op_agrees (repository.RevokeUserSessions id at_).
Proof.
  intros Hid. eapply agreed; [|reflexivity|].
  { unfold exec, postgres_store, postgres.RevokeUserSessions, ok_bind. by rewrite revoke_where_quiet. }
  apply same_sessions; [apply Hmir|].
  apply (revoked_where_equiv _ (memory.sessions m) _ _ at_); [|apply Hmir|apply revoke_sessions_lookup].
  intros v w Hvw. by destruct (session_fields v w Hvw) as (_ & -> & _).
Qed.

(** The stores differ in what they say of a session that is revoked already. *)
Lemma RevokeSession_agrees token at_ :
  exists m' d' x y, exec (repository.RevokeSession token at_) m = (m', x) /\
    exec (repository.RevokeSession token at_) (quiet d) = (quiet d', y) /\ mirrors m' d' /\
    (x = Ok tt \/ x = Err ErrNotFound) /\ (y = Ok tt \/ y = Err ErrNotFound).
Proof.
  set (P := fun v => ses_TokenHash v = HashToken token).
  assert (Hq : exists d', exec (repository.RevokeSession token at_) (quiet d) =
      (quiet d', affected (Z.of_nat (length (filter (fun v => P v /\ ses_RevokedAt v = None)
        (rows (sql.sessions d))))) ErrNotFound) /\
      d' = sql.with_sessions ((fun v => if decide (P v /\ ses_RevokedAt v = None)
        then set_ses_RevokedAt (Some (timestamptz at_)) v else v) <$> sql.sessions d) d).
  { eexists. split; [|reflexivity]. unfold exec, postgres_store, postgres.RevokeSession, ok_bind.
    by rewrite revoke_where_quiet by apply hash_text. }
  destruct Hq as (d' & Hq & Hd').
  assert (HP : forall v w : Session, v ≡ w -> P v <-> P w)
    by (intros v w Hvw; unfold P; by destruct (session_fields v w Hvw) as (_ & _ & ->)).
  assert (Hkey : forall h w, memory.sessions m !! h = Some w -> P w <-> h = HashToken token)
    by (intros h w Hw; unfold P; by rewrite (memory.wf_sessions _ (mir_wf _ _ Hmir) _ _ Hw)).
  assert (Hm : exists m' x, exec (repository.RevokeSession token at_) m = (m', x) /\
    (x = Ok tt \/ x = Err ErrNotFound) /\ same m' d').
  { unfold exec, memory_store, memory.RevokeSession. change (tokenHash token) with (HashToken token).
    subst d'. destruct (memory.sessions m !! HashToken token) as [v|] eqn:Hv;
      eexists _, _; (split; [reflexivity|]); (split; [auto|]).
    2: replace m with (memory.with_sessions (memory.sessions m) m) by (by destruct m).
    all: apply same_sessions; [apply Hmir|].
    all: apply (revoked_where_equiv P (memory.sessions m) _ _ at_); [done|apply Hmir|]; intros h.
    1: rewrite lookup_insert; case_decide; [subst h; rewrite Hv; simpl; by rewrite decide_True by (by eapply Hkey)|].
    all: destruct (memory.sessions m !! h) as [w|] eqn:Hw; [|done]; simpl; rewrite decide_False; [done|].
    all: rewrite (Hkey _ _ Hw); congruence. }
  destruct Hm as (m' & x & Hm & Hx & Hsame). eexists m', d', x, _. split_and!; [done|exact Hq| |done|].
  - exact (mirrors_write _ _ _ _ _ Hm Hq Hsame).
  - unfold affected. case_decide; auto.
Qed.

Lemma deactivate_user_row id at_ d0 u : valid_text id -> sql.users d0 !! id = Some u ->
  deactivate_user id at_ d0 =
  Ok (sql.with_users (<[id := deactivated (timestamptz at_) u]> (sql.users d0)) d0, 1).
Proof. intros Hid. unfold deactivate_user. rewrite bound_valid by texts. intros ->. by destruct u. Qed.

Lemma DeactivateUser_agrees id at_ : valid_text id -> whole at_ -> op_agrees (repository.DeactivateUser id at_).
Proof.
  intros Hid Hat.
  destruct (sql.users d !! id) as [u|] eqn:Hu.
  2: { apply (both_refuse _ (Err ErrNotFound)).
    - unfold exec, postgres_store, postgres.DeactivateUser.
      rewrite (transaction_quiet _ d d (Err ErrNotFound)); [reflexivity|]. unfold ok_bind. rewrite attempt_quiet.
      unfold deactivate_user. rewrite bound_valid by texts. by rewrite Hu.
    - unfold exec, memory_store, memory.DeactivateUser. by rewrite (mir_users _ _ Hmir), Hu. }
  eapply (agreed _ _ _ (Ok tt)).
  - unfold exec, postgres_store, postgres.DeactivateUser.
    erewrite (transaction_quiet _ d _ (Ok tt)); [reflexivity|]. unfold ok_bind. rewrite attempt_quiet.
    rewrite (deactivate_user_row _ _ _ u Hid Hu). unfold returns, affected. rewrite decide_False by done.
    rewrite revoke_where_quiet by done. reflexivity.
  - unfold exec, memory_store, memory.DeactivateUser. by rewrite (mir_users _ _ Hmir), Hu.
  - assert (Hsu : same (memory.with_users (<[id := deactivated at_ u]> (memory.users m)) m)
      (sql.with_users (<[id := deactivated at_ u]> (sql.users d)) d))
      by (apply (same_user m d Hmir id u); [done|by destruct u]).
    rewrite (mir_users _ _ Hmir) in Hsu. rewrite Hat. apply (same_sessions _ _ Hsu).
    eapply revoked_where_equiv; [|apply (mir_sessions _ _ Hsu)|apply revoke_sessions_lookup].
    intros v w Hvw. by destruct (session_fields v w Hvw) as (_ & -> & _).
Qed.

Lemma CreateShipment_agrees s :
  has (tenants d) (sh_TenantID s) -> sh_IdempotencyKey s <> "" ->
  idem m !! idem_key (sh_TenantID s) (sh_IdempotencyKey s) = None ->
  sh_WeightKg s > 0 -> sh_Pieces s > 0 -> in_int4 (sh_Pieces s) -> has_opt (flight_legs d) (sh_LegID s) ->
  whole (sh_CreatedAt s) -> whole (sh_UpdatedAt s) ->
  valid_texts (sh_IdempotencyKey s :: shipment_texts s) -> op_agrees (repository.CreateShipment s).
Proof.
  intros Ht Hk Hfree Hw Hp H4 Hl Hc Hu Htx.
  assert (Hkey : no_row (fun r => sh_TenantID r = sh_TenantID s /\ sh_IdempotencyKey r = sh_IdempotencyKey s)
    (sql.shipments d)).
  { intros i r Hi [Hrt Hrk].
    assert (Hin : idem m !! idem_key (sh_TenantID s) (sh_IdempotencyKey s) = Some i)
      by (apply (mir_idem _ _ Hmir); eauto). congruence. }
  destruct (sql.shipments d !! sh_ID s) as [old|] eqn:Hid.
  - apply (both_refuse _ (Err ErrConflict)).
    + unfold exec, postgres_store, postgres.CreateShipment, result_bind. rewrite attempt_quiet.
      unfold insert_shipment. rewrite bound_valid by done. destruct s; simpl in *. unfold checked. simpl.
      rewrite !bool_decide_true by done. rewrite (bool_decide_false (~ has _ _)); [reflexivity|].
      intros Hno. apply Hno. by eexists.
    + unfold exec, memory_store, memory.CreateShipment.
      by rewrite decide_True, Hfree, (mir_shipments _ _ Hmir), Hid by done.
  - eapply (agreed _ _ _ (Ok tt)).
    + unfold exec, postgres_store, postgres.CreateShipment, result_bind. rewrite attempt_quiet.
      assert (Hq : insert_shipment s d = Ok (sql.with_shipments (<[sh_ID s := s]> (sql.shipments d)) d, 1)).
      { unfold insert_shipment. rewrite bound_valid by done.
        destruct s; simpl in *. rewrite Hc, Hu. apply checked_pass.
        unfold shipment_checks, shipment_references. cbn [app].
        rewrite !Forall_cons, Forall_nil, !require_true. simpl. split_and!; try done.
        intros [? Hs]. simpl in *. congruence. }
      rewrite Hq. reflexivity.
    + unfold exec, memory_store, memory.CreateShipment.
      rewrite decide_True, Hfree, (mir_shipments _ _ Hmir), Hid, decide_True by done. reflexivity.
    + pose proof (same_new_shipment m d Hmir s Hid Ht Hk Hfree) as Hsame.
      rewrite (mir_shipments _ _ Hmir) in Hsame. by destruct m.
Qed.

(** A version of a stored shipment as its own store wrote it. *)
Lemma UpdateShipment_agrees s old :
  sql.shipments d !! sh_ID s = Some old -> sh_TenantID s = sh_TenantID old ->
  sh_IdempotencyKey s = sh_IdempotencyKey old -> sh_CreatedAt s = sh_CreatedAt old ->
  sh_WeightKg s = sh_WeightKg old -> sh_Pieces s = sh_Pieces old -> sh_LegID s = sh_LegID old ->
  in_int4 (sh_Pieces s) -> in_int64 (sh_Version old + 1) -> whole (sh_UpdatedAt s) ->
  valid_texts (shipment_texts s) -> op_agrees (repository.UpdateShipment s (sh_Version old)).
Proof.
  intros Hold Ht Hk Hc Hw Hp Hl H4 Hv Hu Htx.
  set (s' := set_sh_Version (sh_Version old + 1) s).
  eapply (agreed _ (sql.with_shipments (<[sh_ID s := s']> (sql.shipments d)) d) _ (Ok tt)).
  - unfold exec, postgres_store. rewrite (update_quiet d s old) by (done || apply Hmir). rewrite Hu.
    by destruct s.
  - unfold exec, memory_store, memory.UpdateShipment.
    rewrite (mir_shipments _ _ Hmir), Hold, decide_False by naive_solver.
    rewrite add64_exact by done. reflexivity.
  - assert (Hsame : same (memory.with_shipments (<[sh_ID s := s']> (memory.shipments m)) m)
      (sql.with_shipments (<[sh_ID s := s']> (sql.shipments d)) d))
      by (apply (same_shipment _ _ Hmir _ old); by destruct s).
    rewrite (mir_shipments _ _ Hmir) in Hsame. by destruct s.
Qed.

Lemma BookShipment_agrees tenant sid lid sv lv at_ :
  (forall s l, shipment_of tenant sid d = Some s -> leg_of tenant lid d = Some l -> in_range s l) ->
  whole at_ -> valid_texts [tenant; sid; lid] ->
  op_agrees (repository.BookShipment tenant sid lid sv lv at_).
Proof.
  intros Hrange Hat Htx.
  pose proof (memory_booking m d tenant sid lid sv lv at_ (mir_shipments _ _ Hmir) (mir_legs _ _ Hmir)) as Hm.
  pose proof (postgres_booking d tenant sid lid sv lv at_ (mir_consistent _ _ Hmir) Htx Hrange) as Hp.
  destruct (shipment_of tenant sid d) as [s|] eqn:Hs; [|by eapply both_refuse].
  destruct (leg_of tenant lid d) as [l|] eqn:Hl; [|by eapply both_refuse].
  destruct (booking_refused s l sv lv); [by eapply both_refuse|].
  apply shipment_of_Some in Hs as [Hs _]. eapply agreed; [exact Hp|exact Hm|].
  unfold booked_db. rewrite Hat, (mir_legs _ _ Hmir).
  set (legs' := <[lid := reserved_on (sh_WeightKg s) l]> (flight_legs d)).
  assert (Hsame : same (memory.with_shipments (<[sid := booked_on lid at_ s]> (memory.shipments (memory.with_legs legs' m)))
      (memory.with_legs legs' m))
    (sql.with_shipments (<[sid := booked_on lid at_ s]> (sql.shipments (with_flight_legs legs' d)))
      (with_flight_legs legs' d))).
  { apply (same_shipment _ _ (same_legs _ _ Hmir legs') _ s); [by destruct d|by destruct s..]. }
  by destruct m, d.
Qed.

Lemma CreateLeg_agrees l :
  ~ has (flight_legs d) (leg_ID l) ->
  no_row (fun q => leg_TenantID q = leg_TenantID l /\ leg_FlightNumber q = leg_FlightNumber l /\
    leg_DepartureAt q = leg_DepartureAt l) (flight_legs d) ->
  has (tenants d) (leg_TenantID l) -> leg_CapacityKg l > 0 -> leg_ReservedKg l >= 0 ->
  whole (leg_DepartureAt l) -> whole (leg_ArrivalAt l) -> whole (leg_CreatedAt l) ->
  valid_texts (leg_texts l) -> op_agrees (repository.CreateLeg l).
Proof.
  intros Hid Hkey Ht Hcap Hr Hd Ha Hc Htx. eapply (agreed _ _ _ (Ok tt)).
  - unfold exec, postgres_store, postgres.CreateLeg, ok_bind. rewrite attempt_quiet.
    assert (Hq : insert_leg l d = Ok (with_flight_legs (<[leg_ID l := l]> (flight_legs d)) d, 1)).
    { unfold insert_leg. rewrite bound_valid by done. destruct l; simpl in *. rewrite Hd, Ha, Hc. apply checked_pass.
      rewrite !Forall_cons, Forall_nil, !require_true. by split_and!. }
    rewrite Hq. reflexivity.
  - unfold exec, memory_store, memory.CreateLeg. rewrite (mir_legs _ _ Hmir).
    destruct (flight_legs d !! leg_ID l) eqn:Hl; [by destruct Hid; eexists|reflexivity].
  - apply (same_legs _ _ Hmir).
Qed.

Lemma UpdateLegStatus_agrees id status l :
  flight_legs d !! id = Some l -> Leg_CanTransition (leg_Status l) status = true ->
  in_int64 (leg_Version l + 1) -> in_int64 (leg_ReservedKg l) -> valid_text status ->
  op_agrees (repository.UpdateLegStatus (leg_TenantID l) id status (leg_Version l)).
Proof.
  intros Hl Hcan Hv Hr Hst. eapply agreed.
  - by apply (leg_update_quiet d _ _ _ _ l (mir_consistent _ _ Hmir)).
  - unfold exec, memory_store, memory.UpdateLegStatus.
    rewrite (mir_legs _ _ Hmir), Hl, !decide_False, Hcan by naive_solver. simpl. reflexivity.
  - assert (Hsame := same_legs _ _ Hmir
      (<[id := set_leg_Version (leg_Version l + 1) (set_leg_Status status l)]> (flight_legs d))).
    destruct l. simpl in *. by rewrite add64_exact.
Qed.

Lemma PutCustoms_agrees c :
  cc_ID c = cc_ShipmentID c -> has (sql.shipments d) (cc_ShipmentID c) ->
  has_opt (sql.users d) (cc_ReviewedBy c) -> whole (cc_UpdatedAt c) -> valid_texts (customs_texts c) ->
  op_agrees (repository.PutCustoms c).
Proof.
  intros Hid Hs Hu Hat Htx.
  eapply (agreed _ (with_customs_cases (<[cc_ID c := c]> (customs_cases d)) d) _ (Ok tt)).
  - unfold exec, postgres_store. rewrite customs_quiet, Hat; [|intros Hno|done..].
    + rewrite <- Hid. replace (match _ with Some old => cc_ID old | None => cc_ID c end) with (cc_ID c).
      { by destruct c; simpl in *; subst. }
      destruct (customs_cases d !! cc_ID c) as [old|] eqn:Hold; [|done].
      by rewrite (mir_customs_keys _ _ Hmir _ _ Hold).
    + intros i r Hi Hr. rewrite (mir_customs_keys _ _ Hmir _ _ Hi) in Hr. congruence.
  - reflexivity.
  - apply (same_customs _ _ Hmir).
Qed.

Lemma PutSecurity_agrees c :
  sc_ID c = sc_ShipmentID c -> has (sql.shipments d) (sc_ShipmentID c) ->
  has_opt (sql.users d) (sc_OfficerID c) -> timestamptz <$> sc_CheckedAt c = sc_CheckedAt c ->
  valid_texts (security_texts c) -> op_agrees (repository.PutSecurity c).
Proof.
  intros Hid Hs Hu Hat Htx.
  eapply (agreed _ (with_security_checks (<[sc_ID c := c]> (security_checks d)) d) _ (Ok tt)).
  - unfold exec, postgres_store. rewrite security_quiet, Hat; [|intros Hno|done..].
    + rewrite <- Hid. replace (match _ with Some old => sc_ID old | None => sc_ID c end) with (sc_ID c).
      { by destruct c; simpl in *; subst. }
      destruct (security_checks d !! sc_ID c) as [old|] eqn:Hold; [|done].
      by rewrite (mir_security_keys _ _ Hmir _ _ Hold).
    + intros i r Hi Hr. rewrite (mir_security_keys _ _ Hmir _ _ Hi) in Hr. congruence.
  - reflexivity.
  - apply (same_security _ _ Hmir).
Qed.

(** ** Listings and counts *)

Lemma first_rows_page n (l : list Shipment) sorted :
  0 <= n -> NoDup (sh_CreatedAt <$> l) -> sorted ≡ₚ l -> sorted_by (less_on sh_CreatedAt) sorted ->
  first_rows sh_CreatedAt sh_ID n l = Ok (take (Z.to_nat n) sorted).
Proof.
  intros Hn Hnd Hp Hs. unfold first_rows. rewrite decide_False by lia. do 2 f_equal.
  assert (Hsep : forall x y, x ∈ l -> y ∈ l -> sh_CreatedAt x = sh_CreatedAt y -> x = y).
  { intros x y [i Hi]%list_elem_of_lookup [j Hj]%list_elem_of_lookup Hxy.
    assert (i = j) as ->; [|congruence]. apply (NoDup_lookup (sh_CreatedAt <$> l) i j (sh_CreatedAt x)); [done|..];
      rewrite list_lookup_fmap; [by rewrite Hi|rewrite Hj; simpl; congruence]. }
  rewrite (SliceStable_ext _ (less_on sh_CreatedAt)).
  - apply (sorted_by_unique (less_on sh_CreatedAt)); [|apply SliceStable_sorted; auto with go|done|by rewrite SliceStable_perm, Hp].
    intros x y Hx Hy. rewrite SliceStable_perm in Hx, Hy. unfold less_on. rewrite !bool_decide_eq_false.
    intros. apply Hsep; [done..|lia].
  - by eapply NoDup_fmap_1.
  - intros x y Hx Hy Hxy. unfold row_before, less_on. rewrite decide_False; [done|]. auto.
Qed.

Lemma ListShipments_agrees order tenant req : valid_text tenant -> listable order tenant d ->
  exists r, exec (repository.ListShipments order tenant req) m = (m, r) /\
    exec (repository.ListShipments order tenant req) (quiet d) = (quiet d, r).
Proof.
  intros Htx [Hord Hnd]. rewrite <- (mir_shipments _ _ Hmir) in Hord.
  destruct (ListShipments_memory order tenant req m Hord) as (sorted & Hm & Hp & Hs).
  eexists. split; [exact Hm|]. unfold of_tenant in *. rewrite (mir_shipments _ _ Hmir) in *.
  unfold exec, postgres_store, postgres.ListShipments, ok_bind. rewrite select_quiet by texts.
  fold (rows (sql.shipments d)) in *. pose proof (Normalized_limit req).
  rewrite (first_rows_page _ _ sorted) by (done || lia). rewrite select_later_quiet by texts. reflexivity.
Qed.

Lemma Summary_agrees tenant : valid_text tenant ->
  exists r, exec (repository.Summary tenant) m = (m, r) /\
    exec (repository.Summary tenant) (quiet d) = (quiet d, r).
Proof.
  intros Htx. exists (Ok (count_outbox tenant d)). unfold exec, postgres_store, memory_store, postgres.Summary, memory.Summary.
  rewrite select_quiet by texts. split; [|done].
  rewrite (mir_outbox _ _ Hmir), map_fold_foldr. unfold count_outbox, rows.
  set (pending := fun v : OutboxEvent => ob_TenantID v = tenant /\ ob_PublishedAt v = None).
  generalize (map_to_list (outbox_events d)) as l. intros l.
  match goal with |- (let '(_, _) := ?p in _) = (_, Ok ?q) => assert (Hpq : p = q) end.
  { induction l as [|[k v] l IH]; [done|]. rewrite fmap_cons. cbn [foldr uncurry snd]. rewrite IH, filter_cons. unfold pending.
    repeat (case_decide; rewrite ?filter_cons; cbn [length]); try tauto; f_equal; lia. }
  by rewrite Hpq.
Qed.
End writes.

(** ** The use cases *)

Section use_cases.
Context (m : memory.Store) (d : DB) (Hmir : mirrors m d).

Lemma agrees_op {A X} (op : storeop X) (k : X -> prog A) :
  op_agrees m d op -> (forall m' d' x, mirrors m' d' -> agrees (k x) m' d') -> agrees (Call op k) m d.
Proof. intros (m' & d' & x & Hm & Hd & Hmir') Hk. by eapply agrees_call; [..|apply Hk]. Qed.

Lemma agrees_read {A X} (op : storeop X) (k : X -> prog A) (P : X -> Prop) :
  (exists r, exec op m = (m, r) /\ exec op (quiet d) = (quiet d, r) /\ P r) ->
  (forall r, P r -> agrees (k r) m d) -> agrees (Call op k) m d.
Proof. intros (r & Hm & Hd & Hr) Hk. eapply agrees_call; [done..|]. by apply Hk. Qed.

Lemma agrees_after {A B} (p : prog A) (f : A -> prog B) x :
  run p m = (m, x) -> run p (quiet d) = (quiet d, x) -> agrees (f x) m d -> agrees (prog_bind p f) m d.
Proof. intros Hm Hd (m' & d' & y & Hm' & Hd' & Hend). exists m', d', y. by rewrite !run_bind, Hm, Hd. Qed.

(** Ends of a program after its last call. *)
Ltac settle := intros; repeat case_match; simplify_eq; by apply agrees_Ret.

Lemma Authenticate_agrees token now :
  exists r, run (Authenticate token now) m = (m, r) /\ run (Authenticate token now) (quiet d) = (quiet d, r) /\
    forall u se, r = Ok (u, se) -> sql.users d !! u_ID u = Some u.
Proof.
  unfold Authenticate. case_decide; [by eexists|]. cbn [run].
  destruct (GetSession_agrees m d Hmir token) as (r & r' & -> & -> & Hr).
  destruct r as [v|e], r' as [w|e']; try done; [|subst; by eexists]. destruct Hr as [Hr Hwid].
  rewrite <- (IsSessionActive_proper v w Hr now now eq_refl).
  destruct (IsSessionActive v now) eqn:Hact; [by eexists|].
  assert (v = w) as <-.
  { apply live_session_eq; [done|]. unfold IsSessionActive in Hact. by destruct (ses_RevokedAt v). }
  assert (Huid : valid_text (ses_UserID v)).
  { done. }
  cbn [run]. destruct (GetUser_agrees m d Hmir (ses_UserID v) Huid) as (q & -> & -> & Hq).
  destruct q as [u|e]; [|by eexists]. simpl. destruct (u_Active u); eexists; (split; [done|]); (split; [done|]).
  - intros ? ? [= <- <-]. by apply Hq.
  - done.
Qed.

Lemma Login_agrees a email password raw rid now :
  portable (RLogin a email password raw rid now) d -> agrees (Login a email password raw rid now) m d.
Proof.
  intros (Htx & Hn & Ht & Hid & Hraw). split_texts Htx.
  unfold Login. eapply agrees_read; [by apply GetUserByEmail_agrees|].
  intros [u|e] Hu; [|by apply agrees_Ret]. destruct (negb (u_Active u)); [by apply agrees_Ret|].
  destruct (Compare _ _); [by apply agrees_Ret|].
  destruct raw as [b|e]; [|by apply agrees_Ret]. simpl in *. apply agrees_op; [|settle].
  specialize (Hu u eq_refl). apply CreateSession_agrees; try done; simpl; [by eexists|].
  destruct (users_rows _ (mir_consistent _ _ Hmir) _ _ Hu) as (_ & _ & _ & Hux). split_texts Hux. pose proof (hash_text (hex_encode b)). texts.
Qed.

Lemma Logout_agrees token now : agrees (Logout token now) m d.
Proof.
  unfold Logout. case_decide; [by apply agrees_Ret|].
  destruct (RevokeSession_agrees m d Hmir token now) as (m' & d' & x & y & Hm & Hd & Hmir' & Hx & Hy).
  exists m', d', (Ok tt). cbn [run]. rewrite Hm, Hd. by destruct Hx as [->| ->], Hy as [->| ->].
Qed.

Lemma DeactivateUser_case actor target now1 now2 :
  portable (RDeactivateUser actor target now1 now2) d -> agrees (DeactivateUser actor target now1 now2) m d.
Proof.
  intros [Htx Hn]. split_texts Htx. unfold DeactivateUser.
  destruct (Authenticate_agrees actor now1) as (r & Ha & Hd & _). apply (agrees_after _ _ r); [done..|].
  destruct r as [[u se]|e]; [|by apply agrees_Ret]. case_decide; [by apply agrees_Ret|].
  apply agrees_op; [by apply DeactivateUser_agrees|settle].
Qed.

Lemma CreateShipment_case u s k rid now :
  portable (RCreateShipment u s k rid now) d -> agrees (CreateShipment u s k rid now) m d.
Proof.
  intros (Htx & Hk & Ht & H4 & Hl & Hn). unfold CreateShipment. case_decide; [by apply agrees_Ret|].
  pose proof Htx as Htx'. split_texts Htx'.
  destruct (ValidateShipment _) eqn:Hv; [by apply agrees_Ret|]. rewrite decide_True by done.
  eapply agrees_read; [by apply FindByIdempotency_agrees|].
  intros r [[old ->]|[-> Hfree]]; [by apply agrees_Ret|]. simpl.
  apply agrees_op; [|settle]. unfold ValidateShipment in Hv. repeat case_decide; try done.
  unfold new_shipment in *. simpl in *. apply CreateShipment_agrees; simpl; done || lia || exact Htx.
Qed.

Lemma GetShipment_case u id : portable (RGetShipment u id) d -> agrees (GetShipment u id) m d.
Proof. intros [Htx _]. split_texts Htx. eapply agrees_read; [by apply GetShipment_agrees|]. intros. by apply agrees_Ret. Qed.

Lemma ListShipments_case order u req :
  portable (RListShipments order u req) d -> agrees (ListShipments order u req) m d.
Proof.
  intros [Htx Hl]. split_texts Htx. unfold ListShipments. case_decide; [by apply agrees_Ret|].
  destruct (ListShipments_agrees m d Hmir order (u_TenantID u) req) as (r & Hm & Hd); [done..|].
  eapply agrees_call; [done..|]. by apply agrees_Ret.
Qed.

Lemma BookShipment_case u id legID now :
  portable (RBookShipment u id legID now) d -> agrees (BookShipment u id legID now) m d.
Proof.
  intros (Htx & Hn & Hr). pose proof Htx as Htx'. split_texts Htx'. unfold BookShipment. case_decide; [by apply agrees_Ret|].
  eapply agrees_read; [by apply GetShipment_agrees|]. intros [s|e] Hs; [|by apply agrees_Ret].
  eapply agrees_read; [by apply GetLeg_agrees|]. intros [l|e] Hl; [|by apply agrees_Ret].
  destruct (negb _ || _); [by apply agrees_Ret|]. case_decide; [by apply agrees_Ret|].
  apply agrees_op; [|settle]. apply BookShipment_agrees; [done| |done|exact Htx].
  intros s' l' [Hs' _]%shipment_of_Some [Hl' _]%leg_of_Some. by rewrite Hs', Hl' in Hr.
Qed.

Lemma store_transition_agrees s id next now :
  sql.shipments d !! id = Some s -> whole now -> in_int4 (sh_Pieces s) -> in_int64 (sh_Version s + 1) ->
  valid_text next -> agrees (store_transition s next now) m d.
Proof.
  intros Hs Hn H4 Hv Hnext. unfold store_transition.
  destruct (shipments_rows _ (mir_consistent _ _ Hmir) _ _ Hs) as (Hid & _ & _ & _ & _ & Htx).
  assert (Htx' : valid_texts (shipment_texts (set_sh_UpdatedAt now (set_sh_Status next s)))).
  { destruct s. split_texts Htx. unfold shipment_texts, valid_texts. simpl. rewrite !Forall_cons. by split_and!. }
  apply agrees_op; [|settle].
  replace (sh_Version (set_sh_UpdatedAt now (set_sh_Status next s))) with (sh_Version s) by (by destruct s).
  apply (UpdateShipment_agrees m d Hmir _ s); try exact Htx'; destruct s; simpl in *; subst; done.
Qed.

Lemma TransitionShipment_case u id next now :
  portable (RTransitionShipment u id next now) d -> agrees (TransitionShipment u id next now) m d.
Proof.
  intros (Htx & Hn & Hp). split_texts Htx. unfold TransitionShipment. case_decide; [by apply agrees_Ret|].
  eapply agrees_read; [by apply GetShipment_agrees|]. intros [s|e] Hs; [|by apply agrees_Ret].
  destruct (Hs s eq_refl) as [Hrow _]. destruct (negb _); [by apply agrees_Ret|].
  rewrite Hrow in Hp. destruct Hp. case_decide; [|by eapply store_transition_agrees].
  destruct (GetCustoms_agrees m d Hmir id) as (c & Hc & Hc'); [done|]. eapply agrees_call; [done..|].
  destruct (GetSecurity_agrees m d Hmir id) as (q & Hq & Hq'); [done|]. eapply agrees_call; [done..|].
  destruct c, q; try by apply agrees_Ret. destruct (_ || _); [by apply agrees_Ret|].
  by eapply store_transition_agrees.
Qed.

Lemma CreateLeg_case u l rid now1 now2 :
  portable (RCreateLeg u l rid now1 now2) d -> agrees (CreateLeg u l rid now1 now2) m d.
Proof.
  intros (Htx & Hid & Hkey & Ht & Hr & Hd & Ha & Hn). split_texts Htx. unfold CreateLeg. case_decide; [by apply agrees_Ret|].
  destruct (ValidateLeg _ now2) eqn:Hv; [by apply agrees_Ret|]. apply agrees_op; [|settle].
  unfold ValidateLeg in Hv. case_decide; [done|]. simpl in *. apply CreateLeg_agrees; simpl; done || lia || texts.
Qed.

Lemma OpenLeg_case u id : portable (ROpenLeg u id) d -> agrees (OpenLeg u id) m d.
Proof.
  intros [Htx Hp]. split_texts Htx. unfold OpenLeg. case_decide; [by apply agrees_Ret|].
  eapply agrees_read; [by apply GetLeg_agrees|]. intros [l|e] Hl; [|by apply agrees_Ret].
  destruct (Hl l eq_refl) as [Hrow <-]. simpl in Hp. rewrite Hrow in Hp. destruct Hp as (Hcan & Hv & Hr).
  apply agrees_op; [apply UpdateLegStatus_agrees; try done; by apply (bool_decide_unpack _); vm_compute|settle].
Qed.

Lemma PutCustoms_case u c rid now : portable (RPutCustoms u c rid now) d -> agrees (PutCustoms u c rid now) m d.
Proof.
  intros (Htx & Hid & Hrev & Hn). split_texts Htx. unfold PutCustoms. case_decide; [by apply agrees_Ret|].
  eapply agrees_read; [by apply GetShipment_agrees|]. intros [s|e] Hs; [|by apply agrees_Ret].
  destruct (Hs s eq_refl) as [Hrow _].
  destruct (GetCustoms_agrees m d Hmir (cc_ShipmentID c)) as (old & Hm & Hd); [done|]. eapply agrees_call; [done..|].
  assert (Hput : forall A (k : result unit -> prog A), (forall m' d' x, mirrors m' d' -> agrees (k x) m' d') ->
    agrees (Call (repository.PutCustoms (mkCustomsCase (nonEmpty (cc_ID c) (randomID rid)) (cc_ShipmentID c)
      (cc_Status c) (cc_DocumentRef c) (cc_ReviewedBy c) now)) k) m d).
  { intros A k Hk. apply agrees_op; [|done]. apply PutCustoms_agrees; try done; [by eexists|].
    simpl in Hid |- *. rewrite Hid. unfold customs_texts. simpl. by repeat (apply Forall_cons_2; [done|]). }
  destruct old as [old|e]; [destruct (negb _); [by apply agrees_Ret|]|]; apply Hput; settle.
Qed.

Lemma PutSecurity_case u v rid now : portable (RPutSecurity u v rid now) d -> agrees (PutSecurity u v rid now) m d.
Proof.
  intros (Htx & Hid & Hu & Hoff & Hn & Hat). split_texts Htx. unfold PutSecurity. case_decide; [by apply agrees_Ret|].
  eapply agrees_read; [by apply GetShipment_agrees|]. intros [s|e] Hs; [|by apply agrees_Ret].
  destruct (Hs s eq_refl) as [Hrow _]. cbv zeta. apply agrees_op; [|settle].
  assert (Hvid : valid_text (nonEmpty (sc_ID v) (randomID rid))) by (by rewrite Hid).
  case_decide; apply PutSecurity_agrees; simpl; try done; [by eexists|by rewrite Hn|texts|by eexists|].
  unfold security_texts. simpl. by repeat (apply Forall_cons_2; [done|]).
Qed.

Lemma Summary_case order u : portable (RSummary order u) d -> agrees (Summary order u) m d.
Proof.
  intros [Htx Hl]. split_texts Htx. unfold Summary. case_decide; [by apply agrees_Ret|].
  destruct (ListShipments_agrees m d Hmir order (u_TenantID u) (mkPageRequest 200 "" "")) as (r & Hm & Hd); [done..|].
  eapply agrees_call; [done..|]. destruct r as [items|e]; [|by apply agrees_Ret].
  destruct (Summary_agrees m d Hmir (u_TenantID u)) as (q & Hm' & Hd'); [done|].
  eapply agrees_call; [done..|]. destruct q as [[]|e]; [|by apply agrees_Ret]. destruct (foldl _ _ _). by apply agrees_Ret.
Qed.
End use_cases.

(** ** The server *)

Section http.
Context (app : Application).

(** The use case that a protected route runs for a user; none for a bad body. *)
Definition asked (authorization : string) (e : env) (p : protected_route) (u : User) : option request :=
  match p with
  | PostLogout => Some (RLogout (token_of authorization) (env_now e))
  | PostShipments (Some s) key => Some (RCreateShipment u s key (env_rid e) (env_now e))
  | GetShipments limit cursor =>
      Some (RListShipments (env_order e) u (mkPageRequest (Atoi limit) cursor ""))
  | PostShipmentBook id (Some leg) => Some (RBookShipment u id leg (env_now e))
  | PostShipmentTransition id (Some next) => Some (RTransitionShipment u id next (env_now e))
  | PostFlightLegs (Some l) => Some (RCreateLeg u l (env_rid e) (env_now e) (env_now2 e))
  | PostFlightLegOpen id => Some (ROpenLeg u id)
  | PostCustoms sid (Some (mkCustomsCase id _ st doc by_ upd)) =>
      Some (RPutCustoms u (mkCustomsCase id sid st doc by_ upd) (env_rid e) (env_now e))
  | PostSecurity sid (Some (mkSecurityCheck id _ st officer notes at_)) =>
      Some (RPutSecurity u (mkSecurityCheck id sid st officer notes at_) (env_rid e) (env_now e))
  | GetOperationsSummary => Some (RSummary (env_order e) u)
  | _ => None
  end.

(** A request over HTTP that both stores answer alike. *)
Definition portable_http (r : http_request) d : Prop :=
  let e := rq_env r in
  match rq_route r with
  | Open (PostLogin (Some (email, password))) =>
      portable (RLogin app email password (env_raw e) (env_rid e) (env_now e)) d
  | Open _ => True
  | Protected p =>
      match (run (Authenticate (token_of (rq_authorization r)) (env_auth e)) (quiet d)).2 with
      | Ok (u, _) =>
          match asked (rq_authorization r) e p u with Some q => portable q d | None => True end
      | Err _ => True
      end
  end.

Lemma respond_agrees {A} (p : prog (result A)) ok show m d :
  agrees p m d -> agrees (respond p ok show) m d.
Proof. intros Hp. apply agrees_bind; [done|]. intros. by apply agrees_Ret. Qed.

Lemma protected_agrees authorization e p u m d :
  mirrors m d -> match asked authorization e p u with Some q => portable q d | None => True end ->
  agrees (protected_handler authorization e p u) m d.
Proof.
  intros Hmir Hp.
  destruct p as [|[x|] idem|limit cursor|id [leg|]|id [next|]|[l|]|id|id [[]|]|id [[]|]|];
    try by apply agrees_Ret.
  all: apply respond_agrees.
  - by apply Logout_agrees.
  - by apply CreateShipment_case.
  - by apply ListShipments_case.
  - by apply BookShipment_case.
  - by apply TransitionShipment_case.
  - by apply CreateLeg_case.
  - by apply OpenLeg_case.
  - by apply PutCustoms_case.
  - by apply PutSecurity_case.
  - by apply Summary_case.
Qed.

Lemma handle_agrees r m d : mirrors m d -> portable_http r d -> agrees (handle app r) m d.
Proof.
  intros Hmir Hp. destruct r as [authorization [[| |[[email password]|]]|p] e]; unfold handle, router; cbn [rq_route open_handler].
  - by apply agrees_Ret.
  - unfold ready, Ping. cbn [prog_bind]. eapply agrees_call; [reflexivity..|]. by apply agrees_Ret.
  - apply respond_agrees. by apply Login_agrees.
  - by apply agrees_Ret.
  - unfold portable_http in Hp. cbn [rq_route rq_authorization rq_env] in *. unfold auth.
    destruct (Authenticate_agrees m d Hmir (token_of authorization) (env_auth e)) as (x & Hm & Hd & _).
    eapply agrees_after; [exact Hm|exact Hd|]. rewrite Hd in Hp.
    destruct x as [[u se]|err]; [|by apply agrees_Ret].
    rewrite mustUser_WithUser. by apply protected_agrees.
Qed.

(** Requests answered one after the other. *)
Fixpoint answers {state} `{repository.Store state} (rs : list http_request) (s : state)
    : state * list response :=
  match rs with
  | [] => (s, [])
  | r :: rs => let '(s, x) := run (handle app r) s in let '(s, xs) := answers rs s in (s, x :: xs)
  end.

(** Each request is portable in the database it meets. *)
Fixpoint all_portable (rs : list http_request) (s : postgres.Store) : Prop :=
  match rs with
  | [] => True
  | r :: rs => portable_http r (db s) /\ all_portable rs (run (handle app r) s).1
  end.

(** C12. The two stores are interchangeable for portable requests: from stores that
    mirror each other a client gets the same responses to any sequence
    of HTTP requests, errors included, and the stores mirror each other after it. *)
Theorem stores_interchangeable rs m d :
  mirrors m d -> all_portable rs (quiet d) ->
  exists m' d' xs, answers rs m = (m', xs) /\ answers rs (quiet d) = (quiet d', xs) /\ mirrors m' d'.
Proof.
  revert m d. induction rs as [|r rs IH]; intros m d Hmir; [by exists m, d, []|].
  intros [Hr Hrs]. destruct (handle_agrees r m d Hmir Hr) as (m1 & d1 & x & Hm & Hd & Hmir1).
  rewrite Hd in Hrs. destruct (IH m1 d1 Hmir1 Hrs) as (m2 & d2 & xs & Hm2 & Hd2 & Hmir2).
  exists m2, d2, (x :: xs). simpl. by rewrite Hm, Hd, Hm2, Hd2.
Qed.
End http.
End agreement.

(** ** A day on both stores *)

#[export] Instance whole_dec t : Decision (whole t).
Proof. unfold whole. apply _. Defined.

#[export] Instance in_range_dec s l : Decision (in_range s l).
Proof. unfold in_range. apply _. Defined.

#[export] Instance range_order_dec {A} (m : gmap string A) ks : Decision (range_order m ks).
Proof.
  refine (cast_if (decide (NoDup ks /\ list_to_set ks = dom m))); unfold range_order.
  - destruct a as [Hnd Hks]. split; [done|]. intros k. rewrite <- elem_of_dom, <- Hks. by rewrite elem_of_list_to_set.
  - intros [Hnd Hks]. destruct n. split; [done|]. apply set_eq. intros k.
    by rewrite elem_of_list_to_set, elem_of_dom.
Defined.

#[export] Instance listable_dec order tenant d : Decision (listable order tenant d).
Proof. unfold listable. apply _. Defined.

Section decisions.
Context `{External} `{Server}.

#[export] Instance portable_dec r d : Decision (portable r d).
Proof.
  destruct r as [a email password [b|err] rid now| | | | | |u id leg now|u id next now| |u id| | |]; unfold portable; cbv beta iota;
    try apply _.
  - destruct (sql.shipments d !! id), (flight_legs d !! leg); apply _.
  - destruct (sql.shipments d !! id); apply _.
  - destruct (flight_legs d !! id); apply _.
Defined.

#[export] Instance portable_http_dec app r d : Decision (portable_http app r d).
Proof.
  unfold portable_http. destruct (rq_route r) as [[| |[[email password]|]]|p]; try apply _.
  destruct (run _ _).2 as [[u se]|err]; [|apply _]. destruct (asked _ _ p u); apply _.
Defined.

#[export] Instance all_portable_dec app rs s : Decision (all_portable app rs s).
Proof. revert s. induction rs; intros s; simpl; apply _. Defined.

(** Stores with one user. *)
Lemma mirrors_one_user t u :
  u_TenantID u = t_ID t -> u_Role u ∈ roles -> free_of "|" (t_ID t) -> valid_texts (user_texts u) ->
  mirrors (memory.with_users {[ u_ID u := u ]} (memory.with_byEmail {[ u_Email u := u_ID u ]} memory.New))
    (sql.with_users {[ u_ID u := u ]} (fresh_db {[ t_ID t := t ]})).
Proof.
  intros Ht Hr Hbar Htx. split; split; simpl; try done; try (by intros ? ? ?%lookup_empty_Some);
    try (by intros ? ? ? ? ?%lookup_empty_Some); try (by apply map_Forall_empty).
  - by intros k v [<- <-]%lookup_singleton_Some.
  - intros e k [<- <-]%lookup_singleton_Some. rewrite lookup_singleton_eq. by eexists.
  - apply map_Forall_singleton. split_and!; [done..| |done]. rewrite Ht. unfold has. simpl.
    rewrite lookup_singleton_eq. by eexists.
  - by intros i j a b [<- <-]%lookup_singleton_Some [<- <-]%lookup_singleton_Some.
  - setoid_rewrite lookup_singleton_Some. naive_solver.
  - intros t' k id _ _. split; [by intros ?%lookup_empty_Some|]. intros (s & Hs & _). by apply lookup_empty_Some in Hs.
  - intros t' [x [<- _]%lookup_singleton_Some]. done.
Qed.
End decisions.

Section day.
#[local] Existing Instance sample_external.
#[local] Existing Instance sample_server.

Definition clerk : User :=
  mkUser "u-cora" "acme" "cora@acme.example" "secret" RoleCoordinator true 1000 None.
Definition start_memory : memory.Store :=
  memory.with_users {[ "u-cora" := clerk ]}
    (memory.with_byEmail {[ "cora@acme.example" := "u-cora" ]} memory.New).
Definition start_db : DB := sql.with_users {[ "u-cora" := clerk ]} (fresh_db {[ "acme" := mkTenant "acme" "Acme" true 0 ]}).

Definition clerk_asks (t : Time) (p : protected_route) : http_request :=
  mkRequest ("Bearer " +:+ hex_encode "tok") (Protected p)
    (mkEnv t t t "rid" (Ok "tok2") ["S1"]).

(** A login, a leg, a shipment and its booking, the way through screening to the gate,
    where the customs case is missing and then released; refused and repeated
    requests; and a logout. *)
Definition clerk_day : list http_request :=
  let ask := clerk_asks in
  [mkRequest "" (Open (PostLogin (Some ("cora@acme.example", "secret")))) (mkEnv 1000 1000 1000 "sid" (Ok "tok") []);
   ask 2000 (PostFlightLegs (Some (mkFlightLeg "L1" "" "AB123" "PEK" "FRA" 5000000 9000000 100 0 "" 0 0)));
   ask 3000 (PostFlightLegOpen "L1");
   ask 4000 (PostShipments (Some (mkShipment "S1" "" "REF-1" "PEK" "FRA" 60 2 "" None "" 0 0 0)) "key");
   ask 5000 (PostShipments (Some (mkShipment "S1" "" "REF-1" "PEK" "FRA" 60 2 "" None "" 0 0 0)) "key");
   ask 6000 (PostShipmentBook "S1" (Some "L1"));
   ask 7000 (PostShipmentBook "S1" (Some "L1"));
   ask 8000 (PostShipmentTransition "S1" (Some ShipmentScreening));
   ask 9000 (PostShipmentTransition "S1" (Some ShipmentCleared));
   ask 10000 (PostShipmentTransition "S1" (Some ShipmentLoaded));
   ask 11000 (PostCustoms "S1" (Some (mkCustomsCase "S1" "" CustomsReleased "doc" None 0)));
   ask 12000 (PostSecurity "S1" (Some (mkSecurityCheck "S1" "" SecurityPassed None "" None)));
   ask 13000 (PostShipmentTransition "S1" (Some ShipmentLoaded));
   ask 14000 (GetShipments "10" "");
   ask 15000 GetOperationsSummary;
   ask 16000 PostLogout;
   ask 17000 GetOperationsSummary].

(** A reference with a NUL, which is no text for PostgreSQL: the in-memory store
    creates the shipment, the other server answers with an internal error. *)
Example nul_text_splits :
  let asked := [clerk_asks 4000 (PostShipments (Some
    (mkShipment "S1" "" (String Ascii.zero "REF") "PEK" "FRA" 60 2 "" None "" 0 0 0)) "key")] in
  let day := take 1 clerk_day ++ asked in
  rs_status <$> (answers (mkApplication Hour) day start_memory).2 = [200; 201] /\
  rs_status <$> (answers (mkApplication Hour) day (quiet start_db)).2 = [200; 500].
Proof. split; vm_compute; reflexivity. Qed.

Lemma stores_interchangeable_witness :
  let hour := mkApplication Hour in
  (answers hour clerk_day (quiet start_db)).2 = (answers hour clerk_day start_memory).2 /\
  rs_status <$> (answers hour clerk_day (quiet start_db)).2 =
    [200; 201; 200; 201; 201; 200; 409; 200; 200; 409; 200; 200; 200; 200; 200; 204; 401].
Proof.
  intros hour. split; [|vm_compute; reflexivity].
  destruct (stores_interchangeable hour clerk_day start_memory start_db) as (m' & d' & xs & Hm & Hd & _).
  - apply (mirrors_one_user (mkTenant "acme" "Acme" true 0) clerk);
      [reflexivity|apply (bool_decide_unpack _); vm_compute; exact I..].
  - apply (bool_decide_unpack _). vm_compute. exact I.
  - rewrite Hm, Hd. reflexivity.
Defined.
End day.
