(* ===== verification/gate.v ===== *)
(** * The gate before loading

    Over the PostgreSQL store: cargo that is booked on a leg and loaded has been
    released by customs, through any sequence of requests ([internal/service] over
    [internal/repository/postgres]); how the release can be lost when a statement fails
    or in a race; and that cargo that fits an open leg gets through to its departure. *)

From S2P Require Import Prelude.
From S2P Require Import golang.
From S2P Require Import domain.
From S2P Require Import external.
From S2P Require Import repository.
From S2P Require Import sql.
From S2P Require Import postgres.
From S2P Require Import interleave.
From S2P Require Import service.
From S2P Require Import httpapi.
From S2P Require Import stores.
From S2P Require Import agreement.

Open Scope string_scope.
Open Scope list_scope.
Open Scope Z_scope.

Section gate.
Context `{External} `{Server}.
Implicit Types (d : DB) (s : postgres.Store) (t : tables).

(** The shipment is on board or gone. *)
Definition on_board (st : ShipmentStatus) : Prop := st = ShipmentLoaded \/ st = ShipmentDeparted.

Definition released (id : string) t : Prop :=
  exists c, tb_customs t !! id = Some c /\ cc_Status c = CustomsReleased.

(** Booked cargo on board is released. *)
Definition gated t : Prop := forall id v,
  tb_shipments t !! id = Some v -> sh_LegID v <> None -> on_board (sh_Status v) -> released id t.

(** What a call must not do. *)
Definition respects {X} (op : storeop X) t : Prop :=
  match op with
  | repository.CreateShipment v => ~ on_board (sh_Status v)
  | repository.UpdateShipment v _ => sh_LegID v <> None -> on_board (sh_Status v) -> released (sh_ID v) t
  | repository.PutCustoms v => released (cc_ShipmentID v) t -> cc_Status v = CustomsReleased
  | _ => True
  end.

Lemma gated_insert t id v : gated t -> (sh_LegID v <> None -> on_board (sh_Status v) -> released id t) ->
  gated (set_shipments (<[id := v]> (tb_shipments t)) t).
Proof.
  intros Ht Hv. destruct t as [us ss sh lg cu se]. intros id' v'. simpl. rewrite lookup_insert.
  case_decide as Hid; [by intros [= <-]; subst|apply Ht].
Qed.

Lemma gated_same t t' : tb_shipments t' = tb_shipments t -> tb_customs t' = tb_customs t ->
  gated t -> gated t'.
Proof. unfold gated, released. by intros -> ->. Qed.

Lemma put_customs_rows v d d' n : put_customs v d = Ok (d', n) ->
  shipments d' = shipments d /\ exists c, cc_Status c = cc_Status v /\
    customs_cases d' = <[cc_ShipmentID v := c]> (customs_cases d).
Proof.
  intros Hq. unfold put_customs, bound in Hq. case_decide; [|done]. destruct v as [id sid st doc by_ at_]; simpl in *.
  destruct (customs_cases d !! sid); apply checked_Ok in Hq as (_ & -> & _);
    destruct d; (split; [done|]); eexists; (split; [|reflexivity]); done.
Qed.

(** A call that respects the gate and succeeds keeps it. *)
Lemma exec_gated_ok X (op : storeop X) s s' x :
  consistent (db s) -> exec op s = (s', x) -> op_error op x = None ->
  respects op (postgres.view s) -> gated (postgres.view s) -> gated (postgres.view s').
Proof.
  intros Hs Hop Hok Hr Hg. pose proof (postgres.pg_exec_post X op s s' x Hs Hop (or_introl Hok)) as Hpost.
  unfold store_post in Hpost.
  destruct op; simpl in Hpost; lazymatch type of Hpost with
    | reads _ _ _ _ => destruct Hpost as [-> _]; exact Hg
    | elsewhere _ _ _ => unfold elsewhere in Hpost; rewrite Hpost; exact Hg
    | _ => destruct x as [x|e]; unfold writes in Hpost; [|rewrite Hpost; exact Hg]
    end;
    [destruct Hpost as (c & d & ->)|destruct Hpost as (u & m & a & _ & _ & ->)
    |destruct Hpost as (e & r & c & ->)|destruct Hpost as (h & m & _ & ->)|destruct Hpost as (m & _ & ->)
    | | |destruct Hpost as (_ & c & a & q & ->)|destruct Hpost as (l & _ & _ & _ & _ & ->)
    |destruct Hpost as (l & _ & _ & _ & ->)| | |destruct Hpost as (m & ->)].
  all: try (apply (gated_same (postgres.view s)); [by destruct (postgres.view s)..|done]).
  - destruct Hpost as [[-> _]|(_ & c & u & ->)]; [done|]. apply gated_insert; [done|].
    intros _ Hb. destruct Hr. by destruct v.
  - destruct Hpost as (old & key & c & u & _ & _ & _ & ->). apply gated_insert; [done|].
    intros Hl Hb. destruct v. by apply Hr.
  - destruct Hpost as (sh & l & u & Hsh & _ & _ & _ & _ & _ & _ & _ & _ & _ & _ & _ & ->).
    set (t' := set_legs _ _).
    replace (tb_shipments (postgres.view s)) with (tb_shipments t') by (by subst t'; destruct (postgres.view s)).
    apply gated_insert; [|by destruct sh; intros _ [?|?]].
    apply (gated_same (postgres.view s)); [by subst t'; destruct (postgres.view s)..|done].
  - apply ok_bind_inv in Hop as [(e & _ & [=])|(s1 & n & Ha & [= <- _])]. apply attempt_inv in Ha.
    apply put_customs_rows in Ha as (Hsh & c & Hc & Hcus). intros id sh. unfold postgres.view, tables_of in *.
    simpl in *. rewrite Hsh. intros Hid Hl Hb. destruct (Hg id sh Hid Hl Hb) as (old & Hold & Hrel).
    unfold released in *. simpl in *. rewrite Hcus. destruct (decide (id = cc_ShipmentID v)) as [->|Hne].
    + exists c. rewrite lookup_insert_eq, Hc. split; [done|]. apply Hr. by exists old.
    + exists old. by rewrite lookup_insert_ne.
Qed.

(** And so does one that fails, whatever failed: it has done nothing, or all. *)
Lemma exec_gated X (op : storeop X) s s' x :
  consistent (db s) -> exec op s = (s', x) -> respects op (postgres.view s) -> gated (postgres.view s) ->
  gated (postgres.view s').
Proof.
  intros Hs Hop Hr Hg. destruct (op_error op x) as [e|] eqn:He; [|by eapply exec_gated_ok].
  destruct (postgres.pg_exec_failed _ _ _ _ _ _ Hop He) as [Hd|[(y & Hy & Hok) _]].
  - by rewrite (postgres.view_db _ _ Hd).
  - by apply (exec_gated_ok X op (quiet (db s)) (quiet (db s')) y).
Qed.

(** ** Programs *)

Lemma run_consistent {A} (p : prog A) s : consistent (db s) -> consistent (db (run p s).1).
Proof. intros Hs. exact (run_inv (Hlaw := postgres_lawful) p s _ _ Hs (surjective_pairing _)). Qed.

(** The calls that the program makes when it runs from [s] all respect the gate. *)
Fixpoint gate_safe {A} (p : prog A) s : Prop :=
  match p with
  | Ret _ => True
  | Call op k => respects op (postgres.view s) /\ gate_safe (k (exec op s).2) (exec op s).1
  end.

Lemma run_gated {A} (p : prog A) s :
  consistent (db s) -> gate_safe p s -> gated (postgres.view s) -> gated (postgres.view (run p s).1).
Proof.
  revert s. induction p as [x|X op k IH]; intros s Hs; [done|]. intros [Hr Hk] Hg. cbn [run gate_safe] in *.
  destruct (exec op s) as [s' x] eqn:Hop. apply IH; [by eapply exec_consistent|done|by eapply exec_gated].
Qed.

Lemma gate_safe_bind {A B} (p : prog A) (f : A -> prog B) s :
  gate_safe p s -> gate_safe (f (run p s).2) (run p s).1 -> gate_safe (prog_bind p f) s.
Proof.
  revert s. induction p as [x|X op k IH]; intros s; [done|]. cbn [gate_safe prog_bind run].
  destruct (exec op s) as [s' x]. simpl. intros [Hr Hk] Hf. split; [done|]. by apply IH.
Qed.

(** Calls that cannot touch the gate. *)
Definition apart {X} (op : storeop X) : bool :=
  match op with
  | repository.CreateShipment _ | repository.UpdateShipment _ _ | repository.PutCustoms _ => false
  | _ => true
  end.

Lemma apart_respects {X} (op : storeop X) t : apart op = true -> respects op t.
Proof. by destruct op. Qed.

(** [walk] passes the calls that are apart and takes the cases of what they return. *)
Ltac walk :=
  repeat first
    [ exact I
    | match goal with |- gate_safe (Call ?op _) _ => split; [by apply apart_respects|] end
    | match goal with
      | |- context [match (exec ?op ?s).2 with _ => _ end] => destruct (exec op s).2 eqn:?
      end
    | case_match ].

Lemma Authenticate_gate token now s : gate_safe (Authenticate token now) s.
Proof. unfold Authenticate. walk. Qed.

Lemma Login_gate a email password raw rid now s : gate_safe (Login a email password raw rid now) s.
Proof. unfold Login. walk. Qed.

Lemma Logout_gate token now s : gate_safe (Logout token now) s.
Proof. unfold Logout. walk. Qed.

Lemma DeactivateUser_gate actor target now1 now2 s : gate_safe (DeactivateUser actor target now1 now2) s.
Proof. unfold DeactivateUser. apply gate_safe_bind; [apply Authenticate_gate|]. walk. Qed.

Lemma CreateShipment_gate u v key rid now s : gate_safe (CreateShipment u v key rid now) s.
Proof.
  assert (Hnew : forall s0 A (k : result unit -> prog A), (forall x s1, gate_safe (k x) s1) ->
    gate_safe (Call (repository.CreateShipment (new_shipment u v key rid now)) k) s0).
  { intros s0 A k Hk. split; [by intros [?|?]|apply Hk]. }
  unfold CreateShipment. cbv zeta. repeat (case_match; try done); walk; apply Hnew; intros; walk.
Qed.

Lemma BookShipment_gate u id leg now s : gate_safe (BookShipment u id leg now) s.
Proof. unfold BookShipment. walk. Qed.

Lemma CreateLeg_gate u l rid now1 now2 s : gate_safe (CreateLeg u l rid now1 now2) s.
Proof. unfold CreateLeg. walk. Qed.

Lemma OpenLeg_gate u id s : gate_safe (OpenLeg u id) s.
Proof. unfold OpenLeg. walk. Qed.

Lemma PutSecurity_gate u c rid now s : gate_safe (PutSecurity u c rid now) s.
Proof. unfold PutSecurity. walk. Qed.

Lemma ListShipments_gate order u req s : gate_safe (ListShipments order u req) s.
Proof. unfold ListShipments. walk. Qed.

Lemma Summary_gate order u s : gate_safe (Summary order u) s.
Proof. unfold Summary. walk. Qed.

(** A read of the store, its answer and the store after it. *)
Lemma read_row {A} (op : storeop (result A)) P s :
  consistent (db s) -> (forall v r v', store_may op v r v' -> reads P v r v') ->
  consistent (db (exec op s).1) /\ postgres.view (exec op s).1 = postgres.view s /\
  forall v, (exec op s).2 = Ok v -> P (postgres.view s) v.
Proof.
  intros Hs HP. destruct (exec op s) as [s' r] eqn:Hop.
  split; [by eapply exec_consistent|]. simpl. by eapply HP, postgres.pg_exec_may.
Qed.

(** [read Hs v Hv] takes a read of the program: the state after it answers as before,
    and its value [v] is in the tables. *)
Ltac read Hs Hview r Hr :=
  match goal with
  | |- gate_safe (Call ?op _) ?s =>
      split; [by apply apart_respects|];
      let Hs' := fresh "Hs" in
      destruct (read_row op _ s Hs (fun _ _ _ Hpost => Hpost)) as (Hs' & Hview & Hr);
      clear Hs; rename Hs' into Hs; destruct (exec op s).2 as [r|]
  end.

Lemma store_transition_gate v next now s :
  (sh_LegID v <> None -> on_board next -> released (sh_ID v) (postgres.view s)) ->
  gate_safe (store_transition v next now) s.
Proof.
  intros Hv. unfold store_transition. split; [by destruct v|]. walk.
Qed.

Lemma TransitionShipment_gate u id next now s :
  consistent (db s) -> gate_safe (TransitionShipment u id next now) s.
Proof.
  intros Hs. pose proof (shipments_rows _ Hs) as Hrows. unfold TransitionShipment. case_decide; [done|].
  read Hs Hv v Hr; [|done]. destruct (Hr v eq_refl) as [Hid _].
  destruct (Hrows _ _ Hid) as [<- _]. destruct (negb _); [done|]. case_decide as Hgate.
  - read Hs Hv1 c Hc.
    + read Hs Hv2 q Hq; [|done]. destruct (_ || _) eqn:Hallow; [done|].
      apply orb_false_iff in Hallow as [Hcus _]. apply negb_false_iff, bool_decide_eq_true in Hcus.
      apply store_transition_gate. intros _ _. exists c. split; [|done]. rewrite Hv2, Hv1. by apply Hc.
    + read Hs Hv2 q Hq; done.
  - apply store_transition_gate. intros Hl Hb. by destruct Hgate.
Qed.

(** A query for a row while nothing fails, with any texts. *)
Lemma find_row_reads_quiet {A} texts (q : DB -> option A) d :
  exists r, find_row texts q (quiet d) = (quiet d, r) /\ (q d = None -> exists e, r = Err e).
Proof.
  destruct (decide (valid_texts texts)) as [Ht|Ht].
  - rewrite find_row_quiet by done. eexists. split; [done|]. intros ->. by eexists.
  - exists (Err invalid_text). split; [|by eexists]. unfold find_row, query_row, select, query, result_bind.
    rewrite attempt_quiet. unfold bound. by rewrite decide_False.
Qed.

(** While nothing fails a case that is there is found, and a released one stays. *)
Lemma PutCustoms_gate u c rid now s :
  consistent (db s) -> faults s = [] -> gate_safe (PutCustoms u c rid now) s.
Proof.
  intros Hs Hf. destruct s as [d fs]. simpl in Hf. subst fs. fold (quiet d) in *.
  unfold PutCustoms. case_decide; [done|]. split; [done|].
  assert (Hget : exists r, exec (repository.GetShipment (u_TenantID u) (cc_ShipmentID c)) (quiet d) = (quiet d, r)).
  { unfold exec, postgres_store, postgres.GetShipment, shipment.
    destruct (find_row_reads_quiet [u_TenantID u; cc_ShipmentID c]
      (shipment_of (u_TenantID u) (cc_ShipmentID c)) d) as (r & -> & _). by eexists. }
  destruct Hget as [r ->]. cbn [fst snd]. destruct r; [|done]. split; [done|].
  assert (Hcus : exists q, exec (repository.GetCustoms (cc_ShipmentID c)) (quiet d) = (quiet d, q) /\
    match customs_cases d !! cc_ShipmentID c with Some v => q = Ok v | None => exists e, q = Err e end).
  { unfold exec, postgres_store, postgres.GetCustoms.
    destruct (find_row_reads_quiet [cc_ShipmentID c] (fun d => customs_cases d !! cc_ShipmentID c) d)
      as (q & Hq & Hnone). destruct (customs_cases d !! cc_ShipmentID c) as [old|] eqn:Hold.
    - destruct (customs_rows _ Hs _ _ Hold) as (Hid & _ & _ & Htx). split_texts Htx. rewrite Hid in *.
      rewrite find_row_quiet by texts. by rewrite Hold; eexists.
    - exists q. split; [done|]. by apply Hnone. }
  destruct Hcus as (q & -> & Hq). cbn [fst snd]. destruct (customs_cases d !! cc_ShipmentID c) as [old|] eqn:Hold.
  - subst q. destruct (negb _) eqn:Hcan; [done|]. split; [|walk]. intros (c' & Hc' & Hrel).
    unfold postgres.view, tables_of in Hc'. simpl in Hc'. simplify_eq. by rewrite Hrel in Hcan.
  - destruct Hq as [e ->]. split; [|walk]. intros (c' & Hc' & _). unfold postgres.view, tables_of in Hc'. simpl in Hc'. congruence.
Qed.

(** ** Requests *)

Context (app : Application).

(** A request to record a customs case. *)
Definition on_customs (r : http_request) : bool :=
  match rq_route r with Protected (PostCustoms _ _) => true | _ => false end.

Lemma respond_gate {A} (p : prog (result A)) ok show s : gate_safe p s -> gate_safe (respond p ok show) s.
Proof. intros Hp. by apply gate_safe_bind. Qed.

(** Authentication only reads. *)
Lemma Authenticate_quiet token now d : exists x, run (Authenticate token now) (quiet d) = (quiet d, x).
Proof.
  unfold Authenticate. case_decide; [by eexists|]. cbn [run].
  unfold exec at 1, postgres_store at 1, postgres.GetSession.
  destruct (find_row_reads_quiet [HashToken token] (fun d => sessions d !! HashToken token) d) as (r & -> & _).
  destruct r as [v|]; [|by eexists]. case_match; [by eexists|]. cbn [run].
  unfold exec, postgres_store, postgres.GetUser, user.
  destruct (find_row_reads_quiet [ses_UserID v] (fun d => sql.users d !! ses_UserID v) d) as (q & -> & _).
  destruct q; [case_match|]; by eexists.
Qed.

Lemma protected_gate authorization e p u s :
  consistent (db s) -> (match p with PostCustoms _ _ => faults s = [] | _ => True end) ->
  gate_safe (protected_handler authorization e p u) s.
Proof.
  intros Hs Hf.
  destruct p as [|[x|] idem|limit cursor|id [leg|]|id [next|]|[l|]|id|id [[]|]|id [[]|]|]; try done.
  all: apply respond_gate.
  - apply Logout_gate.
  - apply CreateShipment_gate.
  - apply ListShipments_gate.
  - apply BookShipment_gate.
  - by apply TransitionShipment_gate.
  - apply CreateLeg_gate.
  - apply OpenLeg_gate.
  - by apply PutCustoms_gate.
  - apply PutSecurity_gate.
  - apply Summary_gate.
Qed.

Lemma handle_gate r s :
  consistent (db s) -> (on_customs r = true -> faults s = []) -> gate_safe (handle app r) s.
Proof.
  intros Hs Hf. destruct r as [authorization [[| |[[email password]|]]|p] e]; try done.
  - apply respond_gate, Login_gate.
  - unfold handle, router. cbn [rq_route rq_authorization rq_env]. unfold auth.
    apply gate_safe_bind; [apply Authenticate_gate|].
    destruct (run _ s).2 as [[u se]|err] eqn:Hrun; [|done]. rewrite mustUser_WithUser.
    apply protected_gate.
    + by apply run_consistent.
    + destruct p; try done. specialize (Hf eq_refl). destruct s as [d fs]. simpl in Hf. subst fs.
      fold (quiet d). destruct (Authenticate_quiet (token_of authorization) (env_auth e) d) as [x ->]. done.
Qed.

(** Requests one after the other, each with the fate of its statements. *)
Fixpoint day (rs : list (list fate * http_request)) d : DB :=
  match rs with
  | [] => d
  | (fs, r) :: rs => day rs (db (run (handle app r) (postgres.mkStore d fs)).1)
  end.

Lemma day_consistent rs d : consistent d -> consistent (day rs d).
Proof.
  revert d. induction rs as [|[fs r] rs IH]; intros d Hd; [done|]. apply IH.
  by apply run_consistent.
Qed.

(** C7. Nothing is loaded before customs has released it: over the PostgreSQL store,
    after any sequence of HTTP requests run one after the other, a shipment that has a
    leg and is loaded or departed has a customs case, and its case is released.
    Statements may be refused and acknowledgements lost anywhere, except in the requests
    that record a customs case. *)
Theorem loaded_cargo_is_released rs d :
  consistent d -> gated (tables_of d) -> Forall (fun q => on_customs q.2 = true -> q.1 = []) rs ->
  forall id v, sql.shipments (day rs d) !! id = Some v -> sh_LegID v <> None -> on_board (sh_Status v) ->
  exists c, customs_cases (day rs d) !! id = Some c /\ cc_Status c = CustomsReleased.
Proof.
  revert d. induction rs as [|[fs r] rs IH]; intros d Hd Hg Hrs; [exact Hg|].
  apply Forall_cons in Hrs as [Hr Hrs].
  apply IH; [by apply run_consistent| |done].
  apply (run_gated (handle app r) (postgres.mkStore d fs)); [done|by apply handle_gate|done].
Qed.
End gate.

(** ** Cargo gets through *)

Section passage.
Context `{External} `{Server} (app : Application).
Context (authorization : string) (ses : Session) (u : User) (id lid cid qid : string).
Context (Hu : u_Active u = true /\ u_Role u = RoleCoordinator).

(** Where the cargo stands in a database: its shipment, its leg, the states of its case
    and of its check, for a coordinator who has a session. *)
Record stands (sh : Shipment) (l : FlightLeg) (cu : option CustomsStatus)
    (se : option SecurityStatus) d : Prop := {
  st_consistent : consistent d;
  st_token : token_of authorization <> "";
  st_session : sessions d !! HashToken (token_of authorization) = Some ses;
  st_user : sql.users d !! ses_UserID ses = Some u;
  st_shipment : sql.shipments d !! id = Some sh;
  st_tenant : sh_TenantID sh = u_TenantID u;
  st_leg : flight_legs d !! lid = Some l;
  st_leg_tenant : leg_TenantID l = u_TenantID u;
  st_customs : cc_Status <$> customs_cases d !! id = cu;
  st_case_id : customs_cases d !! id = None -> no_row (fun c => cc_ID c = cid) (customs_cases d);
  st_security : sc_Status <$> security_checks d !! id = se;
  st_check_id : security_checks d !! id = None -> no_row (fun c => sc_ID c = qid) (security_checks d) }.

(** The texts of what stands are valid. *)
Lemma stands_texts sh l cu se d : stands sh l cu se d ->
  valid_text (u_TenantID u) /\ valid_text id /\ valid_text lid /\ valid_text (u_ID u) /\
  u_ID u = ses_UserID ses /\ valid_texts (sh_IdempotencyKey sh :: shipment_texts sh).
Proof.
  intros Hd. pose proof (st_consistent _ _ _ _ _ Hd) as Hc.
  destruct (shipments_rows _ Hc _ _ (st_shipment _ _ _ _ _ Hd)) as (Hid & _ & _ & _ & _ & Hs).
  destruct (users_rows _ Hc _ _ (st_user _ _ _ _ _ Hd)) as (Huid & _ & _ & Hux).
  destruct (leg_key_texts _ _ _ Hc (st_leg _ _ _ _ _ Hd)) as [Hlid Hten].
  rewrite (st_leg_tenant _ _ _ _ _ Hd) in Hten. pose proof Hs as Hs'. split_texts Hs'.
  split_texts Hux. rewrite Hid in *. by split_and!.
Qed.

Definition asks (e : env) (p : protected_route) : http_request := mkRequest authorization (Protected p) e.

(** The session is live when a request with [e] arrives. *)
Definition live (e : env) : Prop := IsSessionActive ses (env_auth e) = None.

(** Requests that are all answered 200, and the database that they lead to. *)
Definition passes (rs : list http_request) d (P : DB -> Prop) : Prop :=
  exists d' xs, answers app rs (quiet d) = (quiet d', xs) /\
    rs_status <$> xs = replicate (length rs) 200 /\ P d'.

Lemma passes_nil d (P : DB -> Prop) : P d -> passes [] d P.
Proof. by exists d, []. Qed.

(** A request of the coordinator that succeeds. *)
Lemma passes_cons {A} sh l cu se e p (q : prog (result A)) show rs d d' v P :
  stands sh l cu se d -> live e ->
  protected_handler authorization e p u = respond q 200 show ->
  run q (quiet d) = (quiet d', Ok v) -> (consistent d' -> passes rs d' P) ->
  passes (asks e p :: rs) d P.
Proof.
  intros Hd He Hp Hq Hrs.
  assert (Ha : run (Authenticate (token_of authorization) (env_auth e)) (quiet d) = (quiet d, Ok (u, ses))).
  { destruct (stands_texts _ _ _ _ _ Hd) as (_ & _ & _ & Huid & Hses & _). rewrite Hses in Huid.
    pose proof (hash_text (token_of authorization)).
    unfold Authenticate. rewrite decide_False by apply Hd. cbn [run].
    unfold exec at 1, postgres_store at 1, postgres.GetSession.
    rewrite find_row_quiet, (st_session _ _ _ _ _ Hd) by texts.
    rewrite He. cbn [run]. unfold exec, postgres_store, postgres.GetUser, user.
    rewrite find_row_quiet, (st_user _ _ _ _ _ Hd) by texts. by rewrite (proj1 Hu). }
  assert (Hr : run (handle app (asks e p)) (quiet d) = (quiet d', write 200 (show v))).
  { unfold handle, router, asks. cbn [rq_route rq_authorization rq_env]. unfold auth.
    rewrite run_bind, Ha, mustUser_WithUser, Hp. unfold respond. by rewrite run_bind, Hq. }
  destruct Hrs as (d2 & xs & Hxs & Hall & HP).
  { pose proof (run_consistent q (quiet d) (st_consistent _ _ _ _ _ Hd)) as Hd'. by rewrite Hq in Hd'. }
  exists d2, (write 200 (show v) :: xs). simpl. rewrite Hr, Hxs. split_and!; [done|by f_equal|done].
Qed.

(** The reads of a use case. *)
Lemma stands_shipment sh l cu se d : stands sh l cu se d ->
  exec (repository.GetShipment (u_TenantID u) id) (quiet d) = (quiet d, Ok sh).
Proof.
  intros Hd. destruct (stands_texts _ _ _ _ _ Hd) as (? & ? & _).
  unfold exec, postgres_store, postgres.GetShipment, shipment. rewrite find_row_quiet by texts.
  by rewrite (proj2 (shipment_of_Some _ _ _ _) (conj (st_shipment _ _ _ _ _ Hd) (st_tenant _ _ _ _ _ Hd))).
Qed.

Lemma stands_leg sh l cu se d : stands sh l cu se d ->
  exec (repository.GetLeg (u_TenantID u) lid) (quiet d) = (quiet d, Ok l).
Proof.
  intros Hd. destruct (stands_texts _ _ _ _ _ Hd) as (? & _ & ? & _).
  unfold exec, postgres_store, postgres.GetLeg. rewrite find_row_quiet by texts.
  by rewrite (proj2 (leg_of_Some _ _ _ _) (conj (st_leg _ _ _ _ _ Hd) (st_leg_tenant _ _ _ _ _ Hd))).
Qed.

(** ** The steps of the way *)

(** A shipment after a transition. *)
Definition moved (next : ShipmentStatus) (now : Time) (sh : Shipment) : Shipment :=
  set_sh_Version (sh_Version sh + 1) (set_sh_UpdatedAt (timestamptz now) (set_sh_Status next sh)).

(** What a write leaves of [stands], field by field. *)
Ltac stand Hd := destruct Hd; split; simpl in *; rewrite ?lookup_insert_eq; done.

Lemma book_passes sh l cu se d e rs P :
  stands sh l cu se d -> live e ->
  sh_Status sh = ShipmentDraft -> leg_Status l = LegOpen -> sh_Origin sh = leg_Origin l ->
  sh_Destination sh = leg_Destination l -> ValidateCapacity l (sh_WeightKg sh) = None -> in_range sh l ->
  (forall d', stands (booked_on lid (timestamptz (env_now e)) sh) (reserved_on (sh_WeightKg sh) l) cu se d' ->
    passes rs d' P) ->
  passes (asks e (PostShipmentBook id (Some lid)) :: rs) d P.
Proof.
  intros Hd He Hst Hlst Ho Hdest Hcap Hrange Hrs.
  pose proof (proj2 (shipment_of_Some _ _ _ _) (conj (st_shipment _ _ _ _ _ Hd) (st_tenant _ _ _ _ _ Hd))) as Hs.
  pose proof (proj2 (leg_of_Some _ _ _ _) (conj (st_leg _ _ _ _ _ Hd) (st_leg_tenant _ _ _ _ _ Hd))) as Hl.
  assert (Hroom : negb (Shipment_CanTransition (sh_Status sh) ShipmentBooked)
    || bool_decide (leg_Status l <> LegOpen) = false) by (rewrite Hst, Hlst; reflexivity).
  pose proof (postgres_booking d (u_TenantID u) id lid (sh_Version sh) (leg_Version l) (env_now e)
    (st_consistent _ _ _ _ _ Hd)) as Hb.
  destruct (stands_texts _ _ _ _ _ Hd) as (? & ? & ? & _). specialize (Hb ltac:(texts)).
  rewrite Hs, Hl in Hb. unfold booking_refused in Hb.
  rewrite decide_False, Hroom, decide_False, Hcap in Hb by naive_solver.
  eapply (passes_cons sh l cu se); [done|done|reflexivity| |intros Hd'; apply Hrs].
  - unfold BookShipment. rewrite decide_False by naive_solver. cbn [run].
    rewrite (stands_shipment _ _ _ _ _ Hd). cbn [run]. rewrite (stands_leg _ _ _ _ _ Hd).
    rewrite Hroom, decide_False by naive_solver. cbn [run]. unfold exec, postgres_store.
    rewrite Hb by (intros; by simplify_eq). reflexivity.
  - unfold booked_db in *. destruct d, sh, l. stand Hd.
Qed.

Lemma transition_passes sh l cu se d e next rs P :
  stands sh l cu se d -> live e -> Shipment_CanTransition (sh_Status sh) next = true ->
  in_int4 (sh_Pieces sh) -> in_int64 (sh_Version sh + 1) -> valid_text next ->
  (on_board next -> cu = Some CustomsReleased /\ se = Some SecurityPassed) ->
  (forall d', stands (moved next (env_now e) sh) l cu se d' -> passes rs d' P) ->
  passes (asks e (PostShipmentTransition id (Some next)) :: rs) d P.
Proof.
  intros Hd He Hcan H4 Hv Hnext Hgate Hrs. destruct (stands_texts _ _ _ _ _ Hd) as (_ & Hidt & _ & _ & _ & Htx).
  destruct (shipments_rows _ (st_consistent _ _ _ _ _ Hd) _ _ (st_shipment _ _ _ _ _ Hd)) as [Hid _].
  set (sh' := set_sh_UpdatedAt (env_now e) (set_sh_Status next sh)).
  set (d' := sql.with_shipments (<[id := moved next (env_now e) sh]> (sql.shipments d)) d).
  assert (Hst : run (store_transition sh next (env_now e)) (quiet d) = (quiet d', Ok sh')).
  { unfold store_transition. cbv zeta. fold sh'. cbn [run]. unfold exec, postgres_store.
    replace (sh_Version sh') with (sh_Version sh) by (by destruct sh).
    rewrite (update_quiet d sh' sh); [by destruct sh; simpl in *; subst|apply Hd| |by destruct sh..|].
    - destruct sh; simpl in *; subst. apply Hd.
    - destruct sh. split_texts Htx. unfold shipment_texts, valid_texts. simpl. rewrite !Forall_cons. by split_and!. }
  eapply (passes_cons sh l cu se); [done|done|reflexivity| |intros Hd'; apply Hrs].
  - unfold TransitionShipment. rewrite decide_False by naive_solver. cbn [run].
    rewrite (stands_shipment _ _ _ _ _ Hd), Hcan. cbn [negb]. case_decide as Hon; [|exact Hst].
    destruct Hon as [_ Hon]. destruct (Hgate Hon) as [-> ->].
    pose proof (st_customs _ _ _ _ _ Hd) as Hc. pose proof (st_security _ _ _ _ _ Hd) as Hq.
    destruct (customs_cases d !! id) as [c|] eqn:Hcus; [|done].
    destruct (security_checks d !! id) as [q|] eqn:Hsec; [|done]. cbn [run].
    unfold exec at 1, postgres_store at 1, postgres.GetCustoms. rewrite find_row_quiet, Hcus by texts. cbn [run].
    unfold exec at 1, postgres_store at 1, postgres.GetSecurity. rewrite find_row_quiet, Hsec by texts.
    simpl in Hc, Hq. injection Hc as Hc. injection Hq as Hq.
    unfold CustomsAllowsLoading, SecurityAllowsLoading. rewrite Hc, Hq. exact Hst.
  - subst d'. destruct d, sh. stand Hd.
Qed.

(** A case is recorded for the first time. *)
Lemma customs_passes sh l se d e st doc rs P :
  stands sh l None se d -> live e -> cid <> "" -> valid_texts [cid; st; doc] ->
  (forall d', stands sh l (Some st) se d' -> passes rs d' P) ->
  passes (asks e (PostCustoms id (Some (mkCustomsCase cid "" st doc None 0))) :: rs) d P.
Proof.
  intros Hd He Hcid Htx Hrs. split_texts Htx. destruct (stands_texts _ _ _ _ _ Hd) as (_ & Hidt & _).
  assert (Hcus : customs_cases d !! id = None)
    by (pose proof (st_customs _ _ _ _ _ Hd) as Hc; by destruct (customs_cases d !! id)).
  eapply (passes_cons sh l None se); [done|done|reflexivity| |intros Hd'; apply Hrs].
  - unfold PutCustoms. rewrite decide_False by naive_solver. cbn [run cc_ShipmentID].
    rewrite (stands_shipment _ _ _ _ _ Hd). cbn [run].
    unfold exec at 1, postgres_store at 1, postgres.GetCustoms. rewrite find_row_quiet, Hcus by texts. cbn [run].
    unfold nonEmpty. rewrite decide_False by done. unfold exec, postgres_store.
    rewrite customs_quiet; simpl; [rewrite Hcus; reflexivity|apply Hd| |done|].
    + eexists. apply Hd.
    + unfold customs_texts. simpl. texts.
  - destruct d. stand Hd.
Qed.

Lemma security_passes sh l cu d e notes rs P :
  stands sh l cu None d -> live e -> qid <> "" -> valid_texts [qid; notes] ->
  (forall d', stands sh l cu (Some SecurityPassed) d' -> passes rs d' P) ->
  passes (asks e (PostSecurity id (Some (mkSecurityCheck qid "" SecurityPassed None notes None))) :: rs) d P.
Proof.
  intros Hd He Hqid Htx Hrs. split_texts Htx. destruct (stands_texts _ _ _ _ _ Hd) as (_ & Hidt & _ & Huidt & _).
  assert (Hsec : security_checks d !! id = None)
    by (pose proof (st_security _ _ _ _ _ Hd) as Hc; by destruct (security_checks d !! id)).
  eapply (passes_cons sh l cu None); [done|done|reflexivity| |intros Hd'; apply Hrs].
  - unfold PutSecurity. rewrite decide_False by naive_solver. cbn [run sc_ShipmentID].
    rewrite (stands_shipment _ _ _ _ _ Hd). cbv zeta. rewrite decide_True by done. cbn [run].
    unfold nonEmpty. simpl. rewrite decide_False by done. unfold exec, postgres_store.
    rewrite security_quiet; simpl; [rewrite Hsec; reflexivity|apply Hd|eexists; apply Hd| |].
    2: { unfold security_texts. simpl. texts. }
    eexists. destruct (users_rows _ (st_consistent _ _ _ _ _ Hd) _ _ (st_user _ _ _ _ _ Hd)) as [-> _]. apply Hd.
  - destruct d. stand Hd.
Qed.

(** ** The way *)

(** From the booking to the departure. *)
Definition way (es : nat -> env) (doc notes : string) : list http_request :=
  [asks (es 0%nat) (PostShipmentBook id (Some lid));
   asks (es 1%nat) (PostShipmentTransition id (Some ShipmentScreening));
   asks (es 2%nat) (PostShipmentTransition id (Some ShipmentCleared));
   asks (es 3%nat) (PostCustoms id (Some (mkCustomsCase cid "" CustomsReleased doc None 0)));
   asks (es 4%nat) (PostSecurity id (Some (mkSecurityCheck qid "" SecurityPassed None notes None)));
   asks (es 5%nat) (PostShipmentTransition id (Some ShipmentLoaded));
   asks (es 6%nat) (PostShipmentTransition id (Some ShipmentDeparted))].

(** The next transition on the way: its version is one more than the last. *)
Ltac on H4 Hn := eapply transition_passes; [eassumption|done|reflexivity|exact H4|
  simpl; rewrite <- ?Z.add_assoc; apply Hn; lia|by apply (bool_decide_unpack _); vm_compute|
  done || by intros [?|?]|].

(** Shipment [sh] has departed on leg [l], which has room reserved for it. *)
Definition carried (sh : Shipment) (l : FlightLeg) d : Prop := exists v k,
  sql.shipments d !! id = Some v /\ flight_legs d !! lid = Some k /\
  sh_Status v = ShipmentDeparted /\ sh_LegID v = Some lid /\ sh_Version v = sh_Version sh + 5 /\
  leg_ReservedKg k = leg_ReservedKg l + sh_WeightKg sh.

(** C8. Cargo that fits gets through: over the PostgreSQL store while nothing fails, a
    coordinator who books a draft shipment on an open leg of its route with room for it,
    screens and clears it, records its release and its passed check, loads it and lets
    it depart, is answered 200 every time; the shipment has then departed on its leg,
    which has its weight reserved.  The conditions: the session is live at every
    request; the shipment has no customs case and no security check on record yet, and
    the case and the check that are recorded have identifiers of their own that no
    other has; the texts recorded are valid; and the versions, the pieces and the
    reservation stay within their columns. *)
Theorem cargo_gets_through es doc notes sh l d :
  stands sh l None None d -> (forall i, live (es i)) -> cid <> "" -> qid <> "" ->
  sh_Status sh = ShipmentDraft -> leg_Status l = LegOpen -> sh_Origin sh = leg_Origin l ->
  sh_Destination sh = leg_Destination l -> ValidateCapacity l (sh_WeightKg sh) = None ->
  in_range sh l -> in_int4 (sh_Pieces sh) -> in_int64 (sh_Version sh + 5) ->
  valid_texts [cid; qid; doc; notes] ->
  exists d' xs, answers app (way es doc notes) (quiet d) = (quiet d', xs) /\
    rs_status <$> xs = replicate 7 200 /\ carried sh l d'.
Proof.
  intros Hd Hes Hcid Hqid Hst Hlst Ho Hdest Hcap Hrange H4 Hv Htx.
  assert (Htexts : valid_texts [cid; CustomsReleased; doc] /\ valid_texts [qid; notes])
    by (split_texts Htx; split; texts).
  destruct Htexts as [Hcase Hcheck].
  change (passes (way es doc notes) d (carried sh l)).
  assert (Hbv : sh_Version (booked_on lid (timestamptz (env_now (es 0%nat))) sh) = sh_Version sh + 1).
  { destruct sh. apply add64_exact, Hrange. }
  assert (Hkg : leg_ReservedKg (reserved_on (sh_WeightKg sh) l) = leg_ReservedKg l + sh_WeightKg sh).
  { destruct l. apply add64_exact, Hrange. }
  assert (Hn : forall k, 1 <= k <= 5 -> in_int64 (sh_Version sh + k)).
  { destruct Hrange as [Hv1 _]. unfold in_int64 in *. lia. }
  eapply book_passes; [done..|]. intros d1 H1.
  set (b := booked_on _ _ _) in *. assert (Hb : sh_Status b = ShipmentBooked /\ sh_LegID b = Some lid /\
    sh_Pieces b = sh_Pieces sh) by (by destruct sh). clearbody b. destruct b. simpl in *.
  destruct Hb as (-> & -> & ->). rewrite Hbv in *.
  on H4 Hn. intros d2 H2. on H4 Hn. intros d3 H3.
  eapply customs_passes; [done..|]. intros d4 H4'.
  eapply security_passes; [done..|]. intros d5 H5.
  on H4 Hn. intros d6 H6. on H4 Hn. intros d7 H7. apply passes_nil.
  eexists _, _. split_and!; [apply H7|apply H7|done|done|simpl; lia|done].
Qed.
End passage.

(** ** A loading, and the gate lost *)

Section loading.
#[local] Existing Instance sample_external.
#[local] Existing Instance sample_server.

(** The requests of the clerk's day up to the loading; the loading at its first
    attempt meets a dropped connection. *)
Definition loading : list (list fate * http_request) :=
  ((fun r => ([], r)) <$> take 12 clerk_day) ++
  [([Passes; Passes; Refused (ErrText "connection reset")], clerk_asks 12500 (PostShipmentTransition "S1" (Some ShipmentLoaded)));
   ([], clerk_asks 13000 (PostShipmentTransition "S1" (Some ShipmentLoaded)))].

Definition standing (d : DB) : option ShipmentStatus * option CustomsStatus :=
  (sh_Status <$> sql.shipments d !! "S1", cc_Status <$> customs_cases d !! "S1").

Lemma start_consistent : consistent start_db.
Proof.
  eapply mir_consistent, (mirrors_one_user (mkTenant "acme" "Acme" true 0) clerk);
    [reflexivity|apply (bool_decide_unpack _); vm_compute; exact I..].
Qed.

Lemma loaded_cargo_is_released_witness :
  let d := day (mkApplication Hour) loading start_db in
  standing d = (Some ShipmentLoaded, Some CustomsReleased) /\
  exists c, customs_cases d !! "S1" = Some c /\ cc_Status c = CustomsReleased.
Proof.
  intros d. split; [vm_compute; reflexivity|].
  destruct (sql.shipments d !! "S1") as [v|] eqn:Hv; [|by vm_compute in Hv].
  eapply (loaded_cargo_is_released (mkApplication Hour) loading start_db); [exact start_consistent| | |exact Hv| |].
  - intros id w Hw. change (tb_shipments (tables_of start_db)) with (∅ : gmap string Shipment) in Hw.
    by rewrite lookup_empty in Hw.
  - apply (bool_decide_unpack _). vm_compute. exact I.
  - intros Hl. vm_compute in Hv. by simplify_eq.
  - vm_compute in Hv. simplify_eq. by left.
Defined.

(** [PutCustoms] takes any error of [GetCustoms] for a case that is not there: when that
    statement fails the released case of loaded cargo goes back to review. *)
Example gate_lost :
  standing (day (mkApplication Hour) (loading ++
    [([Passes; Passes; Passes; Refused (ErrText "connection reset")],
      clerk_asks 13500 (PostCustoms "S1" (Some (mkCustomsCase "S1" "" CustomsReview "doc" None 0))))]) start_db)
  = (Some ShipmentLoaded, Some CustomsReview).
Proof. vm_compute. reflexivity. Qed.

(** The same request while nothing fails is refused. *)
Example gate_kept :
  standing (day (mkApplication Hour) (loading ++
    [([], clerk_asks 13500 (PostCustoms "S1" (Some (mkCustomsCase "S1" "" CustomsReview "doc" None 0))))]) start_db)
  = (Some ShipmentLoaded, Some CustomsReleased).
Proof. vm_compute. reflexivity. Qed.

(** The clerk after the login, with an open leg and a draft. *)
Definition at_dock : DB := day (mkApplication Hour) ((fun r => ([], r)) <$> take 4 clerk_day) start_db.

Definition dock_shipment : Shipment :=
  mkShipment "S1" "acme" "REF-1" "PEK" "FRA" 60 2 ShipmentDraft None "key" 1 4000 4000.
Definition dock_leg : FlightLeg :=
  mkFlightLeg "L1" "acme" "AB123" "PEK" "FRA" 5000000 9000000 100 0 LegOpen 2 2000.
Definition dock_session : Session := mkSession "736964" "u-cora" "373436663662" 3600000001000 None 1000.

Lemma at_dock_stands :
  stands ("Bearer " +:+ hex_encode "tok") dock_session clerk "S1" "L1" "C1" "Q1" dock_shipment dock_leg
    None None at_dock.
Proof.
  split; try (vm_compute; reflexivity).
  - apply day_consistent, start_consistent.
  - vm_compute. discriminate.
  - intros _ i c Hc. by vm_compute in Hc.
  - intros _ i c Hc. by vm_compute in Hc.
Qed.

Lemma cargo_gets_through_witness :
  let e i := mkEnv 5000 (6000 + 1000 * Z.of_nat i) 0 "rid" (Ok "raw") [] in
  let token := "Bearer " +:+ hex_encode "tok" in
  let out := answers (mkApplication Hour) (way token "S1" "L1" "C1" "Q1" e "doc" "sealed") (quiet at_dock) in
  standing (db out.1) = (Some ShipmentDeparted, Some CustomsReleased) /\
  carried "S1" "L1" dock_shipment dock_leg (db out.1).
Proof.
  intros e token out. split; [vm_compute; reflexivity|].
  destruct (cargo_gets_through (mkApplication Hour) token dock_session clerk "S1" "L1" "C1" "Q1"
    (conj eq_refl eq_refl) e "doc" "sealed" dock_shipment dock_leg at_dock at_dock_stands)
    as (d' & xs & Hxs & _ & Hd').
  - intros i. reflexivity.
  - discriminate.
  - discriminate.
  - reflexivity.
  - reflexivity.
  - reflexivity.
  - reflexivity.
  - vm_compute. reflexivity.
  - apply (bool_decide_unpack _). vm_compute. exact I.
  - apply (bool_decide_unpack _). vm_compute. exact I.
  - apply (bool_decide_unpack _). vm_compute. exact I.
  - texts.
  - subst out. by rewrite Hxs.
Defined.

(** Cleared cargo whose case is in review. *)
Definition in_review : DB :=
  day (mkApplication Hour) ((fun r => ([], r)) <$> (take 9 clerk_day ++
    [clerk_asks 11000 (PostCustoms "S1" (Some (mkCustomsCase "S1" "" CustomsReview "doc" None 0)));
     clerk_asks 12000 (PostSecurity "S1" (Some (mkSecurityCheck "S1" "" SecurityPassed None "" None)))])) start_db.

(** Requests at the same time: one holds the case, one releases it, one loads. *)
Definition rush : list (string * prog response) :=
  (fun p => ("acme", handle (mkApplication Hour) (clerk_asks 13000 p))) <$>
  [PostCustoms "S1" (Some (mkCustomsCase "S1" "" CustomsHeld "doc" None 0));
   PostCustoms "S1" (Some (mkCustomsCase "S1" "" CustomsReleased "doc" None 0));
   PostShipmentTransition "S1" (Some ShipmentLoaded)].

(** [PutCustoms] reads the case and writes it in two calls: a release and a loading
    between them end with loaded cargo whose case is held, though nothing fails.  One
    after the other the same requests keep the gate: the cargo is not loaded. *)
Example gate_raced :
  let raced ks := standing (db (play ks (rush, quiet in_review)).2) in
  raced ([0; 0; 0; 0] ++ replicate 5 1 ++ replicate 6 2 ++ [0])%nat = (Some ShipmentLoaded, Some CustomsHeld) /\
  raced (replicate 5 0 ++ replicate 4 1 ++ replicate 5 2)%nat = (Some ShipmentCleared, Some CustomsHeld).
Proof. split; vm_compute; reflexivity. Qed.
End loading.
