(* ===== verification/scenario.v ===== *)
(** * Concrete runs

    A day at one station on the in-memory store, used as the witness of the
    theorems on interleavings and as a test of the executable definitions. *)

From S2P Require Import Prelude.
From S2P Require Import golang.
From S2P Require Import domain.
From S2P Require Import external.
From S2P Require Import memory.
From S2P Require Import repository.
From S2P Require Import service.
From S2P Require Import interleave.
From S2P Require Import system.
From S2P Require Import usecases.
From S2P Require Import httpapi.
From S2P Require Import worker.
From S2P Require Import server.

Open Scope string_scope.
Open Scope list_scope.
Open Scope Z_scope.

#[local] Existing Instance sample_external.

Definition cora : User :=
  mkUser "u-cora" "acme" "cora@acme.example" "secret" RoleCoordinator true 1 None.
Definition rival : User :=
  mkUser "u-rival" "rival" "rita@rival.example" "hidden" RoleCoordinator true 1 None.
Definition draft (id : string) : Shipment :=
  mkShipment id "" "REF-1" "PEK" "FRA" 60 2 "" None "" 0 0 0.
Definition leg100 : FlightLeg :=
  mkFlightLeg "L1" "" "AB123" "PEK" "FRA" 1000 2000 100 0 "" 0 0.

(** The store with its two users. *)
Definition seeded : memory.Store :=
  (memory.CreateUser rival (memory.CreateUser cora memory.New).1).1.

Lemma seeded_wf : memory.wf seeded.
Proof.
  apply (memory.exec_wf _ (repository.CreateUser rival) (memory.CreateUser cora memory.New).1 _ (Ok tt));
    [|reflexivity].
  apply (memory.exec_wf _ (repository.CreateUser cora) memory.New _ (Ok tt)); [apply memory.wf_New|reflexivity].
Qed.

Lemma seeded_good : good (Z.of_nat 0) (view seeded).
Proof. apply good_start; [done|apply (memory.wf_users _ seeded_wf)|reflexivity|reflexivity]. Qed.

(** Two shipments of 60 kg race for a leg of 100 kg; both requests have read the
    leg before either books. *)
Definition race : list request :=
  [RCreateLeg cora leg100 "" 10 10; ROpenLeg cora "L1";
   RCreateShipment cora (draft "S1") "" "" 11; RCreateShipment cora (draft "S2") "" "" 12;
   RBookShipment cora "S1" "L1" 13; RBookShipment cora "S2" "L1" 13].

(** The moment when both shipments exist and the first booking has read its
    shipment; when both requests are about to book; and when all are done. *)
Definition race_mid : list (string * prog (option error)) * memory.Store := play [0; 1; 1; 2; 3; 4]%nat (serving race seeded).
Definition race_book : list (string * prog (option error)) * memory.Store := play [5; 4; 5]%nat race_mid.
Definition race_end : list (string * prog (option error)) * memory.Store := play [4; 5]%nat race_book.

Lemma race_mid_steps : nsteps any_step 6 (serving race seeded) race_mid.
Proof. apply (play_nsteps [0; 1; 1; 2; 3; 4]%nat). vm_compute. reflexivity. Qed.

Lemma race_book_steps : nsteps any_step 9 (serving race seeded) race_book.
Proof.
  apply (nsteps_trans 6 3 _ race_mid); [apply race_mid_steps|].
  apply (play_nsteps [5; 4; 5]%nat). vm_compute. reflexivity.
Qed.

Lemma race_steps : nsteps any_step 11 (serving race seeded) race_end.
Proof.
  apply (nsteps_trans 9 2 _ race_book); [apply race_book_steps|].
  apply (play_nsteps [4; 5]%nat). vm_compute. reflexivity.
Qed.

Lemma race_sane : Forall sane race.
Proof. repeat constructor; simpl; try done; unfold max_weight; simpl; lia. Qed.

(** The second booking fails, and 60 of the 100 kg are taken. *)
Example race_outcomes :
  race_end.1.*2 = map Ret [None; None; None; None; None;
    Some (Errorf "book shipment: " ErrConflict "")] /\
  leg_ReservedKg <$> memory.legs race_end.2 !! "L1" = Some 60.
Proof. split; vm_compute; reflexivity. Qed.

Lemma no_overbooking_witness : exists l,
  tb_legs (view race_end.2) !! "L1" = Some l /\
  leg_ReservedKg l = map_sum (load_on "L1") (tb_shipments (view race_end.2)) /\
  0 <= leg_ReservedKg l <= leg_CapacityKg l.
Proof.
  eexists. split; [vm_compute; reflexivity|].
  apply (no_overbooking race 0 11 seeded race_end.2 race_end.1).
  - apply seeded_wf.
  - apply seeded_good.
  - apply race_sane.
  - rewrite <- surjective_pairing. apply race_steps.
  - vm_compute. discriminate.
  - vm_compute. reflexivity.
Defined.

Lemma race_rest_steps : nsteps any_step 5 race_mid race_end.
Proof.
  apply (nsteps_trans 3 2 _ race_book).
  - apply (play_nsteps [5; 4; 5]%nat). vm_compute. reflexivity.
  - apply (play_nsteps [4; 5]%nat). vm_compute. reflexivity.
Qed.

Lemma shipment_history_witness : exists s,
  tb_shipments (view race_mid.2) !! "S1" = Some s /\ sh_Status s = ShipmentDraft /\
  exists s', tb_shipments (view race_end.2) !! "S1" = Some s' /\ shipment_grows s s'.
Proof.
  eexists. split; [vm_compute; reflexivity|]. split; [reflexivity|].
  apply (shipment_history race 0 6 5 seeded race_mid race_end).
  - apply seeded_wf.
  - apply seeded_good.
  - apply race_sane.
  - apply race_mid_steps.
  - apply race_rest_steps.
  - vm_compute. discriminate.
  - vm_compute. reflexivity.
Defined.

(** The last call of a booking, and the rest of the request. *)
Definition book_S1 : storeop (result Shipment) := repository.BookShipment "acme" "S1" "L1" 1 2 13.
Definition book_rest (r : result Shipment) : prog (option error) :=
  outcome (match r with
           | Err err => Ret (Err (Errorf "book shipment: " err ""))
           | Ok booked => Ret (Ok booked)
           end).

Lemma race_book_split :
  race_book = (take 4 race_book.1 ++ ("acme", Call book_S1 book_rest) :: drop 5 race_book.1,
               race_book.2).
Proof. vm_compute. reflexivity. Qed.

(** The stale version 1 is refused after the booking. *)
Lemma no_lost_update_witness :
  let booked := exec book_S1 race_book.2 in
  let late := UpdateShipment (draft "S1") 1 in
  ~ succeeds late (exec late booked.1).2 /\ view (exec late booked.1).1 = view booked.1.
Proof.
  intros booked late.
  apply (no_lost_update race 0 9 0 seeded race_book.2 booked.1 (take 4 race_book.1)
    (drop 5 race_book.1) "acme" _ book_S1 book_rest booked.2 "S1" 1
    (take 4 race_book.1 ++ ("acme", book_rest booked.2) :: drop 5 race_book.1, booked.1)
    _ late (exec late booked.1).1).
  - apply seeded_wf.
  - apply seeded_good.
  - apply race_sane.
  - rewrite <- race_book_split. apply race_book_steps.
  - apply surjective_pairing.
  - left. vm_compute. intros [].
  - reflexivity.
  - constructor.
  - vm_compute. discriminate.
  - apply surjective_pairing.
  - reflexivity.
Defined.

Lemma race_book_step :
  pool_step "acme" race_book
    (take 4 race_book.1 ++ ("acme", book_rest (exec book_S1 race_book.2).2) :: drop 5 race_book.1,
     (exec book_S1 race_book.2).1).
Proof. rewrite race_book_split at 1. constructor. apply surjective_pairing. Qed.

Lemma tenant_isolation_witness :
  let after := (exec book_S1 race_book.2).1 in
  sh_Status <$> tb_shipments (view after) !! "S1" = Some ShipmentBooked /\
  forall id s, sh_TenantID s <> "acme" ->
    tb_shipments (view after) !! id = Some s <-> tb_shipments (view race_book.2) !! id = Some s.
Proof.
  split; [vm_compute; reflexivity|].
  apply (tenant_isolation race 0 9 seeded race_book
    (take 4 race_book.1 ++ ("acme", book_rest (exec book_S1 race_book.2).2) :: drop 5 race_book.1,
     (exec book_S1 race_book.2).1) "acme").
  - apply seeded_wf.
  - apply seeded_good.
  - apply race_sane.
  - apply race_book_steps.
  - apply race_book_step.
  - vm_compute. reflexivity.
Defined.

(** Cora logs in and deactivates the rival account. *)
Definition purge : list request :=
  [RLogin (mkApplication Hour) "cora@acme.example" "secret" (Ok "tok") "sid" 10;
   RDeactivateUser (hex_encode "tok") "u-rival" 11 12].

Definition purge_call : storeop (result unit) := repository.DeactivateUser "u-rival" 12.
Definition purge_rest (r : result unit) : prog (option error) :=
  outcome (match r with
           | Err err => Ret (Err (Errorf "deactivate: " err ""))
           | Ok _ => Ret (Ok tt)
           end).

Definition purge_mid : list (string * prog (option error)) * memory.Store :=
  play [0; 0; 1; 1]%nat (serving purge seeded).

Lemma purge_mid_split :
  purge_mid = (take 1 purge_mid.1 ++ ("", Call (repository.DeactivateUser "u-rival" 12) purge_rest) :: drop 2 purge_mid.1,
               purge_mid.2).
Proof. vm_compute. reflexivity. Qed.

Lemma purge_mid_steps : nsteps any_step 4 (serving purge seeded) purge_mid.
Proof. apply (play_nsteps [0; 0; 1; 1]%nat). vm_compute. reflexivity. Qed.

Lemma deactivated_for_good_witness :
  let s1 := (exec purge_call purge_mid.2).1 in
  (forall token now s2 u se, run (Authenticate token now) s1 = (s2, Ok (u, se)) ->
     u_ID u <> "u-rival") /\
  (forall a email password raw rid now s2 lr,
     run (Login a email password raw rid now) s1 = (s2, Ok lr) -> u_ID (lr_User lr) <> "u-rival").
Proof.
  intros s1.
  apply (deactivated_for_good purge 0 4 0 seeded purge_mid.2 s1 (take 1 purge_mid.1)
    (drop 2 purge_mid.1) "" purge_rest
    (take 1 purge_mid.1 ++ ("", purge_rest (Ok tt)) :: drop 2 purge_mid.1, s1) "u-rival" 12).
  - apply seeded_wf.
  - apply seeded_good.
  - repeat constructor.
  - rewrite <- purge_mid_split. apply purge_mid_steps.
  - vm_compute. reflexivity.
  - constructor.
  - vm_compute. discriminate.
Defined.

(** ** The use cases alone *)

(** The same day without the race: the leg is open and both shipments exist. *)
Fixpoint run_all (rs : list request) (s : memory.Store) : memory.Store :=
  match rs with
  | [] => s
  | r :: rs' => run_all rs' (run (serve r) s).1
  end.

Lemma run_all_wf rs s : wf s -> wf (run_all rs s).
Proof.
  revert s. induction rs as [|r rs IH]; intros s Hs; simpl; [done|]. apply IH.
  destruct (run (serve r) s) as [s' x] eqn:Hrun.
  exact (run_inv (Hlaw := memory_lawful) _ _ _ _ Hs Hrun).
Qed.

Definition day : memory.Store := run_all (take 4 race) seeded.

Lemma day_wf : wf day.
Proof. apply run_all_wf, seeded_wf. Qed.

Definition day_order : list string := ["S2"; "S1"].

Lemma range_order_by {A} (m : gmap string A) ks :
  NoDup ks -> (map_to_list m).*1 ≡ₚ ks -> range_order m ks.
Proof.
  intros Hnd Hp. split; [done|]. intros k. rewrite <- Hp.
  destruct (range_order_exists m) as [_ Hk]. apply Hk.
Qed.

Lemma day_orders : range_order (shipments day) day_order /\ range_order (shipments day) (rev day_order).
Proof.
  split; apply range_order_by; try (apply (bool_decide_unpack _); vm_compute; exact I).
Qed.

Lemma memory_implements_store_witness :
  let r := exec (CreateUser cora) memory.New in
  wf r.1 /\ store_post (CreateUser cora) (view memory.New) r.2 (view r.1).
Proof.
  intros r. apply (memory_implements_store _ (CreateUser cora) memory.New r.1 r.2).
  - apply memory.wf_New.
  - apply surjective_pairing.
Defined.

Lemma TransitionShipment_spec_witness : exists s' r,
  run (TransitionShipment cora "S1" ShipmentCancelled 20) day = (s', Ok r) /\
  sh_Status r = ShipmentCancelled.
Proof.
  eexists _, _. split.
  - apply (TransitionShipment_spec cora "S1" ShipmentCancelled 20 day).
    + apply day_wf.
    + split; [left; reflexivity|]. eexists. split; [vm_compute; reflexivity|].
      split; [reflexivity|]. split; [constructor; left|].
      split; [intros Hleg; by destruct Hleg|]. split; reflexivity.
  - reflexivity.
Defined.

Definition hour : Application := mkApplication Hour.

Lemma session_life_witness :
  let out := run (Login hour "cora@acme.example" "secret" (Ok "tok") "sid" 10) day in
  exists lr, out.2 = Ok lr /\
  exists se, run (Authenticate (lr_Token lr) 11) out.1 = (out.1, Ok (lr_User lr, se)).
Proof.
  eexists. split; [vm_compute; reflexivity|].
  apply (session_life hour "cora@acme.example" "secret" "tok" "sid" 10 _ 12 day).
  - apply day_wf.
  - discriminate.
  - vm_compute. reflexivity.
  - vm_compute. reflexivity.
Defined.

Lemma CreateShipment_idempotent_witness :
  let first := run (CreateShipment cora (draft "S7") "key" "" 30) day in
  exists r, first.2 = Ok r /\
  run (CreateShipment cora (draft "S8") "key" "" 31) first.1 = (first.1, Ok r).
Proof.
  eexists. split; [vm_compute; reflexivity|].
  apply (CreateShipment_idempotent cora cora (draft "S7") (draft "S8") "key" "" "" 30 31 day).
  - vm_compute. reflexivity.
  - discriminate.
  - right. reflexivity.
  - reflexivity.
  - vm_compute. reflexivity.
Defined.

(** A tenant with a bar in its name, and the tenant before the bar. *)
Definition barred : User := mkUser "u1" "acme|east" "e@e" "" RoleShipper true 1 None.
Definition plain : User := mkUser "u2" "acme" "a@a" "" RoleShipper true 1 None.

Lemma idempotency_crosses_tenants_witness :
  let first := run (CreateShipment barred (draft "S9") "k" "" 30) day in
  exists r, first.2 = Ok r /\ sh_TenantID r = "acme|east" /\
  run (CreateShipment plain (draft "S10") "east|k" "" 31) first.1 = (first.1, Ok r).
Proof.
  eexists. split; [vm_compute; reflexivity|]. split; [reflexivity|].
  apply (idempotency_crosses_tenants barred plain (draft "S9") (draft "S10") "acme" "east" "k"
    "" "" 30 31 day).
  - vm_compute. reflexivity.
  - discriminate.
  - reflexivity.
  - reflexivity.
  - left. reflexivity.
  - vm_compute. reflexivity.
Defined.

Lemma ListShipments_page_witness :
  let out := run (ListShipments day_order cora (mkPageRequest 1 "" "")) day in
  exists p, out.2 = Ok p /\ out.1 = day /\
  pg_Total p = Z.of_nat (length (of_tenant "acme" day)).
Proof.
  eexists. split; [vm_compute; reflexivity|].
  destruct (ListShipments_page day_order cora (mkPageRequest 1 "" "") day day
    (mkPage [default zero_Shipment (shipments day !! "S1")] "" 2)) as (Hs & Ht & _).
  - apply day_orders.
  - vm_compute. reflexivity.
  - split; [vm_compute; reflexivity|exact Ht].
Defined.

Lemma day_distinct : forall v w, v ∈ of_tenant "acme" day -> w ∈ of_tenant "acme" day ->
  sh_CreatedAt v = sh_CreatedAt w -> v = w.
Proof.
  assert (Hall : Forall (fun v => Forall (fun w => sh_CreatedAt v = sh_CreatedAt w -> v = w)
    (of_tenant "acme" day)) (of_tenant "acme" day)).
  { apply (bool_decide_unpack _). vm_compute. exact I. }
  intros v w Hv Hw. rewrite Forall_forall in Hall. specialize (Hall v Hv).
  rewrite Forall_forall in Hall. by apply Hall.
Qed.

Lemma ListShipments_deterministic_witness :
  run (ListShipments day_order cora (mkPageRequest 1 "" "")) day =
  run (ListShipments (rev day_order) cora (mkPageRequest 1 "" "")) day.
Proof.
  apply (ListShipments_deterministic day_order (rev day_order) cora (mkPageRequest 1 "" "") day).
  - apply day_orders.
  - apply day_orders.
  - apply day_distinct.
Defined.

(** ** The outbox *)

Definition event (id : string) : OutboxEvent :=
  mkOutboxEvent id "acme" "shipment.booked" "S1" "{}" 0 5 None None "".

Definition posted : memory.Store := (memory.Enqueue (event "e2") (memory.Enqueue (event "e1") day).1).1.

Lemma posted_wf : wf posted.
Proof.
  apply (memory.exec_wf _ (Enqueue (event "e2")) (memory.Enqueue (event "e1") day).1 _ (Ok tt));
    [|reflexivity].
  apply (memory.exec_wf _ (Enqueue (event "e1")) day _ (Ok tt)); [apply day_wf|reflexivity].
Qed.

Definition outbox_order : list string := ["e1"; "e2"].

Lemma posted_order : range_order (outbox posted) outbox_order.
Proof. apply range_order_by; apply (bool_decide_unpack _); vm_compute; exact I. Qed.

Lemma claimed_order :
  range_order (outbox (exec (Claim outbox_order 10 1) posted).1) outbox_order.
Proof. apply range_order_by; apply (bool_decide_unpack _); vm_compute; exact I. Qed.

Lemma Claim_exclusive_witness :
  let c1 := exec (Claim outbox_order 10 1) posted in
  let c2 := exec (Claim outbox_order 11 20) c1.1 in
  exists evs evs', c1.2 = Ok evs /\ c2.2 = Ok evs' /\ length evs = 1%nat /\ length evs' = 1%nat /\
  forall e e', e ∈ evs -> e' ∈ evs' -> ob_ID e <> ob_ID e'.
Proof.
  eexists _, _. split; [vm_compute; reflexivity|]. split; [vm_compute; reflexivity|].
  split; [reflexivity|]. split; [reflexivity|].
  apply (Claim_exclusive outbox_order outbox_order 10 11 1 20 posted
    (exec (Claim outbox_order 10 1) posted).1
    (exec (Claim outbox_order 11 20) (exec (Claim outbox_order 10 1) posted).1).1).
  - apply posted_wf.
  - apply posted_order.
  - apply claimed_order.
  - vm_compute. reflexivity.
  - vm_compute. reflexivity.
Defined.

Lemma tick_settles_witness : exists batch rest m,
  run (tick (fun _ => Some Canceled) outbox_order 10) posted = (with_outbox m posted, tt) /\
  batch ++ rest ≡ₚ due 10 (outbox posted) /\
  length batch = Nat.min 20 (length (due 10 (outbox posted))) /\
  (forall i v, batch !! i = Some v ->
     m !! ob_ID v = Some (failed 10 (error_string Canceled) (claimed 10 v))) /\
  (forall k, k ∉ (ob_ID <$> batch) -> m !! k = outbox posted !! k).
Proof.
  apply (tick_settles (fun _ => Some Canceled) outbox_order 10 posted).
  - apply posted_wf.
  - apply posted_order.
Defined.

(** Two events that are due and one that waits for another hour. *)
Definition late : OutboxEvent := mkOutboxEvent "late" "acme" "shipment.booked" "S1" "{}" 0 90 None None "".
Definition backlog : memory.Store := (memory.Enqueue late posted).1.
Definition backlog_order : list string := "late" :: outbox_order.

Lemma backlog_wf : wf backlog.
Proof. apply (memory.exec_wf _ (Enqueue late) posted _ (Ok tt)); [apply posted_wf|reflexivity]. Qed.

Lemma backlog_range : range_order (outbox backlog) backlog_order.
Proof. apply range_order_by; apply (bool_decide_unpack _); vm_compute; exact I. Qed.

Lemma outbox_drains_witness :
  exists s', run (Run (live_rounds [(backlog_order, 7)])) backlog = (s', tt) /\
    (forall k v, outbox backlog !! k = Some v -> claimable 5 v ->
       exists v', outbox s' !! k = Some v' /\ ob_PublishedAt v' <> None) /\
    (forall k v, outbox backlog !! k = Some v -> ~ claimable 10 v -> outbox s' !! k = Some v) /\
    (forall k, is_Some (outbox s' !! k) <-> is_Some (outbox backlog !! k)).
Proof.
  apply (outbox_drains [(backlog_order, 7)] 5 10 backlog).
  - apply backlog_wf.
  - lia.
  - constructor; [split; [apply backlog_range|lia]|constructor].
  - vm_compute. lia.
Defined.

(** ** The server *)

Definition at_noon : env := mkEnv 12 12 12 "rid" (Ok "tok2") [].
Definition from_cora (p : protected_route) : http_request :=
  mkRequest ("Bearer " +:+ hex_encode "tok") (Protected p) at_noon.

(** Cora is logged in. *)
Definition signed_in : memory.Store :=
  run_all [RLogin hour "cora@acme.example" "secret" (Ok "tok") "sid" 10] seeded.

Lemma signed_in_wf : wf signed_in.
Proof. apply run_all_wf, seeded_wf. Qed.

Lemma signed_in_good : good (Z.of_nat 0) (view signed_in).
Proof. apply good_start; [done|apply (memory.wf_users _ signed_in_wf)|reflexivity|reflexivity]. Qed.

Lemma responses_witness :
  let r := from_cora (PostShipmentBook "S1" (Some "L1")) in
  let out := run (handle hour r) signed_in in
  rs_status out.2 = 404 /\
  (rs_status out.2 ∈ [200; 201; 204] \/
   (out.1 = signed_in /\ 400 <= rs_status out.2 /\
    ((exists b, env_raw (rq_env r) = Ok b) -> rs_status out.2 ∈ [400; 401; 404; 409]))).
Proof.
  intros r out. split; [vm_compute; reflexivity|].
  apply (responses hour r signed_in). apply surjective_pairing.
Defined.

Lemma protected_needs_session_witness :
  run (handle hour (mkRequest "Bearer nonsense" (Protected (PostFlightLegs (Some leg100))) at_noon))
    signed_in = (signed_in, fail 401 ErrForbidden).
Proof.
  apply (protected_needs_session hour "Bearer nonsense" at_noon (PostFlightLegs (Some leg100))).
  intros se u Hse. vm_compute in Hse. discriminate Hse.
Defined.

Definition office : list http_request :=
  [from_cora (PostFlightLegs (Some leg100)); from_cora (PostFlightLegOpen "L1");
   from_cora (PostShipments (Some (draft "S1")) ""); from_cora (PostShipmentBook "S1" (Some "L1"))].

(** The office's requests have been answered; the worker has not started. *)
Definition office_end : nat * process memory.Store := served hour office (initial signed_in).

Lemma process_keeps_cargo_witness : exists s,
  tb_shipments (view (store office_end.2)) !! "S1" = Some s /\ sh_Status s <> ShipmentDraft.
Proof.
  eexists. split; [vm_compute; reflexivity|].
  assert (Hsane : Forall sane_http office) by (repeat constructor; simpl; try done; unfold max_weight; simpl; lia).
  destruct (process_keeps_cargo hour 0 office_end.1 signed_in office_end.2) as [Hs _].
  - apply signed_in_wf.
  - apply signed_in_good.
  - exact (nsteps_served hour sane_http office (initial signed_in) eq_refl Hsane).
  - vm_compute. discriminate.
  - apply (Hs "S1" _ "L1"); vm_compute; reflexivity.
Defined.

(** A process stopped before its worker has begun. *)
Lemma shutdown_completes_witness : exists p',
  rtc (step hour sane_http) (mkProcess Serving true Starting [] signed_in) p' /\ main p' = Exited.
Proof.
  destruct (shutdown_completes hour sane_http signed_in (mkProcess Serving true Starting [] signed_in))
    as [Hend _].
  - apply rtc_once, step_stop. discriminate.
  - destruct (Hend eq_refl) as (p' & Hp' & He & _). exists p'. split; assumption.
Defined.

Lemma PutCustoms_misfiled_witness :
  let c := mkCustomsCase "" "S1" CustomsReleased "doc" None 0 in
  let out := run (service.PutCustoms cora c "rid" 40) day in
  exists c', out.2 = Ok c' /\ cc_Status c' = CustomsReleased /\
  (cleared_to_load "S1" out.1 <-> cleared_to_load "S1" day).
Proof.
  eexists. split; [vm_compute; reflexivity|]. split; [reflexivity|].
  apply (PutCustoms_misfiled cora (mkCustomsCase "" "S1" CustomsReleased "doc" None 0)
    (mkCustomsCase (hex_encode "rid") "S1" CustomsReleased "doc" None 40) "rid" 40 day).
  - vm_compute. reflexivity.
  - vm_compute. discriminate.
Defined.
